(* ===== verification/_CoqProject ===== *)
-Q . S2P
Prelude.v
Crc.v
RecordFormat.v
RaftLog.v
Message.v
Wire.v
NodeState.v
Node.v
NodeFrame.v
Quorum.v
Election.v
ElectionSafety.v
Replication.v
Commit.v
Monotone.v
LogSteps.v
LogMatching.v
CommitSteps.v
LeaderCompleteness.v
StateMachineSteps.v
StateMachine.v
ReadSteps.v
LinearReads.v
DataLog.v
HintFile.v
Store.v
StoreIndex.v
StoreInv.v
StoreOps.v
StoreMap.v
KeyOrder.v
StoreOpen.v
StoreCrash.v
StoreCompact.v
StoreKill.v
StoreSide.v
StoreBackground.v
StoreRestore.v
StoreGrow.v
Resp.v
Server.v
ServerCommit.v
ServerLoop.v
Programs.v
DiskStorage.v
DiskProof.v
DiskCrash.v
Replicated.v
ReplicaSnapshot.v
ReplicaWrites.v
ReplicaRestore.v
ReplicaApply.v
ReplicaInline.v
ReplicaLife.v
ClusterAgreement.v
ClusterReads.v
ReplicaBackground.v
Proposals.v
Peers.v
Cluster.v
ClusterProgram.v
ClusterProof.v
ClusterRuns.v
