(* ===== verification/Prelude.v ===== *)
(** * minicask: a verification library

    minicask is a key-value store that keeps its data in append-only files, and a Raft
    implementation that replicates it. This library models both in Rocq, from the source
    under src/src/, and proves what makes them correct.

    ** The program and its parts

    - [crc.rs], [record.rs], [error.rs]: checksums, the layout of a record, errors.
    - [log.rs]: data files, a writer with a buffer ([LogWriter]) and a [Scanner].
    - [hint.rs]: an index of a data file kept beside it, believed only if it tiles it.
    - [store.rs]: the store: an index in memory over data files; open, get, put, delete,
      sync, compact in place, compact in the background, restore.
    - [raft/log.rs]: entries, memberships, the log in memory, the storage interface.
    - [raft/message.rs], [raft/wire.rs]: messages, their encoding and framing.
    - [raft/node.rs]: the consensus state machine: elections, replication, commitment,
      membership changes, snapshots, reads.
    - [resp.rs], [server.rs]: the client protocol; the server's commands, and the one fsync
      it runs for every write that waits.
    - [raft/storage.rs]: a node's term, vote, log and snapshot in three files.
    - [replicated.rs]: the store driven by the node: applying committed entries, snapshots of
      the store, restoring from a leader's.
    - [cluster.rs]: a replica as a running process: the queue of proposals, the address book
      and the connections to the peers, what each client command asks for, and waiting for an
      answer.
    - [bin/]: the programs: [minicask], which runs one command and leaves; the server; a cluster
      node; and [crash-writer], with which the tests leave a torn record behind.

    The store calls the record format, data files and hints; the node calls a storage
    through the interface of [raft/log.rs] and exchanges messages through the wire format;
    a replica hands a node's committed entries to a store; the threads of a cluster node share
    one replica.

    ** The files

    - Prelude: bytes, machine widths, little-endian numbers, results, the state and error
      monad [M] with its weakest precondition [wp], parsers, lemmas on lists.
    - Crc, RecordFormat: the checksum against a bit-at-a-time reference, what damage it
      always detects; records encoded, decoded and checked.
    - RaftLog: [Member], [Entry], [EntryLog] as a map from index to entry, the class
      [Storage] for the trait of that name, [StorageLaws] for what a node relies on, and
      [MemStorage] as an instance of both.
    - Message, Wire: every message encoded, decoded and framed.
    - NodeState, Node: the node's state as a record and every handler of [raft/node.rs],
      over any [Storage], in a state and error monad that keeps what was changed before an
      error and the messages to send.
    - NodeFrame: what each handler leaves alone, by the hint database [frame].
    - Quorum: majorities of memberships one voter apart meet.
    - Election, ElectionSafety: votes are durable before they are sent; a cluster as a step
      relation over nodes, messages in flight and restarts, with its invariant; at most one
      leader per term.
    - Replication, Commit, Monotone: a follower's log against a reference merge; the commit
      rule against the highest index a majority holds; what never goes back.
    - LogSteps, LogMatching: what an operation may do to a log that stands on a snapshot, and
      the logs of a whole cluster, with what is in their snapshots ([flog]), against the logs
      its leaders had.
    - CommitSteps, LeaderCompleteness, StateMachineSteps, StateMachine: what an operation may do
      to the commit index and to what a leader has counted; which entries are chosen and what
      keeps them so; that every step of a cluster of fixed membership keeps the invariant,
      snapshots taken, written in the background, put in place, sent and installed included;
      and what whole runs may commit.
    - ReadSteps, LinearReads: what an operation may do to the rounds reads wait for; the rounds,
      answers and forwarded questions of a whole run.
    - DataLog, HintFile, Store: the storage engine, one definition per operation of
      [log.rs], [hint.rs] and [store.rs]. The directory is a value [Dir]: data files, hints
      and part files by id.
    - StoreIndex, StoreInv, StoreOps, StoreMap: a store's history is the list of records in
      its files; [replay] is the map it means; [SInv] is the invariant; [Refines s m] says
      the store means [m], and every operation refines the one on maps.
    - StoreOpen, StoreCrash: opening a directory, torn or not; what survives closing,
      killing and losing power.
    - StoreCompact, StoreKill: compaction in place, and stopped half way, the originals being
      deleted in any order; [returns], which deleted keys may then be back.
    - StoreSide, StoreBackground, StoreRestore: compaction with writes going on around it,
      stopped anywhere, and restores.
    - StoreGrow: a store's files determine its history, and points in them keep standing for
      the same records.
    - Resp: commands and replies, read from and written to bytes.
    - Server: every command against the same command on a map; patterns.
    - ServerCommit: connections interleaving between lock regions, as a step relation with
      its invariant; the group commit, without the sleeping, which makes no difference to what
      may be sent.
    - ServerLoop: the server's connections from bytes to bytes: what a client sends, cut into
      reads anywhere, the pending replies, the wait for the disk, asleep on the condition variable or
      awake, the writes and their failures; a simulation into ServerCommit.
    - Programs: [minicask], [minicask-server] and [crash-writer], from arguments and files to
      output, exit code and files; [dir_means], the map a directory no store has open stands for.
    - DiskStorage: the durable storage, operation by operation, and opening its directory; the
      second instance of [Storage]. DiskProof: the laws of the interface, and reading back what
      was written. DiskCrash: its invariant [DInv], what it holds as a [MemStorage]
      ([disk_mem]), what a crash in the middle of an operation, or of opening, leaves ([leaves]),
      and a life of any number of them.
    - KeyOrder: the order keys are sorted by.
    - Replicated: commands, snapshots, the applied index and every operation of a replica.
    - ReplicaSnapshot: what a snapshot holds, and [SnapshotLaws], what a storage promises about
      its data, with an instance for each storage.
    - ReplicaWrites, ReplicaRestore: [SoundFrom], what a crash can leave of a replica's writes;
      walking a snapshot into a store.
    - ReplicaApply, ReplicaInline: the log as a list of commands, [state_at] the map it means
      at an index, [Mixed] what a store may hold after a crash, the invariant [RInv]; applying,
      and the snapshots taken while applying.
    - ReplicaLife, ReplicaBackground: where a kill may come while a replica applies, its snapshot
      and the compaction after it included, and what it leaves ([left_by]); a whole life as a step
      relation; restores beside it.
    - ClusterAgreement: consensus and application together: the lives of all the replicas of a run.
      ClusterReads: the same with a read in the middle of it.
    - Proposals: group commit for proposals; threads interleaving as a step relation.
    - Peers: the address book, the queues, the threads that own the connections, and those, one
      for each connection, that read at the other end.
    - Cluster: the replica, the count of changes and the book the threads share ([Shared]), each
      region in which a thread holds them, the plan of each command, waiting as a step relation,
      and a client's connection. ClusterProof: what they guarantee. ClusterRuns: whole clusters of
      three and five nodes, run.
    - ClusterProgram: [minicask-cluster], from its arguments to a configuration, and [bind], from
      that and the directories a node left to the state its threads share.

    ** What the theorems show

    - The store is a map: reads answer as the map it means, a put or a delete changes one
      key, refused writes change nothing, the byte counts are exact (StoreMap).
    - Nothing synced is lost: however a store ends, opening it gives a prefix of its history
      with every synced record in it (StoreCrash).
    - Compaction changes nothing but the bytes: in place, and in the background whatever is
      written meanwhile. Stopped at any point, it loses no key, whatever order the originals are
      deleted in; a key that was deleted may be back with a value it once had, and is not if
      those deleted by then were the oldest (StoreCompact, StoreKill, StoreBackground). The code
      takes the order from a hash map; [compact_delete_order_matters] shows that it matters.
    - One leader per term, with single-voter membership changes and restarts
      (ElectionSafety, Quorum, Election); appended entries and commitment are exactly those
      of reference definitions (Replication, Commit). While nothing is compacted, two logs with
      an entry of one term at one index are the same up to it, and a leader holds every entry of
      its term that any node has (LogMatching). While the membership is fixed, every leader
      holds what was committed in earlier terms, in its log or its snapshot, and no two nodes
      ever hand over different entries at one index, whatever is lost, repeated, reordered,
      crashed, restarted, compacted or installed from another's snapshot (StateMachine). While
      nothing is compacted either, all replicas follow one log, and two that have applied as far
      hold the same map (ClusterAgreement). A read, asked of the leader or through another node, is
      answered with an index that covers everything committed anywhere before it was asked
      (LinearReads), and a store that has applied that index holds exactly the log up to an index,
      no mixture that crashes have left (ClusterReads); as long as a node does not ask twice with
      one number: after a restart it does, and [restarted_read_stale] is a run in which such a read
      misses a write.
    - The server's commands are those of a map (Server); whatever its clients send, and however
      it is cut up on the way, each is sent the replies to its commands, as of one order of the
      commands of all of them; no reply to a write leaves before the write is where no crash takes
      it, and a reply that is to be sent can be (ServerLoop, ServerCommit). An empty line behind a
      command keeps its reply back ([blank_line_holds_reply]).
    - The durable storage of a node does what the one in memory does, through any number of
      crashes and restarts, crashes while opening included, and always opens again; a crash leaves
      an operation done, or not done, or the first few of its entries (DiskCrash).
    - A replica holds what the log means at the index it has applied, or, while it catches up
      after a crash, a mixture of that and later states that catching up makes exact. This is so
      for a replica that takes its snapshots, compacts and restores inside [apply], and as long as
      a compaction that is killed has deleted the oldest files first; in any other order the store
      still opens and lacks nothing, but keys that the log deleted may be there. A snapshot
      carries one store's contents to another, exactly (ReplicaLife, ReplicaBackground).
    - A cluster node proposes every write once, in order, and nobody waits for an answer that has
      come (Proposals, ClusterProof); a batch is answered command by command, with where it is in
      the log; a read answers as the single server would, once its index is confirmed and applied;
      what a leader sends fits a frame, given entries within the limit (ClusterProof); a link loses
      messages, keeps the order within a connection and does nothing else to them; who the book
      reaches, and at which address (Peers). Two runs show where this ends: a write acknowledged and lost, and a membership the
      book misses (ClusterRuns).
    - A run of [minicask] is its command on a map, and what it said it wrote survives the power
      failing; the torn record of [crash-writer] costs nothing (Programs). A cluster node is
      started with exactly the well-formed configurations and comes up as it was, whatever a crash
      left of its log, with the membership that is stored; its vote outlives the restart, unless it
      was for the id that its file uses for none (ClusterProgram).
    - The formats round-trip and refuse damage (Crc, RecordFormat, HintFile, Wire, Resp).

    ** Modelling choices

    - Numbers are [N]; widths are written out where they matter: casts to [u32]
      ([as_u32]), lengths in formats, timestamps and offsets ([is_u64]). The model does not
      wrap terms, log indices, file ids and tick counts.
    - Fuel: [scan_loop] and the hint parser take the length of what they read as fuel, one
      more than the turns they can make; the theorems on opening and on hints give results,
      not only properties of results.
    - The operating system does not refuse a call: reads and writes of files succeed. What a
      crash does is explicit: the active file keeps any prefix that contains what was
      synced; sealed files and atomically written files are whole; the raft log's file keeps
      any prefix of what is being appended. The clock is an argument. Opening the store's
      directory is not interrupted; opening the raft log's is.
      A hash map's order is an argument where the code depends on it.
    - Storage failures of the node are modelled: every storage operation may fail, through
      the laws of [StorageLaws].
    - [read_reply] takes fuel for nested arrays; more fuel than there are bytes is always
      enough ([read_reply_fuel]). [glob_match] has enough for any pattern and text.
      [recover_loop] and the reading of a snapshot take the length of
      what they read and one more.
    - A replica is proved against its node through what the node hands over: the committed
      entries are those of one log, and a snapshot ahead of the store holds what that log
      means there ([node_ok]). That the nodes of a cluster agree on what is
      committed is [state_machine_safety], for a fixed membership and a storage that does not
      fail; there a crash keeps a node's term, vote, log and snapshot, and loses the snapshots
      it was writing.
      ClusterAgreement gets the first half of [node_ok] from it. The jobs a replica may run in the
      background, compaction and restore, are not steps of the life of ReplicaLife;
      [background_compaction_exact], [stopped_background_compaction] and [background_restore_exact]
      say what they do to a store and to a replica. ReplicaLife and ClusterAgreement take a replica
      that is killed while it compacts to have deleted the oldest files first.
    - [fragmentation] is a quotient of floats in the source. Where the replica compares it, the
      model compares integers, which is the same below 2^53 bytes; where [minicask] prints it, the
      model computes it in binary64 (the standard library's [SpecFloat]) and rounds as [{:.1}] does.
    - The programs' arguments are text. Which directory a path names, and how [{:?}] prints a
      string, are arguments of the definitions.
    - Threads of a cluster node are interleaved in Proposals and in [wait_step]; elsewhere in
      Cluster each region that holds a lock is one function, and an abort of the process is [None].
      Tickets and the count of changes do not wrap. Time is not modelled: a deadline may pass at
      any moment, and a network attempt's outcome is an argument. A thread asleep on a condition
      variable may wake up for no reason; what is proved to come about (Proposals, ServerLoop) does
      not rest on that.
    - The words of a command line given to the server inline are within the limit the protocol sets
      for bulk strings ([words_fit]).
    - Not modelled: creating threads, accepting connections and the loops of [cluster.rs] around
      them (in the server a connection's socket is a list of the reads it gives), the Windows
      variants, and what the library logs for people. Not proved: that nodes agree on what is
      committed while memberships change, and what LinearReads and ClusterAgreement say of reads
      and of whole replicas once logs are compacted; the steps themselves are modelled (Node),
      and one leader per term is proved with both. *)

From Stdlib Require Export Strings.Byte NArith.
From stdpp Require Export sorting.
From stdpp Require Export base numbers option list strings gmap sets countable.

(** ** Bytes

    Rust's [u8] is the standard library's 256-constructor type [byte];
    [Vec<u8>] and [&[u8]] are lists of it. *)

Abbreviation bytes := (list byte).

#[export] Instance byte_eq_decision : EqDecision byte := Byte.byte_eq_dec.

(** [x as u8]: the low eight bits. *)
Definition u8 (x : N) : byte := default x00 (Byte.of_N (x mod 256)).

Lemma byte_to_N_lt (b : byte) : (Byte.to_N b < 256)%N.
Proof. pose proof (Byte.to_N_bounded b). lia. Qed.

Lemma to_N_u8 (x : N) : Byte.to_N (u8 x) = (x mod 256)%N.
Proof.
  unfold u8. destruct (Byte.of_N (x mod 256)) as [b|] eqn:E; simpl.
  - by apply Byte.to_of_N.
  - apply Byte.of_N_None_iff in E. pose proof (N.mod_lt x 256). lia.
Qed.

Lemma byte_to_N_inj (a b : byte) : Byte.to_N a = Byte.to_N b → a = b.
Proof. intros E. pose proof (Byte.of_to_N a). pose proof (Byte.of_to_N b). congruence. Qed.

Lemma u8_to_N (b : byte) : u8 (Byte.to_N b) = b.
Proof.
  apply byte_to_N_inj. rewrite to_N_u8, N.mod_small; [done|]. apply byte_to_N_lt.
Qed.

#[export] Program Instance byte_countable : Countable byte :=
  inj_countable Byte.to_N (λ n, Some (u8 n)) _.
Next Obligation. intros b. simpl. by rewrite u8_to_N. Qed.

(** Bytes of an ASCII literal, for the string constants of the source. *)
Definition lit (s : string) : bytes := String.list_byte_of_string s.

(** [l.len() as u64]. *)
Definition blen {A} (l : list A) : N := N.of_nat (length l).
Arguments blen {_} _ : simpl never.

Lemma blen_nil {A} : blen (@nil A) = 0%N.
Proof. done. Qed.

Lemma blen_cons {A} (x : A) l : blen (x :: l) = (1 + blen l)%N.
Proof. unfold blen. simpl. lia. Qed.

Lemma blen_app {A} (l k : list A) : blen (l ++ k) = (blen l + blen k)%N.
Proof. unfold blen. rewrite length_app. lia. Qed.

Lemma blen_0 {A} (l : list A) : blen l = 0%N → l = [].
Proof. unfold blen. destruct l; simpl; [done|lia]. Qed.

(** ** Machine integers

    Rust's unsigned integers are values of [N]; what makes one a [u32] or a
    [u64] is written where the source narrows or encodes it. *)

Definition U32_MAX : N := 4294967295.
Definition U64_MAX : N := 18446744073709551615.
Definition TWO32 : N := 4294967296.
Definition TWO64 : N := 18446744073709551616.

(** [x as u32] and [x as u64] of a wider value: the low bits. *)
Definition as_u32 (x : N) : N := (x mod TWO32)%N.
Definition as_u64 (x : N) : N := (x mod TWO64)%N.

Definition is_u32 (x : N) : Prop := (x < TWO32)%N.
Definition is_u64 (x : N) : Prop := (x < TWO64)%N.

(** [x.to_le_bytes()] for an [n]-byte integer, and [from_le_bytes]. *)
Fixpoint to_le (n : nat) (x : N) : bytes :=
  match n with
  | O => []
  | S n => u8 x :: to_le n (x / 256)
  end.

Fixpoint of_le (l : bytes) : N :=
  match l with
  | [] => 0
  | h :: t => (Byte.to_N h + 256 * of_le t)%N
  end.

Lemma length_to_le n x : length (to_le n x) = n.
Proof. revert x. induction n as [|n IH]; intros x; simpl; [done|]. by rewrite IH. Qed.

Lemma blen_to_le n x : blen (to_le n x) = N.of_nat n.
Proof. unfold blen. by rewrite length_to_le. Qed.

Lemma of_le_to_le n x : (x < 256 ^ N.of_nat n)%N → of_le (to_le n x) = x.
Proof.
  revert x. induction n as [|n IH]; intros x Hx.
  - simpl in *. lia.
  - cbn [to_le of_le]. rewrite to_N_u8, IH.
    + pose proof (N.div_mod' x 256). lia.
    + apply N.Div0.div_lt_upper_bound.
      rewrite Nat2N.inj_succ, N.pow_succ_r' in Hx. lia.
Qed.

Lemma of_le_to_le_u32 x : is_u32 x → of_le (to_le 4 x) = x.
Proof. intros H. by apply of_le_to_le. Qed.

Lemma of_le_to_le_u64 x : is_u64 x → of_le (to_le 8 x) = x.
Proof. intros H. by apply of_le_to_le. Qed.

Lemma of_le_lt l : (of_le l < 256 ^ blen l)%N.
Proof.
  induction l as [|h t IH]; [done|]. cbn [of_le].
  rewrite blen_cons, N.add_1_l, N.pow_succ_r'. pose proof (byte_to_N_lt h). lia.
Qed.

Lemma to_le_of_le l : to_le (length l) (of_le l) = l.
Proof.
  induction l as [|h t IH]; [done|]. cbn [of_le length to_le]. f_equal.
  - apply byte_to_N_inj. rewrite to_N_u8, N.mul_comm, N.Div0.mod_add.
    apply N.mod_small, byte_to_N_lt.
  - rewrite N.mul_comm, N.div_add by done.
    rewrite N.div_small by apply byte_to_N_lt. apply IH.
Qed.

Lemma to_le_of_le_n n l : length l = n → to_le n (of_le l) = l.
Proof. intros <-. apply to_le_of_le. Qed.

Lemma to_le_inj n x y :
  (x < 256 ^ N.of_nat n)%N → (y < 256 ^ N.of_nat n)%N → to_le n x = to_le n y → x = y.
Proof. intros Hx Hy E. by rewrite <-(of_le_to_le n x), E, of_le_to_le. Qed.

(** ** Slices *)

(** [l[a..b]] where the source has already checked the bounds. *)
Definition slice {A} (a e : N) (l : list A) : list A :=
  take (N.to_nat (e - a)) (drop (N.to_nat a) l).

(** [l.get(a..e)]. *)
Definition get_slice {A} (a e : N) (l : list A) : option (list A) :=
  if bool_decide (a ≤ e)%N && bool_decide (e ≤ blen l)%N then Some (slice a e l) else None.

Lemma slice_app_exact {A} (l k r : list A) :
  slice (blen l) (blen l + blen k) (l ++ k ++ r) = k.
Proof.
  unfold slice, blen.
  replace (N.to_nat (N.of_nat (length l) + N.of_nat (length k) - N.of_nat (length l)))
    with (length k) by lia.
  rewrite Nat2N.id, drop_app_length, take_app_length. done.
Qed.

Lemma slice_skip {A} a e (l k : list A) :
  (blen l ≤ a)%N → slice a e (l ++ k) = slice (a - blen l) (e - blen l) k.
Proof.
  intros H. unfold slice, blen in *. rewrite drop_app_ge by lia. f_equal; [lia|].
  f_equal. lia.
Qed.

Lemma slice_here {A} e (l k : list A) : blen l = e → slice 0 e (l ++ k) = l.
Proof. intros <-. exact (slice_app_exact [] l k). Qed.

Lemma slice_end {A} a e (l k : list A) :
  a = blen l → e = (blen l + blen k)%N → slice a e (l ++ k) = k.
Proof. intros -> ->. rewrite <-(app_nil_r (l ++ k)), <-(assoc_L (++)). apply slice_app_exact. Qed.

Lemma get_slice_app_exact {A} (l k r : list A) :
  get_slice (blen l) (blen l + blen k) (l ++ k ++ r) = Some k.
Proof.
  unfold get_slice. rewrite !bool_decide_true; [|rewrite !blen_app; lia|lia].
  simpl. by rewrite slice_app_exact.
Qed.

Lemma get_slice_Some {A} a e (l k : list A) :
  get_slice a e l = Some k → (a ≤ e)%N ∧ (e ≤ blen l)%N ∧ k = slice a e l ∧ blen k = (e - a)%N.
Proof.
  unfold get_slice. repeat case_bool_decide; simpl; intros [= <-].
  split_and!; [done..|]. unfold slice, blen in *. rewrite length_take, length_drop. lia.
Qed.

(** ** Errors (src/error.rs) *)

Inductive Error :=
  | Io (why : string)
  | Corrupt (file_id offset : N) (detail : string)
  | InvalidKey (why : string)
  | ValueTooLarge (len : N).

Inductive result (A : Type) :=
  | Ok (a : A)
  | Err (e : Error).
Arguments Ok {_} _.
Arguments Err {_} _.

#[export] Instance Error_eq_decision : EqDecision Error.
Proof. solve_decision. Defined.

#[export] Instance result_ret : MRet result := λ A a, Ok a.
#[export] Instance result_bind : MBind result := λ A B f m,
  match m with Ok a => f a | Err e => Err e end.
#[export] Instance result_fmap : FMap result := λ A B f m,
  match m with Ok a => Ok (f a) | Err e => Err e end.

(** [o.ok_or(e)]. *)
Definition ok_or {A} (o : option A) (e : Error) : result A :=
  match o with Some a => Ok a | None => Err e end.

(** ** State with errors

    [M S A] is a Rust method on [&mut self] that returns [Result<A>]: an
    early return with an error keeps whatever had been changed by then. *)

Definition M (S A : Type) : Type := S → result A * S.

#[export] Instance M_ret S : MRet (M S) := λ A a s, (Ok a, s).
#[export] Instance M_bind S : MBind (M S) := λ A B f m s,
  match m s with
  | (Ok a, s') => f a s'
  | (Err e, s') => (Err e, s')
  end.

Definition mget {S} : M S S := λ s, (Ok s, s).
Definition mgets {S A} (f : S → A) : M S A := λ s, (Ok (f s), s).
Definition mmodify {S} (f : S → S) : M S unit := λ s, (Ok tt, f s).
Definition mfail {S A} (e : Error) : M S A := λ s, (Err e, s).
Definition mlift {S A} (r : result A) : M S A := λ s, (r, s).
Definition mwhen {S} (c : bool) (m : M S unit) : M S unit := if c then m else mret tt.

Fixpoint miter {S A} (f : A → M S unit) (l : list A) : M S unit :=
  match l with
  | [] => mret tt
  | x :: l => f x ;; miter f l
  end.

(** [P]-preserving methods: [Steps R m] says that whatever [m] does to the
    state, error or not, is a step of the relation [R]. *)
Definition Steps {S A} (R : relation S) (m : M S A) : Prop := ∀ s, R s (m s).2.

Section steps.
Context {S : Type} (R : relation S) `{!PreOrder R}.

Lemma steps_ret {A} (a : A) : Steps R (mret a : M S A).
Proof. intros s. simpl. reflexivity. Qed.

Lemma steps_bind {A B} (m : M S A) (f : A → M S B) :
  Steps R m → (∀ a, Steps R (f a)) → Steps R (m ≫= f).
Proof.
  intros Hm Hf s. unfold mbind, M_bind. specialize (Hm s).
  destruct (m s) as [[a|e] s']; simpl in *; [|done]. etrans; [done|apply Hf].
Qed.

Lemma steps_gets {A} (f : S → A) : Steps R (mgets f).
Proof. intros s. simpl. reflexivity. Qed.

Lemma steps_get : Steps R mget.
Proof. intros s. simpl. reflexivity. Qed.

Lemma steps_fail {A} e : Steps R (mfail e : M S A).
Proof. intros s. simpl. reflexivity. Qed.

Lemma steps_lift {A} (r : result A) : Steps R (mlift r).
Proof. intros s. simpl. reflexivity. Qed.

Lemma steps_when c m : Steps R m → Steps R (mwhen c m).
Proof. intros H. destruct c; [done|]. apply steps_ret. Qed.

Lemma steps_iter {A} (f : A → M S unit) l : (∀ x, Steps R (f x)) → Steps R (miter f l).
Proof.
  intros H. induction l as [|x l IH]; simpl; [apply steps_ret|].
  by apply steps_bind.
Qed.

Lemma steps_if {A} (c : bool) (m1 m2 : M S A) :
  Steps R m1 → Steps R m2 → Steps R (if c then m1 else m2).
Proof. by destruct c. Qed.
End steps.

(** The weakest precondition of a method: [Q] of what it returns with success,
    [E] of the state an error leaves behind. *)
Definition wp {S A} (m : M S A) (Q : A → S → Prop) (E : S → Prop) (s : S) : Prop :=
  match m s with (Ok a, s') => Q a s' | (Err _, s') => E s' end.

Section wp.
Context {S : Type}.
Implicit Types (E : S → Prop).

Lemma wp_ret {A} (a : A) (Q : A → S → Prop) E s : Q a s → wp (mret a) Q E s.
Proof. done. Qed.

Lemma wp_bind {A B} (m : M S A) (f : A → M S B) Q E s :
  wp m (λ a s', wp (f a) Q E s') E s → wp (m ≫= f) Q E s.
Proof. unfold wp, mbind, M_bind. by destruct (m s) as [[a|e] s']. Qed.

Lemma wp_gets {A} (f : S → A) (Q : A → S → Prop) E s : Q (f s) s → wp (mgets f) Q E s.
Proof. done. Qed.

Lemma wp_modify (f : S → S) Q E s : Q tt (f s) → wp (mmodify f) Q E s.
Proof. done. Qed.

Lemma wp_when c (m : M S unit) Q E s :
  (c = true → wp m Q E s) → (c = false → Q tt s) → wp (mwhen c m) Q E s.
Proof. intros H1 H2. destruct c; simpl; auto. by apply wp_ret, H2. Qed.

Lemma wp_mono {A} (m : M S A) (Q Q' : A → S → Prop) E E' s :
  wp m Q E s → (∀ a s', Q a s' → Q' a s') → (∀ s', E s' → E' s') → wp m Q' E' s.
Proof. unfold wp. destruct (m s) as [[a|e] s']; auto. Qed.

(** A method known to take steps of [R] only. *)
Lemma wp_steps {A} (R : relation S) (m : M S A) (Q : A → S → Prop) E s :
  Steps R m → (∀ a s', R s s' → Q a s') → (∀ s', R s s' → E s') → wp m Q E s.
Proof. intros Hm HQ HE. unfold wp. specialize (Hm s). destruct (m s) as [[a|e] s']; auto. Qed.
End wp.

(** ** Readers

    A cursor over a byte string ([at] and [bytes] in the source) as the bytes
    still to be read. [None] is the [?] of the source's [Option] readers. *)

Definition parser (A : Type) : Type := bytes → option (A * bytes).

#[export] Instance parser_ret : MRet parser := λ A a r, Some (a, r).
#[export] Instance parser_bind : MBind parser := λ A B f p r,
  match p r with Some (a, r') => f a r' | None => None end.

Definition p_fail {A} : parser A := λ _, None.

(** [bytes.get(at..at + n)?], then [at += n]. *)
Definition p_take (n : N) : parser bytes := λ r,
  if (n <=? blen r)%N then Some (take (N.to_nat n) r, drop (N.to_nat n) r) else None.

Definition p_u8 : parser byte := l ← p_take 1; mret (default x00 (head l)).
Definition p_u32 : parser N := l ← p_take 4; mret (of_le l).
Definition p_u64 : parser N := l ← p_take 8; mret (of_le l).

(** A flag byte: 0 or 1, and nothing else. *)
Definition p_bool : parser bool :=
  x ← p_u8;
  match Byte.to_N x with 0%N => mret false | 1%N => mret true | _ => p_fail end.

Fixpoint p_repeat {A} (n : nat) (p : parser A) : parser (list A) :=
  match n with
  | O => mret []
  | S n => x ← p; l ← p_repeat n p; mret (x :: l)
  end.

(** [u8::from(bool)]. *)
Definition bool_byte (x : bool) : byte := if x then x01 else x00.

Lemma p_bind_Some {A B} (p : parser A) (f : A → parser B) r a r' :
  p r = Some (a, r') → (p ≫= f) r = f a r'.
Proof. intros E. unfold mbind, parser_bind. by rewrite E. Qed.

Lemma p_bind_inv {A B} (p : parser A) (f : A → parser B) r x :
  (p ≫= f) r = Some x → ∃ a r', p r = Some (a, r') ∧ f a r' = Some x.
Proof. unfold mbind, parser_bind. destruct (p r) as [[a r']|]; [eauto|done]. Qed.

Lemma p_take_app l r n : n = blen l → p_take n (l ++ r) = Some (l, r).
Proof.
  intros ->. unfold p_take. rewrite (proj2 (N.leb_le _ _)) by (rewrite blen_app; lia).
  unfold blen. rewrite Nat2N.id. by rewrite take_app_length, drop_app_length.
Qed.

Lemma p_take_inv n r l r' : p_take n r = Some (l, r') → r = l ++ r' ∧ blen l = n.
Proof.
  unfold p_take. destruct (N.leb_spec n (blen r)); [|done]. intros [= <- <-].
  split; [by rewrite take_drop|]. unfold blen in *. rewrite length_take. lia.
Qed.

Lemma p_u8_cons x r : p_u8 (x :: r) = Some (x, r).
Proof. unfold p_u8. erewrite p_bind_Some; [|by apply (p_take_app [x] r)]. done. Qed.

Lemma p_u32_app x r : is_u32 x → p_u32 (to_le 4 x ++ r) = Some (x, r).
Proof.
  intros H. unfold p_u32. erewrite p_bind_Some by (by apply p_take_app).
  by rewrite of_le_to_le_u32.
Qed.

Lemma p_u64_app x r : is_u64 x → p_u64 (to_le 8 x ++ r) = Some (x, r).
Proof.
  intros H. unfold p_u64. erewrite p_bind_Some by (by apply p_take_app).
  by rewrite of_le_to_le_u64.
Qed.

Lemma p_bool_cons x r : p_bool (bool_byte x :: r) = Some (x, r).
Proof. unfold p_bool. erewrite p_bind_Some by apply p_u8_cons. by destruct x. Qed.

Lemma p_u8_inv r x r' : p_u8 r = Some (x, r') → r = x :: r'.
Proof.
  intros (l & r1 & E & [= <- <-])%p_bind_inv. apply p_take_inv in E as [-> E].
  destruct l as [|y [|]]; [done|done|]. rewrite !blen_cons in E. lia.
Qed.

Lemma p_le_inv (n : nat) r x r' :
  (l ← p_take (N.of_nat n); mret (of_le l)) r = Some (x, r') →
  r = to_le n x ++ r' ∧ (x < 256 ^ N.of_nat n)%N.
Proof.
  intros (l & r1 & E & [= <- <-])%p_bind_inv. apply p_take_inv in E as [-> E].
  split; [|rewrite <-E; apply of_le_lt]. rewrite to_le_of_le_n; [done|]. unfold blen in E. lia.
Qed.

Lemma p_u32_inv r x r' : p_u32 r = Some (x, r') → r = to_le 4 x ++ r' ∧ is_u32 x.
Proof. apply (p_le_inv 4). Qed.

Lemma p_u64_inv r x r' : p_u64 r = Some (x, r') → r = to_le 8 x ++ r' ∧ is_u64 x.
Proof. apply (p_le_inv 8). Qed.

Lemma p_bool_inv r x r' : p_bool r = Some (x, r') → r = bool_byte x :: r'.
Proof.
  intros (y & r1 & E%p_u8_inv & H)%p_bind_inv. subst r.
  destruct (Byte.to_N y) as [|[| |]] eqn:Ey; try done; injection H as <- <-; f_equal;
    by apply byte_to_N_inj.
Qed.

Section p_repeat.
Context {A : Type} (p : parser A) (enc : A → bytes) (wf : A → Prop).

Lemma p_repeat_app l r :
  (∀ x r, wf x → p (enc x ++ r) = Some (x, r)) → Forall wf l →
  p_repeat (length l) p (mjoin (enc <$> l) ++ r) = Some (l, r).
Proof.
  intros Hp Hl. induction Hl as [|x l Hx Hl IH]; [done|].
  cbn [length p_repeat fmap list_fmap mjoin list_join]. rewrite <-(assoc_L (++)).
  erewrite p_bind_Some by (by apply Hp). by erewrite p_bind_Some by apply IH.
Qed.

Lemma p_repeat_inv n r l r' :
  (∀ r x r', p r = Some (x, r') → r = enc x ++ r' ∧ wf x) →
  p_repeat n p r = Some (l, r') →
  r = mjoin (enc <$> l) ++ r' ∧ length l = n ∧ Forall wf l.
Proof.
  intros Hp. revert r l. induction n as [|n IH]; intros r l E; simpl in E.
  { injection E as <- <-. by split_and!. }
  apply p_bind_inv in E as (x & r1 & E1 & E). apply p_bind_inv in E as (l' & r2 & E2 & E).
  injection E as <- <-. apply Hp in E1 as [-> Hx]. apply IH in E2 as (-> & <- & Hl).
  simpl. rewrite <-(assoc_L (++)). split_and!; [done|done|by constructor].
Qed.
End p_repeat.

(** ** Filters that keep everything *)

Lemma filter_all {A} (P : A → Prop) `{!∀ x, Decision (P x)} (l : list A) : (∀ x, x ∈ l → P x) → filter P l = l.
Proof.
  induction l as [|x l IH]; intros Hl; [done|]. rewrite filter_cons, decide_True by (apply Hl; left). f_equal. apply IH. intros y Hy.
  apply Hl. by right.
Qed.

(** ** Ranges of indices: [a..=e] *)

Definition range_incl (a e : N) : list N :=
  (λ i, (a + N.of_nat i)%N) <$> seq 0 (N.to_nat (e + 1 - a)).

Lemma elem_of_range_incl i a e : i ∈ range_incl a e ↔ (a ≤ i ≤ e)%N.
Proof.
  unfold range_incl. rewrite list_elem_of_fmap. split.
  - intros (j & -> & Hj%elem_of_seq). lia.
  - intros H. exists (N.to_nat (i - a)). rewrite elem_of_seq. lia.
Qed.

Lemma range_incl_empty a e : (e < a)%N → range_incl a e = [].
Proof. intros H. unfold range_incl. by replace (N.to_nat (e + 1 - a)) with 0 by lia. Qed.

Lemma range_incl_cons a e : (a ≤ e)%N → range_incl a e = a :: range_incl (a + 1) e.
Proof.
  intros H. unfold range_incl.
  replace (N.to_nat (e + 1 - a)) with (S (N.to_nat (e + 1 - (a + 1)))) by lia.
  simpl. rewrite N.add_0_r. f_equal. rewrite <-fmap_S_seq, <-list_fmap_compose.
  apply list_fmap_ext. intros j x _. simpl. lia.
Qed.

Lemma range_incl_snoc a e : (a ≤ e + 1)%N → range_incl a (e + 1) = range_incl a e ++ [e + 1]%N.
Proof.
  intros H. unfold range_incl.
  replace (N.to_nat (e + 1 + 1 - a)) with (S (N.to_nat (e + 1 - a))) by lia.
  rewrite seq_S, fmap_app. simpl. do 2 f_equal. lia.
Qed.

Lemma range_incl_lookup a e k : (a + N.of_nat k ≤ e)%N → range_incl a e !! k = Some (a + N.of_nat k)%N.
Proof.
  intros H. unfold range_incl. rewrite list_lookup_fmap, lookup_seq_lt by lia. done.
Qed.

(** A search over a range finds the least index. *)
Lemma range_find_min (P : N → Prop) `{∀ i, Decision (P i)} a e pos i j :
  list_find P (range_incl a e) = Some (pos, i) → (a ≤ j ≤ e)%N → P j → (i ≤ j)%N.
Proof.
  intros (Hi & _ & Hmin)%list_find_Some Hj HP. destruct (decide (i ≤ j)%N) as [|Hgt]; [done|exfalso].
  assert (i = (a + N.of_nat pos)%N) as ->.
  { unfold range_incl in Hi. rewrite list_lookup_fmap in Hi.
    apply fmap_Some in Hi as (x & Hx & ->). apply lookup_seq in Hx. lia. }
  apply (Hmin (N.to_nat (j - a)) j); [|lia|done]. rewrite range_incl_lookup by lia. f_equal. lia.
Qed.

(** ** Automation *)

Create HintDb minicask.
Create Rewrite HintDb blen.
Create Rewrite HintDb len.

#[export] Hint Rewrite @blen_nil @blen_cons @blen_app blen_to_le : blen.
#[export] Hint Rewrite @length_app @length_cons @length_nil length_to_le
  @length_take @length_drop : len.

#[export] Hint Resolve steps_ret steps_gets steps_get steps_fail steps_lift : minicask.

(** Lengths of byte strings, then arithmetic. *)
Ltac blia := autorewrite with blen in *; unfold blen, is_u32, is_u64 in *;
  autorewrite with len in *; simpl in *; lia.

(** Case analysis on every [bool_decide] of the goal and hypotheses. *)
Ltac decide_all := repeat (case_bool_decide || (progress simpl in *)).

Lemma app_inj_len {A} (a a' k k' : list A) :
  a ++ k = a' ++ k' → length a = length a' → a = a' ∧ k = k'.
Proof. intros E L. by apply app_inj_1. Qed.

Lemma take_blen_app {A} (l k : list A) n : N.to_nat n = length l → take (N.to_nat n) (l ++ k) = l.
Proof. intros ->. apply take_app_length. Qed.

Lemma drop_blen_app {A} (l k : list A) n : N.to_nat n = length l → drop (N.to_nat n) (l ++ k) = k.
Proof. intros ->. apply drop_app_length. Qed.
