(* ===== verification/Crc.v ===== *)
(** * CRC-32 (src/crc.rs)

    The table-driven checksum, its bit-at-a-time reference, and what the
    checksum detects. *)

From S2P Require Import Prelude.

#[local] Open Scope N_scope.

(** ** The code *)

Definition POLY : N := 0xEDB88320.

(** One turn of the inner loop of [build_table]. *)
Definition crc_bit (crc : N) : N :=
  if N.land crc 1 =? 1 then N.lxor (N.shiftr crc 1) POLY else N.shiftr crc 1.

(** The eight turns. *)
Definition crc_bits8 (crc : N) : N := Nat.iter 8%nat crc_bit crc.

(** [const fn build_table]: entry [i] is the eight-bit reduction of [i]. *)
Definition build_table : list N := crc_bits8 <$> (N.of_nat <$> seq 0%nat 256%nat).

Definition TABLE : list N := Eval vm_compute in build_table.

(** The loop body of [update]. *)
Definition update_byte (crc : N) (x : byte) : N :=
  let idx := N.land (N.lxor crc (Byte.to_N x)) 0xFF in
  N.lxor (default 0%N (TABLE !! N.to_nat idx)) (N.shiftr crc 8).

Definition update (crc : N) (data : bytes) : N := foldl update_byte crc data.

Definition crc32_parts (parts : list bytes) : N :=
  N.lxor (foldl update 0xFFFFFFFF parts) 0xFFFFFFFF.

(** The running checksum [struct Crc32(u32)]. *)
Record Crc32 := mkCrc32 { crc_state : N }.
Definition Crc32_new : Crc32 := mkCrc32 0xFFFFFFFF.
Definition Crc32_update (c : Crc32) (data : bytes) : Crc32 :=
  mkCrc32 (update (crc_state c) data).
Definition Crc32_finish (c : Crc32) : N := N.lxor (crc_state c) 0xFFFFFFFF.

(** ** A reference definition: one bit of the message at a time *)

Definition crc32_ref (data : bytes) : N :=
  N.lxor (foldl (λ crc x, crc_bits8 (N.lxor crc (Byte.to_N x))) 0xFFFFFFFF data) 0xFFFFFFFF.

(** ** Lemmas *)

Lemma TABLE_build : TABLE = build_table.
Proof. vm_compute. reflexivity. Qed.

Lemma TABLE_lookup i : (i < 256)%N → TABLE !! N.to_nat i = Some (crc_bits8 i).
Proof.
  intros Hi. rewrite TABLE_build. unfold build_table.
  rewrite list_lookup_fmap, list_lookup_fmap, lookup_seq_lt by lia.
  simpl. by rewrite N2Nat.id.
Qed.

Lemma crc_bit_alt c : crc_bit c = N.lxor (N.shiftr c 1) (if N.testbit c 0 then POLY else 0).
Proof.
  unfold crc_bit.
  replace (N.land c 1 =? 1)%N with (N.testbit c 0).
  - destruct (N.testbit c 0); [done|]. by rewrite N.lxor_0_r.
  - change 1%N with (N.ones 1) at 1. rewrite N.land_ones, N.bit0_eqb. done.
Qed.

(** The reduction is linear over exclusive or. *)
Lemma crc_bit_lxor x y : crc_bit (N.lxor x y) = N.lxor (crc_bit x) (crc_bit y).
Proof.
  rewrite !crc_bit_alt, N.shiftr_lxor, N.lxor_spec.
  apply N.bits_inj. intros i. rewrite !N.lxor_spec.
  generalize (N.testbit (N.shiftr x 1) i) (N.testbit (N.shiftr y 1) i); intros u v.
  destruct (N.testbit x 0), (N.testbit y 0); cbn [xorb]; rewrite ?N.bits_0;
    by destruct u, v, (N.testbit POLY i).
Qed.

Lemma crc_iter_lxor n x y :
  Nat.iter n crc_bit (N.lxor x y) = N.lxor (Nat.iter n crc_bit x) (Nat.iter n crc_bit y).
Proof. induction n as [|n IH]; simpl; [done|]. by rewrite IH, crc_bit_lxor. Qed.

(** Bits above the low ones only shift down. *)
Lemma crc_iter_shiftl n h : Nat.iter n crc_bit (N.shiftl h (N.of_nat n)) = h.
Proof.
  revert h. induction n as [|n IH]; intros h; [by rewrite N.shiftl_0_r|].
  rewrite Nat.iter_succ_r, crc_bit_alt, N.shiftl_spec_low, N.lxor_0_r by lia.
  rewrite N.shiftr_shiftl_l by lia.
  replace (N.of_nat (S n) - 1)%N with (N.of_nat n) by lia. apply IH.
Qed.

Lemma crc_bits8_shiftl h : crc_bits8 (N.shiftl h 8) = h.
Proof. exact (crc_iter_shiftl 8 h). Qed.

Lemma crc_bits8_lxor x y : crc_bits8 (N.lxor x y) = N.lxor (crc_bits8 x) (crc_bits8 y).
Proof. apply crc_iter_lxor. Qed.

Lemma split_low8 x : x = N.lxor (N.shiftl (N.shiftr x 8) 8) (N.land x 255).
Proof.
  apply N.bits_inj. intros i. change 255%N with (N.ones 8).
  rewrite N.lxor_spec, N.land_spec.
  destruct (N.lt_ge_cases i 8).
  - rewrite N.shiftl_spec_low, N.ones_spec_low by done. by destruct (N.testbit x i).
  - rewrite N.shiftl_spec_high', N.shiftr_spec', N.ones_spec_high by done.
    replace (i - 8 + 8)%N with i by lia. by destruct (N.testbit x i).
Qed.

Lemma crc_bits8_table x :
  crc_bits8 x = N.lxor (default 0%N (TABLE !! N.to_nat (N.land x 255))) (N.shiftr x 8).
Proof.
  rewrite TABLE_lookup.
  - cbn [default from_option]. rewrite (split_low8 x) at 1.
    by rewrite crc_bits8_lxor, crc_bits8_shiftl, N.lxor_comm.
  - change 255%N with (N.ones 8). rewrite N.land_ones. by apply N.mod_lt.
Qed.

Lemma update_byte_bits c x : update_byte c x = crc_bits8 (N.lxor c (Byte.to_N x)).
Proof.
  rewrite crc_bits8_table. unfold update_byte. f_equal.
  rewrite N.shiftr_lxor. replace (N.shiftr (Byte.to_N x) 8) with 0%N; [by rewrite N.lxor_0_r|].
  symmetry. rewrite N.shiftr_div_pow2. apply N.div_small, byte_to_N_lt.
Qed.

Lemma of_le_cons_lxor h t : of_le (h :: t) = N.lxor (Byte.to_N h) (N.shiftl (of_le t) 8).
Proof.
  cbn [of_le]. rewrite N.shiftl_mul_pow2, N.mul_comm.
  apply N.add_nocarry_lxor, N.bits_inj. intros i. rewrite N.land_spec, N.bits_0.
  rewrite <-N.shiftl_mul_pow2. destruct (N.lt_ge_cases i 8).
  - rewrite (N.shiftl_spec_low _ _ i) by done. apply andb_false_r.
  - rewrite <-(N.mod_small (Byte.to_N h) (2 ^ 8)) by apply byte_to_N_lt.
    by rewrite N.mod_pow2_bits_high.
Qed.

(** Feeding a block of bytes is one exclusive or and one run of shifts. *)
Lemma update_block c data :
  update c data = Nat.iter (8 * length data)%nat crc_bit (N.lxor c (of_le data)).
Proof.
  revert c. induction data as [|h t IH]; intros c; [by rewrite N.lxor_0_r|].
  change (update c (h :: t)) with (update (update_byte c h) t).
  rewrite IH, of_le_cons_lxor, <-N.lxor_assoc, update_byte_bits.
  cbn [length]. replace (8 * S (length t))%nat with (8 * length t + 8)%nat by lia.
  rewrite Nat.iter_add.
  change (Nat.iter 8 crc_bit (N.lxor (N.lxor c (Byte.to_N h)) (N.shiftl (of_le t) 8)))
    with (crc_bits8 (N.lxor (N.lxor c (Byte.to_N h)) (N.shiftl (of_le t) 8))).
  by rewrite (crc_bits8_lxor (N.lxor c (Byte.to_N h))), crc_bits8_shiftl.
Qed.

Lemma update_app c u v : update c (u ++ v) = update (update c u) v.
Proof. apply foldl_app. Qed.

Lemma foldl_update c parts : foldl update c parts = update c (mjoin parts).
Proof.
  revert c. induction parts as [|p ps IH]; intros c; simpl; [done|].
  by rewrite IH, update_app.
Qed.

(** Each shift keeps 32 bits and can be undone: bit 31 tells which branch was taken. *)
Lemma crc_bit_u32 c : is_u32 c → is_u32 (crc_bit c).
Proof.
  unfold is_u32, crc_bit. intros Hc.
  assert (N.shiftr c 1 < TWO32)%N.
  { rewrite N.shiftr_div_pow2. apply N.Div0.div_lt_upper_bound. lia. }
  destruct (_ =? _)%N; [|done].
  destruct (N.eq_dec (N.lxor (N.shiftr c 1) POLY) 0) as [->|Hnz]; [done|].
  change TWO32 with (2 ^ 32)%N. apply N.log2_lt_pow2; [lia|].
  eapply N.le_lt_trans; [apply N.log2_lxor|]. apply N.max_lub_lt; [|done].
  destruct (N.eq_dec (N.shiftr c 1) 0) as [->|]; [done|].
  apply N.log2_lt_pow2; [lia|done].
Qed.

Lemma testbit_u32 c i : is_u32 c → (32 ≤ i)%N → N.testbit c i = false.
Proof.
  intros Hc Hi. change TWO32 with (2 ^ 32)%N in Hc. unfold is_u32 in Hc.
  rewrite <-(N.mod_small c (2 ^ 32)) by done. by apply N.mod_pow2_bits_high.
Qed.

Lemma crc_bit_top c : is_u32 c → N.testbit (crc_bit c) 31 = N.testbit c 0.
Proof.
  intros Hc. rewrite crc_bit_alt, N.lxor_spec, N.shiftr_spec', (testbit_u32 c) by done.
  by destruct (N.testbit c 0).
Qed.

Lemma crc_bit_inj c d : is_u32 c → is_u32 d → crc_bit c = crc_bit d → c = d.
Proof.
  intros Hc Hd E. assert (E0 : N.testbit c 0 = N.testbit d 0).
  { by rewrite <-!crc_bit_top, E. }
  rewrite !crc_bit_alt, E0 in E.
  apply (f_equal (λ z, N.lxor z (if N.testbit d 0 then POLY else 0))) in E.
  rewrite !N.lxor_assoc, !N.lxor_nilpotent, !N.lxor_0_r in E.
  apply N.bits_inj. intros i. destruct (N.eq_dec i 0) as [->|Hi]; [done|].
  apply (f_equal (λ z, N.testbit z (i - 1))) in E.
  rewrite !N.shiftr_spec' in E. by replace (i - 1 + 1)%N with i in E by lia.
Qed.

Lemma crc_iter_u32 n c : is_u32 c → is_u32 (Nat.iter n crc_bit c).
Proof. intros Hc. induction n; simpl; [done|]. by apply crc_bit_u32. Qed.

Lemma crc_iter_inj n c d :
  is_u32 c → is_u32 d → Nat.iter n crc_bit c = Nat.iter n crc_bit d → c = d.
Proof.
  intros Hc Hd. induction n as [|n IH]; simpl; intros E; [done|].
  apply IH, crc_bit_inj; auto using crc_iter_u32.
Qed.

Lemma lxor_u32 x y : is_u32 x → is_u32 y → is_u32 (N.lxor x y).
Proof.
  unfold is_u32. intros Hx Hy. change TWO32 with (2 ^ 32)%N.
  rewrite <-(N.mod_small x (2 ^ 32)), <-(N.mod_small y (2 ^ 32)) by done.
  rewrite <-!N.land_ones. replace (N.lxor (N.land x (N.ones 32)) (N.land y (N.ones 32)))
    with (N.land (N.lxor x y) (N.ones 32)).
  - rewrite N.land_ones. by apply N.mod_lt.
  - apply N.bits_inj. intros i. rewrite !N.lxor_spec, !N.land_spec, N.lxor_spec.
    by destruct (N.testbit x i), (N.testbit y i), (N.testbit (N.ones 32) i).
Qed.

Lemma lxor_cancel_l x y z : N.lxor x y = N.lxor x z → y = z.
Proof.
  intros E. apply (f_equal (N.lxor x)) in E.
  by rewrite <-!N.lxor_assoc, !N.lxor_nilpotent, !N.lxor_0_l in E.
Qed.

Lemma of_le_u32 l : (length l ≤ 4)%nat → is_u32 (of_le l).
Proof.
  intros H. unfold is_u32. eapply N.lt_le_trans; [apply of_le_lt|].
  change TWO32 with (256 ^ 4)%N. apply N.pow_le_mono_r; [done|]. unfold blen. lia.
Qed.

Lemma byte_u32 x : is_u32 (Byte.to_N x).
Proof. unfold is_u32. pose proof (byte_to_N_lt x). unfold TWO32. lia. Qed.

Lemma update_u32 c data : is_u32 c → is_u32 (update c data).
Proof.
  revert c. induction data as [|h t IH]; intros c Hc; [done|].
  change (update c (h :: t)) with (update (update_byte c h) t).
  apply IH. rewrite update_byte_bits. exact (crc_iter_u32 8 _ (lxor_u32 _ _ Hc (byte_u32 h))).
Qed.

Lemma update_inj c d data : is_u32 c → is_u32 d → update c data = update d data → c = d.
Proof.
  revert c d. induction data as [|h t IH]; intros c d Hc Hd E; [done|].
  change (update (update_byte c h) t = update (update_byte d h) t) in E.
  rewrite !update_byte_bits in E. apply IH in E;
    [|apply (crc_iter_u32 8 _); auto using lxor_u32, byte_u32..].
  apply (crc_iter_inj 8) in E; [|by auto using lxor_u32, byte_u32..].
  rewrite !(N.lxor_comm _ (Byte.to_N h)) in E. by apply lxor_cancel_l in E.
Qed.

Lemma crc32_parts_u32 parts : is_u32 (crc32_parts parts).
Proof. unfold crc32_parts. apply lxor_u32; [|done]. rewrite foldl_update. by apply update_u32. Qed.

Lemma crc32_parts_join parts : crc32_parts parts = crc32_parts [mjoin parts].
Proof. unfold crc32_parts. rewrite !foldl_update. simpl. by rewrite app_nil_r. Qed.

(** Equal final states of a block of at most four bytes come from equal blocks. *)
Lemma update_block_inj c u v :
  is_u32 c → length u = length v → (length u ≤ 4)%nat → update c u = update c v → u = v.
Proof.
  intros Hc Hl H4. rewrite !update_block, <-Hl. intros E.
  apply crc_iter_inj in E; [|apply lxor_u32; auto using of_le_u32 with lia..].
  apply lxor_cancel_l in E. rewrite <-(to_le_of_le u), <-(to_le_of_le v), E, Hl. done.
Qed.

(** ** Properties *)

(** The table-driven checksum of any split of a message into parts is the
    bit-at-a-time CRC-32 of the whole message. *)
Theorem crc32_table_is_bitwise (parts : list bytes) : crc32_parts parts = crc32_ref (mjoin parts).
Proof.
  rewrite crc32_parts_join. unfold crc32_parts, crc32_ref. f_equal. simpl.
  generalize (mjoin parts : bytes), 0xFFFFFFFF. intros data.
  induction data as [|x data IH]; intros c; [done|].
  change (update c (x :: data)) with (update (update_byte c x) data).
  by rewrite IH, update_byte_bits.
Qed.

(** A change confined to any window of at most four consecutive bytes, which
    includes every single flipped bit and every burst of up to 25 bits, changes
    the checksum. *)
Theorem crc32_detects_burst (pre u v post : bytes) :
  length u = length v → (length u ≤ 4)%nat → u ≠ v →
  crc32_parts [pre ++ u ++ post] ≠ crc32_parts [pre ++ v ++ post].
Proof.
  intros Hl H4 Hne E. apply Hne. unfold crc32_parts in E.
  rewrite !(N.lxor_comm _ 0xFFFFFFFF) in E. apply lxor_cancel_l in E.
  cbn [foldl] in E. rewrite !update_app in E.
  apply update_inj in E; [|by repeat apply update_u32..].
  by apply update_block_inj in E; [|apply update_u32|..].
Qed.

Lemma crc32_detects_burst_witness :
  crc32_parts [lit "colour" ++ [x67] ++ lit "reen"] ≠ crc32_parts [lit "colour" ++ [x66] ++ lit "reen"].
Proof. apply crc32_detects_burst; [done|simpl; lia|done]. Defined.

(** Feeding a running checksum piece by piece gives the one-shot checksum. *)
Theorem Crc32_running (pieces : list bytes) :
  Crc32_finish (foldl Crc32_update Crc32_new pieces) = crc32_parts pieces.
Proof.
  unfold Crc32_finish, crc32_parts. f_equal. unfold Crc32_new.
  generalize 0xFFFFFFFF. induction pieces as [|p ps IH]; intros c; [done|].
  change (foldl Crc32_update (mkCrc32 c) (p :: ps))
    with (foldl Crc32_update (mkCrc32 (update c p)) ps).
  by rewrite IH.
Qed.

(** The known vectors of the source's own tests. *)
Example crc32_vectors :
  crc32_parts [[]] = 0 ∧ crc32_parts [lit "a"] = 0xE8B7BE43 ∧
  crc32_parts [lit "123456789"] = 0xCBF43926 ∧
  crc32_parts [lit "The quick brown fox jumps over the lazy dog"] = 0x414FA339.
Proof. by vm_compute. Qed.
