(* ===== verification/RecordFormat.v ===== *)
(** * The on-disk record format (src/record.rs)

    A 21-byte little-endian header, then the key, then the value, with a
    CRC-32 over everything after the checksum itself. *)

From S2P Require Import Prelude.
From S2P Require Import Crc.

#[local] Open Scope N_scope.

(** ** The code *)

Definition HEADER_LEN : nat := 21.
Definition FLAG_TOMBSTONE : N := 1.

Record Header := mkHeader {
  hdr_crc : N;
  hdr_tstamp : N;
  hdr_key_len : N;
  hdr_value_len : N;
  hdr_flags : byte;
}.

(** [Header::record_len]: computed in [u64]. *)
Definition record_len (h : Header) : N :=
  N.of_nat HEADER_LEN + hdr_key_len h + hdr_value_len h.

Definition is_tombstone (h : Header) : bool :=
  negb (N.land (Byte.to_N (hdr_flags h)) FLAG_TOMBSTONE =? 0).

Definition header_decode (buf : bytes) : Header :=
  mkHeader (of_le (slice 0 4 buf)) (of_le (slice 4 12 buf)) (of_le (slice 12 16 buf))
    (of_le (slice 16 20 buf)) (default x00 (buf !! 20%nat)).

Definition header_encode (h : Header) : bytes :=
  to_le 4 (hdr_crc h) ++ to_le 8 (hdr_tstamp h) ++ to_le 4 (hdr_key_len h) ++
  to_le 4 (hdr_value_len h) ++ [hdr_flags h].

(** [Header::verify]. *)
Definition verify (h : Header) (key value : bytes) : bool :=
  hdr_crc h =? crc32_parts [drop 4 (header_encode h); key; value].

(** [record::encode]. [None] is a deletion. *)
Definition record_encode (key : bytes) (value : option bytes) (tstamp : N) : result bytes :=
  if bool_decide (key = []) then Err (InvalidKey "keys may not be empty")
  else if U32_MAX <? blen key then Err (InvalidKey "key exceeds the u32 length prefix")
  else
    let payload := default [] value in
    if U32_MAX <? blen payload then Err (ValueTooLarge (blen payload))
    else
      let header crc := mkHeader crc tstamp (as_u32 (blen key)) (as_u32 (blen payload))
        (match value with None => u8 FLAG_TOMBSTONE | Some _ => x00 end) in
      let crc := crc32_parts [drop 4 (header_encode (header 0)); key; payload] in
      Ok (header_encode (header crc) ++ key ++ payload).

(** ** Well-formed headers: every field fits its width *)

Definition header_wf (h : Header) : Prop :=
  is_u32 (hdr_crc h) ∧ is_u64 (hdr_tstamp h) ∧ is_u32 (hdr_key_len h) ∧ is_u32 (hdr_value_len h).

Lemma length_header_encode h : length (header_encode h) = HEADER_LEN.
Proof. unfold header_encode. by autorewrite with len. Qed.

Lemma header_decode_encode h rest : header_wf h → header_decode (header_encode h ++ rest) = h.
Proof.
  intros (H1 & H2 & H3 & H4). unfold header_decode.
  replace ((header_encode h ++ rest) !! 20%nat) with (Some (hdr_flags h)).
  - unfold header_encode. rewrite <-!(assoc_L (++)).
    rewrite (slice_here 4) by done.
    rewrite (slice_skip 4), (slice_here (12 - _)) by done.
    rewrite (slice_skip 12), (slice_skip (12 - _)), (slice_here (16 - _ - _)) by done.
    rewrite (slice_skip 16), (slice_skip (16 - _)), (slice_skip (16 - _ - _)),
      (slice_here (20 - _ - _ - _)) by done.
    rewrite of_le_to_le_u64, !of_le_to_le_u32 by done. by destruct h.
  - unfold header_encode. rewrite <-!(assoc_L (++)).
    do 4 (rewrite lookup_app_r by (rewrite length_to_le; lia); rewrite length_to_le).
    done.
Qed.

Lemma header_decode_encode_exact h : header_wf h → header_decode (header_encode h) = h.
Proof. intros H. by rewrite <-(app_nil_r (header_encode h)), header_decode_encode. Qed.

Lemma header_encode_decode buf : length buf = HEADER_LEN → header_encode (header_decode buf) = buf.
Proof.
  intros H. do 22 (destruct buf as [|? buf]; try done).
  unfold header_encode, header_decode. cbn [hdr_crc hdr_tstamp hdr_key_len hdr_value_len hdr_flags].
  by rewrite !to_le_of_le_n by done.
Qed.

Lemma header_decode_wf buf : length buf = HEADER_LEN → header_wf (header_decode buf).
Proof.
  intros H. do 22 (destruct buf as [|? buf]; try done).
  split_and!; eapply N.lt_le_trans; try apply of_le_lt; done.
Qed.

(** A reader of raw bytes compares the stored checksum with that of the rest. *)
Lemma verify_raw buf key value :
  length buf = HEADER_LEN →
  verify (header_decode buf) key value
  = (of_le (take 4 buf) =? crc32_parts [drop 4 buf ++ key ++ value]).
Proof.
  intros H. unfold verify. rewrite header_encode_decode by done.
  rewrite (crc32_parts_join [_; _; _]). simpl. by rewrite app_nil_r.
Qed.

(** What [record_encode] writes when it succeeds. *)
Definition record_header (key : bytes) (value : option bytes) (tstamp : N) : Header :=
  let h crc := mkHeader crc tstamp (blen key) (blen (default [] value))
    (match value with None => x01 | Some _ => x00 end) in
  h (crc32_parts [drop 4 (header_encode (h 0)) ++ key ++ default [] value]).

Definition record_bytes (key : bytes) (value : option bytes) (tstamp : N) : bytes :=
  header_encode (record_header key value tstamp) ++ key ++ default [] value.

Definition record_ok (key : bytes) (value : option bytes) : Prop :=
  key ≠ [] ∧ blen key ≤ U32_MAX ∧ blen (default [] value) ≤ U32_MAX.

#[export] Instance record_ok_dec key value : Decision (record_ok key value).
Proof. unfold record_ok. apply _. Defined.

Lemma drop4_header_encode h c :
  drop 4 (header_encode h)
  = drop 4 (header_encode (mkHeader c (hdr_tstamp h) (hdr_key_len h) (hdr_value_len h) (hdr_flags h))).
Proof. done. Qed.

Lemma take4_header_encode h rest : take 4 (header_encode h ++ rest) = to_le 4 (hdr_crc h).
Proof. done. Qed.

Lemma record_encode_ok key value tstamp :
  record_ok key value → record_encode key value tstamp = Ok (record_bytes key value tstamp).
Proof.
  intros (Hk & Hkl & Hvl). unfold record_encode. rewrite bool_decide_false by done.
  rewrite !(proj2 (N.ltb_ge _ _)) by done.
  unfold record_bytes, record_header, as_u32.
  rewrite !N.mod_small by (unfold U32_MAX, TWO32 in *; lia).
  rewrite (crc32_parts_join [_; _; _]). simpl mjoin. rewrite app_nil_r.
  by destruct value.
Qed.

Lemma record_encode_err key value tstamp e :
  record_encode key value tstamp = Err e → ¬ record_ok key value.
Proof. intros E H. by rewrite record_encode_ok in E. Qed.

Lemma record_encode_inv key value tstamp bs :
  record_encode key value tstamp = Ok bs → record_ok key value ∧ bs = record_bytes key value tstamp.
Proof.
  intros E. destruct (decide (record_ok key value)) as [H|H].
  - rewrite record_encode_ok in E by done. naive_solver.
  - exfalso. apply H. unfold record_encode in E. case_bool_decide; [done|].
    destruct (_ <? blen key) eqn:E1; [done|].
    destruct (_ <? blen (default [] value)) eqn:E2; [done|].
    apply N.ltb_ge in E1, E2. done.
Qed.

Lemma record_header_wf key value tstamp :
  record_ok key value → is_u64 tstamp → header_wf (record_header key value tstamp).
Proof.
  intros (_ & ? & ?) ?. split_and!; simpl; [apply crc32_parts_u32|done|..];
    unfold is_u32, U32_MAX, TWO32 in *; lia.
Qed.

Lemma record_verify key value tstamp :
  verify (record_header key value tstamp) key (default [] value) = true.
Proof.
  unfold verify. apply N.eqb_eq. simpl hdr_crc. rewrite (crc32_parts_join [_; _; _]).
  simpl mjoin. by rewrite app_nil_r.
Qed.

Lemma record_bytes_len key value tstamp :
  blen (record_bytes key value tstamp) = record_len (record_header key value tstamp).
Proof.
  unfold record_bytes, record_len. autorewrite with blen.
  unfold blen at 1. rewrite length_header_encode. simpl. lia.
Qed.

Lemma record_is_tombstone key value tstamp :
  is_tombstone (record_header key value tstamp) = match value with None => true | _ => false end.
Proof. by destruct value. Qed.

Lemma record_take key value tstamp :
  take HEADER_LEN (record_bytes key value tstamp) = header_encode (record_header key value tstamp).
Proof. apply take_app_length'. by rewrite length_header_encode. Qed.

Lemma record_drop key value tstamp :
  drop HEADER_LEN (record_bytes key value tstamp) = key ++ default [] value.
Proof. apply drop_app_length'. by rewrite length_header_encode. Qed.

Lemma u32_max_ltb x : (U32_MAX <? x) = bool_decide (TWO32 ≤ x).
Proof.
  destruct (N.ltb_spec U32_MAX x); symmetry;
    [apply bool_decide_eq_true_2|apply bool_decide_eq_false_2]; unfold U32_MAX, TWO32 in *; lia.
Qed.

(** ** Properties *)

(** Encoding then decoding a record gives back its header fields, and the
    record passes its own checksum: tombstone flag, lengths and timestamp are
    those written. *)
Theorem record_roundtrip (key : bytes) (value : option bytes) (tstamp : N) (bs : bytes) :
  is_u64 tstamp → record_encode key value tstamp = Ok bs →
  let h := header_decode (take HEADER_LEN bs) in
  hdr_tstamp h = tstamp ∧ record_len h = blen bs ∧
  is_tombstone h = match value with None => true | Some _ => false end ∧
  take (N.to_nat (hdr_key_len h)) (drop HEADER_LEN bs) = key ∧
  drop (N.to_nat (hdr_key_len h)) (drop HEADER_LEN bs) = default [] value ∧
  verify h key (default [] value) = true.
Proof.
  intros Ht E. apply record_encode_inv in E as [Hok ->].
  rewrite record_take, record_drop, header_decode_encode_exact by auto using record_header_wf.
  cbv zeta. split_and!; [done|by rewrite record_bytes_len|apply record_is_tombstone|..];
    [apply take_blen_app|apply drop_blen_app|apply record_verify]; simpl; unfold blen; lia.
Qed.

Lemma record_roundtrip_witness :
  let h := header_decode (take HEADER_LEN (record_bytes (lit "colour") (Some (lit "green")) 42)) in
  hdr_tstamp h = 42.
Proof.
  refine (proj1 (record_roundtrip (lit "colour") (Some (lit "green")) 42 _ _ _));
    [done|by apply record_encode_ok; vm_compute].
Defined.

(** Encoding fails exactly on an empty key, a key or a value longer than a
    [u32] length can say, each with its own error. *)
Theorem record_encode_errors (key : bytes) (value : option bytes) (tstamp : N) :
  record_encode key value tstamp =
    if bool_decide (key = []) then Err (InvalidKey "keys may not be empty")
    else if bool_decide (TWO32 ≤ blen key) then Err (InvalidKey "key exceeds the u32 length prefix")
    else if bool_decide (TWO32 ≤ blen (default [] value)) then Err (ValueTooLarge (blen (default [] value)))
    else Ok (record_bytes key value tstamp).
Proof.
  rewrite <-!u32_max_ltb. unfold record_encode at 1.
  case_bool_decide as Hk; [reflexivity|].
  destruct (N.ltb_spec U32_MAX (blen key)) as [|Hkl]; [reflexivity|].
  destruct (N.ltb_spec U32_MAX (blen (default [] value))) as [|Hvl]; [reflexivity|].
  rewrite <-(record_encode_ok key value tstamp) by (by split).
  unfold record_encode. rewrite bool_decide_false by exact Hk.
  by rewrite !(proj2 (N.ltb_ge _ _)) by assumption.
Qed.
