(* ===== verification/RaftLog.v ===== *)
(** * The replicated log and its storage interface (src/raft/log.rs)

    Members and their encoding, entries, the in-memory [EntryLog] with the
    snapshot standing in for the discarded prefix, the [Storage] trait as a
    class with its laws, and [MemStorage] as an instance of it. *)

From S2P Require Import Prelude.

#[local] Open Scope N_scope.

(** ** Data *)

Abbreviation NodeId := N.

Record Member := mkMember { m_id : NodeId; m_context : bytes; m_learner : bool }.

Definition Member_voter (id : NodeId) (context : bytes) : Member := mkMember id context false.
Definition Member_learner (id : NodeId) (context : bytes) : Member := mkMember id context true.

Inductive Command :=
  | Noop
  | Data (data : bytes)
  | Config (members : list Member).

Record Entry := mkEntry { e_term : N; e_index : N; e_command : Command }.

Record HardState := mkHardState { hs_term : N; hs_voted_for : option NodeId }.
Definition HardState_default : HardState := mkHardState 0 None.

Record SnapshotMeta := mkMeta { sm_index : N; sm_term : N }.
Definition SnapshotMeta_default : SnapshotMeta := mkMeta 0 0.

#[export] Instance Member_eq_decision : EqDecision Member.
Proof. solve_decision. Defined.
#[export] Instance Command_eq_decision : EqDecision Command.
Proof. solve_decision. Defined.
#[export] Instance Entry_eq_decision : EqDecision Entry.
Proof. solve_decision. Defined.
#[export] Instance HardState_eq_decision : EqDecision HardState.
Proof. solve_decision. Defined.
#[export] Instance SnapshotMeta_eq_decision : EqDecision SnapshotMeta.
Proof. solve_decision. Defined.

(** ** Members as bytes *)

Definition encode_member (m : Member) : bytes :=
  to_le 8 (m_id m) ++ [bool_byte (m_learner m)] ++ to_le 4 (as_u32 (blen (m_context m))) ++ m_context m.

Definition encode_members (members : list Member) : bytes :=
  to_le 4 (as_u32 (blen members)) ++ mjoin (encode_member <$> members).

(** The body of the loop of [decode_members]. *)
Definition decode_member : parser Member :=
  id ← p_u64; learner ← p_bool; len ← p_u32; context ← p_take len;
  mret (mkMember id context learner).

Definition decode_members (bs : bytes) : option (list Member) :=
  match p_u32 bs with
  | None => None
  | Some (count, r) =>
      if blen bs / 13 <? count then None
      else
        match p_repeat (N.to_nat count) decode_member r with
        | Some (members, []) => Some members
        | _ => None
        end
  end.

(** Fixed bytes per entry on the wire: term, index, tag, length. *)
Definition ENTRY_OVERHEAD : N := 8 + 8 + 1 + 8.

Definition encoded_len (e : Entry) : N :=
  ENTRY_OVERHEAD +
  match e_command e with
  | Noop => 0
  | Data data => blen data
  | Config members => blen (encode_members members)
  end.

(** ** The in-memory log *)

Record EntryLog := mkEntryLog { el_base : SnapshotMeta; el_entries : list Entry }.

Definition EntryLog_default : EntryLog := mkEntryLog SnapshotMeta_default [].

Definition EntryLog_last_index (l : EntryLog) : N :=
  match list.last (el_entries l) with Some e => e_index e | None => sm_index (el_base l) end.

Definition EntryLog_position (l : EntryLog) (index : N) : option nat :=
  if (index <=? sm_index (el_base l)) || (EntryLog_last_index l <? index) then None
  else Some (N.to_nat (index - sm_index (el_base l) - 1)).

Definition EntryLog_entry (l : EntryLog) (index : N) : option Entry :=
  match EntryLog_position l index with Some p => el_entries l !! p | None => None end.

Definition EntryLog_term_at (l : EntryLog) (index : N) : option N :=
  if index =? sm_index (el_base l) then Some (sm_term (el_base l))
  else e_term <$> EntryLog_entry l index.

Definition EntryLog_entries_from (l : EntryLog) (index : N) : list Entry :=
  match EntryLog_position l (N.max index (sm_index (el_base l) + 1)) with
  | Some p => drop p (el_entries l)
  | None => []
  end.

Definition EntryLog_push (l : EntryLog) (e : Entry) : EntryLog :=
  mkEntryLog (el_base l) (el_entries l ++ [e]).

(** Returns how many entries are left, with the truncated log. *)
Definition EntryLog_truncate_from (l : EntryLog) (index : N) : nat * EntryLog :=
  let keep :=
    if index <=? sm_index (el_base l) then 0%nat
    else Nat.min (N.to_nat (index - sm_index (el_base l) - 1)) (length (el_entries l)) in
  (keep, mkEntryLog (el_base l) (take keep (el_entries l))).

(** Returns whether anything changed, with the compacted log. *)
Definition EntryLog_compact (l : EntryLog) (meta : SnapshotMeta) : bool * EntryLog :=
  if sm_index meta <=? sm_index (el_base l) then (false, l)
  else
    let kept :=
      if bool_decide (EntryLog_term_at l (sm_index meta) = Some (sm_term meta))
      then drop (N.to_nat (sm_index meta - sm_index (el_base l))) (el_entries l)
      else [] in
    (true, mkEntryLog meta kept).

(** ** The [Storage] trait *)

Class Storage (S : Type) := {
  Sink : Type;
  sink_meta : Sink → SnapshotMeta;
  sink_written : Sink → N;
  (** [Write::write_all] on a sink. *)
  sink_write_all : bytes → M Sink unit;
  hard_state : S → HardState;
  save_hard_state : HardState → M S unit;
  last_index : S → N;
  term_at : S → N → option N;
  entry : S → N → option Entry;
  entries_from : S → N → list Entry;
  append : list Entry → M S unit;
  truncate_from : N → M S unit;
  snapshot_meta : S → SnapshotMeta;
  snapshot_members : S → option (list Member);
  snapshot_len : S → N;
  read_snapshot : S → N → N → result bytes;
  snapshot_reader : S → result bytes;
  new_snapshot : SnapshotMeta → option (list Member) → M S Sink;
  install_snapshot : Sink → M S unit;
}.

(** ** [StorageExt]: queries every storage gets for free *)

Section StorageExt.
Context {S : Type} `{Storage S}.

(** Run a method of a component on its part of a bigger value. *)
Definition save_snapshot (meta : SnapshotMeta) (data : bytes) : M S unit :=
  sink ← new_snapshot meta None;
  match sink_write_all data sink with
  | (Ok _, sink') => install_snapshot sink'
  | (Err e, _) => mfail e
  end.

Definition first_index (s : S) : N := sm_index (snapshot_meta s) + 1.

Definition last_term (s : S) : N := default 0 (term_at s (last_index s)).

Definition is_up_to_date (s : S) (last_index' last_term' : N) : bool :=
  let my_term := last_term s in
  (my_term <? last_term') || ((last_term' =? my_term) && (last_index s <=? last_index')).

Definition first_index_of_term (s : S) (term : N) : N :=
  let first := first_index s in
  default first
    (list_find (λ i, term_at s i = Some term) (range_incl first (last_index s)) ≫= λ p, Some p.2).

(** The loop of [entries_within], with the running total. *)
Fixpoint entries_within_loop (s : S) (max_bytes : N) (idxs : list N) (total : N) (out : list Entry)
    : list Entry :=
  match idxs with
  | [] => out
  | i :: idxs =>
      match entry s i with
      | None => out
      | Some e =>
          let len := encoded_len e in
          if negb (bool_decide (out = [])) && (max_bytes <? total + len) then out
          else entries_within_loop s max_bytes idxs (total + len) (out ++ [e])
      end
  end.

Definition entries_within (s : S) (index max_bytes : N) : list Entry :=
  entries_within_loop s max_bytes (range_incl (N.max index (first_index s)) (last_index s)) 0 [].

Definition last_index_of_term (s : S) (term : N) : option N :=
  list_find (λ i, 0 < i ∧ term_at s i = Some term)
    (reverse (range_incl (sm_index (snapshot_meta s)) (last_index s))) ≫= λ p, Some p.2.
End StorageExt.

(** ** [MemStorage] *)

Record MemStorage := mkMemStorage {
  ms_hard_state : HardState;
  ms_log : EntryLog;
  ms_snapshot : bytes;
  ms_snapshot_members : option (list Member);
}.

Definition MemStorage_new : MemStorage :=
  mkMemStorage HardState_default EntryLog_default [] None.

Record MemSnapshot := mkMemSnapshot {
  msn_meta : SnapshotMeta;
  msn_members : option (list Member);
  msn_data : bytes;
}.

Definition MemSnapshot_write (buf : bytes) : M MemSnapshot unit :=
  mmodify (λ s, mkMemSnapshot (msn_meta s) (msn_members s) (msn_data s ++ buf)).

Definition MemStorage_save_hard_state (state : HardState) : M MemStorage unit :=
  mmodify (λ s, mkMemStorage state (ms_log s) (ms_snapshot s) (ms_snapshot_members s)).

Definition MemStorage_set_log (f : EntryLog → EntryLog) (s : MemStorage) : MemStorage :=
  mkMemStorage (ms_hard_state s) (f (ms_log s)) (ms_snapshot s) (ms_snapshot_members s).

Definition MemStorage_append (entries : list Entry) : M MemStorage unit :=
  miter (λ e, mmodify (MemStorage_set_log (λ l, EntryLog_push l e))) entries.

Definition MemStorage_truncate_from (index : N) : M MemStorage unit :=
  mmodify (MemStorage_set_log (λ l, (EntryLog_truncate_from l index).2)).

Definition MemStorage_read_snapshot (s : MemStorage) (offset len : N) : result bytes :=
  let start := N.min offset (blen (ms_snapshot s)) in
  let stop := N.min (start + len) (blen (ms_snapshot s)) in
  Ok (slice start stop (ms_snapshot s)).

Definition MemStorage_new_snapshot (meta : SnapshotMeta) (members : option (list Member))
    : M MemStorage MemSnapshot := mret (mkMemSnapshot meta members []).

Definition MemStorage_install_snapshot (sink : MemSnapshot) : M MemStorage unit :=
  mmodify (λ s,
    let '(changed, log) := EntryLog_compact (ms_log s) (msn_meta sink) in
    if changed then mkMemStorage (ms_hard_state s) log (msn_data sink) (msn_members sink)
    else mkMemStorage (ms_hard_state s) log (ms_snapshot s) (ms_snapshot_members s)).

#[export] Instance MemStorage_Storage : Storage MemStorage := {|
  Sink := MemSnapshot;
  sink_meta := msn_meta;
  sink_written := λ k, blen (msn_data k);
  sink_write_all := MemSnapshot_write;
  hard_state := ms_hard_state;
  save_hard_state := MemStorage_save_hard_state;
  last_index := λ s, EntryLog_last_index (ms_log s);
  term_at := λ s, EntryLog_term_at (ms_log s);
  entry := λ s, EntryLog_entry (ms_log s);
  entries_from := λ s, EntryLog_entries_from (ms_log s);
  append := MemStorage_append;
  truncate_from := MemStorage_truncate_from;
  snapshot_meta := λ s, el_base (ms_log s);
  snapshot_members := ms_snapshot_members;
  snapshot_len := λ s, blen (ms_snapshot s);
  read_snapshot := MemStorage_read_snapshot;
  snapshot_reader := λ s, Ok (ms_snapshot s);
  new_snapshot := MemStorage_new_snapshot;
  install_snapshot := MemStorage_install_snapshot;
|}.

(** ** Members: what is encoded is what is decoded, and nothing else is *)

Definition member_wf (m : Member) : Prop := is_u64 (m_id m) ∧ is_u32 (blen (m_context m)).
Definition members_wf (ms : list Member) : Prop := is_u32 (blen ms) ∧ Forall member_wf ms.

#[export] Instance member_wf_dec m : Decision (member_wf m).
Proof. unfold member_wf, is_u64, is_u32. apply _. Defined.
#[export] Instance members_wf_dec ms : Decision (members_wf ms).
Proof. unfold members_wf, is_u32. apply _. Defined.

Lemma as_u32_id x : is_u32 x → as_u32 x = x.
Proof. apply N.mod_small. Qed.

Lemma decode_member_app m r : member_wf m → decode_member (encode_member m ++ r) = Some (m, r).
Proof.
  intros [Hid Hc]. unfold decode_member, encode_member. rewrite as_u32_id by done.
  rewrite <-!(assoc_L (++)).
  erewrite p_bind_Some by (by apply p_u64_app). erewrite p_bind_Some by apply p_bool_cons.
  erewrite p_bind_Some by (by apply p_u32_app). erewrite p_bind_Some by (by apply p_take_app).
  by destruct m.
Qed.

Lemma decode_member_inv r m r' :
  decode_member r = Some (m, r') → r = encode_member m ++ r' ∧ member_wf m.
Proof.
  intros (id & r1 & E1 & E)%p_bind_inv. apply p_bind_inv in E as (le & r2 & E2 & E).
  apply p_bind_inv in E as (len & r3 & E3 & E). apply p_bind_inv in E as (ctx & r4 & E4 & E).
  injection E as <- <-.
  apply p_u64_inv in E1 as [-> ?]. apply p_bool_inv in E2 as ->.
  apply p_u32_inv in E3 as [-> ?]. apply p_take_inv in E4 as [-> <-].
  unfold encode_member, member_wf. cbn [m_id m_context m_learner].
  rewrite as_u32_id by done. by rewrite <-!(assoc_L (++)).
Qed.

Lemma blen_encode_members ms : 13 * blen ms ≤ blen (mjoin (encode_member <$> ms)).
Proof.
  induction ms as [|m ms IH]; [done|].
  change (mjoin (encode_member <$> m :: ms)) with (encode_member m ++ mjoin (encode_member <$> ms)).
  assert (13 ≤ blen (encode_member m)) by (unfold encode_member; autorewrite with blen; lia).
  autorewrite with blen. lia.
Qed.

Lemma members_count_ok ms : blen ms ≤ blen (encode_members ms) / 13.
Proof.
  apply N.div_le_lower_bound; [done|]. unfold encode_members. autorewrite with blen.
  pose proof (blen_encode_members ms). lia.
Qed.

Lemma decode_encode_members ms : members_wf ms → decode_members (encode_members ms) = Some ms.
Proof.
  intros [Hc Hwf]. unfold decode_members. pose proof (members_count_ok ms) as Hcnt.
  unfold encode_members at 1. rewrite as_u32_id, p_u32_app by done.
  rewrite (proj2 (N.ltb_ge _ _)) by done.
  unfold blen at 1. rewrite Nat2N.id, <-(app_nil_r (mjoin _)).
  by rewrite (p_repeat_app _ encode_member member_wf) by auto using decode_member_app.
Qed.

(** [decode_members] accepts exactly the encodings of well-formed member lists,
    and gives back the list that was encoded; anything else, leftovers included,
    is refused. *)
Theorem decode_members_exact (bs : bytes) (ms : list Member) :
  decode_members bs = Some ms ↔ members_wf ms ∧ bs = encode_members ms.
Proof.
  split.
  - unfold decode_members. destruct (p_u32 bs) as [[count r]|] eqn:E1; [|done].
    destruct (N.ltb_spec (blen bs / 13) count); [done|].
    destruct (p_repeat _ _ r) as [[l [|]]|] eqn:E2; [|done..]. intros [= <-].
    apply p_u32_inv in E1 as [-> Hc].
    eapply (p_repeat_inv _ encode_member member_wf) in E2 as (-> & Hl & Hwf);
      [|by apply decode_member_inv].
    assert (blen l = count) as Hlc by (unfold blen; lia). unfold members_wf, encode_members.
    rewrite Hlc, as_u32_id by done. by rewrite app_nil_r.
  - intros [Hwf ->]. by apply decode_encode_members.
Qed.

(** ** The log invariant: entries follow the snapshot with no gaps *)

Definition EntryLog_wf (l : EntryLog) : Prop :=
  ∀ k e, el_entries l !! k = Some e → e_index e = sm_index (el_base l) + 1 + N.of_nat k.

Lemma EntryLog_last_index_len l :
  EntryLog_wf l → EntryLog_last_index l = sm_index (el_base l) + blen (el_entries l).
Proof.
  intros Hwf. unfold EntryLog_last_index. rewrite list.last_lookup.
  destruct (el_entries l !! _) as [e|] eqn:E.
  - rewrite (Hwf _ _ E). apply lookup_lt_Some in E. unfold blen. lia.
  - apply lookup_ge_None in E. destruct (el_entries l) eqn:El; [rewrite blen_nil; lia|simpl in E; lia].
Qed.

Lemma EntryLog_entry_lookup l i :
  EntryLog_wf l →
  EntryLog_entry l i =
    if i <=? sm_index (el_base l) then None
    else el_entries l !! N.to_nat (i - sm_index (el_base l) - 1).
Proof.
  intros Hwf. unfold EntryLog_entry, EntryLog_position. rewrite EntryLog_last_index_len by done.
  destruct (N.leb_spec i (sm_index (el_base l))); simpl; [done|].
  destruct (N.ltb_spec (sm_index (el_base l) + blen (el_entries l)) i); [|done].
  symmetry. apply lookup_ge_None_2. unfold blen in *. lia.
Qed.

Lemma EntryLog_entry_Some l i e :
  EntryLog_wf l → EntryLog_entry l i = Some e →
  e_index e = i ∧ sm_index (el_base l) < i ≤ EntryLog_last_index l.
Proof.
  intros Hwf. rewrite EntryLog_entry_lookup, EntryLog_last_index_len by done.
  destruct (N.leb_spec i (sm_index (el_base l))); [done|]. intros E.
  pose proof (lookup_lt_Some _ _ _ E). apply Hwf in E. unfold blen. lia.
Qed.

Lemma EntryLog_entry_is_Some l i :
  EntryLog_wf l → sm_index (el_base l) < i ≤ EntryLog_last_index l → is_Some (EntryLog_entry l i).
Proof.
  intros Hwf Hi. rewrite EntryLog_last_index_len in Hi by done.
  rewrite EntryLog_entry_lookup by done.
  destruct (N.leb_spec i (sm_index (el_base l))); [lia|].
  apply lookup_lt_is_Some_2. unfold blen in Hi. lia.
Qed.

Lemma EntryLog_term_at_Some l i :
  EntryLog_wf l →
  is_Some (EntryLog_term_at l i) ↔ sm_index (el_base l) ≤ i ≤ EntryLog_last_index l.
Proof.
  intros Hwf. unfold EntryLog_term_at. destruct (N.eqb_spec i (sm_index (el_base l))) as [->|Hne].
  - rewrite EntryLog_last_index_len by done. split; [lia|by eexists].
  - rewrite fmap_is_Some. split.
    + intros [e He]. apply EntryLog_entry_Some in He; [lia|done].
    + intros H. apply EntryLog_entry_is_Some; [done|lia].
Qed.

Lemma EntryLog_push_wf l e :
  EntryLog_wf l → e_index e = EntryLog_last_index l + 1 → EntryLog_wf (EntryLog_push l e).
Proof.
  intros Hwf He k e' Hk. simpl in *. apply lookup_snoc_Some in Hk as [[? Hk]|[-> <-]].
  - by apply Hwf.
  - rewrite He, EntryLog_last_index_len by done. unfold blen. lia.
Qed.

Lemma EntryLog_truncate_wf l i : EntryLog_wf l → EntryLog_wf (EntryLog_truncate_from l i).2.
Proof. intros Hwf k e Hk. simpl in *. apply lookup_take_Some in Hk as [Hk _]. by apply Hwf. Qed.

Lemma EntryLog_compact_wf l meta : EntryLog_wf l → EntryLog_wf (EntryLog_compact l meta).2.
Proof.
  intros Hwf. unfold EntryLog_compact.
  destruct (N.leb_spec (sm_index meta) (sm_index (el_base l))); [done|].
  intros k e Hk. simpl in *. case_bool_decide; [|done].
  rewrite lookup_drop in Hk. apply Hwf in Hk. lia.
Qed.

(** ** The abstract log: a finite map from index to entry *)

Definition alog (l : EntryLog) : gmap N Entry :=
  list_to_map ((λ e, (e_index e, e)) <$> el_entries l).

Lemma alog_NoDup l : EntryLog_wf l → NoDup ((λ e, (e_index e, e)) <$> el_entries l).*1.
Proof.
  intros Hwf. rewrite <-list_fmap_compose. apply NoDup_alt. intros i j x Hi Hj.
  rewrite list_lookup_fmap in Hi, Hj.
  apply fmap_Some in Hi as (e1 & E1 & ->), Hj as (e2 & E2 & Hx). simpl in Hx.
  apply Hwf in E1, E2. lia.
Qed.

Lemma alog_lookup l i : EntryLog_wf l → alog l !! i = EntryLog_entry l i.
Proof.
  intros Hwf. apply option_eq. intros e. unfold alog.
  rewrite <-elem_of_list_to_map by (by apply alog_NoDup).
  rewrite list_elem_of_fmap. split.
  - intros (e' & [= -> ->] & Hin). apply list_elem_of_lookup in Hin as [k Hk].
    rewrite EntryLog_entry_lookup, (Hwf _ _ Hk) by done.
    destruct (N.leb_spec (sm_index (el_base l) + 1 + N.of_nat k) (sm_index (el_base l))); [lia|].
    by replace (N.to_nat _) with k by lia.
  - intros He. exists e. split; [f_equal; symmetry; by eapply EntryLog_entry_Some|].
    rewrite EntryLog_entry_lookup in He by done. destruct (_ <=? _); [done|].
    by apply list_elem_of_lookup_2 in He.
Qed.

Lemma alog_push l e :
  EntryLog_wf l → e_index e = EntryLog_last_index l + 1 →
  alog (EntryLog_push l e) = <[e_index e := e]> (alog l).
Proof.
  intros Hwf He.
  apply map_eq. intros j. rewrite alog_lookup by (by apply EntryLog_push_wf).
  rewrite EntryLog_entry_lookup by (by apply EntryLog_push_wf). simpl.
  rewrite lookup_insert, alog_lookup, EntryLog_entry_lookup, He by done.
  rewrite EntryLog_last_index_len by done. unfold blen.
  case_decide as Hj; destruct (N.leb_spec j (sm_index (el_base l))); try lia; try done.
  + rewrite lookup_app_r by lia. by replace (_ - _)%nat with 0%nat by lia.
  + destruct (decide (N.to_nat (j - sm_index (el_base l) - 1) < length (el_entries l))%nat).
    * by rewrite lookup_app_l.
    * rewrite !lookup_ge_None_2; [done|lia|rewrite length_app; simpl; lia].
Qed.

Lemma alog_truncate l i :
  EntryLog_wf l → alog (EntryLog_truncate_from l i).2 = filter (λ kv, kv.1 < i) (alog l).
Proof.
  intros Hwf.
  apply map_eq. intros j. rewrite map_lookup_filter, !alog_lookup by auto using EntryLog_truncate_wf.
  rewrite !EntryLog_entry_lookup by auto using EntryLog_truncate_wf. simpl.
  destruct (N.leb_spec j (sm_index (el_base l))); [done|].
  destruct (el_entries l !! _) as [x|] eqn:Ex; simpl.
  + pose proof (lookup_lt_Some _ _ _ Ex). case_guard; simpl.
    * rewrite lookup_take_lt; [done|]. destruct (N.leb_spec i (sm_index (el_base l))); lia.
    * apply lookup_take_ge. destruct (N.leb_spec i (sm_index (el_base l))); lia.
  + apply lookup_ge_None in Ex. apply lookup_ge_None. rewrite length_take. lia.
Qed.

Lemma alog_compact l meta :
  EntryLog_wf l → sm_index (el_base l) < sm_index meta →
  (EntryLog_compact l meta).1 = true ∧ el_base (EntryLog_compact l meta).2 = meta ∧
  alog (EntryLog_compact l meta).2 =
    if bool_decide (EntryLog_term_at l (sm_index meta) = Some (sm_term meta))
    then filter (λ kv, sm_index meta < kv.1) (alog l) else ∅.
Proof.
  intros Hwf.
  intros H. pose proof (EntryLog_compact_wf l meta Hwf) as Hcw. revert Hcw.
  unfold EntryLog_compact. rewrite (proj2 (N.leb_gt _ _)) by done. intros Hcw.
  split_and!; [done..|]. apply map_eq. intros j. rewrite alog_lookup by done.
  rewrite EntryLog_entry_lookup by done. simpl. case_bool_decide as Ht.
  + rewrite map_lookup_filter, alog_lookup, EntryLog_entry_lookup by done.
    rewrite lookup_drop.
    destruct (N.leb_spec j (sm_index meta)), (N.leb_spec j (sm_index (el_base l)));
      try lia; simpl; try done.
    * destruct (el_entries l !! _); simpl; [|done]. case_guard; [lia|done].
    * replace (N.to_nat (sm_index meta - sm_index (el_base l)) + N.to_nat (j - sm_index meta - 1))%nat
        with (N.to_nat (j - sm_index (el_base l) - 1)) by lia.
      destruct (el_entries l !! _); simpl; [|done]. case_guard; [done|lia].
  + rewrite lookup_empty. by destruct (_ <=? _).
Qed.

Lemma EntryLog_compact_old l meta :
  sm_index meta ≤ sm_index (el_base l) → EntryLog_compact l meta = (false, l).
Proof. intros H. unfold EntryLog_compact. by rewrite (proj2 (N.leb_le _ _)). Qed.

(** [EntryLog] implements a finite map from index to entry: pushing the next
    entry inserts it; truncating keeps exactly the indices below the cut;
    compacting to a newer snapshot keeps exactly the indices after it when the
    log agrees with the snapshot's last entry, and nothing when it does not;
    the snapshot no newer than the base changes nothing. *)
Theorem EntryLog_refines_map (l : EntryLog) (e : Entry) (i : N) (meta : SnapshotMeta) :
  EntryLog_wf l → e_index e = EntryLog_last_index l + 1 →
  alog (EntryLog_push l e) = <[e_index e := e]> (alog l) ∧
  alog (EntryLog_truncate_from l i).2 = filter (λ kv, kv.1 < i) (alog l) ∧
  (sm_index meta ≤ sm_index (el_base l) → EntryLog_compact l meta = (false, l)) ∧
  (sm_index (el_base l) < sm_index meta →
    (EntryLog_compact l meta).1 = true ∧ el_base (EntryLog_compact l meta).2 = meta ∧
    alog (EntryLog_compact l meta).2 =
      if bool_decide (EntryLog_term_at l (sm_index meta) = Some (sm_term meta))
      then filter (λ kv, sm_index meta < kv.1) (alog l) else ∅).
Proof.
  intros Hwf He. split_and!; auto using alog_push, alog_truncate, alog_compact, EntryLog_compact_old.
Qed.

Lemma EntryLog_refines_map_witness :
  let l := mkEntryLog (mkMeta 3 1) [mkEntry 1 4 Noop; mkEntry 2 5 Noop] in
  alog (EntryLog_compact l (mkMeta 4 1)).2 = filter (λ kv, 4 < kv.1) (alog l).
Proof.
  intros l. destruct (EntryLog_refines_map l (mkEntry 2 6 Noop) 5 (mkMeta 4 1)) as (_ & _ & _ & H).
  - intros [|[|k]] e; simpl; naive_solver lia.
  - done.
  - by destruct H as (_ & _ & ->).
Defined.

(** ** What a storage promises the consensus layer

    The reads are those of an [EntryLog]; a write that succeeds has the
    [EntryLog]'s effect; no operation but [save_hard_state] touches the term or
    the vote, and that one either installs the new pair or keeps the old. *)

Definition push_all (l : EntryLog) (es : list Entry) : EntryLog := foldl EntryLog_push l es.

(** The entries carry consecutive indices from [i]. *)
Definition contiguous (i : N) (es : list Entry) : Prop :=
  ∀ k e, es !! k = Some e → e_index e = i + N.of_nat k.

#[export] Instance contiguous_dec i es : Decision (contiguous i es).
Proof.
  refine (cast_if (decide (imap (λ k e, i + N.of_nat k) es = e_index <$> es)));
    [rename select (_ = _) into Heq|rename select (_ ≠ _) into n].
  - intros k e Hk. pose proof (f_equal (λ l, l !! k) Heq) as E. simpl in E.
    rewrite list_lookup_imap, list_lookup_fmap, Hk in E. simpl in E. congruence.
  - intros Hc. apply n. apply list_eq. intros k. rewrite list_lookup_imap, list_lookup_fmap.
    destruct (es !! k) as [e|] eqn:Hk; simpl; [|done]. by rewrite (Hc k e Hk).
Defined.

#[export] Instance EntryLog_wf_dec l : Decision (EntryLog_wf l) :=
  contiguous_dec (sm_index (el_base l) + 1) (el_entries l).

Lemma contiguous_drop i es k : contiguous i es → contiguous (i + N.of_nat k) (drop k es).
Proof. intros Hc j e. rewrite lookup_drop. intros ->%Hc. lia. Qed.

Lemma push_all_base l es : el_base (push_all l es) = el_base l.
Proof. revert l. induction es as [|e es IH]; intros l; [done|]. apply (IH (EntryLog_push l e)). Qed.

Lemma push_all_entries l es : el_entries (push_all l es) = el_entries l ++ es.
Proof.
  revert l. induction es as [|e es IH]; intros l; [by rewrite app_nil_r|].
  change (push_all l (e :: es)) with (push_all (EntryLog_push l e) es). rewrite IH. simpl.
  by rewrite <-(assoc_L (++)).
Qed.

Lemma push_all_wf l es :
  EntryLog_wf l → contiguous (EntryLog_last_index l + 1) es → EntryLog_wf (push_all l es).
Proof.
  intros Hwf Hc k e. rewrite push_all_entries, push_all_base, EntryLog_last_index_len in * by done.
  rewrite lookup_app_Some. intros [Hk|[Hlen Hk]]; [by apply Hwf|].
  rewrite (Hc _ _ Hk). unfold blen. lia.
Qed.

Class StorageLaws (S : Type) `{Storage S} := {
  st_log : S → EntryLog;
  law_last_index s : last_index s = EntryLog_last_index (st_log s);
  law_term_at s i : term_at s i = EntryLog_term_at (st_log s) i;
  law_entry s i : entry s i = EntryLog_entry (st_log s) i;
  law_entries_from s i : entries_from s i = EntryLog_entries_from (st_log s) i;
  law_snapshot_meta s : snapshot_meta s = el_base (st_log s);
  law_save_log hs s : st_log (save_hard_state hs s).2 = st_log s;
  law_save_ok hs s s' : save_hard_state hs s = (Ok tt, s') → hard_state s' = hs;
  law_save_err hs s e s' : save_hard_state hs s = (Err e, s') → hard_state s' = hard_state s;
  law_append_hs es s : hard_state (append es s).2 = hard_state s;
  law_append_ok es s s' : append es s = (Ok tt, s') → st_log s' = push_all (st_log s) es;
  law_append_err es s e s' : append es s = (Err e, s') → st_log s' = st_log s;
  law_truncate_hs i s : hard_state (truncate_from i s).2 = hard_state s;
  law_truncate_log i s : st_log (truncate_from i s).2 = (EntryLog_truncate_from (st_log s) i).2;
  law_new_snapshot_hs meta ms s : hard_state (new_snapshot meta ms s).2 = hard_state s;
  law_new_snapshot_log meta ms s : st_log (new_snapshot meta ms s).2 = st_log s;
  law_new_snapshot_sink meta ms s k s' :
    new_snapshot meta ms s = (Ok k, s') → sink_meta k = meta ∧ sink_written k = 0;
  law_install_hs k s : hard_state (install_snapshot k s).2 = hard_state s;
  law_install_ok k s s' :
    install_snapshot k s = (Ok tt, s') → st_log s' = (EntryLog_compact (st_log s) (sink_meta k)).2;
  law_install_err k s e s' :
    install_snapshot k s = (Err e, s') →
    st_log s' = st_log s ∨ st_log s' = (EntryLog_compact (st_log s) (sink_meta k)).2;
  law_sink_write_meta d k : sink_meta (sink_write_all d k).2 = sink_meta k;
  law_sink_write_len d k k' :
    sink_write_all d k = (Ok tt, k') → sink_written k' = sink_written k + blen d;
  law_save_members hs s : snapshot_members (save_hard_state hs s).2 = snapshot_members s;
  law_append_members es s : snapshot_members (append es s).2 = snapshot_members s;
  law_truncate_members i s : snapshot_members (truncate_from i s).2 = snapshot_members s;
  (** The membership a snapshot being written carries. *)
  st_sink_members : Sink → option (list Member);
  law_new_snapshot_members meta ms s : snapshot_members (new_snapshot meta ms s).2 = snapshot_members s;
  law_new_snapshot_sink_members meta ms s k s' :
    new_snapshot meta ms s = (Ok k, s') → st_sink_members k = ms;
  law_sink_write_members d k : st_sink_members (sink_write_all d k).2 = st_sink_members k;
  law_install_members k s :
    snapshot_members (install_snapshot k s).2 = snapshot_members s ∨
    snapshot_members (install_snapshot k s).2 = st_sink_members k;
}.

Lemma MemStorage_append_eq es s :
  MemStorage_append es s = (Ok tt, MemStorage_set_log (λ l, push_all l es) s).
Proof.
  revert s. induction es as [|e es IH]; intros s; [by destruct s|].
  unfold MemStorage_append in *. cbn [miter]. unfold mbind, M_bind, mmodify at 1. by rewrite IH.
Qed.

Lemma MemStorage_install_eq k s :
  MemStorage_install_snapshot k s =
    (Ok tt, let '(changed, log) := EntryLog_compact (ms_log s) (msn_meta k) in
      mkMemStorage (ms_hard_state s) log (if changed then msn_data k else ms_snapshot s)
        (if changed then msn_members k else ms_snapshot_members s)).
Proof. unfold MemStorage_install_snapshot, mmodify. by destruct (EntryLog_compact _ _) as [[] ?]. Qed.

(** [MemStorage] keeps every promise, and never fails. *)
#[export] Instance MemStorage_laws : StorageLaws MemStorage.
Proof.
  unshelve eapply (Build_StorageLaws _ _ ms_log); [exact msn_members|..]; simpl; intros;
    rewrite ?MemStorage_append_eq, ?MemStorage_install_eq in *; simpl in *;
    try destruct (EntryLog_compact _ _); simplify_eq; simpl; auto using blen_app.
  all: repeat match goal with H : _ = (_, _) |- _ =>
    unfold MemStorage_save_hard_state, MemStorage_new_snapshot, MemSnapshot_write, mmodify, mret, M_ret in H;
    simplify_eq end; simpl; auto using blen_app.
  all: repeat case_match; auto.
Defined.
