(* ===== verification/Message.v ===== *)
(** * The RPCs and what a node asks of its transport (src/raft/message.rs) *)

From S2P Require Import Prelude.
From S2P Require Import RaftLog.

#[local] Open Scope N_scope.

Inductive Message :=
  | PreVote (term last_log_index last_log_term : N)
  | PreVoteReply (term : N) (granted : bool)
  | RequestVote (term last_log_index last_log_term : N)
  | RequestVoteReply (term : N) (granted : bool)
  | AppendEntries (term prev_log_index prev_log_term : N) (entries : list Entry)
      (leader_commit seq : N)
  | InstallSnapshot (term last_index last_term offset : N) (data : bytes) (done : bool)
      (seq : N) (members : option (list Member))
  | InstallSnapshotReply (term last_index next_offset : N) (done : bool) (seq : N)
  | AppendEntriesReply (term : N) (success : bool) (match_index conflict_index : N)
      (conflict_term : option N) (seq : N)
  | ReadIndex (term id : N)
  | ReadIndexReply (term id : N) (index : option N).

#[export] Instance Message_eq_decision : EqDecision Message.
Proof. solve_decision. Defined.

Definition msg_term (m : Message) : N :=
  match m with
  | PreVote term _ _ | PreVoteReply term _ | RequestVote term _ _ | RequestVoteReply term _
  | AppendEntries term _ _ _ _ _ | AppendEntriesReply term _ _ _ _ _
  | InstallSnapshot term _ _ _ _ _ _ _ | InstallSnapshotReply term _ _ _ _
  | ReadIndex term _ | ReadIndexReply term _ _ => term
  end.

Definition is_vote_request (m : Message) : bool :=
  match m with PreVote _ _ _ | RequestVote _ _ _ => true | _ => false end.

Definition is_request (m : Message) : bool :=
  match m with
  | PreVote _ _ _ | RequestVote _ _ _ | AppendEntries _ _ _ _ _ _
  | InstallSnapshot _ _ _ _ _ _ _ _ | ReadIndex _ _ => true
  | _ => false
  end.

Inductive Action := Send (to : NodeId) (message : Message).

#[export] Instance Action_eq_decision : EqDecision Action.
Proof. solve_decision. Defined.
