(* ===== verification/Wire.v ===== *)
(** * Raft messages on a socket (src/raft/wire.rs)

    The frame (magic, length, checksum, sender) and the message body, written
    and read back. *)

From S2P Require Import Prelude.
From S2P Require Import Crc.
From S2P Require Import RaftLog.
From S2P Require Import Message.

#[local] Open Scope N_scope.

(** ** The code *)

Definition MAGIC : N := 0x4d435246.
Definition PREFIX_LEN : nat := 20.
Definition MAX_FRAME : N := 64 * 1024 * 1024.

Definition put_u64 (values : list N) : bytes := mjoin (to_le 8 <$> values).

Definition put_members (members : option (list Member)) : bytes :=
  match members with
  | Some members =>
      let encoded := encode_members members in
      [x01] ++ put_u64 [blen encoded] ++ encoded
  | None => [x00]
  end.

(** The part of [encode] that writes one entry of an [AppendEntries]. *)
Definition encode_entry_wire (e : Entry) : bytes :=
  put_u64 [e_term e; e_index e] ++
  match e_command e with
  | Noop => [x00] ++ put_u64 [0]
  | Data data => [x01] ++ put_u64 [blen data] ++ data
  | Config members =>
      let encoded := encode_members members in
      [x02] ++ put_u64 [blen encoded] ++ encoded
  end.

Definition wire_encode (m : Message) : bytes :=
  match m with
  | PreVote term last_log_index last_log_term =>
      [x05] ++ put_u64 [term; last_log_index; last_log_term]
  | PreVoteReply term granted => [x06] ++ put_u64 [term] ++ [bool_byte granted]
  | RequestVote term last_log_index last_log_term =>
      [x01] ++ put_u64 [term; last_log_index; last_log_term]
  | RequestVoteReply term granted => [x02] ++ put_u64 [term] ++ [bool_byte granted]
  | AppendEntries term prev_log_index prev_log_term entries leader_commit seq =>
      [x03] ++
      put_u64 [term; prev_log_index; prev_log_term; leader_commit; seq; blen entries] ++
      mjoin (encode_entry_wire <$> entries)
  | InstallSnapshot term last_index last_term offset data done seq members =>
      [x07] ++ put_u64 [term; last_index; last_term; offset; seq; blen data] ++ data ++
      [bool_byte done] ++ put_members members
  | InstallSnapshotReply term last_index next_offset done seq =>
      [x08] ++ put_u64 [term; last_index; next_offset; seq] ++ [bool_byte done]
  | AppendEntriesReply term success match_index conflict_index conflict_term seq =>
      [x04] ++ put_u64 [term; match_index; conflict_index; seq] ++ [bool_byte success] ++
      match conflict_term with
      | Some t => [x01] ++ put_u64 [t]
      | None => [x00] ++ put_u64 [0]
      end
  | ReadIndex term id => [x09] ++ put_u64 [term; id]
  | ReadIndexReply term id index =>
      [x0a] ++ put_u64 [term; id] ++
      [bool_byte (match index with Some _ => true | None => false end)] ++
      put_u64 [default 0 index]
  end.

(** [Reader::members]: [Some None] for no membership. *)
Definition r_members : parser (option (list Member)) :=
  has ← p_bool;
  if (has : bool) then
    len ← p_u64; l ← p_take len;
    match decode_members l with Some ms => mret (Some ms) | None => p_fail end
  else mret None.

(** The loop body that reads one entry. *)
Definition r_entry : parser Entry :=
  term ← p_u64; index ← p_u64; kind ← p_u8; len ← p_u64;
  match Byte.to_N kind with
  | 0 => mret (mkEntry term index Noop)
  | 1 => data ← p_take len; mret (mkEntry term index (Data data))
  | 2 =>
      l ← p_take len;
      match decode_members l with
      | Some ms => mret (mkEntry term index (Config ms))
      | None => p_fail
      end
  | _ => p_fail
  end.

(** [decode] before the final check that nothing is left over. [total] is
    [body.len()], which bounds the entry count before anything is allocated. *)
Definition r_message (total : N) : parser Message :=
  tag ← p_u8;
  match Byte.to_N tag with
  | 5 => term ← p_u64; i ← p_u64; t ← p_u64; mret (PreVote term i t)
  | 6 => term ← p_u64; granted ← p_bool; mret (PreVoteReply term granted)
  | 1 => term ← p_u64; i ← p_u64; t ← p_u64; mret (RequestVote term i t)
  | 2 => term ← p_u64; granted ← p_bool; mret (RequestVoteReply term granted)
  | 3 =>
      term ← p_u64; prev_log_index ← p_u64; prev_log_term ← p_u64;
      leader_commit ← p_u64; seq ← p_u64; count ← p_u64;
      if total <? count then p_fail
      else
        entries ← p_repeat (N.to_nat count) r_entry;
        mret (AppendEntries term prev_log_index prev_log_term entries leader_commit seq)
  | 7 =>
      term ← p_u64; last_index ← p_u64; last_term ← p_u64; offset ← p_u64; seq ← p_u64;
      len ← p_u64; data ← p_take len; done ← p_bool; members ← r_members;
      mret (InstallSnapshot term last_index last_term offset data done seq members)
  | 8 =>
      term ← p_u64; last_index ← p_u64; next_offset ← p_u64; seq ← p_u64; done ← p_bool;
      mret (InstallSnapshotReply term last_index next_offset done seq)
  | 4 =>
      term ← p_u64; match_index ← p_u64; conflict_index ← p_u64; seq ← p_u64;
      success ← p_bool; has_term ← p_bool; conflict ← p_u64;
      mret (AppendEntriesReply term success match_index conflict_index
        (if (has_term : bool) then Some conflict else None) seq)
  | 9 => term ← p_u64; id ← p_u64; mret (ReadIndex term id)
  | 10 =>
      term ← p_u64; id ← p_u64; has_index ← p_bool; index ← p_u64;
      mret (ReadIndexReply term id (if (has_index : bool) then Some index else None))
  | _ => p_fail
  end.

Definition wire_decode (body : bytes) : option Message :=
  match r_message (blen body) body with
  | Some (m, []) => Some m
  | _ => None
  end.

(** What the writer hands to the socket. *)
Definition write_message (from : NodeId) (m : Message) : bytes :=
  let body := wire_encode m in
  to_le 4 MAGIC ++ to_le 4 (as_u32 (blen body + 12)) ++ to_le 4 (crc32_parts [body]) ++
  to_le 8 from ++ body.

(** Why a read failed: malformed data, or the stream ending inside a frame. *)
Inductive wire_error := InvalidData (detail : string) | UnexpectedEof.

Inductive wire_read :=
  | WMessage (from : NodeId) (m : Message) (rest : bytes)
  | WEnd
  | WError (e : wire_error).

(** [read_message] on the bytes of the stream: the sender, the message and
    what is left to read. A stream that ends inside the 20-byte prefix reads
    as a clean end. *)
Definition read_message (stream : bytes) : wire_read :=
  if blen stream <? N.of_nat PREFIX_LEN then WEnd
  else
    let prefix := take PREFIX_LEN stream in
    let rest := drop PREFIX_LEN stream in
    let magic := of_le (slice 0 4 prefix) in
    if negb (magic =? MAGIC) then WError (InvalidData "not a minicask raft stream")
    else
      let len := of_le (slice 4 8 prefix) in
      if negb ((12 <=? len) && (len <=? MAX_FRAME)) then
        WError (InvalidData "implausible frame length")
      else
        let crc := of_le (slice 8 12 prefix) in
        let from := of_le (slice 12 20 prefix) in
        match p_take (len - 12) rest with
        | None => WError UnexpectedEof
        | Some (body, rest) =>
            if negb (crc32_parts [body] =? crc) then
              WError (InvalidData "checksum mismatch on a raft message")
            else
              match wire_decode body with
              | None => WError (InvalidData "malformed raft message")
              | Some m => WMessage from m rest
              end
        end.

(** ** Well-formed messages: every field fits the width it is sent in *)

Definition command_wf (c : Command) : Prop :=
  match c with
  | Noop => True
  | Data data => is_u64 (blen data)
  | Config ms => members_wf ms ∧ is_u64 (blen (encode_members ms))
  end.

Definition entry_wf (e : Entry) : Prop :=
  is_u64 (e_term e) ∧ is_u64 (e_index e) ∧ command_wf (e_command e).

Definition opt_wf (P : N → Prop) (o : option N) : Prop :=
  match o with Some x => P x | None => True end.

Definition msg_wf (m : Message) : Prop :=
  match m with
  | PreVote a c d | RequestVote a c d => is_u64 a ∧ is_u64 c ∧ is_u64 d
  | PreVoteReply a _ | RequestVoteReply a _ => is_u64 a
  | AppendEntries a c d es f g =>
      is_u64 a ∧ is_u64 c ∧ is_u64 d ∧ is_u64 f ∧ is_u64 g ∧ is_u64 (blen es) ∧ Forall entry_wf es
  | InstallSnapshot a c d f data _ g ms =>
      is_u64 a ∧ is_u64 c ∧ is_u64 d ∧ is_u64 f ∧ is_u64 g ∧ is_u64 (blen data) ∧
      match ms with Some ms => members_wf ms ∧ is_u64 (blen (encode_members ms)) | None => True end
  | InstallSnapshotReply a c d _ f => is_u64 a ∧ is_u64 c ∧ is_u64 d ∧ is_u64 f
  | AppendEntriesReply a _ c d o f => is_u64 a ∧ is_u64 c ∧ is_u64 d ∧ is_u64 f ∧ opt_wf is_u64 o
  | ReadIndex a c => is_u64 a ∧ is_u64 c
  | ReadIndexReply a c o => is_u64 a ∧ is_u64 c ∧ opt_wf is_u64 o
  end.

(** Normalises an encoder's output to fields followed by a rest, then reads
    field by field. *)
Ltac wire_norm :=
  unfold put_u64; cbn [fmap list_fmap mjoin list_join];
  rewrite <-?(assoc_L (++)); cbn [app].

Ltac wire_read :=
  repeat (lazymatch goal with
  | |- @mbind _ _ _ _ _ p_u64 _ = _ => erewrite (p_bind_Some p_u64) by (apply p_u64_app; first [assumption | exact eq_refl])
  | |- @mbind _ _ _ _ _ p_u8 _ = _ => erewrite (p_bind_Some p_u8) by apply p_u8_cons
  | |- @mbind _ _ _ _ _ p_bool _ = _ => erewrite (p_bind_Some p_bool) by apply p_bool_cons
  | |- @mbind _ _ _ _ _ (p_take _) _ = _ =>
      erewrite (p_bind_Some (p_take _)) by (apply p_take_app; reflexivity)
  end).

(** Picks the branch of a tag byte. *)
Ltac wire_tag :=
  match goal with |- context [Byte.to_N ?t] =>
    let v := eval vm_compute in (Byte.to_N t) in change (Byte.to_N t) with v; cbv iota end.

Lemma r_entry_app e r : entry_wf e → r_entry (encode_entry_wire e ++ r) = Some (e, r).
Proof.
  intros (Ht & Hi & Hc). unfold r_entry, encode_entry_wire.
  destruct e as [t i [|data|ms]]; cbn [e_term e_index e_command command_wf] in *; wire_norm.
  - wire_read. by wire_tag.
  - wire_read. wire_tag. by wire_read.
  - destruct Hc as [Hwf Hlen]. wire_read. wire_tag. wire_read. by rewrite decode_encode_members.
Qed.

Lemma r_members_app ms r :
  match ms with Some ms => members_wf ms ∧ is_u64 (blen (encode_members ms)) | None => True end →
  r_members (put_members ms ++ r) = Some (ms, r).
Proof.
  intros Hms. unfold r_members, put_members. destruct ms as [ms|].
  - destruct Hms as [Hwf Hlen]. wire_norm. erewrite p_bind_Some by apply (p_bool_cons true).
    cbv iota beta. wire_read. by rewrite decode_encode_members.
  - cbn [app]. by erewrite p_bind_Some by apply (p_bool_cons false).
Qed.

Lemma blen_entries_wire es : blen es ≤ blen (mjoin (encode_entry_wire <$> es)).
Proof.
  induction es as [|e es IH]; [done|].
  change (mjoin (encode_entry_wire <$> e :: es))
    with (encode_entry_wire e ++ mjoin (encode_entry_wire <$> es)).
  assert (1 ≤ blen (encode_entry_wire e)).
  { unfold encode_entry_wire. wire_norm. autorewrite with blen. lia. }
  autorewrite with blen. lia.
Qed.

Lemma r_append_app term pi pt es lc sq r total :
  msg_wf (AppendEntries term pi pt es lc sq) → blen es ≤ total →
  r_message total (wire_encode (AppendEntries term pi pt es lc sq) ++ r)
  = Some (AppendEntries term pi pt es lc sq, r).
Proof.
  intros (? & ? & ? & ? & ? & ? & Hes) Hlen. unfold r_message, wire_encode. wire_norm. wire_read.
  wire_tag. wire_read. rewrite (proj2 (N.ltb_ge _ _)) by done.
  unfold blen. rewrite Nat2N.id.
  by erewrite p_bind_Some by (apply (p_repeat_app r_entry encode_entry_wire entry_wf);
    auto using r_entry_app).
Qed.

Lemma r_snapshot_app term li lt off data fin sq ms r total :
  msg_wf (InstallSnapshot term li lt off data fin sq ms) →
  r_message total (wire_encode (InstallSnapshot term li lt off data fin sq ms) ++ r)
  = Some (InstallSnapshot term li lt off data fin sq ms, r).
Proof.
  intros (? & ? & ? & ? & ? & ? & Hms). unfold r_message, wire_encode. wire_norm. wire_read.
  wire_tag. wire_read. by erewrite p_bind_Some by (by apply r_members_app).
Qed.

Lemma r_message_app m r total :
  msg_wf m → blen (wire_encode m) ≤ total → r_message total (wire_encode m ++ r) = Some (m, r).
Proof.
  intros Hwf Hlen.
  destruct m as [| | | | | | |? ? ? ? [ct|] ?| |? ? [ix|]];
    lazymatch goal with
    | |- context [InstallSnapshot _ _ _ _ _ _ _ _] => by apply r_snapshot_app
    | |- context [AppendEntries _ _ _ _ _ _] => apply r_append_app; [done|]
    | |- _ => unfold r_message, wire_encode in *; simpl in Hwf; destruct_and?; wire_norm; wire_read;
        wire_tag; wire_read; try reflexivity
    end.
  - etrans; [|done]. unfold wire_encode. autorewrite with blen.
    pose proof (blen_entries_wire entries). lia.
  - erewrite (p_bind_Some p_bool) by apply (p_bool_cons true). by wire_read.
  - erewrite (p_bind_Some p_bool) by apply (p_bool_cons false). by wire_read.
Qed.

(** ** Properties *)

(** Every well-formed message decodes from its encoding to itself. *)
Theorem wire_roundtrip (m : Message) : msg_wf m → wire_decode (wire_encode m) = Some m.
Proof.
  intros Hwf. unfold wire_decode. rewrite <-(app_nil_r (wire_encode m)) at 2.
  by rewrite r_message_app.
Qed.

Lemma wire_roundtrip_witness :
  wire_decode (wire_encode (AppendEntries 7 4 6 [mkEntry 7 5 Noop; mkEntry 7 6 (Data (lit "x"));
    mkEntry 7 7 (Config [mkMember 3 (lit "h:1 h:2") true])] 4 9))
  = Some (AppendEntries 7 4 6 [mkEntry 7 5 Noop; mkEntry 7 6 (Data (lit "x"));
    mkEntry 7 7 (Config [mkMember 3 (lit "h:1 h:2") true])] 4 9).
Proof.
  apply wire_roundtrip. unfold msg_wf, entry_wf, command_wf, members_wf, member_wf.
  split_and!; try done. repeat constructor; try done.
Defined.

(** ** Frames *)

Definition frame_prefix (from len crc : N) : bytes :=
  to_le 4 MAGIC ++ to_le 4 len ++ to_le 4 crc ++ to_le 8 from.

Lemma length_frame_prefix from len crc : length (frame_prefix from len crc) = PREFIX_LEN.
Proof. unfold frame_prefix. by autorewrite with len. Qed.

Lemma write_message_prefix from m :
  blen (wire_encode m) + 12 ≤ MAX_FRAME →
  write_message from m
  = frame_prefix from (blen (wire_encode m) + 12) (crc32_parts [wire_encode m]) ++ wire_encode m.
Proof.
  intros H. unfold write_message, frame_prefix. rewrite as_u32_id, <-!(assoc_L (++)); [done|].
  unfold is_u32, TWO32, MAX_FRAME in *. lia.
Qed.

(** What [read_message] does with a whole frame whose body may not be the one
    its checksum was computed over. *)
Lemma read_message_frame from crc body rest :
  is_u64 from → is_u32 crc → blen body + 12 ≤ MAX_FRAME →
  read_message (frame_prefix from (blen body + 12) crc ++ body ++ rest) =
    if negb (crc32_parts [body] =? crc) then
      WError (InvalidData "checksum mismatch on a raft message")
    else match wire_decode body with
         | None => WError (InvalidData "malformed raft message")
         | Some m => WMessage from m rest
         end.
Proof.
  intros Hf Hc Hlen. unfold read_message.
  rewrite (proj2 (N.ltb_ge _ _)).
  2:{ rewrite blen_app. unfold blen at 1. rewrite length_frame_prefix. lia. }
  rewrite take_app_length', drop_app_length' by (by rewrite length_frame_prefix).
  unfold frame_prefix.
  rewrite (slice_here 4) by done.
  rewrite (slice_skip 4), (slice_here (8 - _)) by done.
  rewrite (slice_skip 8), (slice_skip (8 - _)), (slice_here (12 - _ - _)) by done.
  rewrite (slice_skip 12), (slice_skip (12 - _)), (slice_skip (12 - _ - _)),
    <-(app_nil_r (to_le 8 from)), (slice_here (20 - _ - _ - _)) by done.
  assert (is_u32 (blen body + 12)) by (unfold is_u32, TWO32, MAX_FRAME in *; lia).
  rewrite of_le_to_le_u64, !of_le_to_le_u32 by done. rewrite N.eqb_refl.
  rewrite (proj2 (N.leb_le 12 _)), (proj2 (N.leb_le _ MAX_FRAME)) by lia. cbv [negb andb].
  by rewrite p_take_app by lia.
Qed.

(** A framed message is read back as itself, with its sender, and exactly its
    bytes are consumed from the stream. *)
Theorem frame_roundtrip (from : NodeId) (m : Message) (rest : bytes) :
  is_u64 from → msg_wf m → blen (wire_encode m) + 12 ≤ MAX_FRAME →
  read_message (write_message from m ++ rest) = WMessage from m rest.
Proof.
  intros Hf Hm Hlen. rewrite write_message_prefix, <-(assoc_L (++)) by done.
  rewrite read_message_frame by auto using crc32_parts_u32. rewrite N.eqb_refl. simpl.
  unfold wire_decode. rewrite <-(app_nil_r (wire_encode m)) at 2. by rewrite r_message_app.
Qed.

Lemma frame_roundtrip_witness :
  read_message (write_message 2 (ReadIndexReply 5 6 (Some 7)) ++ lit "next")
  = WMessage 2 (ReadIndexReply 5 6 (Some 7)) (lit "next").
Proof. apply frame_roundtrip; [done|by split_and!|by vm_compute]. Defined.

(** C34: damage confined to a window of at most four bytes of a message's body is
    always refused with a checksum error, never delivered as a message. *)
Theorem frame_damage_refused (from : NodeId) (m : Message) (pre u v post rest : bytes) :
  is_u64 from → blen (wire_encode m) + 12 ≤ MAX_FRAME →
  wire_encode m = pre ++ u ++ post → length u = length v → (length u ≤ 4)%nat → u ≠ v →
  read_message (take PREFIX_LEN (write_message from m) ++ (pre ++ v ++ post) ++ rest)
  = WError (InvalidData "checksum mismatch on a raft message").
Proof.
  intros Hf Hlen E Hl H4 Hne. rewrite write_message_prefix by done.
  rewrite take_app_length' by (by rewrite length_frame_prefix).
  replace (blen (wire_encode m)) with (blen (pre ++ v ++ post)) in *
    by (rewrite E; autorewrite with blen; unfold blen; lia).
  rewrite read_message_frame by auto using crc32_parts_u32.
  rewrite E. case_match eqn:Ec; [done|]. exfalso.
  apply negb_false_iff, N.eqb_eq in Ec. symmetry in Ec. by apply crc32_detects_burst in Ec.
Qed.

Lemma frame_damage_refused_witness :
  read_message (take PREFIX_LEN (write_message 2 (RequestVoteReply 7 false)) ++
    (wire_encode (RequestVoteReply 7 true)) ++ [])
  = WError (InvalidData "checksum mismatch on a raft message").
Proof.
  refine (frame_damage_refused 2 (RequestVoteReply 7 false)
    ([x02] ++ to_le 8 7) [x00] [x01] [] [] _ _ _ _ _ _);
    [done|by vm_compute|by vm_compute|done|simpl; lia|done].
Defined.

(** [Entry::encoded_len], which the leader budgets messages with, is exactly
    the number of bytes the entry takes on the wire, so an [AppendEntries] body is
    49 bytes plus the sum of its entries' lengths. *)
Theorem append_body_len (term prev_index prev_term commit seq : N) (es : list Entry) :
  blen (wire_encode (AppendEntries term prev_index prev_term es commit seq))
  = 49 + foldr (λ e n, encoded_len e + n) 0 es.
Proof.
  unfold wire_encode. wire_norm. autorewrite with blen.
  assert (blen (mjoin (encode_entry_wire <$> es)) = foldr (λ e n, encoded_len e + n) 0 es) as Hes.
  { induction es as [|e es IH]; [done|].
    change (mjoin (encode_entry_wire <$> e :: es))
      with (encode_entry_wire e ++ mjoin (encode_entry_wire <$> es)).
    rewrite blen_app, IH. cbn [foldr]. f_equal.
    unfold encode_entry_wire, encoded_len, ENTRY_OVERHEAD. wire_norm.
    destruct (e_command e); autorewrite with blen; lia. }
  unfold mjoin, list_join in *. lia.
Qed.
