(* ===== verification/NodeState.v ===== *)
(** * The state of a consensus node (src/raft/node.rs, the types)

    The data of the state machine: roles, timer settings, the deterministic
    generator behind the randomised timeouts, reads in flight, and the [Node]
    record itself with one update function per mutable field. *)

From S2P Require Import Prelude.
From S2P Require Import RaftLog.
From S2P Require Import Message.

#[local] Open Scope N_scope.

Inductive Role := Follower | PreCandidate | Candidate | Leader.

#[export] Instance Role_eq_decision : EqDecision Role.
Proof. solve_decision. Defined.

Record NodeConfig := mkConfig {
  heartbeat_ticks : N;
  election_timeout_min : N;
  election_timeout_max : N;
  max_append_bytes : N;
  max_entry_bytes : N;
}.

Definition NodeConfig_default : NodeConfig :=
  mkConfig 2 10 20 (1024 * 1024) (16 * 1024 * 1024).

(** A command in the log, and the messages that offer it to the followers. *)
Record Accepted := mkAccepted { acc_index : N; acc_actions : list Action }.

Inductive ProposeError :=
  | NotLeader (leader : option NodeId)
  | TooLarge (len max : N)
  | StorageError (e : Error)
  | MembershipError (why : string).

(** [ReadRequest(ReadKind)]. *)
Inductive ReadKind :=
  | KLocal (term seq index : N)
  | KForwarded (id : N) (leader : NodeId)
  | KRefused.

Inductive ReadState := RPending | RReady (index : N) | RFailed.

Inductive Answer := AWaiting | AReady (index : N) | ARefused.

Record RemoteRead := mkRemoteRead { rr_from : NodeId; rr_id : N; rr_seq : N; rr_index : N }.

(** ** The xorshift generator, on 64-bit words *)

Definition Rng_new (seed : N) : N :=
  N.lor (as_u64 (as_u64 (seed * 6364136223846793005) + 1442695040888963407)) 1.

(** [Rng::next]: the value, which is also the new state. *)
Definition Rng_next (s : N) : N :=
  let x := N.lxor s (as_u64 (N.shiftl s 13)) in
  let x := N.lxor x (N.shiftr x 7) in
  N.lxor x (as_u64 (N.shiftl x 17)).

(** The timeout drawn, and the generator's new state. *)
Definition random_timeout (rng : N) (config : NodeConfig) : N * N :=
  let span := election_timeout_max config - election_timeout_min config in
  if span =? 0 then (election_timeout_min config, rng)
  else
    let x := Rng_next rng in
    (election_timeout_min config + x mod (span + 1), x).

(** ** The node *)

Record Node (S : Type) `{Storage S} := mkNode {
  n_id : NodeId;
  n_bootstrap : list Member;
  n_members : list Member;
  n_membership_index : N;
  n_voters : list NodeId;
  n_peers : list NodeId;
  n_replicas : list NodeId;
  n_config : NodeConfig;
  n_storage : S;
  n_role : Role;
  n_leader_id : option NodeId;
  n_commit_index : N;
  n_last_applied : N;
  n_votes : gset NodeId;
  n_leader_start : N;
  n_active : gset NodeId;
  n_snapshot_progress : gmap NodeId (N * N);
  n_incoming : option (NodeId * Sink);
  n_next_index : gmap NodeId N;
  n_match_index : gmap NodeId N;
  n_seq : N;
  n_acked : gmap NodeId N;
  n_auto_promote : bool;
  n_remote_reads : list RemoteRead;
  n_forwarded : gmap N Answer;
  n_next_read : N;
  n_election_elapsed : N;
  n_heartbeat_elapsed : N;
  n_election_timeout : N;
  n_rng : N;
}.
Arguments n_id {_ _} _.
Arguments n_bootstrap {_ _} _.
Arguments n_members {_ _} _.
Arguments n_membership_index {_ _} _.
Arguments n_voters {_ _} _.
Arguments n_peers {_ _} _.
Arguments n_replicas {_ _} _.
Arguments n_config {_ _} _.
Arguments n_storage {_ _} _.
Arguments n_role {_ _} _.
Arguments n_leader_id {_ _} _.
Arguments n_commit_index {_ _} _.
Arguments n_last_applied {_ _} _.
Arguments n_votes {_ _} _.
Arguments n_leader_start {_ _} _.
Arguments n_active {_ _} _.
Arguments n_snapshot_progress {_ _} _.
Arguments n_incoming {_ _} _.
Arguments n_next_index {_ _} _.
Arguments n_match_index {_ _} _.
Arguments n_seq {_ _} _.
Arguments n_acked {_ _} _.
Arguments n_auto_promote {_ _} _.
Arguments n_remote_reads {_ _} _.
Arguments n_forwarded {_ _} _.
Arguments n_next_read {_ _} _.
Arguments n_election_elapsed {_ _} _.
Arguments n_heartbeat_elapsed {_ _} _.
Arguments n_election_timeout {_ _} _.
Arguments n_rng {_ _} _.
Arguments mkNode {_ _}.

(** Field updates: [self.field = v]. *)

Section setters.
Context {S : Type} `{Storage S}.

Definition set_members (v : list Member) (n : Node S) : Node S :=
  mkNode (n_id n) (n_bootstrap n) v (n_membership_index n) (n_voters n) (n_peers n) (n_replicas
    n) (n_config n) (n_storage n) (n_role n) (n_leader_id n) (n_commit_index n) (n_last_applied
    n) (n_votes n) (n_leader_start n) (n_active n) (n_snapshot_progress n) (n_incoming n)
    (n_next_index n) (n_match_index n) (n_seq n) (n_acked n) (n_auto_promote n) (n_remote_reads
    n) (n_forwarded n) (n_next_read n) (n_election_elapsed n) (n_heartbeat_elapsed n)
    (n_election_timeout n) (n_rng n).
Definition set_membership_index (v : N) (n : Node S) : Node S :=
  mkNode (n_id n) (n_bootstrap n) (n_members n) v (n_voters n) (n_peers n) (n_replicas n)
    (n_config n) (n_storage n) (n_role n) (n_leader_id n) (n_commit_index n) (n_last_applied n)
    (n_votes n) (n_leader_start n) (n_active n) (n_snapshot_progress n) (n_incoming n)
    (n_next_index n) (n_match_index n) (n_seq n) (n_acked n) (n_auto_promote n) (n_remote_reads
    n) (n_forwarded n) (n_next_read n) (n_election_elapsed n) (n_heartbeat_elapsed n)
    (n_election_timeout n) (n_rng n).
Definition set_voters (v : list NodeId) (n : Node S) : Node S :=
  mkNode (n_id n) (n_bootstrap n) (n_members n) (n_membership_index n) v (n_peers n) (n_replicas
    n) (n_config n) (n_storage n) (n_role n) (n_leader_id n) (n_commit_index n) (n_last_applied
    n) (n_votes n) (n_leader_start n) (n_active n) (n_snapshot_progress n) (n_incoming n)
    (n_next_index n) (n_match_index n) (n_seq n) (n_acked n) (n_auto_promote n) (n_remote_reads
    n) (n_forwarded n) (n_next_read n) (n_election_elapsed n) (n_heartbeat_elapsed n)
    (n_election_timeout n) (n_rng n).
Definition set_peers (v : list NodeId) (n : Node S) : Node S :=
  mkNode (n_id n) (n_bootstrap n) (n_members n) (n_membership_index n) (n_voters n) v
    (n_replicas n) (n_config n) (n_storage n) (n_role n) (n_leader_id n) (n_commit_index n)
    (n_last_applied n) (n_votes n) (n_leader_start n) (n_active n) (n_snapshot_progress n)
    (n_incoming n) (n_next_index n) (n_match_index n) (n_seq n) (n_acked n) (n_auto_promote n)
    (n_remote_reads n) (n_forwarded n) (n_next_read n) (n_election_elapsed n)
    (n_heartbeat_elapsed n) (n_election_timeout n) (n_rng n).
Definition set_replicas (v : list NodeId) (n : Node S) : Node S :=
  mkNode (n_id n) (n_bootstrap n) (n_members n) (n_membership_index n) (n_voters n) (n_peers n)
    v (n_config n) (n_storage n) (n_role n) (n_leader_id n) (n_commit_index n) (n_last_applied
    n) (n_votes n) (n_leader_start n) (n_active n) (n_snapshot_progress n) (n_incoming n)
    (n_next_index n) (n_match_index n) (n_seq n) (n_acked n) (n_auto_promote n) (n_remote_reads
    n) (n_forwarded n) (n_next_read n) (n_election_elapsed n) (n_heartbeat_elapsed n)
    (n_election_timeout n) (n_rng n).
Definition set_storage (v : S) (n : Node S) : Node S :=
  mkNode (n_id n) (n_bootstrap n) (n_members n) (n_membership_index n) (n_voters n) (n_peers n)
    (n_replicas n) (n_config n) v (n_role n) (n_leader_id n) (n_commit_index n) (n_last_applied
    n) (n_votes n) (n_leader_start n) (n_active n) (n_snapshot_progress n) (n_incoming n)
    (n_next_index n) (n_match_index n) (n_seq n) (n_acked n) (n_auto_promote n) (n_remote_reads
    n) (n_forwarded n) (n_next_read n) (n_election_elapsed n) (n_heartbeat_elapsed n)
    (n_election_timeout n) (n_rng n).
Definition set_role (v : Role) (n : Node S) : Node S :=
  mkNode (n_id n) (n_bootstrap n) (n_members n) (n_membership_index n) (n_voters n) (n_peers n)
    (n_replicas n) (n_config n) (n_storage n) v (n_leader_id n) (n_commit_index n)
    (n_last_applied n) (n_votes n) (n_leader_start n) (n_active n) (n_snapshot_progress n)
    (n_incoming n) (n_next_index n) (n_match_index n) (n_seq n) (n_acked n) (n_auto_promote n)
    (n_remote_reads n) (n_forwarded n) (n_next_read n) (n_election_elapsed n)
    (n_heartbeat_elapsed n) (n_election_timeout n) (n_rng n).
Definition set_leader_id (v : option NodeId) (n : Node S) : Node S :=
  mkNode (n_id n) (n_bootstrap n) (n_members n) (n_membership_index n) (n_voters n) (n_peers n)
    (n_replicas n) (n_config n) (n_storage n) (n_role n) v (n_commit_index n) (n_last_applied n)
    (n_votes n) (n_leader_start n) (n_active n) (n_snapshot_progress n) (n_incoming n)
    (n_next_index n) (n_match_index n) (n_seq n) (n_acked n) (n_auto_promote n) (n_remote_reads
    n) (n_forwarded n) (n_next_read n) (n_election_elapsed n) (n_heartbeat_elapsed n)
    (n_election_timeout n) (n_rng n).
Definition set_commit_index (v : N) (n : Node S) : Node S :=
  mkNode (n_id n) (n_bootstrap n) (n_members n) (n_membership_index n) (n_voters n) (n_peers n)
    (n_replicas n) (n_config n) (n_storage n) (n_role n) (n_leader_id n) v (n_last_applied n)
    (n_votes n) (n_leader_start n) (n_active n) (n_snapshot_progress n) (n_incoming n)
    (n_next_index n) (n_match_index n) (n_seq n) (n_acked n) (n_auto_promote n) (n_remote_reads
    n) (n_forwarded n) (n_next_read n) (n_election_elapsed n) (n_heartbeat_elapsed n)
    (n_election_timeout n) (n_rng n).
Definition set_last_applied (v : N) (n : Node S) : Node S :=
  mkNode (n_id n) (n_bootstrap n) (n_members n) (n_membership_index n) (n_voters n) (n_peers n)
    (n_replicas n) (n_config n) (n_storage n) (n_role n) (n_leader_id n) (n_commit_index n) v
    (n_votes n) (n_leader_start n) (n_active n) (n_snapshot_progress n) (n_incoming n)
    (n_next_index n) (n_match_index n) (n_seq n) (n_acked n) (n_auto_promote n) (n_remote_reads
    n) (n_forwarded n) (n_next_read n) (n_election_elapsed n) (n_heartbeat_elapsed n)
    (n_election_timeout n) (n_rng n).
Definition set_votes (v : gset NodeId) (n : Node S) : Node S :=
  mkNode (n_id n) (n_bootstrap n) (n_members n) (n_membership_index n) (n_voters n) (n_peers n)
    (n_replicas n) (n_config n) (n_storage n) (n_role n) (n_leader_id n) (n_commit_index n)
    (n_last_applied n) v (n_leader_start n) (n_active n) (n_snapshot_progress n) (n_incoming n)
    (n_next_index n) (n_match_index n) (n_seq n) (n_acked n) (n_auto_promote n) (n_remote_reads
    n) (n_forwarded n) (n_next_read n) (n_election_elapsed n) (n_heartbeat_elapsed n)
    (n_election_timeout n) (n_rng n).
Definition set_leader_start (v : N) (n : Node S) : Node S :=
  mkNode (n_id n) (n_bootstrap n) (n_members n) (n_membership_index n) (n_voters n) (n_peers n)
    (n_replicas n) (n_config n) (n_storage n) (n_role n) (n_leader_id n) (n_commit_index n)
    (n_last_applied n) (n_votes n) v (n_active n) (n_snapshot_progress n) (n_incoming n)
    (n_next_index n) (n_match_index n) (n_seq n) (n_acked n) (n_auto_promote n) (n_remote_reads
    n) (n_forwarded n) (n_next_read n) (n_election_elapsed n) (n_heartbeat_elapsed n)
    (n_election_timeout n) (n_rng n).
Definition set_active (v : gset NodeId) (n : Node S) : Node S :=
  mkNode (n_id n) (n_bootstrap n) (n_members n) (n_membership_index n) (n_voters n) (n_peers n)
    (n_replicas n) (n_config n) (n_storage n) (n_role n) (n_leader_id n) (n_commit_index n)
    (n_last_applied n) (n_votes n) (n_leader_start n) v (n_snapshot_progress n) (n_incoming n)
    (n_next_index n) (n_match_index n) (n_seq n) (n_acked n) (n_auto_promote n) (n_remote_reads
    n) (n_forwarded n) (n_next_read n) (n_election_elapsed n) (n_heartbeat_elapsed n)
    (n_election_timeout n) (n_rng n).
Definition set_snapshot_progress (v : gmap NodeId (N * N)) (n : Node S) : Node S :=
  mkNode (n_id n) (n_bootstrap n) (n_members n) (n_membership_index n) (n_voters n) (n_peers n)
    (n_replicas n) (n_config n) (n_storage n) (n_role n) (n_leader_id n) (n_commit_index n)
    (n_last_applied n) (n_votes n) (n_leader_start n) (n_active n) v (n_incoming n)
    (n_next_index n) (n_match_index n) (n_seq n) (n_acked n) (n_auto_promote n) (n_remote_reads
    n) (n_forwarded n) (n_next_read n) (n_election_elapsed n) (n_heartbeat_elapsed n)
    (n_election_timeout n) (n_rng n).
Definition set_incoming (v : option (NodeId * Sink)) (n : Node S) : Node S :=
  mkNode (n_id n) (n_bootstrap n) (n_members n) (n_membership_index n) (n_voters n) (n_peers n)
    (n_replicas n) (n_config n) (n_storage n) (n_role n) (n_leader_id n) (n_commit_index n)
    (n_last_applied n) (n_votes n) (n_leader_start n) (n_active n) (n_snapshot_progress n) v
    (n_next_index n) (n_match_index n) (n_seq n) (n_acked n) (n_auto_promote n) (n_remote_reads
    n) (n_forwarded n) (n_next_read n) (n_election_elapsed n) (n_heartbeat_elapsed n)
    (n_election_timeout n) (n_rng n).
Definition set_next_index (v : gmap NodeId N) (n : Node S) : Node S :=
  mkNode (n_id n) (n_bootstrap n) (n_members n) (n_membership_index n) (n_voters n) (n_peers n)
    (n_replicas n) (n_config n) (n_storage n) (n_role n) (n_leader_id n) (n_commit_index n)
    (n_last_applied n) (n_votes n) (n_leader_start n) (n_active n) (n_snapshot_progress n)
    (n_incoming n) v (n_match_index n) (n_seq n) (n_acked n) (n_auto_promote n) (n_remote_reads
    n) (n_forwarded n) (n_next_read n) (n_election_elapsed n) (n_heartbeat_elapsed n)
    (n_election_timeout n) (n_rng n).
Definition set_match_index (v : gmap NodeId N) (n : Node S) : Node S :=
  mkNode (n_id n) (n_bootstrap n) (n_members n) (n_membership_index n) (n_voters n) (n_peers n)
    (n_replicas n) (n_config n) (n_storage n) (n_role n) (n_leader_id n) (n_commit_index n)
    (n_last_applied n) (n_votes n) (n_leader_start n) (n_active n) (n_snapshot_progress n)
    (n_incoming n) (n_next_index n) v (n_seq n) (n_acked n) (n_auto_promote n) (n_remote_reads
    n) (n_forwarded n) (n_next_read n) (n_election_elapsed n) (n_heartbeat_elapsed n)
    (n_election_timeout n) (n_rng n).
Definition set_seq (v : N) (n : Node S) : Node S :=
  mkNode (n_id n) (n_bootstrap n) (n_members n) (n_membership_index n) (n_voters n) (n_peers n)
    (n_replicas n) (n_config n) (n_storage n) (n_role n) (n_leader_id n) (n_commit_index n)
    (n_last_applied n) (n_votes n) (n_leader_start n) (n_active n) (n_snapshot_progress n)
    (n_incoming n) (n_next_index n) (n_match_index n) v (n_acked n) (n_auto_promote n)
    (n_remote_reads n) (n_forwarded n) (n_next_read n) (n_election_elapsed n)
    (n_heartbeat_elapsed n) (n_election_timeout n) (n_rng n).
Definition set_acked (v : gmap NodeId N) (n : Node S) : Node S :=
  mkNode (n_id n) (n_bootstrap n) (n_members n) (n_membership_index n) (n_voters n) (n_peers n)
    (n_replicas n) (n_config n) (n_storage n) (n_role n) (n_leader_id n) (n_commit_index n)
    (n_last_applied n) (n_votes n) (n_leader_start n) (n_active n) (n_snapshot_progress n)
    (n_incoming n) (n_next_index n) (n_match_index n) (n_seq n) v (n_auto_promote n)
    (n_remote_reads n) (n_forwarded n) (n_next_read n) (n_election_elapsed n)
    (n_heartbeat_elapsed n) (n_election_timeout n) (n_rng n).
Definition set_auto_promote (v : bool) (n : Node S) : Node S :=
  mkNode (n_id n) (n_bootstrap n) (n_members n) (n_membership_index n) (n_voters n) (n_peers n)
    (n_replicas n) (n_config n) (n_storage n) (n_role n) (n_leader_id n) (n_commit_index n)
    (n_last_applied n) (n_votes n) (n_leader_start n) (n_active n) (n_snapshot_progress n)
    (n_incoming n) (n_next_index n) (n_match_index n) (n_seq n) (n_acked n) v (n_remote_reads n)
    (n_forwarded n) (n_next_read n) (n_election_elapsed n) (n_heartbeat_elapsed n)
    (n_election_timeout n) (n_rng n).
Definition set_remote_reads (v : list RemoteRead) (n : Node S) : Node S :=
  mkNode (n_id n) (n_bootstrap n) (n_members n) (n_membership_index n) (n_voters n) (n_peers n)
    (n_replicas n) (n_config n) (n_storage n) (n_role n) (n_leader_id n) (n_commit_index n)
    (n_last_applied n) (n_votes n) (n_leader_start n) (n_active n) (n_snapshot_progress n)
    (n_incoming n) (n_next_index n) (n_match_index n) (n_seq n) (n_acked n) (n_auto_promote n) v
    (n_forwarded n) (n_next_read n) (n_election_elapsed n) (n_heartbeat_elapsed n)
    (n_election_timeout n) (n_rng n).
Definition set_forwarded (v : gmap N Answer) (n : Node S) : Node S :=
  mkNode (n_id n) (n_bootstrap n) (n_members n) (n_membership_index n) (n_voters n) (n_peers n)
    (n_replicas n) (n_config n) (n_storage n) (n_role n) (n_leader_id n) (n_commit_index n)
    (n_last_applied n) (n_votes n) (n_leader_start n) (n_active n) (n_snapshot_progress n)
    (n_incoming n) (n_next_index n) (n_match_index n) (n_seq n) (n_acked n) (n_auto_promote n)
    (n_remote_reads n) v (n_next_read n) (n_election_elapsed n) (n_heartbeat_elapsed n)
    (n_election_timeout n) (n_rng n).
Definition set_next_read (v : N) (n : Node S) : Node S :=
  mkNode (n_id n) (n_bootstrap n) (n_members n) (n_membership_index n) (n_voters n) (n_peers n)
    (n_replicas n) (n_config n) (n_storage n) (n_role n) (n_leader_id n) (n_commit_index n)
    (n_last_applied n) (n_votes n) (n_leader_start n) (n_active n) (n_snapshot_progress n)
    (n_incoming n) (n_next_index n) (n_match_index n) (n_seq n) (n_acked n) (n_auto_promote n)
    (n_remote_reads n) (n_forwarded n) v (n_election_elapsed n) (n_heartbeat_elapsed n)
    (n_election_timeout n) (n_rng n).
Definition set_election_elapsed (v : N) (n : Node S) : Node S :=
  mkNode (n_id n) (n_bootstrap n) (n_members n) (n_membership_index n) (n_voters n) (n_peers n)
    (n_replicas n) (n_config n) (n_storage n) (n_role n) (n_leader_id n) (n_commit_index n)
    (n_last_applied n) (n_votes n) (n_leader_start n) (n_active n) (n_snapshot_progress n)
    (n_incoming n) (n_next_index n) (n_match_index n) (n_seq n) (n_acked n) (n_auto_promote n)
    (n_remote_reads n) (n_forwarded n) (n_next_read n) v (n_heartbeat_elapsed n)
    (n_election_timeout n) (n_rng n).
Definition set_heartbeat_elapsed (v : N) (n : Node S) : Node S :=
  mkNode (n_id n) (n_bootstrap n) (n_members n) (n_membership_index n) (n_voters n) (n_peers n)
    (n_replicas n) (n_config n) (n_storage n) (n_role n) (n_leader_id n) (n_commit_index n)
    (n_last_applied n) (n_votes n) (n_leader_start n) (n_active n) (n_snapshot_progress n)
    (n_incoming n) (n_next_index n) (n_match_index n) (n_seq n) (n_acked n) (n_auto_promote n)
    (n_remote_reads n) (n_forwarded n) (n_next_read n) (n_election_elapsed n) v
    (n_election_timeout n) (n_rng n).
Definition set_election_timeout (v : N) (n : Node S) : Node S :=
  mkNode (n_id n) (n_bootstrap n) (n_members n) (n_membership_index n) (n_voters n) (n_peers n)
    (n_replicas n) (n_config n) (n_storage n) (n_role n) (n_leader_id n) (n_commit_index n)
    (n_last_applied n) (n_votes n) (n_leader_start n) (n_active n) (n_snapshot_progress n)
    (n_incoming n) (n_next_index n) (n_match_index n) (n_seq n) (n_acked n) (n_auto_promote n)
    (n_remote_reads n) (n_forwarded n) (n_next_read n) (n_election_elapsed n)
    (n_heartbeat_elapsed n) v (n_rng n).
Definition set_rng (v : N) (n : Node S) : Node S :=
  mkNode (n_id n) (n_bootstrap n) (n_members n) (n_membership_index n) (n_voters n) (n_peers n)
    (n_replicas n) (n_config n) (n_storage n) (n_role n) (n_leader_id n) (n_commit_index n)
    (n_last_applied n) (n_votes n) (n_leader_start n) (n_active n) (n_snapshot_progress n)
    (n_incoming n) (n_next_index n) (n_match_index n) (n_seq n) (n_acked n) (n_auto_promote n)
    (n_remote_reads n) (n_forwarded n) (n_next_read n) (n_election_elapsed n)
    (n_heartbeat_elapsed n) (n_election_timeout n) v.
End setters.

