(* ===== verification/Node.v ===== *)
(** * The consensus state machine (src/raft/node.rs)

    Every operation of [Node]: time ([node_tick]), messages ([node_step]),
    proposals, reads, snapshots, and the private handlers they are made of, over
    any [Storage]. A handler runs in [Handler], the state and error monad over the node
    and the actions pushed so far ([&mut self] and [&mut Vec<Action>]); what it
    changed before an error stays changed. Indices, terms and tick counts are
    [u64] in the source; the model does not wrap them. *)

From S2P Require Import Prelude.
From S2P Require Import RaftLog.
From S2P Require Import Message.
From S2P Require Import NodeState.

#[local] Open Scope N_scope.

Section Node.
Context {S : Type} `{Storage S}.

(** ** The handler monad *)

Definition HState : Type := Node S * list Action.
Definition Handler (A : Type) : Type := M HState A.

Definition getn {A} (f : Node S → A) : Handler A := mgets (λ s, f s.1).
Definition modn (f : Node S → Node S) : Handler unit := mmodify (λ s, (f s.1, s.2)).
Definition emit (a : Action) : Handler unit := mmodify (λ s, (s.1, s.2 ++ [a])).

(** Run a storage operation on the node's storage. *)
Definition on_storage {A} (m : M S A) : Handler A := λ s,
  let '(r, st) := m (n_storage s.1) in (r, (set_storage st s.1, s.2)).

(** Keep an error as a value instead of returning early with it. *)
Definition mtry {A} (m : Handler A) : Handler (result A) := λ s, let '(r, s') := m s in (Ok r, s').

(** A method's result as its caller sees it: the actions are returned with
    success and dropped with an error. *)
Definition run_actions (m : Handler unit) (n : Node S) : result (list Action) * Node S :=
  match m (n, []) with
  | (Ok _, (n', actions)) => (Ok actions, n')
  | (Err e, (n', _)) => (Err e, n')
  end.

(** ** Accessors *)

Definition node_term (n : Node S) : N := hs_term (hard_state (n_storage n)).
Definition is_voter (n : Node S) : bool := bool_decide (n_id n ∈ n_voters n).
Definition is_member (n : Node S) : bool := existsb (λ m, m_id m =? n_id n) (n_members n).
Definition is_leader (n : Node S) : bool := bool_decide (n_role n = Leader).
Definition node_last_index (n : Node S) : N := last_index (n_storage n).

Definition ready_to_serve (n : Node S) : bool :=
  bool_decide (n_role n = Leader) && (n_leader_start n <=? n_commit_index n).

Definition quorum (n : Node S) : N := blen (n_voters n) / 2 + 1.

(** Whether [ids] include a majority of the voters. *)
Definition has_quorum (n : Node S) (ids : gset NodeId) : bool :=
  let counted := blen (filter (λ v, v ∈ ids) (n_voters n)) in
  negb (bool_decide (n_voters n = [])) && (quorum n <=? counted).

Definition reset_election_timer (n : Node S) : Node S :=
  let '(timeout, rng) := random_timeout (n_rng n) (n_config n) in
  set_election_timeout timeout (set_rng rng (set_election_elapsed 0 n)).

(** ** Membership *)

(** The newest membership among the entries at the given indices, with the
    index that set it, starting from the one in force before them. *)
Definition scan_config (st : S) (idxs : list N) (start : list Member * N) : list Member * N :=
  foldl (λ acc i,
    match entry st i with
    | Some (mkEntry _ _ (Config m)) => (m, i)
    | _ => acc
    end) start idxs.

Definition members_at (n : Node S) (index : N) : list Member :=
  let st := n_storage n in
  (scan_config st (range_incl (first_index st) (N.min index (last_index st)))
    (default (n_bootstrap n) (snapshot_members st), 0)).1.

(** [Vec::dedup]: runs of equal neighbours become one. *)
Fixpoint dedup (l : list N) : list N :=
  match l with
  | x :: ((y :: _) as r) => if x =? y then dedup r else x :: dedup r
  | _ => l
  end.

Definition sort_dedup (l : list N) : list N := dedup (merge_sort N.le l).

Definition config_voters (members : list Member) : list NodeId :=
  sort_dedup (m_id <$> filter (λ m, m_learner m = false) members).

(** [entry(k).or_insert(v)]. *)
Definition or_insert (k v : N) (m : gmap N N) : gmap N N :=
  match m !! k with Some _ => m | None => <[k := v]> m end.

Definition reload_membership (n : Node S) : Node S :=
  let st := n_storage n in
  let start := match snapshot_members st with
               | Some members => (members, sm_index (snapshot_meta st))
               | None => (n_bootstrap n, 0)
               end in
  let '(members, at_) := scan_config st (range_incl (first_index st) (last_index st)) start in
  let voters := config_voters members in
  let replicas := filter (λ i, i ≠ n_id n) (m_id <$> members) in
  let replicas :=
    if n_commit_index n <? at_ then
      foldl (λ reps m,
        if negb (m_id m =? n_id n) && negb (bool_decide (m_id m ∈ reps)) then reps ++ [m_id m] else reps)
        replicas (members_at n (at_ - 1))
    else replicas in
  let replicas := sort_dedup replicas in
  let peers := filter (λ v, v ≠ n_id n) voters in
  let n := set_membership_index at_ (set_members members (set_replicas replicas
             (set_voters voters (set_peers peers n)))) in
  if bool_decide (n_role n = Leader) then
    let next := last_index st + 1 in
    let next_index := foldl (λ m p, or_insert p next m) (n_next_index n) replicas in
    let match_index := foldl (λ m p, or_insert p 0 m) (n_match_index n) replicas in
    set_snapshot_progress (filter (λ kv, kv.1 ∈ replicas) (n_snapshot_progress n))
      (set_match_index (filter (λ kv, kv.1 ∈ replicas) match_index)
        (set_next_index (filter (λ kv, kv.1 ∈ replicas) next_index) n))
  else n.

(** ** Construction *)

Definition with_members (id : NodeId) (bootstrap : list Member) (config : NodeConfig) (storage : S)
    : Node S :=
  let snapshot := sm_index (snapshot_meta storage) in
  let '(timeout, rng) := random_timeout (Rng_new id) config in
  reload_membership
    (mkNode id bootstrap [] 0 [] [] [] config storage Follower None snapshot snapshot ∅ 0 ∅ ∅ None
      ∅ ∅ 0 ∅ true [] ∅ 0 0 0 timeout rng).

Definition node_new (id : NodeId) (peers : list NodeId) (config : NodeConfig) (storage : S) : Node S :=
  with_members id ((λ p, mkMember p [] false) <$> peers) config storage.

(** ** Commitment *)

(** The highest index a majority of the voters holds: the median of their
    progress, this node's own log counting only if it is one of them. *)
Definition majority_index (n : Node S) : N :=
  let indices := (λ v, if v =? n_id n then last_index (n_storage n)
                       else default 0 (n_match_index n !! v)) <$> n_voters n in
  default 0 (merge_sort N.ge indices !! N.to_nat (quorum n - 1)).

Definition maybe_commit (n : Node S) : Node S :=
  if bool_decide (n_voters n = []) then n
  else
    let majority := majority_index n in
    if (n_commit_index n <? majority) &&
       bool_decide (term_at (n_storage n) majority = Some (node_term n))
    then set_commit_index majority n
    else n.

(** ** Replication: what a leader sends *)

Definition append_message_for (n : Node S) (peer : NodeId) : result Action :=
  let next := default (last_index (n_storage n) + 1) (n_next_index n !! peer) in
  let snapshot := snapshot_meta (n_storage n) in
  if next <=? sm_index snapshot then
    let offset := match n_snapshot_progress n !! peer with
                  | Some (index, offset) => if index =? sm_index snapshot then offset else 0
                  | None => 0
                  end in
    data ← read_snapshot (n_storage n) offset (N.max (max_append_bytes (n_config n)) 1);
    let fin := snapshot_len (n_storage n) <=? offset + blen data in
    Ok (Send peer (InstallSnapshot (node_term n) (sm_index snapshot) (sm_term snapshot) offset data
      fin (n_seq n) (snapshot_members (n_storage n))))
  else
    let prev_log_index := next - 1 in
    Ok (Send peer (AppendEntries (node_term n) prev_log_index
      (default 0 (term_at (n_storage n) prev_log_index))
      (entries_within (n_storage n) next (max_append_bytes (n_config n)))
      (n_commit_index n) (n_seq n))).

Definition send_append (peer : NodeId) : Handler unit :=
  n ← getn id; a ← mlift (append_message_for n peer); emit a.

Definition broadcast_append : Handler unit :=
  n ← getn id;
  let departing := existsb (λ r, negb (existsb (λ m, m_id m =? r) (n_members n))) (n_replicas n) in
  mwhen (departing && (n_membership_index n <=? n_commit_index n)) (modn reload_membership) ;;
  replicas ← getn n_replicas;
  miter send_append replicas.

Definition append_local (command : Command) : Handler N :=
  n ← getn id;
  let index := last_index (n_storage n) + 1 in
  on_storage (append [mkEntry (node_term n) index command]) ;;
  mwhen (match command with Config _ => true | _ => false end) (modn reload_membership) ;;
  modn maybe_commit ;;
  mret index.

(** ** Elections *)

Definition become_follower (term : N) (leader : option NodeId) : Handler unit :=
  n ← getn id;
  let previous := hard_state (n_storage n) in
  modn (λ n, set_remote_reads [] (set_active ∅ (set_votes ∅
    (set_leader_id leader (set_role Follower n))))) ;;
  mwhen (negb (term =? hs_term previous))
    (on_storage (save_hard_state (mkHardState term None))) ;;
  modn reset_election_timer.

Definition become_leader : Handler unit :=
  modn (λ n, set_remote_reads [] (set_acked ∅ (set_snapshot_progress ∅ (set_active ∅
    (set_election_elapsed 0 (set_heartbeat_elapsed 0
      (set_leader_id (Some (n_id n)) (set_role Leader n)))))))) ;;
  modn (λ n,
    let next := last_index (n_storage n) + 1 in
    set_match_index (foldl (λ m p, <[p := 0]> m) ∅ (n_replicas n))
      (set_next_index (foldl (λ m p, <[p := next]> m) ∅ (n_replicas n)) n)) ;;
  start ← append_local Noop;
  modn (set_leader_start start) ;;
  broadcast_append.

Definition send_to_peers (message : Message) : Handler unit :=
  peers ← getn n_peers; miter (λ peer, emit (Send peer message)) peers.

Definition become_candidate : Handler unit :=
  n ← getn id;
  let term := node_term n + 1 in
  modn (λ n, set_remote_reads [] (set_leader_id None (set_role Candidate n))) ;;
  on_storage (save_hard_state (mkHardState term (Some (n_id n)))) ;;
  modn (λ n, reset_election_timer (set_votes {[n_id n]} n)) ;;
  n ← getn id;
  if has_quorum n (n_votes n) then become_leader
  else send_to_peers
    (RequestVote term (last_index (n_storage n)) (last_term (n_storage n))).

Definition become_pre_candidate : Handler unit :=
  modn (λ n, reset_election_timer (set_votes {[n_id n]} (set_remote_reads []
    (set_leader_id None (set_role PreCandidate n))))) ;;
  n ← getn id;
  if has_quorum n (n_votes n) then become_candidate
  else send_to_peers
    (PreVote (node_term n + 1) (last_index (n_storage n)) (last_term (n_storage n))).

Definition handle_pre_vote (from : NodeId) (proposed_term last_log_index last_log_term : N) : Handler unit :=
  n ← getn id;
  let worth_running := node_term n <? proposed_term in
  let granted := worth_running && is_up_to_date (n_storage n) last_log_index last_log_term in
  emit (Send from (PreVoteReply (if granted then proposed_term else node_term n) granted)).

Definition handle_pre_vote_reply (from : NodeId) (term : N) (granted : bool) : Handler unit :=
  n ← getn id;
  if granted then
    if bool_decide (n_role n = PreCandidate) && (term =? node_term n + 1) then
      modn (λ n, set_votes ({[from]} ∪ n_votes n) n) ;;
      n ← getn id;
      mwhen (has_quorum n (n_votes n)) become_candidate
    else mret tt
  else mwhen (node_term n <? term) (become_follower term None).

Definition handle_request_vote (from : NodeId) (last_log_index last_log_term : N) : Handler unit :=
  n ← getn id;
  let state := hard_state (n_storage n) in
  let free_to_vote := match hs_voted_for state with None => true | Some v => v =? from end in
  let granted := free_to_vote && is_up_to_date (n_storage n) last_log_index last_log_term in
  mwhen granted
    (on_storage (save_hard_state (mkHardState (hs_term state) (Some from))) ;;
     modn reset_election_timer) ;;
  n ← getn id;
  emit (Send from (RequestVoteReply (node_term n) granted)).

Definition handle_vote_reply (from : NodeId) (term : N) (granted : bool) : Handler unit :=
  n ← getn id;
  if negb (bool_decide (n_role n = Candidate)) || negb (term =? node_term n) then mret tt
  else if granted then
    modn (λ n, set_votes ({[from]} ∪ n_votes n) n) ;;
    n ← getn id;
    mwhen (has_quorum n (n_votes n)) become_leader
  else mret tt.

(** ** Replication: what a follower does *)

(** The loop that finds where the leader's entries stop matching the log:
    how many already match, and whether a conflict was cut off. *)
Fixpoint scan_conflict (index : N) (entries : list Entry) (append_from : nat) : Handler (nat * bool) :=
  match entries with
  | [] => mret (append_from, false)
  | e :: entries =>
      n ← getn id;
      match term_at (n_storage n) index with
      | Some t =>
          if t =? e_term e then scan_conflict (index + 1) entries (Datatypes.S append_from)
          else on_storage (truncate_from index) ;; mret (append_from, true)
      | None => mret (append_from, false)
      end
  end.

Definition is_config (e : Entry) : bool := match e_command e with Config _ => true | _ => false end.

(** From the consistency check on: the logs are compared at [prev_log_index],
    and the leader's entries take over from there. *)
Definition append_after (from : NodeId) (prev_log_index prev_log_term : N) (entries : list Entry)
    (leader_commit seq : N) : Handler unit :=
  n ← getn id;
  let term := node_term n in
  let local_term := term_at (n_storage n) prev_log_index in
  if negb (bool_decide (local_term = Some prev_log_term)) then
    let '(conflict_index, conflict_term) :=
      match local_term with
      | None => (last_index (n_storage n) + 1, None)
      | Some t => (first_index_of_term (n_storage n) t, Some t)
      end in
    emit (Send from (AppendEntriesReply term false 0 conflict_index conflict_term seq))
  else
    '(append_from, truncated) ← scan_conflict (prev_log_index + 1) entries 0;
    let new := drop append_from entries in
    mwhen (negb (bool_decide (new = []))) (on_storage (append new)) ;;
    mwhen (truncated || existsb is_config new) (modn reload_membership) ;;
    let last_covered := prev_log_index + blen entries in
    modn (λ n, if n_commit_index n <? leader_commit
               then set_commit_index (N.min leader_commit last_covered) n else n) ;;
    emit (Send from (AppendEntriesReply term true last_covered 0 None seq)).

Definition handle_append_entries (from : NodeId) (prev_log_index prev_log_term : N)
    (entries : list Entry) (leader_commit seq : N) : Handler unit :=
  modn (λ n, reset_election_timer (set_leader_id (Some from) (set_role Follower n))) ;;
  n ← getn id;
  let term := node_term n in
  let snapshot := snapshot_meta (n_storage n) in
  if prev_log_index <? sm_index snapshot then
    let skip := sm_index snapshot - prev_log_index in
    if blen entries <=? skip then
      emit (Send from (AppendEntriesReply term true (sm_index snapshot) 0 None seq))
    else append_after from (sm_index snapshot) (sm_term snapshot) (drop (N.to_nat skip) entries)
           leader_commit seq
  else append_after from prev_log_index prev_log_term entries leader_commit seq.

(** ** Reads *)

Definition open_read_round : Handler (N * N) :=
  modn (λ n, set_seq (n_seq n + 1) n) ;;
  n ← getn id;
  let index := N.max (n_commit_index n) (n_leader_start n) in
  let snapshot := sm_index (snapshot_meta (n_storage n)) in
  miter (λ peer,
    let next := default (last_index (n_storage n) + 1) (n_next_index n !! peer) in
    if next <=? snapshot then mret tt
    else
      let prev_log_index := next - 1 in
      emit (Send peer (AppendEntries (node_term n) prev_log_index
        (default 0 (term_at (n_storage n) prev_log_index)) [] (n_commit_index n) (n_seq n))))
    (n_replicas n) ;;
  mret (n_seq n, index).

(** Whether a majority of the voters, counting this node, has answered [seq]. *)
Definition round_confirmed (n : Node S) (seq : N) : bool :=
  let answered := filter (λ p, match n_acked n !! p with Some a => seq <=? a | None => false end = true)
                    (n_peers n) in
  has_quorum n ({[n_id n]} ∪ list_to_set answered).

Definition handle_read_index (from : NodeId) (id_ : N) : Handler unit :=
  n ← getn id;
  if negb (bool_decide (n_role n = Leader)) then
    emit (Send from (ReadIndexReply (node_term n) id_ None))
  else
    '(seq, index) ← open_read_round;
    modn (λ n, set_remote_reads (n_remote_reads n ++ [mkRemoteRead from id_ seq index]) n).

Definition release_reads : Handler unit :=
  n ← getn id;
  if bool_decide (length (n_remote_reads n) = 0%nat) then mret tt
  else
    let term := node_term n in
    modn (set_remote_reads []) ;;
    miter (λ read,
      n ← getn id;
      if round_confirmed n (rr_seq read) then
        emit (Send (rr_from read) (ReadIndexReply term (rr_id read) (Some (rr_index read))))
      else modn (λ n, set_remote_reads (n_remote_reads n ++ [read]) n)) (n_remote_reads n).

(** ** Replication: what a leader hears back *)

Definition heard_round (from : NodeId) (term seq : N) : Handler bool :=
  n ← getn id;
  if negb (bool_decide (n_role n = Leader)) || negb (term =? node_term n) then mret false
  else
    modn (λ n, set_acked (or_insert from 0 (n_acked n)) (set_active ({[from]} ∪ n_active n) n)) ;;
    n ← getn id;
    let acked := default 0 (n_acked n !! from) in
    mwhen (acked <? seq) (modn (λ n, set_acked (<[from := seq]> (n_acked n)) n) ;; release_reads) ;;
    mret true.

Definition handle_append_reply (from : NodeId) (success : bool) (match_index conflict_index : N)
    (conflict_term : option N) : Handler unit :=
  n ← getn id;
  if success then
    let current := default 0 (n_match_index n !! from) in
    if current <? match_index then
      modn (λ n, maybe_commit (set_next_index (<[from := match_index + 1]> (n_next_index n))
        (set_match_index (<[from := match_index]> (n_match_index n)) n))) ;;
      n ← getn id;
      mwhen (match_index <? last_index (n_storage n)) (send_append from)
    else mret tt
  else
    let next := match conflict_term with
                | Some t => match last_index_of_term (n_storage n) t with
                            | Some i => i + 1
                            | None => conflict_index
                            end
                | None => conflict_index
                end in
    modn (λ n, set_next_index (<[from := N.max next 1]> (n_next_index n)) n) ;;
    send_append from.

(** ** Snapshots *)

Definition handle_install_snapshot (from : NodeId) (meta : SnapshotMeta) (offset : N) (data : bytes)
    (fin : bool) (seq : N) (members : option (list Member)) : Handler unit :=
  modn (λ n, reset_election_timer (set_leader_id (Some from) (set_role Follower n))) ;;
  n ← getn id;
  let term := node_term n in
  let reply next_offset fin := Send from (InstallSnapshotReply term (sm_index meta) next_offset fin seq) in
  if sm_index meta <=? n_commit_index n then
    modn (set_incoming None) ;; emit (reply 0 true)
  else
    let continuing := match n_incoming n with
                      | Some (sender, sink) => (sender =? from) && bool_decide (sink_meta sink = meta)
                      | None => false
                      end in
    if negb continuing && negb (offset =? 0) then emit (reply 0 false)
    else
      mwhen (negb continuing)
        (sink ← on_storage (new_snapshot meta members);
         modn (set_incoming (Some (from, sink)))) ;;
      n ← getn id;
      match n_incoming n with
      | None => mret tt
      | Some (sender, sink) =>
          let held := sink_written sink in
          if negb (offset =? held) then emit (reply held false)
          else
            let '(r, sink) := sink_write_all data sink in
            modn (set_incoming (Some (sender, sink))) ;;
            mlift r ;;
            let held := sink_written sink in
            if negb fin then emit (reply held false)
            else
              modn (set_incoming None) ;;
              on_storage (install_snapshot sink) ;;
              modn reload_membership ;;
              modn (λ n, set_last_applied (N.max (n_last_applied n) (sm_index meta))
                (set_commit_index (N.max (n_commit_index n) (sm_index meta)) n)) ;;
              emit (reply held true)
      end.

Definition handle_snapshot_reply (from : NodeId) (last_index_ next_offset : N) (fin : bool) : Handler unit :=
  n ← getn id;
  let current := sm_index (snapshot_meta (n_storage n)) in
  if fin then
    modn (λ n, set_snapshot_progress (delete from (n_snapshot_progress n)) n) ;;
    let matched := default 0 (n_match_index n !! from) in
    mwhen (matched <? last_index_)
      (modn (λ n, maybe_commit (set_next_index (<[from := last_index_ + 1]> (n_next_index n))
        (set_match_index (<[from := last_index_]> (n_match_index n)) n)))) ;;
    n ← getn id;
    mwhen (default 0 (n_next_index n !! from) <=? last_index (n_storage n)) (send_append from)
  else
    let offset := if last_index_ =? current then next_offset else 0 in
    modn (λ n, set_snapshot_progress (<[from := (current, offset)]> (n_snapshot_progress n)) n) ;;
    send_append from.

(** ** Proposals *)

(** The body of [propose_membership] once its checks have passed, and of
    [propose]: append, then offer it to everyone. *)
Definition append_and_broadcast (command : Command) : Handler (N + ProposeError) :=
  r ← mtry (append_local command);
  match r with
  | Err e => mret (inr (StorageError e))
  | Ok index =>
      r ← mtry broadcast_append;
      match r with
      | Err e => mret (inr (StorageError e))
      | Ok _ => mret (inl index)
      end
  end.

Definition propose_h (command : bytes) : Handler (N + ProposeError) :=
  n ← getn id;
  if negb (bool_decide (n_role n = Leader)) then mret (inr (NotLeader (n_leader_id n)))
  else
    let len := blen command + ENTRY_OVERHEAD in
    if max_entry_bytes (n_config n) <? len then
      mret (inr (TooLarge len (max_entry_bytes (n_config n))))
    else append_and_broadcast (Data command).

(** Why [propose_membership] refuses a membership, if it does. *)
Definition membership_refusal (n : Node S) (members : list Member) : option ProposeError :=
  let old : gset NodeId := list_to_set (n_voters n) in
  let new : gset NodeId := list_to_set (m_id <$> filter (λ m, m_learner m = false) members) in
  let ids : gset NodeId := list_to_set (m_id <$> members) in
  if negb (bool_decide (n_role n = Leader)) then Some (NotLeader (n_leader_id n))
  else if negb (ready_to_serve n) then
    Some (MembershipError "this leader has not yet committed an entry of its own term")
  else if n_commit_index n <? n_membership_index n then
    Some (MembershipError "the last membership change has not committed yet")
  else if negb (bool_decide (size ids = length members)) then
    Some (MembershipError "a member is listed twice")
  else if bool_decide (new = ∅) then
    Some (MembershipError "a cluster cannot have no voters")
  else if bool_decide (1 < size ((old ∖ new) ∪ (new ∖ old)))%nat then
    Some (MembershipError "only one member can be added or removed at a time")
  else None.

Definition propose_membership_h (members : list Member) : Handler (N + ProposeError) :=
  n ← getn id;
  match membership_refusal n members with
  | Some e => mret (inr e)
  | None => append_and_broadcast (Config members)
  end.

(** The loop of [propose_batch]: an answer per command, and the entries to append. *)
Fixpoint batch_entries (term next max : N) (commands : list bytes)
    : list Entry * list (N + ProposeError) :=
  match commands with
  | [] => ([], [])
  | command :: commands =>
      let len := blen command + ENTRY_OVERHEAD in
      if max <? len then
        let '(es, answers) := batch_entries term next max commands in
        (es, inr (TooLarge len max) :: answers)
      else
        let '(es, answers) := batch_entries term (next + 1) max commands in
        (mkEntry term next (Data command) :: es, inl next :: answers)
  end.

Definition propose_batch_h (commands : list bytes)
    : Handler (list (N + ProposeError) + ProposeError) :=
  n ← getn id;
  if negb (bool_decide (n_role n = Leader)) then mret (inr (NotLeader (n_leader_id n)))
  else
    let '(entries, answers) := batch_entries (node_term n) (last_index (n_storage n) + 1)
      (max_entry_bytes (n_config n)) commands in
    if bool_decide (entries = []) then mret (inl answers)
    else
      r ← mtry (on_storage (append entries) ;; modn maybe_commit ;; broadcast_append);
      match r with
      | Err e => mret (inr (StorageError e))
      | Ok _ => mret (inl answers)
      end.

(** A proposal as its caller sees it: the actions come with success only. *)
Definition run_propose {A} (m : Handler (A + ProposeError)) (n : Node S)
    : (A * list Action + ProposeError) * Node S :=
  match m (n, []) with
  | (Ok (inl a), (n', actions)) => (inl (a, actions), n')
  | (Ok (inr e), (n', _)) => (inr e, n')
  | (Err e, (n', _)) => (inr (StorageError e), n')
  end.

Definition propose (command : bytes) (n : Node S) : (N * list Action + ProposeError) * Node S :=
  run_propose (propose_h command) n.
Definition propose_membership (members : list Member) (n : Node S) :=
  run_propose (propose_membership_h members) n.
Definition propose_batch (commands : list bytes) (n : Node S) :=
  run_propose (propose_batch_h commands) n.

(** The first learner that holds everything committed, made a voter. *)
Definition promoted (n : Node S) : option (list Member) :=
  match list_find (λ m, m_learner m = true ∧ n_commit_index n ≤ default 0 (n_match_index n !! m_id m))
          (n_members n) with
  | Some (position, m) => Some (<[position := mkMember (m_id m) (m_context m) false]> (n_members n))
  | None => None
  end.

Definition maybe_promote : Handler unit :=
  n ← getn id;
  if negb (n_auto_promote n) || negb (ready_to_serve n) || (n_commit_index n <? n_membership_index n)
  then mret tt
  else
    match promoted n with
    | None => mret tt
    | Some members =>
        r ← propose_membership_h members;
        match r with
        | inr (StorageError e) => mfail e
        | _ => mret tt
        end
    end.

(** ** Time *)

Definition tick_h : Handler unit :=
  n ← getn id;
  match n_role n with
  | Leader =>
      if negb (is_voter n) && (n_membership_index n <=? n_commit_index n) then
        become_follower (node_term n) None
      else
        modn (λ n, set_heartbeat_elapsed (n_heartbeat_elapsed n + 1) n) ;;
        n ← getn id;
        mwhen (heartbeat_ticks (n_config n) <=? n_heartbeat_elapsed n)
          (modn (set_heartbeat_elapsed 0) ;; broadcast_append) ;;
        maybe_promote ;;
        modn (λ n, set_election_elapsed (n_election_elapsed n + 1) n) ;;
        n ← getn id;
        mwhen (n_election_timeout n <=? n_election_elapsed n)
          (let reachable := has_quorum n ({[n_id n]} ∪ n_active n) in
           modn (set_active ∅) ;;
           if negb reachable then become_follower (node_term n) None
           else modn (set_election_elapsed 0))
  | Follower | PreCandidate | Candidate =>
      modn (λ n, set_election_elapsed (n_election_elapsed n + 1) n) ;;
      n ← getn id;
      mwhen (n_election_timeout n <=? n_election_elapsed n)
        (if is_voter n then become_pre_candidate
         else modn (λ n, reset_election_timer (set_role Follower n)))
  end.

Definition node_tick (n : Node S) : result (list Action) * Node S := run_actions tick_h n.

Definition campaign (n : Node S) : result (list Action) * Node S :=
  run_actions (n ← getn id; mwhen (is_voter n) become_candidate) n.

Definition pre_vote (n : Node S) : result (list Action) * Node S :=
  run_actions (n ← getn id; mwhen (is_voter n) become_pre_candidate) n.

(** Run the election timer out without acting on it. *)
Definition expire_election_timer (n : Node S) : Node S := set_election_elapsed (n_election_timeout n) n.

(** ** Messages *)

Definition refuse_vote (n : Node S) (from : NodeId) (m : Message) : Action :=
  Send from (match m with
             | PreVote _ _ _ => PreVoteReply (node_term n) false
             | _ => RequestVoteReply (node_term n) false
             end).

Definition reply_stale (n : Node S) (from : NodeId) (m : Message) : Action :=
  let term := node_term n in
  Send from (match m with
             | PreVote _ _ _ => PreVoteReply term false
             | RequestVote _ _ _ => RequestVoteReply term false
             | InstallSnapshot _ last_index _ _ _ _ _ _ => InstallSnapshotReply term last_index 0 false 0
             | ReadIndex _ id_ => ReadIndexReply term id_ None
             | _ => AppendEntriesReply term false 0 0 None 0
             end).

(** The last [match] of [step], once the terms have been settled. *)
Definition step_current (from : NodeId) (m : Message) : Handler unit :=
  match m with
  | PreVote _ _ _ | PreVoteReply _ _ => mret tt
  | RequestVote _ last_log_index last_log_term => handle_request_vote from last_log_index last_log_term
  | RequestVoteReply term granted => handle_vote_reply from term granted
  | AppendEntries _ prev_log_index prev_log_term entries leader_commit seq =>
      handle_append_entries from prev_log_index prev_log_term entries leader_commit seq
  | AppendEntriesReply term success match_index conflict_index conflict_term seq =>
      heard ← heard_round from term seq;
      mwhen heard (handle_append_reply from success match_index conflict_index conflict_term)
  | InstallSnapshot _ last_index_ last_term_ offset data fin seq members =>
      handle_install_snapshot from (mkMeta last_index_ last_term_) offset data fin seq members
  | InstallSnapshotReply term last_index_ next_offset fin seq =>
      heard ← heard_round from term seq;
      mwhen heard (handle_snapshot_reply from last_index_ next_offset fin)
  | ReadIndex _ id_ => handle_read_index from id_
  | ReadIndexReply _ id_ index =>
      modn (λ n,
        match n_forwarded n !! id_ with
        | Some AWaiting =>
            set_forwarded (<[id_ := match index with Some i => AReady i | None => ARefused end]>
              (n_forwarded n)) n
        | _ => n
        end)
  end.

Definition step_h (from : NodeId) (m : Message) : Handler unit :=
  n ← getn id;
  let term := msg_term m in
  if is_vote_request m && bool_decide (is_Some (n_leader_id n)) &&
     (n_election_elapsed n <? n_election_timeout n)
  then emit (refuse_vote n from m)
  else
    match m with
    | PreVote term last_log_index last_log_term =>
        handle_pre_vote from term last_log_index last_log_term
    | PreVoteReply term granted => handle_pre_vote_reply from term granted
    | _ =>
        if node_term n <? term then become_follower term None ;; step_current from m
        else if (term <? node_term n) && is_request m then emit (reply_stale n from m)
        else step_current from m
    end.

Definition node_step (from : NodeId) (m : Message) (n : Node S) : result (list Action) * Node S :=
  run_actions (step_h from m) n.

(** ** Reads, from the caller's side *)

Definition read_index (n : Node S) : ReadKind * list Action * Node S :=
  if bool_decide (n_role n = Leader) then
    match open_read_round (n, []) with
    | (Ok (seq, index), (n', actions)) => (KLocal (node_term n') seq index, actions, n')
    | (Err _, (n', actions)) => (KRefused, actions, n')
    end
  else
    match n_leader_id n with
    | Some leader =>
        let id_ := n_next_read n + 1 in
        let n' := set_forwarded (<[id_ := AWaiting]> (n_forwarded n)) (set_next_read id_ n) in
        (KForwarded id_ leader, [Send leader (ReadIndex (node_term n) id_)], n')
    | None => (KRefused, [], n)
    end.

Definition read_state (n : Node S) (request : ReadKind) : ReadState :=
  match request with
  | KLocal term seq index =>
      if negb (bool_decide (n_role n = Leader)) || negb (node_term n =? term) then RFailed
      else if round_confirmed n seq then RReady index
      else RPending
  | KForwarded id_ leader =>
      match n_forwarded n !! id_ with
      | Some (AReady index) => RReady index
      | Some AWaiting => if bool_decide (n_leader_id n = Some leader) then RPending else RFailed
      | _ => RFailed
      end
  | KRefused => RFailed
  end.

Definition forget_read (request : ReadKind) (n : Node S) : Node S :=
  match request with
  | KForwarded id_ _ => set_forwarded (delete id_ (n_forwarded n)) n
  | _ => n
  end.

(** ** Log compaction, from the caller's side *)

Definition begin_compaction (index : N) : M (Node S) (option Sink) := λ n,
  if (index <=? sm_index (snapshot_meta (n_storage n))) || (n_last_applied n <? index) then (Ok None, n)
  else
    match term_at (n_storage n) index with
    | None => (Ok None, n)
    | Some term =>
        let '(r, st) := new_snapshot (mkMeta index term) (Some (members_at n index)) (n_storage n) in
        (match r with Ok k => Ok (Some k) | Err e => Err e end, set_storage st n)
    end.

Definition finish_compaction (sink : Sink) : M (Node S) bool := λ n,
  if sm_index (sink_meta sink) <=? sm_index (snapshot_meta (n_storage n)) then (Ok false, n)
  else
    let '(r, st) := install_snapshot sink (n_storage n) in
    (match r with Ok _ => Ok true | Err e => Err e end, set_storage st n).

Definition node_compact (index : N) (data : bytes) : M (Node S) bool :=
  sink ← begin_compaction index;
  match sink with
  | None => mret false
  | Some sink =>
      let '(r, sink) := sink_write_all data sink in
      mlift r ;; finish_compaction sink
  end.

(** ** Handing over committed entries *)

(** The loop visits [last_applied + 1 ..= commit_index]. *)
Definition take_committed (n : Node S) : list Entry * Node S :=
  if n_last_applied n <? n_commit_index n then
    (omap (entry (n_storage n)) (range_incl (n_last_applied n + 1) (n_commit_index n)),
     set_last_applied (n_commit_index n) n)
  else ([], n).
End Node.

Arguments HState : clear implicits.
Arguments HState _ {_}.
Arguments Handler : clear implicits.
Arguments Handler _ {_} _.
