(* ===== verification/NodeFrame.v ===== *)
(** * What the replication side of a node leaves alone

    Every handler that is not about elections keeps the node's term and vote,
    the votes it has gathered, and its role, except to become a follower; and it
    never grants a vote. Proved once per handler, for any storage that keeps its
    laws, and used by the election and safety theorems. *)

From S2P Require Import Prelude.
From S2P Require Import RaftLog.
From S2P Require Import Message.
From S2P Require Import NodeState.
From S2P Require Import Node.

#[local] Open Scope N_scope.

Definition grants_vote (a : Action) : Prop :=
  match a with Send _ (RequestVoteReply _ true) => True | _ => False end.

Create HintDb frame.

(** ** The sorted, duplicate-free lists the membership code keeps *)

#[export] Instance N_le_total : Total N.le.
Proof. intros x y. lia. Qed.

Lemma elem_of_dedup x l : x ∈ dedup l ↔ x ∈ l.
Proof.
  induction l as [|a l IH]; [done|]. destruct l as [|a' l]; [done|].
  change (dedup (a :: a' :: l)) with (if a =? a' then dedup (a' :: l) else a :: dedup (a' :: l)).
  rewrite !elem_of_cons in *. destruct (N.eqb_spec a a') as [->|]; [|rewrite elem_of_cons];
    rewrite IH; tauto.
Qed.

Lemma dedup_NoDup l : StronglySorted N.le l → NoDup (dedup l).
Proof.
  induction 1 as [|a l Hl IH Ha]; [constructor|]. destruct l as [|a' l]; [apply NoDup_singleton|].
  change (dedup (a :: a' :: l)) with (if a =? a' then dedup (a' :: l) else a :: dedup (a' :: l)).
  destruct (N.eqb_spec a a'); [done|]. constructor; [|done].
  rewrite elem_of_dedup. intros Hin. apply Forall_inv in Ha.
  apply elem_of_cons in Hin as [|Hin]; [done|].
  apply StronglySorted_inv in Hl as [_ Hs]. rewrite list.Forall_forall in Hs. specialize (Hs a Hin). lia.
Qed.

Lemma sort_dedup_NoDup l : NoDup (sort_dedup l).
Proof. apply dedup_NoDup, (StronglySorted_merge_sort N.le). Qed.

Lemma elem_of_sort_dedup x l : x ∈ sort_dedup l ↔ x ∈ l.
Proof. unfold sort_dedup. by rewrite elem_of_dedup, merge_sort_Permutation. Qed.

Lemma config_voters_NoDup ms : NoDup (config_voters ms).
Proof. apply sort_dedup_NoDup. Qed.

Section frame.
Context {S : Type} `{StorageLaws S}.

Definition hs_of (n : Node S) : HardState := hard_state (n_storage n).

(** The identity, the durable election state, the votes gathered and the start-up
    settings are kept. *)
Record same_election (n n' : Node S) : Prop := {
  se_id : n_id n' = n_id n;
  se_config : n_config n' = n_config n;
  se_bootstrap : n_bootstrap n' = n_bootstrap n;
  se_hs : hs_of n' = hs_of n;
  se_votes : n_votes n' = n_votes n;
  se_voters : NoDup (n_voters n) → NoDup (n_voters n');
}.

Definition Frame (s s' : HState S) : Prop :=
  same_election s.1 s'.1 ∧
  (n_role s'.1 = n_role s.1 ∨ n_role s'.1 = Follower) ∧
  ∃ ext, s'.2 = s.2 ++ ext ∧ Forall (λ a, ¬ grants_vote a) ext.

#[export] Instance same_election_preorder : PreOrder same_election.
Proof.
  split; [by intros n|].
  intros n1 n2 n3 [] []. split; [congruence..|auto].
Qed.

#[export] Instance Frame_preorder : PreOrder Frame.
Proof.
  split.
  - intros s. split_and!; [done|by left|]. exists []. by rewrite app_nil_r.
  - intros s1 s2 s3 (H1 & H2 & e1 & E1 & F1) (H3 & H4 & e2 & E2 & F2). split_and!.
    + by etrans.
    + destruct H4 as [->| ->]; auto.
    + exists (e1 ++ e2). rewrite E2, E1, (assoc_L (++)). split; [done|]. by apply Forall_app.
Qed.

(** ** Node updates that keep the frame *)

Definition keeps (f : Node S → Node S) : Prop :=
  ∀ n, same_election n (f n) ∧ (n_role (f n) = n_role n ∨ n_role (f n) = Follower).

Lemma steps_modn f : keeps f → Steps Frame (modn f).
Proof.
  intros Hf [n acts]. unfold modn, mmodify; simpl. destruct (Hf n) as [H1 H2].
  split_and!; [done|done|]. exists []. by rewrite app_nil_r.
Qed.

Lemma steps_emit a : ¬ grants_vote a → Steps Frame (emit a).
Proof.
  intros Ha [n acts]. unfold emit, mmodify. split_and!; simpl; [done|by left|].
  exists [a]. split; [done|]. by constructor.
Qed.

Lemma steps_on_storage {A} (m : M S A) :
  (∀ st, hard_state (m st).2 = hard_state st) → Steps Frame (on_storage m).
Proof.
  intros Hm [n acts]. unfold on_storage. specialize (Hm (n_storage n)).
  simpl. destruct (m (n_storage n)) as [r st]. simpl in *. split_and!; [|by left|].
  - by split.
  - exists []. by rewrite app_nil_r.
Qed.

Lemma steps_mtry {A} (m : Handler S A) : Steps Frame m → Steps Frame (mtry m).
Proof. intros Hm s. specialize (Hm s). unfold mtry. by destruct (m s). Qed.

Lemma steps_getn {A B} (f : Node S → A) (k : A → Handler S B) :
  (∀ a, Steps Frame (k a)) → Steps Frame (getn f ≫= k).
Proof. intros Hk. apply steps_bind; [apply _| |done]. apply steps_gets, _. Qed.

Lemma keeps_id : keeps id.
Proof. intros n. split; [done|by left]. Qed.

Lemma keeps_compose f g : keeps f → keeps g → keeps (λ n, f (g n)).
Proof.
  intros Hf Hg n. destruct (Hg n) as [H1 H2], (Hf (g n)) as [H3 H4].
  split; [by etrans|]. destruct H4 as [->| ->]; auto.
Qed.

Lemma reset_election_timer_keeps : keeps reset_election_timer.
Proof.
  intros n. unfold reset_election_timer. destruct (random_timeout _ _). split; [done|by left].
Qed.

Lemma reload_membership_voters n :
  ∃ members, n_voters (reload_membership n) = config_voters members.
Proof.
  unfold reload_membership. destruct (scan_config _ _ _) as [members at_]. exists members.
  by case_bool_decide.
Qed.

Lemma reload_membership_keeps : keeps reload_membership.
Proof.
  intros n. split.
  - split; try (unfold reload_membership; destruct (scan_config _ _ _); by case_bool_decide).
    destruct (reload_membership_voters n) as [ms ->]. intros _. apply config_voters_NoDup.
  - left. unfold reload_membership. destruct (scan_config _ _ _). by case_bool_decide.
Qed.

Lemma maybe_commit_keeps : keeps maybe_commit.
Proof.
  intros n. unfold maybe_commit. repeat case_match; (split; [done|by left]).
Qed.
End frame.

(** ** Automation *)

(** An update built of field writes and the three functions above. *)
Ltac solve_keeps :=
  lazymatch goal with
  | |- keeps reload_membership => apply reload_membership_keeps
  | |- keeps reset_election_timer => apply reset_election_timer_keeps
  | |- keeps maybe_commit => apply maybe_commit_keeps
  | |- keeps (λ n, reset_election_timer (@?g n)) =>
      apply (keeps_compose reset_election_timer g reset_election_timer_keeps); solve_keeps
  | |- keeps (λ n, maybe_commit (@?g n)) =>
      apply (keeps_compose maybe_commit g maybe_commit_keeps); solve_keeps
  | |- keeps _ =>
      let n := fresh "n" in
      intros n; repeat case_match; (split; [by split|first [by left | by right]])
  end.

Ltac solve_steps :=
  repeat lazymatch goal with
  | |- ∀ _, _ => intros ?
  | |- Steps _ (mret _) => apply steps_ret, _
  | |- Steps _ (mfail _) => apply steps_fail, _
  | |- Steps _ (mlift _) => apply steps_lift, _
  | |- Steps _ (getn _ ≫= _) => apply steps_getn
  | |- Steps _ (mbind _ _) => apply steps_bind; [apply _| |]
  | |- Steps _ (mwhen _ _) => apply steps_when; [apply _|]
  | |- Steps _ (modn _) => apply steps_modn; solve_keeps
  | |- Steps _ (emit _) => apply steps_emit; first [exact id | done | idtac]
  | |- Steps _ (mtry _) => apply steps_mtry
  | |- Steps _ (miter _ _) => apply steps_iter; [apply _|]
  | |- Steps _ (on_storage (append _)) => apply steps_on_storage; intros; apply law_append_hs
  | |- Steps _ (on_storage (truncate_from _)) => apply steps_on_storage; intros; apply law_truncate_hs
  | |- Steps _ (on_storage (new_snapshot _ _)) => apply steps_on_storage; intros; apply law_new_snapshot_hs
  | |- Steps _ (on_storage (install_snapshot _)) => apply steps_on_storage; intros; apply law_install_hs
  | |- Steps _ (match ?x with _ => _ end) => destruct x
  | |- Steps _ (let '(_, _) := ?x in _) => destruct x
  | |- Steps _ _ => solve [eauto with frame]
  end.

Section frame_handlers.
Context {S : Type} `{StorageLaws S}.

Lemma append_message_for_no_grant n peer a : append_message_for n peer = Ok a → ¬ grants_vote a.
Proof.
  unfold append_message_for. case_match; [|intros [= <-]; exact id].
  unfold mbind, result_bind. case_match; [intros [= <-]; exact id|done].
Qed.

Lemma steps_send_append peer : Steps Frame (send_append peer).
Proof.
  unfold send_append. apply steps_getn. intros n s. unfold mbind, M_bind, mlift.
  destruct (append_message_for n peer) as [a|e] eqn:E; [|done].
  by apply steps_emit, (append_message_for_no_grant n peer).
Qed.
#[local] Hint Resolve steps_send_append : frame.

Lemma steps_broadcast_append : Steps Frame broadcast_append.
Proof. unfold broadcast_append. solve_steps. Qed.
#[local] Hint Resolve steps_broadcast_append : frame.

Lemma steps_append_local c : Steps Frame (append_local c).
Proof. unfold append_local. solve_steps. Qed.
#[local] Hint Resolve steps_append_local : frame.

Lemma steps_scan_conflict index es k : Steps Frame (scan_conflict index es k).
Proof.
  revert index k. induction es as [|e es IH]; intros index k; simpl; solve_steps.
Qed.
#[local] Hint Resolve steps_scan_conflict : frame.

Lemma steps_append_after from pi pt es lc sq : Steps Frame (append_after from pi pt es lc sq).
Proof. unfold append_after. solve_steps. Qed.
#[local] Hint Resolve steps_append_after : frame.

Lemma steps_handle_append_entries from pi pt es lc sq :
  Steps Frame (handle_append_entries from pi pt es lc sq).
Proof. unfold handle_append_entries. solve_steps. Qed.

Lemma steps_open_read_round : Steps Frame open_read_round.
Proof. unfold open_read_round. solve_steps. Qed.
#[local] Hint Resolve steps_open_read_round : frame.

Lemma steps_handle_read_index from i : Steps Frame (handle_read_index from i).
Proof. unfold handle_read_index. solve_steps. Qed.

Lemma steps_release_reads : Steps Frame release_reads.
Proof. unfold release_reads. solve_steps. Qed.
#[local] Hint Resolve steps_release_reads : frame.

Lemma steps_heard_round from t sq : Steps Frame (heard_round from t sq).
Proof. unfold heard_round. solve_steps. Qed.

Lemma steps_handle_append_reply from ok mi ci ct : Steps Frame (handle_append_reply from ok mi ci ct).
Proof. unfold handle_append_reply. solve_steps. Qed.

Lemma steps_handle_install_snapshot from meta off data fin sq ms :
  Steps Frame (handle_install_snapshot from meta off data fin sq ms).
Proof. unfold handle_install_snapshot. solve_steps. Qed.

Lemma steps_handle_snapshot_reply from li no fin : Steps Frame (handle_snapshot_reply from li no fin).
Proof. unfold handle_snapshot_reply. solve_steps. Qed.

Lemma steps_append_and_broadcast c : Steps Frame (append_and_broadcast c).
Proof. unfold append_and_broadcast. solve_steps. Qed.
#[local] Hint Resolve steps_append_and_broadcast : frame.

Lemma steps_propose c : Steps Frame (propose_h c).
Proof. unfold propose_h. solve_steps. Qed.

Lemma steps_propose_membership ms : Steps Frame (propose_membership_h ms).
Proof. unfold propose_membership_h. solve_steps. Qed.
#[local] Hint Resolve steps_propose_membership : frame.

Lemma steps_propose_batch cs : Steps Frame (propose_batch_h cs).
Proof. unfold propose_batch_h. solve_steps. Qed.

Lemma steps_maybe_promote : Steps Frame maybe_promote.
Proof. unfold maybe_promote. solve_steps. Qed.
End frame_handlers.

#[export] Hint Resolve steps_send_append steps_broadcast_append steps_append_local steps_scan_conflict steps_append_after steps_handle_append_entries
  steps_open_read_round steps_handle_read_index steps_release_reads steps_heard_round steps_handle_append_reply
  steps_handle_install_snapshot steps_handle_snapshot_reply steps_append_and_broadcast steps_propose steps_propose_membership steps_propose_batch steps_maybe_promote : frame.
