(* ===== verification/Quorum.v ===== *)
(** * Majorities and membership changes (src/raft/node.rs)

    Two majorities of one voter list share a voter, and so do a majority of the
    voters in force and one of any membership [propose_membership] accepts. *)

From S2P Require Import Prelude.
From S2P Require Import RaftLog.
From S2P Require Import Message.
From S2P Require Import NodeState.
From S2P Require Import Node.
From S2P Require Import NodeFrame.

#[local] Open Scope N_scope.

(** [has_quorum] as a function of the voter list. *)
Definition quorum_of (voters : list NodeId) (ids : gset NodeId) : bool :=
  negb (bool_decide (voters = [])) && (blen voters / 2 + 1 <=? blen (filter (λ v, v ∈ ids) voters)).

Lemma has_quorum_of {S} `{Storage S} (n : Node S) ids : has_quorum n ids = quorum_of (n_voters n) ids.
Proof. done. Qed.

Lemma quorum_of_spec voters ids :
  quorum_of voters ids = true ↔
  voters ≠ [] ∧ blen voters / 2 + 1 ≤ blen (filter (λ v, v ∈ ids) voters).
Proof.
  unfold quorum_of. rewrite andb_true_iff, negb_true_iff, bool_decide_eq_false, N.leb_le. done.
Qed.

Lemma quorum_of_mono voters (a c : gset NodeId) :
  a ⊆ c → quorum_of voters a = true → quorum_of voters c = true.
Proof.
  intros Hac. rewrite !quorum_of_spec. intros [Hne Hq]. split; [done|].
  etrans; [done|]. clear Hne Hq. induction voters as [|v vs IH]; [done|].
  rewrite !filter_cons. repeat case_decide; autorewrite with blen; try lia; set_solver.
Qed.

(** The voters a set of ids contains, as a set. *)
Lemma filter_size (voters : list NodeId) (ids : gset NodeId) :
  NoDup voters →
  blen (filter (λ v, v ∈ ids) voters) = N.of_nat (size (list_to_set voters ∩ ids : gset NodeId)).
Proof.
  intros Hnd. unfold blen. f_equal.
  rewrite <-(size_list_to_set (C := gset NodeId) (filter (λ v, v ∈ ids) voters))
    by (by apply list.NoDup_filter).
  f_equal. set_unfold. intros v. rewrite list_elem_of_filter. tauto.
Qed.

(** Voter lists at most one voter apart. *)
Definition adjacent (vs1 vs2 : list NodeId) : Prop :=
  let a : gset NodeId := list_to_set vs1 in
  let c : gset NodeId := list_to_set vs2 in
  (size ((a ∖ c) ∪ (c ∖ a)) ≤ 1)%nat.

Lemma adjacent_refl vs : adjacent vs vs.
Proof.
  unfold adjacent. set (a := list_to_set vs : gset NodeId).
  replace ((a ∖ a) ∪ (a ∖ a)) with (∅ : gset NodeId) by (clearbody a; set_solver).
  rewrite size_empty. lia.
Qed.

(** Majorities of adjacent voter lists meet. *)
Lemma quorums_meet vs1 vs2 (q1 q2 : gset NodeId) :
  NoDup vs1 → NoDup vs2 → adjacent vs1 vs2 →
  quorum_of vs1 q1 = true → quorum_of vs2 q2 = true →
  ∃ v, v ∈ q1 ∧ v ∈ q2 ∧ v ∈ vs1 ∧ v ∈ vs2.
Proof.
  intros Hn1 Hn2 Hadj [_ H1]%quorum_of_spec [_ H2]%quorum_of_spec.
  rewrite filter_size in H1, H2 by done. unfold adjacent in Hadj.
  unfold blen in H1, H2.
  rewrite <-(size_list_to_set (C := gset NodeId) vs1) in H1 by done.
  rewrite <-(size_list_to_set (C := gset NodeId) vs2) in H2 by done.
  set (a := list_to_set vs1 : gset NodeId) in *. set (c := list_to_set vs2 : gset NodeId) in *.
  destruct (decide ((a ∩ q1) ∩ (c ∩ q2) = ∅)) as [Hempty|Hne].
  - exfalso.
    assert (size ((a ∩ q1) ∪ (c ∩ q2)) = (size (a ∩ q1) + size (c ∩ q2))%nat) as Hs.
    { apply size_union. set_solver. }
    assert (size ((a ∩ q1) ∪ (c ∩ q2)) ≤ size (a ∪ c))%nat as Hle.
    { apply subseteq_size. set_solver. }
    assert (size (a ∪ c) = (size (a ∩ c) + size ((a ∖ c) ∪ (c ∖ a)))%nat) as Hu.
    { rewrite <-size_union by set_solver. f_equal. apply set_eq. intros x.
      destruct (decide (x ∈ a)), (decide (x ∈ c)); set_solver. }
    assert (size ((a ∖ c) ∪ (c ∖ a)) = (size (a ∖ c) + size (c ∖ a))%nat) as Hd.
    { apply size_union. set_solver. }
    assert (size a = (size (a ∩ c) + size (a ∖ c))%nat) as Ha.
    { rewrite <-size_union by set_solver. f_equal. apply set_eq. intros x.
      destruct (decide (x ∈ c)); set_solver. }
    assert (size c = (size (a ∩ c) + size (c ∖ a))%nat) as Hc.
    { rewrite <-size_union by set_solver. f_equal. apply set_eq. intros x.
      destruct (decide (x ∈ a)); set_solver. }
    pose proof (N.div_mod' (N.of_nat (size a)) 2). pose proof (N.mod_lt (N.of_nat (size a)) 2).
    pose proof (N.div_mod' (N.of_nat (size c)) 2). pose proof (N.mod_lt (N.of_nat (size c)) 2).
    lia.
  - apply set_choose_L in Hne as [v Hv]. exists v. set_solver.
Qed.

Lemma list_to_set_size_le (l : list NodeId) : (size (list_to_set l : gset NodeId) ≤ length l)%nat.
Proof.
  induction l as [|x l IH]; simpl.
  { done. }
  rewrite size_union_alt, size_singleton.
  assert (size (list_to_set l ∖ {[x]} : gset NodeId) ≤ size (list_to_set l : gset NodeId))%nat; [|lia].
  apply subseteq_size. set_solver.
Qed.

Lemma list_to_set_size_NoDup (l : list NodeId) :
  size (list_to_set l : gset NodeId) = length l → NoDup l.
Proof.
  induction l as [|x l IH]; simpl; [constructor|]. intros Hs.
  pose proof (list_to_set_size_le l). destruct (decide (x ∈ l)).
  - replace ({[x]} ∪ list_to_set l : gset NodeId) with (list_to_set l : gset NodeId) in Hs by set_solver.
    lia.
  - rewrite size_union, size_singleton in Hs by set_solver. constructor; [done|]. apply IH. lia.
Qed.

(** Whatever membership a leader accepts, any majority of the voters in force
    and any majority of the new voters share a node, so the two can never elect a
    leader each, and the new membership has at least one voter and no member
    twice. *)
Theorem membership_change_overlap {S} `{Storage S} (n : Node S) (ms : list Member)
    (q1 q2 : gset NodeId) :
  NoDup (n_voters n) → membership_refusal n ms = None →
  quorum_of (n_voters n) q1 = true → quorum_of (config_voters ms) q2 = true →
  (∃ v, v ∈ q1 ∧ v ∈ q2 ∧ v ∈ n_voters n ∧ v ∈ config_voters ms) ∧
  config_voters ms ≠ [] ∧ NoDup (m_id <$> ms).
Proof.
  intros Hnd Href Hq1 Hq2. unfold membership_refusal in Href.
  do 3 (case_match; [done|]). case_match eqn:Hids; [done|]. case_match eqn:Hnew; [done|].
  case_match eqn:Hdiff; [done|]. clear Href.
  apply negb_false_iff, bool_decide_eq_true in Hids. apply bool_decide_eq_false in Hdiff, Hnew.
  split_and!.
  - apply quorums_meet; [done|apply config_voters_NoDup| |done|done].
    unfold adjacent.
    replace (list_to_set (config_voters ms) : gset NodeId)
      with (list_to_set (m_id <$> filter (λ m, m_learner m = false) ms) : gset NodeId); [lia|].
    apply set_eq. intros x. rewrite !elem_of_list_to_set. unfold config_voters.
    by rewrite elem_of_sort_dedup.
  - by apply quorum_of_spec in Hq2 as [? _].
  - apply list_to_set_size_NoDup. by rewrite length_fmap.
Qed.

Lemma membership_change_overlap_witness :
  let n := (node_tick (node_new 1 [1] (mkConfig 2 1 1 1000 1000) MemStorage_new)).2 in
  ∃ v, v ∈ ({[1]} : gset NodeId) ∧ v ∈ ({[1; 2]} : gset NodeId).
Proof.
  destruct (membership_change_overlap
    (node_tick (node_new 1 [1] (mkConfig 2 1 1 1000 1000) MemStorage_new)).2
    [mkMember 1 [] false; mkMember 2 [] false] {[1]} {[1; 2]}) as ((v & H1 & H2 & _) & _).
  - vm_compute. repeat constructor. set_solver.
  - by vm_compute.
  - by vm_compute.
  - by vm_compute.
  - by exists v.
Defined.
