(* ===== verification/Election.v ===== *)
(** * One vote a term, one leader a term (src/raft/node.rs)

    What a node's operations do to its durable term and vote, and from it, by
    induction on the steps of a whole cluster, election safety: the network may
    lose, duplicate, delay and reorder messages, and nodes may stop and start
    again with what their storage kept. *)

From S2P Require Import Prelude.
From S2P Require Import RaftLog.
From S2P Require Import Message.
From S2P Require Import NodeState.
From S2P Require Import Node.
From S2P Require Import NodeFrame.
From S2P Require Import Quorum.

#[local] Open Scope N_scope.

(** The order on hard states: the term grows; within a term a vote, once cast, stays. *)
Definition hs_le (h h' : HardState) : Prop :=
  hs_term h < hs_term h' ∨
  hs_term h = hs_term h' ∧ (hs_voted_for h = None ∨ hs_voted_for h' = hs_voted_for h).

#[export] Instance hs_le_preorder : PreOrder hs_le.
Proof.
  split; [intros h; right; auto|].
  intros h1 h2 h3 [H1|[H1 V1]] [H2|[H2 V2]]; [left; lia..|]. right. split; [lia|].
  destruct V1 as [->|V1]; [by left|]. destruct V2 as [V2|V2]; [left|right]; congruence.
Qed.

(** What a caller may ask of a node. *)
Inductive Input (S : Type) `{Storage S} :=
  | InTick
  | InStep (from : NodeId) (m : Message)
  | InCampaign
  | InPreVote
  | InPropose (command : bytes)
  | InMembership (members : list Member)
  | InBatch (commands : list bytes)
  | InRead
  | InForget (r : ReadKind)
  | InBegin (index : N)
  | InFinish (sink : Sink)
  | InTake.
Arguments InTick {_ _}.
Arguments InStep {_ _} _ _.
Arguments InCampaign {_ _}.
Arguments InPreVote {_ _}.
Arguments InPropose {_ _} _.
Arguments InMembership {_ _} _.
Arguments InBatch {_ _} _.
Arguments InRead {_ _}.
Arguments InForget {_ _} _.
Arguments InBegin {_ _} _.
Arguments InFinish {_ _} _.
Arguments InTake {_ _}.

Section election.
Context {S : Type} `{StorageLaws S}.
Implicit Types (n : Node S) (s : HState S).

(** The node after an input, and the messages it asks to be sent. A proposal
    that fails is an answer to its client; any other error stops the process. *)
Definition node_input (i : Input S) n : result (list Action) * Node S :=
  let proposed {A} (r : (A * list Action + ProposeError) * Node S) :=
    (Ok (match r.1 with inl (_, actions) => actions | inr _ => [] end), r.2) in
  let stored {A} (r : result A * Node S) :=
    (match r.1 with Ok _ => Ok [] | Err e => Err e end, r.2) in
  match i with
  | InTick => node_tick n
  | InStep from m => node_step from m n
  | InCampaign => campaign n
  | InPreVote => pre_vote n
  | InPropose c => proposed (propose c n)
  | InMembership ms => proposed (propose_membership ms n)
  | InBatch cs => proposed (propose_batch cs n)
  | InRead => let '(_, actions, n') := read_index n in (Ok actions, n')
  | InForget r => (Ok [], forget_read r n)
  | InBegin index => stored (begin_compaction index n)
  | InFinish sink => stored (finish_compaction sink n)
  | InTake => (Ok [], (take_committed n).2)
  end.

Definition running n : bool :=
  match n_role n with Candidate | Leader => true | _ => false end.

(** ** What an operation may do to the election state *)

Section post.
Variable n0 : Node S.
Variable msg : option (NodeId * Message).

(** A vote that counts towards the term of node [n]. *)
Definition vote_ok n (v : NodeId) : Prop :=
  (v = n_id n ∧ hs_voted_for (hs_of n) = Some (n_id n)) ∨
  (running n0 = true ∧ node_term n0 = node_term n ∧ v ∈ n_votes n0) ∨
  msg = Some (v, RequestVoteReply (node_term n) true).

Record Post s : Prop := {
  post_id : n_id s.1 = n_id n0;
  post_voters : NoDup (n_voters n0) → NoDup (n_voters s.1);
  post_hs : hs_le (hs_of n0) (hs_of s.1);
  post_grants : ∀ to t, Send to (RequestVoteReply t true) ∈ s.2 →
    hs_of s.1 = mkHardState t (Some to);
  post_votes : running s.1 = true → ∀ v, v ∈ n_votes s.1 → vote_ok s.1 v;
  post_leader : n_role s.1 = Leader →
    (n_role n0 = Leader ∧ node_term n0 = node_term s.1) ∨
    quorum_of (n_voters n0) (n_votes s.1) = true;
}.

(** What is left when an operation fails half way. *)
Definition PostErr s : Prop := n_id s.1 = n_id n0 ∧ hs_le (hs_of n0) (hs_of s.1).

(** Before any election is decided the voters have not changed and nothing has been sent. *)
Definition Pre s : Prop :=
  n_id s.1 = n_id n0 ∧ n_voters s.1 = n_voters n0 ∧ hs_le (hs_of n0) (hs_of s.1) ∧ s.2 = [].

Lemma Post_err s : Post s → PostErr s.
Proof. intros []. by split. Qed.

Lemma node_term_hs n n' : hs_of n' = hs_of n → node_term n' = node_term n.
Proof. intros E. unfold node_term. unfold hs_of in E. by rewrite E. Qed.

Lemma Post_frame s s' : Post s → Frame s s' → Post s'.
Proof.
  intros [] (E & Hrole & ext & Hacts & Hext). destruct E.
  assert (Ht := node_term_hs s.1 s'.1 se_hs).
  assert (running s'.1 = true → running s.1 = true ∧ n_role s'.1 = n_role s.1) as Hrun.
  { unfold running. destruct Hrole as [->| ->]; [auto|done]. }
  split.
  - congruence.
  - auto.
  - by rewrite se_hs.
  - intros to t Hin. rewrite Hacts in Hin. apply elem_of_app in Hin as [Hin|Hin].
    + rewrite se_hs. auto.
    + rewrite list.Forall_forall in Hext. by destruct (Hext _ Hin).
  - intros [Hr _]%Hrun v Hv. rewrite se_votes in Hv. specialize (post_votes0 Hr v Hv).
    unfold vote_ok in *. by rewrite se_id, se_hs, Ht.
  - intros Hl. rewrite Ht, se_votes. apply post_leader0. destruct Hrole; congruence.
Qed.

Lemma Pre_post s : Pre s → running s.1 = false → Post s.
Proof.
  intros (Hid & Hv & Hhs & Ha) Hr. split; [done|by rewrite Hv|done|..].
  - rewrite Ha. by intros ? ? ?%not_elem_of_nil.
  - congruence.
  - intros Hl. unfold running in Hr. by rewrite Hl in Hr.
Qed.

(** A handler of the replication side ends well if it starts well. *)
Lemma wp_frame {A} (m : Handler S A) s :
  Steps Frame m → Post s → wp m (λ _, Post) PostErr s.
Proof.
  intros Hm Hs. apply (wp_steps Frame); [done|..].
  - intros _ s' Hf. by eapply Post_frame.
  - intros s' Hf. by eapply Post_err, Post_frame.
Qed.
End post.
(** ** Rules for the steps the election handlers are made of *)

Lemma wp_modn (f : Node S → Node S) (Q : unit → HState S → Prop) E s :
  Q tt (f s.1, s.2) → wp (modn f) Q E s.
Proof. done. Qed.

Lemma wp_getn {A B} (f : Node S → A) (k : A → Handler S B) Q E s :
  wp (k (f s.1)) Q E s → wp (getn f ≫= k) Q E s.
Proof. done. Qed.

Lemma wp_save hs (Q : unit → HState S → Prop) (E : HState S → Prop) s :
  (∀ st, hard_state st = hs → Q tt (set_storage st s.1, s.2)) →
  (∀ st, hard_state st = hard_state (n_storage s.1) → E (set_storage st s.1, s.2)) →
  wp (on_storage (save_hard_state hs)) Q E s.
Proof.
  intros HQ HE. unfold wp, on_storage.
  destruct (save_hard_state hs (n_storage s.1)) as [[[]|e] st] eqn:Hs.
  - by apply HQ, (law_save_ok _ _ _ Hs).
  - by apply HE, (law_save_err _ _ _ _ Hs).
Qed.

Lemma reset_election_timer_same n :
  n_id (reset_election_timer n) = n_id n ∧ n_voters (reset_election_timer n) = n_voters n ∧
  n_storage (reset_election_timer n) = n_storage n ∧ n_role (reset_election_timer n) = n_role n ∧
  n_votes (reset_election_timer n) = n_votes n ∧ n_peers (reset_election_timer n) = n_peers n.
Proof. unfold reset_election_timer. by destruct (random_timeout _ _). Qed.

Lemma steps_send_to_peers m :
  (∀ t, m ≠ RequestVoteReply t true) → Steps Frame (send_to_peers m).
Proof.
  intros Hm. unfold send_to_peers. solve_steps. destruct m as [| | |t g| | | | | |]; try by intros [].
  destruct g; [|by intros []]. by destruct (Hm t).
Qed.

(** ** The election handlers *)

Section handlers.
Variable n0 : Node S.
Variable msg : option (NodeId * Message).

Lemma wp_become_leader s :
  Pre n0 s → (∀ v, v ∈ n_votes s.1 → vote_ok n0 msg s.1 v) →
  quorum_of (n_voters n0) (n_votes s.1) = true →
  wp become_leader (λ _, Post n0 msg) (PostErr n0) s.
Proof.
  intros (Hid & Hvs & Hhs & Ha) Hv Hq. unfold become_leader.
  apply wp_bind, wp_modn, wp_frame; [solve_steps; eauto using steps_append_local, steps_broadcast_append|].
  split; [done|by simpl; rewrite Hvs|done|..].
  - simpl. rewrite Ha. by intros ? ? ?%not_elem_of_nil.
  - auto.
  - auto.
Qed.

Lemma wp_become_candidate s :
  Pre n0 s → wp become_candidate (λ _, Post n0 msg) (PostErr n0) s.
Proof.
  intros (Hid & Hvs & Hhs & Ha). unfold become_candidate.
  apply wp_getn, wp_bind, wp_modn, wp_bind, wp_save; simpl; intros st Hst.
  2: { split; simpl; [done|]. unfold hs_of in *. simpl. by rewrite Hst. }
  apply wp_bind, wp_modn. simpl.
  set (n1 := reset_election_timer _).
  assert (n_id n1 = n_id n0 ∧ n_voters n1 = n_voters n0 ∧ n_votes n1 = {[n_id n0]} ∧
    hs_of n1 = mkHardState (node_term s.1 + 1) (Some (n_id n0)) ∧ n_role n1 = Candidate) as
    (I1 & I2 & I3 & I4 & I5).
  { unfold n1, hs_of. match goal with |- context [reset_election_timer ?n] =>
      destruct (reset_election_timer_same n) as (-> & -> & -> & -> & -> & _) end.
    simpl. rewrite Hst, Hid. done. }
  clearbody n1.
  assert (Pre n0 (n1, s.2)) as Hpre.
  { split_and!; [done..| |done]. simpl. rewrite I4. etrans; [exact Hhs|]. left. simpl.
    change (hs_term (hs_of s.1)) with (node_term s.1). lia. }
  assert (∀ v, v ∈ n_votes n1 → vote_ok n0 msg n1 v) as Hvote.
  { intros v. rewrite I3. intros ->%elem_of_singleton. left. rewrite I1, I4. done. }
  apply wp_getn. simpl. rewrite has_quorum_of, I2. case_match eqn:Hq.
  - by apply wp_become_leader.
  - apply wp_frame; [by apply steps_send_to_peers|].
    destruct Hpre as (P1 & P2 & P3 & P4). split; [done|by rewrite P2|done|..]; simpl in *.
    + rewrite P4. by intros ? ? ?%not_elem_of_nil.
    + auto.
    + congruence.
Qed.

Lemma Pre_update s n :
  Pre n0 s → n_id n = n_id s.1 → n_voters n = n_voters s.1 → n_storage n = n_storage s.1 →
  Pre n0 (n, s.2).
Proof.
  intros (P1 & P2 & P3 & P4) E1 E2 E3. split_and!; simpl; [congruence..| |done].
  unfold hs_of in *. by rewrite E3.
Qed.

Lemma wp_become_pre_candidate s :
  Pre n0 s → wp become_pre_candidate (λ _, Post n0 msg) (PostErr n0) s.
Proof.
  intros Hpre. unfold become_pre_candidate. apply wp_bind, wp_modn. set (n1 := reset_election_timer _).
  assert (Pre n0 (n1, s.2) ∧ n_role n1 = PreCandidate) as [Hpre1 Hr].
  { unfold n1. match goal with |- context [reset_election_timer ?n] =>
      destruct (reset_election_timer_same n) as (E1 & E2 & E3 & E4 & _) end.
    split; [by apply Pre_update|by rewrite E4]. }
  clearbody n1. apply wp_getn. simpl. case_match.
  - by apply wp_become_candidate.
  - apply wp_frame; [by apply steps_send_to_peers|]. apply Pre_post; [done|].
    unfold running. simpl. by rewrite Hr.
Qed.

Lemma wp_reset_timer (Q : unit → HState S → Prop) term s :
  (∀ s', Pre n0 s' → n_role s'.1 = Follower → node_term s'.1 = term → Q tt s') →
  Pre n0 s → n_role s.1 = Follower → node_term s.1 = term →
  wp (modn reset_election_timer) Q (PostErr n0) s.
Proof.
  intros HQ Hn Hrole Ht. apply wp_modn.
  destruct (reset_election_timer_same s.1) as (E1 & E2 & E3 & E4 & _).
  apply HQ; simpl; [by apply Pre_update|congruence|unfold node_term in *; congruence].
Qed.

(** The end of [become_follower]: the new term is saved if it is new. *)
Lemma wp_enter_term (Q : unit → HState S → Prop) term s :
  (∀ s', Pre n0 s' → n_role s'.1 = Follower → node_term s'.1 = term → Q tt s') →
  Pre n0 s → n_role s.1 = Follower → node_term s.1 ≤ term →
  wp (mwhen (negb (term =? node_term s.1)) (on_storage (save_hard_state (mkHardState term None))) ;;
      modn reset_election_timer) Q (PostErr n0) s.
Proof.
  intros HQ Hpre Hr Hterm. apply wp_bind, wp_when; intros Hc.
  - apply negb_true_iff, N.eqb_neq in Hc. destruct Hpre as (P1 & P2 & P3 & P4).
    apply wp_save; intros st Hst.
    + apply (wp_reset_timer Q term); [done| |done|unfold node_term; simpl; by rewrite Hst].
      split_and!; [done..| |done]. etrans; [exact P3|]. left. unfold hs_of. simpl.
      rewrite Hst. simpl. unfold node_term in *. lia.
    + split; [done|]. unfold hs_of in *. simpl. by rewrite Hst.
  - apply negb_false_iff, N.eqb_eq in Hc. by apply (wp_reset_timer Q term).
Qed.

Lemma wp_become_follower (Q : unit → HState S → Prop) term leader s :
  Pre n0 s → node_term s.1 ≤ term →
  (∀ s', Pre n0 s' → n_role s'.1 = Follower → node_term s'.1 = term → Q tt s') →
  wp (become_follower term leader) Q (PostErr n0) s.
Proof.
  intros Hpre Hterm HQ. unfold become_follower. apply wp_getn, wp_bind, wp_modn.
  match goal with |- wp _ _ _ (?n, _) => apply (wp_enter_term Q term (n, s.2)) end;
    [done|by apply Pre_update|done|done].
Qed.

(** Where a handler may start: the node as it was, or a follower of a later term. *)
Definition Start s : Prop :=
  Pre n0 s ∧ (n_role s.1 = Follower ∨
    (n_role s.1 = n_role n0 ∧ n_votes s.1 = n_votes n0 ∧ node_term s.1 = node_term n0)).

Lemma Start_init : Start (n0, []).
Proof. split; [by split_and!|by right]. Qed.

Lemma Start_vote s v : Start s → running s.1 = true → v ∈ n_votes s.1 → vote_ok n0 msg s.1 v.
Proof.
  intros [_ [Hf|(Hr & Hv & Ht)]] Hrun Hin.
  - unfold running in Hrun. by rewrite Hf in Hrun.
  - right. left. unfold running in *. rewrite Hr in Hrun. by rewrite <-Hv.
Qed.

Lemma Start_post s : Start s → Post n0 msg s.
Proof.
  intros HS. pose proof HS as [(P1 & P2 & P3 & P4) Hr]. split; [done|by rewrite P2|done|..].
  - rewrite P4. by intros ? ? ?%not_elem_of_nil.
  - intros Hrun v Hv. by apply Start_vote.
  - intros Hl. left. destruct Hr as [Hf|(Hr & _ & Ht)]; [congruence|]. split; congruence.
Qed.

(** Granting a vote leaves it on disk; refusing changes nothing. *)
Lemma wp_handle_request_vote from li lt s :
  Start s → wp (handle_request_vote from li lt) (λ _, Post n0 msg) (PostErr n0) s.
Proof.
  intros HS. unfold handle_request_vote. apply wp_getn. cbv beta zeta delta [id].
  apply wp_bind, wp_when; intros Hg; cycle 1.
  { apply wp_frame; [|by apply Start_post]. apply steps_getn. intros n. apply steps_emit.
    rewrite Hg. by intros []. }
  pose proof (Start_post s HS) as [Q1 Q2 Q3 Q4 Q5 Q6]. destruct HS as [(P1 & P2 & P3 & P4) HS'].
  apply andb_true_iff in Hg as [Hfree _].
  apply wp_bind, wp_save; intros st Hst.
  2: { split; [done|]. unfold hs_of in *. simpl. by rewrite Hst. }
  apply wp_modn, wp_getn. cbn [fst snd id]. destruct (reset_election_timer_same (set_storage st s.1))
    as (E1 & E2 & E3 & E4 & E5 & _). set (n1 := reset_election_timer _) in *. clearbody n1. simpl in *.
  assert (hs_of n1 = mkHardState (node_term s.1) (Some from)) as Hhs.
  { unfold hs_of. rewrite E3. done. }
  assert (node_term n1 = node_term s.1) as Ht by (unfold node_term, hs_of in *; by rewrite Hhs).
  assert (hs_le (hs_of s.1) (hs_of n1)) as Hle.
  { rewrite Hhs. right. split; [done|]. simpl. unfold hs_of.
    destruct (hs_voted_for _) as [v|]; [|by left]. apply N.eqb_eq in Hfree as ->. by right. }
  split; simpl.
  - congruence.
  - by rewrite E2.
  - by etrans.
  - intros to t. rewrite P4. intros [= -> ->]%list_elem_of_singleton. by rewrite Hhs, Ht.
  - unfold running. rewrite E4, E5. intros Hrun v Hv. specialize (Q5 Hrun v Hv).
    unfold vote_ok in *. rewrite E1, Ht. destruct Q5 as [[-> Hself]|Q5]; [|by right].
    left. split; [done|]. destruct Hle as [Hlt|[_ [Hn|Hk]]].
    + rewrite Hhs in Hlt. simpl in Hlt. unfold node_term, hs_of in *. lia.
    + congruence.
    + by rewrite Hk.
  - rewrite E4, E5, Ht. done.
Qed.

Lemma wp_handle_vote_reply from term granted s :
  msg = Some (from, RequestVoteReply term granted) → Start s →
  wp (handle_vote_reply from term granted) (λ _, Post n0 msg) (PostErr n0) s.
Proof.
  intros Hmsg HS. unfold handle_vote_reply. apply wp_getn. unfold id. case_match eqn:Hc.
  { apply wp_ret. by apply Start_post. }
  apply orb_false_iff in Hc as [Hr Ht]. apply negb_false_iff, bool_decide_eq_true in Hr.
  apply negb_false_iff, N.eqb_eq in Ht. destruct granted; [|apply wp_ret; by apply Start_post].
  assert (running s.1 = true) as Hrun by (unfold running; by rewrite Hr).
  apply wp_bind, wp_modn. set (n1 := set_votes _ _).
  assert (∀ v, v ∈ n_votes n1 → vote_ok n0 msg n1 v) as Hv.
  { intros v Hv. change (n_votes n1) with ({[from]} ∪ n_votes s.1) in Hv.
    apply elem_of_union in Hv as [->%elem_of_singleton|Hin].
    - right. right. by rewrite Hmsg, Ht.
    - by apply (Start_vote s v HS). }
  pose proof (Start_post s HS) as [Q1 Q2 Q3 Q4 Q5 Q6]. destruct HS as [Hpre _].
  apply wp_getn, wp_when; intros Hq.
  - rewrite has_quorum_of in Hq. apply wp_become_leader; [by apply Pre_update|done|].
    destruct Hpre as (_ & Hvs & _). by rewrite <-Hvs.
  - split; try done. simpl. congruence.
Qed.

Lemma wp_step_current from m s :
  msg = Some (from, m) → Start s →
  wp (step_current from m) (λ _, Post n0 msg) (PostErr n0) s.
Proof.
  intros Hmsg HS. destruct m; simpl; first
    [ by apply wp_handle_request_vote
    | by apply wp_handle_vote_reply
    | apply wp_frame; [solve_steps; eauto with frame|by apply Start_post] ].
Qed.

Lemma wp_handle_pre_vote_reply from term granted s :
  Start s → wp (handle_pre_vote_reply from term granted) (λ _, Post n0 msg) (PostErr n0) s.
Proof.
  intros HS. unfold handle_pre_vote_reply. apply wp_getn. unfold id. destruct granted.
  - case_match eqn:Hc; [|by apply wp_ret, Start_post].
    apply andb_true_iff in Hc as [Hr _]. apply bool_decide_eq_true in Hr.
    apply wp_bind, wp_modn, wp_getn. apply wp_when; intros Hq.
    + apply wp_become_candidate, Pre_update; [apply HS|done..].
    + apply Pre_post; [apply Pre_update; [apply HS|done..]|].
      unfold running. simpl. by rewrite Hr.
  - apply wp_when; intros Hc; [|by apply Start_post]. apply N.ltb_lt in Hc.
    apply wp_become_follower; [apply HS|simpl in *; lia|]. intros s' Hp Hf _.
    apply Pre_post; [done|]. unfold running. by rewrite Hf.
Qed.

Lemma wp_step_h from m s :
  msg = Some (from, m) → Start s → wp (step_h from m) (λ _, Post n0 msg) (PostErr n0) s.
Proof.
  intros Hmsg HS. unfold step_h. apply wp_getn. unfold id. case_match.
  { apply wp_frame; [|by apply Start_post]. apply steps_emit. by destruct m; intros []. }
  assert (wp (if node_term s.1 <? msg_term m then become_follower (msg_term m) None ;; step_current from m
    else if (msg_term m <? node_term s.1) && is_request m then emit (reply_stale s.1 from m)
    else step_current from m) (λ _, Post n0 msg) (PostErr n0) s) as Hrest.
  { case_match eqn:Hlt; [|case_match].
    - apply wp_bind, wp_become_follower; [apply HS|apply N.ltb_lt in Hlt; lia|].
      intros s' Hp Hf _. apply wp_step_current; [done|]. split; [done|by left].
    - apply wp_frame; [|by apply Start_post]. apply steps_emit. by destruct m; intros [].
    - by apply wp_step_current. }
  destruct m; first [exact Hrest | by apply wp_handle_pre_vote_reply
    | apply wp_frame; [unfold handle_pre_vote; solve_steps|by apply Start_post]].
Qed.

(** Stepping down within the term. *)
Lemma wp_step_down s :
  Post n0 msg s → wp (become_follower (node_term s.1) None) (λ _, Post n0 msg) (PostErr n0) s.
Proof.
  intros [Q1 Q2 Q3 Q4 Q5 Q6]. unfold become_follower. apply wp_getn, wp_bind, wp_modn.
  cbv beta zeta delta [id]. change (hs_term (hard_state (n_storage s.1))) with (node_term s.1).
  rewrite N.eqb_refl. apply wp_bind, wp_ret, wp_modn. cbn [fst snd].
  match goal with |- context [reset_election_timer ?n] =>
    destruct (reset_election_timer_same n) as (E1 & E2 & E3 & E4 & E5 & _);
    set (n1 := reset_election_timer n) in * end.
  assert (hs_of n1 = hs_of s.1) as Hhs by (unfold hs_of; by rewrite E3).
  clearbody n1. simpl in *. split; simpl.
  - congruence.
  - by rewrite E2.
  - by rewrite Hhs.
  - by rewrite Hhs.
  - unfold running. by rewrite E4.
  - congruence.
Qed.

Lemma wp_tick_leader s :
  Post n0 msg s →
  wp (modn (λ n, set_heartbeat_elapsed (n_heartbeat_elapsed n + 1) n) ;;
      n ← getn id;
      mwhen (heartbeat_ticks (n_config n) <=? n_heartbeat_elapsed n)
        (modn (set_heartbeat_elapsed 0) ;; broadcast_append) ;;
      maybe_promote ;;
      modn (λ n, set_election_elapsed (n_election_elapsed n + 1) n) ;;
      n ← getn id;
      mwhen (n_election_timeout n <=? n_election_elapsed n)
        (let reachable := has_quorum n ({[n_id n]} ∪ n_active n) in
         modn (set_active ∅) ;;
         if negb reachable then become_follower (node_term n) None
         else modn (set_election_elapsed 0))) (λ _, Post n0 msg) (PostErr n0) s.
Proof.
  assert (∀ A B (m : Handler S A) (k : A → Handler S B) s,
    Steps Frame m → Post n0 msg s → (∀ a s', Post n0 msg s' → wp (k a) (λ _, Post n0 msg) (PostErr n0) s') →
    wp (m ≫= k) (λ _, Post n0 msg) (PostErr n0) s) as Hseq.
  { intros A B m k s' Hm Hs Hk. apply wp_bind. eapply wp_mono; [by apply wp_frame|auto|auto]. }
  intros HP. apply Hseq; [solve_steps|done|]. intros _ s1 H1. apply wp_getn.
  apply Hseq; [solve_steps|done|]. intros _ s2 H2.
  apply Hseq; [solve_steps|done|]. intros _ s3 H3.
  apply Hseq; [solve_steps|done|]. intros _ s4 H4. apply wp_getn, wp_when; [|done]. intros _.
  apply wp_bind, wp_modn. unfold id. case_match.
  - apply (wp_step_down (set_active ∅ s4.1, s4.2)). by destruct H4.
  - apply wp_modn. by destruct H4.
Qed.

Lemma wp_tick_h s : Start s → wp tick_h (λ _, Post n0 msg) (PostErr n0) s.
Proof.
  intros HS. unfold tick_h. apply wp_getn. unfold id. destruct (n_role s.1) eqn:Hr; cycle 3.
  { case_match; [apply wp_step_down|apply wp_tick_leader]; by apply Start_post. }
  all: apply wp_bind, wp_modn, wp_getn, wp_when; unfold id; [|intros _; apply Start_post in HS; by destruct HS].
  all: intros _; case_match;
    [apply wp_become_pre_candidate, Pre_update; [apply HS|done..]|].
  all: apply wp_modn; cbn [fst snd]; match goal with |- context [reset_election_timer ?n] =>
    destruct (reset_election_timer_same n) as (E1 & E2 & E3 & E4 & E5 & _) end.
  all: apply Pre_post; [apply Pre_update; [apply HS|done..]|unfold running; cbn [fst]; by rewrite E4].
Qed.
End handlers.

(** ** Every operation *)

Definition input_message (i : Input S) : option (NodeId * Message) :=
  match i with InStep from m => Some (from, m) | _ => None end.

Lemma Post_drop n0 msg s : Post n0 msg s → Post n0 msg (s.1, []).
Proof. intros []. split; try done. by intros ? ? ?%not_elem_of_nil. Qed.

Definition input_post (i : Input S) n (r : result (list Action) * Node S) : Prop :=
  match r with
  | (Ok acts, n') => Post n (input_message i) (n', acts)
  | (Err _, n') => PostErr n (n', [])
  end.

Lemma run_actions_post i n (m : Handler S unit) :
  wp m (λ _, Post n (input_message i)) (PostErr n) (n, []) → input_post i n (run_actions m n).
Proof. unfold wp, run_actions. by destruct (m (n, [])) as [[[]|e] [n' acts]]. Qed.

Lemma run_propose_post {A} i n (m : Handler S (A + ProposeError)) :
  Steps Frame m →
  input_post i n (Ok (match (run_propose m n).1 with inl (_, acts) => acts | inr _ => [] end),
    (run_propose m n).2).
Proof.
  intros Hm. pose proof (Post_frame _ (input_message i) _ _ (Start_post _ _ _ (Start_init n)) (Hm (n, [])))
    as HP. unfold run_propose, input_post in *.
  destruct (m (n, [])) as [[[a|e]|e] [n' acts]]; [done|apply (Post_drop _ _ _ HP)..].
Qed.

Lemma storage_post i n st :
  hard_state st = hard_state (n_storage n) → Post n (input_message i) (set_storage st n, []).
Proof.
  intros Hst. apply Start_post. split; [|right; unfold node_term; simpl; by rewrite Hst].
  split_and!; [done..| |done]. unfold hs_of. simpl. by rewrite Hst.
Qed.

(** One input, whatever it is, keeps the promises of [Post]. *)
Lemma node_input_post i n : input_post i n (node_input i n).
Proof.
  pose proof (Start_init n) as HS. pose proof (Start_post n (input_message i) _ HS) as HP.
  destruct i; unfold node_input.
  - by apply run_actions_post, wp_tick_h.
  - by apply run_actions_post, wp_step_h.
  - apply run_actions_post, wp_getn, wp_when; intros _; [|done]. apply wp_become_candidate, HS.
  - apply run_actions_post, wp_getn, wp_when; intros _; [|done]. apply wp_become_pre_candidate, HS.
  - apply run_propose_post. solve_steps.
  - apply run_propose_post. solve_steps.
  - apply run_propose_post. solve_steps.
  - unfold read_index. case_bool_decide.
    + pose proof (Post_frame _ (input_message InRead) _ _ HP (steps_open_read_round (n, []))) as HP'.
      destruct (open_read_round (n, [])) as [[[seq index]|e] [n' acts]]; exact HP'.
    + destruct (n_leader_id n); [|done]. destruct HP. split; try done.
      intros to t [=]%list_elem_of_singleton.
  - destruct r; simpl; [done| |done]. by destruct HP.
  - unfold begin_compaction. destruct (_ || _); [done|]. destruct (term_at _ _) as [t|]; [|done].
    pose proof (law_new_snapshot_hs (mkMeta index t) (Some (members_at n index)) (n_storage n)) as Hst.
    destruct (new_snapshot _ _ _) as [[k|e] st]; simpl in *;
      [|eapply Post_err]; by apply (storage_post (InBegin index)).
  - unfold finish_compaction. destruct (_ <=? _); [done|].
    pose proof (law_install_hs sink (n_storage n)) as Hst.
    destruct (install_snapshot _ _) as [[[]|e] st]; simpl in *;
      [|eapply Post_err]; by apply (storage_post (InFinish sink)).
  - unfold take_committed. simpl. case_match; [|done]. by destruct HP.
Qed.

Lemma node_input_hs_le i n : hs_le (hs_of n) (hs_of (node_input i n).2).
Proof.
  pose proof (node_input_post i n) as HP. destruct (node_input i n) as [[acts|e] n'].
  - apply HP.
  - apply HP.
Qed.

(** A vote is on disk before it is sent. Whatever a node is asked, a granted vote
    among the messages it sends is the vote its storage holds, for the term its
    storage holds, and it had not voted for anyone else in that term. *)
Theorem granted_vote_is_durable (i : Input S) n acts n' to t :
  node_input i n = (Ok acts, n') → Send to (RequestVoteReply t true) ∈ acts →
  hs_of n' = mkHardState t (Some to) ∧
  (node_term n = t → hs_voted_for (hs_of n) = None ∨ hs_voted_for (hs_of n) = Some to).
Proof.
  intros E Hin. pose proof (node_input_post i n) as HP. rewrite E in HP. destruct HP as [_ _ Hle Hg _ _].
  specialize (Hg _ _ Hin). simpl in *. split; [done|]. rewrite Hg in Hle. intros Ht.
  destruct Hle as [Hlt|[_ [Hn|Hk]]]; simpl in *; [|by left|by right].
  unfold node_term, hs_of in *. lia.
Qed.
End election.

Lemma granted_vote_is_durable_witness :
  let n := node_new 2 [1; 2; 3] NodeConfig_default MemStorage_new in
  hs_of (node_input (InStep 1 (RequestVote 4 0 0)) n).2 = mkHardState 4 (Some 1).
Proof.
  intros n.
  apply (granted_vote_is_durable (InStep 1 (RequestVote 4 0 0)) n [Send 1 (RequestVoteReply 4 true)] _ 1 4).
  - by vm_compute.
  - apply list_elem_of_here.
Defined.
