(* ===== verification/ElectionSafety.v ===== *)
(** * A cluster of nodes: at most one leader a term

    Nodes run, stop and start again; a message once sent may be delivered any
    number of times, in any order, or never. The votes and elections of the past
    are recorded beside the state, where nothing reads them. *)

From S2P Require Import Prelude.
From S2P Require Import RaftLog.
From S2P Require Import Message.
From S2P Require Import NodeState.
From S2P Require Import Node.
From S2P Require Import NodeFrame.
From S2P Require Import Quorum.
From S2P Require Import Election.

#[local] Open Scope N_scope.

(** A majority of [el_voters], among [el_votes], made [el_leader] leader of [el_term]. *)
Record ElectionRecord := mkElection {
  el_term : N;
  el_leader : NodeId;
  el_voters : list NodeId;
  el_votes : gset NodeId;
}.

Section cluster.
Context {S : Type} `{StorageLaws S}.
Implicit Types (n : Node S).

Inductive Proc := Up (n : Node S) | Down (st : S).

Record Cluster := mkCluster {
  c_procs : gmap NodeId Proc;
  c_net : list (NodeId * NodeId * Message);
  c_votes : list (NodeId * N * NodeId);
  c_elections : list ElectionRecord;
}.

Definition proc_hs (p : Proc) : HardState :=
  match p with Up n => hs_of n | Down st => hard_state st end.

Definition vote_of (v : NodeId) (h : HardState) : list (NodeId * N * NodeId) :=
  match hs_voted_for h with Some c => [(v, hs_term h, c)] | None => [] end.

Definition elected n n' : bool :=
  bool_decide (n_role n' = Leader) &&
  negb (bool_decide (n_role n = Leader) && (node_term n =? node_term n')).

(** Node [v] went from [n] to process [p], sending [acts]. *)
Definition advance (v : NodeId) n (p : Proc) (acts : list Action) (c : Cluster) : Cluster :=
  mkCluster (<[v := p]> (c_procs c))
    (((λ a, match a with Send to m => (v, to, m) end) <$> acts) ++ c_net c)
    (vote_of v (proc_hs p) ++ c_votes c)
    (match p with
     | Up n' => if elected n n' then [mkElection (node_term n') v (n_voters n) (n_votes n')] else []
     | Down _ => []
     end ++ c_elections c).

Inductive cstep : Cluster → Cluster → Prop :=
  | cs_input c v n i acts n' :
      c_procs c !! v = Some (Up n) →
      (∀ from m, input_message i = Some (from, m) → (from, v, m) ∈ c_net c) →
      node_input i n = (Ok acts, n') →
      cstep c (advance v n (Up n') acts c)
  | cs_fail c v n i e n' :
      c_procs c !! v = Some (Up n) →
      (∀ from m, input_message i = Some (from, m) → (from, v, m) ∈ c_net c) →
      node_input i n = (Err e, n') →
      cstep c (advance v n (Down (n_storage n')) [] c)
  | cs_crash c v n st :
      c_procs c !! v = Some (Up n) → hard_state st = hard_state (n_storage n) →
      cstep c (advance v n (Down st) [] c)
  | cs_restart c v st bootstrap config :
      c_procs c !! v = Some (Down st) →
      cstep c (mkCluster (<[v := Up (with_members v bootstrap config st)]> (c_procs c))
        (c_net c) (c_votes c) (c_elections c)).

Inductive reachable : Cluster → Prop :=
  | reach_init procs :
      map_Forall (λ _ p, ∃ st, p = Down st ∧ hard_state st = mkHardState 0 None) procs →
      reachable (mkCluster procs [] [] [])
  | reach_step c c' : reachable c → cstep c c' → reachable c'.

(** ** The invariant *)

Definition election_ok (votes : list (NodeId * N * NodeId)) (e : ElectionRecord) : Prop :=
  NoDup (el_voters e) ∧ quorum_of (el_voters e) (el_votes e) = true ∧
  ∀ v, v ∈ el_votes e → (v, el_term e, el_leader e) ∈ votes.

Definition node_ok (c : Cluster) (v : NodeId) n : Prop :=
  n_id n = v ∧ NoDup (n_voters n) ∧
  (running n = true → ∀ u, u ∈ n_votes n → (u, node_term n, v) ∈ c_votes c) ∧
  (n_role n = Leader → ∃ e, e ∈ c_elections c ∧ el_term e = node_term n ∧ el_leader e = v).

Record Inv (c : Cluster) : Prop := {
  inv_unique : ∀ v t c1 c2, (v, t, c1) ∈ c_votes c → (v, t, c2) ∈ c_votes c → c1 = c2;
  inv_member : ∀ v t cand, (v, t, cand) ∈ c_votes c → is_Some (c_procs c !! v);
  inv_past : ∀ v p t cand, c_procs c !! v = Some p → (v, t, cand) ∈ c_votes c →
    hs_le (mkHardState t (Some cand)) (proc_hs p);
  inv_cast : ∀ v p cand, c_procs c !! v = Some p → hs_voted_for (proc_hs p) = Some cand →
    (v, hs_term (proc_hs p), cand) ∈ c_votes c;
  inv_grant : ∀ v to t, (v, to, RequestVoteReply t true) ∈ c_net c → (v, t, to) ∈ c_votes c;
  inv_nodes : ∀ v n, c_procs c !! v = Some (Up n) → node_ok c v n;
  inv_elections : ∀ e, e ∈ c_elections c → election_ok (c_votes c) e;
}.

Lemma elem_vote_of v h u t cand :
  (u, t, cand) ∈ vote_of v h ↔ u = v ∧ h = mkHardState t (Some cand).
Proof.
  unfold vote_of. destruct h as [ht [x|]]; simpl.
  - rewrite list_elem_of_singleton. naive_solver.
  - split; [by intros ?%not_elem_of_nil|naive_solver].
Qed.

(** What [advance] asks of the step it records. *)
Record Advances (c : Cluster) (v : NodeId) n (p : Proc) (acts : list Action) : Prop := {
  adv_hs : hs_le (hs_of n) (proc_hs p);
  adv_grants : ∀ to t, Send to (RequestVoteReply t true) ∈ acts →
    proc_hs p = mkHardState t (Some to);
  adv_node : ∀ n', p = Up n' →
    n_id n' = v ∧ NoDup (n_voters n') ∧
    (running n' = true → ∀ u, u ∈ n_votes n' →
      (u, node_term n', v) ∈ vote_of v (proc_hs p) ++ c_votes c) ∧
    (n_role n' = Leader →
      n_role n = Leader ∧ node_term n = node_term n' ∨
      quorum_of (n_voters n) (n_votes n') = true);
}.

Lemma advance_votes c v n p :
  Inv c → c_procs c !! v = Some (Up n) → hs_le (hs_of n) (proc_hs p) →
  ∀ t cand, (v, t, cand) ∈ vote_of v (proc_hs p) ++ c_votes c →
  hs_le (mkHardState t (Some cand)) (proc_hs p).
Proof.
  intros HI Hv Hle t cand [Hin|Hin]%elem_of_app.
  - apply elem_vote_of in Hin as [_ ->]. done.
  - etrans; [|exact Hle]. by apply (inv_past c HI v (Up n)).
Qed.

Lemma hs_le_same_vote t c1 h :
  hs_le (mkHardState t (Some c1)) h → hs_term h = t → hs_voted_for h = Some c1.
Proof. intros [Hlt|[_ [?|?]]] Ht; simpl in *; [lia|done|done]. Qed.

Lemma advance_unique c v n p :
  Inv c → c_procs c !! v = Some (Up n) → hs_le (hs_of n) (proc_hs p) →
  ∀ u t c1 c2, (u, t, c1) ∈ vote_of v (proc_hs p) ++ c_votes c →
    (u, t, c2) ∈ vote_of v (proc_hs p) ++ c_votes c → c1 = c2.
Proof.
  intros HI Hv Hle u t c1 c2 H1 H2. pose proof (advance_votes c v n p HI Hv Hle) as Hpast.
  pose proof H1 as H1'. pose proof H2 as H2'.
  apply elem_of_app in H1 as [H1|H1], H2 as [H2|H2].
  - apply elem_vote_of in H1 as [_ E1], H2 as [_ E2]. congruence.
  - apply elem_vote_of in H1 as [-> E1]. apply Hpast, hs_le_same_vote in H2'; rewrite E1 in *; simpl in *; congruence.
  - apply elem_vote_of in H2 as [-> E2]. apply Hpast, hs_le_same_vote in H1'; rewrite E2 in *; simpl in *; congruence.
  - by eapply inv_unique.
Qed.

Lemma election_ok_mono votes votes' e : votes ⊆ votes' → election_ok votes e → election_ok votes' e.
Proof. intros Hsub (H1 & H2 & H3). split_and!; auto. Qed.

Lemma advance_net (v : NodeId) (acts : list Action) (from to : NodeId) (m : Message) :
  (from, to, m) ∈ ((λ a, match a with Send to m => (v, to, m) end) <$> acts) ↔
  from = v ∧ Send to m ∈ acts.
Proof.
  rewrite list_elem_of_fmap. split.
  - intros ([to' m'] & [= -> -> ->] & Hin). done.
  - intros [-> Hin]. by exists (Send to m).
Qed.

Lemma elected_spec n n' :
  elected n n' = true ↔
  n_role n' = Leader ∧ ¬ (n_role n = Leader ∧ node_term n = node_term n').
Proof.
  unfold elected. rewrite andb_true_iff, bool_decide_eq_true, negb_true_iff, andb_false_iff,
    bool_decide_eq_false, N.eqb_neq. destruct (decide (n_role n = Leader)); naive_solver.
Qed.

Section advance.
Variables (c : Cluster) (v : NodeId) (n : Node S) (p : Proc) (acts : list Action).
Hypothesis HI : Inv c.
Hypothesis Hv : c_procs c !! v = Some (Up n).
Hypothesis Hadv : Advances c v n p acts.

Let c' := advance v n p acts c.

Lemma advance_sub : c_votes c ⊆ c_votes c'.
Proof. intros x Hx. apply elem_of_app. by right. Qed.

Lemma advance_elections e : e ∈ c_elections c' → election_ok (c_votes c') e.
Proof.
  simpl. intros [Hin|Hin]%elem_of_app; cycle 1.
  { apply (election_ok_mono (c_votes c)); [apply advance_sub|]. by apply (inv_elections c HI). }
  destruct p as [n'|st]; [|by apply not_elem_of_nil in Hin].
  destruct (elected n n') eqn:He; [|by apply not_elem_of_nil in Hin].
  apply list_elem_of_singleton in Hin as ->. apply elected_spec in He as [Hl Hnew].
  destruct (adv_node _ _ _ _ _ Hadv n' eq_refl) as (A1 & A2 & A3 & A4).
  split_and!; simpl.
  - by apply (inv_nodes c HI v n).
  - by destruct (A4 Hl).
  - apply A3. unfold running. by rewrite Hl.
Qed.

Lemma advance_nodes u m : c_procs c' !! u = Some (Up m) → node_ok c' u m.
Proof.
  simpl. rewrite lookup_insert_Some. intros [[<- Hp]|[Hne Hu]].
  - destruct (adv_node _ _ _ _ _ Hadv m Hp) as (A1 & A2 & A3 & A4). split_and!; [done..|].
    intros Hl. destruct (elected n m) eqn:He.
    + exists (mkElection (node_term m) v (n_voters n) (n_votes m)). simpl.
      rewrite Hp, He. split_and!; [|done..]. apply elem_of_app. left. by apply list_elem_of_singleton.
    + destruct (decide (n_role n = Leader ∧ node_term n = node_term m)) as [[Hr Ht]|Hno].
      * destruct (inv_nodes c HI v n Hv) as (_ & _ & _ & B4). destruct (B4 Hr) as (e & E1 & E2 & E3).
        exists e. split_and!; [|congruence|done]. apply elem_of_app. by right.
      * assert (elected n m = true) as He' by (by apply elected_spec). congruence.
  - destruct (inv_nodes c HI u m Hu) as (B1 & B2 & B3 & B4). split_and!; [done..| |].
    + intros Hr x Hx. apply elem_of_app. right. by apply B3.
    + intros Hl. destruct (B4 Hl) as (e & E1 & E2 & E3). exists e. split_and!; [|done..].
      apply elem_of_app. by right.
Qed.

Lemma advance_inv : Inv c'.
Proof.
  pose proof (adv_hs _ _ _ _ _ Hadv) as Hle. split.
  - by apply (advance_unique c v n p).
  - simpl. intros u t cand [[-> _]%elem_vote_of|Hin]%elem_of_app.
    + rewrite lookup_insert. by case_decide.
    + rewrite lookup_insert_is_Some. destruct (decide (v = u)); [by left|right].
      split; [done|]. by eapply inv_member.
  - simpl. intros u q t cand. rewrite lookup_insert_Some. intros [[<- <-]|[Hne Hu]] Hin.
    + by apply (advance_votes c v n p).
    + apply elem_of_app in Hin as [[-> _]%elem_vote_of|Hin]; [done|]. by apply (inv_past c HI u q).
  - simpl. intros u q cand. rewrite lookup_insert_Some. intros [[<- <-]|[Hne Hu]] Hc; apply elem_of_app.
    + left. apply elem_vote_of. split; [done|]. by destruct (proc_hs p); simpl in *; subst.
    + right. by apply (inv_cast c HI u q).
  - simpl. intros u to t [[-> Hin]%advance_net|Hin]%elem_of_app; apply elem_of_app.
    + left. apply elem_vote_of. split; [done|]. by apply (adv_grants _ _ _ _ _ Hadv).
    + right. by apply (inv_grant c HI).
  - apply advance_nodes.
  - apply advance_elections.
Qed.
End advance.

Lemma input_advances c v n i acts n' :
  Inv c → c_procs c !! v = Some (Up n) →
  (∀ from m, input_message i = Some (from, m) → (from, v, m) ∈ c_net c) →
  node_input i n = (Ok acts, n') → Advances c v n (Up n') acts.
Proof.
  intros HI Hv Hmsg Hin. pose proof (node_input_post i n) as HP. rewrite Hin in HP.
  destruct HP as [P1 P2 P3 P4 P5 P6]; simpl in *. destruct (inv_nodes c HI v n Hv) as (B1 & B2 & B3 & B4).
  split; [done|done|]. intros m [= <-]. split_and!; [congruence|auto| |done].
  intros Hr u Hu. apply elem_of_app. destruct (P5 Hr u Hu) as [[-> Hself]|[(R0 & T0 & V0)|Hm]].
  - left. apply elem_vote_of. split; [congruence|]. simpl. unfold node_term.
    change (hard_state (n_storage n')) with (hs_of n'). destruct (hs_of n'); simpl in *. congruence.
  - right. rewrite <-T0. by apply B3.
  - right. by apply (inv_grant c HI), Hmsg.
Qed.

Lemma with_members_fresh id bootstrap config (st : S) :
  let n := with_members id bootstrap config st in
  n_id n = id ∧ NoDup (n_voters n) ∧ n_role n = Follower ∧ n_storage n = st.
Proof.
  unfold with_members. destruct (random_timeout _ _) as [timeout rng].
  match goal with |- context [reload_membership ?x] => set (n := x) end.
  destruct (reload_membership_voters n) as [ms Hms]. cbn zeta. rewrite Hms.
  split_and!; [|apply config_voters_NoDup|..]; subst n; unfold reload_membership; simpl;
    by destruct (scan_config _ _ _).
Qed.

Lemma cstep_inv c c' : Inv c → cstep c c' → Inv c'.
Proof.
  intros HI Hstep. destruct Hstep as [c v n i acts n' Hv Hmsg Hin|c v n i e n' Hv Hmsg Hin|
    c v n st Hv Hst|c v st bootstrap config Hv].
  - apply advance_inv; [done..|]. by eapply input_advances.
  - apply advance_inv; [done..|]. pose proof (node_input_post i n) as HP. rewrite Hin in HP.
    destruct HP as [_ Hle]. by split; [|intros ? ? ?%not_elem_of_nil|].
  - apply advance_inv; [done..|]. split; [|by intros ? ? ?%not_elem_of_nil|done].
    simpl. rewrite Hst. done.
  - destruct (with_members_fresh v bootstrap config st) as (F1 & F2 & F3 & F4).
    set (n := with_members v bootstrap config st) in *. clearbody n.
    assert (proc_hs (Up n) = proc_hs (Down st)) as Hhs by (simpl; unfold hs_of; by rewrite F4).
    destruct HI. split; simpl; auto.
    + intros u t cand Hin. rewrite lookup_insert_is_Some. destruct (decide (v = u)); [by left|right].
      split; [done|]. by eapply inv_member0.
    + intros u q t cand. rewrite lookup_insert_Some. intros [[<- <-]|[Hne Hu]] Hin; [|by eauto].
      rewrite Hhs. by eauto.
    + intros u q cand. rewrite lookup_insert_Some. intros [[<- <-]|[Hne Hu]]; [|by eauto].
      rewrite Hhs. by eauto.
    + intros u m. rewrite lookup_insert_Some. intros [[<- [= <-]]|[Hne Hu]]; [|by apply inv_nodes0].
      split_and!; [done..| |]; unfold running; by rewrite F3.
Qed.

Lemma reachable_inv c : reachable c → Inv c.
Proof.
  induction 1 as [procs Hp|c c' _ IH Hs]; [|by eapply cstep_inv].
  split; simpl; try (by intros; match goal with H : _ ∈ [] |- _ => by apply not_elem_of_nil in H end).
  - intros v p cand Hv Hc. destruct (Hp v p Hv) as (st & -> & Hst). simpl in Hc. by rewrite Hst in Hc.
  - intros v n Hv. by destruct (Hp v _ Hv) as (st & [=] & _).
Qed.

(** ** Running a cluster *)

Inductive Sched :=
  | SRestart (v : NodeId) (bootstrap : list Member) (config : NodeConfig)
  | SCrash (v : NodeId)
  | SInput (v : NodeId) (i : Input S).

(** One scheduled step, if it can be taken. *)
Definition cexec (c : Cluster) (x : Sched) : option Cluster :=
  match x with
  | SRestart v bootstrap config =>
      match c_procs c !! v with
      | Some (Down st) => Some (mkCluster (<[v := Up (with_members v bootstrap config st)]> (c_procs c))
                            (c_net c) (c_votes c) (c_elections c))
      | _ => None
      end
  | SCrash v =>
      match c_procs c !! v with
      | Some (Up n) => Some (advance v n (Down (n_storage n)) [] c)
      | _ => None
      end
  | SInput v i =>
      match c_procs c !! v with
      | Some (Up n) =>
          if match input_message i with
             | Some (from, m) => bool_decide ((from, v, m) ∈ c_net c)
             | None => true
             end
          then match node_input i n with
               | (Ok acts, n') => Some (advance v n (Up n') acts c)
               | (Err _, n') => Some (advance v n (Down (n_storage n')) [] c)
               end
          else None
      | _ => None
      end
  end.

Lemma cexec_cstep c x c' : cexec c x = Some c' → cstep c c'.
Proof.
  intros Hx. destruct x as [v bs cfg|v|v i]; simpl in Hx.
  - destruct (c_procs c !! v) as [[n|st]|] eqn:Hv; [done| |done]. injection Hx as <-. by constructor.
  - destruct (c_procs c !! v) as [[n|st]|] eqn:Hv; [|done|done]. injection Hx as <-. by constructor.
  - destruct (c_procs c !! v) as [[n|st]|] eqn:Hv; [|done|done].
    match type of Hx with (if ?b then _ else _) = _ => destruct b eqn:Hm; [|done] end.
    assert (∀ from m, input_message i = Some (from, m) → (from, v, m) ∈ c_net c) as Hmsg.
    { intros from m Hi. rewrite Hi in Hm. by apply bool_decide_eq_true in Hm. }
    destruct (node_input i n) as [[acts|e] n'] eqn:Hi; injection Hx as <-.
    + by eapply cs_input.
    + by eapply cs_fail.
Qed.

Fixpoint crun (c : Cluster) (xs : list Sched) : option Cluster :=
  match xs with
  | [] => Some c
  | x :: xs => match cexec c x with Some c' => crun c' xs | None => None end
  end.

Lemma crun_reachable c xs c' : reachable c → crun c xs = Some c' → reachable c'.
Proof.
  revert c. induction xs as [|x xs IH]; intros c Hc Hr; simpl in Hr.
  - by injection Hr as <-.
  - destruct (cexec c x) as [c1|] eqn:Hx; [|done]. apply (IH c1); [|done].
    eapply reach_step; [done|]. by eapply cexec_cstep.
Qed.

(** C3: election safety. However messages are lost, repeated or reordered and
    however nodes stop and restart, two elections won in the same term, under
    voter lists at most one voter apart, were won by the same node; and every node
    that acts as leader of a term won such an election. *)
Theorem election_safety (c : Cluster) :
  reachable c →
  (∀ e1 e2, e1 ∈ c_elections c → e2 ∈ c_elections c → el_term e1 = el_term e2 →
    adjacent (el_voters e1) (el_voters e2) → el_leader e1 = el_leader e2) ∧
  (∀ v n, c_procs c !! v = Some (Up n) → n_role n = Leader →
    ∃ e, e ∈ c_elections c ∧ el_term e = node_term n ∧ el_leader e = v).
Proof.
  intros HI%reachable_inv. split.
  - intros e1 e2 H1 H2 Ht Hadj.
    destruct (inv_elections c HI e1 H1) as (N1 & Q1 & V1), (inv_elections c HI e2 H2) as (N2 & Q2 & V2).
    destruct (quorums_meet _ _ _ _ N1 N2 Hadj Q1 Q2) as (v & I1 & I2 & _).
    eapply (inv_unique c HI v (el_term e1)); [by apply V1|]. rewrite Ht. by apply V2.
  - intros v n Hv Hl. by apply (inv_nodes c HI v n Hv).
Qed.
End cluster.

(** Three nodes start; node 1 campaigns, node 2 votes for it, node 3 crashes. *)
Definition three_nodes : Cluster :=
  mkCluster (list_to_map ((λ v, (v, Down MemStorage_new)) <$> [1; 2; 3])) [] [] [].

Lemma three_nodes_reachable : reachable three_nodes.
Proof.
  constructor. apply map_Forall_lookup. intros v p Hv%elem_of_list_to_map_2.
  rewrite list_elem_of_fmap in Hv. destruct Hv as (u & [= -> ->] & _). by exists MemStorage_new.
Qed.

Definition three_run : option (Cluster (S := MemStorage)) :=
  let bootstrap := (λ p, mkMember p [] false) <$> [1; 2; 3] in
  crun three_nodes
    [SRestart 1 bootstrap NodeConfig_default; SRestart 2 bootstrap NodeConfig_default;
     SRestart 3 bootstrap NodeConfig_default; SInput 1 InCampaign; SCrash 3;
     SInput 2 (InStep 1 (RequestVote 1 0 0)); SInput 1 (InStep 2 (RequestVoteReply 1 true))].

Lemma election_safety_witness :
  match three_run with
  | Some c => el_leader <$> c_elections c = [1] ∧
      ∀ v n, c_procs c !! v = Some (Up n) → n_role n = Leader →
        ∃ e, e ∈ c_elections c ∧ el_term e = node_term n ∧ el_leader e = v
  | None => False
  end.
Proof.
  destruct three_run as [c|] eqn:Hrun; [|by vm_compute in Hrun].
  split.
  - assert (option_map (λ c, el_leader <$> c_elections c) three_run = Some [1]) as Hl by by vm_compute.
    rewrite Hrun in Hl. by injection Hl.
  - refine (proj2 (election_safety c _)). eapply crun_reachable; [|exact Hrun].
    apply three_nodes_reachable.
Defined.
