(* ===== verification/Replication.v ===== *)
(** * What a follower makes of the leader's entries (src/raft/node.rs)

    A reference definition of the merge of a follower's log with a batch of the
    leader's entries, the refinement of [handle_append_entries] to it, and what
    the merged log looks like. *)

From S2P Require Import Prelude.
From S2P Require Import RaftLog.
From S2P Require Import Message.
From S2P Require Import NodeState.
From S2P Require Import Node.
From S2P Require Import NodeFrame.
From S2P Require Import Election.

#[local] Open Scope N_scope.

(** ** The reference merge *)

(** How many of the leader's entries, from index [i], the log already has. *)
Fixpoint matching (l : EntryLog) (i : N) (es : list Entry) : nat :=
  match es with
  | [] => 0
  | e :: es => if bool_decide (EntryLog_term_at l i = Some (e_term e)) then S (matching l (i + 1) es) else 0
  end.

(** The log with the leader's entries after [prev]: what it already has stays;
    from the first entry it has not, the leader's replace its own. *)
Definition merge_log (l : EntryLog) (prev : N) (es : list Entry) : EntryLog :=
  let k := matching l (prev + 1) es in
  if bool_decide (drop k es = []) then l
  else push_all (EntryLog_truncate_from l (prev + 1 + N.of_nat k)).2 (drop k es).

Lemma matching_le l i es : (matching l i es ≤ length es)%nat.
Proof.
  revert i. induction es as [|e es IH]; intros i; simpl; [lia|]. case_bool_decide; [|lia].
  specialize (IH (i + 1)). lia.
Qed.

Lemma matching_spec l i es k e :
  es !! k = Some e → (k < matching l i es)%nat → EntryLog_term_at l (i + N.of_nat k) = Some (e_term e).
Proof.
  revert i k. induction es as [|e' es IH]; intros i k Hk Hlt; simpl in *; [lia|].
  case_bool_decide as Ht; [|lia]. destruct k as [|k]; simpl in Hk.
  - injection Hk as <-. by rewrite N.add_0_r.
  - replace (i + N.of_nat (S k)) with (i + 1 + N.of_nat k) by lia. apply IH; [done|lia].
Qed.

Lemma matching_stop l i es e :
  es !! matching l i es = Some e →
  EntryLog_term_at l (i + N.of_nat (matching l i es)) ≠ Some (e_term e).
Proof.
  revert i. induction es as [|e' es IH]; intros i; simpl; [done|]. case_bool_decide as Ht; simpl.
  - intros He%IH. by replace (i + N.of_nat (S _)) with (i + 1 + N.of_nat (matching l (i + 1) es)) by lia.
  - intros [= <-]. by rewrite N.add_0_r.
Qed.

Lemma drop_nonempty_lookup {A} (l : list A) k : drop k l ≠ [] → ∃ x, l !! k = Some x.
Proof.
  intros Hne. destruct (l !! k) as [x|] eqn:E; [by exists x|]. apply lookup_ge_None in E.
  by rewrite drop_ge in Hne.
Qed.

Section merge.
Variables (l : EntryLog) (prev : N) (es : list Entry).
Hypothesis Hwf : EntryLog_wf l.
Hypothesis Hprev : is_Some (EntryLog_term_at l prev).
Hypothesis Hes : contiguous (prev + 1) es.

Let base := sm_index (el_base l).
Let k := matching l (prev + 1) es.

(** Everything up to the last match is in the log. *)
Lemma matching_inside : base ≤ prev ∧ prev + N.of_nat k ≤ EntryLog_last_index l.
Proof.
  apply EntryLog_term_at_Some in Hprev; [|done]. split; [apply Hprev|].
  destruct (decide (k = 0%nat)) as [->|Hk]; [lia|].
  assert (∃ e, es !! pred k = Some e) as [e He].
  { apply lookup_lt_is_Some_2. pose proof (matching_le l (prev + 1) es). fold k in H. lia. }
  assert (is_Some (EntryLog_term_at l (prev + 1 + N.of_nat (pred k)))) as Ht.
  { rewrite (matching_spec l (prev + 1) es (pred k) e He); [by eexists|]. fold k. lia. }
  apply EntryLog_term_at_Some in Ht; [|done]. lia.
Qed.

Lemma truncate_entries :
  el_entries (EntryLog_truncate_from l (prev + 1 + N.of_nat k)).2
  = take (N.to_nat (prev + N.of_nat k - base)) (el_entries l).
Proof.
  pose proof matching_inside as [Hb Hl]. unfold EntryLog_truncate_from. simpl.
  fold base. rewrite (proj2 (N.leb_gt _ _)) by lia. f_equal.
  rewrite EntryLog_last_index_len in Hl by done. unfold blen in Hl. fold base in Hl. lia.
Qed.

Lemma truncate_last :
  EntryLog_last_index (EntryLog_truncate_from l (prev + 1 + N.of_nat k)).2 = prev + N.of_nat k.
Proof.
  pose proof matching_inside as [Hb Hl]. rewrite EntryLog_last_index_len by (by apply EntryLog_truncate_wf).
  unfold blen. rewrite truncate_entries, length_take. rewrite EntryLog_last_index_len in Hl by done.
  unfold blen in Hl. simpl. fold base in Hl |- *. lia.
Qed.

Lemma merge_log_wf : EntryLog_wf (merge_log l prev es).
Proof.
  unfold merge_log. fold k. case_bool_decide; [done|].
  apply push_all_wf; [by apply EntryLog_truncate_wf|]. rewrite truncate_last.
  replace (prev + N.of_nat k + 1) with (prev + 1 + N.of_nat k) by lia. by apply contiguous_drop.
Qed.

Lemma merge_log_base : el_base (merge_log l prev es) = el_base l.
Proof. unfold merge_log. case_bool_decide; [done|]. by rewrite push_all_base. Qed.

(** Up to and including the last match, the log is as it was. *)
Lemma merge_log_kept j :
  j ≤ prev + N.of_nat k → EntryLog_entry (merge_log l prev es) j = EntryLog_entry l j.
Proof.
  intros Hj. pose proof matching_inside as [Hb Hl].
  rewrite !EntryLog_entry_lookup by (done || apply merge_log_wf). rewrite merge_log_base. fold base.
  destruct (N.leb_spec j base); [done|]. unfold merge_log. fold k. case_bool_decide; [done|].
  rewrite push_all_entries, truncate_entries. rewrite EntryLog_last_index_len in Hl by done.
  unfold blen in Hl. fold base in Hl. rewrite lookup_app_l by (rewrite length_take; lia).
  apply lookup_take_lt. lia.
Qed.

(** From the first entry the log did not have, it holds the leader's. *)
Lemma merge_log_new j e :
  es !! j = Some e → (k ≤ j)%nat → EntryLog_entry (merge_log l prev es) (prev + 1 + N.of_nat j) = Some e.
Proof.
  intros He Hj. pose proof matching_inside as [Hb Hl].
  rewrite !EntryLog_entry_lookup by (done || apply merge_log_wf). rewrite merge_log_base. fold base.
  rewrite (proj2 (N.leb_gt _ _)) by lia. unfold merge_log. fold k. case_bool_decide as Hd.
  { apply (f_equal length) in Hd. rewrite length_drop in Hd. apply lookup_lt_Some in He. simpl in Hd. lia. }
  rewrite push_all_entries, truncate_entries. rewrite EntryLog_last_index_len in Hl by done.
  unfold blen in Hl. fold base in Hl. rewrite lookup_app_r by (rewrite length_take; lia).
  rewrite length_take, lookup_drop, <-He. f_equal. lia.
Qed.

Lemma merge_log_term_at j :
  EntryLog_term_at (merge_log l prev es) j =
  if j =? base then Some (sm_term (el_base l)) else e_term <$> EntryLog_entry (merge_log l prev es) j.
Proof. unfold EntryLog_term_at. by rewrite merge_log_base. Qed.

(** The leader's terms hold at every index the message covers. *)
Lemma merge_log_terms j e :
  es !! j = Some e → EntryLog_term_at (merge_log l prev es) (prev + 1 + N.of_nat j) = Some (e_term e).
Proof.
  intros He. pose proof matching_inside as [Hb Hl]. rewrite merge_log_term_at.
  destruct (N.eqb_spec (prev + 1 + N.of_nat j) base); [lia|].
  destruct (decide (k ≤ j)%nat); [by rewrite (merge_log_new j e)|].
  rewrite merge_log_kept by lia. rewrite <-(matching_spec l (prev + 1) es j e He) by (fold k; lia).
  unfold EntryLog_term_at. fold base. by rewrite (proj2 (N.eqb_neq _ _)).
Qed.
End merge.

(** ** The handler refines the merge *)

Section handler.
Context {S : Type} `{StorageLaws S}.
Implicit Types (n : Node S) (s : HState S).

Definition slog n : EntryLog := st_log (n_storage n).

(** No log write fails. *)
Definition infallible : Prop :=
  (∀ es (st : S), (append es st).1 = Ok tt) ∧ (∀ i (st : S), (truncate_from i st).1 = Ok tt).

Lemma wp_append es (Q : unit → HState S → Prop) s :
  (∀ st, st_log st = push_all (slog s.1) es → hard_state st = hard_state (n_storage s.1) →
    Q tt (set_storage st s.1, s.2)) →
  wp (on_storage (append es)) Q (λ _, ¬ infallible) s.
Proof.
  intros HQ. unfold wp, on_storage. pose proof (law_append_hs es (n_storage s.1)) as Hhs.
  destruct (append es (n_storage s.1)) as [[[]|e] st] eqn:E.
  - apply HQ; [by apply law_append_ok|done].
  - intros [Hi _]. specialize (Hi es (n_storage s.1)). by rewrite E in Hi.
Qed.

Lemma wp_truncate i (Q : unit → HState S → Prop) s :
  (∀ st, st_log st = (EntryLog_truncate_from (slog s.1) i).2 →
    hard_state st = hard_state (n_storage s.1) → Q tt (set_storage st s.1, s.2)) →
  wp (on_storage (truncate_from i)) Q (λ _, ¬ infallible) s.
Proof.
  intros HQ. unfold wp, on_storage. pose proof (law_truncate_hs i (n_storage s.1)) as Hhs.
  pose proof (law_truncate_log i (n_storage s.1)) as Hlog.
  destruct (truncate_from i (n_storage s.1)) as [[[]|e] st] eqn:E.
  - by apply HQ.
  - intros [_ Hi]. specialize (Hi i (n_storage s.1)). by rewrite E in Hi.
Qed.

Lemma set_storage_id n : set_storage (n_storage n) n = n.
Proof. by destruct n. Qed.

(** What the loop over the leader's entries finds and does. *)
Definition scan_result (l : EntryLog) (i : N) (es : list Entry) (r : nat * bool) (l' : EntryLog) : Prop :=
  r.1 = matching l i es ∧
  if r.2 then drop r.1 es ≠ [] ∧ l' = (EntryLog_truncate_from l (i + N.of_nat r.1)).2
  else l' = l ∧ (drop r.1 es = [] ∨ EntryLog_term_at l (i + N.of_nat r.1) = None).

Lemma wp_scan_conflict i es k s :
  wp (scan_conflict i es k)
    (λ r s', ∃ st, s' = (set_storage st s.1, s.2) ∧ (k ≤ r.1)%nat ∧
      hard_state st = hard_state (n_storage s.1) ∧
      scan_result (slog s.1) i es ((r.1 - k)%nat, r.2) (st_log st))
    (λ _, ¬ infallible) s.
Proof.
  revert i k. induction es as [|e es IH]; intros i k; cbn [scan_conflict].
  - apply wp_ret. exists (n_storage s.1). rewrite set_storage_id. destruct s. simpl.
    split_and!; [done..|]. rewrite Nat.sub_diag. split; [done|]. simpl. split; [done|by left].
  - apply wp_getn. unfold id. rewrite law_term_at. fold (slog s.1).
    destruct (EntryLog_term_at (slog s.1) i) as [t|] eqn:Et.
    + destruct (N.eqb_spec t (e_term e)) as [->|Hne].
      * eapply wp_mono; [apply IH| |done]. intros r s' (st & -> & Hk & Hhs & Hm & Hr).
        exists st. simpl in *. split_and!; [done|lia|done|]. split; simpl.
        { rewrite Et, bool_decide_true by done. lia. }
        replace (r.1 - k)%nat with (Datatypes.S (r.1 - Datatypes.S k)) by lia. cbn [drop].
        replace (i + N.of_nat (Datatypes.S (r.1 - Datatypes.S k))) with (i + 1 + N.of_nat (r.1 - Datatypes.S k)) by lia.
        done.
      * apply wp_bind, wp_truncate. intros st Hst Hhs. apply wp_ret. exists st. simpl.
        split_and!; [done|lia|done|]. rewrite Nat.sub_diag. split; simpl.
        { rewrite Et, bool_decide_false; [done|congruence]. }
        rewrite N.add_0_r. done.
    + apply wp_ret. exists (n_storage s.1). rewrite set_storage_id. destruct s. simpl in *.
      split_and!; [done..|]. rewrite Nat.sub_diag. split; simpl.
      { by rewrite Et, bool_decide_false. }
      rewrite N.add_0_r. auto.
Qed.

(** Whichever way the loop ended, appending the rest gives the merged log. *)
Lemma scan_result_merge l prev es r l' :
  EntryLog_wf l → is_Some (EntryLog_term_at l prev) →
  scan_result l (prev + 1) es r l' →
  merge_log l prev es = if bool_decide (drop r.1 es = []) then l' else push_all l' (drop r.1 es).
Proof.
  intros Hwf Hprev [Hm Hr]. unfold merge_log. rewrite <-Hm. case_bool_decide as Hd.
  - destruct r as [m []]; simpl in *; [by destruct Hr|]. by destruct Hr as [-> _].
  - destruct r as [m []]; simpl in *; [by destruct Hr as [_ ->]|].
    destruct Hr as [-> [|Hnone]]; [done|]. f_equal. subst m.
    pose proof (matching_inside l prev es Hwf Hprev) as [Hb Hl].
    unfold EntryLog_truncate_from. simpl. rewrite (proj2 (N.leb_gt _ _)) by lia.
    assert (¬ is_Some (EntryLog_term_at l (prev + 1 + N.of_nat (matching l (prev + 1) es)))) as Hn.
    { rewrite Hnone. by intros [? [=]]. }
    rewrite EntryLog_term_at_Some in Hn by done. rewrite EntryLog_last_index_len in * by done.
    unfold blen in *. rewrite take_ge by lia. by destruct l.
Qed.

Lemma reload_membership_same n :
  n_storage (reload_membership n) = n_storage n ∧ n_commit_index (reload_membership n) = n_commit_index n.
Proof. unfold reload_membership. destruct (scan_config _ _ _). by case_bool_decide. Qed.

(** The follower's commit index after a message that covers up to [last]. *)
Definition commit_after (commit leader_commit last : N) : N :=
  if commit <? leader_commit then N.min leader_commit last else commit.

(** What a follower that accepted a message of [es] after [prev] looks like. *)
Definition accepted (s s' : HState S) (from : NodeId) (prev : N) (es : list Entry) (lc sq : N) : Prop :=
  s'.2 = s.2 ++ [Send from (AppendEntriesReply (node_term s.1) true (prev + blen es) 0 None sq)] ∧
  slog s'.1 = merge_log (slog s.1) prev es ∧
  n_commit_index s'.1 = commit_after (n_commit_index s.1) lc (prev + blen es).

(** The end of the handler, once the log is merged. *)
Lemma wp_append_finish c s n1 from prev es lc sq :
  slog n1 = merge_log (slog s.1) prev es → n_commit_index n1 = n_commit_index s.1 →
  wp (mwhen c (modn reload_membership) ;;
      modn (λ n, if n_commit_index n <? lc
                 then set_commit_index (N.min lc (prev + blen es)) n else n) ;;
      emit (Send from (AppendEntriesReply (node_term s.1) true (prev + blen es) 0 None sq)))
    (λ _ s', accepted s s' from prev es lc sq) (λ _, ¬ infallible) (n1, s.2).
Proof.
  intros Hl Hc. apply wp_bind.
  assert (∀ n2, slog n2 = merge_log (slog s.1) prev es → n_commit_index n2 = n_commit_index s.1 →
    wp (modn (λ n, if n_commit_index n <? lc then set_commit_index (N.min lc (prev + blen es)) n else n) ;;
        emit (Send from (AppendEntriesReply (node_term s.1) true (prev + blen es) 0 None sq)))
      (λ _ s', accepted s s' from prev es lc sq) (λ _, ¬ infallible) (n2, s.2)) as Hlast.
  { intros n2 Hl2 Hc2. apply wp_bind, wp_modn. cbn [fst snd]. unfold wp, emit, mmodify. cbn [fst snd].
    split_and!; [done|..]; simpl; unfold commit_after; rewrite <-?Hc2; by case_match. }
  apply wp_when; intros _; [apply wp_modn|by apply Hlast].
  destruct (reload_membership_same n1) as [E1 E2]. apply Hlast; cbn [fst]; unfold slog in *; congruence.
Qed.

Lemma wp_append_after from prev pt es lc sq s :
  EntryLog_wf (slog s.1) → EntryLog_term_at (slog s.1) prev = Some pt →
  wp (append_after from prev pt es lc sq)
    (λ _ s', accepted s s' from prev es lc sq) (λ _, ¬ infallible) s.
Proof.
  intros Hwf Hpt. unfold append_after. apply wp_getn. unfold id. rewrite law_term_at. fold (slog s.1).
  rewrite Hpt, bool_decide_true by done. cbn [negb].
  apply wp_bind. eapply wp_mono; [apply wp_scan_conflict| |done].
  intros [m tr] s' (st & -> & _ & _ & Hscan). simpl in Hscan. rewrite Nat.sub_0_r in Hscan.
  apply scan_result_merge in Hscan; [|done|by eexists]. simpl in Hscan.
  apply wp_bind, wp_when; intros Hne.
  - apply negb_true_iff, bool_decide_eq_false in Hne. rewrite bool_decide_false in Hscan by done.
    apply wp_append. intros st' Hst' _.
    apply (wp_append_finish _ s (set_storage st' (set_storage st s.1))); [|done]. rewrite Hscan. unfold slog. simpl. by rewrite Hst'.
  - apply negb_false_iff, bool_decide_eq_true in Hne. rewrite bool_decide_true in Hscan by done.
    by apply (wp_append_finish _ s (set_storage st s.1)).
Qed.

(** A message whose previous entry the log does not have. *)
Lemma append_after_reject from prev pt es lc sq s :
  EntryLog_wf (slog s.1) → sm_index (el_base (slog s.1)) ≤ prev →
  EntryLog_term_at (slog s.1) prev ≠ Some pt →
  ∃ ci ct, append_after from prev pt es lc sq s =
    (Ok tt, (s.1, s.2 ++ [Send from (AppendEntriesReply (node_term s.1) false 0 ci ct sq)])) ∧
    (sm_index (el_base (slog s.1)) < prev → ci ≤ prev) ∧
    ∀ t, ct = Some t → EntryLog_term_at (slog s.1) prev = Some t.
Proof.
  intros Hwf Hb Hpt. unfold append_after, getn, mgets, mbind, M_bind, id.
  rewrite law_term_at. fold (slog s.1). rewrite bool_decide_false by done. cbn [negb].
  destruct (EntryLog_term_at (slog s.1) prev) as [t|] eqn:Et.
  - eexists _, (Some t). split; [reflexivity|]. split; [|by intros ? [= ->]].
    intros Hlt. unfold first_index_of_term.
    assert (Hin : is_Some (EntryLog_term_at (slog s.1) prev)) by (by rewrite Et).
    apply EntryLog_term_at_Some in Hin; [|done].
    destruct (list_find _ _) as [[pos i]|] eqn:Ef; simpl.
    + eapply range_find_min; [exact Ef| |rewrite <-Et; apply law_term_at].
      unfold first_index. rewrite law_snapshot_meta, law_last_index. fold (slog s.1). lia.
    + unfold first_index. rewrite law_snapshot_meta. fold (slog s.1). lia.
  - eexists _, None. split; [reflexivity|]. split; [|done].
    assert (¬ is_Some (EntryLog_term_at (slog s.1) prev)) as Hn by (rewrite Et; by intros [? [=]]).
    rewrite EntryLog_term_at_Some in Hn by done. rewrite law_last_index. fold (slog s.1). lia.
Qed.

(** The node after the handler's first line: the sender is the leader, the timer
    starts again, and the log and the commit index are as they were. *)
Definition heard_leader (from : NodeId) n : Node S :=
  reset_election_timer (set_leader_id (Some from) (set_role Follower n)).

Lemma heard_leader_same from n :
  n_storage (heard_leader from n) = n_storage n ∧
  n_commit_index (heard_leader from n) = n_commit_index n.
Proof. unfold heard_leader, reset_election_timer. by destruct (random_timeout _ _). Qed.

Lemma heard_leader_slog from n : slog (heard_leader from n) = slog n.
Proof. unfold slog. by destruct (heard_leader_same from n) as [-> _]. Qed.

Lemma heard_leader_term from n : node_term (heard_leader from n) = node_term n.
Proof. unfold node_term. by destruct (heard_leader_same from n) as [-> _]. Qed.

Lemma handle_append_entries_unfold from prev pt es lc sq s :
  let h := (heard_leader from s.1, s.2) in
  handle_append_entries from prev pt es lc sq s =
  let snapshot := el_base (slog s.1) in
  if prev <? sm_index snapshot then
    let skip := sm_index snapshot - prev in
    if blen es <=? skip
    then emit (Send from (AppendEntriesReply (node_term s.1) true (sm_index snapshot) 0 None sq)) h
    else append_after from (sm_index snapshot) (sm_term snapshot) (drop (N.to_nat skip) es) lc sq h
  else append_after from prev pt es lc sq h.
Proof.
  intros h. rewrite <-(heard_leader_slog from), <-(heard_leader_term from).
  unfold handle_append_entries, getn, modn, mmodify, mgets, mbind, M_bind, id. cbn [fst snd].
  rewrite law_snapshot_meta. fold (heard_leader from s.1). unfold slog.
  destruct (prev <? _); [|done]. by destruct (blen es <=? _).
Qed.

Lemma EntryLog_base_term l : EntryLog_term_at l (sm_index (el_base l)) = Some (sm_term (el_base l)).
Proof. unfold EntryLog_term_at. by rewrite N.eqb_refl. Qed.

(** The part of a batch a log that starts after [base] still needs. *)
Definition after_base (base prev : N) (es : list Entry) : N * list Entry :=
  if prev <? base then (base, drop (N.to_nat (base - prev)) es) else (prev, es).

(** C17: appending is exact. A follower whose log has the entry the message starts
    after ends, unless its storage fails, with exactly the merged log of the
    reference definition: everything up to that entry as it was, the leader's term
    at every index the message covers, its own later entries dropped only from the
    first disagreement on. It reports the last index the message covers, and a
    message that starts before the snapshot counts from the snapshot. *)
Theorem append_entries_exact n (from : NodeId) (prev pt : N) (es : list Entry) (lc sq : N) :
  EntryLog_wf (slog n) → contiguous (prev + 1) es →
  (sm_index (el_base (slog n)) ≤ prev → EntryLog_term_at (slog n) prev = Some pt) →
  match handle_append_entries from prev pt es lc sq (n, []) with
  | (Err _, _) => ¬ infallible
  | (Ok _, (n', acts)) =>
      let '(p, new) := after_base (sm_index (el_base (slog n))) prev es in
      acts = [Send from (AppendEntriesReply (node_term n) true (p + blen new) 0 None sq)] ∧
      slog n' = merge_log (slog n) p new ∧ EntryLog_wf (slog n') ∧
      (∀ j, j ≤ p → EntryLog_entry (slog n') j = EntryLog_entry (slog n) j) ∧
      (∀ j e, new !! j = Some e → EntryLog_term_at (slog n') (p + 1 + N.of_nat j) = Some (e_term e)) ∧
      (∀ j e, new !! j = Some e → (matching (slog n) (p + 1) new ≤ j)%nat →
        EntryLog_entry (slog n') (p + 1 + N.of_nat j) = Some e) ∧
      (matching (slog n) (p + 1) new = length new → slog n' = slog n)
  end.
Proof.
  intros Hwf Hc Hpt. rewrite handle_append_entries_unfold. cbv zeta. cbn [fst snd].
  set (h := (heard_leader from n, [] : list Action)).
  assert (∀ p t new, EntryLog_term_at (slog n) p = Some t → contiguous (p + 1) new →
    match append_after from p t new lc sq h with
    | (Err _, _) => ¬ infallible
    | (Ok _, (n', acts)) =>
        acts = [Send from (AppendEntriesReply (node_term n) true (p + blen new) 0 None sq)] ∧
        slog n' = merge_log (slog n) p new ∧ EntryLog_wf (slog n') ∧
        (∀ j, j ≤ p → EntryLog_entry (slog n') j = EntryLog_entry (slog n) j) ∧
        (∀ j e, new !! j = Some e → EntryLog_term_at (slog n') (p + 1 + N.of_nat j) = Some (e_term e)) ∧
        (∀ j e, new !! j = Some e → (matching (slog n) (p + 1) new ≤ j)%nat →
          EntryLog_entry (slog n') (p + 1 + N.of_nat j) = Some e) ∧
        (matching (slog n) (p + 1) new = length new → slog n' = slog n)
    end) as Hrun.
  { intros p t new Ht Hn. pose proof (wp_append_after from p t new lc sq h) as Hw.
    cbn [fst h] in Hw. rewrite heard_leader_slog in Hw. specialize (Hw Hwf Ht). unfold wp in Hw.
    destruct (append_after from p t new lc sq h) as [[[]|e] [n' acts]]; [|done].
    destruct Hw as (Ha & Hl & _). cbn [fst snd h] in Ha, Hl. rewrite heard_leader_slog in Hl.
    rewrite heard_leader_term in Ha. assert (is_Some (EntryLog_term_at (slog n) p)) by (by rewrite Ht).
    rewrite Hl. split_and!; [done|done|by apply merge_log_wf|..].
    - intros j Hj. apply merge_log_kept; [done..|lia].
    - intros j e. by apply merge_log_terms.
    - intros j e. by apply merge_log_new.
    - intros Hm. unfold merge_log. by rewrite Hm, drop_all, bool_decide_true. }
  unfold after_base. destruct (N.ltb_spec prev (sm_index (el_base (slog n)))) as [Hlt|Hge].
  - destruct (N.leb_spec (blen es) (sm_index (el_base (slog n)) - prev)).
    + unfold emit, mmodify. cbn [fst snd h]. rewrite heard_leader_slog.
      assert (drop (N.to_nat (sm_index (el_base (slog n)) - prev)) es = []) as ->.
      { apply drop_ge. unfold blen in *. lia. }
      change (blen (@nil Entry)) with 0. rewrite N.add_0_r. split_and!; done.
    + apply Hrun; [apply EntryLog_base_term|].
      replace (sm_index (el_base (slog n)) + 1)
        with (prev + 1 + N.of_nat (N.to_nat (sm_index (el_base (slog n)) - prev))) by lia.
      by apply contiguous_drop.
  - apply Hrun; [by apply Hpt|done].
Qed.

(** A message that does not fit is refused without touching the log: the entry it
    starts after is missing or has another term, the log and the commit index stay
    as they were, and the hint sends the leader to an index no later than the one it
    tried, naming a term only if that is the term found there. *)
Theorem append_entries_refused n (from : NodeId) (prev pt : N) (es : list Entry) (lc sq : N) :
  EntryLog_wf (slog n) → sm_index (el_base (slog n)) < prev →
  EntryLog_term_at (slog n) prev ≠ Some pt →
  ∃ n' ci ct,
    handle_append_entries from prev pt es lc sq (n, []) =
      (Ok tt, (n', [Send from (AppendEntriesReply (node_term n) false 0 ci ct sq)])) ∧
    n_storage n' = n_storage n ∧ n_commit_index n' = n_commit_index n ∧ ci ≤ prev ∧
    (∀ t, ct = Some t → EntryLog_term_at (slog n) prev = Some t).
Proof.
  intros Hwf Hb Ht. rewrite handle_append_entries_unfold. cbv zeta. cbn [fst snd].
  rewrite (proj2 (N.ltb_ge _ _)) by lia.
  destruct (append_after_reject from prev pt es lc sq (heard_leader from n, [])) as (ci & ct & E & H1 & H2);
    cbn [fst snd] in *; rewrite ?heard_leader_slog in *; [done|lia|done|].
  rewrite heard_leader_term in E. exists (heard_leader from n), ci, ct.
  destruct (heard_leader_same from n) as [-> ->]. rewrite E. split_and!; auto.
Qed.
End handler.

(** ** Concrete cases *)

Definition follower_at (l : EntryLog) : Node MemStorage :=
  node_new 2 [1; 2; 3] NodeConfig_default (mkMemStorage (mkHardState 3 None) l [] None).

Lemma MemStorage_infallible : infallible (S := MemStorage).
Proof. split; [|done]. intros es st. simpl. by rewrite MemStorage_append_eq. Qed.

Lemma append_entries_exact_witness :
  let n := follower_at (mkEntryLog (mkMeta 0 0) [mkEntry 1 1 Noop; mkEntry 1 2 Noop; mkEntry 2 3 Noop]) in
  match handle_append_entries 1 1 1 [mkEntry 1 2 Noop; mkEntry 3 3 Noop] 0 7 (n, []) with
  | (Ok _, (n', acts)) =>
      acts = [Send 1 (AppendEntriesReply 3 true 3 0 None 7)] ∧
      EntryLog_term_at (slog n') 3 = Some 3
  | (Err _, _) => False
  end.
Proof.
  intros n. pose proof (append_entries_exact n 1 1 1 [mkEntry 1 2 Noop; mkEntry 3 3 Noop] 0 7) as Hx.
  assert (slog n = mkEntryLog (mkMeta 0 0) [mkEntry 1 1 Noop; mkEntry 1 2 Noop; mkEntry 2 3 Noop]) as El
    by (by vm_compute).
  rewrite El in Hx. specialize (Hx ltac:(by apply (bool_decide_unpack _); vm_compute)).
  specialize (Hx ltac:(by apply (bool_decide_unpack _); vm_compute) ltac:(by vm_compute)).
  destruct (handle_append_entries _ _ _ _ _ _ _) as [[[]|e] [n' acts]];
    [|by destruct Hx; apply MemStorage_infallible].
  cbn [after_base] in Hx. destruct Hx as (Ha & _ & _ & _ & Ht & _). split; [exact Ha|].
  exact (Ht 1%nat _ eq_refl).
Defined.

Lemma append_entries_refused_witness :
  let n := follower_at (mkEntryLog (mkMeta 0 0) [mkEntry 1 1 Noop; mkEntry 2 2 Noop]) in
  ∃ n' ci ct,
    handle_append_entries 1 2 3 [mkEntry 3 3 Noop] 0 7 (n, []) =
      (Ok tt, (n', [Send 1 (AppendEntriesReply 3 false 0 ci ct 7)])) ∧ n_storage n' = n_storage n.
Proof.
  intros n. assert (slog n = mkEntryLog (mkMeta 0 0) [mkEntry 1 1 Noop; mkEntry 2 2 Noop]) as El
    by (by vm_compute).
  destruct (append_entries_refused n 1 2 3 [mkEntry 3 3 Noop] 0 7) as (n' & ci & ct & E & Hs & _).
  - rewrite El. by apply (bool_decide_unpack _); vm_compute.
  - rewrite El. done.
  - rewrite El. by vm_compute.
  - exists n', ci, ct. done.
Defined.
