(* ===== verification/Commit.v ===== *)
(** * What is committed, sent and handed over (src/raft/node.rs, src/raft/log.rs)

    The median rule behind [maybe_commit], the batches a leader sends, the
    entries handed to the state machine, and the timeouts. *)

From S2P Require Import Prelude.
From S2P Require Import RaftLog.
From S2P Require Import Message.
From S2P Require Import NodeState.
From S2P Require Import Node.
From S2P Require Import NodeFrame.
From S2P Require Import Quorum.
From S2P Require Import Election.
From S2P Require Import Replication.

#[local] Open Scope N_scope.

(** ** The median of the voters' progress *)

#[export] Instance N_ge_total : Total N.ge.
Proof. intros x y. lia. Qed.
#[export] Instance N_ge_trans : Transitive N.ge.
Proof. intros x y z. lia. Qed.

(** In a descending list, the element at [k] has [k] others at least as big before
    it, and nothing bigger from there on. *)
Lemma descending_ge (l : list N) (k : nat) (m : N) :
  StronglySorted N.ge l → l !! k = Some m → (k < length (filter (λ x, (m ≤ x)%N) l))%nat.
Proof.
  intros Hs. revert k. induction Hs as [|x l Hl IH Hx]; intros k Hk; [done|].
  destruct k as [|k]; simpl in Hk.
  - injection Hk as ->. rewrite filter_cons. case_decide; simpl; lia.
  - rewrite filter_cons. case_decide as Hd; simpl.
    + specialize (IH k Hk). lia.
    + rewrite list.Forall_forall in Hx. specialize (Hx m (list_elem_of_lookup_2 _ _ _ Hk)). lia.
Qed.

Lemma descending_lt (l : list N) (k : nat) (m i : N) :
  StronglySorted N.ge l → l !! k = Some m → m < i → (length (filter (λ x, (i ≤ x)%N) l) ≤ k)%nat.
Proof.
  intros Hs. revert k. induction Hs as [|x l Hl IH Hx]; intros k Hk Hi; [done|].
  destruct k as [|k]; simpl in Hk.
  - injection Hk as ->. rewrite filter_cons. case_decide; [lia|].
    destruct (filter _ l) as [|y ys] eqn:E; [done|].
    assert (y ∈ filter (λ x, i ≤ x) l) as Hy by (rewrite E; apply list_elem_of_here).
    apply list_elem_of_filter in Hy as [Hy1 Hy2]. rewrite list.Forall_forall in Hx.
    specialize (Hx y Hy2). lia.
  - specialize (IH k Hk Hi). rewrite filter_cons. case_decide; simpl; lia.
Qed.

Lemma filter_fmap_length {A} (f : A → N) (i : N) l :
  length (filter (λ x, i ≤ x) (f <$> l)) = length (filter (λ v, i ≤ f v) l).
Proof.
  induction l as [|x l IH]; [done|]. rewrite fmap_cons, !filter_cons. repeat case_decide; cbn [length]; congruence.
Qed.

Section commit.
Context {S : Type} `{StorageLaws S}.
Implicit Types (n : Node S).

(** How far a voter's log is known to reach. *)
Definition progress n (v : NodeId) : N :=
  if v =? n_id n then last_index (n_storage n) else default 0 (n_match_index n !! v).

(** The voters known to hold every entry up to [i]. *)
Definition holders n (i : N) : list NodeId := filter (λ v, i ≤ progress n v) (n_voters n).

Lemma quorum_pos n : 0 < quorum n.
Proof. unfold quorum. generalize (blen (n_voters n) / 2). intros. lia. Qed.

Lemma majority_index_lookup n :
  n_voters n ≠ [] →
  merge_sort N.ge (progress n <$> n_voters n) !! N.to_nat (quorum n - 1) = Some (majority_index n).
Proof.
  intros Hne. unfold majority_index.
  assert (is_Some (merge_sort N.ge (progress n <$> n_voters n) !! N.to_nat (quorum n - 1))) as [m Hm].
  { apply lookup_lt_is_Some_2. rewrite merge_sort_Permutation, length_fmap.
    unfold quorum, blen. destruct (n_voters n) as [|v vs]; [done|]. cbn [length].
    pose proof (N.div_lt (N.of_nat (Datatypes.S (length vs))) 2). lia. }
  fold (progress n). by rewrite Hm.
Qed.

Lemma holders_sorted n i :
  length (holders n i) = length (filter (λ x, i ≤ x) (merge_sort N.ge (progress n <$> n_voters n))).
Proof. by rewrite merge_sort_Permutation, filter_fmap_length. Qed.

(** [majority_index] is the highest index a majority holds. *)
Lemma majority_index_spec n i :
  n_voters n ≠ [] → i ≤ majority_index n ↔ quorum n ≤ blen (holders n i).
Proof.
  intros Hne. pose proof (majority_index_lookup n Hne) as Hm. unfold blen. rewrite holders_sorted.
  pose proof (StronglySorted_merge_sort N.ge (progress n <$> n_voters n)) as Hs.
  pose proof (quorum_pos n). split.
  - intros Hi. pose proof (descending_ge _ _ _ Hs Hm) as Hk.
    enough (length (filter (λ x, (majority_index n ≤ x)%N) (merge_sort N.ge (progress n <$> n_voters n)))
      ≤ length (filter (λ x, (i ≤ x)%N) (merge_sort N.ge (progress n <$> n_voters n))))%nat by lia.
    generalize (merge_sort N.ge (progress n <$> n_voters n)) as l. intros l.
    induction l as [|x l IH]; [done|]. rewrite !filter_cons. repeat case_decide; simpl; lia.
  - intros Hq. destruct (decide (i ≤ majority_index n)) as [|Hgt]; [done|exfalso].
    pose proof (descending_lt _ _ _ i Hs Hm). lia.
Qed.

(** Commitment is exact. [maybe_commit] never lowers the commit index; when it
    raises it, a majority of the voters is known to hold the entry it reaches, and
    that entry is of the leader's own term; and when the entry at the highest index
    a majority holds is of that term, everything a majority holds is committed. *)
Theorem maybe_commit_exact n :
  n_voters n ≠ [] →
  let c := n_commit_index n in
  let c' := n_commit_index (maybe_commit n) in
  c ≤ c' ∧
  (c < c' → quorum n ≤ blen (holders n c') ∧ term_at (n_storage n) c' = Some (node_term n) ∧
    quorum n > blen (holders n (c' + 1))) ∧
  (∀ i, quorum n ≤ blen (holders n i) →
    term_at (n_storage n) (majority_index n) = Some (node_term n) → i ≤ c').
Proof.
  intros Hne c c'. subst c c'. unfold maybe_commit. rewrite bool_decide_false by done.
  destruct (N.ltb_spec (n_commit_index n) (majority_index n)) as [Hlt|Hge]; simpl.
  - case_bool_decide as Ht; simpl.
    + split_and!; [lia| |].
      * intros _. split_and!; [by apply majority_index_spec|done|].
        assert (¬ quorum n ≤ blen (holders n (majority_index n + 1))); [|lia].
        rewrite <-majority_index_spec by done. lia.
      * intros i Hi _. by apply majority_index_spec.
    + split_and!; [lia|lia|done].
  - split_and!; [lia|lia|]. intros i Hi _. apply majority_index_spec in Hi; [lia|done].
Qed.

(** ** Handing entries over *)

Lemma take_committed_ok n :
  EntryLog_wf (slog n) → sm_index (el_base (slog n)) ≤ n_last_applied n →
  n_commit_index n ≤ EntryLog_last_index (slog n) →
  let '(es, n') := take_committed n in
  e_index <$> es = range_incl (n_last_applied n + 1) (n_commit_index n) ∧
  (∀ e, e ∈ es → entry (n_storage n) (e_index e) = Some e) ∧
  n_last_applied n' = N.max (n_last_applied n) (n_commit_index n) ∧
  take_committed n' = ([], n').
Proof.
  intros Hwf Hb Hl. unfold take_committed.
  destruct (N.ltb_spec (n_last_applied n) (n_commit_index n)) as [Hlt|Hge]; cycle 1.
  { split_and!; [by rewrite range_incl_empty by lia|by intros e ?%not_elem_of_nil|lia|].
    by rewrite (proj2 (N.ltb_ge _ _)). }
  split_and!; simpl; [| |lia|by rewrite N.ltb_irrefl].
  - assert (∀ l : list N, (∀ i, i ∈ l → n_last_applied n < i ≤ n_commit_index n) →
      e_index <$> omap (entry (n_storage n)) l = l) as Hmap.
    { induction l as [|i l IH]; intros Hin; [done|]. simpl.
      assert (n_last_applied n < i ≤ n_commit_index n) as Hi by (apply Hin, list_elem_of_here).
      destruct (EntryLog_entry_is_Some (slog n) i Hwf) as [e He]; [lia|].
      rewrite law_entry. fold (slog n). rewrite He. simpl. f_equal.
      - by apply (EntryLog_entry_Some (slog n)).
      - apply IH. intros j Hj. apply Hin. by apply list_elem_of_further. }
    apply Hmap. intros i Hi%elem_of_range_incl. lia.
  - intros e (i & Hi & He)%list_elem_of_omap. rewrite law_entry in He |- *. fold (slog n) in *.
    pose proof (EntryLog_entry_Some (slog n) i e Hwf He) as [-> _]. done.
Qed.

(** Committed entries are handed over once and in order: with the log covering
    the range, [take_committed] returns exactly the entries after the last one
    handed over, up to the commit index, remembers it, and returns nothing when
    asked again; it never steps back, even where the commit index has. *)
Theorem take_committed_exact n :
  EntryLog_wf (slog n) → sm_index (el_base (slog n)) ≤ n_last_applied n →
  n_commit_index n ≤ EntryLog_last_index (slog n) →
  let '(es, n') := take_committed n in
  e_index <$> es = range_incl (n_last_applied n + 1) (n_commit_index n) ∧
  (∀ e, e ∈ es → entry (n_storage n) (e_index e) = Some e) ∧
  n_last_applied n' = N.max (n_last_applied n) (n_commit_index n) ∧
  take_committed n' = ([], n').
Proof. apply take_committed_ok. Qed.

(** ** Batches *)

Definition batch_len (es : list Entry) : N := foldr (λ e t, encoded_len e + t) 0 es.

Lemma batch_len_app es es' : batch_len (es ++ es') = batch_len es + batch_len es'.
Proof. induction es as [|e es IH]; [done|]. simpl. rewrite IH. lia. Qed.

(** Where the loop of [entries_within] stops. *)
Lemma entries_within_loop_spec (st : S) max idxs avail out :
  Forall2 (λ i e, entry st i = Some e) idxs avail →
  ∃ k, entries_within_loop st max idxs (batch_len out) out = out ++ take k avail ∧
    (k ≤ length avail)%nat ∧
    (out ≠ [] → batch_len out ≤ max → batch_len (out ++ take k avail) ≤ max) ∧
    (out ≠ [] → max < batch_len out → k = 0%nat) ∧
    (out = [] → avail ≠ [] → (0 < k)%nat ∧ (k = 1%nat ∨ batch_len (take k avail) ≤ max)) ∧
    (∀ e, avail !! k = Some e → max < batch_len (out ++ take k avail) + encoded_len e).
Proof.
  intros Hall. revert out. induction Hall as [|i e idxs avail Hi Hall IH]; intros out.
  { exists 0%nat. simpl. rewrite app_nil_r. split_and!; try done; auto. }
  simpl. rewrite Hi. destruct (negb (bool_decide (out = [])) && (max <? batch_len out + encoded_len e)) eqn:Hc.
  - apply andb_true_iff in Hc as [Hne Hc]. apply negb_true_iff, bool_decide_eq_false in Hne.
    apply N.ltb_lt in Hc. exists 0%nat. simpl. rewrite app_nil_r.
    split_and!; [done|lia|auto|done|done|]. by intros e' [= <-].
  - destruct (IH (out ++ [e])) as (k & E & H1 & H2 & H3 & _ & H5). clear IH.
    rewrite batch_len_app in E, H2, H3. simpl in E, H2, H3. rewrite N.add_0_r in E, H2, H3. rewrite E.
    exists (Datatypes.S k). simpl. rewrite <-(assoc_L (++)) in *. simpl in *.
    assert (out ++ [e] ≠ []) as Hne by (by destruct out).
    specialize (H2 Hne). specialize (H3 Hne). apply andb_false_iff in Hc as [Hc|Hc].
    + apply negb_false_iff, bool_decide_eq_true in Hc as ->. simpl in *.
      split_and!; [done|lia|done|done| |done]. intros _ _. split; [lia|].
      destruct (decide (encoded_len e ≤ max)) as [Hle|Hgt]; [right; by apply H2|].
      left. rewrite H3; [done|lia].
    + apply N.ltb_ge in Hc. split_and!; [done|lia| | | |done].
      * intros _ _. by apply H2.
      * intros _ Hlt. lia.
      * intros -> _. split; [lia|]. right. by apply H2.
Qed.

(** The entries of the log from index [i] on. *)
Definition available n (i : N) : list Entry :=
  omap (entry (n_storage n)) (range_incl (N.max i (first_index (n_storage n))) (last_index (n_storage n))).

Lemma available_spec n i :
  EntryLog_wf (slog n) →
  Forall2 (λ i e, entry (n_storage n) i = Some e)
    (range_incl (N.max i (first_index (n_storage n))) (last_index (n_storage n))) (available n i).
Proof.
  intros Hwf. unfold available.
  assert (∀ l : list N, (∀ j, j ∈ l → first_index (n_storage n) ≤ j ≤ last_index (n_storage n)) →
    Forall2 (λ i e, entry (n_storage n) i = Some e) l (omap (entry (n_storage n)) l)) as Hall.
  { induction l as [|j l IH]; intros Hin; [constructor|]. simpl.
    specialize (Hin j (list_elem_of_here _ _)) as Hj.
    destruct (EntryLog_entry_is_Some (slog n) j Hwf) as [e He].
    { unfold first_index in Hj. rewrite law_snapshot_meta, law_last_index in Hj. fold (slog n) in Hj. lia. }
    rewrite law_entry. fold (slog n). rewrite He. constructor; [by rewrite law_entry|].
    apply IH. intros j' Hj'. by apply Hin, list_elem_of_further. }
  apply Hall. intros j Hj%elem_of_range_incl. lia.
Qed.

(** A batch is the longest prefix of what the peer lacks that fits. What
    [entries_within] returns is consecutive from the index asked for; it is never
    empty while there is something to send, so a peer cannot be starved by one big
    entry; it fits the budget unless it is that single entry; and one entry more
    would not have fitted. *)
Theorem entries_within_exact n (i max : N) :
  EntryLog_wf (slog n) →
  ∃ k, entries_within (n_storage n) i max = take k (available n i) ∧
    (k ≤ length (available n i))%nat ∧
    (available n i ≠ [] → (0 < k)%nat) ∧
    ((k ≤ 1)%nat ∨ batch_len (take k (available n i)) ≤ max) ∧
    (∀ e, available n i !! k = Some e → max < batch_len (take k (available n i)) + encoded_len e).
Proof.
  intros Hwf. destruct (entries_within_loop_spec (n_storage n) max _ _ [] (available_spec n i Hwf))
    as (k & E & H1 & _ & _ & H4 & H5).
  exists k. split_and!; [exact E|done| | |done].
  - intros Hne. by apply H4.
  - destruct (decide (available n i = [])) as [He|Hne]; [rewrite He in *; simpl in H1; left; lia|].
    destruct (H4 eq_refl Hne) as [_ [->|]]; [by left|by right].
Qed.
End commit.

(** ** Concrete cases *)

(** A leader of term 2 with two peers, one of which has caught up. *)
Definition leader_at : Node MemStorage :=
  set_match_index {[2 := 3; 3 := 1]} (set_role Leader (set_commit_index 1
    (node_new 1 [1; 2; 3] NodeConfig_default
      (mkMemStorage (mkHardState 2 (Some 1))
        (mkEntryLog (mkMeta 0 0) [mkEntry 1 1 Noop; mkEntry 2 2 (Data (lit "ab")); mkEntry 2 3 Noop; mkEntry 2 4 Noop])
        [] None)))).

Lemma maybe_commit_exact_witness :
  n_commit_index leader_at < n_commit_index (maybe_commit leader_at) ∧
  quorum leader_at ≤ blen (holders leader_at 3).
Proof.
  destruct (maybe_commit_exact leader_at) as (_ & H2 & _); [by vm_compute|].
  split; [by vm_compute|]. change 3 with (n_commit_index (maybe_commit leader_at)).
  apply H2. by vm_compute.
Defined.

Lemma take_committed_exact_witness :
  e_index <$> (take_committed (maybe_commit leader_at)).1 = [1; 2; 3].
Proof.
  pose proof (take_committed_exact (maybe_commit leader_at)) as Hx.
  specialize (Hx ltac:(by apply (bool_decide_unpack _); vm_compute) ltac:(by vm_compute) ltac:(by vm_compute)).
  destruct (take_committed (maybe_commit leader_at)) as [es n']. destruct Hx as [E _].
  simpl. rewrite E. by vm_compute.
Defined.

Lemma entries_within_exact_witness :
  ∃ k, entries_within (n_storage leader_at) 2 10 = take k (available leader_at 2) ∧ (0 < k)%nat.
Proof.
  destruct (entries_within_exact leader_at 2 10) as (k & E & _ & H & _).
  - by apply (bool_decide_unpack _); vm_compute.
  - exists k. split; [exact E|]. apply H. by vm_compute.
Defined.
