(* ===== verification/Monotone.v ===== *)
(** * What never goes back, and what can (src/raft/node.rs)

    Every operation of a node, failing or not, keeps its identity and settings
    and never lowers the index handed over, the read rounds or the request
    numbers; the commit index is the exception. *)

From S2P Require Import Prelude.
From S2P Require Import RaftLog.
From S2P Require Import Message.
From S2P Require Import NodeState.
From S2P Require Import Node.
From S2P Require Import NodeFrame.
From S2P Require Import Quorum.
From S2P Require Import Election.
From S2P Require Import ElectionSafety.

#[local] Open Scope N_scope.

Create HintDb grow.

Section grow.
Context {S : Type} `{Storage S}.
Implicit Types (n : Node S) (s : HState S).

Record grows n n' : Prop := {
  gr_id : n_id n' = n_id n;
  gr_config : n_config n' = n_config n;
  gr_bootstrap : n_bootstrap n' = n_bootstrap n;
  gr_applied : n_last_applied n ≤ n_last_applied n';
  gr_seq : n_seq n ≤ n_seq n';
  gr_read : n_next_read n ≤ n_next_read n';
}.

Definition Grow s s' : Prop := grows s.1 s'.1.

#[export] Instance grows_preorder : PreOrder grows.
Proof. split; [intros n; split; (done || lia)|]. intros n1 n2 n3 [] []. split; (congruence || lia). Qed.

#[export] Instance Grow_preorder : PreOrder Grow.
Proof. split; [by intros s|]. intros s1 s2 s3. unfold Grow. by etrans. Qed.

Lemma grow_modn f : (∀ n, grows n (f n)) → Steps Grow (modn f).
Proof. intros Hf [n acts]. apply Hf. Qed.

Lemma grow_emit a : Steps Grow (emit a).
Proof. by intros s. Qed.

Lemma grow_on_storage {A} (m : M S A) : Steps Grow (on_storage m).
Proof.
  intros [n acts]. unfold on_storage, Grow. simpl. destruct (m (n_storage n)) as [r st].
  split; simpl; (done || lia).
Qed.

Lemma grow_mtry {A} (m : Handler S A) : Steps Grow m → Steps Grow (mtry m).
Proof. intros Hm s. specialize (Hm s). unfold mtry. by destruct (m s). Qed.

Lemma grow_getn {A B} (f : Node S → A) (k : A → Handler S B) :
  (∀ a, Steps Grow (k a)) → Steps Grow (getn f ≫= k).
Proof. intros Hk. apply steps_bind; [apply _| |done]. apply steps_gets, _. Qed.

Lemma reset_election_timer_grows n n' : grows n n' → grows n (reset_election_timer n').
Proof.
  intros []. unfold reset_election_timer. destruct (random_timeout _ _). by split.
Qed.

Lemma reload_membership_grows n : grows n (reload_membership n).
Proof.
  unfold reload_membership. destruct (scan_config _ _ _). case_bool_decide; split; simpl; (done || lia).
Qed.

Lemma maybe_commit_grows n n' : grows n n' → grows n (maybe_commit n').
Proof. intros []. unfold maybe_commit. repeat case_match; by split. Qed.
End grow.

(** Field writes around the functions above, then a handler step by step. *)
Ltac solve_grows :=
  intros; cbv beta zeta; repeat case_match;
  repeat first [ apply reset_election_timer_grows | apply maybe_commit_grows ];
  first [ apply reload_membership_grows | reflexivity | (split; simpl; (done || lia)) ].

Ltac solve_grow :=
  repeat lazymatch goal with
  | |- ∀ _, _ => intros ?
  | |- Steps _ (mret _) => apply steps_ret, _
  | |- Steps _ (mfail _) => apply steps_fail, _
  | |- Steps _ (mlift _) => apply steps_lift, _
  | |- Steps _ (getn _ ≫= _) => apply grow_getn
  | |- Steps _ (mbind _ _) => apply steps_bind; [apply _| |]
  | |- Steps _ (mwhen _ _) => apply steps_when; [apply _|]
  | |- Steps _ (modn _) => apply grow_modn; solve_grows
  | |- Steps _ (emit _) => apply grow_emit
  | |- Steps _ (mtry _) => apply grow_mtry
  | |- Steps _ (miter _ _) => apply steps_iter; [apply _|]
  | |- Steps _ (on_storage _) => apply grow_on_storage
  | |- Steps _ (match ?x with _ => _ end) => destruct x
  | |- Steps _ _ => solve [eauto with grow]
  end.

Section grow_handlers.
Context {S : Type} `{Storage S}.
Implicit Types (n : Node S).

Lemma grow_send_append peer : Steps Grow (send_append peer).
Proof. unfold send_append. solve_grow. Qed.
#[local] Hint Resolve grow_send_append : grow.

Lemma grow_broadcast_append : Steps Grow broadcast_append.
Proof. unfold broadcast_append. solve_grow. Qed.
#[local] Hint Resolve grow_broadcast_append : grow.

Lemma grow_append_local c : Steps Grow (append_local c).
Proof. unfold append_local. solve_grow. Qed.
#[local] Hint Resolve grow_append_local : grow.

Lemma grow_become_follower t l : Steps Grow (become_follower t l).
Proof. unfold become_follower. solve_grow. Qed.

Lemma grow_become_leader : Steps Grow become_leader.
Proof. unfold become_leader. solve_grow. Qed.
#[local] Hint Resolve grow_become_follower grow_become_leader : grow.

Lemma grow_send_to_peers m : Steps Grow (send_to_peers m).
Proof. unfold send_to_peers. solve_grow. Qed.
#[local] Hint Resolve grow_send_to_peers : grow.

Lemma grow_become_candidate : Steps Grow become_candidate.
Proof. unfold become_candidate. solve_grow. Qed.
#[local] Hint Resolve grow_become_candidate : grow.

Lemma grow_become_pre_candidate : Steps Grow become_pre_candidate.
Proof. unfold become_pre_candidate. solve_grow. Qed.
#[local] Hint Resolve grow_become_pre_candidate : grow.

Lemma grow_scan_conflict index es k : Steps Grow (scan_conflict index es k).
Proof. revert index k. induction es as [|e es IH]; intros index k; simpl; solve_grow; done. Qed.
#[local] Hint Resolve grow_scan_conflict : grow.

Lemma grow_append_after from pi pt es lc sq : Steps Grow (append_after from pi pt es lc sq).
Proof. unfold append_after. solve_grow. Qed.
#[local] Hint Resolve grow_append_after : grow.

Lemma grow_open_read_round : Steps Grow open_read_round.
Proof. unfold open_read_round. solve_grow. Qed.
#[local] Hint Resolve grow_open_read_round : grow.

Lemma grow_release_reads : Steps Grow release_reads.
Proof. unfold release_reads. solve_grow. Qed.
#[local] Hint Resolve grow_release_reads : grow.

Lemma grow_heard_round from t sq : Steps Grow (heard_round from t sq).
Proof. unfold heard_round. solve_grow. Qed.
#[local] Hint Resolve grow_heard_round : grow.

Lemma grow_append_and_broadcast c : Steps Grow (append_and_broadcast c).
Proof. unfold append_and_broadcast. solve_grow. Qed.
#[local] Hint Resolve grow_append_and_broadcast : grow.

Lemma grow_propose_membership ms : Steps Grow (propose_membership_h ms).
Proof. unfold propose_membership_h. solve_grow. Qed.
#[local] Hint Resolve grow_propose_membership : grow.

Lemma grow_step_current from m : Steps Grow (step_current from m).
Proof.
  unfold step_current, handle_request_vote, handle_vote_reply, handle_append_entries, handle_append_reply,
    handle_install_snapshot, handle_snapshot_reply, handle_read_index. solve_grow.
Qed.
#[local] Hint Resolve grow_step_current : grow.

Lemma grow_step from m : Steps Grow (step_h from m).
Proof. unfold step_h, handle_pre_vote, handle_pre_vote_reply. solve_grow. Qed.

Lemma grow_tick : Steps Grow tick_h.
Proof. unfold tick_h, maybe_promote. solve_grow. Qed.

Lemma grow_propose c : Steps Grow (propose_h c).
Proof. unfold propose_h. solve_grow. Qed.

Lemma grow_propose_batch cs : Steps Grow (propose_batch_h cs).
Proof. unfold propose_batch_h. solve_grow. Qed.

Lemma run_actions_grows (m : Handler S unit) n : Steps Grow m → grows n (run_actions m n).2.
Proof.
  intros Hm. specialize (Hm (n, [])). unfold run_actions, Grow in *.
  by destruct (m (n, [])) as [[[]|e] [n' acts]].
Qed.

Lemma run_propose_grows {A} (m : Handler S (A + ProposeError)) n :
  Steps Grow m → grows n (run_propose m n).2.
Proof.
  intros Hm. specialize (Hm (n, [])). unfold run_propose, Grow in *.
  by destruct (m (n, [])) as [[[a|e]|e] [n' acts]].
Qed.
End grow_handlers.

(** C33: no operation of a node, whether it succeeds or fails half way, changes its id
    or settings or lowers the index it has handed over, its read round or its
    request numbers, and its durable term and vote only move forward: the term never
    drops, and within a term a vote once cast stays. *)
Theorem node_never_steps_back {S} `{StorageLaws S} (i : Input S) (n : Node S) :
  grows n (node_input i n).2 ∧ hs_le (hs_of n) (hs_of (node_input i n).2).
Proof.
  split; [|apply node_input_hs_le]. destruct i; simpl;
    try (apply run_actions_grows; first [apply grow_tick|apply grow_step|apply grow_getn; intros; apply steps_when;
      [apply _|first [apply grow_become_candidate|apply grow_become_pre_candidate]]]);
    try (apply run_propose_grows; auto using grow_propose, grow_propose_membership, grow_propose_batch).
  - unfold read_index. case_bool_decide.
    + pose proof (grow_open_read_round (n, [])) as Hg. unfold Grow in Hg.
      by destruct (open_read_round (n, [])) as [[[seq index]|e] [n' acts]].
    + destruct (n_leader_id n); [|done]. split; simpl; (done || lia).
  - by destruct r.
  - unfold begin_compaction. repeat case_match; by split || done.
  - unfold finish_compaction. repeat case_match; by split || done.
  - unfold take_committed. destruct (N.ltb_spec (n_last_applied n) (n_commit_index n)); [|done].
    split; simpl; (done || lia).
Qed.

(** ** The commit index can go back *)

(** Messages that carry one entry each. *)
Definition one_entry_config : NodeConfig := mkConfig 2 10 20 1 1000.

(** Node 1 leads term 1 with node 3's vote, restarts and leads term 2. Node 2 has
    nothing yet, refuses the first message of term 2, is brought up to date and
    learns that index 2 is committed. *)
Definition regress_setup : list (Sched (S := MemStorage)) :=
  let bootstrap := (λ p, mkMember p [] false) <$> [1; 2; 3] in
  let start v := SRestart v bootstrap one_entry_config in
  let e1 := mkEntry 1 1 Noop in
  let e2 := mkEntry 2 2 Noop in
  let e3 := mkEntry 2 3 (Data (lit "x")) in
  [start 1; start 2; start 3;
   SInput 1 InCampaign; SInput 3 (InStep 1 (RequestVote 1 0 0)); SInput 1 (InStep 3 (RequestVoteReply 1 true));
   SInput 3 (InStep 1 (AppendEntries 1 0 0 [e1] 0 0));
   SCrash 1; start 1; SInput 1 InCampaign; SCrash 3; start 3;
   SInput 3 (InStep 1 (RequestVote 2 1 1)); SInput 1 (InStep 3 (RequestVoteReply 2 true));
   SInput 2 (InStep 1 (AppendEntries 2 1 1 [e2] 0 0));
   SInput 1 (InStep 2 (AppendEntriesReply 2 false 0 1 None 0));
   SInput 2 (InStep 1 (AppendEntries 2 0 0 [e1] 0 0));
   SInput 1 (InStep 2 (AppendEntriesReply 2 true 1 0 None 0));
   SInput 2 (InStep 1 (AppendEntries 2 1 1 [e2] 0 0));
   SInput 1 (InStep 2 (AppendEntriesReply 2 true 2 0 None 0));
   SInput 1 InTick; SInput 1 InTick;
   SInput 2 (InStep 1 (AppendEntries 2 2 2 [] 2 0));
   SInput 1 (InPropose (lit "x"));
   SInput 3 (InStep 1 (AppendEntries 2 1 1 [e2] 2 0));
   SInput 1 (InStep 3 (AppendEntriesReply 2 true 2 0 None 0));
   SInput 3 (InStep 1 (AppendEntries 2 2 2 [e3] 2 0));
   SInput 1 (InStep 3 (AppendEntriesReply 2 true 3 0 None 0))].

(** The refusal is delivered a second time; the leader rewinds and sends its first
    entry again, with a newer commit index. *)
Definition regress_last : list (Sched (S := MemStorage)) :=
  [SInput 1 (InStep 2 (AppendEntriesReply 2 false 0 1 None 0));
   SInput 2 (InStep 1 (AppendEntries 2 0 0 [mkEntry 1 1 Noop] 3 0))].

Definition commit_of (v : NodeId) (c : Cluster (S := MemStorage)) : option N :=
  match c_procs c !! v with Some (Up n) => Some (n_commit_index n) | _ => None end.

(** The commit index is not monotone. A cluster whose network repeats one refusal
    reaches a state in which node 2 knows index 2 to be committed, and then one in
    which it believes only index 1 is: the index a message covers caps the commit
    index even below its old value. What has been handed over is not affected. *)
Theorem commit_index_can_go_back :
  ∃ c c', reachable c ∧ reachable c' ∧ crun c regress_last = Some c' ∧
    commit_of 2 c = Some 2 ∧ commit_of 2 c' = Some 1.
Proof.
  assert (match crun three_nodes regress_setup with
          | Some c => (commit_of 2 c, from_option (commit_of 2) None (crun c regress_last))
          | None => (None, None)
          end = (Some 2, Some 1)) as Hrun by by vm_compute.
  destruct (crun three_nodes regress_setup) as [c|] eqn:Hc; [|done].
  destruct (crun c regress_last) as [c'|] eqn:Hc'; [|done]. injection Hrun as H1 H2.
  assert (reachable c) as Hr by (by eapply crun_reachable; [apply three_nodes_reachable|]).
  exists c, c'. split_and!; [done|by eapply crun_reachable|done..].
Qed.
