(* ===== verification/LogSteps.v ===== *)
(** * What a node's operations do to its log (src/raft/node.rs)

    What a node's snapshot stands for is a list of entries [h] that its log no longer holds; the
    whole of its log is those and the entries it holds. An operation leaves it alone, or appends
    entries of the node's own term as its leader, or merges one message, or takes a snapshot; and
    the entries a node sends are a piece of it. *)

From S2P Require Import Prelude.
From S2P Require Import RaftLog.
From S2P Require Import Message.
From S2P Require Import NodeState.
From S2P Require Import Node.
From S2P Require Import NodeFrame.
From S2P Require Import Election.
From S2P Require Import Replication.
From S2P Require Import Commit.

#[local] Open Scope N_scope.

(** A whole log: nothing of it is in a snapshot. *)
Definition whole (l : EntryLog) : Prop := EntryLog_wf l ∧ el_base l = mkMeta 0 0.

(** The term before the entry after [prev]. *)
Definition term_before (l : list Entry) (prev : N) : N := if prev =? 0 then 0 else default 0 (e_term <$> l !! N.to_nat (prev - 1)).

(** What a message carries is a piece of [l]; or it starts past the end of [l], which no log agrees to. *)
Definition piece_of (l : list Entry) (prev pt : N) (es : list Entry) : Prop :=
  es = [] ∧ pt = 0 ∧ 0 < prev ∨ (N.to_nat prev ≤ length l)%nat ∧ es `prefix_of` drop (N.to_nat prev) l ∧ pt = term_before l prev.

(** A log with this last index and term is as good as [l]. *)
Definition fresh_as (l : list Entry) (li lt : N) : Prop :=
  term_before l (blen l) < lt ∨ term_before l (blen l) = lt ∧ blen l ≤ li.

Lemma piece_of_app l l' prev pt es : piece_of l prev pt es → piece_of (l ++ l') prev pt es.
Proof.
  intros [?|(Hp & Hes & ->)]; [by left|right]. split_and!.
  - rewrite length_app. lia.
  - rewrite drop_app_le by done. by apply prefix_app_r.
  - unfold term_before. destruct (N.eqb_spec prev 0); [done|]. by rewrite lookup_app_l by lia.
Qed.

(** A log the entries before which are [h]: the snapshot ends where [h] does. *)
Definition based (h : list Entry) (l : EntryLog) : Prop :=
  EntryLog_wf l ∧ el_base l = mkMeta (blen h) (term_before h (blen h)).

Lemma whole_based l : whole l ↔ based [] l.
Proof. done. Qed.

Lemma term_before_app h l i : i ≤ blen h → term_before (h ++ l) i = term_before h i.
Proof.
  intros Hi. unfold term_before. destruct (N.eqb_spec i 0); [done|]. unfold blen in Hi. by rewrite lookup_app_l by lia.
Qed.

Section based.
Variables (h : list Entry) (l : EntryLog).
Hypothesis Hb : based h l.

Lemma based_entry i e : EntryLog_entry l i = Some e ↔ blen h < i ∧ (h ++ el_entries l) !! N.to_nat (i - 1) = Some e.
Proof.
  destruct Hb as [Hwf Hm]. rewrite EntryLog_entry_lookup, Hm by done. cbn [sm_index]. destruct (N.leb_spec i (blen h)); [split; [done|lia]|].
  rewrite lookup_app_r by (unfold blen in *; lia). replace (N.to_nat (i - 1) - length h)%nat with (N.to_nat (i - blen h - 1)) by (unfold blen in *; lia).
  split; [by split|by intros [_ ?]].
Qed.

Lemma based_last : EntryLog_last_index l = blen (h ++ el_entries l).
Proof. destruct Hb as [Hwf Hm]. by rewrite EntryLog_last_index_len, Hm, blen_app by done. Qed.

Lemma based_term_at i t :
  EntryLog_term_at l i = Some t ↔ blen h ≤ i ∧ i ≤ blen (h ++ el_entries l) ∧ t = term_before (h ++ el_entries l) i.
Proof.
  unfold EntryLog_term_at. rewrite (proj2 Hb). cbn [sm_index sm_term]. destruct (N.eqb_spec i (blen h)) as [->|Hne].
  - rewrite term_before_app, blen_app by lia. split; [intros [= <-]; split_and!; [lia..|done]|by intros (_ & _ & ->)].
  - rewrite fmap_Some. setoid_rewrite based_entry. unfold term_before. split.
    + intros (e & [Hi He] & ->). rewrite (proj2 (N.eqb_neq _ _)), He by lia. apply lookup_lt_Some in He. unfold blen in *. split_and!; [lia..|done].
    + intros (Hi & Hl & ->). destruct (lookup_lt_is_Some_2 (h ++ el_entries l) (N.to_nat (i - 1))) as [e He]; [unfold blen in *; lia|].
      rewrite (proj2 (N.eqb_neq _ _)), He by lia. exists e. split_and!; [lia|done|done].
Qed.

(** At an index past the start it is the term of an entry. *)
Lemma based_term_entry i t : EntryLog_term_at l i = Some t → 0 < i → ∃ e, (h ++ el_entries l) !! N.to_nat (i - 1) = Some e ∧ e_term e = t.
Proof.
  intros (_ & Hl & ->)%based_term_at Hi. destruct (lookup_lt_is_Some_2 (h ++ el_entries l) (N.to_nat (i - 1))) as [e He]; [unfold blen in *; lia|].
  exists e. split; [done|]. unfold term_before. by rewrite (proj2 (N.eqb_neq _ _)), He by lia.
Qed.

Lemma based_entry_term j e : (h ++ el_entries l) !! j = Some e → blen h ≤ N.of_nat j + 1 → EntryLog_term_at l (N.of_nat j + 1) = Some (e_term e).
Proof.
  intros He Hj. apply based_term_at. pose proof (lookup_lt_Some _ _ _ He). split_and!; [done|unfold blen in *; lia|].
  unfold term_before. rewrite (proj2 (N.eqb_neq _ _)) by lia. replace (N.to_nat (N.of_nat j + 1 - 1)) with j by lia. by rewrite He.
Qed.
End based.

Section log_steps.
Context {St : Type} `{StorageLaws St}.
Implicit Types (n : Node St) (s : HState St).

(** The entries a node holds, and all of its log. *)
Definition log_of n : list Entry := el_entries (slog n).

Variable h : list Entry.

Definition full n : list Entry := h ++ log_of n.

Definition action_ok n (a : Action) : Prop :=
  match a with
  | Send _ (AppendEntries t prev pt es _ _) => t = node_term n ∧ piece_of (full n) prev pt es
  | Send _ (InstallSnapshot t li lt _ _ _ _ _) => t = node_term n ∧ li = blen h ∧ lt = term_before h (blen h)
  | Send _ (RequestVote _ _ _) => False
  | _ => True
  end.

(** Not a message of a leader to its followers; a candidate asks for votes with the log it has. *)
Definition plain n (a : Action) : Prop :=
  match a with
  | Send _ (AppendEntries _ _ _ _ _ _) | Send _ (InstallSnapshot _ _ _ _ _ _ _ _) => False
  | Send _ (RequestVote t li lt) =>
      n_role n = Candidate ∧ t = node_term n ∧ li = blen (full n) ∧ lt = term_before (full n) (blen (full n))
  | _ => True
  end.

(** Not a request for votes either. *)
Definition answer (a : Action) : Prop :=
  match a with Send _ (AppendEntries _ _ _ _ _ _) | Send _ (InstallSnapshot _ _ _ _ _ _ _ _) | Send _ (RequestVote _ _ _) => False | _ => True end.

Lemma answer_plain n a : answer a → plain n a.
Proof. by destruct a as [to []]. Qed.

Lemma answer_ok n a : answer a → action_ok n a.
Proof. by destruct a as [to []]. Qed.

Lemma plain_lead n a : n_role n = Leader → plain n a → action_ok n a.
Proof. intros Hl. destruct a as [to []]; try done. simpl. by rewrite Hl; intros [? _]. Qed.

(** The node goes on in its term and role, and its log grows by entries of that term. *)
Record extends n n' : Prop := {
  ext_id : n_id n' = n_id n;
  ext_hs : hs_of n' = hs_of n;
  ext_role : n_role n' = n_role n;
  ext_based : based h (slog n');
  ext_log : ∃ es, full n' = full n ++ es ∧ Forall (λ e, e_term e = node_term n) es;
}.

Lemma ext_term n n' : extends n n' → node_term n' = node_term n.
Proof. intros []. by apply node_term_hs. Qed.

Definition Leading s s' : Prop :=
  based h (slog s.1) → extends s.1 s'.1 ∧ ∃ out, s'.2 = s.2 ++ out ∧ Forall (action_ok s'.1) out.

Lemma extends_refl n : based h (slog n) → extends n n.
Proof. intros Hw. split; try done. exists []. by rewrite app_nil_r. Qed.

Lemma action_ok_extends n n' a : extends n n' → action_ok n a → action_ok n' a.
Proof.
  intros HE. pose proof (ext_term _ _ HE) as Ht. destruct HE as [_ _ _ _ (es & El & _)].
  destruct a as [to []]; try done; simpl; [|by intros (-> & -> & ->)]. intros [-> Hp]. split; [done|].
  rewrite El. by apply piece_of_app.
Qed.

#[export] Instance Leading_preorder : PreOrder Leading.
Proof.
  split.
  - intros s Hw. split; [by apply extends_refl|]. exists []. by rewrite app_nil_r.
  - intros s1 s2 s3 H12 H23 Hw. destruct (H12 Hw) as [E12 (o1 & A1 & F1)]. destruct (H23 (ext_based _ _ E12)) as [E23 (o2 & A2 & F2)].
    split.
    + pose proof (ext_term _ _ E12) as T2. destruct E12 as [? ? ? ? (e1 & L1 & O1)], E23 as [? ? ? ? (e2 & L2 & O2)]. split; try congruence.
      exists (e1 ++ e2). rewrite L2, L1, (assoc_L (++)). split; [done|]. apply Forall_app_2; [done|].
      eapply list.Forall_impl; [exact O2|]. simpl. congruence.
    + exists (o1 ++ o2). rewrite A2, A1, (assoc_L (++)). split; [done|]. apply Forall_app_2; [|done].
      eapply list.Forall_impl; [exact F1|]. intros a. by apply action_ok_extends.
Qed.

(** Field updates that touch none of this. *)
Definition same_core n n' : Prop :=
  n_id n' = n_id n ∧ n_role n' = n_role n ∧ n_storage n' = n_storage n.

Lemma extends_same n n' : same_core n n' → based h (slog n) → extends n n'.
Proof.
  intros (E1 & E2 & E3) Hw. assert (slog n' = slog n) as El by (unfold slog; by rewrite E3).
  split; [done|unfold hs_of; by rewrite E3|done|by rewrite El|]. exists []. unfold full, log_of. by rewrite El, app_nil_r.
Qed.

Lemma lead_modn f : (∀ n, same_core n (f n)) → Steps Leading (modn f).
Proof.
  intros Hf s Hw. split; [by apply extends_same|]. exists []. by rewrite app_nil_r.
Qed.

Lemma lead_emit (a : Action) : (∀ n, based h (slog n) → action_ok n a) → Steps Leading (emit a).
Proof. intros Ha s Hw. split; [by apply extends_refl|]. exists [a]. split; [done|]. constructor; [by apply Ha|done]. Qed.

Lemma lead_getn {A B} (f : Node St → A) (k : A → Handler St B) : (∀ a, Steps Leading (k a)) → Steps Leading (getn f ≫= k).
Proof. intros Hk. apply steps_bind; [apply _|apply steps_gets, _|done]. Qed.

Lemma lead_mtry {A} (m : Handler St A) : Steps Leading m → Steps Leading (mtry m).
Proof. intros Hm s. specialize (Hm s). unfold mtry. by destruct (m s). Qed.

Lemma same_maybe_commit n : same_core n (maybe_commit n).
Proof. unfold maybe_commit. repeat case_match; done. Qed.

Lemma same_reload n : same_core n (reload_membership n).
Proof. unfold reload_membership. destruct (scan_config _ _ _). case_bool_decide; done. Qed.

Lemma same_core_trans n1 n2 n3 : same_core n1 n2 → same_core n2 n3 → same_core n1 n3.
Proof. intros (?&?&?) (?&?&?). split_and!; congruence. Qed.

(** ** What a leader sends *)

Lemma full_entry n i e : based h (slog n) → entry (n_storage n) i = Some e ↔ blen h < i ∧ full n !! N.to_nat (i - 1) = Some e.
Proof. intros Hb. rewrite law_entry. by apply based_entry. Qed.

Lemma full_last n : based h (slog n) → last_index (n_storage n) = blen (full n).
Proof. intros Hb. rewrite law_last_index. by apply based_last. Qed.

Lemma full_term_before n prev :
  based h (slog n) → blen h ≤ prev → default 0 (term_at (n_storage n) prev) = term_before (full n) prev.
Proof.
  intros Hb Hp. rewrite law_term_at. fold (slog n). destruct (EntryLog_term_at (slog n) prev) as [t|] eqn:E.
  - by apply (based_term_at h) in E as (_ & _ & ->).
  - simpl. unfold term_before. destruct (N.eqb_spec prev 0); [done|]. rewrite lookup_ge_None_2; [done|].
    destruct (decide (prev ≤ blen (full n))) as [Hle|Hgt]; [|unfold blen in *; lia].
    pose proof (proj2 (based_term_at h (slog n) Hb prev _) (conj Hp (conj Hle eq_refl))). congruence.
Qed.

Lemma full_ge n : blen h ≤ blen (full n).
Proof. unfold full. rewrite blen_app. lia. Qed.

Lemma full_available n i : based h (slog n) → blen h < i → available n i = drop (N.to_nat (i - 1)) (full n).
Proof.
  intros Hb Hi. pose proof (available_spec n i (proj1 Hb)) as Ha. unfold first_index in Ha.
  rewrite law_snapshot_meta in Ha. fold (slog n) in Ha. rewrite (proj2 Hb), full_last in Ha by done. cbn [sm_index] in Ha.
  replace (N.max i (blen h + 1)) with i in Ha by lia.
  apply list_eq. intros k. rewrite lookup_drop. destruct (decide (i + N.of_nat k ≤ blen (full n))) as [Hle|Hgt].
  - destruct (Forall2_lookup_l _ _ _ k _ Ha (range_incl_lookup _ _ _ Hle)) as (e & -> & He).
    apply (full_entry n _ _ Hb) in He as [_ He]. rewrite <-He. f_equal. lia.
  - assert (length (available n i) ≤ k)%nat as Hk.
    { rewrite <-(Forall2_length Ha). unfold range_incl. rewrite length_fmap, length_seq. unfold blen in *. lia. }
    rewrite (lookup_ge_None_2 _ _ Hk). symmetry. apply lookup_ge_None_2. unfold blen in *. lia.
Qed.

(** Where a leader's entries start. *)
Lemma full_piece n prev es :
  based h (slog n) → blen h ≤ prev → es `prefix_of` drop (N.to_nat prev) (full n) →
  piece_of (full n) prev (default 0 (term_at (n_storage n) prev)) es.
Proof.
  intros Hb Hp Hes. rewrite full_term_before by done. destruct (decide (N.to_nat prev ≤ length (full n))%nat) as [Hle|Hgt]; [by right|].
  left. rewrite drop_ge in Hes by lia. apply prefix_nil_inv in Hes as ->. split_and!; [done| |lia]. unfold term_before.
  rewrite (proj2 (N.eqb_neq _ _)) by lia. by rewrite lookup_ge_None_2 by lia.
Qed.

Lemma append_message_ok n peer a : based h (slog n) → append_message_for n peer = Ok a → action_ok n a.
Proof.
  intros Hb. unfold append_message_for. cbv zeta. rewrite law_snapshot_meta. fold (slog n). rewrite (proj2 Hb). cbn [sm_index sm_term].
  set (next := default _ _). destruct (N.leb_spec next (blen h)) as [|Hn].
  - destruct (read_snapshot _ _ _); [|done]. simpl. by intros [= <-].
  - intros [= <-]. simpl. split; [done|]. destruct (entries_within_exact n next (max_append_bytes (n_config n)) (proj1 Hb)) as (k & -> & _).
    rewrite full_available by done. apply full_piece; [done|lia|apply prefix_take].
Qed.

Lemma lead_send_append peer : Steps Leading (send_append peer).
Proof.
  intros s Hw. unfold send_append, getn, mgets, mbind, M_bind, id, mlift. destruct (append_message_for s.1 peer) as [a|e] eqn:E.
  - split; [by apply extends_refl|]. exists [a]. split; [done|]. constructor; [by eapply append_message_ok|done].
  - split; [by apply extends_refl|]. exists []. by rewrite app_nil_r.
Qed.

(** ** What a leader does to its log *)

Lemma lead_bind_at {A B} (m : Handler St A) (f : A → Handler St B) s :
  Leading s (m s).2 → (∀ a, Steps Leading (f a)) → Leading s ((m ≫= f) s).2.
Proof.
  intros Hm Hf. unfold mbind, M_bind. destruct (m s) as [[a|e] s1]; [|done]. etrans; [exact Hm|]. apply Hf.
Qed.

Lemma lead_append es s :
  contiguous (last_index (n_storage s.1) + 1) es → Forall (λ e, e_term e = node_term s.1) es →
  Leading s (on_storage (append es) s).2.
Proof.
  intros Hc Ht Hw. unfold on_storage. pose proof (law_append_hs es (n_storage s.1)) as Hhs.
  destruct (append es (n_storage s.1)) as [[[]|e] st] eqn:E; simpl in *; (split; [|exists []; by rewrite app_nil_r]).
  - apply law_append_ok in E. fold (slog s.1) in E. destruct Hw as [Hwf Hb]. split; [done|unfold hs_of; simpl; by rewrite Hhs|done| |].
    + unfold based, slog. simpl. rewrite E, push_all_base. split; [|done]. apply push_all_wf; [done|].
      rewrite law_last_index in Hc. done.
    + exists es. unfold full, log_of, slog. simpl. rewrite E, push_all_entries. by rewrite (assoc_L (++)).
  - apply law_append_err in E. split; [done|unfold hs_of; simpl; by rewrite Hhs|done|unfold slog; simpl; by rewrite E|].
    exists []. unfold full, log_of, slog. simpl. by rewrite E, app_nil_r.
Qed.

Lemma lead_broadcast : Steps Leading (broadcast_append (S := St)).
Proof.
  unfold broadcast_append. apply lead_getn. intros n. apply steps_bind; [apply _|apply steps_when; [apply _|]|intros _].
  - apply lead_modn, same_reload.
  - apply lead_getn. intros rs. apply steps_iter; [apply _|]. apply lead_send_append.
Qed.

Lemma lead_getn_at {A B} (f : Node St → A) (k : A → Handler St B) s :
  Leading s (k (f s.1) s).2 → Leading s ((getn f ≫= k) s).2.
Proof. done. Qed.

Lemma lead_ret_at {A} (a : A) s : Leading s ((mret a : Handler St A) s).2.
Proof. change (Leading s s). reflexivity. Qed.

Lemma lead_append_local c : Steps Leading (append_local (S := St) c).
Proof.
  intros s. unfold append_local. apply lead_getn_at. unfold id. apply lead_bind_at.
  - apply lead_append; [|by constructor]. intros k e [-> <-]%list_lookup_singleton_Some. simpl. lia.
  - intros _. apply steps_bind; [apply _|apply steps_when; [apply _|]; apply lead_modn, same_reload|intros _].
    apply steps_bind; [apply _|apply lead_modn, same_maybe_commit|intros _]. apply steps_ret, _.
Qed.

Lemma lead_append_and_broadcast c : Steps Leading (append_and_broadcast (S := St) c).
Proof.
  unfold append_and_broadcast. apply steps_bind; [apply _|apply lead_mtry, lead_append_local|intros [i|e]; [|apply steps_ret, _]].
  apply steps_bind; [apply _|apply lead_mtry, lead_broadcast|intros [u|e]; apply steps_ret, _].
Qed.

Lemma lead_propose_membership ms : Steps Leading (propose_membership_h (S := St) ms).
Proof.
  unfold propose_membership_h. apply lead_getn. intros n. destruct (membership_refusal n ms); [apply steps_ret, _|].
  apply lead_append_and_broadcast.
Qed.

Lemma lead_propose c : Steps Leading (propose_h (S := St) c).
Proof.
  unfold propose_h. apply lead_getn. intros n. destruct (negb _); [apply steps_ret, _|]. destruct (_ <? _); [apply steps_ret, _|].
  apply lead_append_and_broadcast.
Qed.

Lemma batch_entries_terms term next max cs es answers :
  batch_entries term next max cs = (es, answers) → contiguous next es ∧ Forall (λ e, e_term e = term) es.
Proof.
  revert next es answers. induction cs as [|c cs IH]; intros next es answers; cbn [batch_entries].
  { intros [= <- _]. by split; [intros k e|]. }
  destruct (_ <? _).
  - destruct (batch_entries term next max cs) as [es1 as1] eqn:E. intros [= <- _]. by eapply IH.
  - destruct (batch_entries term (next + 1) max cs) as [es1 as1] eqn:E. intros [= <- _]. destruct (IH _ _ _ E) as [H1 H2].
    split; [|by constructor]. intros [|k] e; simpl; [intros [= <-]; simpl; lia|]. intros ->%H1. lia.
Qed.

Lemma lead_propose_batch cs : Steps Leading (propose_batch_h (S := St) cs).
Proof.
  intros s. unfold propose_batch_h. apply lead_getn_at. unfold id. destruct (negb _); [apply lead_ret_at|].
  destruct (batch_entries _ _ _ cs) as [es answers] eqn:E. destruct (batch_entries_terms _ _ _ _ _ _ E) as [Hc Ht].
  case_bool_decide; [apply lead_ret_at|]. apply lead_bind_at; [|intros [u|e]; apply steps_ret, _].
  unfold mtry. match goal with |- context [let '(_, _) := ?m s in _] => assert (Leading s (m s).2) as Hm; [|by destruct (m s)] end.
  apply lead_bind_at; [by apply lead_append|]. intros _. apply steps_bind; [apply _|apply lead_modn, same_maybe_commit|intros _].
  apply lead_broadcast.
Qed.

Lemma lead_maybe_promote : Steps Leading (maybe_promote (S := St)).
Proof.
  unfold maybe_promote. apply lead_getn. intros n. destruct (_ || _); [apply steps_ret, _|].
  destruct (promoted n) as [ms|]; [|apply steps_ret, _].
  apply steps_bind; [apply _|apply lead_propose_membership|intros [i|[]]; (apply steps_ret, _) || apply steps_fail, _].
Qed.

Lemma lead_read_round : Steps Leading (open_read_round (S := St)).
Proof.
  intros s. unfold open_read_round. apply lead_bind_at; [apply lead_modn; by intros n|]. intros _ s1 Hw. apply lead_getn_at; [|done].
  unfold id. apply lead_bind_at; [|intros _; apply steps_ret, _].
  assert (∀ ps, Leading s1 (miter (λ peer, let next := default (last_index (n_storage s1.1) + 1) (n_next_index s1.1 !! peer) in
    if next <=? sm_index (snapshot_meta (n_storage s1.1)) then mret tt
    else let prev_log_index := next - 1 in
      emit (Send peer (AppendEntries (node_term s1.1) prev_log_index (default 0 (term_at (n_storage s1.1) prev_log_index)) []
        (n_commit_index s1.1) (n_seq s1.1)))) ps s1).2) as Hi; [|apply Hi].
  assert (∀ ps s2, s2.1 = s1.1 → Leading s1 s2 → Leading s1 (miter (λ peer, let next := default (last_index (n_storage s1.1) + 1) (n_next_index s1.1 !! peer) in
    if next <=? sm_index (snapshot_meta (n_storage s1.1)) then mret tt
    else let prev_log_index := next - 1 in
      emit (Send peer (AppendEntries (node_term s1.1) prev_log_index (default 0 (term_at (n_storage s1.1) prev_log_index)) []
        (n_commit_index s1.1) (n_seq s1.1)))) ps s2).2) as Hi; [|intros ps; by apply Hi].
  induction ps as [|p ps IH]; intros s2 E Hl; [done|]. cbn [miter]. unfold mbind, M_bind. cbv zeta.
  destruct (N.leb_spec (default (last_index (n_storage s1.1) + 1) (n_next_index s1.1 !! p)) (sm_index (snapshot_meta (n_storage s1.1)))) as [_|Hle]; cbn; [by apply IH|].
  apply IH; [done|]. etrans; [exact Hl|]. intros Hw2. split; [by apply extends_refl|].
  eexists [_]. split; [done|]. constructor; [|done]. simpl. rewrite E in *. split; [done|]. apply full_piece; [done| |apply prefix_nil].
  rewrite law_snapshot_meta in Hle. fold (slog s1.1) in Hle. rewrite (proj2 Hw2) in Hle. cbn [sm_index] in Hle. lia.
Qed.

Lemma lead_emit_plain (a : Action) : answer a → Steps Leading (emit a).
Proof. intros Ha. apply lead_emit. intros n _. by apply answer_ok. Qed.

Lemma lead_release_reads : Steps Leading (release_reads (S := St)).
Proof.
  unfold release_reads. apply lead_getn. intros n. case_bool_decide; [apply steps_ret, _|].
  apply steps_bind; [apply _|by apply lead_modn|intros _]. apply steps_iter; [apply _|]. intros r. apply lead_getn. intros n'.
  destruct (round_confirmed _ _); [by apply lead_emit_plain|by apply lead_modn].
Qed.

Lemma lead_heard_round from term seq : Steps Leading (heard_round (S := St) from term seq).
Proof.
  unfold heard_round. apply lead_getn. intros n. destruct (_ || _); [apply steps_ret, _|].
  apply steps_bind; [apply _|by apply lead_modn|intros _]. apply lead_getn. intros n'.
  apply steps_bind; [apply _|apply steps_when; [apply _|]|intros _; apply steps_ret, _].
  apply steps_bind; [apply _|by apply lead_modn|intros _]. apply lead_release_reads.
Qed.

Lemma lead_append_reply from ok mi ci ct : Steps Leading (handle_append_reply (S := St) from ok mi ci ct).
Proof.
  unfold handle_append_reply. apply lead_getn. intros n. destruct ok.
  - destruct (_ <? _); [|apply steps_ret, _]. apply steps_bind; [apply _| |intros _].
    + apply lead_modn. intros m. eapply same_core_trans; [|apply same_maybe_commit]. done.
    + apply lead_getn. intros m. apply steps_when; [apply _|]. apply lead_send_append.
  - apply steps_bind; [apply _|by apply lead_modn|intros _]. apply lead_send_append.
Qed.

Lemma lead_snapshot_reply from li no fin : Steps Leading (handle_snapshot_reply (S := St) from li no fin).
Proof.
  unfold handle_snapshot_reply. apply lead_getn. intros n. destruct fin.
  - apply steps_bind; [apply _|by apply lead_modn|intros _]. apply steps_bind; [apply _|apply steps_when; [apply _|]|intros _].
    + apply lead_modn. intros m. eapply same_core_trans; [|apply same_maybe_commit]. done.
    + apply lead_getn. intros m. apply steps_when; [apply _|]. apply lead_send_append.
  - apply steps_bind; [apply _|by apply lead_modn|intros _]. apply lead_send_append.
Qed.

Lemma lead_read_index from id_ : Steps Leading (handle_read_index (S := St) from id_).
Proof.
  unfold handle_read_index. apply lead_getn. intros n. destruct (negb _); [by apply lead_emit_plain|].
  apply steps_bind; [apply _|apply lead_read_round|intros [seq index]]. by apply lead_modn.
Qed.

(** ** Taking a snapshot, in pieces *)

(** A sink from the same sender for the same snapshot is open. *)
Definition continuing n (from : NodeId) (meta : SnapshotMeta) : bool :=
  match n_incoming n with Some (sender, sink) => (sender =? from) && bool_decide (sink_meta sink = meta) | None => false end.

(** The whole of the snapshot is there. *)
Definition take_snapshot (from : NodeId) (li term seq held : N) (sink : Sink) : Handler St unit :=
  modn (set_incoming None) ;;
  on_storage (install_snapshot sink) ;;
  modn reload_membership ;;
  modn (λ n, set_last_applied (N.max (n_last_applied n) li) (set_commit_index (N.max (n_commit_index n) li) n)) ;;
  emit (Send from (InstallSnapshotReply term li held true seq)).

(** A piece of it is there, for the sink that is open. *)
Definition take_chunk (from : NodeId) (li term offset : N) (data : bytes) (fin : bool) (seq : N) : Handler St unit :=
  n ← getn id;
  match n_incoming n with
  | None => mret tt
  | Some (sender, sink) =>
      let held := sink_written sink in
      if negb (offset =? held) then emit (Send from (InstallSnapshotReply term li held false seq))
      else
        let '(r, sink) := sink_write_all data sink in
        modn (set_incoming (Some (sender, sink))) ;;
        mlift r ;;
        let held := sink_written sink in
        if negb fin then emit (Send from (InstallSnapshotReply term li held false seq))
        else take_snapshot from li term seq held sink
  end.

Lemma handle_install_unfold from meta offset data fin seq members :
  handle_install_snapshot (S := St) from meta offset data fin seq members =
  (modn (heard_leader from) ;;
  n ← getn id;
  if sm_index meta <=? n_commit_index n then
    modn (set_incoming None) ;; emit (Send from (InstallSnapshotReply (node_term n) (sm_index meta) 0 true seq))
  else if negb (continuing n from meta) && negb (offset =? 0) then
    emit (Send from (InstallSnapshotReply (node_term n) (sm_index meta) 0 false seq))
  else
    mwhen (negb (continuing n from meta))
      (sink ← on_storage (new_snapshot meta members); modn (set_incoming (Some (from, sink)))) ;;
    take_chunk from (sm_index meta) (node_term n) offset data fin seq).
Proof. reflexivity. Qed.

(** ** What an operation may do *)

Section post.
Variable n0 : Node St.
Variable msg : option (NodeId * Message).

(** How the role and the term may have moved. *)
Definition role_moved n : Prop :=
  node_term n0 < node_term n ∨
  node_term n0 = node_term n ∧ (n_role n = Candidate → n_role n0 = Candidate) ∧
    (n_role n = Leader → n_role n0 = Leader ∨ n_role n0 = Candidate).

(** The node has led in the term it is in now. *)
Definition led n : Prop := n_role n = Leader ∨ n_role n0 = Leader ∧ node_term n0 = node_term n.

(** What a message brings a node that has the entries up to the end of [h] in a snapshot. *)
Definition effective (prev pt : N) (es : list Entry) (prev' pt' : N) (es' : list Entry) : Prop :=
  blen h ≤ prev ∧ prev' = prev ∧ pt' = pt ∧ es' = es ∨
  prev < blen h ∧ prev' = blen h ∧ pt' = term_before h (blen h) ∧ es' = drop (N.to_nat (blen h - prev)) es.

(** The log and the messages, once an operation is over. *)
Definition log_moved s : Prop :=
  (∃ es, full s.1 = full n0 ++ es ∧ Forall (λ e, e_term e = node_term s.1) es ∧ based h (slog s.1) ∧
    (led s.1 ∧ Forall (action_ok s.1) s.2 ∨ es = [] ∧ Forall (plain s.1) s.2)) ∨
  (∃ from prev pt es lc sq prev' pt' es', msg = Some (from, AppendEntries (node_term s.1) prev pt es lc sq) ∧
    effective prev pt es prev' pt' es' ∧
    EntryLog_term_at (slog n0) prev' = Some pt' ∧ slog s.1 = merge_log (slog n0) prev' es' ∧
    n_role s.1 = Follower ∧ Forall answer s.2) ∨
  (∃ from li lt off data sq ms, msg = Some (from, InstallSnapshot (node_term s.1) li lt off data true sq ms) ∧
    slog s.1 = (EntryLog_compact (slog n0) (mkMeta li lt)).2 ∧ n_role s.1 = Follower ∧ Forall answer s.2).

(** The vote it holds is the one it held, or its own in a new term, or a candidate's whose log is as good. *)
Definition vote_moved n : Prop :=
  ∀ cand, hs_voted_for (hs_of n) = Some cand →
    hs_of n = hs_of n0 ∨ cand = n_id n0 ∧ node_term n0 < node_term n ∨
    ∃ li lt, msg = Some (cand, RequestVote (node_term n) li lt) ∧ fresh_as (full n0) li lt.

Record LPost s : Prop := {
  lp_id : n_id s.1 = n_id n0;
  lp_role : role_moved s.1;
  lp_log : log_moved s;
  lp_vote : vote_moved s.1;
}.

(** Before anything has been sent or written to the log. *)
Record LPre s : Prop := {
  lpre_id : n_id s.1 = n_id n0;
  lpre_term : node_term n0 ≤ node_term s.1;
  lpre_log : slog s.1 = slog n0;
  lpre_sent : s.2 = [];
  lpre_vote : vote_moved s.1;
}.

Hypothesis Hbased : based h (slog n0).

Lemma LPre_post s out : LPre s → role_moved s.1 → Forall (plain s.1) out → LPost (s.1, out).
Proof.
  intros [P1 P2 P3 P4 P5] Hr Hp. split; [done|done| |done]. left. exists []. unfold full, log_of. cbn [fst snd]. rewrite P3, app_nil_r.
  split_and!; [done|done|done|by right].
Qed.

Lemma vote_moved_hs n n' : hs_of n' = hs_of n → vote_moved n → vote_moved n'.
Proof. intros E Hv cand. unfold vote_moved in Hv. rewrite E, (node_term_hs _ _ E). apply Hv. Qed.

(** A leader's messages so far. *)
Lemma lead_sent s es :
  n_role s.1 = Leader → led s.1 ∧ Forall (action_ok s.1) s.2 ∨ es = ([] : list Entry) ∧ Forall (plain s.1) s.2 → Forall (action_ok s.1) s.2.
Proof. intros Hl [[_ Ha]|[_ Hp]]; [done|]. eapply list.Forall_impl; [exact Hp|]. intros a. by apply plain_lead. Qed.

Lemma log_moved_lead s :
  log_moved s → n_role s.1 = Leader →
  ∃ es, full s.1 = full n0 ++ es ∧ Forall (λ e, e_term e = node_term s.1) es ∧ based h (slog s.1) ∧
    (led s.1 ∧ Forall (action_ok s.1) s.2 ∨ es = [] ∧ Forall (plain s.1) s.2).
Proof. intros [?|[(? & ? & ? & ? & ? & ? & ? & ? & ? & _ & _ & _ & _ & Hf & _)|(? & ? & ? & ? & ? & ? & ? & _ & _ & Hf & _)]] Hl; [done|congruence..]. Qed.

Lemma LPost_leading s s' : LPost s → n_role s.1 = Leader → Leading s s' → LPost s'.
Proof.
  intros [P1 P2 P3 P4] Hl HL. apply (log_moved_lead s) in P3 as (es & El & Ht & Hw & Hor); [|done].
  pose proof (lead_sent s es Hl Hor) as Ha. destruct (HL Hw) as [HE (out & Eo & Fo)]. pose proof (ext_term _ _ HE) as E2.
  pose proof HE as [E1 Eh E3 E4 (es' & El' & Ht')]. split; [congruence| | |by eapply vote_moved_hs].
  - unfold role_moved in *. by rewrite E2, E3.
  - left. exists (es ++ es'). rewrite El', El, (assoc_L (++)), E2. split_and!; [done|by apply Forall_app_2|done|].
    left. split; [left; congruence|]. rewrite Eo. apply Forall_app_2; [|done]. eapply list.Forall_impl; [exact Ha|].
    intros a. by apply action_ok_extends.
Qed.

Lemma wp_leading {A} (m : Handler St A) s : Steps Leading m → LPost s → n_role s.1 = Leader → wp m (λ _, LPost) (λ _, True) s.
Proof.
  intros Hm HP Hl. specialize (Hm s). unfold wp. destruct (m s) as [[a|e] s']; [|done]. by eapply LPost_leading.
Qed.

Lemma wp_save_log hs (Q : unit → HState St → Prop) s :
  (∀ st, hard_state st = hs → st_log st = slog s.1 → Q tt (set_storage st s.1, s.2)) →
  wp (on_storage (save_hard_state hs)) Q (λ _, True) s.
Proof.
  intros HQ. unfold wp, on_storage. pose proof (law_save_log hs (n_storage s.1)) as Hl.
  destruct (save_hard_state hs (n_storage s.1)) as [[[]|e] st] eqn:E; [|done]. apply HQ; [by eapply law_save_ok|done].
Qed.

Lemma reset_timer_core n : same_core n (reset_election_timer n).
Proof. destruct (reset_election_timer_same n) as (E1 & _ & E3 & E4 & _). done. Qed.

Lemma LPre_core s n : LPre s → n_id n = n_id s.1 → n_storage n = n_storage s.1 → LPre (n, s.2).
Proof.
  intros [P1 P2 P3 P4 P5] E1 E2. split; simpl; [congruence|unfold node_term in *; by rewrite E2|unfold slog in *; by rewrite E2|done|].
  eapply vote_moved_hs; [|exact P5]. unfold hs_of. by rewrite E2.
Qed.

Lemma send_to_peers_eq m s :
  send_to_peers m s = (Ok tt, (s.1, s.2 ++ ((λ p, Send p m) <$> n_peers s.1))).
Proof.
  unfold send_to_peers, getn, mgets, mbind, M_bind. generalize (n_peers s.1) as ps. intros ps.
  destruct s as [n acts]. cbn [fst snd]. revert acts. induction ps as [|p ps IH]; intros acts; [by rewrite app_nil_r|].
  cbn [miter]. unfold mbind, M_bind, emit at 1, mmodify. cbn [fst snd]. rewrite IH, <-(assoc_L (++)). done.
Qed.

Lemma wp_send_to_peers m (Q : unit → HState St → Prop) E s :
  Q tt (s.1, s.2 ++ ((λ p, Send p m) <$> n_peers s.1)) → wp (send_to_peers m) Q E s.
Proof. unfold wp. by rewrite send_to_peers_eq. Qed.

Lemma plain_to_all n m (ps : list NodeId) : (∀ p, plain n (Send p m)) → Forall (plain n) ((λ p, Send p m) <$> ps).
Proof. intros Hm. apply list.Forall_forall. by intros a (p & -> & _)%list_elem_of_fmap. Qed.

Lemma wp_become_leader_log s :
  LPre s → node_term n0 < node_term s.1 ∨ node_term n0 = node_term s.1 ∧ n_role n0 = Candidate →
  wp become_leader (λ _, LPost) (λ _, True) s.
Proof.
  intros HP Hc. unfold become_leader. apply wp_bind, wp_modn. apply wp_leading; [| |done].
  - apply steps_bind; [apply _|by apply lead_modn|intros _]. apply steps_bind; [apply _|apply lead_append_local|intros i].
    apply steps_bind; [apply _|by apply lead_modn|intros _]. apply lead_broadcast.
  - pose proof (lpre_sent _ HP) as Es. rewrite Es.
    match goal with |- LPost (?n, _) => apply (LPre_post (n, s.2) []) end; [by apply LPre_core| |done].
    destruct Hc as [Hc|[Hc Hr]]; [by left|right]. split_and!; [done|done|by right].
Qed.

(** The end of [become_candidate], in the new term. *)
Lemma wp_stand term s :
  LPre s → n_role s.1 = Candidate → node_term n0 < node_term s.1 → term = node_term s.1 →
  wp (n ← getn id;
      if has_quorum n (n_votes n) then become_leader
      else send_to_peers (RequestVote term (last_index (n_storage n)) (last_term (n_storage n))))
    (λ _, LPost) (λ _, True) s.
Proof.
  intros HP Hr Ht ->. apply wp_getn. unfold id. case_match.
  - apply wp_become_leader_log; [done|by left].
  - assert (based h (slog s.1)) as Hw by by rewrite (lpre_log s HP).
    apply wp_send_to_peers. rewrite (lpre_sent _ HP). apply LPre_post; [done|by left|]. apply plain_to_all. intros p.
    cbn [plain]. unfold last_term. by rewrite full_last, full_term_before by (done || apply full_ge).
Qed.

(** A node that has saved a new term, its log as it was. *)
Lemma LPre_new_term s n st term vote (acts : list Action) :
  LPre s → hard_state st = mkHardState term vote → st_log st = slog s.1 → node_term s.1 ≤ term →
  n_id n = n_id s.1 → n_storage n = st → acts = s.2 →
  (∀ cand, vote = Some cand → cand = n_id n0 ∧ node_term n0 < term ∨
    ∃ li lt, msg = Some (cand, RequestVote term li lt) ∧ fresh_as (full n0) li lt) →
  LPre (n, acts) ∧ node_term n = term.
Proof.
  intros [P1 P2 P3 P4 P5] Hst Hl Ht E1 E2 -> Hv. assert (node_term n = term) as E by (unfold node_term; by rewrite E2, Hst).
  split; [|done]. split; simpl; [congruence|lia|unfold slog in *; congruence|done|].
  intros cand Hc. rewrite E. right. apply Hv. unfold hs_of in Hc. by rewrite E2, Hst in Hc.
Qed.

Lemma wp_become_candidate_log s : LPre s → wp become_candidate (λ _, LPost) (λ _, True) s.
Proof.
  intros HP. unfold become_candidate. apply wp_getn. unfold id. apply wp_bind, wp_modn, wp_bind, wp_save_log.
  intros st Hst Hlog. apply wp_bind, wp_modn.
  match goal with |- context [reset_election_timer ?n] => destruct (reset_timer_core n) as (E1 & E2 & E3); set (n1 := reset_election_timer n) in * end.
  clearbody n1. destruct (LPre_new_term s n1 st (node_term s.1 + 1) (Some (n_id s.1)) s.2 HP Hst Hlog) as [HP1 Ht1]; [lia|done|done|done| |].
  { intros cand [= <-]. left. split; [apply HP|]. pose proof (lpre_term _ HP). lia. }
  apply wp_stand; [done|done| |symmetry; exact Ht1]. pose proof (lpre_term _ HP). simpl. lia.
Qed.

(** The end of [become_pre_candidate]. *)
Lemma wp_poll s :
  LPre s → n_role s.1 = PreCandidate →
  wp (n ← getn id;
      if has_quorum n (n_votes n) then become_candidate
      else send_to_peers (PreVote (node_term n + 1) (last_index (n_storage n)) (last_term (n_storage n))))
    (λ _, LPost) (λ _, True) s.
Proof.
  intros HP Hr. apply wp_getn. unfold id. case_match; [by apply wp_become_candidate_log|].
  apply wp_send_to_peers. rewrite (lpre_sent _ HP). apply LPre_post; [done| |by apply plain_to_all].
  pose proof (lpre_term _ HP) as Ht. unfold role_moved. rewrite Hr.
  destruct (decide (node_term n0 = node_term s.1)); [right|left; lia]. done.
Qed.

Lemma wp_become_pre_candidate_log s : LPre s → wp become_pre_candidate (λ _, LPost) (λ _, True) s.
Proof.
  intros HP. unfold become_pre_candidate. apply wp_bind, wp_modn. set (n1 := reset_election_timer _).
  assert (LPre (n1, s.2) ∧ n_role n1 = PreCandidate) as [HP1 Hr].
  { unfold n1. match goal with |- context [reset_election_timer ?n] => destruct (reset_timer_core n) as (E1 & E2 & E3) end.
    split; [by apply LPre_core|by rewrite E2]. }
  clearbody n1. by apply wp_poll.
Qed.

(** The end of [become_follower]. *)
Lemma wp_follow (Q : unit → HState St → Prop) term s :
  (∀ s', LPre s' → n_role s'.1 = Follower → node_term s'.1 = term → Q tt s') →
  LPre s → n_role s.1 = Follower → node_term s.1 = term → wp (modn reset_election_timer) Q (λ _, True) s.
Proof.
  intros HQ HP Hr Ht. apply wp_modn. destruct (reset_timer_core s.1) as (E1 & E2 & E3).
  apply HQ; cbn [fst]; [by apply LPre_core|congruence|unfold node_term in *; congruence].
Qed.

Lemma wp_enter_term_log (Q : unit → HState St → Prop) term s :
  (∀ s', LPre s' → n_role s'.1 = Follower → node_term s'.1 = term → Q tt s') →
  LPre s → n_role s.1 = Follower → node_term s.1 ≤ term →
  wp (mwhen (negb (term =? node_term s.1)) (on_storage (save_hard_state (mkHardState term None))) ;;
      modn reset_election_timer) Q (λ _, True) s.
Proof.
  intros HQ HP Hr Ht. apply wp_bind, wp_when; intros Hc.
  - apply wp_save_log. intros st Hst Hlog.
    destruct (LPre_new_term s (set_storage st s.1) st term None s.2 HP Hst Hlog) as [HP1 Ht1]; [done..|].
    by apply (wp_follow Q term).
  - apply negb_false_iff, N.eqb_eq in Hc. by apply (wp_follow Q term).
Qed.

Lemma wp_become_follower_log (Q : unit → HState St → Prop) term leader s :
  LPre s → node_term s.1 ≤ term →
  (∀ s', LPre s' → n_role s'.1 = Follower → node_term s'.1 = term → Q tt s') →
  wp (become_follower term leader) Q (λ _, True) s.
Proof.
  intros HP Ht HQ. unfold become_follower. apply wp_getn, wp_bind, wp_modn.
  match goal with |- wp _ _ _ (?n, _) => apply (wp_enter_term_log Q term (n, s.2)) end; [done|by apply LPre_core|done|done].
Qed.

(** Where a handler may start: the node as it was, or a follower of a later term. *)
Definition LStart s : Prop :=
  LPre s ∧ (n_role s.1 = Follower ∨ n_role s.1 = n_role n0 ∧ node_term s.1 = node_term n0).

Lemma LStart_init : LStart (n0, []).
Proof. split; [split; try done; intros cand _; by left|by right]. Qed.

Lemma follower_moved n : node_term n0 ≤ node_term n → n_role n = Follower → role_moved n.
Proof.
  intros Ht Hr. unfold role_moved. rewrite Hr. destruct (decide (node_term n0 = node_term n)); [right|left; lia]. done.
Qed.

Lemma LStart_moved s : LStart s → role_moved s.1.
Proof.
  intros [HP [Hr|[Hr Ht]]]; [apply follower_moved; [apply HP|done]|]. right. rewrite Hr, Ht. auto.
Qed.

(** An answer and nothing else. *)
Lemma LStart_plain s out : LStart s → Forall answer out → LPost (s.1, out).
Proof.
  intros HS Hp. apply LPre_post; [apply HS|by apply LStart_moved|]. eapply list.Forall_impl; [exact Hp|]. apply answer_plain.
Qed.

Lemma LStart_post s : LStart s → LPost s.
Proof.
  intros HS. pose proof (LStart_plain s [] HS ltac:(done)) as HP. destruct HS as [HP1 _]. apply lpre_sent in HP1.
  destruct s as [n acts]. simpl in *. by subst.
Qed.

Lemma wp_answer a s : LStart s → answer a → wp (emit a) (λ _, LPost) (λ _, True) s.
Proof.
  intros HS Ha. unfold wp, emit, mmodify. rewrite (lpre_sent s (proj1 HS)). apply LStart_plain; [done|by constructor].
Qed.

Lemma LStart_core s n : LStart s → same_core s.1 n → LStart (n, s.2).
Proof.
  intros [HP Hr] (E1 & E2 & E3). split; [by apply LPre_core|]. simpl. rewrite E2. unfold node_term. rewrite E3. done.
Qed.

Lemma wp_lead_start {A} (m : Handler St A) s :
  Steps Leading m → LStart s → n_role s.1 = Leader → wp m (λ _, LPost) (λ _, True) s.
Proof. intros Hm HS Hl. apply wp_leading; [done|by apply LStart_post|done]. Qed.
(** ** The handlers *)

Lemma up_to_date_log n li lt : based h (slog n) → is_up_to_date (n_storage n) li lt = true → fresh_as (full n) li lt.
Proof.
  intros Hw. unfold is_up_to_date, last_term, fresh_as. rewrite full_last, full_term_before by (done || apply full_ge).
  rewrite orb_true_iff, andb_true_iff, N.ltb_lt, N.eqb_eq, N.leb_le. intros [?|[-> ?]]; auto.
Qed.

Lemma wp_request_vote_log from li lt s :
  msg = Some (from, RequestVote (node_term s.1) li lt) → LStart s → wp (handle_request_vote from li lt) (λ _, LPost) (λ _, True) s.
Proof.
  intros Hm HS. unfold handle_request_vote. apply wp_getn. cbv beta zeta delta [id].
  apply wp_bind, wp_when; intros Hg; [|apply wp_getn; by apply wp_answer].
  apply wp_bind, wp_save_log. intros st Hst Hlog. apply wp_modn, wp_getn. cbn [fst snd].
  destruct (reset_timer_core (set_storage st s.1)) as (E1 & E2 & E3). set (n1 := reset_election_timer _) in *. clearbody n1.
  destruct HS as [HP Hr].
  destruct (LPre_new_term s n1 st (node_term s.1) (Some from) s.2 HP Hst Hlog) as [HP1 Ht1]; [done..| |].
  { intros cand [= <-]. right. exists li, lt. split; [done|]. apply andb_true_iff in Hg as [_ Hg].
    assert (slog s.1 = slog n0) as El by apply HP. apply up_to_date_log in Hg; [|by rewrite El]. unfold full, log_of in *. by rewrite El in Hg. }
  apply (wp_answer _ (n1, s.2)); [|done]. split; [done|]. cbn [fst]. rewrite E2, Ht1. done.
Qed.

Lemma wp_vote_reply_log from term granted s :
  LStart s → wp (handle_vote_reply from term granted) (λ _, LPost) (λ _, True) s.
Proof.
  intros HS. unfold handle_vote_reply. apply wp_getn. unfold id. case_match eqn:Hc; [by apply wp_ret, LStart_post|].
  apply orb_false_iff in Hc as [Hr _]. apply negb_false_iff, bool_decide_eq_true in Hr.
  destruct granted; [|by apply wp_ret, LStart_post]. apply wp_bind, wp_modn, wp_getn.
  assert (LStart (set_votes ({[from]} ∪ n_votes s.1) s.1, s.2)) as HS1 by by apply LStart_core.
  apply wp_when; intros _; [|by apply LStart_post].
  apply wp_become_leader_log; [apply HS1|]. right. cbn [fst]. destruct HS as [_ [Hf|[Hr0 Ht0]]]; [congruence|].
  split; [symmetry; exact Ht0|congruence].
Qed.

Lemma wp_pre_vote_reply_log from term granted s :
  LStart s → wp (handle_pre_vote_reply from term granted) (λ _, LPost) (λ _, True) s.
Proof.
  intros HS. unfold handle_pre_vote_reply. apply wp_getn. unfold id. destruct granted.
  - case_match; [|by apply wp_ret, LStart_post]. apply wp_bind, wp_modn, wp_getn.
    assert (LStart (set_votes ({[from]} ∪ n_votes s.1) s.1, s.2)) as HS1 by by apply LStart_core.
    apply wp_when; intros _; [apply wp_become_candidate_log, HS1|by apply LStart_post].
  - apply wp_when; intros Hc; [|by apply LStart_post]. apply N.ltb_lt in Hc.
    apply wp_become_follower_log; [apply HS|lia|]. intros s' HP Hr _. apply LStart_post. split; [done|by left].
Qed.

(** A reply only a leader listens to. *)
Lemma wp_heard_log from term seq (k : Handler St unit) s :
  Steps Leading k → LStart s →
  wp (heard ← heard_round from term seq; mwhen heard k) (λ _, LPost) (λ _, True) s.
Proof.
  intros Hk HS. destruct (decide (n_role s.1 = Leader)) as [Hl|Hl].
  - apply wp_lead_start; [|done|done]. apply steps_bind; [apply _|apply lead_heard_round|intros b].
    by apply steps_when; [apply _|].
  - apply wp_bind. unfold heard_round. apply wp_getn. unfold id. rewrite bool_decide_false by done. cbn [negb orb].
    apply wp_ret, wp_when; [done|]. intros _. by apply LStart_post.
Qed.

Lemma wp_read_index_log from id_ s : LStart s → wp (handle_read_index from id_) (λ _, LPost) (λ _, True) s.
Proof.
  intros HS. destruct (decide (n_role s.1 = Leader)) as [Hl|Hl]; [apply wp_lead_start; [apply lead_read_index|done..]|].
  unfold handle_read_index. apply wp_getn. unfold id. rewrite bool_decide_false by done. by apply wp_answer.
Qed.

(** Whoever hears a leader follows it. *)
Lemma LStart_heard from s : LStart s → LStart (heard_leader from s.1, s.2) ∧ n_role (heard_leader from s.1) = Follower.
Proof.
  intros [HP _]. unfold heard_leader.
  match goal with |- context [reset_election_timer ?n] => destruct (reset_timer_core n) as (E1 & E2 & E3) end.
  split; [split; [by apply LPre_core|by left]|done].
Qed.

(** A storage with the same log and hard state. *)
Lemma LStart_storage s st : LStart s → hard_state st = hs_of s.1 → st_log st = slog s.1 → LStart (set_storage st s.1, s.2).
Proof.
  intros [[P1 P2 P3 P4 P5] Hr] Eh El. assert (node_term (set_storage st s.1) = node_term s.1) as Et by by apply node_term_hs.
  split; [split; simpl; [done|lia|by rewrite <-P3|done|by eapply vote_moved_hs]|]. cbn [fst]. by rewrite Et.
Qed.

Lemma wp_new_snapshot_log meta ms (Q : Sink → HState St → Prop) s :
  LStart s → (∀ k st, sink_meta k = meta → LStart (set_storage st s.1, s.2) → node_term (set_storage st s.1) = node_term s.1 →
    Q k (set_storage st s.1, s.2)) →
  wp (on_storage (new_snapshot meta ms)) Q (λ _, True) s.
Proof.
  intros HS HQ. unfold wp, on_storage. pose proof (law_new_snapshot_hs meta ms (n_storage s.1)) as Hh. pose proof (law_new_snapshot_log meta ms (n_storage s.1)) as Hl.
  destruct (new_snapshot meta ms (n_storage s.1)) as [[k|e] st] eqn:E; [|done]. apply HQ; [by eapply law_new_snapshot_sink|by apply LStart_storage|by apply node_term_hs].
Qed.

(** The last piece of a snapshot. *)
Lemma wp_install_last from li lt off data sq ms held k s :
  msg = Some (from, InstallSnapshot (node_term s.1) li lt off data true sq ms) → LStart s → n_role s.1 = Follower → sink_meta k = mkMeta li lt →
  wp (take_snapshot from li (node_term s.1) sq held k) (λ _, LPost) (λ _, True) s.
Proof.
  intros Hm HS Hr Hk. apply wp_bind, wp_modn, wp_bind. unfold wp at 1, on_storage. cbn [n_storage fst snd set_incoming].
  pose proof (law_install_hs k (n_storage s.1)) as Hh. destruct (install_snapshot k (n_storage s.1)) as [[[]|e] st] eqn:E; [|done]. apply law_install_ok in E. rewrite Hk in E.
  apply wp_bind, wp_modn, wp_bind, wp_modn. cbn [fst snd].
  match goal with |- context [reload_membership ?n] => destruct (same_reload n) as (E1 & E2 & E3); set (n1 := reload_membership n) in * end. clearbody n1.
  set (n2 := set_last_applied _ _). assert (same_core n1 n2) as (F1 & F2 & F3) by done. clearbody n2. rewrite E3 in F3. rewrite E2 in F2. rewrite E1 in F1. cbn in F1, F2, F3.
  assert (hs_of n2 = hs_of s.1) as Ehs by (unfold hs_of; by rewrite F3).
  assert (node_term n2 = node_term s.1) as Et by by apply node_term_hs.
  unfold wp, emit, mmodify. cbn [fst snd]. destruct HS as [[P1 P2 P3 P4 P5] _]. split; cbn [fst snd].
  - by rewrite F1.
  - apply follower_moved; [by rewrite Et|congruence].
  - right. right. exists from, li, lt, off, data, sq, ms. cbn [fst snd]. rewrite Et, P4. split_and!; [done| |congruence|by constructor].
    unfold slog at 1. rewrite F3, E. fold (slog s.1). by rewrite P3.
  - by eapply vote_moved_hs.
Qed.

Lemma wp_take_chunk_log from li lt off data fin sq ms s :
  msg = Some (from, InstallSnapshot (node_term s.1) li lt off data fin sq ms) → LStart s → n_role s.1 = Follower →
  (∀ x k, n_incoming s.1 = Some (x, k) → sink_meta k = mkMeta li lt) →
  wp (take_chunk from li (node_term s.1) off data fin sq) (λ _, LPost) (λ _, True) s.
Proof.
  intros Hm HS Hr Hin. unfold take_chunk. apply wp_getn. unfold id. destruct (n_incoming s.1) as [[x k]|] eqn:Ei; [|by apply wp_ret, LStart_post].
  cbv zeta. destruct (negb (off =? _)); [by apply wp_answer|]. pose proof (law_sink_write_meta data k) as Hmeta. destruct (sink_write_all data k) as [r k'].
  cbn [snd] in Hmeta. rewrite (Hin _ _ eq_refl) in Hmeta. apply wp_bind, wp_modn, wp_bind.
  assert (LStart (set_incoming (Some (x, k')) s.1, s.2)) as HS3 by by apply LStart_core.
  destruct r as [[]|e]; [|done]. unfold wp at 1. cbn [mlift]. destruct fin; cbn [negb]; [|by apply (wp_answer _ (_, s.2))].
  by eapply (wp_install_last from li lt off data sq ms _ k' (set_incoming (Some (x, k')) s.1, s.2)).
Qed.

Lemma wp_install_log from li lt off data fin sq ms s :
  msg = Some (from, InstallSnapshot (node_term s.1) li lt off data fin sq ms) → LStart s →
  wp (handle_install_snapshot from (mkMeta li lt) off data fin sq ms) (λ _, LPost) (λ _, True) s.
Proof.
  intros Hm HS. rewrite handle_install_unfold. apply wp_bind, wp_modn, wp_getn. unfold id. cbn [fst snd sm_index].
  destruct (LStart_heard from s HS) as [HS1 Hf]. rewrite <-(heard_leader_term from s.1) in Hm.
  generalize dependent (heard_leader from s.1). intros n1 Hm HS1 Hf. cbn [fst].
  destruct (li <=? _); [apply wp_bind, wp_modn; apply (wp_answer _ (set_incoming None n1, s.2)); [by apply (LStart_core _ _ HS1)|done]|].
  destruct (negb (continuing _ _ _) && _); [by apply (wp_answer _ (n1, s.2))|]. apply wp_bind, wp_when; intros Hc.
  - apply wp_bind, (wp_new_snapshot_log _ _ _ (n1, s.2)); [done|]. intros k st Hk HS2 Et. apply wp_modn. cbn [fst snd] in *. rewrite <-Et in *.
    apply (wp_take_chunk_log from li lt off data fin sq ms (set_incoming (Some (from, k)) (set_storage st n1), s.2)); [done|by apply (LStart_core _ _ HS2)|done|by intros x k0 [= _ <-]].
  - apply (wp_take_chunk_log from li lt off data fin sq ms (n1, s.2)); [done..|]. cbn [fst]. intros x k Hi. unfold continuing in Hc. rewrite Hi in Hc.
    apply negb_false_iff, andb_true_iff in Hc as [_ Hc]. by apply bool_decide_eq_true in Hc.
Qed.

Lemma wp_append_log from prev pt es lc sq s :
  msg = Some (from, AppendEntries (node_term s.1) prev pt es lc sq) → LStart s →
  wp (handle_append_entries from prev pt es lc sq) (λ _, LPost) (λ _, True) s.
Proof.
  intros Hm HS. destruct (LStart_heard from s HS) as [HS1 Hf]. unfold wp. rewrite handle_append_entries_unfold. cbv zeta.
  rewrite (lpre_log s (proj1 HS)), (proj2 Hbased). cbn [sm_index sm_term].
  set (s1 := (heard_leader from s.1, s.2)) in *.
  assert (slog s1.1 = slog n0) as El by (unfold s1; cbn [fst]; rewrite heard_leader_slog; apply HS).
  assert (node_term s1.1 = node_term s.1) as Et by apply heard_leader_term.
  assert (∀ prev' pt' es', effective prev pt es prev' pt' es' → blen h ≤ prev' →
    match append_after from prev' pt' es' lc sq s1 with (Ok _, s') => LPost s' | _ => True end) as Hafter.
  { intros prev' pt' es' Heff Hle. destruct (decide (EntryLog_term_at (slog n0) prev' = Some pt')) as [Hpt|Hpt]; cycle 1.
    { destruct (append_after_reject from prev' pt' es' lc sq s1) as (ci & ct & E & _); [rewrite El; apply Hbased|rewrite El, (proj2 Hbased); simpl; lia|by rewrite El|].
      rewrite E, (lpre_sent s1 (proj1 HS1)). apply LStart_plain; [done|by constructor]. }
    pose proof (wp_append_after from prev' pt' es' lc sq s1) as Hw. rewrite El in Hw. specialize (Hw (proj1 Hbased) Hpt). unfold wp in Hw.
    pose proof (steps_append_after from prev' pt' es' lc sq s1) as Hfr.
    destruct (append_after from prev' pt' es' lc sq s1) as [[[]|e] s']; [|done]. destruct Hw as (Ha & Hl & _).
    destruct Hfr as ([F1 _ _ F4 _ _] & Hro & _). cbn [snd] in F1, F4, Hro.
    assert (n_role s'.1 = Follower) as Hr by (destruct Hro; cbn [fst s1] in *; congruence).
    assert (node_term s'.1 = node_term s.1) as Et' by (rewrite <-Et; by apply node_term_hs).
    split.
    - rewrite F1. apply HS1.
    - apply follower_moved; [rewrite Et'; apply HS|done].
    - right. left. exists from, prev, pt, es, lc, sq, prev', pt', es'. rewrite Et', El in *. split_and!; [done..|].
      rewrite Ha, (lpre_sent s1 (proj1 HS1)). by constructor.
    - eapply vote_moved_hs; [exact F4|]. apply HS1. }
  destruct (N.ltb_spec prev (blen h)); [|apply Hafter; [left; done|done]].
  destruct (blen es <=? _); [|apply Hafter; [right; done|lia]].
  unfold emit, mmodify. rewrite (lpre_sent s1 (proj1 HS1)). apply LStart_plain; [done|by constructor].
Qed.

Definition current (m : Message) n : Prop :=
  match m with AppendEntries t _ _ _ _ _ | RequestVote t _ _ | InstallSnapshot t _ _ _ _ _ _ _ => t = node_term n | _ => True end.

Lemma wp_step_current_log from m s :
  msg = Some (from, m) → current m s.1 → LStart s →
  wp (step_current from m) (λ _, LPost) (λ _, True) s.
Proof.
  intros Hm Hc HS. destruct m; cbn [step_current current] in *; subst; lazymatch goal with
  | |- wp (mret _) _ _ _ => by apply wp_ret, LStart_post
  | |- wp (handle_request_vote _ _ _) _ _ _ => by apply wp_request_vote_log
  | |- wp (handle_vote_reply _ _ _) _ _ _ => by apply wp_vote_reply_log
  | |- wp (handle_append_entries _ _ _ _ _ _) _ _ _ => by apply wp_append_log
  | |- wp (handle_install_snapshot _ _ _ _ _ _ _) _ _ _ => by apply wp_install_log
  | |- wp (handle_read_index _ _) _ _ _ => by apply wp_read_index_log
  | |- wp (mbind _ _) _ _ _ => apply wp_heard_log; [apply lead_append_reply || apply lead_snapshot_reply|done]
  | |- wp (modn _) _ _ _ => apply wp_modn, LStart_post, (LStart_core _ _ HS); by repeat case_match
  end.
Qed.

Lemma wp_settle_log from m s :
  msg = Some (from, m) → LStart s →
  wp (if node_term s.1 <? msg_term m then become_follower (msg_term m) None ;; step_current from m
      else if (msg_term m <? node_term s.1) && is_request m then emit (reply_stale s.1 from m)
      else step_current from m) (λ _, LPost) (λ _, True) s.
Proof.
  intros Hm HS. case_match eqn:Hlt; [|case_match eqn:Hst].
  - apply N.ltb_lt in Hlt. apply wp_bind, wp_become_follower_log; [apply HS|lia|]. intros s' HP Hr Ht.
    apply wp_step_current_log; [done| |split; [done|by left]]. by destruct m.
  - apply wp_answer; [done|]. by destruct m.
  - apply wp_step_current_log; [done..| |done]. apply N.ltb_ge in Hlt. destruct m; try done; simpl in *;
      rewrite andb_true_r in Hst; apply N.ltb_ge in Hst; lia.
Qed.

Lemma wp_step_log from m s :
  msg = Some (from, m) → LStart s → wp (step_h from m) (λ _, LPost) (λ _, True) s.
Proof.
  intros Hm HS. unfold step_h. apply wp_getn. unfold id. case_match; [apply wp_answer; [done|by destruct m]|].
  pose proof (wp_settle_log from m s Hm HS) as Hrest. destruct m; try exact Hrest.
  - unfold handle_pre_vote. apply wp_getn. by apply wp_answer.
  - by apply wp_pre_vote_reply_log.
Qed.

(** A leader that was one when the operation began. *)
Definition LLead s : Prop := LPost s ∧ n_role s.1 = Leader ∧ n_role n0 = Leader ∧ node_term n0 = node_term s.1.

Lemma LLead_leading s s' : LLead s → Leading s s' → LLead s'.
Proof.
  intros (HP & Hl & Hl0 & Ht) HL. assert (based h (slog s.1)) as Hw.
  { by destruct (log_moved_lead s (lp_log s HP) Hl) as (es & _ & _ & Hw & _). }
  destruct (HL Hw) as [HE _]. pose proof (ext_term _ _ HE). destruct HE as [_ _ E3 _ _].
  split_and!; [by eapply LPost_leading|congruence..].
Qed.

Lemma wp_llead {A B} (m : Handler St A) (k : A → Handler St B) (Q : B → HState St → Prop) s :
  Steps Leading m → LLead s → (∀ a s', LLead s' → wp (k a) Q (λ _, True) s') → wp (m ≫= k) Q (λ _, True) s.
Proof.
  intros Hm HS Hk. apply wp_bind. specialize (Hm s). unfold wp at 1. destruct (m s) as [[a|e] s']; [|done].
  apply Hk. by eapply LLead_leading.
Qed.

Lemma wp_lead_step {A} (m : Handler St A) s : Steps Leading m → LLead s → wp m (λ _, LPost) (λ _, True) s.
Proof. intros Hm (HP & Hl & _). by apply wp_leading. Qed.

(** Stepping down within the term, whatever was sent before. *)
Lemma wp_step_down_log s :
  LLead s → wp (become_follower (node_term s.1) None) (λ _, LPost) (λ _, True) s.
Proof.
  intros ([P1 P2 P3 P4] & Hl & Hl0 & Ht0). unfold become_follower. apply wp_getn, wp_bind, wp_modn.
  cbv beta zeta delta [id]. change (hs_term (hard_state (n_storage s.1))) with (node_term s.1).
  rewrite N.eqb_refl. apply wp_bind, wp_ret, wp_modn. cbn [fst snd].
  match goal with |- context [reset_election_timer ?n] =>
    destruct (reset_timer_core n) as (E1 & E2 & E3); set (n1 := reset_election_timer n) in * end. clearbody n1.
  assert (node_term n1 = node_term s.1) as Et by (unfold node_term; by rewrite E3).
  assert (slog n1 = slog s.1) as El by (unfold slog; by rewrite E3).
  split; cbn [fst snd]; [by rewrite E1|apply follower_moved; [lia|done]| |eapply vote_moved_hs; [|exact P4]; unfold hs_of; by rewrite E3].
  apply (log_moved_lead s) in P3 as (es & L1 & L2 & L3 & L4); [|done]. apply lead_sent in L4; [|done].
  left. exists es. unfold full, log_of, led in *. cbn [fst snd]. rewrite El, Et. split_and!; try done. left. split; [by right|].
  eapply list.Forall_impl; [exact L4|]. intros [to []]; try done; simpl; unfold full, log_of; by rewrite Et, ?El.
Qed.

Lemma wp_tick_leader_log s :
  LLead s →
  wp (modn (λ n, set_heartbeat_elapsed (n_heartbeat_elapsed n + 1) n) ;;
      n ← getn id;
      mwhen (heartbeat_ticks (n_config n) <=? n_heartbeat_elapsed n)
        (modn (set_heartbeat_elapsed 0) ;; broadcast_append) ;;
      maybe_promote ;;
      modn (λ n, set_election_elapsed (n_election_elapsed n + 1) n) ;;
      n ← getn id;
      mwhen (n_election_timeout n <=? n_election_elapsed n)
        (let reachable := has_quorum n ({[n_id n]} ∪ n_active n) in
         modn (set_active ∅) ;;
         if negb reachable then become_follower (node_term n) None
         else modn (set_election_elapsed 0))) (λ _, LPost) (λ _, True) s.
Proof.
  intros HL. apply wp_llead; [by apply lead_modn|done|]. intros _ s1 H1. apply wp_getn.
  apply wp_llead; [|done|intros _ s2 H2].
  { apply steps_when; [apply _|]. apply steps_bind; [apply _|by apply lead_modn|intros _]. apply lead_broadcast. }
  apply wp_llead; [apply lead_maybe_promote|done|]. intros _ s3 H3.
  apply wp_llead; [by apply lead_modn|done|]. intros _ s4 H4. apply wp_getn. apply wp_when; [|intros _; apply H4]. intros _.
  cbv zeta. apply wp_llead; [by apply lead_modn|done|]. intros _ s5 H5. case_match.
  - replace (node_term (id s4.1)) with (node_term s5.1); [by apply wp_step_down_log|]. destruct H4 as (_ & _ & _ & E4), H5 as (_ & _ & _ & E5). unfold id. congruence.
  - apply wp_lead_step; [by apply lead_modn|done].
Qed.

Lemma wp_tick_log s : LStart s → wp tick_h (λ _, LPost) (λ _, True) s.
Proof.
  intros HS. unfold tick_h. apply wp_getn. unfold id. destruct (n_role s.1) eqn:Hr; cycle 3.
  { assert (LLead s) as HL.
    { pose proof HS as [_ [Hf|[Hr0 Ht0]]]; [congruence|]. split_and!; [by apply LStart_post|congruence..]. }
    case_match; [by apply wp_step_down_log|by apply wp_tick_leader_log]. }
  all: apply wp_bind, wp_modn, wp_getn, wp_when; unfold id; intros _; [|by apply LStart_post, LStart_core].
  all: case_match; [apply wp_become_pre_candidate_log, LPre_core; [apply HS|done..]|].
  all: apply wp_modn; cbn [fst snd]; match goal with |- context [reset_election_timer ?n] => destruct (reset_timer_core n) as (E1 & E2 & E3) end.
  all: apply LStart_post; split; [apply LPre_core; [apply HS|done..]|left; cbn [fst]; by rewrite E2].
Qed.

(** A proposal, answered or refused. *)
Lemma LPost_drop s : LPost s → LPost (s.1, []).
Proof.
  intros [P1 P2 P3 P4]. split; [done|done| |done]. destruct P3 as [(es & L1 & L2 & L3 & L5)|[Q|Q]].
  - left. exists es. split_and!; try done. destruct L5 as [[? _]|[? _]]; [by left|by right].
  - right. left. destruct Q as (from & prev & pt & es & lc & sq & prev' & pt' & es' & ? & ? & ? & ? & ? & _).
    by exists from, prev, pt, es, lc, sq, prev', pt', es'.
  - right. right. destruct Q as (from & li & lt & off & data & sq & ms & ? & ? & ? & _). by exists from, li, lt, off, data, sq, ms.
Qed.
End post.

(** ** Every operation *)

Definition keeps_log (i : Input St) : Prop :=
  match i with InFinish _ => False | _ => True end.

Lemma run_actions_log n0 msg (m : Handler St unit) acts n' :
  wp m (λ _, LPost n0 msg) (λ _, True) (n0, []) → run_actions m n0 = (Ok acts, n') → LPost n0 msg (n', acts).
Proof. unfold wp, run_actions. destruct (m (n0, [])) as [[[]|e] [n1 acts1]]; [|done]. by intros HP [= <- <-]. Qed.

(** Proposals do nothing unless the node leads. *)
Lemma run_propose_log {A} n0 (m : Handler St (A + ProposeError)) acts n' :
  based h (slog n0) → Steps Leading m → (n_role n0 ≠ Leader → (m (n0, [])).2 = (n0, [])) →
  (Ok (match (run_propose m n0).1 with inl (_, acts) => acts | inr _ => [] end), (run_propose m n0).2) = (Ok acts, n') →
  LPost n0 None (n', acts).
Proof.
  intros Hw Hm Hno E. assert (LPost n0 None (m (n0, [])).2) as HP.
  { pose proof (LStart_post n0 None Hw _ (LStart_init n0 None)) as H0'.
    destruct (decide (n_role n0 = Leader)) as [Hl|Hl]; [|by rewrite (Hno Hl)]. eapply LPost_leading; [exact H0'|done|apply Hm]. }
  unfold run_propose in E. destruct (m (n0, [])) as [[[a|e]|e] [n1 acts1]]; simpl in *; injection E as <- <-;
    [done|by apply (LPost_drop _ _ _ HP)..].
Qed.

(** One input, as the log sees it. *)
Lemma node_input_log i n acts n' :
  based h (slog n) → keeps_log i → node_input i n = (Ok acts, n') → LPost n (input_message i) (n', acts).
Proof.
  intros Hw Hk. pose proof (LStart_init n (input_message i)) as HS. pose proof (LStart_post n (input_message i) Hw _ HS) as HP.
  destruct i; unfold node_input; cbn [input_message] in *.
  - apply run_actions_log. by apply wp_tick_log.
  - apply run_actions_log. by apply wp_step_log.
  - apply run_actions_log, wp_getn, wp_when; intros _; [|done]. by apply wp_become_candidate_log, HS.
  - apply run_actions_log, wp_getn, wp_when; intros _; [|done]. by apply wp_become_pre_candidate_log, HS.
  - apply run_propose_log; [done|apply lead_propose|]. intros Hl. unfold propose_h, getn, mgets, mbind, M_bind, id. cbn [fst].
    by rewrite bool_decide_false.
  - apply run_propose_log; [done|apply lead_propose_membership|]. intros Hl.
    unfold propose_membership_h, membership_refusal, getn, mgets, mbind, M_bind, id. cbn [fst]. by rewrite bool_decide_false.
  - apply run_propose_log; [done|apply lead_propose_batch|]. intros Hl. unfold propose_batch_h, getn, mgets, mbind, M_bind, id. cbn [fst].
    by rewrite bool_decide_false.
  - unfold read_index. case_bool_decide as Hl.
    + pose proof (LPost_leading n None _ _ HP Hl (lead_read_round (n, []))) as HP'.
      destruct (open_read_round (n, [])) as [[[seq index]|e] [n1 acts1]]; intros [= <- <-]; exact HP'.
    + destruct (n_leader_id n); intros [= <- <-]; [|done].
      eapply (LStart_plain n None Hw (_, [])); [by apply (LStart_core n None (n, []))|by constructor].
  - intros [= <- <-]. eapply (LStart_plain n None Hw (_, [])); [apply (LStart_core n None (n, [])); [done|]|done]. by destruct r.
  - unfold begin_compaction. destruct (_ || _); [by intros [= <- <-]|]. destruct (term_at _ _) as [t|]; [|by intros [= <- <-]].
    match goal with |- context [new_snapshot ?m ?ms ?st] => pose proof (law_new_snapshot_hs m ms st) as Hh; pose proof (law_new_snapshot_log m ms st) as Hl;
      destruct (new_snapshot m ms st) as [[k|e] st'] end; [|done]. intros [= <- <-]. apply (LStart_post n None Hw), (LStart_storage n None (n, [])); done.
  - done.
  - intros [= <- <-]. eapply (LStart_plain n None Hw (_, [])); [apply (LStart_core n None (n, [])); [done|]|done].
    unfold take_committed. cbn [fst]. destruct (_ <? _); done.
Qed.
End log_steps.

(** The entries of a log nothing of which is in a snapshot. *)
Lemma whole_entry {St} `{StorageLaws St} (n : Node St) i e :
  whole (slog n) → entry (n_storage n) i = Some e ↔ 0 < i ∧ log_of n !! N.to_nat (i - 1) = Some e.
Proof. apply (full_entry []). Qed.
