(* ===== verification/LogMatching.v ===== *)
(** * Logs that agree once agree always before (src/raft/node.rs)

    Log matching over a whole cluster: while nothing is compacted, two logs that hold an
    entry of the same term at the same index are the same up to it. The proof keeps, beside the
    cluster, the log each term's leader had: every log is made of pieces of those; and they say what
    the entries were that a snapshot stands for. *)

From S2P Require Import Prelude.
From S2P Require Import RaftLog.
From S2P Require Import Message.
From S2P Require Import NodeState.
From S2P Require Import Node.
From S2P Require Import NodeFrame.
From S2P Require Import Quorum.
From S2P Require Import Election.
From S2P Require Import ElectionSafety.
From S2P Require Import Replication.
From S2P Require Import Commit.
From S2P Require Import LogSteps.

#[local] Open Scope N_scope.

(** ** Logs made of the leaders' logs *)

(** Who led each term, and the log it had. *)
Abbreviation Leads := (gmap N (NodeId * list Entry)).

(** Up to every entry, the log is that of the leader of the entry's term. *)
Definition made_of (leads : Leads) (l : list Entry) : Prop :=
  ∀ k e, l !! k = Some e → ∃ u L, leads !! e_term e = Some (u, L) ∧ take (S k) l = take (S k) L.

Lemma take_eq_lookup {A} (l1 l2 : list A) k x : l1 !! k = Some x → take (S k) l1 = take (S k) l2 → l2 !! k = Some x.
Proof. intros Hk E. rewrite <-(lookup_take_lt l2 (S k)), <-E, lookup_take_lt by lia. done. Qed.

Lemma take_eq_le {A} (l1 l2 : list A) j k : take k l1 = take k l2 → (j ≤ k)%nat → take j l1 = take j l2.
Proof. intros E Hj. rewrite <-(Nat.min_l j k Hj), <-!take_take. by rewrite E. Qed.

(** Two such logs agree up to an index where their terms do. *)
Lemma made_of_match leads l1 l2 k e1 e2 :
  made_of leads l1 → made_of leads l2 → l1 !! k = Some e1 → l2 !! k = Some e2 → e_term e1 = e_term e2 →
  take (S k) l1 = take (S k) l2.
Proof.
  intros H1 H2 K1 K2 Ht. destruct (H1 _ _ K1) as (u1 & L1 & E1 & T1), (H2 _ _ K2) as (u2 & L2 & E2 & T2).
  rewrite Ht in E1. congruence.
Qed.

Lemma made_of_take leads l k : made_of leads l → made_of leads (take k l).
Proof.
  intros Hl j e He. apply lookup_take_Some in He as [He Hj]. destruct (Hl _ _ He) as (u & L & E & T).
  exists u, L. split; [done|]. by rewrite take_take, Nat.min_l by lia.
Qed.

Lemma made_of_prefix leads l l' : l' `prefix_of` l → made_of leads l → made_of leads l'.
Proof. intros [r ->] Hl. pose proof (made_of_take leads _ (length l') Hl) as Ht. by rewrite take_app_length in Ht. Qed.

(** ** How the leaders' logs grow *)

Definition leads_grow (leads leads' : Leads) : Prop :=
  ∀ t u L, leads !! t = Some (u, L) → ∃ es, leads' !! t = Some (u, L ++ es) ∧ Forall (λ e, e_term e = t) es.

Lemma leads_grow_refl leads : leads_grow leads leads.
Proof. intros t u L E. exists []. by rewrite app_nil_r. Qed.

Lemma leads_grow_trans l1 l2 l3 : leads_grow l1 l2 → leads_grow l2 l3 → leads_grow l1 l3.
Proof.
  intros H12 H23 t u L E. destruct (H12 _ _ _ E) as (e1 & E1 & F1), (H23 _ _ _ (proj1 (conj E1 I))) as (e2 & E2 & F2).
  exists (e1 ++ e2). rewrite (assoc_L (++)). split; [done|by apply Forall_app_2].
Qed.

Lemma made_of_grow leads leads' l : leads_grow leads leads' → made_of leads l → made_of leads' l.
Proof.
  intros Hgrow Hl k e He. destruct (Hl _ _ He) as (u & L & E & T). destruct (Hgrow _ _ _ E) as (es & E' & _). exists u, (L ++ es). split; [done|].
  rewrite T, take_app_le; [done|]. pose proof (take_eq_lookup _ _ _ _ He T) as HL. apply lookup_lt_Some in HL. lia.
Qed.

(** A leader appends to its log, or takes one up in a term nobody has led. *)
Definition takes_over (leads : Leads) (t : N) (v : NodeId) (l : list Entry) : Prop :=
  leads !! t = Some (v, l) ∨ leads !! t = None.

Lemma takes_over_grow leads t v l es :
  takes_over leads t v l → Forall (λ e, e_term e = t) es → leads_grow leads (<[t := (v, l ++ es)]> leads).
Proof.
  intros Ho Hes t' u L E. destruct (decide (t = t')) as [<-|Hne]; cycle 1.
  { exists []. rewrite lookup_insert_ne, app_nil_r by done. done. }
  destruct Ho as [Ho|Ho]; [|congruence]. rewrite Ho in E. injection E as <- <-. exists es. by rewrite lookup_insert_eq.
Qed.

Lemma made_of_lead leads t v l es :
  takes_over leads t v l → made_of leads l → Forall (λ e, e_term e = t) es → made_of (<[t := (v, l ++ es)]> leads) (l ++ es).
Proof.
  intros Ht Hl Hes k e He. destruct (decide (k < length l)%nat) as [Hk|Hk].
  - rewrite lookup_app_l in He by done. destruct (made_of_grow _ _ l (takes_over_grow leads t v l es Ht Hes) Hl k e He) as (u & L & E & T).
    exists u, L. split; [done|]. by rewrite take_app_le by lia.
  - rewrite lookup_app_r in He by lia. apply list_elem_of_lookup_2 in He. rewrite list.Forall_forall in Hes.
    rewrite (Hes _ He). exists v, (l ++ es). by rewrite lookup_insert_eq.
Qed.

(** ** What a snapshot stands for *)

(** The entries up to a snapshot are those of the leader of its term. *)
Definition hid (leads : Leads) (base : SnapshotMeta) : list Entry :=
  take (N.to_nat (sm_index base)) (from_option snd [] (leads !! sm_term base)).

(** All of a log. *)
Definition flog (leads : Leads) (l : EntryLog) : list Entry := hid leads (el_base l) ++ el_entries l.

Definition grounded (leads : Leads) (l : EntryLog) : Prop := based (hid leads (el_base l)) l.

Lemma flog_whole leads l : el_base l = mkMeta 0 0 → flog leads l = el_entries l.
Proof. intros E. unfold flog, hid. by rewrite E. Qed.

Lemma hid_grow leads leads' base : leads_grow leads leads' → blen (hid leads base) = sm_index base → hid leads' base = hid leads base.
Proof.
  intros Hg Hb. unfold hid in *. destruct (leads !! sm_term base) as [[u L]|] eqn:E; simpl in *.
  - destruct (Hg _ _ _ E) as (es & -> & _). simpl. unfold blen in Hb. rewrite length_take in Hb. by rewrite take_app_le by lia.
  - rewrite take_nil in *. change (blen (@nil Entry)) with 0 in Hb. by rewrite <-Hb.
Qed.

Lemma grounded_len leads l : grounded leads l → blen (hid leads (el_base l)) = sm_index (el_base l).
Proof. intros [_ Hb]. rewrite Hb at 2. done. Qed.

Lemma flog_grow leads leads' l : leads_grow leads leads' → grounded leads l → flog leads' l = flog leads l.
Proof. intros Hg Hb. unfold flog. by rewrite (hid_grow leads leads') by (done || by apply grounded_len). Qed.

Lemma grounded_grow leads leads' l : leads_grow leads leads' → grounded leads l → grounded leads' l.
Proof. intros Hg Hb. unfold grounded. by rewrite (hid_grow leads leads') by (done || by apply grounded_len). Qed.

(** A snapshot taken of a leader's log stands for its entries. *)
Lemma hid_leader leads L i : made_of leads L → (N.to_nat i ≤ length L)%nat → hid leads (mkMeta i (term_before L i)) = take (N.to_nat i) L.
Proof.
  intros HL Hi. unfold hid. cbn [sm_index sm_term]. destruct (decide (i = 0)) as [->|Hi0]; [done|].
  destruct (lookup_lt_is_Some_2 L (N.to_nat (i - 1))) as [e He]; [lia|]. destruct (HL _ _ He) as (u & L' & E & T).
  assert (term_before L i = e_term e) as -> by (unfold term_before; by rewrite (proj2 (N.eqb_neq _ _)), He by lia). rewrite E. simpl. replace (N.to_nat i) with (S (N.to_nat (i - 1))) by lia. done.
Qed.

(** ** A message takes a log towards its leader's *)

(** As far as [reach], the log [l'] is the leader's [L]: it was already, or it has become that. *)
Definition takes_in (l l' L : list Entry) (reach : nat) : Prop :=
  (reach ≤ length L)%nat ∧
  (l' = l ∧ take reach l = take reach L ∧ (reach ≤ length l)%nat ∨
   l' = take reach L ∧ ∃ j e, (j < reach)%nat ∧ L !! j = Some e ∧ l !! j ≠ Some e).

Section takes_in.
Variables (l l' L : list Entry) (reach : nat).
Hypothesis Ht : takes_in l l' L reach.

Lemma takes_in_made_of leads : made_of leads l → made_of leads L → made_of leads l'.
Proof. destruct Ht as [_ [(-> & _)|[-> _]]]; [done|]. intros _ HL. by apply made_of_take. Qed.

(** What the message covers is the leader's afterwards, and what the two logs shared they share still. *)
Lemma takes_in_covers : take reach l' = take reach L ∧ (reach ≤ length l')%nat.
Proof.
  destruct Ht as [Hr [(-> & ? & ?)|[-> _]]]; [done|]. rewrite take_take, Nat.min_id, length_take. split; [done|lia].
Qed.

Lemma takes_in_keeps i :
  take i l = take i L → (i ≤ length l)%nat → (i ≤ length L)%nat → take i l' = take i L ∧ (i ≤ length l')%nat.
Proof.
  intros Ei Hi HiL. destruct Ht as [HrL [(-> & _ & _)|[-> (j & e & Hj & He & Hne)]]]; [done|].
  assert (i ≤ reach)%nat as Hir; [|by rewrite take_take, Nat.min_l, length_take by done; split; [|lia]].
  destruct (decide (i ≤ reach)%nat) as [|Hgt]; [done|exfalso]. apply Hne.
  rewrite <-(lookup_take_lt l i), Ei, lookup_take_lt by lia. done.
Qed.

(** A leader's own message changes nothing. *)
Lemma takes_in_self : L = l → l' = l.
Proof. intros E. destruct Ht as [_ [(-> & _)|[_ (j & e & _ & He & Hne)]]]; [done|]. destruct Hne. by rewrite <-E. Qed.

Lemma takes_in_elem e : e ∈ l' → e ∈ l ∨ e ∈ L.
Proof.
  destruct Ht as [_ [(-> & _)|[-> _]]]; [by left|]. intros He. right.
  by eapply elem_of_take in He as (k & He & _); eapply list_elem_of_lookup_2.
Qed.
End takes_in.

(** Entries are merged. *)

Section merge.
Variables (leads : Leads) (h : list Entry) (l : EntryLog) (L : list Entry) (prev pt : N) (es : list Entry).
Hypothesis Hw : based h l.
Hypothesis Hl : made_of leads (h ++ el_entries l).
Hypothesis HL : made_of leads L.
Hypothesis Hpos : ∀ t x, leads !! t = Some x → 0 < t.
Hypothesis Hprev : EntryLog_term_at l prev = Some pt.
Hypothesis Hpiece : piece_of L prev pt es.

Let lf := h ++ el_entries l.

(** No entry has term 0, so the message does not start past the end of the leader's log. *)
Lemma piece_inside : (N.to_nat prev ≤ length L)%nat ∧ es `prefix_of` drop (N.to_nat prev) L ∧ pt = term_before L prev.
Proof.
  destruct Hpiece as [(_ & H0 & Hp)|?]; [|done]. exfalso. destruct (based_term_entry h l Hw prev pt Hprev Hp) as (e & He & Ht).
  destruct (Hl _ _ He) as (u & L' & E & _). apply Hpos in E. lia.
Qed.

Lemma agree_before : take (N.to_nat prev) lf = take (N.to_nat prev) L.
Proof.
  destruct piece_inside as (Hp & Hes & Hpt). destruct (decide (prev = 0)) as [->|H0]; [done|].
  destruct (based_term_entry h l Hw prev pt Hprev) as (e & He & Ht); [lia|]. unfold term_before in Hpt. rewrite (proj2 (N.eqb_neq _ _)) in Hpt by lia.
  destruct (lookup_lt_is_Some_2 L (N.to_nat (prev - 1))) as [e' He']; [lia|]. rewrite He' in Hpt. simpl in Hpt.
  replace (N.to_nat prev) with (S (N.to_nat (prev - 1))) by lia. eapply (made_of_match leads); eauto. congruence.
Qed.

Lemma piece_lookup j e : es !! j = Some e → L !! (N.to_nat prev + j)%nat = Some e.
Proof.
  intros He. destruct piece_inside as (_ & [r Hes] & _). rewrite <-lookup_drop, Hes, lookup_app_l; [done|]. by eapply lookup_lt_Some.
Qed.

(** As far as the terms match, the two logs are the same. *)
Lemma agree_matching :
  let k := matching l (prev + 1) es in take (N.to_nat prev + k) lf = take (N.to_nat prev + k) L.
Proof.
  cbv zeta. destruct (matching l (prev + 1) es) as [|k] eqn:Ek; [rewrite Nat.add_0_r; by apply agree_before|]. pose proof (matching_le l (prev + 1) es) as Hle.
  destruct (lookup_lt_is_Some_2 es k) as [e He]; [lia|].
  pose proof (matching_spec l (prev + 1) es k e He ltac:(lia)) as Ht.
  destruct (based_term_entry h l Hw _ _ Ht) as (e' & He' & Ht'); [lia|].
  replace (N.to_nat prev + S k)%nat with (S (N.to_nat prev + k)) by lia.
  eapply (made_of_match leads); [done|done| |by apply piece_lookup|done]. fold lf in He'. rewrite <-He'. f_equal. lia.
Qed.

(** How far the message reaches. *)
Let reach := (N.to_nat prev + length es)%nat.

Lemma reach_inside : (reach ≤ length L)%nat.
Proof.
  destruct piece_inside as (Hp & [r Hes] & _). apply (f_equal length) in Hes. rewrite length_drop, length_app in Hes. unfold reach. lia.
Qed.

Lemma merge_takes_in : takes_in lf (h ++ el_entries (merge_log l prev es)) L reach.
Proof.
  pose proof Hw as [Hwf Hb]. assert (is_Some (EntryLog_term_at l prev)) as Hp by by rewrite Hprev. split; [apply reach_inside|].
  pose proof (proj1 (based_term_at h l Hw prev pt) Hprev) as (Hbp & _ & _).
  pose proof agree_matching as Ha. cbv zeta in Ha. pose proof (matching_le l (prev + 1) es) as Hk. unfold merge_log, reach.
  set (k := matching l (prev + 1) es) in *. case_bool_decide as Hd.
  - left. assert (k = length es) as Ek by (apply (f_equal length) in Hd; rewrite length_drop in Hd; simpl in Hd; lia).
    rewrite Ek in Ha. split_and!; [done|done|]. apply (f_equal length) in Ha. rewrite !length_take in Ha.
    pose proof reach_inside as HL'. unfold reach in HL'. lia.
  - right. unfold k at 1. rewrite push_all_entries, truncate_entries, Hb by done. cbn [sm_index]. fold k.
    destruct (drop_nonempty_lookup es k Hd) as [e He]. pose proof (lookup_lt_Some _ _ _ He) as Hlt.
    assert (h ++ take (N.to_nat (prev + N.of_nat k - blen h)) (el_entries l) = take (N.to_nat prev + k) lf) as Eh.
    { unfold lf. rewrite take_app_ge by (unfold blen in *; lia). f_equal. f_equal. unfold blen in *. lia. }
    rewrite (assoc_L (++)), Eh, Ha. split.
    + destruct piece_inside as (HpL & [r Hes] & _). rewrite <-(take_drop (N.to_nat prev + k) L) at 2.
      rewrite take_app_ge by (rewrite length_take; lia). f_equal. rewrite length_take, <-drop_drop, Hes, drop_app_le by done.
      pose proof reach_inside as HL'. unfold reach in HL'. rewrite take_app_le by (rewrite length_drop; lia). symmetry. apply take_ge. rewrite length_drop. lia.
    + exists (N.to_nat prev + k)%nat, e. split_and!; [lia|by apply piece_lookup|]. intros Hej. apply (matching_stop l (prev + 1) es e He). fold k.
      replace (prev + 1 + N.of_nat k) with (N.of_nat (N.to_nat prev + k) + 1) by lia. apply (based_entry_term h l Hw); [done|unfold blen in *; lia].
Qed.

Lemma merge_based : contiguous (prev + 1) es → based h (merge_log l prev es).
Proof.
  intros Hc. pose proof Hw as [Hwf Hb]. split; [|by rewrite merge_log_base]. apply merge_log_wf; [done|by rewrite Hprev|done].
Qed.
End merge.

(** What a message brings a node whose snapshot stands for the start of the leader's log. *)
Lemma effective_piece h L prev pt es prev' pt' es' :
  effective h prev pt es prev' pt' es' → piece_of L prev pt es → h `prefix_of` L → piece_of L prev' pt' es'.
Proof.
  intros [(_ & -> & -> & ->)|(Hlt & -> & -> & ->)] Hp [r ->]; [done|]. right. split_and!.
  - rewrite length_app. unfold blen. lia.
  - destruct Hp as [(-> & _)|(_ & [r' Hes] & _)]; [rewrite drop_nil; apply prefix_nil|].
    replace (N.to_nat (blen h)) with (N.to_nat prev + N.to_nat (blen h - prev))%nat by lia. rewrite <-drop_drop, Hes.
    destruct (decide (N.to_nat (blen h - prev) ≤ length es)%nat); [rewrite drop_app_le by done; by apply prefix_app_r|].
    rewrite (drop_ge es) by lia. apply prefix_nil.
  - by rewrite term_before_app.
Qed.

(** A snapshot is taken of a leader, or of the node itself. *)
Section compact.
Variables (leads : Leads) (l : EntryLog) (L : list Entry) (li : N).
Hypothesis Hg : grounded leads l.
Hypothesis Hl : made_of leads (flog leads l).
Hypothesis HL : made_of leads L.
Hypothesis Hli : (N.to_nat li ≤ length L)%nat.
Hypothesis Hh : hid leads (el_base l) `prefix_of` L.

Let l' := (EntryLog_compact l (mkMeta li (term_before L li))).2.

Lemma compact_takes_in : takes_in (flog leads l) (flog leads l') L (N.to_nat li) ∧ grounded leads l'.
Proof.
  pose proof (grounded_len _ _ Hg) as Hlen. unfold l', EntryLog_compact. cbn [sm_index sm_term]. destruct (N.leb_spec li (sm_index (el_base l))) as [Hle|Hlt].
  { split; [|done]. split; [done|left]. destruct Hh as [r ->]. unfold flog, blen in *. split_and!; [done|by rewrite !take_app_le by lia|rewrite length_app; lia]. }
  pose proof (hid_leader leads L li HL Hli) as Eh. cbn [snd]. split; cycle 1.
  { pose proof (EntryLog_compact_wf l (mkMeta li (term_before L li)) (proj1 Hg)) as Hwf'. unfold EntryLog_compact in Hwf'. cbn [sm_index sm_term] in Hwf'.
    rewrite (proj2 (N.leb_gt _ _)) in Hwf' by done. split; [done|]. cbn [el_base]. rewrite Eh. unfold blen. rewrite length_take, Nat.min_l by done. rewrite N2Nat.id. f_equal.
    rewrite <-(take_drop (N.to_nat li) L) at 1. rewrite term_before_app; [done|]. unfold blen. rewrite length_take. lia. }
  split; [done|]. assert (∀ kept, flog leads (mkEntryLog (mkMeta li (term_before L li)) kept) = take (N.to_nat li) L ++ kept) as Ef by (intros kept; unfold flog; by rewrite <-Eh).
  rewrite !Ef. clear Ef. destruct (lookup_lt_is_Some_2 L (N.to_nat (li - 1))) as [e He]; [lia|].
  assert (term_before L li = e_term e) as Et by (unfold term_before; by rewrite (proj2 (N.eqb_neq _ _)), He by lia). rewrite Et.
  case_bool_decide as Ht; [left|right].
  - destruct (based_term_entry _ l Hg _ _ Ht) as (e' & He' & Ht'); [lia|]. fold (flog leads l) in He'.
    pose proof (made_of_match leads _ _ _ _ _ Hl HL He' He Ht') as Em. replace (S (N.to_nat (li - 1))) with (N.to_nat li) in Em by lia.
    apply lookup_lt_Some in He'. split_and!; [|done|lia]. rewrite <-Em. rewrite <-(take_drop (N.to_nat li) (flog leads l)) at 2. f_equal.
    unfold flog. rewrite drop_app_ge by (unfold blen in *; lia). f_equal. unfold blen in *. lia.
  - rewrite app_nil_r. split; [done|]. exists (N.to_nat (li - 1)), e. split_and!; [lia|done|]. intros Hej. apply Ht.
    pose proof (based_entry_term _ l Hg _ _ Hej) as Hte. replace (N.of_nat (N.to_nat (li - 1)) + 1) with li in Hte by lia. apply Hte. lia.
Qed.
End compact.

(** ** The cluster, while nothing is compacted *)

Section cluster.
Context {S : Type} `{StorageLaws S}.
Implicit Types (n : Node S) (c : Cluster (S := S)).

Definition proc_log (p : Proc) : EntryLog := match p with Up n => slog n | Down st => st_log st end.

Definition no_compaction (i : Input S) : bool := match i with InBegin _ | InFinish _ => false | _ => true end.

(** Nodes run, crash and start again; a crash may lose any tail of the log. *)
Inductive lstep : Cluster → Cluster → Prop :=
  | ls_input c v n i acts n' :
      c_procs c !! v = Some (Up n) → no_compaction i = true →
      (∀ from m, input_message i = Some (from, m) → (from, v, m) ∈ c_net c) →
      node_input i n = (Ok acts, n') →
      lstep c (advance v n (Up n') acts c)
  | ls_crash c v n st k :
      c_procs c !! v = Some (Up n) → hard_state st = hard_state (n_storage n) →
      st_log st = mkEntryLog (el_base (slog n)) (take k (log_of n)) →
      lstep c (advance v n (Down st) [] c)
  | ls_restart c v st bootstrap config :
      c_procs c !! v = Some (Down st) →
      lstep c (mkCluster (<[v := Up (with_members v bootstrap config st)]> (c_procs c))
        (c_net c) (c_votes c) (c_elections c)).

Inductive lreachable : Cluster → Prop :=
  | lreach_init procs :
      map_Forall (λ _ p, ∃ st, p = Down st ∧ hard_state st = mkHardState 0 None ∧ st_log st = mkEntryLog (mkMeta 0 0) []) procs →
      lreachable (mkCluster procs [] [] [])
  | lreach_step c c' : lreachable c → lstep c c' → lreachable c'.

Lemma lreachable_reachable c : lreachable c → reachable c.
Proof.
  induction 1 as [procs Hp|c c' _ IH Hs].
  - constructor. eapply map_Forall_impl; [exact Hp|]. intros v p (st & -> & Hst & _). by exists st.
  - eapply reach_step; [exact IH|]. destruct Hs; [by eapply cs_input|by apply cs_crash|by apply cs_restart].
Qed.

(** No two elections of a term were held under voter lists more than a voter apart. *)
Definition steady c : Prop :=
  ∀ e1 e2, e1 ∈ c_elections c → e2 ∈ c_elections c → el_term e1 = el_term e2 → adjacent (el_voters e1) (el_voters e2).

Lemma steady_leader c e1 e2 :
  Inv c → steady c → e1 ∈ c_elections c → e2 ∈ c_elections c → el_term e1 = el_term e2 → el_leader e1 = el_leader e2.
Proof.
  intros HI Hst H1 H2 Ht. destruct (inv_elections c HI e1 H1) as (N1 & Q1 & V1), (inv_elections c HI e2 H2) as (N2 & Q2 & V2).
  destruct (quorums_meet _ _ _ _ N1 N2 (Hst _ _ H1 H2 Ht) Q1 Q2) as (v & I1 & I2 & _).
  eapply (inv_unique c HI v (el_term e1)); [by apply V1|]. rewrite Ht. by apply V2.
Qed.

(** ** The invariant *)

Definition msg_ok (leads : Leads) (m : Message) : Prop :=
  match m with
  | AppendEntries t prev pt es _ _ => ∃ u L, leads !! t = Some (u, L) ∧ piece_of L prev pt es
  | InstallSnapshot t li lt _ _ _ _ _ => ∃ u L, leads !! t = Some (u, L) ∧ (N.to_nat li ≤ length L)%nat ∧ lt = term_before L li
  | _ => True
  end.

Definition led_by c (leads : Leads) (t : N) (u : NodeId) (L : list Entry) : Prop :=
  made_of leads L ∧ contiguous 1 L ∧ ∃ e, e ∈ c_elections c ∧ el_term e = t ∧ el_leader e = u.

(** A node past its own leadership of term [t]. *)
Definition past (t : N) (p : Proc) : Prop :=
  t ≤ hs_term (proc_hs p) ∧ ∀ n, p = Up n → node_term n = t → n_role n ≠ Candidate.

Record LInv c (leads : Leads) : Prop := {
  li_logs : ∀ v p, c_procs c !! v = Some p → grounded leads (proc_log p) ∧ made_of leads (flog leads (proc_log p));
  li_leads : ∀ t u L, leads !! t = Some (u, L) → led_by c leads t u L;
  li_past : ∀ t u L p, leads !! t = Some (u, L) → c_procs c !! u = Some p → past t p;
  li_leader : ∀ v n, c_procs c !! v = Some (Up n) → n_role n = Leader → leads !! node_term n = Some (v, flog leads (slog n));
  li_net : ∀ from to m, (from, to, m) ∈ c_net c → msg_ok leads m;
  li_pos : ∀ t x, leads !! t = Some x → 0 < t;
  li_candidate : ∀ v n, c_procs c !! v = Some (Up n) → n_role n = Candidate → 0 < node_term n;
}.

Lemma plain_msg_ok (leads : Leads) h n (v : NodeId) (acts : list Action) (from to : NodeId) (m : Message) :
  Forall (plain h n) acts → (from, to, m) ∈ ((λ a, match a with Send to m => (v, to, m) end) <$> acts) → msg_ok leads m.
Proof.
  intros Hp [_ Hin]%advance_net. rewrite list.Forall_forall in Hp. specialize (Hp _ Hin). by destruct m.
Qed.

(** What a node that does not lead may do. *)
Lemma linv_quiet c leads v n p acts :
  LInv c leads → c_procs c !! v = Some (Up n) →
  grounded leads (proc_log p) → made_of leads (flog leads (proc_log p)) → node_term n ≤ hs_term (proc_hs p) →
  (∀ n', p = Up n' → n_role n' ≠ Leader ∧ (n_role n' = Candidate → node_term n = node_term n' → n_role n = Candidate)) →
  (∃ h n', Forall (plain h n') acts) → LInv (advance v n p acts c) leads.
Proof.
  intros [L1 L2 L3 L4 L5 L6 L7] Hv Hw Hm Ht Hr (hp & np & Hp). split; simpl.
  - intros u q. rewrite lookup_insert_Some. intros [[<- <-]|[_ Hu]]; [done|by eauto].
  - intros t u L E. destruct (L2 _ _ _ E) as (A & B & e & He & E'). split_and!; [done..|]. exists e. split; [|done].
    apply elem_of_app. by right.
  - intros t u L q E. rewrite lookup_insert_Some. intros [[<- <-]|[_ Hu]]; [|by eauto].
    destruct (L3 _ _ _ _ E Hv) as [Hle Hc]. simpl in Hle. change (t ≤ node_term n) in Hle. split; [lia|].
    intros n' -> Htn Hcand. simpl in *. change (node_term n ≤ node_term n') in Ht.
    destruct (Hr n' eq_refl) as [_ Hcd]. apply (Hc n eq_refl); [lia|]. apply Hcd; [done|lia].
  - intros u m. rewrite lookup_insert_Some. intros [[<- ->]|[_ Hu]]; [|by eauto]. intros Hl. by destruct (Hr m eq_refl).
  - intros from to m [Hin|Hin]%elem_of_app; [by eapply plain_msg_ok|by eauto].
  - done.
  - intros u m. rewrite lookup_insert_Some. intros [[<- ->]|[_ Hu]] Hcd; [|by eauto]. destruct (Hr m eq_refl) as [_ Hsame].
    change (node_term n ≤ node_term m) in Ht. destruct (decide (node_term n = node_term m)) as [E|?]; [|lia].
    rewrite <-E. by apply (L7 v n); [|apply Hsame].
Qed.

Lemma msg_ok_grow leads leads' m : leads_grow leads leads' → msg_ok leads m → msg_ok leads' m.
Proof.
  intros Hg. destruct m; try done; simpl.
  - intros (u & L & E & Hp). destruct (Hg _ _ _ E) as (es & E' & _). exists u, (L ++ es). split; [done|by apply piece_of_app].
  - intros (u & L & E & Hl & ->). destruct (Hg _ _ _ E) as (es & E' & _). exists u, (L ++ es).
    split_and!; [done|rewrite length_app; lia|]. rewrite term_before_app; [done|]. unfold blen. lia.
Qed.

Lemma grounded_contiguous c leads l : LInv c leads → grounded leads l → contiguous 1 (flog leads l).
Proof.
  intros HL Hg. pose proof (grounded_len _ _ Hg) as Hlen. destruct Hg as [Hwf _]. assert (contiguous 1 (hid leads (el_base l))) as Hc.
  { unfold hid. destruct (leads !! sm_term (el_base l)) as [[u L]|] eqn:E; simpl; [|rewrite take_nil; by intros k e].
    destruct (li_leads _ _ HL _ _ _ E) as (_ & Hc & _). intros k e [He _]%lookup_take_Some. by apply Hc. }
  intros k e He. unfold flog in He. apply lookup_app_Some in He as [He|[Hk He]]; [by apply Hc|]. rewrite (Hwf _ _ He), <-Hlen. unfold blen. lia.
Qed.

(** What a leader may do. *)
Lemma linv_lead c leads v n n' es acts :
  LInv c leads → c_procs c !! v = Some (Up n) → takes_over leads (node_term n') v (flog leads (slog n)) →
  flog leads (slog n') = flog leads (slog n) ++ es → Forall (λ e, e_term e = node_term n') es → grounded leads (slog n') →
  Forall (action_ok (hid leads (el_base (slog n'))) n') acts →
  node_term n ≤ node_term n' → 0 < node_term n' → n_role n' ≠ Candidate →
  (∃ e, e ∈ c_elections (advance v n (Up n') acts c) ∧ el_term e = node_term n' ∧ el_leader e = v) →
  LInv (advance v n (Up n') acts c) (<[node_term n' := (v, flog leads (slog n'))]> leads).
Proof.
  intros HL Hv Ho El Hes Hw Ha Ht Hpos Hnc He. pose proof HL as [L1 L2 L3 L4 L5 L6 L7].
  pose proof (takes_over_grow _ _ _ _ _ Ho Hes) as Hg. rewrite <-El in Hg. set (leads' := <[_ := _]> leads) in *.
  assert (made_of leads' (flog leads (slog n'))) as Hmk.
  { unfold leads'. rewrite El. apply made_of_lead; [done| |done]. by destruct (L1 _ _ Hv). }
  pose proof (grounded_contiguous c leads _ HL Hw) as Hcg.
  split; simpl.
  - intros u q. rewrite lookup_insert_Some. intros [[<- <-]|[_ Hu]].
    + simpl. rewrite (flog_grow leads leads') by done. split; [by apply (grounded_grow leads)|done].
    + destruct (L1 _ _ Hu). rewrite (flog_grow leads leads') by done. split; [by apply (grounded_grow leads)|by apply (made_of_grow leads)].
  - intros t u L. unfold leads' at 1. rewrite lookup_insert_Some. intros [[<- [= <- <-]]|[_ E]]; [done|].
    destruct (L2 _ _ _ E) as (A & B & e & Hin & E'). split_and!; [by apply (made_of_grow leads)|done|]. exists e. split; [|done].
    apply elem_of_app. by right.
  - intros t u L q. unfold leads'. rewrite !lookup_insert_Some. intros [[<- [= <- <-]]|[Hne E]] [[? <-]|[Hnv Hu]]; [|done| |by eauto].
    + split; [done|]. by intros m [= <-].
    + subst u. destruct (L3 _ _ _ _ E Hv) as [Hle _]. change (t ≤ node_term n) in Hle.
      split; [change (t ≤ node_term n'); lia|]. by intros m [= <-].
  - intros u m. rewrite lookup_insert_Some. intros [[<- [= <-]]|[Hne Hu]] Hl.
    { rewrite (flog_grow leads leads') by done. unfold leads'. by rewrite lookup_insert_eq. }
    pose proof (L4 _ _ Hu Hl) as Em. rewrite (flog_grow leads leads') by (done || apply (L1 _ _ Hu)). unfold leads'.
    rewrite lookup_insert_ne; [done|]. intros E. rewrite <-E in Em.
    destruct Ho as [Ho|Ho]; [|congruence]. rewrite Ho in Em. by injection Em.
  - intros from to m [[-> Hin]%advance_net|Hin]%elem_of_app; [|by eapply msg_ok_grow; eauto].
    assert (leads' !! node_term n' = Some (v, flog leads (slog n'))) as E by (unfold leads'; by rewrite lookup_insert_eq).
    rewrite list.Forall_forall in Ha. specialize (Ha _ Hin). destruct m; try done; simpl in *.
    + destruct Ha as [-> Hp]. by exists v, (flog leads (slog n')).
    + destruct Ha as (-> & -> & ->). exists v, (flog leads (slog n')). unfold flog at 2 3. rewrite term_before_app, length_app by lia. unfold blen. split_and!; [done|lia|done].
  - intros t x. unfold leads'. rewrite lookup_insert_Some. intros [[<- _]|[_ E]]; [done|by eauto].
  - intros u m. rewrite lookup_insert_Some. intros [[<- [= <-]]|[_ Hu]]; [done|by eauto].
Qed.

(** A node whose log is all it was, though it holds less of it. *)
Lemma linv_same c leads v n n' :
  LInv c leads → c_procs c !! v = Some (Up n) → hs_of n' = hs_of n → n_role n' = n_role n →
  grounded leads (slog n') → flog leads (slog n') = flog leads (slog n) → LInv (advance v n (Up n') [] c) leads.
Proof.
  intros [L1 L2 L3 L4 L5 L6 L7] Hv Eh Er Hg El. pose proof (node_term_hs _ _ Eh) as Et. split; simpl; try done.
  - intros u q. rewrite lookup_insert_Some. intros [[<- <-]|[_ Hu]]; [|by eauto]. simpl. rewrite El. split; [done|]. by apply (L1 _ _ Hv).
  - intros t u L E. destruct (L2 _ _ _ E) as (A & B & e & He & E'). split_and!; [done..|]. exists e. split; [|done]. apply elem_of_app. by right.
  - intros t u L q E. rewrite lookup_insert_Some. intros [[<- <-]|[_ Hu]]; [|by eauto]. destruct (L3 _ _ _ _ E Hv) as [Hle Hc]. split.
    + change (t ≤ node_term n'). rewrite Et. exact Hle.
    + intros m [= <-]. rewrite Et, Er. by apply Hc.
  - intros u m. rewrite lookup_insert_Some. intros [[<- [= <-]]|[_ Hu]]; [|by eauto]. rewrite Et, Er, El. by apply L4.
  - intros u m. rewrite lookup_insert_Some. intros [[<- [= <-]]|[_ Hu]]; [|by eauto]. rewrite Et, Er. by apply (L7 v).
Qed.

Lemma elections_grow c v n p acts e : e ∈ c_elections c → e ∈ c_elections (advance v n p acts c).
Proof. intros He. apply elem_of_app. by right. Qed.

(** A node that leads now takes over a log of its own, or a term nobody has led. *)
Lemma led_takes_over c leads v n n' acts :
  LInv c leads → Inv (advance v n (Up n') acts c) → steady (advance v n (Up n') acts c) → c_procs c !! v = Some (Up n) →
  role_moved n n' → led n n' →
  takes_over leads (node_term n') v (flog leads (slog n)) ∧ 0 < node_term n' ∧
  ∃ e, e ∈ c_elections (advance v n (Up n') acts c) ∧ el_term e = node_term n' ∧ el_leader e = v.
Proof.
  intros HL HI Hst Hv Hr Hled. destruct (decide (n_role n = Leader ∧ node_term n = node_term n')) as [[Hl Ht]|Hno].
  - pose proof (li_leader c leads HL v n Hv Hl) as E. rewrite Ht in E. split_and!; [by left|by eapply li_pos|].
    destruct (li_leads c leads HL _ _ _ E) as (_ & _ & e & He & E'). exists e. split; [by apply elections_grow|done].
  - destruct Hled as [Hl|?]; [|done]. assert (elected n n' = true) as Hel by by apply elected_spec.
    set (e := mkElection (node_term n') v (n_voters n) (n_votes n')).
    assert (e ∈ c_elections (advance v n (Up n') acts c)) as He.
    { simpl. rewrite Hel. apply elem_of_app. left. by apply list_elem_of_singleton. }
    split_and!; [| |by exists e]; cycle 1.
    { destruct Hr as [?|(Ht & _ & Hrole)]; [lia|]. rewrite <-Ht. destruct (Hrole Hl) as [Hl'|Hcand]; [by destruct Hno|].
      by eapply (li_candidate c leads HL v n). }
    right. destruct (leads !! node_term n') as [[u L]|] eqn:E; [exfalso|done].
    destruct (li_leads c leads HL _ _ _ E) as (_ & _ & e' & He' & Et' & <-).
    pose proof (steady_leader _ e e' HI Hst He (elections_grow _ _ _ _ _ _ He') (eq_sym Et')) as Eu. cbn [e el_leader] in Eu. rewrite <-Eu in E.
    destruct (li_past c leads HL _ _ _ _ E Hv) as [Hle Hc]. change (node_term n' ≤ node_term n) in Hle.
    destruct Hr as [Hlt|(Ht & _ & Hrole)]; [lia|]. destruct (Hrole Hl) as [?|Hcand]; [by apply Hno|]. by apply (Hc n).
Qed.

Lemma role_moved_le n n' : role_moved n n' → node_term n ≤ node_term n'.
Proof. intros [?|[? _]]; lia. Qed.

Lemma role_moved_candidate n n' : role_moved n n' → n_role n' = Candidate → node_term n = node_term n' → n_role n = Candidate.
Proof. intros [Ht|(_ & Hc & _)] ??; [lia|auto]. Qed.

Lemma piece_contiguous L prev pt es : contiguous 1 L → piece_of L prev pt es → contiguous (prev + 1) es.
Proof.
  intros Hc [[-> _]|(_ & [r Hes] & _)]; [by intros k e|]. pose proof (contiguous_drop 1 L (N.to_nat prev) Hc) as Hd. rewrite Hes in Hd.
  intros k e Hk. rewrite (Hd k e); [lia|]. by apply lookup_app_l_Some.
Qed.

(** The leaders' logs after an operation of node [v]. *)
Definition next_leads (leads : Leads) (v : NodeId) n n' : Leads :=
  if decide (n_role n' = Leader ∨ n_role n = Leader ∧ node_term n = node_term n')
  then <[node_term n' := (v, flog leads (slog n'))]> leads else leads.

(** A follower has the start of its leader's log, as far as [reach]. *)
Definition took_up (leads : Leads) n n' (reach : nat) (u : NodeId) (L : list Entry) : Prop :=
  leads !! node_term n' = Some (u, L) ∧ takes_in (flog leads (slog n)) (flog leads (slog n')) L reach ∧ n_role n' = Follower.

(** What an operation may do to a log, in the light of the leaders' logs. *)
Definition moves (leads : Leads) n n' (acts : list Action) : Prop :=
  grounded leads (slog n') ∧
  ((∃ es, flog leads (slog n') = flog leads (slog n) ++ es ∧ Forall (λ e, e_term e = node_term n') es ∧
     (led n n' ∧ Forall (action_ok (hid leads (el_base (slog n'))) n') acts ∨
      es = [] ∧ Forall (plain (hid leads (el_base (slog n'))) n') acts)) ∨
   (∃ reach u L, took_up leads n n' reach u L ∧ Forall answer acts)).

Lemma post_moves c leads v n msg acts n' :
  LInv c leads → c_procs c !! v = Some (Up n) → (∀ from m, msg = Some (from, m) → (from, v, m) ∈ c_net c) →
  LPost (hid leads (el_base (slog n))) n msg (n', acts) →
  (∀ u L, leads !! node_term n' = Some (u, L) → hid leads (el_base (slog n)) `prefix_of` L) →
  moves leads n n' acts.
Proof.
  intros HL Hv Hmsg [_ _ Hlog _] Hh. destruct (li_logs c leads HL v _ Hv) as [Hg Hm]. simpl in Hg, Hm. pose proof (li_pos c leads HL) as Hpos.
  destruct Hlog as [(es & El & Hes & Hb & Hor)|[(from & prev & pt & es & lc & sq & prev' & pt' & es' & Em & Heff & Hpt & El & Hf & Hp)|(from & li & lt & off & data & sq & ms & Em & El & Hf & Hp)]];
    cbn [fst snd] in *.
  - assert (el_base (slog n') = el_base (slog n)) as Eb by (rewrite (proj2 Hb); symmetry; apply Hg).
    split; [unfold grounded; by rewrite Eb|left]. exists es. unfold flog. by rewrite Eb.
  - destruct (li_net c leads HL _ _ _ (Hmsg _ _ Em)) as (u & L & E & Hpiece). destruct (li_leads c leads HL _ _ _ E) as (HmL & HcL & _).
    pose proof (effective_piece _ _ _ _ _ _ _ _ Heff Hpiece (Hh _ _ E)) as Hpiece'. pose proof (piece_contiguous _ _ _ _ HcL Hpiece') as Hc'.
    pose proof (merge_based _ _ _ _ _ Hg Hpt Hc') as Hb. rewrite <-El in Hb.
    assert (el_base (slog n') = el_base (slog n)) as Eb by (rewrite (proj2 Hb); symmetry; apply Hg).
    split; [unfold grounded; by rewrite Eb|right]. exists (N.to_nat prev' + length es')%nat, u, L. split; [|done]. split_and!; [done| |done].
    unfold flog at 2. rewrite Eb, El. by eapply merge_takes_in.
  - destruct (li_net c leads HL _ _ _ (Hmsg _ _ Em)) as (u & L & E & Hli & ->). destruct (li_leads c leads HL _ _ _ E) as (HmL & _ & _).
    destruct (compact_takes_in leads (slog n) L li Hg Hm HmL Hli (Hh _ _ E)) as [Ht Hg']. rewrite <-El in Ht, Hg'. split; [done|right].
    by exists (N.to_nat li), u, L.
Qed.

(** A leader that takes up its own message has gained nothing. *)
Lemma took_up_leads c leads v n n' reach u L :
  LInv c leads → c_procs c !! v = Some (Up n) → took_up leads n n' reach u L → next_leads leads v n n' = leads.
Proof.
  intros HL Hv (E & Ht & Hf). unfold next_leads. destruct (decide _) as [[?|[Hl Htt]]|_]; [congruence| |done].
  pose proof (li_leader c leads HL v n Hv Hl) as Eo. rewrite Htt in Eo. rewrite Eo in E. injection E as <- <-. apply insert_id.
  by rewrite (takes_in_self _ _ _ _ Ht).
Qed.

Lemma linv_moves c leads v n acts n' :
  LInv c leads → Inv (advance v n (Up n') acts c) → steady (advance v n (Up n') acts c) → c_procs c !! v = Some (Up n) →
  role_moved n n' → moves leads n n' acts → LInv (advance v n (Up n') acts c) (next_leads leads v n n').
Proof.
  intros HL HI Hst Hv Hr [Hg Hlog]. destruct (li_logs c leads HL v _ Hv) as [_ Hm]. simpl in Hm.
  pose proof (role_moved_le _ _ Hr) as Hle. destruct Hlog as [(es & El & Hes & Hor)|(reach & u & L & Ht & Hp)].
  - unfold next_leads. destruct (decide _) as [Hled|Hno].
    + destruct (led_takes_over c leads v n n' acts) as (Ho & Hpos & He); [done..|].
      assert (n_role n' ≠ Candidate) as Hnc'; cycle 1.
      { apply (linv_lead c leads v n n' es acts); try done. destruct Hor as [[_ ?]|[_ Hp]]; [done|].
        eapply list.Forall_impl; [exact Hp|]. intros [to []]; try done. by intros [? _]. }
      intros Hcand. destruct Hled as [?|[Hl Ht]]; [congruence|]. pose proof (role_moved_candidate _ _ Hr Hcand Ht). congruence.
    + destruct Hor as [[? _]|[-> Hp]]; [done|]. rewrite app_nil_r in El. apply linv_quiet; try done.
      * simpl. by rewrite El.
      * intros m [= <-]. split; [tauto|]. by apply role_moved_candidate.
      * by eexists _, n'.
  - rewrite (took_up_leads c leads v n n' reach u L) by done. destruct Ht as (E & Ht & Hf). destruct (li_leads c leads HL _ _ _ E) as (HmL & _ & _).
    apply linv_quiet; try done; [by apply (takes_in_made_of _ _ _ _ Ht)|intros m [= <-]; rewrite Hf; done|]. exists [], n'.
    eapply list.Forall_impl; [exact Hp|]. apply answer_plain.
Qed.

(** Nothing is in a snapshot, and nobody offers one. *)
Definition flat c : Prop :=
  (∀ v p, c_procs c !! v = Some p → el_base (proc_log p) = mkMeta 0 0) ∧
  ∀ from to t li lt off data fin sq ms, (from, to, InstallSnapshot t li lt off data fin sq ms) ∈ c_net c → li = 0.

Lemma flat_input c v n i acts n' :
  flat c → c_procs c !! v = Some (Up n) → (∀ from m, input_message i = Some (from, m) → (from, v, m) ∈ c_net c) →
  LPost [] n (input_message i) (n', acts) → flat (advance v n (Up n') acts c).
Proof.
  intros [F1 F2] Hv Hmsg [_ _ Hlog _]. pose proof (F1 _ _ Hv) as Hb. simpl in Hb.
  assert (el_base (slog n') = mkMeta 0 0 ∧ ∀ to t li lt off data fin sq ms, Send to (InstallSnapshot t li lt off data fin sq ms) ∈ acts → li = 0) as [Hb' Hs].
  { destruct Hlog as [(es & _ & _ & [_ E] & Hor)|[(from & prev & pt & es & lc & sq & prev' & pt' & es' & _ & _ & _ & El & _ & Hp)|(from & li & lt & off & data & sq & ms & Em & El & _ & Hp)]];
      cbn [fst snd] in *; (split; [|intros to t li' lt' off' data' fin' sq' ms' Hs]).
    - exact E.
    - destruct Hor as [[_ Ha]|[_ Ha]]; rewrite list.Forall_forall in Ha; specialize (Ha _ Hs); [|done]. by destruct Ha as (_ & -> & _).
    - by rewrite El, merge_log_base.
    - rewrite list.Forall_forall in Hp. by specialize (Hp _ Hs).
    - rewrite El, EntryLog_compact_old; [done|]. rewrite Hb. simpl. rewrite (F2 _ _ _ _ _ _ _ _ _ _ (Hmsg _ _ Em)). lia.
    - rewrite list.Forall_forall in Hp. by specialize (Hp _ Hs). }
  split; simpl.
  - intros u q. rewrite lookup_insert_Some. intros [[<- <-]|[_ Hu]]; [done|by eauto].
  - intros from to t li lt off data fin sq ms [[-> Hin]%advance_net|Hin]%elem_of_app; [by eapply Hs|by eapply F2].
Qed.

Lemma flat_based c leads v n : flat c → LInv c leads → c_procs c !! v = Some (Up n) → hid leads (el_base (slog n)) = [] ∧ based [] (slog n).
Proof.
  intros [F1 _] HL Hv. destruct (li_logs c leads HL v _ Hv) as [Hg _]. simpl in Hg. unfold grounded in Hg. pose proof (F1 _ _ Hv) as Hb. simpl in Hb.
  assert (hid leads (el_base (slog n)) = []) as E by (rewrite Hb; done). by rewrite E in Hg.
Qed.

Lemma linv_input c leads v n i acts n' :
  LInv c leads → flat c → Inv (advance v n (Up n') acts c) → steady (advance v n (Up n') acts c) → c_procs c !! v = Some (Up n) →
  no_compaction i = true → (∀ from m, input_message i = Some (from, m) → (from, v, m) ∈ c_net c) →
  node_input i n = (Ok acts, n') → LInv (advance v n (Up n') acts c) (next_leads leads v n n') ∧ flat (advance v n (Up n') acts c).
Proof.
  intros HL HF HI Hst Hv Hnc Hmsg Hin. destruct (flat_based _ _ _ _ HF HL Hv) as [Eh Hb]. assert (keeps_log i) as Hk by by destruct i.
  pose proof (node_input_log [] i n acts n' Hb Hk Hin) as HP. split; [|by eapply flat_input].
  pose proof HP as [_ Hr _ _]. apply linv_moves; try done. eapply post_moves; [done|done|done|by rewrite Eh|]. intros u L _. rewrite Eh. apply prefix_nil.
Qed.

Lemma linv_restart c leads v st bootstrap config :
  LInv c leads → c_procs c !! v = Some (Down st) →
  LInv (mkCluster (<[v := Up (with_members v bootstrap config st)]> (c_procs c)) (c_net c) (c_votes c) (c_elections c)) leads.
Proof.
  intros [L1 L2 L3 L4 L5 L6 L7] Hv. destruct (with_members_fresh v bootstrap config st) as (_ & _ & F3 & F4).
  set (n := with_members v bootstrap config st) in *. clearbody n.
  assert (proc_hs (Up n) = proc_hs (Down st)) as Hhs by (simpl; unfold hs_of; by rewrite F4).
  assert (slog n = st_log st) as El by (unfold slog; by rewrite F4).
  split; simpl; try done.
  - intros u q. rewrite lookup_insert_Some. intros [[<- <-]|[_ Hu]]; [|by eauto]. simpl. rewrite El. by apply (L1 v (Down st)).
  - intros t u L q E. rewrite lookup_insert_Some. intros [[<- <-]|[_ Hu]]; [|by eauto].
    destruct (L3 _ _ _ _ E Hv) as [Hle _]. split; [by rewrite Hhs|]. intros m [= <-] _. by rewrite F3.
  - intros u m. rewrite lookup_insert_Some. intros [[<- [= <-]]|[_ Hu]]; [by rewrite F3|by eauto].
  - intros u m. rewrite lookup_insert_Some. intros [[<- [= <-]]|[_ Hu]]; [by rewrite F3|by eauto].
Qed.

Lemma flat_replace c v p p' net votes elections :
  flat c → c_procs c !! v = Some p → el_base (proc_log p') = el_base (proc_log p) → net ⊆ c_net c → flat (mkCluster (<[v := p']> (c_procs c)) net votes elections).
Proof.
  intros [F1 F2] Hv Eb Hn. split; simpl.
  - intros u q. rewrite lookup_insert_Some. intros [[<- <-]|[_ Hu]]; [|by eauto]. rewrite Eb. by eapply F1.
  - intros from to t li lt off data fin sq ms Hin%Hn. by eapply F2.
Qed.

Lemma lstep_elections c c' e : lstep c c' → e ∈ c_elections c → e ∈ c_elections c'.
Proof. intros []; [apply elections_grow..|done]. Qed.

Lemma linv_init procs :
  map_Forall (λ _ p, ∃ st, p = Down st ∧ hard_state st = mkHardState 0 None ∧ st_log st = mkEntryLog (mkMeta 0 0) []) procs →
  LInv (mkCluster procs [] [] []) ∅.
Proof.
  intros Hp. split; simpl; try done; try (by intros ? ? ? ?%not_elem_of_nil).
  - intros v p Hv. destruct (Hp v p Hv) as (st & -> & _ & El). simpl. rewrite El. split; [split; [by intros k e|done]|by intros k e].
  - intros v n Hv. by destruct (Hp v _ Hv) as (st & [=] & _).
  - intros v n Hv. by destruct (Hp v _ Hv) as (st & [=] & _).
Qed.

Lemma linv_crash c leads v n st k :
  LInv c leads → c_procs c !! v = Some (Up n) → hard_state st = hard_state (n_storage n) → st_log st = mkEntryLog (el_base (slog n)) (take k (log_of n)) →
  LInv (advance v n (Down st) [] c) leads.
Proof.
  intros HL Hv Hst El. destruct (li_logs c leads HL v _ Hv) as [[Hwf Hb] Hm]. simpl in *. apply linv_quiet; try done; simpl.
  - unfold grounded. rewrite El. split; [|done]. intros j e He. simpl in *. apply lookup_take_Some in He as [He _]. by apply Hwf.
  - rewrite El. eapply made_of_prefix; [|exact Hm]. unfold flog. apply prefix_app, prefix_take.
  - by rewrite Hst.
  - by exists [], n.
Qed.

Lemma lreachable_linv c : lreachable c → steady c → flat c ∧ ∃ leads, LInv c leads.
Proof.
  induction 1 as [procs Hp|c c' Hc IH Hs]; intros Hst.
  - split; [|exists ∅; by apply linv_init]. split; simpl; [|by intros ?????????? ?%not_elem_of_nil].
    intros v p Hv. destruct (Hp v p Hv) as (st & -> & _ & El). simpl. by rewrite El.
  - destruct IH as [HF [leads HL]]; [intros e1 e2 H1 H2; apply Hst; by eapply lstep_elections|].
    pose proof (reachable_inv _ (lreachable_reachable _ (lreach_step _ _ Hc Hs))) as HI.
    destruct Hs as [c v n i acts n' Hv Hnc Hmsg Hin|c v n st k Hv Hst' El|c v st bootstrap config Hv].
    + destruct (linv_input c leads v n i acts n') as [HL' HF']; try done. split; [done|]. by eexists.
    + split; [|exists leads; by eapply linv_crash]. eapply flat_replace; [done|done| |done]. simpl. by rewrite El.
    + split; [|exists leads; by apply linv_restart]. eapply flat_replace; [done|done| |done].
      destruct (with_members_fresh v bootstrap config st) as (_ & _ & _ & F4). simpl. unfold slog. by rewrite F4.
Qed.

(** C6: log matching. However messages are lost, repeated or reordered and however nodes
    crash, losing any tail of their logs, and restart: while nothing is compacted and the elections of a
    term are held under voter lists at most one voter apart, two logs with an entry of the same
    term at the same index are the same up to that entry, and whoever leads a term holds every
    entry any node has of that term, with everything before it. *)
Theorem log_matching c :
  lreachable c → steady c →
  ∀ v1 p1 v2 p2 k e1 e2,
    c_procs c !! v1 = Some p1 → c_procs c !! v2 = Some p2 →
    el_entries (proc_log p1) !! k = Some e1 →
    (el_entries (proc_log p2) !! k = Some e2 → e_term e1 = e_term e2 →
      take (Datatypes.S k) (el_entries (proc_log p1)) = take (Datatypes.S k) (el_entries (proc_log p2))) ∧
    (∀ n, p2 = Up n → n_role n = Leader → node_term n = e_term e1 →
      take (Datatypes.S k) (el_entries (proc_log p1)) = take (Datatypes.S k) (log_of n)).
Proof.
  intros Hc Hst v1 p1 v2 p2 k e1 e2 H1 H2 K1. destruct (lreachable_linv c Hc Hst) as [[HF _] [leads HL]].
  destruct (li_logs c leads HL _ _ H1) as [_ M1], (li_logs c leads HL _ _ H2) as [_ M2]. rewrite flog_whole in M1, M2 by by eapply HF. split.
  - intros K2 Ht. by eapply made_of_match.
  - intros n -> Hl Ht. destruct (M1 _ _ K1) as (u & L & E & T). rewrite <-Ht, (li_leader c leads HL _ _ H2 Hl), flog_whole in E by apply (HF _ _ H2). injection E as <- <-. exact T.
Qed.

(** ** Running it *)

Definition lexec (c : Cluster) (x : Sched) : option Cluster :=
  match x with
  | SInput v i =>
      match c_procs c !! v with
      | Some (Up n) => if no_compaction i then match node_input i n with (Ok _, _) => cexec c x | (Err _, _) => None end else None
      | _ => None
      end
  | _ => cexec c x
  end.

Fixpoint lrun (c : Cluster) (xs : list Sched) : option Cluster :=
  match xs with [] => Some c | x :: xs => match lexec c x with Some c' => lrun c' xs | None => None end end.

Lemma cexec_crash c v n : c_procs c !! v = Some (Up n) → lstep c (advance v n (Down (n_storage n)) [] c).
Proof.
  intros Hv. apply (ls_crash c v n (n_storage n) (length (log_of n))); [done|done|].
  unfold log_of. rewrite take_ge by done. unfold slog. by destruct (st_log (n_storage n)).
Qed.

Lemma lexec_lstep c x c' : lexec c x = Some c' → lstep c c'.
Proof.
  intros Hx. destruct x as [v bs cfg|v|v i]; simpl in Hx.
  - destruct (c_procs c !! v) as [[n|st]|] eqn:Hv; [done| |done]. injection Hx as <-. by constructor.
  - destruct (c_procs c !! v) as [[n|st]|] eqn:Hv; [|done|done]. injection Hx as <-. by apply cexec_crash.
  - destruct (c_procs c !! v) as [[n|st]|] eqn:Hv; [|done|done]. destruct (no_compaction i) eqn:Hnc; [|done].
    destruct (node_input i n) as [[acts|e] n'] eqn:Hi; [|done].
    match type of Hx with (if ?b then _ else _) = _ => destruct b eqn:Hm; [|done] end. injection Hx as <-.
    eapply ls_input; [done|done| |done]. intros from m Em. rewrite Em in Hm. by apply bool_decide_eq_true in Hm.
Qed.

Lemma lrun_lreachable c xs c' : lreachable c → lrun c xs = Some c' → lreachable c'.
Proof.
  revert c. induction xs as [|x xs IH]; intros c Hc Hr; simpl in Hr; [by injection Hr as <-|].
  destruct (lexec c x) as [c1|] eqn:Hx; [|done]. apply (IH c1); [|done]. eapply lreach_step; [done|by eapply lexec_lstep].
Qed.

(** An election a term. *)
Lemma one_each_steady c : NoDup (el_term <$> c_elections c) → steady c.
Proof.
  intros Hnd e1 e2 H1 H2 Ht. apply list_elem_of_lookup in H1 as [i H1], H2 as [j H2].
  assert (i = j) as ->; [|simplify_eq; apply adjacent_refl].
  apply (NoDup_lookup _ _ _ (el_term e1) Hnd); rewrite list_lookup_fmap; [by rewrite H1|rewrite H2; simpl; congruence].
Qed.
End cluster.

(** Node 1 leads, offers one entry to node 2 and keeps another to itself, and crashes; node 2 leads the
    next term and brings node 3 up to date; node 1 comes back with an entry nobody else has. *)
Definition two_terms : option (Cluster (S := MemStorage)) :=
  let bootstrap := (λ p, mkMember p [] false) <$> [1; 2; 3] in
  lrun three_nodes
    [SRestart 1 bootstrap NodeConfig_default; SRestart 2 bootstrap NodeConfig_default; SRestart 3 bootstrap NodeConfig_default;
     SInput 1 InCampaign; SInput 2 (InStep 1 (RequestVote 1 0 0)); SInput 1 (InStep 2 (RequestVoteReply 1 true));
     SInput 2 (InStep 1 (AppendEntries 1 0 0 [mkEntry 1 1 Noop] 0 0)); SInput 1 (InPropose []); SCrash 1;
     SInput 2 InCampaign; SInput 3 (InStep 2 (RequestVote 2 1 1)); SInput 2 (InStep 3 (RequestVoteReply 2 true));
     SInput 3 (InStep 2 (AppendEntries 2 1 1 [mkEntry 2 2 Noop] 0 0));
     SInput 2 (InStep 3 (AppendEntriesReply 2 false 0 1 None 0));
     SInput 3 (InStep 2 (AppendEntries 2 0 0 [mkEntry 1 1 Noop; mkEntry 2 2 Noop] 0 0));
     SRestart 1 bootstrap NodeConfig_default].

Lemma three_nodes_lreachable : lreachable three_nodes.
Proof.
  constructor. apply map_Forall_lookup. intros v p Hv%elem_of_list_to_map_2.
  rewrite list_elem_of_fmap in Hv. destruct Hv as (u & [= -> ->] & _). by exists MemStorage_new.
Qed.

Lemma log_matching_witness :
  match two_terms with
  | Some c => ∀ p2 p3, c_procs c !! 2 = Some p2 → c_procs c !! 3 = Some p3 →
      take 2 (el_entries (proc_log p2)) = take 2 (el_entries (proc_log p3))
  | None => False
  end.
Proof.
  assert ((λ c, (el_term <$> c_elections c, (λ v, el_entries ∘ proc_log <$> c_procs c !! v) <$> [2; 3])) <$> two_terms
    = Some ([2; 1], [Some [mkEntry 1 1 Noop; mkEntry 2 2 Noop]; Some [mkEntry 1 1 Noop; mkEntry 2 2 Noop]])) as Hc by by vm_compute.
  destruct two_terms as [c|] eqn:Hrun; [|discriminate Hc]. cbn [fmap option_fmap option_map] in Hc.
  injection Hc as Ht Hl2 Hl3. intros p2 p3 H2 H3. rewrite H2 in Hl2. rewrite H3 in Hl3. injection Hl2 as Hl2. injection Hl3 as Hl3.
  simpl in Hl2, Hl3. pose proof (lrun_lreachable _ _ _ three_nodes_lreachable Hrun) as Hr.
  refine (proj1 (log_matching c Hr _ 2 p2 3 p3 1%nat (mkEntry 2 2 Noop) (mkEntry 2 2 Noop) H2 H3 _) _ _).
  - apply one_each_steady. rewrite Ht. by apply (bool_decide_unpack _); vm_compute.
  - by rewrite Hl2.
  - by rewrite Hl3.
  - done.
Defined.
