(* ===== verification/CommitSteps.v ===== *)
(** * What a node's operations do to what it takes for committed (src/raft/node.rs)

    Under a membership nobody changes: a commit index moves only because a majority has answered
    for the entry it moves to, or because a leader says so, or with a snapshot; what a leader says
    it has committed, and what a follower says it holds. *)

From S2P Require Import Prelude.
From S2P Require Import RaftLog.
From S2P Require Import Message.
From S2P Require Import NodeState.
From S2P Require Import Node.
From S2P Require Import NodeFrame.
From S2P Require Import Quorum.
From S2P Require Import Election.
From S2P Require Import Replication.
From S2P Require Import Commit.
From S2P Require Import LogSteps.

#[local] Open Scope N_scope.

Section commit_steps.
Context {St : Type} `{StorageLaws St}.
Implicit Types (n : Node St) (s : HState St).

(** The membership every node is started with, all of it voters. *)
Variable B : list Member.
Hypothesis HB : Forall (λ m, m_learner m = false) B.

(** [Ack t v i]: node [v] has answered, in term [t], for everything up to [i]. *)
Variable Ack : N → NodeId → N → Prop.
Hypothesis Ack_le : ∀ t v i j, Ack t v i → j ≤ i → Ack t v j.

(** What the node's snapshot stands for. *)
Variable h : list Entry.

(** What a snapshot may say of the membership. *)
Definition members_ok (ms : option (list Member)) : Prop := ms = None ∨ ms = Some B.

(** Nothing has changed the membership. *)
Record fixed n : Prop := {
  fx_bootstrap : n_bootstrap n = B;
  fx_members : n_members n = B;
  fx_voters : n_voters n = config_voters B;
  fx_snapshot : members_ok (snapshot_members (n_storage n));
  fx_incoming : ∀ x k, n_incoming n = Some (x, k) → members_ok (st_sink_members k);
  fx_log : Forall (λ e, is_config e = false) (log_of n);
  fx_based : based h (slog n);
}.

Definition match_ok n : Prop :=
  n_role n = Leader → ∀ p i, n_match_index n !! p = Some i → i = 0 ∨ Ack (node_term n) p i.

(** A majority has entry [i], which is of the node's term. *)
Definition chosen_by n (i : N) : Prop :=
  0 < i ∧ EntryLog_term_at (slog n) i = Some (node_term n) ∧
  ∃ Q, quorum_of (config_voters B) Q = true ∧ ∀ v, v ∈ Q → v = n_id n ∨ Ack (node_term n) v i.

Lemma chosen_by_extends n n' i : based h (slog n) → extends h n n' → chosen_by n i → chosen_by n' i.
Proof.
  intros Hb HE (Hi & Ht & Q & HQ & HA). pose proof (ext_term _ _ _ HE) as Et. destruct HE as [E1 _ _ Hb' (es & El & _)].
  unfold chosen_by. rewrite Et, E1. split_and!; [done| |by exists Q]. apply (based_term_at h) in Ht as (H1' & H2' & ->); [|done].
  apply (based_term_at h); [done|]. fold (log_of n) (log_of n') in *. fold (full h n) in *. fold (full h n'). rewrite El, blen_app, term_before_app by done.
  split_and!; [done|lia|done].
Qed.

(** ** Memberships are never found in the log *)

(** All of [fixed] but the shape of the log. *)
Definition settled n : Prop :=
  n_bootstrap n = B ∧ n_members n = B ∧ n_voters n = config_voters B ∧ members_ok (snapshot_members (n_storage n)) ∧
  (∀ x k, n_incoming n = Some (x, k) → members_ok (st_sink_members k)) ∧ Forall (λ e, is_config e = false) (log_of n).

Lemma fixed_settled n : fixed n → settled n.
Proof. by intros []. Qed.

Lemma settled_fixed n : settled n → based h (slog n) → fixed n.
Proof. by intros (? & ? & ? & ? & ? & ?). Qed.

Lemma EntryLog_entry_in l i e : EntryLog_entry l i = Some e → e ∈ el_entries l.
Proof.
  unfold EntryLog_entry. destruct (EntryLog_position l i) as [p|]; [|done]. simpl. apply list_elem_of_lookup_2.
Qed.

Lemma scan_config_fixed (st : St) idxs start :
  Forall (λ e, is_config e = false) (el_entries (st_log st)) → scan_config st idxs start = start.
Proof.
  intros Hl. unfold scan_config. revert start. induction idxs as [|i idxs IH]; intros start; [done|]. cbn [foldl].
  etrans; [|exact (IH start)]. f_equal. destruct (entry st i) as [e|] eqn:Ee; [|done].
  rewrite law_entry in Ee. apply EntryLog_entry_in in Ee. rewrite list.Forall_forall in Hl. specialize (Hl _ Ee). by destruct e as [t ix []].
Qed.

Lemma or_insert_lookup k m0 p i : or_insert k 0 m0 !! p = Some i → i = 0 ∨ m0 !! p = Some i.
Proof.
  unfold or_insert. destruct (m0 !! k) eqn:E; [by right|]. rewrite lookup_insert_Some. intros [[_ <-]|[_ ?]]; auto.
Qed.

Lemma or_insert_all ks m0 p i : foldl (λ m k, or_insert k 0 m) m0 ks !! p = Some i → i = 0 ∨ m0 !! p = Some i.
Proof.
  revert m0. induction ks as [|k ks IH]; intros m0; simpl; [by right|]. intros [?|Hp]%IH; [by left|]. by apply or_insert_lookup in Hp.
Qed.

Lemma reload_settled n : settled n → settled (reload_membership n) ∧ (match_ok n → match_ok (reload_membership n)).
Proof.
  intros Hf. pose proof Hf as (F1 & F2 & F3 & F4 & F5 & F6). unfold reload_membership.
  destruct F4 as [E|E]; rewrite E, scan_config_fixed, ?F1 by done; cbn zeta iota beta; case_bool_decide as Hr; unfold match_ok; cbn.
  1, 3: split; [split_and!; try done; by (left + right)|]; intros Hm Hl p i Hp; apply map_lookup_filter_Some in Hp as [Hp _]; apply or_insert_all in Hp as [?|Hp]; [by left|by apply Hm].
  all: split; [split_and!; try done; by (left + right)|]; intros _ Hl; by destruct Hr.
Qed.

Lemma members_at_settled n i : settled n → members_at n i = B.
Proof.
  intros (F1 & _ & _ & F4 & _ & F6). unfold members_at. rewrite scan_config_fixed by done. cbn [fst]. destruct F4 as [->| ->]; done.
Qed.

Lemma reload_fixed n : fixed n → fixed (reload_membership n) ∧ (match_ok n → match_ok (reload_membership n)).
Proof.
  intros Hf. destruct (reload_settled n (fixed_settled n Hf)) as [F M]. split; [|done]. apply settled_fixed; [done|].
  unfold slog. destruct (reload_membership_same n) as [-> _]. apply Hf.
Qed.

(** A node that starts with the membership nobody has changed. *)
Lemma with_members_fixed id config (st : St) :
  members_ok (snapshot_members st) → Forall (λ e, is_config e = false) (el_entries (st_log st)) → based h (st_log st) →
  fixed (with_members id B config st) ∧ n_commit_index (with_members id B config st) = blen h ∧
  n_last_applied (with_members id B config st) = blen h.
Proof.
  intros Hs Hl Hb. unfold with_members. destruct (random_timeout _ _) as [timeout rng]. rewrite law_snapshot_meta, (proj2 Hb). unfold reload_membership. cbn.
  destruct Hs as [E|E]; rewrite E, scan_config_fixed by done; cbn; (split; [|done]); split; try done; by (left + right).
Qed.

(** ** What is counted *)

Section counted.
Variable n0 : Node St.

(** What a message says of what is committed or held. *)
Definition sent_ok n (a : Action) : Prop :=
  match a with
  | Send _ (AppendEntries _ _ _ _ lc _) => lc = n_commit_index n0 ∨ chosen_by n lc
  | Send _ (AppendEntriesReply _ ok _ _ _ _) => ok = false
  | Send _ (InstallSnapshot _ _ _ _ _ _ _ ms) => members_ok ms
  | Send _ (InstallSnapshotReply _ _ _ fin _) => fin = false
  | _ => True
  end.

(** The same, of a message that is not a leader's. *)
Definition mild (a : Action) : Prop :=
  match a with
  | Send _ (AppendEntries _ _ _ _ _ _) | Send _ (InstallSnapshot _ _ _ _ _ _ _ _) => False
  | Send _ (AppendEntriesReply _ ok _ _ _ _) => ok = false
  | Send _ (InstallSnapshotReply _ _ _ fin _) => fin = false
  | _ => True
  end.

Lemma mild_sent n a : mild a → sent_ok n a.
Proof. by destruct a as [to []]. Qed.

Record counted s : Prop := {
  cn_fixed : fixed s.1;
  cn_match : match_ok s.1;
  cn_commit : n_commit_index s.1 = n_commit_index n0 ∨ led n0 s.1 ∧ chosen_by s.1 (n_commit_index s.1);
  cn_applied : n_last_applied s.1 = n_last_applied n0 ∨ n_last_applied s.1 = n_commit_index n0;
  cn_sent : Forall (sent_ok s.1) s.2;
}.

(** A leader counts on. *)
Definition Counts s s' : Prop :=
  counted s → n_role s.1 = Leader → counted s' ∧ n_role s'.1 = Leader.

#[local] Instance Counts_preorder : PreOrder Counts.
Proof.
  split; [by intros s|]. intros s1 s2 s3 H12 H23 H1 Hl. destruct (H12 H1 Hl) as [H2 Hl2]. by apply H23.
Qed.

(** Updates that touch nothing of this. *)
Definition same_count n n' : Prop :=
  same_core n n' ∧ n_bootstrap n' = n_bootstrap n ∧ n_members n' = n_members n ∧ n_voters n' = n_voters n ∧
  n_incoming n' = n_incoming n ∧ n_last_applied n' = n_last_applied n.

Lemma fixed_same n n' : same_count n n' → fixed n → fixed n'.
Proof.
  intros ((_ & _ & E) & E1 & E2 & E3 & E4 & _) [F1 F2 F3 F4 F5 F6 F7].
  split; [congruence..| | | |]; unfold log_of, slog in *; rewrite ?E4; by rewrite ?E.
Qed.

Lemma sent_same n n' a : same_core n n' → based h (slog n) → sent_ok n a → sent_ok n' a.
Proof.
  intros Hs Hw. destruct a as [to []]; try done. simpl. intros [?|Hc]; [by left|right].
  eapply chosen_by_extends; [done|by apply extends_same|done].
Qed.

Lemma counts_modn f :
  (∀ n, same_count n (f n) ∧ n_commit_index (f n) = n_commit_index n ∧ n_match_index (f n) = n_match_index n) → Steps Counts (modn f).
Proof.
  intros Hf s [C1 C2 C3 CA C4] Hl. unfold modn, mmodify. cbn [snd fst]. destruct (Hf s.1) as (Hs & Ec & Em). pose proof Hs as (Hcore & _ & _ & _ & _ & Ea).
  pose proof (fx_based _ C1) as Hw. pose proof Hcore as (E1 & E2 & E3). assert (node_term (f s.1) = node_term s.1) as Et by (unfold node_term; by rewrite E3).
  split; [|by cbn; rewrite E2]. split; cbn [fst snd].
  - by eapply fixed_same.
  - unfold match_ok. by rewrite E2, Em, Et.
  - rewrite Ec. destruct C3 as [?|[_ Hc]]; [by left|right]. split; [left; by rewrite E2|]. eapply chosen_by_extends; [done|by apply extends_same|done].
  - by rewrite Ea.
  - eapply list.Forall_impl; [exact C4|]. intros a. by apply sent_same.
Qed.

Lemma counts_emit a : (∀ n, n_commit_index n = n_commit_index n0 ∨ chosen_by n (n_commit_index n) → sent_ok n a) → Steps Counts (emit a).
Proof.
  intros Ha s [C1 C2 C3 CA C4] Hl. unfold emit, mmodify. cbn [snd fst]. split; [|done]. split; [done..|]. cbn [fst snd].
  apply Forall_app_2; [done|]. constructor; [|done]. apply Ha. destruct C3 as [?|[_ ?]]; auto.
Qed.

Lemma counts_emit_mild a : mild a → Steps Counts (emit a).
Proof. intros Ha. apply counts_emit. intros n _. by apply mild_sent. Qed.

Lemma counts_getn {A C} (f : Node St → A) (k : A → Handler St C) : (∀ a, Steps Counts (k a)) → Steps Counts (getn f ≫= k).
Proof. intros Hk. apply steps_bind; [apply _|apply steps_gets, _|done]. Qed.

Lemma counts_mtry {A} (m : Handler St A) : Steps Counts m → Steps Counts (mtry m).
Proof. intros Hm s. specialize (Hm s). unfold mtry. by destruct (m s). Qed.

Lemma reload_applied n : n_last_applied (reload_membership n) = n_last_applied n.
Proof. unfold reload_membership. destruct (scan_config _ _ _). by case_bool_decide. Qed.

Lemma counts_reload : Steps Counts (modn reload_membership).
Proof.
  intros s [C1 C2 C3 CA C4] Hl. unfold modn, mmodify. cbn [snd fst]. destruct (reload_fixed s.1 C1) as [F M].
  pose proof (same_reload s.1) as Hs. pose proof Hs as (E1 & E2 & E3). pose proof (fx_based _ C1) as Hw.
  destruct (reload_membership_same s.1) as [_ Ec]. split; [|cbn; congruence]. split; cbn [fst snd]; [done|auto| | |].
  - rewrite Ec. destruct C3 as [?|[_ Hc]]; [by left|right]. split; [left; congruence|]. eapply chosen_by_extends; [done|by apply extends_same|done].
  - by rewrite reload_applied.
  - eapply list.Forall_impl; [exact C4|]. intros a. by apply sent_same.
Qed.

(** ** Committing *)

Lemma filter_members (X : gset NodeId) (P : NodeId → Prop) `{∀ v, Decision (P v)} (l : list NodeId) :
  (∀ v, v ∈ l → v ∈ X ↔ P v) → filter (λ v, v ∈ X) l = filter P l.
Proof.
  induction l as [|v l IH]; intros Hl; [done|]. rewrite !filter_cons.
  assert (v ∈ X ↔ P v) as Hv by (apply Hl, elem_of_cons; by left). rewrite IH by (intros w Hw; apply Hl, elem_of_cons; by right).
  repeat case_decide; tauto.
Qed.

Lemma holders_quorum n i : n_voters n ≠ [] → quorum n ≤ blen (holders n i) → quorum_of (n_voters n) (list_to_set (holders n i)) = true.
Proof.
  intros Hne Hq. apply quorum_of_spec. split; [done|]. rewrite (filter_members _ (λ v, i ≤ progress n v)); [exact Hq|].
  intros v Hv. unfold holders. rewrite elem_of_list_to_set, list_elem_of_filter. tauto.
Qed.

Lemma counts_commit : Steps Counts (modn maybe_commit).
Proof.
  intros s [C1 C2 C3 CA C4] Hl. unfold modn, mmodify. cbn [snd fst]. unfold maybe_commit. case_bool_decide as Hne; [by split|].
  cbv zeta. destruct (N.ltb_spec (n_commit_index s.1) (majority_index s.1)) as [Hlt|_]; [|by split]. simpl. case_bool_decide as Ht; [|by split].
  rewrite law_term_at in Ht. fold (slog s.1) in Ht.
  assert (chosen_by s.1 (majority_index s.1)) as Hc.
  { split_and!; [lia|done|]. pose proof (proj1 (majority_index_spec s.1 (majority_index s.1) Hne) ltac:(lia)) as Hq.
    exists (list_to_set (holders s.1 (majority_index s.1))). rewrite <-(fx_voters _ C1). split; [by apply holders_quorum|]. intros v Hv.
    apply elem_of_list_to_set, list_elem_of_filter in Hv as [Hv _]. unfold progress in Hv.
    destruct (N.eqb_spec v (n_id s.1)) as [Ev|_]; [by left|right]. destruct (n_match_index s.1 !! v) as [i|] eqn:Em; simpl in Hv; [|lia].
    destruct (C2 Hl _ _ Em) as [->|Ha]; [lia|]. by eapply Ack_le. }
  split; [|done]. split; [by destruct C1|done|right; split; [by left|exact Hc]|exact CA|exact C4].
Qed.

(** ** What a leader does *)

Lemma counts_append es :
  Forall (λ e, is_config e = false) es →
  ∀ s, contiguous (last_index (n_storage s.1) + 1) es → Forall (λ e, e_term e = node_term s.1) es → Counts s (on_storage (append es) s).2.
Proof.
  intros Hes s Hc Ht [C1 C2 C3 CA C4] Hl. pose proof (fx_based _ C1) as Hw. destruct (lead_append h es s Hc Ht Hw) as [HE _].
  pose proof (ext_term _ _ _ HE) as Et. pose proof (law_append_members es (n_storage s.1)) as Hms.
  assert (∃ es', log_of (on_storage (append es) s).2.1 = log_of s.1 ++ es' ∧ Forall (λ e, is_config e = false) es') as (es' & El & Hes').
  { unfold on_storage. destruct (append es (n_storage s.1)) as [[[]|e] st] eqn:E; cbn.
    - apply law_append_ok in E. exists es. split; [|done]. unfold log_of, slog. simpl. by rewrite E, push_all_entries.
    - apply law_append_err in E. exists []. rewrite app_nil_r. split; [|done]. unfold log_of, slog. simpl. by rewrite E. }
  pose proof HE as [E1 _ E3 Hw' _]. unfold on_storage in *. destruct (append es (n_storage s.1)) as [r st]. cbn [snd fst] in *.
  split; [|done]. split; cbn [fst snd].
  - destruct C1 as [F1 F2 F3 F4 F5 F6 F7]. split; [done..|cbn; by rewrite Hms|done| |done]. rewrite El. by apply Forall_app_2.
  - unfold match_ok. rewrite Et. exact C2.
  - destruct C3 as [?|[_ Hch]]; [by left|right]. split; [by left|]. by apply (chosen_by_extends s.1).
  - exact CA.
  - eapply list.Forall_impl; [exact C4|]. intros [to []]; try done. simpl. intros [?|?]; [by left|right]. by apply (chosen_by_extends s.1).
Qed.

Lemma counts_bind_at {A C} (m : Handler St A) (f : A → Handler St C) s :
  Counts s (m s).2 → (∀ a, Steps Counts (f a)) → Counts s ((m ≫= f) s).2.
Proof. intros Hm Hf. unfold mbind, M_bind. destruct (m s) as [[a|e] s1]; [|done]. etrans; [exact Hm|]. apply Hf. Qed.

Lemma counts_getn_at {A C} (f : Node St → A) (k : A → Handler St C) s :
  Counts s (k (f s.1) s).2 → Counts s ((getn f ≫= k) s).2.
Proof. done. Qed.

Lemma counts_send_append peer : Steps Counts (send_append peer).
Proof.
  intros s. unfold send_append, getn, mgets, mbind, M_bind, id, mlift. destruct (append_message_for s.1 peer) as [a|e] eqn:E; [|done].
  intros [C1 C2 C3 CA C4] Hl. split; [|done]. split; [done..|]. cbn [fst snd emit mmodify]. apply Forall_app_2; [done|]. constructor; [|done].
  unfold append_message_for in E. case_match; [|injection E as <-; destruct C3 as [?|[_ ?]]; [by left|by right]].
  destruct (read_snapshot _ _ _); [|done]. injection E as <-. apply (fx_snapshot _ C1).
Qed.

Lemma counts_broadcast : Steps Counts (broadcast_append (S := St)).
Proof.
  unfold broadcast_append. apply counts_getn. intros n. apply steps_bind; [apply _|apply steps_when; [apply _|]; apply counts_reload|intros _].
  apply counts_getn. intros rs. apply steps_iter; [apply _|]. apply counts_send_append.
Qed.

Lemma counts_append_local c : is_config (mkEntry 0 0 c) = false → Steps Counts (append_local (S := St) c).
Proof.
  intros Hc s. unfold append_local. change (Counts s ((on_storage (append [mkEntry (node_term s.1) (last_index (n_storage s.1) + 1) c]) ;;
    mwhen (match c with Config _ => true | _ => false end) (modn reload_membership) ;; modn maybe_commit ;;
    mret (last_index (n_storage s.1) + 1)) s).2). apply counts_bind_at.
  - apply counts_append; [by constructor| |by constructor]. intros k e [-> <-]%list_lookup_singleton_Some. simpl. lia.
  - intros _. apply steps_bind; [apply _|apply steps_when; [apply _|]; apply counts_reload|intros _].
    apply steps_bind; [apply _|apply counts_commit|intros _]. apply steps_ret, _.
Qed.

Lemma counts_append_and_broadcast c : is_config (mkEntry 0 0 c) = false → Steps Counts (append_and_broadcast (S := St) c).
Proof.
  intros Hc. unfold append_and_broadcast. apply steps_bind; [apply _|by apply counts_mtry, counts_append_local|intros [i|e]; [|apply steps_ret, _]].
  apply steps_bind; [apply _|apply counts_mtry, counts_broadcast|intros [u|e]; apply steps_ret, _].
Qed.

Lemma counts_propose c : Steps Counts (propose_h (S := St) c).
Proof.
  unfold propose_h. apply counts_getn. intros n. destruct (negb _); [apply steps_ret, _|]. destruct (_ <? _); [apply steps_ret, _|].
  by apply counts_append_and_broadcast.
Qed.

Lemma batch_entries_data term next max cs es answers :
  batch_entries term next max cs = (es, answers) → Forall (λ e, is_config e = false) es.
Proof.
  revert next es answers. induction cs as [|c cs IH]; intros next es answers; cbn [batch_entries]; [by intros [= <- _]|].
  destruct (_ <? _).
  - destruct (batch_entries term next max cs) as [es1 as1] eqn:E. intros [= <- _]. by eapply IH.
  - destruct (batch_entries term (next + 1) max cs) as [es1 as1] eqn:E. intros [= <- _]. constructor; [done|by eapply IH].
Qed.

Lemma counts_propose_batch cs : Steps Counts (propose_batch_h (S := St) cs).
Proof.
  intros s. unfold propose_batch_h. apply counts_getn_at. unfold id. destruct (negb _); [reflexivity|].
  destruct (batch_entries _ _ _ cs) as [es answers] eqn:E. destruct (batch_entries_terms _ _ _ _ _ _ E) as [Hc Ht].
  apply batch_entries_data in E. case_bool_decide; [reflexivity|]. apply counts_bind_at; [|intros [u|e]; apply steps_ret, _].
  unfold mtry. match goal with |- context [let '(_, _) := ?m s in _] => assert (Counts s (m s).2) as Hm; [|by destruct (m s)] end.
  apply counts_bind_at; [by apply counts_append|]. intros _. apply steps_bind; [apply _|apply counts_commit|intros _]. apply counts_broadcast.
Qed.

(** There is no learner to promote. *)
Lemma counts_maybe_promote : Steps Counts (maybe_promote (S := St)).
Proof.
  intros s Hc Hl. unfold maybe_promote, getn, mgets, mbind, M_bind, id. destruct (_ || _); [done|].
  assert (promoted s.1 = None) as ->; [|done]. unfold promoted. rewrite (fx_members _ (cn_fixed _ Hc)).
  rewrite (proj2 (list_find_None _ _)); [done|]. eapply list.Forall_impl; [exact HB|]. intros m Hm [Hm' _]. congruence.
Qed.

Ltac solve_count :=
  intros ?n; unfold same_count, same_core; cbn; repeat case_match; done.

Lemma counts_read_round : Steps Counts (open_read_round (S := St)).
Proof.
  intros s. unfold open_read_round. apply counts_bind_at; [apply counts_modn; solve_count|]. intros _ s1 Hc Hl.
  unfold getn, mgets, mbind, M_bind, id. cbv zeta.
  match goal with |- context [miter ?f ?l s1] => assert (counted (miter f l s1).2 ∧ n_role (miter f l s1).2.1 = Leader) as Hi; [|by destruct (miter f l s1) as [[]]] end.
  set (n1 := s1.1). assert (s1.1 = n1) as E1 by done. clearbody n1. revert s1 Hc Hl E1. generalize (n_replicas n1) as ps.
  induction ps as [|p ps IH]; intros s1 Hc Hl E1; [by split|]. cbn [miter]. unfold mbind, M_bind.
  destruct (_ <=? _); cbn; [by apply IH|]. apply IH; [|done|done]. destruct Hc as [C1 C2 C3 CA C4]. split; [done..|]. cbn [snd fst].
  apply Forall_app_2; [done|]. constructor; [|done]. simpl. rewrite <-E1. destruct C3 as [?|[_ ?]]; [by left|by right].
Qed.

Lemma counts_release_reads : Steps Counts (release_reads (S := St)).
Proof.
  unfold release_reads. apply counts_getn. intros n. case_bool_decide; [apply steps_ret, _|].
  apply steps_bind; [apply _|apply counts_modn; solve_count|intros _]. apply steps_iter; [apply _|]. intros r. apply counts_getn. intros n'.
  destruct (round_confirmed _ _); [by apply counts_emit_mild|apply counts_modn; solve_count].
Qed.

Lemma counts_heard_round from term seq : Steps Counts (heard_round (S := St) from term seq).
Proof.
  unfold heard_round. apply counts_getn. intros n. destruct (_ || _); [apply steps_ret, _|].
  apply steps_bind; [apply _|apply counts_modn; solve_count|intros _]. apply counts_getn. intros n'.
  apply steps_bind; [apply _|apply steps_when; [apply _|]|intros _; apply steps_ret, _].
  apply steps_bind; [apply _|apply counts_modn; solve_count|intros _]. apply counts_release_reads.
Qed.

(** A follower's answer raises what it is known to hold. *)
Lemma counts_match from mi s :
  Ack (node_term s.1) from mi →
  Counts s (modn (λ n, maybe_commit (set_next_index (<[from := mi + 1]> (n_next_index n)) (set_match_index (<[from := mi]> (n_match_index n)) n))) s).2.
Proof.
  intros Ha. set (g n := set_next_index (<[from := mi + 1]> (n_next_index n)) (set_match_index (<[from := mi]> (n_match_index n)) n)).
  change (Counts s ((modn g ;; modn maybe_commit) s).2). apply counts_bind_at; [|intros _; apply counts_commit].
  intros [C1 C2 C3 CA C4] Hl. split; [|done]. split; [by destruct C1| |done..]. intros _ p i. cbn. rewrite lookup_insert_Some.
  intros [[<- <-]|[_ Hp]]; [by right|]. by apply C2.
Qed.

(** A step that cannot fail, after which the term is the same. *)
Lemma counts_modn_bind {C} f (k : unit → Handler St C) s :
  Counts s (modn f s).2 → Counts (f s.1, s.2) (k tt (f s.1, s.2)).2 → Counts s ((modn f ≫= k) s).2.
Proof. intros H1' H2'. etrans; [exact H1'|exact H2']. Qed.

Lemma counts_append_reply from ok mi ci ct s :
  (ok = true → Ack (node_term s.1) from mi) → Counts s (handle_append_reply from ok mi ci ct s).2.
Proof.
  intros Ha. unfold handle_append_reply. apply counts_getn_at. unfold id. destruct ok; cbv zeta.
  - case_match; [|reflexivity]. apply counts_bind_at; [by apply counts_match, Ha|]. intros _. apply counts_getn. intros m.
    apply steps_when; [apply _|]. apply counts_send_append.
  - apply counts_bind_at; [apply counts_modn; solve_count|]. intros _. apply counts_send_append.
Qed.

Lemma counts_snapshot_reply from li no fin s :
  (fin = true → Ack (node_term s.1) from li) → Counts s (handle_snapshot_reply from li no fin s).2.
Proof.
  intros Ha. unfold handle_snapshot_reply. apply counts_getn_at. unfold id. destruct fin; cbv zeta.
  - apply counts_modn_bind; [apply counts_modn; solve_count|].
    apply counts_bind_at; [destruct (_ <? _); [by apply counts_match, Ha|reflexivity]|]. intros _. apply counts_getn. intros m.
    apply steps_when; [apply _|]. apply counts_send_append.
  - apply counts_bind_at; [apply counts_modn; solve_count|]. intros _. apply counts_send_append.
Qed.

Lemma counts_read_index from id_ : Steps Counts (handle_read_index (S := St) from id_).
Proof.
  unfold handle_read_index. apply counts_getn. intros n. destruct (negb _); [by apply counts_emit_mild|].
  apply steps_bind; [apply _|apply counts_read_round|intros [seq index]]. apply counts_modn; solve_count.
Qed.

(** A reply only a leader of its term listens to. *)
Lemma counts_heard from term seq (k : Handler St unit) s :
  counted s → n_role s.1 = Leader → (∀ s', node_term s'.1 = term → Counts s' (k s').2) →
  Counts s ((heard ← heard_round from term seq; mwhen heard k) s).2.
Proof.
  intros Hc Hl Hk. pose proof (counts_heard_round from term seq s) as Hh. pose proof (lead_heard_round h from term seq s (fx_based _ (cn_fixed _ Hc))) as [HE _].
  pose proof (ext_term _ _ _ HE) as Et. unfold mbind, M_bind.
  destruct (decide (term = node_term s.1)) as [Heq|Hne].
  - destruct (heard_round from term seq s) as [[b|e] s1]; cbn [snd fst] in *; [|done]. etrans; [exact Hh|]. destruct b; [|reflexivity].
    apply Hk. congruence.
  - assert (heard_round from term seq s = (Ok false, s)) as ->; [|reflexivity]. unfold heard_round, getn, mgets. unfold mbind at 1, M_bind at 1, id.
    rewrite (proj2 (N.eqb_neq _ _)) by done. by rewrite orb_true_r.
Qed.

(** ** Everything that is not a leader's *)

(** Nothing committed yet by this operation, nothing said of it. *)
Record calm s : Prop := {
  cm_fixed : fixed s.1;
  cm_match : match_ok s.1;
  cm_commit : n_commit_index s.1 = n_commit_index n0;
  cm_applied : n_last_applied s.1 = n_last_applied n0;
  cm_sent : Forall mild s.2;
}.

Lemma calm_counted s : calm s → counted s.
Proof. intros [C1 C2 C3 CA C4]. split; [done|done|by left|by left|]. eapply list.Forall_impl; [exact C4|]. intros a. apply mild_sent. Qed.

(** An update that leaves the membership, the storage and the commit index alone. *)
Definition quiet n n' : Prop :=
  n_storage n' = n_storage n ∧ n_commit_index n' = n_commit_index n ∧ n_bootstrap n' = n_bootstrap n ∧
  n_members n' = n_members n ∧ n_voters n' = n_voters n ∧ n_last_applied n' = n_last_applied n ∧
  (∀ x, n_incoming n' = Some x → n_incoming n = Some x) ∧
  (n_role n' = Leader → n_role n = Leader ∧ n_match_index n' = n_match_index n).

Lemma fixed_storage n st :
  fixed n → st_log st = slog n → snapshot_members st = snapshot_members (n_storage n) → fixed (set_storage st n).
Proof. intros [F1 F2 F3 F4 F5 F6 F7] El Em. split; [done..|cbn; by rewrite Em|done| |]; unfold log_of, slog in *; simpl; by rewrite El. Qed.

Lemma calm_quiet s n : calm s → quiet s.1 n → calm (n, s.2).
Proof.
  intros [C1 C2 C3 CA C4] (E1 & E2 & E3 & E4 & E5 & E7 & E8 & E6). split; cbn [fst snd]; [|..|congruence|congruence|done].
  - destruct C1 as [F1 F2 F3 F4 F5 F6 F7]. split; [congruence..| | |unfold log_of, slog in *; by rewrite E1|unfold slog in *; by rewrite E1].
    + by rewrite E1.
    + intros x k Hk%E8. by eapply F5.
  - intros Hl. destruct (E6 Hl) as [Hl' ->]. unfold node_term. rewrite E1. by apply C2.
Qed.

Lemma quiet_reset n : quiet n (reset_election_timer n).
Proof. unfold reset_election_timer. destruct (random_timeout _ _). done. Qed.

Lemma quiet_trans n1 n2 n3 : quiet n1 n2 → quiet n2 n3 → quiet n1 n3.
Proof.
  intros (?&?&?&?&?&?&I1&Q1) (?&?&?&?&?&?&I2&Q2). split_and!; try congruence; [by auto|]. intros Hl. destruct (Q2 Hl) as [Hl2 ->]. destruct (Q1 Hl2) as [? ->]. done.
Qed.

Lemma quiet_plain n n' :
  n_storage n' = n_storage n → n_commit_index n' = n_commit_index n → n_bootstrap n' = n_bootstrap n →
  n_members n' = n_members n → n_voters n' = n_voters n → n_last_applied n' = n_last_applied n →
  (∀ x, n_incoming n' = Some x → n_incoming n = Some x) → n_role n' ≠ Leader → quiet n n'.
Proof. by intros. Qed.

(** A new hard state, in a node that does not lead, or in the term it leads. *)
Lemma wp_save_calm hs (Q : unit → HState St → Prop) s :
  calm s → (n_role s.1 = Leader → hs_term hs = node_term s.1) →
  (∀ st, calm (set_storage st s.1, s.2) → Q tt (set_storage st s.1, s.2)) →
  wp (on_storage (save_hard_state hs)) Q (λ _, True) s.
Proof.
  intros [C1 C2 C3 CA C4] Ht HQ. unfold wp, on_storage. pose proof (law_save_log hs (n_storage s.1)) as Hl.
  pose proof (law_save_members hs (n_storage s.1)) as Hm.
  destruct (save_hard_state hs (n_storage s.1)) as [[[]|e] st] eqn:E; [|done]. apply law_save_ok in E. apply HQ.
  split; [by apply fixed_storage| |done|done|done]. cbn [fst]. intros Hr p i Hp. unfold node_term at 1. cbn. rewrite E, Ht by done. by apply C2.
Qed.

Lemma wp_modn_calm f s (Q : unit → HState St → Prop) :
  calm s → quiet s.1 (f s.1) → (∀ n, n = f s.1 → calm (n, s.2) → Q tt (n, s.2)) → wp (modn f) Q (λ _, True) s.
Proof. intros Hc Hq HQ. apply wp_modn, HQ; [done|]. by apply calm_quiet. Qed.

Lemma wp_emit_calm a s : calm s → mild a → wp (emit a) (λ _, calm) (λ _, True) s.
Proof. intros [C1 C2 C3 CA C4] Ha. split; [done..|]. cbn. apply Forall_app_2; [done|by constructor]. Qed.

Lemma wp_send_calm m s : calm s → (∀ p, mild (Send p m)) → wp (send_to_peers m) (λ _, calm) (λ _, True) s.
Proof.
  intros [C1 C2 C3 CA C4] Hm. apply wp_send_to_peers. split; [done..|]. cbn. apply Forall_app_2; [done|].
  apply list.Forall_forall. by intros a (p & -> & _)%list_elem_of_fmap.
Qed.

Lemma wp_calm {A} (m : Handler St A) s : wp m (λ _, calm) (λ _, True) s → wp m (λ _, counted) (λ _, True) s.
Proof. intros Hw. eapply wp_mono; [exact Hw|intros a s' Hc; by apply calm_counted|done]. Qed.

(** A leader's work, from a state that is already a leader's. *)
Lemma wp_counts {A} (m : Handler St A) s :
  (Counts s (m s).2) → counted s → n_role s.1 = Leader → wp m (λ _ s', counted s' ∧ n_role s'.1 = Leader) (λ _, True) s.
Proof. intros Hm Hc Hl. unfold wp. specialize (Hm Hc Hl). by destruct (m s) as [[a|e] s']. Qed.

Lemma zero_match (l : list NodeId) p i : foldl (λ (m : gmap NodeId N) p, <[p := 0]> m) ∅ l !! p = Some i → i = 0.
Proof.
  assert (∀ m0 : gmap NodeId N, (∀ q j, m0 !! q = Some j → j = 0) → foldl (λ m p, <[p := 0]> m) m0 l !! p = Some i → i = 0) as Hg; [|apply Hg; by intros q j].
  induction l as [|x l IH]; intros m0 Hm0; simpl; [by apply Hm0|]. apply IH. intros q j. rewrite lookup_insert_Some. intros [[_ <-]|[_ Hq]]; [done|by eapply Hm0].
Qed.

Lemma wp_become_leader_calm s : calm s → wp become_leader (λ _, counted) (λ _, True) s.
Proof.
  intros [C1 C2 C3 CA C4]. unfold become_leader. apply wp_bind, wp_modn, wp_bind, wp_modn. cbn [fst snd].
  match goal with |- wp _ _ _ ?s1 => assert (counted s1) as Hc; [|assert (n_role s1.1 = Leader) as Hl by done; set (s2 := s1) in *; clearbody s2] end.
  { split; cbn [fst snd]; [by destruct C1| |by left|by left|].
    - intros _ p i Hp. left. by apply zero_match in Hp.
    - eapply list.Forall_impl; [exact C4|]. intros a. apply mild_sent. }
  eapply wp_mono; [apply wp_counts; [|done|done]|by intros a s' [? _]|done].
  apply (steps_bind Counts); [by apply counts_append_local|]. intros i.
  apply steps_bind; [apply _|apply counts_modn; solve_count|intros _]. apply counts_broadcast.
Qed.

Lemma wp_stand_calm term s :
  calm s →
  wp (n ← getn id;
      if has_quorum n (n_votes n) then become_leader
      else send_to_peers (RequestVote term (last_index (n_storage n)) (last_term (n_storage n))))
    (λ _, counted) (λ _, True) s.
Proof.
  intros Hc. apply wp_getn. unfold id. case_match; [by apply wp_become_leader_calm|]. apply wp_calm, wp_send_calm; [done|]. by intros p.
Qed.

Lemma wp_become_candidate_calm s : calm s → wp become_candidate (λ _, counted) (λ _, True) s.
Proof.
  intros Hc. unfold become_candidate. apply wp_getn. unfold id. apply wp_bind, wp_modn_calm; [done|by apply quiet_plain|].
  intros n1 E1 Hc1. assert (n_role n1 = Candidate) as Hr by by rewrite E1. clear E1.
  apply wp_bind, wp_save_calm; [done|cbn; congruence|]. intros st Hc2. apply wp_bind, wp_modn_calm; [done| |].
  - eapply quiet_trans; [|apply quiet_reset]. apply quiet_plain; try done. cbn. congruence.
  - intros n2 _ Hc3. by apply wp_stand_calm.
Qed.

Lemma wp_poll_calm s :
  calm s →
  wp (n ← getn id;
      if has_quorum n (n_votes n) then become_candidate
      else send_to_peers (PreVote (node_term n + 1) (last_index (n_storage n)) (last_term (n_storage n))))
    (λ _, counted) (λ _, True) s.
Proof.
  intros Hc. apply wp_getn. unfold id. case_match; [by apply wp_become_candidate_calm|]. apply wp_calm, wp_send_calm; [done|]. by intros p.
Qed.

Lemma wp_become_pre_candidate_calm s : calm s → wp become_pre_candidate (λ _, counted) (λ _, True) s.
Proof.
  intros Hc. unfold become_pre_candidate. apply wp_bind, wp_modn_calm; [done| |intros n1 _ Hc1; by apply wp_poll_calm].
  eapply quiet_trans; [|apply quiet_reset]. by apply quiet_plain.
Qed.

(** ** A leader's message *)

Definition Settles s s' : Prop := (settled s.1 → settled s'.1) ∧ n_last_applied s'.1 = n_last_applied s.1.

#[local] Instance Settles_preorder : PreOrder Settles.
Proof. split; [by intros s|]. intros s1 s2 s3 [H12 E12] [H23 E23]. split; [by auto|congruence]. Qed.

Lemma settles_getn {A C} (f : Node St → A) (k : A → Handler St C) : (∀ a, Steps Settles (k a)) → Steps Settles (getn f ≫= k).
Proof. intros Hk. apply steps_bind; [apply _|apply steps_gets, _|done]. Qed.

(** Another storage, with the memberships of the old one and no configuration in its log. *)
Lemma settled_storage n st :
  settled n → snapshot_members st = snapshot_members (n_storage n) → Forall (λ e, is_config e = false) (el_entries (st_log st)) → settled (set_storage st n).
Proof. intros (F1 & F2 & F3 & F4 & F5 & F6) Hm Hl. split_and!; try done. cbn. by rewrite Hm. Qed.

Lemma settles_append es : Forall (λ e, is_config e = false) es → Steps Settles (on_storage (append es)).
Proof.
  intros Hes s. unfold on_storage. pose proof (law_append_members es (n_storage s.1)) as Hm.
  destruct (append es (n_storage s.1)) as [[[]|e] st] eqn:E; cbn [snd fst] in *; (split; [|done]); intros Hs; apply settled_storage; try done; destruct Hs as (_ & _ & _ & _ & _ & F6).
  - apply law_append_ok in E. rewrite E, push_all_entries. by apply Forall_app_2.
  - apply law_append_err in E. by rewrite E.
Qed.

Lemma settles_truncate i : Steps Settles (on_storage (truncate_from i)).
Proof.
  intros s. unfold on_storage. pose proof (law_truncate_members i (n_storage s.1)) as Hm.
  pose proof (law_truncate_log i (n_storage s.1)) as Hl. destruct (truncate_from i (n_storage s.1)) as [r st]; cbn [snd fst] in *.
  split; [|done]. intros Hs. apply settled_storage; [done|done|]. destruct Hs as (_ & _ & _ & _ & _ & F6). rewrite Hl. unfold EntryLog_truncate_from. cbn. by apply Forall_take.
Qed.

Lemma settles_scan es i k : Steps Settles (scan_conflict i es k).
Proof.
  revert i k. induction es as [|e es IH]; intros i k; cbn [scan_conflict]; [apply steps_ret, _|]. apply settles_getn. intros n.
  destruct (term_at _ _) as [t|]; [|apply steps_ret, _]. destruct (_ =? _); [apply IH|].
  apply steps_bind; [apply _|apply settles_truncate|intros _]. apply steps_ret, _.
Qed.

Lemma settles_append_after from prev pt es lc sq :
  Forall (λ e, is_config e = false) es → Steps Settles (append_after from prev pt es lc sq).
Proof.
  intros Hes. unfold append_after. apply settles_getn. intros n. destruct (negb _); [destruct (term_at _ _); by intros s|].
  apply steps_bind; [apply _|apply settles_scan|intros [k tr]].
  apply steps_bind; [apply _|apply steps_when; [apply _|]; apply settles_append; by apply Forall_drop|intros _].
  apply steps_bind; [apply _|apply steps_when; [apply _|]; intros s; split; [intros Hs; by apply reload_settled|apply reload_applied]|intros _].
  apply steps_bind; [apply _|intros s; unfold modn, mmodify; cbn; by case_match|intros _]. by intros s.
Qed.

(** ** Handlers *)

Variable msg : option (NodeId * Message).

(** A follower has taken up a leader's message. *)
Definition merged s : Prop :=
  ∃ from prev pt es lc sq prev' pt' es', msg = Some (from, AppendEntries (node_term s.1) prev pt es lc sq) ∧
    effective h prev pt es prev' pt' es' ∧ EntryLog_term_at (slog n0) prev' = Some pt' ∧ slog s.1 = merge_log (slog n0) prev' es' ∧
    n_role s.1 = Follower ∧ n_commit_index s.1 = commit_after (n_commit_index n0) lc (prev' + blen es') ∧
    n_last_applied s.1 = n_last_applied n0 ∧
    s.2 = [Send from (AppendEntriesReply (node_term s.1) true (prev' + blen es') 0 None sq)].

(** Its snapshot has all the message carries. *)
Definition skipped s : Prop :=
  ∃ from prev pt es lc sq, msg = Some (from, AppendEntries (node_term s.1) prev pt es lc sq) ∧
    slog s.1 = slog n0 ∧ n_role s.1 = Follower ∧ n_commit_index s.1 = n_commit_index n0 ∧ n_last_applied s.1 = n_last_applied n0 ∧
    s.2 = [Send from (AppendEntriesReply (node_term s.1) true (blen h) 0 None sq)].

(** It has a leader's snapshot, from before or from now on. *)
Definition installed s : Prop :=
  ∃ from li lt off data fin sq ms held, msg = Some (from, InstallSnapshot (node_term s.1) li lt off data fin sq ms) ∧
    n_role s.1 = Follower ∧ s.2 = [Send from (InstallSnapshotReply (node_term s.1) li held true sq)] ∧
    (li ≤ n_commit_index n0 ∧ slog s.1 = slog n0 ∧ n_commit_index s.1 = n_commit_index n0 ∧ n_last_applied s.1 = n_last_applied n0 ∨
     slog s.1 = (EntryLog_compact (slog n0) (mkMeta li lt)).2 ∧
       n_commit_index s.1 = N.max (n_commit_index n0) li ∧ n_last_applied s.1 = N.max (n_last_applied n0) li).

Definition CPost s : Prop := settled s.1 ∧ match_ok s.1 ∧ (counted s ∨ merged s ∨ skipped s ∨ installed s).

Lemma counted_post s : counted s → CPost s.
Proof. intros Hc. pose proof Hc as []. split_and!; auto using fixed_settled. Qed.

Lemma wp_counted {A} (m : Handler St A) s : wp m (λ _, counted) (λ _, True) s → wp m (λ _, CPost) (λ _, True) s.
Proof. intros Hw. eapply wp_mono; [exact Hw|intros a s' Hc; by apply counted_post|done]. Qed.

Lemma wp_mild {A} (m : Handler St A) s : wp m (λ _, calm) (λ _, True) s → wp m (λ _, CPost) (λ _, True) s.
Proof. intros Hw. by apply wp_counted, wp_calm. Qed.

Lemma calm_post s : calm s → CPost s.
Proof. intros Hc. by apply counted_post, calm_counted. Qed.

Lemma wp_become_follower_calm term leader s : calm s → wp (become_follower term leader) (λ _, calm) (λ _, True) s.
Proof.
  intros Hc. unfold become_follower. apply wp_getn, wp_bind, wp_modn_calm; [done|by apply quiet_plain|]. intros n1 E1 Hc1.
  assert (n_role n1 = Follower) as Hr by by rewrite E1. clear E1. apply wp_bind, wp_when; intros _.
  - apply wp_save_calm; [done|cbn; congruence|]. intros st Hc2. apply wp_modn_calm; [done|apply quiet_reset|done].
  - apply wp_modn_calm; [done|apply quiet_reset|done].
Qed.

Lemma wp_request_vote_calm from li lt s : calm s → wp (handle_request_vote from li lt) (λ _, CPost) (λ _, True) s.
Proof.
  intros Hc. unfold handle_request_vote. apply wp_mild, wp_getn. cbv beta zeta delta [id]. apply wp_bind, wp_when; intros _.
  - apply wp_bind, wp_save_calm; [done|done|]. intros st Hc1. apply wp_modn_calm; [done|apply quiet_reset|]. intros n1 _ Hc2.
    apply wp_getn. by apply wp_emit_calm.
  - apply wp_getn. by apply wp_emit_calm.
Qed.

Lemma wp_vote_reply_calm from term granted s : calm s → wp (handle_vote_reply from term granted) (λ _, CPost) (λ _, True) s.
Proof.
  intros Hc. unfold handle_vote_reply. apply wp_getn. unfold id. case_match; [by apply wp_ret, calm_post|].
  destruct granted; [|by apply wp_ret, calm_post]. apply wp_bind, wp_modn_calm; [done|done|]. intros n1 _ Hc1. apply wp_getn.
  apply wp_when; intros _; [by apply wp_counted, wp_become_leader_calm|by apply calm_post].
Qed.

Lemma wp_pre_vote_reply_calm from term granted s : calm s → wp (handle_pre_vote_reply from term granted) (λ _, CPost) (λ _, True) s.
Proof.
  intros Hc. unfold handle_pre_vote_reply. apply wp_getn. unfold id. destruct granted.
  - case_match; [|by apply wp_ret, calm_post]. apply wp_bind, wp_modn_calm; [done|done|]. intros n1 _ Hc1. apply wp_getn.
    apply wp_when; intros _; [by apply wp_counted, wp_become_candidate_calm|by apply calm_post].
  - apply wp_when; intros _; [|by apply calm_post]. by apply wp_mild, wp_become_follower_calm.
Qed.

(** Whoever hears a leader follows it. *)
Lemma quiet_heard from n : quiet n (heard_leader from n).
Proof. unfold heard_leader. eapply quiet_trans; [|apply quiet_reset]. by apply quiet_plain. Qed.

(** A storage with the same log, hard state and memberships. *)
Lemma calm_storage s st :
  calm s → hard_state st = hs_of s.1 → st_log st = slog s.1 → snapshot_members st = snapshot_members (n_storage s.1) → calm (set_storage st s.1, s.2).
Proof.
  intros [C1 C2 C3 CA C4] Hh Hl Hm. split; [by apply fixed_storage| |done..]. unfold match_ok. cbn [fst].
  by rewrite (node_term_hs s.1 (set_storage st s.1) Hh).
Qed.

(** A sink is opened for a snapshot. *)
Lemma wp_new_snapshot_calm meta ms (Q : Sink → HState St → Prop) s :
  calm s →
  (∀ k st, st_sink_members k = ms → calm (set_storage st s.1, s.2) → node_term (set_storage st s.1) = node_term s.1 →
    slog (set_storage st s.1) = slog s.1 → sink_meta k = meta → Q k (set_storage st s.1, s.2)) →
  wp (on_storage (new_snapshot meta ms)) Q (λ _, True) s.
Proof.
  intros Hc HQ. unfold wp, on_storage. pose proof (law_new_snapshot_hs meta ms (n_storage s.1)) as Hh.
  pose proof (law_new_snapshot_log meta ms (n_storage s.1)) as Hl. pose proof (law_new_snapshot_members meta ms (n_storage s.1)) as Hm.
  destruct (new_snapshot meta ms (n_storage s.1)) as [[k|e] st] eqn:E; [|done]. cbn [snd] in *.
  apply HQ; [by eapply law_new_snapshot_sink_members|by apply calm_storage|by apply node_term_hs|done|by eapply law_new_snapshot_sink].
Qed.

Lemma calm_incoming s x k : calm s → members_ok (st_sink_members k) → calm (set_incoming (Some (x, k)) s.1, s.2).
Proof. intros [[F1 F2 F3 F4 F5 F6 F7] C2 C3 CA C4] Hk. split; [split; try done; by intros x' k' [= _ <-]|done..]. Qed.

Lemma wp_take_snapshot_calm from li lt off data sq ms held k s :
  msg = Some (from, InstallSnapshot (node_term s.1) li lt off data true sq ms) → calm s → slog s.1 = slog n0 → s.2 = [] →
  n_role s.1 = Follower → sink_meta k = mkMeta li lt → members_ok (st_sink_members k) →
  wp (take_snapshot from li (node_term s.1) sq held k) (λ _, CPost) (λ _, True) s.
Proof.
  intros Hm [[F1 F2 F3 F4 F5 F6 F7] C2 C3 CA C4] El Es Hr Hk Hms. apply wp_bind, wp_modn, wp_bind. unfold wp at 1, on_storage. cbn [n_storage fst snd set_incoming].
  pose proof (law_install_hs k (n_storage s.1)) as Hh. pose proof (law_install_members k (n_storage s.1)) as Him.
  destruct (install_snapshot k (n_storage s.1)) as [[[]|e] st] eqn:E; [|done]. apply law_install_ok in E. rewrite Hk in E. cbn [snd] in Hh, Him.
  apply wp_bind, wp_modn, wp_bind, wp_modn. cbn [fst snd]. set (n1 := set_storage st _).
  assert (settled n1) as Hs1.
  { split_and!; try done; cbn.
    - destruct Him as [->| ->]; done.
    - unfold log_of, slog. cbn. rewrite E. fold (slog s.1). unfold EntryLog_compact. destruct (_ <=? _); cbn; [done|]. case_bool_decide; [by apply Forall_drop|done]. }
  destruct (reload_settled n1 Hs1) as [Hs2 _]. destruct (same_reload n1) as (E1 & E2 & E3). pose proof (reload_applied n1) as Ea. pose proof (proj2 (reload_membership_same n1)) as Ec.
  set (n2 := reload_membership n1) in *. clearbody n2.
  assert (node_term n2 = node_term s.1) as Et by (apply node_term_hs; unfold hs_of; rewrite E3; done).
  unfold wp, emit, mmodify. cbn [fst snd]. split_and!.
  - destruct Hs2 as (?&?&?&?&?&?). by split_and!.
  - intros Hl. cbn in Hl. rewrite E2 in Hl. cbn in Hl. congruence.
  - right. right. right. exists from, li, lt, off, data, true, sq, ms, held. cbn [fst snd]. change (node_term (set_last_applied _ _)) with (node_term n2). rewrite Et, Es.
    split_and!; [done|cbn; by rewrite E2|done|right]. cbn. rewrite Ea, Ec. cbn. rewrite C3, CA. split_and!; [|done|done].
    unfold slog at 1. cbn. rewrite E3. cbn. rewrite E. fold (slog s.1). by rewrite El.
Qed.

Lemma wp_take_chunk_calm from li lt off data fin sq ms s :
  msg = Some (from, InstallSnapshot (node_term s.1) li lt off data fin sq ms) → calm s → slog s.1 = slog n0 → s.2 = [] →
  n_role s.1 = Follower → (∀ x k, n_incoming s.1 = Some (x, k) → sink_meta k = mkMeta li lt) →
  wp (take_chunk from li (node_term s.1) off data fin sq) (λ _, CPost) (λ _, True) s.
Proof.
  intros Hm Hc El Es Hr Hin. unfold take_chunk. apply wp_getn. unfold id. destruct (n_incoming s.1) as [[x k]|] eqn:Ei; [|by apply wp_ret, calm_post].
  pose proof (fx_incoming _ (cm_fixed _ Hc) _ _ Ei) as Hk.
  cbv zeta. destruct (negb (off =? _)); [by apply wp_mild, wp_emit_calm|]. pose proof (law_sink_write_meta data k) as Hmeta. pose proof (law_sink_write_members data k) as Hmem.
  destruct (sink_write_all data k) as [r k']. cbn [snd] in Hmeta, Hmem. rewrite (Hin _ _ eq_refl) in Hmeta. rewrite <-Hmem in Hk.
  pose proof (calm_incoming s x k' Hc Hk) as Hc'. apply wp_bind, wp_modn, wp_bind.
  destruct r as [[]|e]; [|done]. unfold wp at 1. cbn [mlift]. destruct fin; cbn [negb]; [|by apply wp_mild, wp_emit_calm].
  by eapply (wp_take_snapshot_calm from li lt off data sq ms _ k' (set_incoming (Some (x, k')) s.1, s.2)).
Qed.

Lemma wp_install_calm from li lt off data fin sq ms s :
  msg = Some (from, InstallSnapshot (node_term s.1) li lt off data fin sq ms) → members_ok ms → calm s → slog s.1 = slog n0 → s.2 = [] →
  wp (handle_install_snapshot from (mkMeta li lt) off data fin sq ms) (λ _, CPost) (λ _, True) s.
Proof.
  intros Hm Hms Hc El Es. rewrite handle_install_unfold. apply wp_bind, wp_modn_calm; [done|apply quiet_heard|]. intros n1 E1 Hc1.
  assert (n_role n1 = Follower) as Hr by (rewrite E1; unfold heard_leader, reset_election_timer; by destruct (random_timeout _ _)).
  assert (node_term n1 = node_term s.1) as Et by (rewrite E1; apply heard_leader_term).
  assert (slog n1 = slog n0) as El1 by (rewrite E1, heard_leader_slog; done). clear E1. rewrite <-Et in Hm. rewrite Es in Hc1 |- *.
  apply wp_getn. unfold id. cbn [fst snd sm_index]. destruct (N.leb_spec li (n_commit_index n1)) as [Hle|_].
  { apply wp_bind, wp_modn_calm; [done|done|]. intros n2 E2 Hc2. unfold wp, emit, mmodify. cbn [fst snd app].
    split_and!; [apply fixed_settled, Hc2|apply Hc2|right; right; right]. cbn [fst snd]. rewrite E2.
    exists from, li, lt, off, data, fin, sq, ms, 0. split_and!; try done. left. pose proof (cm_commit _ Hc1). pose proof (cm_applied _ Hc1). cbn in *. split_and!; [lia|done..]. }
  destruct (negb (continuing _ _ _) && _); [by apply wp_mild, wp_emit_calm|]. apply wp_bind, wp_when; intros Hco.
  - apply wp_bind, wp_new_snapshot_calm; [done|]. intros k st Hk Hc2 Et2 El2 Hmeta. cbn [fst snd] in *. apply wp_modn. rewrite <-Et2 in Hm |- *.
    apply (wp_take_chunk_calm from li lt off data fin sq ms (set_incoming (Some (from, k)) (set_storage st n1), [])); try done.
    + apply (calm_incoming (set_storage st n1, [])); [done|by rewrite Hk].
    + change (slog (set_storage st n1) = slog n0). by rewrite El2.
    + by intros x k0 [= _ <-].
  - apply (wp_take_chunk_calm from li lt off data fin sq ms (n1, [])); try done. cbn [fst]. intros x k Hi. unfold continuing in Hco. rewrite Hi in Hco.
    apply negb_false_iff, andb_true_iff in Hco as [_ Hco]. by apply bool_decide_eq_true in Hco.
Qed.

(** What a leader does in answer, or nobody else. *)
Lemma wp_leads {A} (m : Handler St A) s : Counts s (m s).2 → calm s → n_role s.1 = Leader → wp m (λ _, CPost) (λ _, True) s.
Proof.
  intros Hm Hc Hl. apply wp_counted. eapply wp_mono; [apply wp_counts; [exact Hm|by apply calm_counted|done]|by intros a s' [? _]|done].
Qed.

Lemma wp_read_index_calm from id_ s : calm s → wp (handle_read_index from id_) (λ _, CPost) (λ _, True) s.
Proof.
  intros Hc. destruct (decide (n_role s.1 = Leader)) as [Hl|Hl]; [apply wp_leads; [apply counts_read_index|done..]|].
  unfold handle_read_index. apply wp_getn. unfold id. rewrite bool_decide_false by done. by apply wp_mild, wp_emit_calm.
Qed.

Lemma wp_heard_calm from term seq (k : Handler St unit) s :
  (∀ s', node_term s'.1 = term → Counts s' (k s').2) → calm s →
  wp (heard ← heard_round from term seq; mwhen heard k) (λ _, CPost) (λ _, True) s.
Proof.
  intros Hk Hc. destruct (decide (n_role s.1 = Leader)) as [Hl|Hl].
  - apply wp_leads; [|done|done]. apply counts_heard; [by apply calm_counted|done|done].
  - apply wp_bind. unfold heard_round. apply wp_getn. unfold id. rewrite bool_decide_false by done. cbn [negb orb].
    apply wp_ret, wp_when; [done|]. intros _. by apply calm_post.
Qed.

Lemma wp_append_calm from prev pt es lc sq s :
  msg = Some (from, AppendEntries (node_term s.1) prev pt es lc sq) → Forall (λ e, is_config e = false) es →
  calm s → slog s.1 = slog n0 → s.2 = [] →
  wp (handle_append_entries from prev pt es lc sq) (λ _, CPost) (λ _, True) s.
Proof.
  intros Hm Hes Hc El0 Hs0. pose proof (calm_quiet s _ Hc (quiet_heard from s.1)) as Hc1. unfold wp. rewrite handle_append_entries_unfold. cbv zeta.
  pose proof (fx_based _ (cm_fixed _ Hc)) as Hb. rewrite (proj2 Hb). cbn [sm_index sm_term].
  set (s1 := (heard_leader from s.1, s.2)) in *. assert (slog s1.1 = slog n0) as El by (unfold s1; cbn [fst]; by rewrite heard_leader_slog).
  assert (node_term s1.1 = node_term s.1) as Et by apply heard_leader_term. rewrite El0 in Hb.
  assert (n_role s1.1 = Follower) as Hrh by (unfold s1, heard_leader, reset_election_timer; cbn; by destruct (random_timeout _ _)).
  assert (∀ prev' pt' es', effective h prev pt es prev' pt' es' → blen h ≤ prev' → Forall (λ e, is_config e = false) es' →
    match append_after from prev' pt' es' lc sq s1 with (Ok _, s') => CPost s' | _ => True end) as Hafter.
  { intros prev' pt' es' Heff Hle Hes'. destruct (decide (EntryLog_term_at (slog n0) prev' = Some pt')) as [Hpt|Hpt]; cycle 1.
    { destruct (append_after_reject from prev' pt' es' lc sq s1) as (ci & ct & E & _); [rewrite El; apply Hb|rewrite El, (proj2 Hb); simpl; lia|by rewrite El|].
      rewrite E. apply calm_post. destruct Hc1 as [C1 C2 C3 CA C4]. split; [done..|]. cbn. apply Forall_app_2; [done|by constructor]. }
    pose proof (wp_append_after from prev' pt' es' lc sq s1) as Ha. rewrite El in Ha. specialize (Ha (proj1 Hb) Hpt). unfold wp in Ha.
    pose proof (steps_append_after from prev' pt' es' lc sq s1) as Hfr. 
    pose proof (settles_append_after from prev' pt' es' lc sq Hes' s1) as [Hset Hap]. specialize (Hset (fixed_settled _ (cm_fixed _ Hc1))).
    destruct (append_after from prev' pt' es' lc sq s1) as [[[]|e] s']; [|done]. destruct Ha as (Ha & Hl & Hco).
    destruct Hfr as ([F1 _ _ F4 _ _] & Hro & _). cbn [snd] in F1, F4, Hro, Hset, Hap.
    assert (n_role s'.1 = Follower) as Hr by (destruct Hro; congruence).
    assert (node_term s'.1 = node_term s.1) as Et' by (rewrite <-Et; by apply node_term_hs).
    rewrite El in Hl. split_and!; [done|unfold match_ok; congruence|right; left].
    exists from, prev, pt, es, lc, sq, prev', pt', es'. rewrite Et', Ha, Hco, Hap, (cm_commit _ Hc1), (cm_applied _ Hc1), Et. split_and!; try done. unfold s1. cbn. by rewrite Hs0. }
  destruct (N.ltb_spec prev (blen h)); [|apply Hafter; [by left|done|done]].
  destruct (blen es <=? _); [|apply Hafter; [by right|lia|by apply Forall_drop]].
  unfold emit, mmodify. split_and!; [apply fixed_settled, Hc1|apply Hc1|right; right; left]. exists from, prev, pt, es, lc, sq. cbn [fst snd]. fold s1.1.
  change (node_term (heard_leader from s.1)) with (node_term s1.1). rewrite Et. pose proof (cm_commit _ Hc1). pose proof (cm_applied _ Hc1). split_and!; try done. unfold s1. cbn. by rewrite Hs0.
Qed.

(** A message of a cluster that changes no membership. *)
Definition tame (from : NodeId) (m : Message) : Prop :=
  match m with
  | AppendEntries _ prev _ es _ _ => Forall (λ e, is_config e = false) es
  | AppendEntriesReply t ok mi _ _ _ => ok = true → Ack t from mi
  | InstallSnapshot _ _ _ _ _ _ _ ms => members_ok ms
  | InstallSnapshotReply t li _ fin _ => fin = true → Ack t from li
  | _ => True
  end.

Lemma wp_step_current_calm from m s :
  msg = Some (from, m) → tame from m → current m s.1 → calm s → slog s.1 = slog n0 → s.2 = [] →
  wp (step_current from m) (λ _, CPost) (λ _, True) s.
Proof.
  intros Hm Hu Hcur Hc El Es. destruct m; cbn [step_current tame current] in *; subst; lazymatch goal with
  | |- wp (mret _) _ _ _ => by apply wp_ret, calm_post
  | |- wp (handle_request_vote _ _ _) _ _ _ => by apply wp_request_vote_calm
  | |- wp (handle_vote_reply _ _ _) _ _ _ => by apply wp_vote_reply_calm
  | |- wp (handle_append_entries _ _ _ _ _ _) _ _ _ => by apply wp_append_calm
  | |- wp (handle_install_snapshot _ _ _ _ _ _ _) _ _ _ => by apply wp_install_calm
  | |- wp (handle_read_index _ _) _ _ _ => by apply wp_read_index_calm
  | |- wp (modn _) _ _ _ => apply wp_mild, wp_modn_calm; [done|by repeat case_match|done]
  | |- _ => idtac
  end.
  all: apply wp_heard_calm; [|done]; intros s' Ht; first [apply counts_snapshot_reply; by rewrite Ht | apply counts_append_reply; by rewrite Ht].
Qed.

Lemma wp_and {A} (m : Handler St A) (P Q : A → HState St → Prop) s :
  wp m P (λ _, True) s → wp m Q (λ _, True) s → wp m (λ a s', P a s' ∧ Q a s') (λ _, True) s.
Proof. unfold wp. by destruct (m s) as [[a|e] s']. Qed.

Lemma wp_settle_calm from m s :
  msg = Some (from, m) → tame from m → LStart h n0 msg s → calm s →
  wp (if node_term s.1 <? msg_term m then become_follower (msg_term m) None ;; step_current from m
      else if (msg_term m <? node_term s.1) && is_request m then emit (reply_stale s.1 from m)
      else step_current from m) (λ _, CPost) (λ _, True) s.
Proof.
  intros Hm Hu HS Hc. case_match eqn:Hlt; [|case_match eqn:Hst].
  - apply N.ltb_lt in Hlt. apply wp_bind.
    eapply wp_mono; [apply (wp_and _ (λ _ s', LPre h n0 msg s' ∧ node_term s'.1 = msg_term m) (λ _, calm))| |done].
    + apply (wp_become_follower_log h n0 msg); [apply HS|lia|]. auto.
    + by apply wp_become_follower_calm.
    + intros _ s' [[HP Ht] Hc']. apply wp_step_current_calm; [done|done|rewrite <-?Ht; by destruct m|done|apply HP|apply HP].
  - apply wp_mild, wp_emit_calm; [done|]. destruct m; try done. 
  - apply wp_step_current_calm; try done; [|apply HS..]. apply N.ltb_ge in Hlt. destruct m; try done; simpl in *;
      rewrite andb_true_r in Hst; apply N.ltb_ge in Hst; lia.
Qed.

Lemma wp_step_calm from m s :
  msg = Some (from, m) → tame from m → LStart h n0 msg s → calm s → wp (step_h from m) (λ _, CPost) (λ _, True) s.
Proof.
  intros Hm Hu HS Hc. unfold step_h. apply wp_getn. unfold id. case_match; [apply wp_mild, wp_emit_calm; [done|by destruct m]|].
  pose proof (wp_settle_calm from m s Hm Hu HS Hc) as Hrest. destruct m; try exact Hrest.
  - unfold handle_pre_vote. apply wp_mild, wp_getn. by apply wp_emit_calm.
  - by apply wp_pre_vote_reply_calm.
Qed.

(** ** Time *)

(** A leader that was one when the operation began. *)
Definition still_leads s : Prop := counted s ∧ n_role s.1 = Leader ∧ n_role n0 = Leader ∧ node_term n0 = node_term s.1.

Lemma wp_still {A C} (m : Handler St A) (k : A → Handler St C) (Q : C → HState St → Prop) s :
  Steps Counts m → Steps (Leading h) m → still_leads s → (∀ a s', still_leads s' → wp (k a) Q (λ _, True) s') → wp (m ≫= k) Q (λ _, True) s.
Proof.
  intros Hm Hm' (Hc & Hl & Hl0 & Ht) Hk. apply wp_bind. specialize (Hm s Hc Hl). specialize (Hm' s (fx_based _ (cn_fixed _ Hc))) as [HE _].
  pose proof (ext_term _ _ _ HE) as Et. unfold wp at 1. destruct (m s) as [[a|e] s']; [|done]. cbn [snd fst] in *. apply Hk. destruct Hm. split_and!; try done. congruence.
Qed.

Lemma wp_step_down_counted s : still_leads s → wp (become_follower (node_term s.1) None) (λ _, counted) (λ _, True) s.
Proof.
  intros ([C1 C2 C3 CA C4] & Hl & Hl0 & Ht0). unfold become_follower. apply wp_getn, wp_bind, wp_modn.
  cbv beta zeta delta [id]. change (hs_term (hard_state (n_storage s.1))) with (node_term s.1).
  rewrite N.eqb_refl. apply wp_bind, wp_ret, wp_modn. cbn [fst snd].
  match goal with |- context [reset_election_timer ?n] => pose proof (quiet_reset n) as Hq;
    assert (n_role (reset_election_timer n) = Follower) as Hr by (unfold reset_election_timer; by destruct (random_timeout _ _));
    assert (n_id (reset_election_timer n) = n_id s.1) as Ei by (unfold reset_election_timer; by destruct (random_timeout _ _));
    set (n1 := reset_election_timer n) in * end. clearbody n1.
  destruct Hq as (E1 & E2 & E3 & E4 & E5 & E6 & E7 & _). cbn in E1, E2, E3, E4, E5, E6, E7.
  assert (node_term n1 = node_term s.1) as Et by (unfold node_term; by rewrite E1).
  assert (∀ i, chosen_by s.1 i → chosen_by n1 i) as Hch by (intros i; unfold chosen_by, slog; by rewrite Et, E1, Ei).
  split; cbn [fst snd].
  - destruct C1 as [F1 F2 F3 F4 F5 F6 F7]. split; [congruence..|by rewrite E1| |unfold log_of, slog in *; by rewrite E1|unfold slog in *; by rewrite E1].
    intros x k Hk%E7. by eapply F5.
  - unfold match_ok. congruence.
  - rewrite E2. destruct C3 as [?|[_ Hc]]; [by left|right]. split; [right; split; congruence|auto].
  - by rewrite E6.
  - eapply list.Forall_impl; [exact C4|]. intros [to []]; try done. simpl. intros [?|?]; auto.
Qed.

Lemma wp_tick_leader_counted s :
  still_leads s →
  wp (modn (λ n, set_heartbeat_elapsed (n_heartbeat_elapsed n + 1) n) ;;
      n ← getn id;
      mwhen (heartbeat_ticks (n_config n) <=? n_heartbeat_elapsed n)
        (modn (set_heartbeat_elapsed 0) ;; broadcast_append) ;;
      maybe_promote ;;
      modn (λ n, set_election_elapsed (n_election_elapsed n + 1) n) ;;
      n ← getn id;
      mwhen (n_election_timeout n <=? n_election_elapsed n)
        (let reachable := has_quorum n ({[n_id n]} ∪ n_active n) in
         modn (set_active ∅) ;;
         if negb reachable then become_follower (node_term n) None
         else modn (set_election_elapsed 0))) (λ _, counted) (λ _, True) s.
Proof.
  intros HL. apply wp_still; [apply counts_modn; solve_count|by apply lead_modn|done|]. intros _ s1 H1'. apply wp_getn.
  apply wp_still; [| |done|intros _ s2 H2'].
  { apply steps_when; [apply _|]. apply steps_bind; [apply _|apply counts_modn; solve_count|intros _]. apply counts_broadcast. }
  { apply steps_when; [apply _|]. apply steps_bind; [apply _|by apply lead_modn|intros _]. apply lead_broadcast. }
  apply wp_still; [apply counts_maybe_promote|apply lead_maybe_promote|done|]. intros _ s3 H3'.
  apply wp_still; [apply counts_modn; solve_count|by apply lead_modn|done|]. intros _ s4 H4'. apply wp_getn. apply wp_when; [|intros _; apply H4']. intros _.
  cbv zeta. apply wp_still; [apply counts_modn; solve_count|by apply lead_modn|done|]. intros _ s5 H5'. case_match.
  - replace (node_term (id s4.1)) with (node_term s5.1); [by apply wp_step_down_counted|].
    destruct H4' as (_ & _ & _ & E4), H5' as (_ & _ & _ & E5). unfold id. congruence.
  - destruct H5' as (Hc & Hl & _). eapply wp_mono; [apply wp_counts; [apply counts_modn; solve_count|done|done]|by intros a s' [? _]|done].
Qed.

Lemma wp_tick_calm s :
  calm s → (n_role s.1 = Leader → n_role n0 = Leader ∧ node_term n0 = node_term s.1) → wp tick_h (λ _, CPost) (λ _, True) s.
Proof.
  intros Hc H0'. unfold tick_h. apply wp_getn. unfold id. apply wp_counted. destruct (n_role s.1) eqn:Hr; cycle 3.
  { assert (still_leads s) as HL by (split; [by apply calm_counted|]; destruct (H0' eq_refl); done).
    case_match; [by apply wp_step_down_counted|by apply wp_tick_leader_counted]. }
  all: apply wp_bind, wp_modn_calm; [done|done|]; intros n1 _ Hc1; apply wp_getn, wp_when; unfold id; intros _; [|by apply calm_counted].
  all: case_match; [by apply wp_become_pre_candidate_calm|].
  all: apply wp_calm, wp_modn_calm; [done| |done]; eapply quiet_trans; [|apply quiet_reset]; by apply quiet_plain.
Qed.
End counted.

(** ** Every operation *)

Definition same_members (i : Input St) : Prop :=
  match i with InFinish _ | InMembership _ => False | InStep from m => tame from m | _ => True end.

Lemma run_actions_counted n0 msg (m : Handler St unit) acts n' :
  wp m (λ _, CPost n0 msg) (λ _, True) (n0, []) → run_actions m n0 = (Ok acts, n') → CPost n0 msg (n', acts).
Proof. unfold wp, run_actions. destruct (m (n0, [])) as [[[]|e] [n1 acts1]]; [|done]. by intros HP [= <- <-]. Qed.

Lemma counted_drop n0 s : counted n0 s → counted n0 (s.1, []).
Proof. intros [C1 C2 C3 CA C4]. by split. Qed.

Lemma calm_init n0 : fixed n0 → match_ok n0 → calm n0 (n0, []).
Proof. by intros. Qed.

Lemma run_propose_counted {A} n0 (m : Handler St (A + ProposeError)) acts n' :
  fixed n0 → match_ok n0 → Steps (Counts n0) m → (n_role n0 ≠ Leader → (m (n0, [])).2 = (n0, [])) →
  (Ok (match (run_propose m n0).1 with inl (_, acts) => acts | inr _ => [] end), (run_propose m n0).2) = (Ok acts, n') →
  CPost n0 None (n', acts).
Proof.
  intros Hf Hk Hm Hno E. assert (counted n0 (m (n0, [])).2) as HP.
  { pose proof (calm_counted n0 _ (calm_init n0 Hf Hk)) as H0'.
    destruct (decide (n_role n0 = Leader)) as [Hl|Hl]; [|by rewrite (Hno Hl)]. by apply (Hm (n0, [])). }
  apply counted_post. unfold run_propose in E. destruct (m (n0, [])) as [[[a|e]|e] [n1 acts1]]; simpl in *; injection E as <- <-;
    [done|by apply (counted_drop _ _ HP)..].
Qed.

(** One input, as what is committed sees it. *)
Lemma node_input_counted i n acts n' :
  fixed n → match_ok n → same_members i → node_input i n = (Ok acts, n') → CPost n (input_message i) (n', acts).
Proof.
  intros Hf Hk Hs. pose proof (calm_init n Hf Hk) as Hc. destruct i; unfold node_input; cbn [input_message] in *; try done.
  - apply run_actions_counted. by apply wp_tick_calm.
  - apply run_actions_counted. apply wp_step_calm; try done. apply LStart_init.
  - apply run_actions_counted, wp_getn, wp_when; intros _; [by apply wp_counted, wp_become_candidate_calm|by apply calm_post].
  - apply run_actions_counted, wp_getn, wp_when; intros _; [by apply wp_counted, wp_become_pre_candidate_calm|by apply calm_post].
  - apply run_propose_counted; [done|done|apply counts_propose|]. intros Hl. unfold propose_h, getn, mgets, mbind, M_bind, id. cbn [fst].
    by rewrite bool_decide_false.
  - apply run_propose_counted; [done|done|apply counts_propose_batch|]. intros Hl. unfold propose_batch_h, getn, mgets, mbind, M_bind, id. cbn [fst].
    by rewrite bool_decide_false.
  - unfold read_index. case_bool_decide as Hl.
    + pose proof (counts_read_round n (n, []) (calm_counted n _ Hc) Hl) as [HP' _].
      destruct (open_read_round (n, [])) as [[[seq index]|e] [n1 acts1]]; intros [= <- <-]; by apply counted_post.
    + destruct (n_leader_id n); intros [= <- <-]; [|by apply calm_post]. apply calm_post.
      eapply (calm_quiet n (n, [_])); [|done]. destruct Hc. split; [done..|]. by constructor.
  - intros [= <- <-]. apply calm_post. eapply (calm_quiet n (n, [])); [done|]. by destruct r.
  - unfold begin_compaction. destruct (_ || _); [intros [= <- <-]; by apply calm_post|]. destruct (term_at _ _) as [t|]; [|intros [= <- <-]; by apply calm_post].
    match goal with |- context [new_snapshot ?m ?ms ?st] => pose proof (law_new_snapshot_hs m ms st) as Hh; pose proof (law_new_snapshot_log m ms st) as Hl;
      pose proof (law_new_snapshot_members m ms st) as Hm; destruct (new_snapshot m ms st) as [[k|e] st'] end; [|done]. intros [= <- <-].
    apply calm_post, (calm_storage n (n, [])); done.
  - intros [= <- <-]. apply counted_post. unfold take_committed. destruct (_ <? _); [|by apply calm_counted].
    destruct Hc as [[F1 F2 F3 F4 F5 F6 F7] C2 C3 CA C4]. split; [by split|done|by left|by right|done].
Qed.

(** A snapshot of the node's own is begun, of what it has handed over. *)
Lemma begin_opens index n k n' :
  begin_compaction index n = (Ok (Some k), n') →
  sm_index (el_base (slog n)) < index ∧ index ≤ n_last_applied n ∧ st_sink_members k = Some (members_at n index) ∧
  ∃ t, sink_meta k = mkMeta index t ∧ EntryLog_term_at (slog n) index = Some t.
Proof.
  unfold begin_compaction. rewrite law_snapshot_meta. fold (slog n). destruct (_ || _) eqn:E; [done|]. apply orb_false_iff in E as [E1 E2].
  apply N.leb_gt in E1. apply N.ltb_ge in E2. rewrite law_term_at. fold (slog n). destruct (EntryLog_term_at _ _) as [t|]; [|done].
  destruct (new_snapshot _ _ _) as [[k'|e] st'] eqn:Ek; [|done]. intros [= <- _]. split_and!; [done|done|by eapply law_new_snapshot_sink_members|].
  exists t. split; [|done]. by eapply law_new_snapshot_sink.
Qed.

(** It is put in place. *)
Lemma finish_moves k n acts n' :
  node_input (InFinish k) n = (Ok acts, n') →
  acts = [] ∧ (n' = n ∨ ∃ st, n' = set_storage st n ∧ hard_state st = hs_of n ∧ st_log st = (EntryLog_compact (slog n) (sink_meta k)).2 ∧
    (snapshot_members st = snapshot_members (n_storage n) ∨ snapshot_members st = st_sink_members k)).
Proof.
  unfold node_input, finish_compaction. destruct (_ <=? _); [intros [= <- <-]; auto|].
  pose proof (law_install_hs k (n_storage n)) as Hh. pose proof (law_install_members k (n_storage n)) as Hm.
  destruct (install_snapshot k (n_storage n)) as [[[]|e] st] eqn:E; [|done]. intros [= <- <-]. split; [done|right]. exists st.
  split_and!; [done|done|by apply law_install_ok in E|done].
Qed.
End commit_steps.
