(* ===== verification/LeaderCompleteness.v ===== *)
(** * Committed entries are never lost (src/raft/node.rs)

    Leader completeness and state machine safety, for a cluster whose membership nobody changes.
    What a node has answered for it keeps, in its log or in a snapshot, unless a later leader's
    log lacks it; whoever votes does so with such a log, for a log at least as good; so, by
    induction on the term, no later leader lacks what a majority has answered for. *)

From S2P Require Import Prelude.
From S2P Require Import RaftLog.
From S2P Require Import Message.
From S2P Require Import NodeState.
From S2P Require Import Node.
From S2P Require Import NodeFrame.
From S2P Require Import Quorum.
From S2P Require Import Election.
From S2P Require Import ElectionSafety.
From S2P Require Import Replication.
From S2P Require Import Commit.
From S2P Require Import LogSteps.
From S2P Require Import LogMatching.
From S2P Require Import CommitSteps.

#[local] Open Scope N_scope.

(** ** Logs that have what a leader had *)

(** [l] has the first [i] entries of the log of the leader of [t]. *)
Definition has (leads : Leads) (t : N) (i : nat) (l : list Entry) : Prop :=
  ∃ u L, leads !! t = Some (u, L) ∧ (i ≤ length L)%nat ∧ (i ≤ length l)%nat ∧ take i l = take i L.

(** No leader logs an entry of a later term. *)
Definition terms_ok (leads : Leads) : Prop :=
  ∀ t u L e, leads !! t = Some (u, L) → e ∈ L → e_term e ≤ t.

Lemma has_app leads t i l l' : has leads t i l → has leads t i (l ++ l').
Proof. intros (u & L & E & HL & Hl & Ht). exists u, L. rewrite length_app, take_app_le by done. split_and!; [done|done|lia|done]. Qed.

Lemma has_le leads t i j l : has leads t i l → (j ≤ i)%nat → has leads t j l.
Proof. intros (u & L & E & HL & Hl & Ht) Hj. exists u, L. split_and!; [done|lia|lia|]. by eapply take_eq_le. Qed.

(** Terms do not decrease along a log. *)
Lemma made_of_sorted leads l j k e1 e2 :
  terms_ok leads → made_of leads l → l !! j = Some e1 → l !! k = Some e2 → (j ≤ k)%nat → e_term e1 ≤ e_term e2.
Proof.
  intros Hok Hl H1 H2 Hjk. destruct (Hl _ _ H2) as (u & L & E & T). apply (Hok _ _ _ e1 E).
  apply (list_elem_of_lookup_2 L j). rewrite <-(lookup_take_lt L (S k)), <-T, lookup_take_lt by lia. done.
Qed.

Lemma last_entry (l : list Entry) : l ≠ [] → ∃ e, l !! pred (length l) = Some e ∧ term_before l (blen l) = e_term e.
Proof.
  intros Hl. destruct l as [|x l]; [done|]. destruct (lookup_lt_is_Some_2 (x :: l) (length l)) as [e He]; [simpl; lia|]. exists e. split; [done|].
  unfold term_before, blen. rewrite (proj2 (N.eqb_neq _ _)) by (simpl; lia).
  replace (N.to_nat (N.of_nat (length (x :: l)) - 1)) with (length l) by (simpl; lia). by rewrite He.
Qed.

(** A log at least as good as one that has an entry of [t] at [i], made of leaders that all have it. *)
Lemma fresh_has leads t i u l0 L0 e lv ls :
  terms_ok leads → made_of leads lv → made_of leads ls →
  leads !! t = Some (l0, L0) → L0 !! i = Some e → e_term e = t →
  has leads t (S i) lv → fresh_as lv (blen ls) (term_before ls (blen ls)) → Forall (λ e, e_term e < u) ls →
  (∀ t' w L', t < t' → t' < u → leads !! t' = Some (w, L') → has leads t (S i) L') →
  has leads t (S i) ls.
Proof.
  intros Hok Hmv Hms E He Ht (l0' & L0' & E' & HL0 & Hlv & Tv) Hfresh Hlt Hall. rewrite E in E'. injection E' as <- <-.
  assert (lv !! i = Some e) as Hev by (rewrite <-(lookup_take_lt lv (S i)), Tv, lookup_take_lt by lia; done).
  destruct (last_entry lv) as (ev & Hlv' & Etv); [by intros ->|]. unfold fresh_as in Hfresh. rewrite Etv in Hfresh.
  pose proof (made_of_sorted leads lv i _ e ev Hok Hmv Hev Hlv' ltac:(lia)) as Hle. rewrite Ht in Hle.
  assert (ls ≠ []) as Hne.
  { intros ->. change (blen (@nil Entry)) with 0 in Hfresh. change (term_before [] 0) with 0 in Hfresh. unfold blen in Hfresh.
    destruct Hfresh as [Hz|[_ Hz]]; lia. }
  assert (0 < length ls)%nat as Hpos by (destruct ls; [done|simpl; lia]).
  destruct (last_entry ls Hne) as (es & Hls' & Ets). rewrite Ets in Hfresh.
  destruct (Hms _ _ Hls') as (w & Lc & Ec & Tc). replace (S (pred (length ls))) with (length ls) in Tc by (destruct ls; done).
  rewrite take_ge in Tc by done. assert (length ls ≤ length Lc)%nat as HLc.
  { apply (f_equal length) in Tc. rewrite length_take in Tc. lia. }
  destruct Hfresh as [Hft|[Hft Hfl]].
  - (* the last entry is of a later term *)
    assert (e_term es < u) as Hu by (rewrite list.Forall_lookup in Hlt; by eapply Hlt).
    destruct (Hall (e_term es) w Lc) as (x & Lx & Ex & HLx & HiLc & TiLc); [lia|done|done|]. rewrite E in Ex. injection Ex as <- <-.
    assert (S i ≤ length ls)%nat as Hil.
    { destruct (decide (S i ≤ length ls)%nat) as [|Hgt]; [done|exfalso].
      assert (Lc !! pred (length ls) = Some es) as HLce by (rewrite <-(lookup_take_lt Lc (length ls)), <-Tc by lia; done).
      assert (L0 !! pred (length ls) = Some es) as HL0e by (rewrite <-(lookup_take_lt L0 (S i)), <-TiLc, lookup_take_lt by lia; done).
      pose proof (Hok _ _ _ es E (list_elem_of_lookup_2 _ _ _ HL0e)). lia. }
    exists l0, L0. split_and!; [done|done|done|]. rewrite Tc, take_take, Nat.min_l by lia. done.
  - (* the two end in the same term *)
    destruct (Hmv _ _ Hlv') as (w' & Lv & Ev & Tv'). rewrite Hft, Ec in Ev. injection Ev as <- <-.
    replace (S (pred (length lv))) with (length lv) in Tv' by (destruct lv; [done|simpl; lia]). rewrite take_ge in Tv' by done.
    assert (length lv ≤ length ls)%nat as Hll by (unfold blen in Hfl; lia).
    exists l0, L0. split_and!; [done|done|lia|]. rewrite Tc, take_take, Nat.min_l by lia. rewrite <-Tv. rewrite Tv', take_take, Nat.min_l by lia. done.
Qed.

(** ** How the leaders' logs grow *)

Lemma has_grow leads leads' t i l : leads_grow leads leads' → has leads t i l → has leads' t i l.
Proof.
  intros Hg (u & L & E & HL & Hl & Ht). destruct (Hg _ _ _ E) as (es & E' & _). exists u, (L ++ es). rewrite length_app, take_app_le by done.
  split_and!; [done|lia|done|done].
Qed.

(** What a leader's log lacks at first it lacks for good. *)
Lemma has_shrink leads leads' t i t' u L w L' w' L'' :
  leads_grow leads leads' → terms_ok leads' → t < t' →
  leads !! t = Some (u, L) → (i ≤ length L)%nat → leads !! t' = Some (w, L') → leads' !! t' = Some (w', L'') →
  has leads' t i L'' → has leads t i L'.
Proof.
  intros Hg Hok Htt E Hi E1 E2 (u' & L2 & Et & _ & HiL & Ti). destruct (Hg _ _ _ E) as (es & Es & _). rewrite Es in Et. injection Et as <- <-.
  destruct (Hg _ _ _ E1) as (es' & Es' & Hes'). rewrite Es' in E2. injection E2 as <- <-. rewrite (take_app_le L) in Ti by done.
  exists u, L. destruct (decide (i ≤ length L')%nat) as [Hle|Hgt]; [by rewrite take_app_le in Ti by done|exfalso].
  rewrite length_app in HiL. destruct (lookup_lt_is_Some_2 es' 0) as [e He]; [lia|].
  assert ((L' ++ es') !! length L' = Some e) as He1 by (rewrite lookup_app_r, Nat.sub_diag by done; done).
  assert (L !! length L' = Some e) as He2 by (rewrite <-(lookup_take_lt L i), <-Ti, lookup_take_lt by lia; done).
  rewrite list.Forall_lookup in Hes'. pose proof (Hes' _ _ He) as Ht. pose proof (Hok _ _ _ e Es) as Hle.
  assert (e ∈ L ++ es) as Hin by (apply elem_of_app; left; by eapply list_elem_of_lookup_2). specialize (Hle Hin). lia.
Qed.

(** ** The cluster *)

Section cluster.
Context {S : Type} `{StorageLaws S}.
Implicit Types (n : Node S) (c : Cluster (S := S)).

Variable B : list Member.
Hypothesis HB : Forall (λ m, m_learner m = false) B.

Definition unchanging (i : Input S) : bool := match i with InBegin _ | InFinish _ | InMembership _ => false | _ => true end.

(** Nodes run, crash and start again with what their storage holds; nobody changes the membership. *)
Inductive sstep : Cluster → Cluster → Prop :=
  | ss_input c v n i acts n' :
      c_procs c !! v = Some (Up n) → unchanging i = true →
      (∀ from m, input_message i = Some (from, m) → (from, v, m) ∈ c_net c) →
      node_input i n = (Ok acts, n') →
      sstep c (advance v n (Up n') acts c)
  | ss_crash c v n st :
      c_procs c !! v = Some (Up n) → hard_state st = hard_state (n_storage n) → st_log st = slog n →
      snapshot_members st = snapshot_members (n_storage n) →
      sstep c (advance v n (Down st) [] c)
  | ss_restart c v st config :
      c_procs c !! v = Some (Down st) →
      sstep c (mkCluster (<[v := Up (with_members v B config st)]> (c_procs c)) (c_net c) (c_votes c) (c_elections c)).

(** The same with snapshots: a node begins one of what it has handed over, writes it in the background,
    whatever else happens meanwhile, and puts it in place; a crash takes the ones being written. *)
Inductive kstep : Cluster * list (NodeId * Sink) → Cluster * list (NodeId * Sink) → Prop :=
  | ks_input c js v n i acts n' :
      c_procs c !! v = Some (Up n) → unchanging i = true →
      (∀ from m, input_message i = Some (from, m) → (from, v, m) ∈ c_net c) →
      node_input i n = (Ok acts, n') →
      kstep (c, js) (advance v n (Up n') acts c, js)
  | ks_begin c js v n index k n' :
      c_procs c !! v = Some (Up n) → begin_compaction index n = (Ok (Some k), n') →
      kstep (c, js) (advance v n (Up n') [] c, (v, k) :: js)
  | ks_write c js v k d k' :
      (v, k) ∈ js → sink_write_all d k = (Ok tt, k') → kstep (c, js) (c, (v, k') :: js)
  | ks_finish c js v n k acts n' :
      c_procs c !! v = Some (Up n) → (v, k) ∈ js → node_input (InFinish k) n = (Ok acts, n') →
      kstep (c, js) (advance v n (Up n') acts c, js)
  | ks_crash c js v n st :
      c_procs c !! v = Some (Up n) → hard_state st = hard_state (n_storage n) → st_log st = slog n →
      snapshot_members st = snapshot_members (n_storage n) →
      kstep (c, js) (advance v n (Down st) [] c, filter (λ x, x.1 ≠ v) js)
  | ks_restart c js v st config :
      c_procs c !! v = Some (Down st) →
      kstep (c, js) (mkCluster (<[v := Up (with_members v B config st)]> (c_procs c)) (c_net c) (c_votes c) (c_elections c), js).

Inductive kreachable : Cluster * list (NodeId * Sink) → Prop :=
  | kreach_init procs :
      map_Forall (λ _ p, ∃ st, p = Down st ∧ hard_state st = mkHardState 0 None ∧ st_log st = mkEntryLog (mkMeta 0 0) [] ∧
        snapshot_members st = None) procs →
      kreachable (mkCluster procs [] [] [], [])
  | kreach_step x x' : kreachable x → kstep x x' → kreachable x'.

Inductive sreachable : Cluster → Prop :=
  | sreach_init procs :
      map_Forall (λ _ p, ∃ st, p = Down st ∧ hard_state st = mkHardState 0 None ∧ st_log st = mkEntryLog (mkMeta 0 0) [] ∧
        snapshot_members st = None) procs →
      sreachable (mkCluster procs [] [] [])
  | sreach_step c c' : sreachable c → sstep c c' → sreachable c'.

(** A run without snapshots is a run. *)
Lemma sstep_kstep c c' : sstep c c' → kstep (c, []) (c', []).
Proof. destruct 1; [by eapply ks_input|by apply (ks_crash _ [])|by apply ks_restart]. Qed.

Lemma sreachable_kreachable c : sreachable c → kreachable (c, []).
Proof. induction 1 as [procs Hp|c c' _ IH Hs]; [by constructor|]. eapply kreach_step; [exact IH|by apply sstep_kstep]. Qed.

Lemma ssteps_ksteps c c' : rtc sstep c c' → rtc kstep (c, []) (c', []).
Proof. induction 1 as [|c c1 c' Hs _ IH]; [done|]. eapply rtc_l; [by apply sstep_kstep|exact IH]. Qed.

(** A message that answers, in term [t], for the first [j] entries. *)
Definition ack_of (m : Message) : option (N * N) :=
  match m with
  | AppendEntriesReply t true j _ _ _ => Some (t, j)
  | InstallSnapshotReply t j _ true _ => Some (t, j)
  | _ => None
  end.

(** Node [v] has answered, in term [t], for the first [i] entries. *)
Definition acked c (t : N) (v : NodeId) (i : N) : Prop :=
  ∃ to m j, (v, to, m) ∈ c_net c ∧ ack_of m = Some (t, j) ∧ i ≤ j.

Lemma acked_le c t v i j : acked c t v i → j ≤ i → acked c t v j.
Proof. intros (to & m & k & Hin & Hm & Hi) Hj. exists to, m, k. split_and!; [done|done|lia]. Qed.

(** The same, or it led the term with at least that many. *)
Definition held c (leads : Leads) (t : N) (v : NodeId) (i : nat) : Prop :=
  acked c t v (N.of_nat i) ∨ ∃ L, leads !! t = Some (v, L) ∧ (i ≤ length L)%nat.

(** A majority holds the first [i] entries of the leader of [t], the last of which is its own. *)
Definition chosen c (leads : Leads) (t : N) (i : nat) : Prop :=
  ∃ k u L e Q, i = Datatypes.S k ∧ leads !! t = Some (u, L) ∧ L !! k = Some e ∧ e_term e = t ∧
    quorum_of (config_voters B) Q = true ∧ ∀ v, v ∈ Q → held c leads t v i.

(** [l] keeps what [v] held before term [u], if every leader in between has it. *)
Definition promised c (leads : Leads) (v : NodeId) (u : N) (l : list Entry) : Prop :=
  made_of leads l ∧
  ∀ t i, t < u → held c leads t v i → (∀ t' w L', t < t' → t' < u → leads !! t' = Some (w, L') → has leads t i L') → has leads t i l.

Definition proc_term (p : Proc (S := S)) : N := hs_term (proc_hs p).

(** [v] is past term [u], and promised its vote in it with a log no better than [ls]. *)
Definition voted_for c (leads : Leads) (u : N) (ls : list Entry) (v : NodeId) : Prop :=
  (∃ p, c_procs c !! v = Some p ∧ u ≤ proc_term p) ∧
  ∃ lv, promised c leads v u lv ∧ fresh_as lv (blen ls) (term_before ls (blen ls)).

(** How the leader of [u] came to lead. *)
Definition came_to_lead c (leads : Leads) (u : N) (L : list Entry) : Prop :=
  ∃ ls Q, ls `prefix_of` L ∧ Forall (λ e, e_term e < u) ls ∧ quorum_of (config_voters B) Q = true ∧ ∀ v, v ∈ Q → voted_for c leads u ls v.

(** The first [i] entries of [l] are committed, by term [T]. *)
Definition safe c (leads : Leads) (T : N) (i : N) (l : list Entry) : Prop :=
  i = 0 ∨ ∃ t k, t ≤ T ∧ (N.to_nat i ≤ k)%nat ∧ chosen c leads t k ∧ has leads t (N.to_nat i) l.

(** ** No later leader lacks what was chosen *)

Lemma chosen_kept c (leads : Leads) t i :
  terms_ok leads → (∀ t u L, leads !! t = Some (u, L) → made_of leads L ∧ came_to_lead c leads t L) → chosen c leads t i →
  ∀ u w L, t < u → leads !! u = Some (w, L) → has leads t i L.
Proof.
  intros Hok Hleads (k & u0 & L0 & e & Q & -> & E0 & He & Ht & HQ & Hheld) u.
  induction (N.lt_wf_0 u) as [u _ IH]. intros w L Htu E. destruct (Hleads _ _ _ E) as [HmL (ls & Q' & [r ->] & Hls & HQ' & Hvotes)].
  destruct (quorums_meet _ _ _ _ (config_voters_NoDup B) (config_voters_NoDup B) (adjacent_refl _) HQ HQ') as (v & Hv & Hv' & _).
  destruct (Hvotes v Hv') as [_ (lv & [Hmv Hprom] & Hfresh)].
  assert (∀ t' w' L', t < t' → t' < u → leads !! t' = Some (w', L') → has leads t (Datatypes.S k) L') as Hall by (intros t' w' L' H1' H2' E'; by eapply IH).
  apply has_app, (fresh_has leads t k u u0 L0 e lv ls); try done; [|by apply Hprom; [|apply Hheld|]].
  eapply made_of_prefix; [|exact HmL]. by exists r.
Qed.

(** ** The invariant *)

(** What a node keeps of what it held: all of it, if every leader up to its term has it. *)
Definition keeps c (leads : Leads) (v : NodeId) (T : N) (l : list Entry) : Prop :=
  ∀ t i, held c leads t v i → (∀ t' w L', t < t' → t' ≤ T → leads !! t' = Some (w, L') → has leads t i L') → has leads t i l.

Definition settled_proc (p : Proc (S := S)) : Prop :=
  match p with
  | Up n => settled B n
  | Down st => members_ok B (snapshot_members st) ∧ Forall (λ e, is_config e = false) (el_entries (st_log st))
  end.

(** The log a candidate of term [u] stands with. *)
Definition stands c (leads : Leads) (cand : NodeId) (u : N) (l : list Entry) : Prop :=
  ∃ n, c_procs c !! cand = Some (Up n) ∧ n_role n = Candidate ∧ node_term n = u ∧ l = flog leads (slog n).

Record SInv c (leads : Leads) : Prop := {
  si_linv : LInv c leads;
  si_procs : ∀ v p, c_procs c !! v = Some p →
    settled_proc p ∧ (∀ e, e ∈ flog leads (proc_log p) → e_term e ≤ proc_term p) ∧ keeps c leads v (proc_term p) (flog leads (proc_log p)) ∧
    safe c leads (proc_term p) (sm_index (el_base (proc_log p))) (flog leads (proc_log p));
  si_nodes : ∀ v n, c_procs c !! v = Some (Up n) →
    match_ok (acked c) n ∧ safe c leads (node_term n) (n_commit_index n) (flog leads (slog n)) ∧
    safe c leads (node_term n) (n_last_applied n) (flog leads (slog n));
  si_voters : ∀ e, e ∈ c_elections c → el_voters e = config_voters B;
  si_terms : terms_ok leads;
  si_plain : ∀ t u L, leads !! t = Some (u, L) → Forall (λ e, is_config e = false) L;
  si_led : ∀ t u L, leads !! t = Some (u, L) → came_to_lead c leads t L;
  si_replies : ∀ v to m t j, (v, to, m) ∈ c_net c → ack_of m = Some (t, j) →
    (∃ u L, leads !! t = Some (u, L) ∧ (N.to_nat j ≤ length L)%nat) ∧ ∃ p, c_procs c !! v = Some p ∧ t ≤ proc_term p;
  si_commits : ∀ from to t prev pt es lc sq u L, (from, to, AppendEntries t prev pt es lc sq) ∈ c_net c →
    leads !! t = Some (u, L) → safe c leads t lc L;
  si_snapshots : ∀ from to t li lt off data fin sq ms u L, (from, to, InstallSnapshot t li lt off data fin sq ms) ∈ c_net c →
    leads !! t = Some (u, L) → safe c leads t li L ∧ members_ok B ms;
  si_requests : ∀ cand to u li lt, (cand, to, RequestVote u li lt) ∈ c_net c →
    (∃ p, c_procs c !! cand = Some p ∧ u ≤ proc_term p) ∧ ∀ l, stands c leads cand u l → li = blen l ∧ lt = term_before l (blen l);
  si_votes : ∀ v u cand, (v, u, cand) ∈ c_votes c →
    (∀ p, c_procs c !! cand = Some p → u ≤ proc_term p) ∧
    ∀ l, stands c leads cand u l → leads !! u = None → ∃ lv, promised c leads v u lv ∧ fresh_as lv (blen l) (term_before l (blen l));
}.

(** A snapshot being written, of what its node has handed over. *)
Definition job_ok c (leads : Leads) (v : NodeId) (k : Sink) : Prop :=
  members_ok B (st_sink_members k) ∧
  ∃ n, c_procs c !! v = Some (Up n) ∧
    safe c leads (node_term n) (sm_index (sink_meta k)) (flog leads (slog n)) ∧
    sm_term (sink_meta k) = term_before (flog leads (slog n)) (sm_index (sink_meta k)).

Definition JInv c (leads : Leads) (js : list (NodeId * Sink)) : Prop := ∀ v k, (v, k) ∈ js → job_ok c leads v k.

(** ** What grows and what is frozen *)

Section grow.
Variables (c c' : Cluster (S := S)) (leads leads' : Leads).
Hypothesis Hnet : c_net c ⊆ c_net c'.
Hypothesis Hgrow : leads_grow leads leads'.
Hypothesis Hok : terms_ok leads'.
Hypothesis Hold : ∀ t v i, held c leads t v i → ∃ u L, leads !! t = Some (u, L) ∧ (i ≤ length L)%nat.

Lemma acked_grow t v i : acked c t v i → acked c' t v i.
Proof. intros (to & m & j & Hin & Hm & Hi). exists to, m, j. split_and!; [by apply Hnet|done|done]. Qed.

Lemma held_grow t v i : held c leads t v i → held c' leads' t v i.
Proof.
  intros [Ha|(L & E & Hi)]; [left; by apply acked_grow|right]. destruct (Hgrow _ _ _ E) as (es & E' & _). exists (L ++ es).
  rewrite length_app. split; [done|lia].
Qed.

Lemma chosen_grow t i : chosen c leads t i → chosen c' leads' t i.
Proof.
  intros (k & u & L & e & Q & -> & E & He & Ht & HQ & Hh). destruct (Hgrow _ _ _ E) as (es & E' & _).
  exists k, u, (L ++ es), e, Q. split_and!; try done; [by apply lookup_app_l_Some|]. intros v Hv. by apply held_grow, Hh.
Qed.

Lemma safe_grow T T' i l l' : T ≤ T' → safe c leads T i l → safe c' leads' T' i (l ++ l').
Proof.
  intros HT [->|(t & k & Ht & Hk & Hc & Hh)]; [by left|right]. exists t, k. split_and!; [lia|done|by apply chosen_grow|].
  by apply has_app, (has_grow leads).
Qed.

(** The condition of a promise, with more leaders, implies it with fewer. *)
Lemma leaders_have (P : N → Prop) t v i :
  held c leads t v i → (∀ t' w L', t < t' → P t' → leads' !! t' = Some (w, L') → has leads' t i L') →
  ∀ t' w L', t < t' → P t' → leads !! t' = Some (w, L') → has leads t i L'.
Proof.
  intros Hh Hall t' w L' Htt HP E. destruct (Hold _ _ _ Hh) as (u & L & Et & Hi). destruct (Hgrow _ _ _ E) as (es & E' & _).
  eapply has_shrink; [done|done|done|done|done|done|exact E'|]. by eapply Hall.
Qed.

(** A promise stands, if the node has answered for nothing of those terms since. *)
Lemma promised_grow v u l :
  (∀ t i, t < u → held c' leads' t v i → held c leads t v i) → promised c leads v u l → promised c' leads' v u l.
Proof.
  intros Hfr [Hm Hp]. split; [by apply (made_of_grow leads)|]. intros t i Htu Hh Hall. apply Hfr in Hh; [|done]. apply (has_grow leads); [done|].
  apply Hp; [done|done|]. by apply (leaders_have (λ t', t' < u) t v i).
Qed.

Lemma keeps_grow v T T' l :
  T ≤ T' → (∀ t i, held c' leads' t v i → held c leads t v i) → keeps c leads v T l → keeps c' leads' v T' l.
Proof.
  intros HT Hfr Hk t i Hh Hall. apply Hfr in Hh. apply (has_grow leads); [done|]. apply Hk; [done|].
  apply (leaders_have (λ t', t' ≤ T) t v i); [done|]. intros t' w L' Htt Ht' E. eapply Hall; [done|lia|done].
Qed.
End grow.

Lemma held_inside c leads t v i : SInv c leads → held c leads t v i → ∃ u L, leads !! t = Some (u, L) ∧ (i ≤ length L)%nat.
Proof.
  intros HI [(to & m & j & Hin & Hm & Hi)|(L & E & Hi)]; [|by exists v, L].
  destruct (si_replies _ _ HI _ _ _ _ _ Hin Hm) as [(u & L & E & HL) _]. exists u, L. split; [done|lia].
Qed.

(** Nobody has answered in a term it has not reached. *)
Lemma held_term c leads t v i p : SInv c leads → c_procs c !! v = Some p → held c leads t v i → t ≤ proc_term p.
Proof.
  intros HI Hv [(to & m & j & Hin & Hm & _)|(L & E & _)].
  - destruct (si_replies _ _ HI _ _ _ _ _ Hin Hm) as [_ (q & Hq & Ht)]. congruence.
  - by destruct (li_past _ _ (si_linv _ _ HI) _ _ _ _ E Hv).
Qed.

Lemma chosen_has c leads t i u w L : SInv c leads → chosen c leads t i → t < u → leads !! u = Some (w, L) → has leads t i L.
Proof.
  intros HI Hc Htu E. eapply chosen_kept; [apply HI| |done|done|done]. intros t' u' L' E'.
  split; [by destruct (li_leads _ _ (si_linv _ _ HI) _ _ _ E')|by eapply si_led].
Qed.

(** What is committed by term [T] is in the log of every leader from [T] on. *)
Lemma safe_in_leader c leads T i l u w L :
  SInv c leads → safe c leads T i l → T ≤ u → leads !! u = Some (w, L) →
  take (N.to_nat i) l = take (N.to_nat i) L ∧ (N.to_nat i ≤ length L)%nat ∧ (N.to_nat i ≤ length l)%nat.
Proof.
  intros HI [->|(t & k & Ht & Hk & Hc & Hh)] HT E; [simpl; split_and!; [done|lia|lia]|].
  assert (has leads t (N.to_nat i) L) as HL.
  { destruct (decide (t = u)) as [->|].
    - destruct Hh as (u' & L' & E' & Hi & _). rewrite E in E'. injection E' as <- <-. by exists w, L.
    - eapply has_le; [|exact Hk]. eapply (chosen_has c leads t k u); [done|done|lia|done]. }
  destruct Hh as (u1 & L1 & E1 & _ & H1' & T1), HL as (u2 & L2 & E2 & _ & H2' & T2). rewrite E1 in E2. injection E2 as <- <-. by rewrite T1, T2.
Qed.

Lemma same_voters_steady c : (∀ e, e ∈ c_elections c → el_voters e = config_voters B) → steady c.
Proof. intros Hv e1 e2 H1' H2' _. rewrite (Hv _ H1'), (Hv _ H2'). apply adjacent_refl. Qed.

Lemma sstep_lstep c c' : sstep c c' → lstep c c'.
Proof.
  intros [c0 v n i acts n' Hv Hi Hm Hin|c0 v n st Hv Hst Hl _|c0 v st config Hv].
  - eapply ls_input; try done. by destruct i.
  - apply (ls_crash _ _ _ _ (length (log_of n))); [done|done|]. rewrite Hl. unfold log_of. rewrite take_ge by done. by destruct (slog n).
  - by apply ls_restart.
Qed.
End cluster.
