(* ===== verification/StateMachineSteps.v ===== *)
(** * The invariant of state machine safety (src/raft/node.rs)

    Every step of a cluster keeps the invariant behind leader completeness: an input to a node, a
    snapshot begun, written and put in place, a crash, a restart. *)

From S2P Require Import Prelude.
From S2P Require Import RaftLog.
From S2P Require Import Message.
From S2P Require Import NodeState.
From S2P Require Import Node.
From S2P Require Import NodeFrame.
From S2P Require Import Quorum.
From S2P Require Import Election.
From S2P Require Import ElectionSafety.
From S2P Require Import Replication.
From S2P Require Import Commit.
From S2P Require Import LogSteps.
From S2P Require Import LogMatching.
From S2P Require Import CommitSteps.
From S2P Require Import LeaderCompleteness.

#[local] Open Scope N_scope.

Section cluster.
Context {S : Type} `{StorageLaws S}.
Implicit Types (n : Node S) (c : Cluster (S := S)).

Variable B : list Member.
Hypothesis HB : Forall (λ m, m_learner m = false) B.

(** An input that changes no membership and puts no snapshot in place. *)
Definition ordinary (i : Input S) : bool := match i with InFinish _ | InMembership _ => false | _ => true end.

Lemma unchanging_ordinary i : unchanging i = true → ordinary i = true.
Proof. by destruct i. Qed.

(** ** One node takes an input *)

Section input.
Variables (c : Cluster (S := S)) (leads : Leads) (v : NodeId) (n n' : Node S) (i : Input S) (acts : list Action).
Hypothesis HS : SInv B c leads.
Hypothesis HI : Inv c.
Hypothesis Hv : c_procs c !! v = Some (Up n).
Hypothesis Hun : ordinary i = true.
Hypothesis Hmsg : ∀ from m, input_message i = Some (from, m) → (from, v, m) ∈ c_net c.
Hypothesis Hin : node_input i n = (Ok acts, n').

Let c' := advance v n (Up n') acts c.
Let leads' := next_leads leads v n n'.
Let h := hid leads (el_base (slog n)).
Let h' := hid leads (el_base (slog n')).
Let lg := flog leads (slog n).
Let lg' := flog leads (slog n').

Lemma in_fixed : fixed B h n ∧ match_ok (acked c) n ∧ grounded leads (slog n) ∧ made_of leads lg.
Proof.
  destruct (si_procs _ _ _ HS v _ Hv) as (Hf & _). destruct (si_nodes _ _ _ HS v n Hv) as (Hm & _).
  destruct (li_logs _ _ (si_linv _ _ _ HS) v _ Hv) as [Hg Hmk]. split_and!; try done. by apply settled_fixed.
Qed.

Lemma in_tame from m : input_message i = Some (from, m) → tame B (acked c) from m.
Proof.
  intros Em. pose proof (Hmsg _ _ Em) as Hnet. pose proof (li_net _ _ (si_linv _ _ _ HS) _ _ _ Hnet) as Hok. destruct m; try done; simpl in *.
  - destruct Hok as (u & L & E & Hp). pose proof (si_plain _ _ _ HS _ _ _ E) as Hpl. destruct Hp as [[-> _]|(_ & [r Hes] & _)]; [done|].
    pose proof (Forall_drop _ (N.to_nat prev_log_index) _ Hpl) as Hd. rewrite Hes in Hd. by apply Forall_app in Hd as [? _].
  - destruct Hok as (u & L & E & _). by destruct (si_snapshots _ _ _ HS _ _ _ _ _ _ _ _ _ _ _ _ Hnet E).
  - intros ->. eexists _, _, _. by split_and!; [exact Hnet|done|].
  - intros ->. eexists _, _, _. by split_and!; [exact Hnet|done|].
Qed.

Lemma in_posts : LPost h n (input_message i) (n', acts) ∧ CPost B (acked c) h n (input_message i) (n', acts).
Proof.
  destruct in_fixed as (Hf & Hm & Hg & _). pose proof in_tame as Ht. split.
  - apply node_input_log; [done| |done]. by destruct i.
  - apply node_input_counted; try done; [apply acked_le|]. destruct i; try done. by apply (Ht from m).
Qed.

Lemma in_inv : Inv c'.
Proof. eapply cstep_inv; [exact HI|]. by eapply cs_input. Qed.

Lemma in_voters e : e ∈ c_elections c' → el_voters e = config_voters B.
Proof.
  simpl. intros [He|He]%elem_of_app; [|by apply (si_voters _ _ _ HS)]. destruct (elected n n'); [|by apply not_elem_of_nil in He].
  apply list_elem_of_singleton in He as ->. simpl. destruct in_fixed as (Hf & _). apply (fx_voters _ _ _ Hf).
Qed.

Lemma in_le : node_term n ≤ node_term n'.
Proof. destruct in_posts as [HL _]. apply role_moved_le, (lp_role _ _ _ _ HL). Qed.

(** What the node's snapshot stands for is the start of the log of whoever leads now. *)
Lemma in_hid u L : leads !! node_term n' = Some (u, L) → h `prefix_of` L.
Proof.
  intros E. destruct (si_procs _ _ _ HS v _ Hv) as (_ & _ & _ & Hs). destruct in_fixed as (_ & _ & Hg & _).
  destruct (safe_in_leader _ _ _ _ _ _ _ _ _ HS Hs in_le E) as (Te & _). simpl in Te. rewrite <-(grounded_len _ _ Hg) in Te. fold h in Te.
  unfold flog in Te. fold h in Te. unfold blen in Te. rewrite Nat2N.id, take_app_length in Te. rewrite Te. apply prefix_take.
Qed.

Lemma in_moves : moves leads n n' acts.
Proof. eapply post_moves; [apply HS|done|done|apply in_posts|apply in_hid]. Qed.

Lemma in_linv : LInv c' leads'.
Proof.
  apply linv_moves; [apply HS|apply in_inv|apply (same_voters_steady B), in_voters|done|apply in_posts|apply in_moves].
Qed.

(** The leaders' logs are as they were, or the node's own has been added or extended. *)
Lemma in_leads :
  leads' = leads ∧ n_role n' ≠ Leader ∧ lg' = lg ∧ Forall (plain h' n') acts ∨
  (∃ reach u L, took_up leads n n' reach u L ∧ leads' = leads ∧ n_role n' ≠ Leader ∧ Forall answer acts) ∨
  (∃ es, leads' = <[node_term n' := (v, lg')]> leads ∧ takes_over leads (node_term n') v lg ∧ lg' = lg ++ es ∧
    Forall (λ e, e_term e = node_term n') es ∧ Forall (action_ok h' n') acts ∧ n_role n' ≠ Candidate ∧
    (n_role n = Leader ∧ node_term n = node_term n' ∨ elected n n' = true ∧ leads !! node_term n' = None)).
Proof.
  pose proof in_posts as [[_ Hr _ _] _]. cbn [fst] in Hr. destruct in_moves as [_ [(es & El & Hes & Hor)|(reach & u & L & Ht & Ha)]].
  - destruct (decide (n_role n' = Leader ∨ n_role n = Leader ∧ node_term n = node_term n')) as [Hled|Hno]; cycle 1.
    { left. destruct Hor as [[? _]|[-> Hp]]; [done|]. rewrite app_nil_r in El. split_and!; try done; [|tauto].
      unfold leads', next_leads. by rewrite decide_False. }
    right. right. exists es. destruct (led_takes_over c leads v n n' acts) as (Ho & _ & _); try done;
      [apply HS|apply in_inv|apply (same_voters_steady B), in_voters|].
    assert (n_role n' ≠ Candidate) as Hnc.
    { intros Hcand. destruct Hled as [?|[Hl Ht]]; [congruence|]. pose proof (role_moved_candidate _ _ Hr Hcand Ht). congruence. }
    split_and!; try done.
    + unfold leads', next_leads. by rewrite decide_True.
    + destruct Hor as [[_ ?]|[_ Hp]]; [done|]. eapply list.Forall_impl; [exact Hp|]. intros [to []]; try done. by intros [? _].
    + destruct (decide (n_role n = Leader ∧ node_term n = node_term n')) as [|Hno]; [by left|right]. destruct Hled as [Hl|?]; [|done].
      split; [by apply elected_spec|]. destruct Ho as [Ho|Ho]; [exfalso|done].
      destruct (li_past _ _ (si_linv _ _ _ HS) _ _ _ _ Ho Hv) as [Hle Hc]. change (node_term n' ≤ node_term n) in Hle.
      destruct Hr as [Hlt|(Ht & _ & Hrole)]; [lia|]. destruct (Hrole Hl) as [?|Hcand]; [by apply Hno|]. by apply (Hc n).
  - right. left. exists reach, u, L. pose proof Ht as (_ & _ & Hf). split_and!; try done; [by eapply took_up_leads; [apply HS| |]|congruence].
Qed.

Lemma in_grow : leads_grow leads leads'.
Proof.
  destruct in_leads as [(-> & _)|[(reach & u & L & _ & -> & _)|(es & -> & Ho & El & Hes & _)]]; [apply leads_grow_refl..|].
  rewrite El. by apply takes_over_grow.
Qed.

(** The logs do not depend on which of the two one reads them by. *)
Lemma in_flog w p : c_procs c !! w = Some p → flog leads' (proc_log p) = flog leads (proc_log p).
Proof. intros Hw. apply flog_grow; [apply in_grow|]. by apply (li_logs _ _ (si_linv _ _ _ HS) w). Qed.

Lemma in_flog' : flog leads' (slog n') = lg'.
Proof. apply flog_grow; [apply in_grow|apply in_moves]. Qed.

(** The log, in short. *)
Lemma in_log :
  (∃ es, lg' = lg ++ es ∧ Forall (λ e, e_term e = node_term n') es) ∨ (∃ reach u L, took_up leads n n' reach u L).
Proof. destruct in_moves as [_ [(es & El & Hes & _)|(reach & u & L & Ht & _)]]; [left; by exists es|right; by exists reach, u, L]. Qed.

(** The terms in the node's log. *)
Lemma in_terms e : e ∈ lg' → e_term e ≤ node_term n'.
Proof.
  pose proof in_le as Hle. destruct (si_procs _ _ _ HS v _ Hv) as (_ & Hold & _).
  assert (e ∈ lg → e_term e ≤ node_term n') as Hlg.
  { intros He. specialize (Hold e He). change (e_term e ≤ node_term n) in Hold. lia. }
  destruct in_log as [(es & -> & Hes)|(reach & u & L & E & Ht & _)].
  - intros [He|He]%elem_of_app; [by apply Hlg|]. rewrite list.Forall_forall in Hes. rewrite (Hes e He). lia.
  - intros He. destruct (takes_in_elem _ _ _ _ Ht e He) as [Hn|HL]; [by apply Hlg|by eapply (si_terms _ _ _ HS)].
Qed.

Lemma in_lead_terms : terms_ok leads'.
Proof.
  destruct in_leads as [(-> & _)|[(reach & u & L & _ & -> & _)|(es & -> & _)]]; [apply HS..|].
  intros t u L e. rewrite lookup_insert_Some. intros [[<- [= <- <-]]|[_ E]] He; [by apply in_terms|by eapply (si_terms _ _ _ HS)].
Qed.

Lemma in_net : c_net c ⊆ c_net c'.
Proof. intros x Hx. apply elem_of_app. by right. Qed.

(** ** What a follower answers for *)

(** A log that was there already. *)
Lemma took_up_same (reach : nat) u L :
  leads !! node_term n' = Some (u, L) → slog n' = slog n → n_role n' = Follower → (reach ≤ length L)%nat → (reach ≤ length lg)%nat →
  take reach lg = take reach L → took_up leads n n' reach u L.
Proof. intros E El Hf HL Hl Ht. split_and!; [done| |done]. rewrite El. split; [done|by left]. Qed.

(** Whatever it answers for it has, and what it takes for committed now it had, or its leader says so. *)
Definition answered : Prop :=
  ∃ (reach : nat) u L to m lc, took_up leads n n' reach u L ∧ acts = [Send to m] ∧ ack_of m = Some (node_term n', N.of_nat reach) ∧
    safe B c leads (node_term n') lc L ∧
    (n_commit_index n' = n_commit_index n ∨ n_commit_index n' = N.min lc (N.of_nat reach)) ∧
    (n_last_applied n' = n_last_applied n ∨ n_last_applied n' = N.min lc (N.of_nat reach)).

Lemma in_merged : merged h n (input_message i) (n', acts) → answered.
Proof.
  intros (from & prev & pt & es & lc & sq & prev' & pt' & es' & Em & Heff & Hpt & El & Hf & Eco & Eap & Ea). cbn [fst snd] in *.
  destruct in_fixed as (_ & _ & Hg & Hm). pose proof (si_linv _ _ _ HS) as HL. pose proof (Hmsg _ _ Em) as Hnet.
  destruct (li_net c leads HL _ _ _ Hnet) as (u & L & E & Hpiece). destruct (li_leads c leads HL _ _ _ E) as (HmL & HcL & _).
  pose proof (effective_piece _ _ _ _ _ _ _ _ Heff Hpiece (in_hid _ _ E)) as Hpiece'. pose proof (merge_based _ _ _ _ _ Hg Hpt (piece_contiguous _ _ _ _ HcL Hpiece')) as Hb.
  rewrite <-El in Hb. assert (el_base (slog n') = el_base (slog n)) as Eb by (rewrite (proj2 Hb); symmetry; apply Hg).
  assert (prev' + blen es' = N.of_nat (N.to_nat prev' + length es')) as Er by (unfold blen; lia).
  exists (N.to_nat prev' + length es')%nat, u, L, from. eexists _, lc. split_and!; [|exact Ea| |by eapply (si_commits _ _ _ HS)| |by left].
  - split_and!; [done| |done]. unfold flog at 2. rewrite Eb, El. eapply merge_takes_in; try done. apply HL.
  - simpl. by rewrite Er.
  - rewrite Eco, Er. unfold commit_after. destruct (_ <? _); [by right|by left].
Qed.

Lemma in_skipped : skipped h n (input_message i) (n', acts) → answered.
Proof.
  intros (from & prev & pt & es & lc & sq & Em & El & Hf & Eco & Eap & Ea). cbn [fst snd] in *.
  destruct (li_net c leads (si_linv _ _ _ HS) _ _ _ (Hmsg _ _ Em)) as (u & L & E & _). pose proof (in_hid _ _ E) as Hh. pose proof (prefix_length _ _ Hh) as Hlen.
  exists (length h), u, L, from. eexists _, 0. split_and!; [|exact Ea|done|by left|by left|by left].
  apply took_up_same; try done; [unfold lg, flog; rewrite length_app; fold h; lia|]. unfold lg, flog. fold h. rewrite take_app_length. destruct Hh as [r ->]. by rewrite take_app_length.
Qed.

Lemma in_installed : installed n (input_message i) (n', acts) → answered.
Proof.
  intros (from & li & lt & off & data & fin & sq & ms & held & Em & Hf & Ea & Hor). cbn [fst snd] in *. pose proof (Hmsg _ _ Em) as Hnet.
  destruct (li_net c leads (si_linv _ _ _ HS) _ _ _ Hnet) as (u & L & E & Hli & ->). destruct (si_snapshots _ _ _ HS _ _ _ _ _ _ _ _ _ _ _ _ Hnet E) as [Hsl _].
  destruct in_fixed as (_ & _ & Hg & Hm). destruct (li_leads c leads (si_linv _ _ _ HS) _ _ _ E) as (HmL & _ & _).
  exists (N.to_nat li), u, L, from. eexists _. destruct Hor as [(Hle & El & Eco & Eap)|(El & Eco & Eap)].
  - exists 0. split_and!; [|exact Ea|simpl; by rewrite N2Nat.id|by left|by left|by left].
    destruct (si_nodes _ _ _ HS v n Hv) as (_ & Hs & _). destruct (safe_in_leader _ _ _ _ _ _ _ _ _ HS Hs in_le E) as (Te & _ & Hl). fold lg in Te, Hl.
    apply took_up_same; try done; [lia|]. eapply take_eq_le; [exact Te|lia].
  - exists li. split_and!; [|exact Ea|simpl; by rewrite N2Nat.id|done| |]; [|rewrite N2Nat.id; destruct (N.max_spec (n_commit_index n) li) as [[_ ?]|[_ ?]]; [right|left]; lia|
      rewrite N2Nat.id; destruct (N.max_spec (n_last_applied n) li) as [[_ ?]|[_ ?]]; [right|left]; lia].
    split_and!; [done| |done]. rewrite El. by apply compact_takes_in; [| | | |apply (in_hid _ _ E)].
Qed.

Lemma in_counted : counted B (acked c) h n (n', acts) ∨ answered.
Proof.
  destruct in_posts as [_ (_ & _ & [?|[?|[?|?]]])]; [by left|right..]; [by apply in_merged|by apply in_skipped|by apply in_installed].
Qed.

(** What is answered for now, and was not before. *)
Lemma in_reply to m t j :
  Send to m ∈ acts → ack_of m = Some (t, j) → ∃ reach u L, took_up leads n n' reach u L ∧ t = node_term n' ∧ (N.to_nat j ≤ reach)%nat.
Proof.
  intros Hs Hm. destruct in_counted as [Hc|(reach & u & L & to' & m' & lc & Ht & Ea & Hack & _)].
  - pose proof (cn_sent _ _ _ _ _ Hc) as Hok. cbn [fst snd] in Hok. rewrite list.Forall_forall in Hok. specialize (Hok _ Hs).
    destruct m; try done; simpl in Hok, Hm; by rewrite Hok in Hm.
  - rewrite Ea in Hs. apply list_elem_of_singleton in Hs. injection Hs as -> ->. rewrite Hack in Hm. injection Hm as <- <-. exists reach, u, L. split_and!; [done|done|lia].
Qed.

Lemma in_held t w k : held c' leads' t w k → held c leads t w k ∨ w = v ∧ t = node_term n' ∧ has leads' t k lg'.
Proof.
  intros [(to & m & j & Hr & Hm & Hk)|(L & E & Hk)].
  - simpl in Hr. apply elem_of_app in Hr as [[-> Hr]%advance_net|Hr]; [right|left; left; by exists to, m, j].
    destruct (in_reply _ _ _ _ Hr Hm) as (reach & u & L & Ht & -> & Hj). split_and!; [done..|].
    unfold leads'. rewrite (took_up_leads c leads v n n' reach u L) by (done || apply HS). destruct Ht as (E & Ht & _).
    destruct (takes_in_covers _ _ _ _ Ht) as [T1 T2]. pose proof (proj1 Ht) as T3. fold lg' in T1, T2.
    exists u, L. split_and!; [done|lia|lia|]. eapply take_eq_le; [exact T1|lia].
  - destruct in_leads as [(El & _)|[(reach & u & L0 & _ & El & _)|(es & El & _)]]; [left; right; exists L; by rewrite <-El..|].
    rewrite El in E. rewrite lookup_insert_Some in E. destruct E as [[<- [= <- <-]]|[_ E]]; [right|left; right; by exists L].
    split_and!; [done..|]. exists v, lg'. rewrite El, lookup_insert_eq. done.
Qed.

Lemma in_keeps : keeps c' leads' v (node_term n') lg'.
Proof.
  intros t k Hh Hall. destruct (in_held _ _ _ Hh) as [Ho|(_ & _ & ?)]; [|done]. pose proof in_le as Hle.
  pose proof (λ P, leaders_have c leads leads' in_grow in_lead_terms (λ t v i, held_inside B c leads t v i HS) P t v k Ho) as Hback.
  assert (has leads t k lg) as Hn.
  { destruct (si_procs _ _ _ HS v _ Hv) as (_ & _ & Hk & _). apply Hk; [done|]. apply (Hback (λ t', t' ≤ proc_term (Up n))).
    intros t' w L' H1' H2' E. eapply Hall; [done| |done]. change (t' ≤ node_term n) in H2'. lia. }
  destruct in_log as [(es & El & _)|(reach & u & L & E & Ht & _)].
  { rewrite El. by apply has_app, (has_grow leads), Hn; apply in_grow. }
  pose proof (held_term _ _ _ _ _ _ _ HS Hv Ho) as Htn. change (t ≤ node_term n) in Htn.
  assert (has leads t k L) as HL.
  { destruct (decide (t = node_term n')) as [->|Hne].
    - destruct Hn as (u' & L' & E' & HkL & _). rewrite E in E'. injection E' as <- <-. by exists u, L.
    - apply (Hback (λ t', t' ≤ node_term n') Hall (node_term n') u L); [lia|lia|done]. }
  destruct Hn as (u1 & L1 & E1 & HkL1 & Hkn & T1), HL as (u2 & L2 & E2 & _ & HkL & T2). rewrite E1 in E2. injection E2 as <- <-.
  destruct (takes_in_keeps _ _ _ _ Ht k) as [T3 Hk']; [fold lg; congruence|done|done|]. apply (has_grow leads); [apply in_grow|].
  exists u1, L1. split_and!; try done. fold lg' in T3. congruence.
Qed.

(** ** Votes *)

Lemma in_frozen a u : (a = v → u ≤ node_term n') → ∀ t k, t < u → held c' leads' t a k → held c leads t a k.
Proof. intros Ha t k Htu Hh. destruct (in_held _ _ _ Hh) as [|(-> & -> & _)]; [done|]. specialize (Ha eq_refl). lia. Qed.

Lemma in_promised a u l : (a = v → u ≤ node_term n') → promised c leads a u l → promised c' leads' a u l.
Proof.
  intros Ha. apply promised_grow; [apply in_grow|apply in_lead_terms|intros t w k; by apply (held_inside B)|by apply in_frozen].
Qed.

(** The log with which a node stands, in a term nobody leads. *)
Definition stood (cand : NodeId) (u : N) (l : list Entry) : Prop :=
  cand = v ∧ l = lg ∧ u = node_term n' ∧ (node_term n < u ∨ n_role n = Candidate ∧ node_term n = u) ∨ cand ≠ v ∧ stands c leads cand u l.

Lemma promise_now u : u = node_term n' → leads !! u = None → promised c leads v u lg.
Proof.
  intros -> Hno. destruct in_fixed as (_ & _ & _ & Hm). split; [done|]. intros t k Htu Hh Hall.
  destruct (si_procs _ _ _ HS v _ Hv) as (_ & _ & Hk & _). apply Hk; [done|]. intros t' w L' Htt Ht' E. change (t' ≤ node_term n) in Ht'.
  pose proof in_le. eapply Hall; [done| |done]. destruct (decide (t' = node_term n')) as [->|]; [congruence|lia].
Qed.

Lemma fresh_refl l : fresh_as l (blen l) (term_before l (blen l)).
Proof. right. split; [done|lia]. Qed.

Lemma old_promise a u cand l :
  (a, u, cand) ∈ c_votes c → leads !! u = None → stood cand u l →
  ∃ lv, promised c leads a u lv ∧ fresh_as lv (blen l) (term_before l (blen l)).
Proof.
  intros Hvote Hno Hst. destruct (si_votes _ _ _ HS _ _ _ Hvote) as [Hle Hpr].
  destruct Hst as [(-> & -> & -> & [Hlt|[Hc Ht]])|[_ Hst]].
  - specialize (Hle _ Hv). change (node_term n' ≤ node_term n) in Hle. lia.
  - apply Hpr; [|done]. by exists n.
  - by apply Hpr.
Qed.

Lemma in_promise a u cand l :
  (a, u, cand) ∈ c_votes c' → leads !! u = None → stood cand u l →
  ∃ lv, promised c leads a u lv ∧ fresh_as lv (blen l) (term_before l (blen l)).
Proof.
  intros [[-> Hhs]%elem_vote_of|Hvote]%elem_of_app Hno Hst; [|by eapply old_promise].
  change (hs_of n' = mkHardState u (Some cand)) in Hhs. assert (node_term n' = u) as Hu by (unfold node_term; unfold hs_of in Hhs; by rewrite Hhs).
  pose proof in_posts as [[_ _ _ Hvm] _]. cbn [fst] in Hvm. destruct (Hvm cand) as [Hsame|[[Hc Hlt]|(li & lt & Em & Hf)]]; [by rewrite Hhs| | |].
  - apply (old_promise v u cand l); [|done|done]. pose proof (inv_cast c HI v (Up n) cand Hv) as Hcast. simpl in Hcast. rewrite <-Hsame, Hhs in Hcast.
    by apply Hcast.
  - destruct (inv_nodes c HI v n Hv) as (Hid & _). rewrite Hid in Hc. destruct Hst as [(_ & -> & _ & _)|[Hne _]]; [|done].
    exists lg. split; [by apply promise_now|apply fresh_refl].
  - rewrite Hu in Em. destruct (si_requests _ _ _ HS _ _ _ _ _ (Hmsg _ _ Em)) as [(p & Hp & Hle) Hli].
    exists lg. split; [by apply promise_now|]. assert (stands c leads cand u l) as Hs.
    { destruct Hst as [(-> & -> & Hu' & [Hlt|[Hr Ht]])|[_ ?]]; [|by exists n|done]. rewrite Hv in Hp. injection Hp as <-.
      change (u ≤ node_term n) in Hle. lia. }
    by destruct (Hli l Hs) as [-> ->].
Qed.

(** What a candidate stands with after the step it stood with before. *)
Lemma in_stands cand u l : stands c' leads' cand u l → stood cand u l.
Proof.
  intros (m & Hm & Hr & Ht & ->). simpl in Hm. rewrite lookup_insert_Some in Hm. destruct Hm as [[<- [= <-]]|[Hne Hm]]; cycle 1.
  { right. split; [done|]. exists m. split_and!; try done. apply (in_flog cand (Up m) Hm). }
  left. rewrite in_flog'. pose proof in_posts as [[_ Hmv _ _] _]. cbn [fst] in Hmv. pose proof in_le as Hle. split_and!; [done| |done|].
  - destruct in_leads as [(_ & _ & ? & _)|[(reach & u' & L & (_ & _ & Hf) & _)|(es & _ & _ & _ & _ & _ & Hnc & _)]]; [done|congruence|done].
  - destruct (decide (node_term n = u)); [right|left; lia]. split; [|done]. apply (role_moved_candidate _ _ Hmv); congruence.
Qed.

(** ** How leaders came to lead *)

Lemma in_proc a p : c_procs c !! a = Some p → ∃ p', c_procs c' !! a = Some p' ∧ proc_term p ≤ proc_term p'.
Proof.
  intros Ha. simpl. destruct (decide (v = a)) as [<-|Hne]; [|rewrite lookup_insert_ne by done; exists p; split; [done|lia]].
  rewrite Hv in Ha. injection Ha as <-. exists (Up n'). rewrite lookup_insert_eq. split; [done|apply in_le].
Qed.

Lemma voted_grow u ls a : voted_for c leads u ls a → voted_for c' leads' u ls a.
Proof.
  intros [(p & Hp & Hu) (lv & Hpr & Hf)]. destruct (in_proc a p Hp) as (p' & Hp' & Hle). split; [exists p'; split; [done|lia]|]. exists lv. split; [|done].
  apply in_promised; [|done]. intros ->. rewrite Hv in Hp. injection Hp as <-. change (u ≤ node_term n) in Hu. pose proof in_le. lia.
Qed.

Lemma came_grow u L L' : came_to_lead B c leads u L → L `prefix_of` L' → came_to_lead B c' leads' u L'.
Proof.
  intros (ls & Q & Hls & Hlt & HQ & Hvo) HL. exists ls, Q. split_and!; [by etrans|done|done|]. intros a Ha. by apply voted_grow, Hvo.
Qed.

(** A vote in the new state is by a node that has reached its term. *)
Lemma in_vote_term a u cand : (a, u, cand) ∈ c_votes c' → ∃ p, c_procs c' !! a = Some p ∧ u ≤ proc_term p.
Proof.
  intros Ha. destruct (inv_member c' in_inv _ _ _ Ha) as [p Hp]. exists p. split; [done|].
  destruct (inv_past c' in_inv a p u cand Hp Ha) as [Hlt|[Heq _]]; simpl in *; unfold proc_term; lia.
Qed.

Lemma in_vote_self u cand : (v, u, cand) ∈ c_votes c' → u ≤ node_term n'.
Proof. intros Ha. destruct (in_vote_term _ _ _ Ha) as (p & Hp & Hu). simpl in Hp. rewrite lookup_insert_eq in Hp. by injection Hp as <-. Qed.

Lemma in_elected : elected n n' = true → leads !! node_term n' = None → came_to_lead B c' leads' (node_term n') lg.
Proof.
  intros He Hno. set (e := mkElection (node_term n') v (n_voters n) (n_votes n')).
  assert (e ∈ c_elections c') as Hin' by (simpl; rewrite He; apply elem_of_app; left; by apply list_elem_of_singleton).
  destruct (inv_elections c' in_inv e Hin') as (_ & HQ & Hvo). pose proof (in_voters e Hin') as Ev. simpl in HQ, Hvo, Ev. rewrite Ev in HQ.
  destruct in_fixed as (_ & _ & _ & Hm). exists lg, (n_votes n'). split_and!; [done| |done|].
  - apply list.Forall_forall. intros x Hx. pose proof Hx as (k & Hk)%list_elem_of_lookup. destruct (Hm _ _ Hk) as (u & L & E & _).
    destruct (si_procs _ _ _ HS v _ Hv) as (_ & Ht & _). specialize (Ht x Hx). change (e_term x ≤ node_term n) in Ht. pose proof in_le.
    destruct (decide (e_term x = node_term n')) as [Heq|]; [congruence|lia].
  - intros a Ha. pose proof (Hvo a Ha) as Hvote. split; [by eapply in_vote_term|].
    apply elected_spec in He as [Hl Hnot]. destruct (in_promise a (node_term n') v lg Hvote Hno) as (lv & Hpr & Hf).
    { left. split_and!; try done. pose proof in_posts as [[_ Hmv _ _] _]. cbn [fst] in Hmv. destruct Hmv as [?|(Ht & _ & Hr)]; [by left|right].
      split; [|done]. destruct (Hr Hl) as [Hl'|?]; [|done]. by destruct Hnot. }
    exists lv. split; [|done]. apply in_promised; [|done]. by intros ->.
Qed.

Lemma in_led t u L : leads' !! t = Some (u, L) → came_to_lead B c' leads' t L.
Proof.
  intros E. destruct in_leads as [(El & _)|[(reach & u0 & L0 & _ & El & _)|(es & El & Ho & Elog & Hes & _ & _ & Hor)]].
  1, 2: rewrite El in E; eapply came_grow; [by eapply (si_led _ _ _ HS)|done].
  rewrite El, lookup_insert_Some in E. destruct E as [[<- [= <- <-]]|[_ E]]; [|eapply came_grow; [by eapply (si_led _ _ _ HS)|done]].
  destruct Hor as [[Hl Ht]|[He Hno]].
  - pose proof (li_leader _ _ (si_linv _ _ _ HS) v n Hv Hl) as Eo. rewrite Ht in Eo. eapply came_grow; [by eapply (si_led _ _ _ HS)|].
    fold lg in Eo |- *. rewrite Elog. by apply prefix_app_r.
  - destruct (in_elected He Hno) as (ls & Q & Hls & Hrest). exists ls, Q. split; [|done]. etrans; [done|]. rewrite Elog. by apply prefix_app_r.
Qed.

(** What a snapshot stands for holds no membership either. *)
Lemma hid_plain base : Forall (λ e, is_config e = false) (hid leads base).
Proof.
  unfold hid. destruct (leads !! sm_term base) as [[u L]|] eqn:E; simpl; [|by rewrite take_nil]. apply Forall_take. by eapply (si_plain _ _ _ HS).
Qed.

Lemma in_plain t u L : leads' !! t = Some (u, L) → Forall (λ e, is_config e = false) L.
Proof.
  intros E. destruct in_leads as [(El & _)|[(reach & u0 & L0 & _ & El & _)|(es & El & _)]].
  1, 2: rewrite El in E; by eapply (si_plain _ _ _ HS).
  rewrite El, lookup_insert_Some in E. destruct E as [[<- [= <- <-]]|[_ E]]; [|by eapply (si_plain _ _ _ HS)].
  destruct in_posts as [_ (Hf & _)]. apply Forall_app_2; [apply hid_plain|]. by destruct Hf as (_ & _ & _ & _ & _ & Hl).
Qed.

(** ** What is committed *)

(** What was committed still is, wherever the log went, and the log is the same up to there. *)
Lemma safe_stays k :
  safe B c leads (node_term n) k lg → safe B c' leads' (node_term n') k lg' ∧ take (N.to_nat k) lg' = take (N.to_nat k) lg.
Proof.
  intros Hs. pose proof in_le as Hle. destruct in_log as [(es & El & _)|(reach & u & L & E & Ht & _)].
  { rewrite El. split; [eapply safe_grow; [apply in_net|apply in_grow|exact Hle|exact Hs]|]. rewrite take_app_le; [done|].
    destruct Hs as [->|(t & i' & _ & _ & _ & (? & ? & _ & _ & ? & _))]; [simpl; lia|done]. }
  destruct (safe_in_leader _ _ _ _ _ _ _ _ _ HS Hs Hle E) as (T1 & H1' & H2').
  destruct (takes_in_keeps _ _ _ _ Ht _ T1 H2' H1') as [T2 H3']. fold lg' in T2, H3'. split; [|congruence].
  destruct Hs as [Hz|(t & k' & Htn & Hk & Hc & (w & Lt & Et & HLt & _ & Tt))]; [by left|right]. exists t, k'. split_and!; [lia|done| |].
  - eapply chosen_grow; [apply in_net|apply in_grow|done].
  - apply (has_grow leads); [apply in_grow|]. exists w, Lt. split_and!; try done. congruence.
Qed.

(** What the leader has committed is committed here, as far as the logs are the same. *)
Lemma safe_reach reach u L lc :
  took_up leads n n' reach u L → safe B c leads (node_term n') lc L → safe B c' leads' (node_term n') (N.min lc (N.of_nat reach)) lg'.
Proof.
  intros (E & Ht & _) [->|(t & k & Htn & Hk & Hch & Hh)]; [left; lia|right]. destruct (takes_in_covers _ _ _ _ Ht) as [T1 H1']. fold lg' in T1, H1'.
  exists t, k. split_and!; [done|lia| |].
  - eapply chosen_grow; [apply in_net|apply in_grow|done].
  - apply (has_grow leads); [apply in_grow|]. set (m := N.to_nat (N.min lc (N.of_nat reach))).
    destruct (has_le leads t _ m L Hh ltac:(lia)) as (w & Lt & Et & HLt & _ & Tt). exists w, Lt. split_and!; [done|done|lia|].
    rewrite <-Tt. eapply take_eq_le; [exact T1|lia].
Qed.

Lemma chosen_now k : led n n' → chosen_by B (acked c) n' k →
  chosen B c' leads' (node_term n') (N.to_nat k) ∧ has leads' (node_term n') (N.to_nat k) lg'.
Proof.
  intros Hled (Hk & Ht & Q & HQ & HA).
  assert (leads' !! node_term n' = Some (v, lg')) as E by (unfold leads', next_leads; rewrite decide_True by done; by rewrite lookup_insert_eq).
  destruct (based_term_entry h' (slog n') (proj1 in_moves) k _ Ht Hk) as (e & He & Het). change (lg' !! N.to_nat (k - 1) = Some e) in He.
  pose proof (lookup_lt_Some _ _ _ He) as Hlen. split.
  - exists (N.to_nat (k - 1)), v, lg', e, Q. split_and!; try done; [lia|]. intros w Hw. destruct (HA w Hw) as [->|Ha].
    + right. exists lg'. pose proof in_posts as [[Hid _ _ _] _]. cbn [fst] in Hid. destruct (inv_nodes c HI v n Hv) as (Hid' & _).
      rewrite Hid, Hid'. split; [done|lia].
    + left. eapply acked_grow; [apply in_net|]. by rewrite N2Nat.id.
  - exists v, lg'. split_and!; [done|lia|lia|done].
Qed.

Lemma safe_chosen k : led n n' → chosen_by B (acked c) n' k → safe B c' leads' (node_term n') k lg'.
Proof. intros Hled Hk. destruct (chosen_now k Hled Hk). right. by exists (node_term n'), (N.to_nat k). Qed.

Lemma in_safe : safe B c' leads' (node_term n') (n_commit_index n') lg' ∧ safe B c' leads' (node_term n') (n_last_applied n') lg'.
Proof.
  destruct (si_nodes _ _ _ HS v n Hv) as (_ & Hc & Ha). apply safe_stays in Hc as [Hc _], Ha as [Ha _].
  destruct in_counted as [Hcn|(reach & u & L & to & m & lc & Ht & _ & _ & Hs & Eco & Eap)].
  - split; [destruct (cn_commit _ _ _ _ _ Hcn) as [Ec|[Hled Hch]]|destruct (cn_applied _ _ _ _ _ Hcn) as [Ea|Ea]]; cbn [fst] in *; [by rewrite Ec|by apply safe_chosen|by rewrite Ea..].
  - pose proof (safe_reach _ _ _ _ Ht Hs) as Hr. split; [destruct Eco as [->| ->]|destruct Eap as [->| ->]]; done.
Qed.

(** What the node has in its snapshot is committed. *)
Lemma in_base : safe B c' leads' (node_term n') (sm_index (el_base (slog n'))) lg'.
Proof.
  destruct (si_procs _ _ _ HS v _ Hv) as (_ & _ & _ & Hs). apply safe_stays in Hs as [Hs _]. simpl in Hs. destruct in_fixed as (_ & _ & Hg & Hm).
  destruct in_posts as [[_ _ Hlog _] _].
  destruct Hlog as [(es & _ & _ & Hb & _)|[(from & prev & pt & es & lc & sq & prev' & pt' & es' & _ & _ & _ & El & _)|(from & li & lt & off & data & sq & ms & Em & El & Hf & _)]]; cbn [fst snd] in *.
  - rewrite (proj2 Hb). cbn [sm_index]. unfold h. by rewrite (grounded_len _ _ Hg).
  - by rewrite El, merge_log_base.
  - pose proof (Hmsg _ _ Em) as Hnet. destruct (li_net c leads (si_linv _ _ _ HS) _ _ _ Hnet) as (u & L & E & Hli & ->).
    destruct (si_snapshots _ _ _ HS _ _ _ _ _ _ _ _ _ _ _ _ Hnet E) as [Hsl _]. destruct (li_leads c leads (si_linv _ _ _ HS) _ _ _ E) as (HmL & _ & _).
    destruct (compact_takes_in leads (slog n) L li Hg Hm HmL Hli (in_hid _ _ E)) as [Ht _]. rewrite <-El in Ht.
    assert (took_up leads n n' (N.to_nat li) u L) as Htk by done. pose proof (safe_reach _ _ _ li Htk Hsl) as Hr. rewrite N2Nat.id, N.min_id in Hr.
    rewrite El. unfold EntryLog_compact. destruct (_ <=? _); [done|]. exact Hr.
Qed.

Lemma in_match : match_ok (acked c') n'.
Proof.
  destruct in_posts as [_ (_ & Hm & _)]. cbn [fst] in Hm. intros Hl p k Hp. destruct (Hm Hl p k Hp) as [?|Ha]; [by left|right].
  eapply acked_grow; [apply in_net|done].
Qed.

(** ** Messages *)

(** What a leader sends, it sends as the leader of the term. *)
Lemma in_lead_sent to m :
  Send to m ∈ acts → ¬ answer (Send to m) → ¬ (∃ t li lt, m = RequestVote t li lt) →
  leads' !! node_term n' = Some (v, lg') ∧ led n n' ∧ action_ok h' n' (Send to m) ∧ sent_ok B (acked c) n n' (Send to m).
Proof.
  intros Hs Hna Hnr. assert (sent_ok B (acked c) n n' (Send to m)) as Hok.
  { destruct in_counted as [Hc|(reach & u & L & to' & m' & lc & _ & Ea & Hack & _)].
    - pose proof (cn_sent _ _ _ _ _ Hc) as Hok. cbn [fst snd] in Hok. rewrite list.Forall_forall in Hok. by apply Hok.
    - rewrite Ea in Hs. apply list_elem_of_singleton in Hs. injection Hs as -> ->. by destruct m'. }
  destruct in_leads as [(_ & _ & _ & Ha)|[(reach & u0 & L0 & _ & _ & _ & Ha)|(es' & El & _ & _ & _ & Ha & _ & Hor)]];
    rewrite list.Forall_forall in Ha; specialize (Ha _ Hs).
  - destruct m; try done. destruct Hnr. by eexists _, _, _.
  - done.
  - split_and!; try done; [by rewrite El, lookup_insert_eq|]. destruct Hor as [?|[[? _]%elected_spec _]]; [by right|by left].
Qed.

Lemma in_commits from to t prev pt es lc sq u L :
  (from, to, AppendEntries t prev pt es lc sq) ∈ c_net c' → leads' !! t = Some (u, L) → safe B c' leads' t lc L.
Proof.
  simpl. intros [[-> Hs]%advance_net|Hs]%elem_of_app E; cycle 1.
  { destruct (li_net _ _ (si_linv _ _ _ HS) _ _ _ Hs) as (u0 & L0 & E0 & _). destruct (in_grow _ _ _ E0) as (es' & E' & _).
    rewrite E' in E. injection E as <- <-. eapply safe_grow; [apply in_net|apply in_grow|reflexivity|]. by eapply (si_commits _ _ _ HS). }
  destruct (in_lead_sent _ _ Hs) as (El & Hled & [-> _] & Hok); [by intros []|by intros (? & ? & ? & [=])|]. rewrite El in E. injection E as <- <-.
  destruct Hok as [->|Hch]; [|by apply safe_chosen]. apply safe_stays. by destruct (si_nodes _ _ _ HS v n Hv) as (_ & Hc & _).
Qed.

Lemma in_snapshots from to t li lt off data fin sq ms u L :
  (from, to, InstallSnapshot t li lt off data fin sq ms) ∈ c_net c' → leads' !! t = Some (u, L) → safe B c' leads' t li L ∧ members_ok B ms.
Proof.
  simpl. intros [[-> Hs]%advance_net|Hs]%elem_of_app E; cycle 1.
  { destruct (li_net _ _ (si_linv _ _ _ HS) _ _ _ Hs) as (u0 & L0 & E0 & _). destruct (in_grow _ _ _ E0) as (es' & E' & _).
    rewrite E' in E. injection E as <- <-. destruct (si_snapshots _ _ _ HS _ _ _ _ _ _ _ _ _ _ _ _ Hs E0) as [Hsl Hms]. split; [|done].
    by eapply safe_grow; [apply in_net|apply in_grow|reflexivity|]. }
  destruct (in_lead_sent _ _ Hs) as (El & Hled & (-> & -> & _) & Hok); [by intros []|by intros (? & ? & ? & [=])|]. rewrite El in E. injection E as <- <-.
  split; [|exact Hok]. unfold h'. rewrite (grounded_len _ _ (proj1 in_moves)). apply in_base.
Qed.

Lemma in_replies w to m t j :
  (w, to, m) ∈ c_net c' → ack_of m = Some (t, j) →
  (∃ u L, leads' !! t = Some (u, L) ∧ (N.to_nat j ≤ length L)%nat) ∧ ∃ p, c_procs c' !! w = Some p ∧ t ≤ proc_term p.
Proof.
  simpl. intros [[-> Hs]%advance_net|Hs]%elem_of_app Hm.
  - destruct (in_reply _ _ _ _ Hs Hm) as (reach & u & L & Ht & -> & Hj). split.
    + unfold leads'. rewrite (took_up_leads c leads v n n' reach u L) by (done || apply HS). destruct Ht as (E & [HL _] & _). exists u, L. split; [done|lia].
    + exists (Up n'). by rewrite lookup_insert_eq.
  - destruct (si_replies _ _ _ HS _ _ _ _ _ Hs Hm) as [(u & L & E & HL) (p & Hp & Ht)]. split.
    + destruct (in_grow _ _ _ E) as (es & E' & _). exists u, (L ++ es). rewrite length_app. split; [done|lia].
    + destruct (in_proc w p Hp) as (p' & Hp' & Hle). exists p'. split; [done|lia].
Qed.

Lemma in_requests cand to u li lt :
  (cand, to, RequestVote u li lt) ∈ c_net c' →
  (∃ p, c_procs c' !! cand = Some p ∧ u ≤ proc_term p) ∧ ∀ l, stands c' leads' cand u l → li = blen l ∧ lt = term_before l (blen l).
Proof.
  simpl. intros [[-> Hs]%advance_net|Hs]%elem_of_app.
  - assert (plain h' n' (Send to (RequestVote u li lt))) as (Hr & -> & -> & ->).
    { destruct in_leads as [(_ & _ & _ & Ha)|[(reach & u0 & L0 & _ & _ & _ & Ha)|(es' & _ & _ & _ & _ & Ha & _)]];
        rewrite list.Forall_forall in Ha; by specialize (Ha _ Hs). }
    split; [exists (Up n'); by rewrite lookup_insert_eq|]. intros l (m & Hm & _ & _ & ->). simpl in Hm. rewrite lookup_insert_eq in Hm. injection Hm as <-.
    by rewrite in_flog'.
  - destruct (si_requests _ _ _ HS _ _ _ _ _ Hs) as [(p & Hp & Hu) Hl]. split.
    + destruct (in_proc cand p Hp) as (p' & Hp' & Hle). exists p'. split; [done|lia].
    + intros l [(-> & -> & _ & [Hlt|[Hc Ht]])|[_ Hst]]%in_stands; [|apply Hl; by exists n|by apply Hl].
      rewrite Hv in Hp. injection Hp as <-. change (u ≤ node_term n) in Hu. lia.
Qed.

Lemma in_votes a u cand :
  (a, u, cand) ∈ c_votes c' →
  (∀ p, c_procs c' !! cand = Some p → u ≤ proc_term p) ∧
  ∀ l, stands c' leads' cand u l → leads' !! u = None → ∃ lv, promised c' leads' a u lv ∧ fresh_as lv (blen l) (term_before l (blen l)).
Proof.
  intros Hvote. split.
  - assert (∀ q, c_procs c !! cand = Some q → u ≤ proc_term q → ∀ p, c_procs c' !! cand = Some p → u ≤ proc_term p) as Hmono.
    { intros q Hq Hu p Hp. destruct (in_proc cand q Hq) as (p' & Hp' & Hle). rewrite Hp in Hp'. injection Hp' as <-. lia. }
    intros p Hp. destruct (c_procs c !! cand) as [q|] eqn:Eq; cycle 1.
    { simpl in Hp. rewrite lookup_insert_Some in Hp. destruct Hp as [[<- _]|[_ ?]]; congruence. }
    pose proof Hvote as Hvote'. apply elem_of_app in Hvote' as [[-> Hhs]%elem_vote_of|Hold]; [|eapply Hmono; [done| |done]; by apply (si_votes _ _ _ HS _ _ _ Hold)].
    change (hs_of n' = mkHardState u (Some cand)) in Hhs. assert (node_term n' = u) as Hu by (unfold node_term; unfold hs_of in Hhs; by rewrite Hhs).
    pose proof in_posts as [[_ _ _ Hvm] _]. cbn [fst] in Hvm. destruct (Hvm cand) as [Hsame|[[Hc Hlt]|(li & lt & Em & Hf)]]; [by rewrite Hhs| | |].
    + eapply Hmono; [done| |done]. pose proof (inv_cast c HI v (Up n) cand Hv) as Hcast. simpl in Hcast. rewrite <-Hsame, Hhs in Hcast.
      by apply (si_votes _ _ _ HS _ _ _ (Hcast eq_refl)).
    + destruct (inv_nodes c HI v n Hv) as (Hid & _). rewrite Hid in Hc. subst cand. simpl in Hp. rewrite lookup_insert_eq in Hp. injection Hp as <-.
      change (u ≤ node_term n'). lia.
    + rewrite Hu in Em. destruct (si_requests _ _ _ HS _ _ _ _ _ (Hmsg _ _ Em)) as [(p0 & Hp0 & Hle) _]. rewrite Eq in Hp0. injection Hp0 as <-.
      by eapply Hmono.
  - intros l Hst%in_stands Hno. assert (leads !! u = None) as Hno'.
    { destruct (leads !! u) as [[w L]|] eqn:E; [|done]. destruct (in_grow _ _ _ E) as (es & E' & _). congruence. }
    destruct (in_promise a u cand l Hvote Hno' Hst) as (lv & Hpr & Hf). exists lv. split; [|done]. apply in_promised; [|done].
    intros ->. by eapply in_vote_self.
Qed.

(** What the others have committed. *)
Lemma in_others w p k T : c_procs c !! w = Some p → safe B c leads T k (flog leads (proc_log p)) → safe B c' leads' T k (flog leads' (proc_log p)).
Proof.
  intros Hw Hs. rewrite (in_flog w p Hw), <-(app_nil_r (flog leads (proc_log p))). eapply safe_grow; [apply in_net|apply in_grow|reflexivity|done].
Qed.

Lemma in_sinv : SInv B c' leads'.
Proof.
  split.
  - apply in_linv.
  - intros w p Hw. simpl in Hw. rewrite lookup_insert_Some in Hw. destruct Hw as [[<- <-]|[Hne Hw]].
    + destruct in_posts as [_ (Hf & _)]. simpl. rewrite in_flog'. split_and!; [exact Hf|intros e He; by apply in_terms|apply in_keeps|apply in_base].
    + destruct (si_procs _ _ _ HS w p Hw) as (H1' & H2' & H3' & H4'). pose proof (in_others w p _ _ Hw H4') as H5'. rewrite (in_flog w p Hw) in *. split_and!; [done..| |done].
      eapply keeps_grow; [apply in_grow|apply in_lead_terms|intros t x k; by apply (held_inside B)|reflexivity| |exact H3'].
      intros t k Hh. destruct (in_held _ _ _ Hh) as [|(? & _)]; [done|congruence].
  - intros w m Hw. simpl in Hw. rewrite lookup_insert_Some in Hw. destruct Hw as [[<- [= <-]]|[Hne Hw]]; [rewrite in_flog'; split; [apply in_match|apply in_safe]|].
    destruct (si_nodes _ _ _ HS w m Hw) as (H1' & H2' & H3'). split_and!; [|by apply (in_others w (Up m))..].
    intros Hl p k Hp. destruct (H1' Hl p k Hp) as [?|Ha]; [by left|right]. eapply acked_grow; [apply in_net|done].
  - apply in_voters.
  - apply in_lead_terms.
  - apply in_plain.
  - apply in_led.
  - apply in_replies.
  - apply in_commits.
  - apply in_snapshots.
  - apply in_requests.
  - apply in_votes.
Qed.

(** The snapshots being written. *)
Lemma in_jinv js : JInv B c leads js → JInv B c' leads' js.
Proof.
  intros HJ w k Hk. destruct (HJ w k Hk) as (Hms & m & Hw & Hs & Et). split; [done|]. simpl. destruct (decide (v = w)) as [<-|Hne].
  - rewrite Hv in Hw. injection Hw as <-. exists n'. rewrite lookup_insert_eq, in_flog'. destruct (safe_stays _ Hs) as [Hs' Etk]. split_and!; [done|done|].
    rewrite Et. unfold term_before. destruct (N.eqb_spec (sm_index (sink_meta k)) 0); [done|]. do 2 f_equal.
    rewrite <-(lookup_take_lt lg (N.to_nat (sm_index (sink_meta k)))), <-Etk, lookup_take_lt by lia. done.
  - exists m. rewrite lookup_insert_ne by done. split_and!; [done|by apply (in_others w (Up m))|]. by rewrite (in_flog w (Up m) Hw : flog leads' (slog m) = flog leads (slog m)).
Qed.
End input.

(** ** A node is replaced by one with the same term and log *)

Section replace.
Variables (c c2 : Cluster (S := S)) (leads : Leads) (v : NodeId) (p p' : Proc (S := S)).
Hypothesis HS : SInv B c leads.
Hypothesis Hv : c_procs c !! v = Some p.
Hypothesis HL : LInv c2 leads.
Hypothesis Ep : c_procs c2 = <[v := p']> (c_procs c).
Hypothesis En : c_net c2 = c_net c.
Hypothesis Ee : c_elections c2 = c_elections c.
Hypothesis Hvo : ∀ x, x ∈ c_votes c2 → x ∈ c_votes c.
Hypothesis Et : proc_term p' = proc_term p.
Hypothesis El : flog leads (proc_log p') = flog leads (proc_log p).
Hypothesis Hset : settled_proc B p'.
Hypothesis Hbase : safe B c leads (proc_term p) (sm_index (el_base (proc_log p'))) (flog leads (proc_log p)).
Hypothesis Hup : ∀ n', p' = Up n' →
  (n_role n' = Candidate → ∃ n, p = Up n ∧ n_role n = Candidate) ∧ match_ok (acked c) n' ∧
  safe B c leads (node_term n') (n_commit_index n') (flog leads (proc_log p)) ∧ safe B c leads (node_term n') (n_last_applied n') (flog leads (proc_log p)).

Lemma rp_lookup a q : c_procs c2 !! a = Some q → a = v ∧ q = p' ∨ a ≠ v ∧ c_procs c !! a = Some q.
Proof. rewrite Ep, lookup_insert_Some. intros [[-> ->]|[? ?]]; auto. Qed.

Lemma rp_proc a q u : c_procs c !! a = Some q → u ≤ proc_term q → ∃ q', c_procs c2 !! a = Some q' ∧ u ≤ proc_term q'.
Proof.
  intros Ha Hu. rewrite Ep. destruct (decide (v = a)) as [<-|Hne]; [|exists q; by rewrite lookup_insert_ne].
  rewrite Hv in Ha. injection Ha as <-. exists p'. rewrite lookup_insert_eq, Et. done.
Qed.

Lemma rp_stands cand u l : stands c2 leads cand u l → stands c leads cand u l.
Proof.
  intros (m & Hm & Hr & Ht & ->). destruct (rp_lookup _ _ Hm) as [[-> <-]|[Hne Hm']]; [|by exists m].
  destruct (proj1 (Hup m eq_refl) Hr) as (n & -> & Hrn). exists n. split_and!; [done|done|by rewrite <-Ht; symmetry; exact Et|exact El].
Qed.

Lemma rp_safe T k l : safe B c leads T k l → safe B c2 leads T k l.
Proof. intros Hs. rewrite <-(app_nil_r l). eapply (safe_grow B c); [by rewrite En|apply leads_grow_refl|reflexivity|done]. Qed.

Lemma rp_held t w k : held c2 leads t w k → held c leads t w k.
Proof. intros [(to & m & j & Hin & ?)|?]; [left; exists to, m, j; by rewrite <-En|by right]. Qed.

Lemma rp_promised w u l : promised c leads w u l → promised c2 leads w u l.
Proof. intros [Hm Hp]. split; [done|]. intros t k Htu Hh. apply Hp; [done|by apply rp_held]. Qed.

Lemma sinv_replace : SInv B c2 leads.
Proof.
  destruct HS as [_ S2 S3 Sv S4 S5 S6 S7 S8 S9 S10 S11]. split; try done.
  - intros a q [[-> ->]|[_ Ha]]%rp_lookup.
    + rewrite Et, El. destruct (S2 v p Hv) as (_ & H2' & H3' & _). split_and!; [done|done| |by apply rp_safe]. intros t k Hh. by apply H3', rp_held.
    + destruct (S2 a q Ha) as (H1' & H2' & H3' & H4'). split_and!; [done|done| |by apply rp_safe]. intros t k Hh. by apply H3', rp_held.
  - assert (∀ m, match_ok (acked c) m → match_ok (acked c2) m) as Hmo.
    { intros m Hm Hl q k Hq. destruct (Hm Hl q k Hq) as [?|(to & x & j & Hin & ?)]; [by left|right]. exists to, x, j. by rewrite En. }
    intros a m [[-> <-]|[_ Ha]]%rp_lookup.
    + destruct (Hup m eq_refl) as (_ & H1' & H2' & H3'). simpl in El. rewrite El. split_and!; [by apply Hmo|by apply rp_safe..].
    + destruct (S3 a m Ha) as (H1' & H2' & H3'). split_and!; [by apply Hmo|by apply rp_safe..].
  - by rewrite Ee.
  - intros t u L E. destruct (S6 _ _ _ E) as (ls & Q & H1' & H2' & H3' & H4'). exists ls, Q. split_and!; try done. intros a Ha.
    destruct (H4' a Ha) as [(q & Hq & Hu) (lv & Hp & Hf)]. split; [by eapply rp_proc|]. exists lv. split; [by apply rp_promised|done].
  - intros a to m t j. rewrite En. intros Hin Hm. destruct (S7 _ _ _ _ _ Hin Hm) as [H1' (q & Hq & Hu)]. split; [done|by eapply rp_proc].
  - intros from to t prev pt es lc sq u L. rewrite En. intros Hin E. eapply rp_safe, S8; done.
  - intros from to t li lt off data fin sq ms u L. rewrite En. intros Hin E. destruct (S9 _ _ _ _ _ _ _ _ _ _ _ _ Hin E). split; [by apply rp_safe|done].
  - intros cand to u li lt. rewrite En. intros Hin. destruct (S10 _ _ _ _ _ Hin) as [(q & Hq & Hu) Hl]. split; [by eapply rp_proc|]. intros l Hs. by apply Hl, rp_stands.
  - intros a u cand Hin. destruct (S11 _ _ _ (Hvo _ Hin)) as [H1' H2']. split.
    + intros q [[-> ->]|[_ Hq]]%rp_lookup; [rewrite Et|]; by apply H1'.
    + intros l Hs Hno. destruct (H2' l) as (lv & Hp & Hf); [by apply rp_stands|done|]. exists lv. split; [by apply rp_promised|done].
Qed.

Lemma jinv_replace js : (∀ k, (v, k) ∈ js → ∃ n', p' = Up n') → JInv B c leads js → JInv B c2 leads js.
Proof.
  intros Hsome HJ w k Hk. destruct (HJ w k Hk) as (Hms & m & Hw & Hs & Etm). split; [done|]. rewrite Ep. destruct (decide (v = w)) as [<-|Hne].
  - destruct (Hsome k Hk) as [n' En']. exists n'. rewrite lookup_insert_eq, <-En'. rewrite Hv in Hw. injection Hw as Epm.
    pose proof El as El'. pose proof Et as Et'. rewrite En', Epm in El', Et'. simpl in El'. rewrite El'. split_and!; [done| |done].
    apply rp_safe. change (node_term n') with (proc_term (Up n')). rewrite Et'. exact Hs.
  - exists m. rewrite lookup_insert_ne by done. split_and!; [done|by apply rp_safe|done].
Qed.
End replace.

(** ** A node stops or starts, or puts a snapshot in place *)

(** A node that keeps its term and vote casts no new one. *)
Lemma same_votes c v n p acts x :
  Inv c → c_procs c !! v = Some (Up n) → proc_hs p = hs_of n → x ∈ c_votes (advance v n p acts c) → x ∈ c_votes c.
Proof.
  intros HI Hv Hh. destruct x as [[a u] cand]. intros [[-> Hhs]%elem_vote_of|?]%elem_of_app; [|done].
  pose proof (inv_cast c HI v (Up n) cand Hv) as Hcast. simpl in Hcast. rewrite <-Hh, Hhs in Hcast. by apply Hcast.
Qed.

Lemma sinv_crash c leads js v n st :
  SInv B c leads → JInv B c leads js → Inv c → c_procs c !! v = Some (Up n) → hard_state st = hard_state (n_storage n) → st_log st = slog n →
  snapshot_members st = snapshot_members (n_storage n) →
  SInv B (advance v n (Down st) [] c) leads ∧ JInv B (advance v n (Down st) [] c) leads (filter (λ x, x.1 ≠ v) js).
Proof.
  intros HS HJ HI Hv Hh Hl Hms. destruct (si_procs _ _ _ HS v _ Hv) as (Hf & _ & _ & Hsb). simpl in Hf.
  assert (LInv (advance v n (Down st) [] c) leads) as HL.
  { apply (linv_crash _ _ _ _ _ (length (log_of n))); [apply HS|done|done|]. unfold log_of. rewrite Hl, take_ge by done. by destruct (slog n). }
  assert (proc_term (Down st) = proc_term (Up n)) as Et by (unfold proc_term; simpl; unfold hs_of; by rewrite Hh).
  assert (flog leads (proc_log (Down st)) = flog leads (proc_log (Up n))) as El by (simpl; by rewrite Hl). split.
  - eapply (sinv_replace c _ leads v (Up n) (Down st)); try done; [intros x; apply (same_votes c v n (Down st) [] x); done| |].
    + destruct Hf as (_ & _ & _ & F4 & _ & F6). split; [by rewrite Hms|by rewrite Hl].
    + simpl. by rewrite Hl.
  - eapply (jinv_replace c _ leads v (Up n) (Down st)); try done.
    + by intros k [[]%(λ H, H eq_refl) _]%list_elem_of_filter.
    + intros w k [_ Hk]%list_elem_of_filter. by apply HJ.
Qed.

Lemma sinv_restart c leads js v st config :
  SInv B c leads → JInv B c leads js → c_procs c !! v = Some (Down st) →
  let c2 := mkCluster (<[v := Up (with_members v B config st)]> (c_procs c)) (c_net c) (c_votes c) (c_elections c) in SInv B c2 leads ∧ JInv B c2 leads js.
Proof.
  intros HS HJ Hv c2. destruct (si_procs _ _ _ HS v _ Hv) as ([Hs Hp] & _ & _ & Hsb). destruct (li_logs _ _ (si_linv _ _ _ HS) v _ Hv) as [Hg _]. simpl in Hg.
  destruct (with_members_fixed B (hid leads (el_base (st_log st))) v config st Hs Hp Hg) as (Hf & Hc & Ha). destruct (with_members_fresh v B config st) as (_ & _ & F3 & F4).
  assert (LInv c2 leads) as HL by (apply linv_restart; [apply HS|done]). set (n := with_members v B config st) in *. clearbody n.
  assert (proc_term (Up n) = proc_term (Down st)) as Et by (unfold proc_term; simpl; unfold hs_of; by rewrite F4).
  assert (slog n = st_log st) as Eslog by (unfold slog; by rewrite F4).
  assert (flog leads (proc_log (Up n)) = flog leads (proc_log (Down st))) as El by (simpl; by rewrite Eslog). split.
  - eapply (sinv_replace c _ leads v (Down st) (Up n)); try done.
    + by eapply fixed_settled.
    + simpl. by rewrite Eslog.
    + intros n' [= <-]. rewrite Hc, Ha, F3, (grounded_len _ _ Hg). split_and!; [done|by intros Hl; rewrite F3 in Hl| |]; change (node_term n) with (proc_term (Up n)); by rewrite Et.
  - eapply (jinv_replace c _ leads v (Down st) (Up n)); try done. intros k _. by exists n.
Qed.

(** The node's own snapshot stands for what its log held. *)
Lemma finish_same c leads v n k acts n' :
  SInv B c leads → c_procs c !! v = Some (Up n) → job_ok B c leads v k → node_input (InFinish k) n = (Ok acts, n') →
  acts = [] ∧ hs_of n' = hs_of n ∧ grounded leads (slog n') ∧ flog leads (slog n') = flog leads (slog n) ∧
  safe B c leads (node_term n) (sm_index (el_base (slog n'))) (flog leads (slog n)) ∧ settled B n' ∧
  n_role n' = n_role n ∧ n_commit_index n' = n_commit_index n ∧ n_last_applied n' = n_last_applied n ∧ n_match_index n' = n_match_index n.
Proof.
  intros HS Hv (Hms & m & Hm & Hs & Et) Hin. rewrite Hv in Hm. injection Hm as <-. destruct (finish_moves k n acts n' Hin) as [-> Hor]. split; [done|].
  destruct (si_procs _ _ _ HS v _ Hv) as (Hf & _ & _ & Hsb). destruct (li_logs _ _ (si_linv _ _ _ HS) v _ Hv) as [Hg Hmk]. simpl in Hf, Hsb, Hg, Hmk.
  destruct Hor as [->|(st & -> & Hh & Hl & Him)]; [by split_and!|].
  assert (N.to_nat (sm_index (sink_meta k)) ≤ length (flog leads (slog n)))%nat as Hi.
  { destruct Hs as [->|(t & i' & _ & _ & _ & (? & ? & _ & _ & ? & _))]; [simpl; lia|done]. }
  destruct (compact_takes_in leads (slog n) (flog leads (slog n)) (sm_index (sink_meta k)) Hg Hmk Hmk Hi) as [Ht Hg']; [unfold flog; by apply prefix_app_r|].
  replace (mkMeta (sm_index (sink_meta k)) (term_before (flog leads (slog n)) (sm_index (sink_meta k)))) with (sink_meta k) in Ht, Hg' by (rewrite <-Et; by destruct (sink_meta k)).
  rewrite <-Hl in Ht, Hg'. pose proof (takes_in_self _ _ _ _ Ht eq_refl) as Efl. split_and!; try done.
  - unfold slog at 1. cbn. rewrite Hl. unfold EntryLog_compact. destruct (_ <=? _); [done|]. exact Hs.
  - destruct Hf as (F1 & F2 & F3 & F4 & F5 & F6). split_and!; try done; cbn; [destruct Him as [->| ->]; done|].
    unfold log_of, slog. cbn. rewrite Hl. unfold EntryLog_compact. destruct (_ <=? _); cbn; [done|]. case_bool_decide; [by apply Forall_drop|done].
Qed.

Lemma sinv_finish c leads js v n k acts n' :
  SInv B c leads → JInv B c leads js → Inv c → c_procs c !! v = Some (Up n) → (v, k) ∈ js → node_input (InFinish k) n = (Ok acts, n') →
  SInv B (advance v n (Up n') acts c) leads ∧ JInv B (advance v n (Up n') acts c) leads js.
Proof.
  intros HS HJ HI Hv Hk Hin. destruct (finish_same c leads v n k acts n' HS Hv (HJ _ _ Hk) Hin) as (-> & Eh & Hg & El & Hsb & Hset & Er & Ec & Ea & Em).
  pose proof (node_term_hs _ _ Eh) as Et. destruct (si_nodes _ _ _ HS v n Hv) as (Hmo & Hsc & Hsa).
  assert (LInv (advance v n (Up n') [] c) leads) as HL by (apply linv_same; try done; apply HS).
  assert (c_elections (advance v n (Up n') [] c) = c_elections c) as Ee.
  { simpl. destruct (elected n n') eqn:He; [|done]. apply elected_spec in He as [Hl Hno]. destruct Hno. split; congruence. }
  split.
  - eapply (sinv_replace c _ leads v (Up n) (Up n')); try done; [intros x; by apply (same_votes c v n (Up n') [] x)|].
    intros m [= <-]. rewrite Et, Ec, Ea. split_and!; try done; [intros Hr; exists n; split; [done|congruence]|]. unfold match_ok. by rewrite Er, Et, Em.
  - eapply (jinv_replace c _ leads v (Up n) (Up n')); try done. intros k' _. by exists n'.
Qed.

(** ** Every step *)

Lemma kstep_inv c js c' js' : Inv c → kstep B (c, js) (c', js') → Inv c'.
Proof.
  intros HI Hs.
  inversion Hs as [c0 js0 v n i acts n' Hv Hi Hm Hin|c0 js0 v n index k n' Hv Hb|c0 js0 v k d k' Hk Hw|c0 js0 v n k acts n' Hv Hk Hin|c0 js0 v n st Hv Hst Hl Hms|c0 js0 v st config Hv]; subst;
    try done; (eapply cstep_inv; [done|]).
  - by eapply cs_input.
  - eapply (cs_input _ _ _ (InBegin index)); [done|done|]. unfold node_input. by rewrite Hb.
  - by eapply (cs_input _ _ _ (InFinish k)).
  - by apply cs_crash.
  - by apply cs_restart.
Qed.

Lemma kstep_sinv c js c' js' leads :
  SInv B c leads → JInv B c leads js → Inv c → kstep B (c, js) (c', js') →
  ∃ leads', SInv B c' leads' ∧ JInv B c' leads' js' ∧ leads_grow leads leads' ∧ c_net c ⊆ c_net c'.
Proof.
  intros HS HJ HI Hs.
  assert (∀ v n (p : Proc (S := S)) acts, c_net c ⊆ c_net (advance v n p acts c)) as Hnet by (intros v n p acts x Hx; apply elem_of_app; by right).
  inversion Hs as [c0 js0 v n i acts n' Hv Hi Hm Hin|c0 js0 v n index k n' Hv Hb|c0 js0 v k d k' Hk Hw|c0 js0 v n k acts n' Hv Hk Hin|c0 js0 v n st Hv Hst Hl Hms|c0 js0 v st config Hv]; subst.
  - apply unchanging_ordinary in Hi. exists (next_leads leads v n n'). split_and!; [by eapply in_sinv|by eapply in_jinv|by eapply in_grow|done].
  - assert (node_input (InBegin index) n = (Ok [], n')) as Hin by (unfold node_input; by rewrite Hb).
    assert (∀ from m, input_message (InBegin (H := H) index) = Some (from, m) → (from, v, m) ∈ c_net c) as Hm by done.
    pose proof (in_sinv c leads v n n' (InBegin index) [] HS HI Hv eq_refl Hm Hin) as HS'.
    exists (next_leads leads v n n'). split_and!; [done| |by eapply (in_grow c leads v n n' (InBegin index))|done].
    destruct (begin_opens _ _ _ _ Hb) as (Hlt & Hle & Hmem & t & Emeta & Ht). destruct (si_procs _ _ _ HS v _ Hv) as (Hf & _).
    destruct (si_nodes _ _ _ HS v n Hv) as (_ & _ & Hsa). destruct (li_logs _ _ (si_linv _ _ _ HS) v _ Hv) as [Hg _].
    eapply (in_jinv c leads v n n' (InBegin index)); try done. intros w k0 [[= -> ->]|Hk]%elem_of_cons; [|by apply HJ]. split.
    + rewrite Hmem, (members_at_settled B n index Hf). by right.
    + exists n. rewrite Emeta. cbn [sm_index sm_term]. split_and!; [done| |].
      * destruct Hsa as [Hz|(t' & i' & H1' & H2' & H3' & H4')]; [lia|right]. exists t', i'. split_and!; [done|lia|done|]. eapply has_le; [done|lia].
      * by apply (based_term_at _ _ Hg) in Ht as (_ & _ & ->).
  - exists leads. split_and!; [done| |apply leads_grow_refl|done]. intros w k0 [[= -> ->]|Hk0]%elem_of_cons; [|by apply HJ].
    pose proof (law_sink_write_meta d k) as E1. pose proof (law_sink_write_members d k) as E2. rewrite Hw in E1, E2. cbn [snd] in E1, E2.
    destruct (HJ _ _ Hk) as (Hms & n & Hn). split; [by rewrite E2|]. exists n. by rewrite E1.
  - exists leads. destruct (sinv_finish c leads js' v n k acts n') as [HS' HJ']; try done. split_and!; [done|done|apply leads_grow_refl|done].
  - exists leads. destruct (sinv_crash c leads js v n st) as [HS' HJ']; try done. split_and!; [done|done|apply leads_grow_refl|done].
  - exists leads. destruct (sinv_restart c leads js' v st config) as [HS' HJ']; try done. split_and!; [done|done|apply leads_grow_refl|done].
Qed.

Lemma kreachable_sinv c js : kreachable B (c, js) → Inv c ∧ ∃ leads, SInv B c leads ∧ JInv B c leads js.
Proof.
  intros Hc. remember (c, js) as x eqn:Ex. revert c js Ex. induction Hc as [procs Hp|[c0 js0] x' _ IH Hs]; intros c js Ex.
  - injection Ex as <- <-. assert (reachable (mkCluster procs [] [] [])) as Hr.
    { constructor. eapply map_Forall_impl; [exact Hp|]. intros v p (st & -> & Hst & _). by exists st. }
    split; [by apply reachable_inv|]. exists ∅. split; [|by intros v k ?%not_elem_of_nil].
    split; simpl; try done; try (by intros; match goal with Hx : _ ∈ [] |- _ => by apply not_elem_of_nil in Hx end).
    + apply linv_init. eapply map_Forall_impl; [exact Hp|]. intros v p (st & -> & Hst & Hl & _). by exists st.
    + intros v p Hv. destruct (Hp v p Hv) as (st & -> & Hst & Hl & Hms). simpl. rewrite Hl, Hms. simpl. split_and!; [by left|done|by intros e ?%not_elem_of_nil| |by left].
      intros t i [(to & m & j & Hin & _)|(L & E & _)]; [by apply not_elem_of_nil in Hin|done].
    + intros v n Hv. by destruct (Hp v _ Hv) as (st & [=] & _).
  - subst x'. destruct (IH c0 js0 eq_refl) as (HI & leads & HS & HJ). split; [by eapply kstep_inv|].
    destruct (kstep_sinv _ _ _ _ _ HS HJ HI Hs) as (leads' & HS' & HJ' & _). by exists leads'.
Qed.

End cluster.
