(* ===== verification/StateMachine.v ===== *)
(** * State machine safety (src/raft/node.rs)

    What the invariant means, over any run of a cluster of fixed membership: what one node takes for
    committed every later leader has, in its log or in a snapshot, and no node ever takes anything
    else for committed at the same index. *)

From S2P Require Import Prelude.
From S2P Require Import RaftLog.
From S2P Require Import Message.
From S2P Require Import NodeState.
From S2P Require Import Node.
From S2P Require Import NodeFrame.
From S2P Require Import Quorum.
From S2P Require Import Election.
From S2P Require Import ElectionSafety.
From S2P Require Import Replication.
From S2P Require Import Commit.
From S2P Require Import LogSteps.
From S2P Require Import LogMatching.
From S2P Require Import CommitSteps.
From S2P Require Import LeaderCompleteness.
From S2P Require Import StateMachineSteps.

#[local] Open Scope N_scope.

Section cluster.
Context {S : Type} `{StorageLaws S}.
Implicit Types (n : Node S) (c : Cluster (S := S)).

Variable B : list Member.
Hypothesis HB : Forall (λ m, m_learner m = false) B.

(** How far a node has what is committed: as far as it takes for committed, or has handed over, or
    has in its snapshot. *)
Definition known n : N := N.max (N.max (n_commit_index n) (n_last_applied n)) (sm_index (snapshot_meta (n_storage n))).

(** ** Over time *)

Lemma ksteps_sinv c js c' js' leads :
  Inv c → SInv B c leads → JInv B c leads js → rtc (kstep B) (c, js) (c', js') →
  ∃ leads', SInv B c' leads' ∧ leads_grow leads leads' ∧ c_net c ⊆ c_net c'.
Proof.
  intros HI HS HJ Hr. remember (c, js) as x eqn:Ex. remember (c', js') as x' eqn:Ex'. revert c js leads HI HS HJ Ex.
  induction Hr as [x|x [c1 js1] x' Hs _ IH]; intros c js leads HI HS HJ ->.
  { injection Ex' as <- <-. exists leads. split_and!; [done|apply leads_grow_refl|done]. }
  destruct (kstep_sinv B HB _ _ _ _ _ HS HJ HI Hs) as (l1 & HS1 & HJ1 & G1 & N1).
  destruct (IH Ex' c1 js1 l1 (kstep_inv B _ _ _ _ HI Hs) HS1 HJ1 eq_refl) as (l2 & HS2 & G2 & N2).
  exists l2. split_and!; [done|by eapply leads_grow_trans|by etrans].
Qed.

Lemma safe_le c leads T i j l : safe B c leads T i l → j ≤ i → safe B c leads T j l.
Proof.
  intros [->|(t & k & Ht & Hk & Hc & Hh)] Hj; [left; lia|right]. exists t, k. split_and!; [done|lia|done|]. eapply has_le; [done|lia].
Qed.

(** Two logs agree on what both have committed. *)
Lemma safe_agree c leads T1 T2 i l1 l2 :
  SInv B c leads → safe B c leads T1 i l1 → safe B c leads T2 i l2 → take (N.to_nat i) l1 = take (N.to_nat i) l2.
Proof.
  intros HS H1' H2'. destruct H1' as [->|(t1 & k1 & _ & Hk1 & Hc1 & Hh1)]; [done|]. destruct H2' as [->|(t2 & k2 & _ & Hk2 & Hc2 & Hh2)]; [done|].
  assert (∀ t t' k l l', t ≤ t' → (N.to_nat i ≤ k)%nat → chosen B c leads t k → has leads t (N.to_nat i) l → has leads t' (N.to_nat i) l' →
    take (N.to_nat i) l = take (N.to_nat i) l') as Hwlog.
  { intros t t' k l l' Htt Hk Hc Hh (u' & L' & E' & HL' & _ & T'). destruct (decide (t = t')) as [->|].
    - destruct Hh as (u & L & E & _ & _ & Tk). rewrite E' in E. injection E as <- <-. congruence.
    - assert (t < t') as Hlt by lia. pose proof (chosen_has _ _ _ _ _ _ _ _ HS Hc Hlt E') as HL. apply (has_le _ _ _ (N.to_nat i)) in HL; [|done].
      destruct Hh as (u & L & E & _ & _ & Tk), HL as (u2 & L2 & E2 & _ & _ & T2'). rewrite E in E2. injection E2 as <- <-. congruence. }
  destruct (decide (t1 ≤ t2)); [by eapply (Hwlog t1 t2 k1)|symmetry]. eapply (Hwlog t2 t1 k2); try done. lia.
Qed.

(** What is committed now, in the state reached later. *)
Lemma safe_later c js c' js' v n i :
  kreachable B (c, js) → rtc (kstep B) (c, js) (c', js') → c_procs c !! v = Some (Up n) → i ≤ known n →
  ∃ leads', SInv B c' leads' ∧ grounded leads' (slog n) ∧ safe B c' leads' (node_term n) i (flog leads' (slog n)).
Proof.
  intros Hc Hr Hv Hi. destruct (kreachable_sinv B HB c js Hc) as (HI & leads & HS & HJ). destruct (ksteps_sinv _ _ _ _ _ HI HS HJ Hr) as (leads' & HS' & Hg & Hn).
  destruct (li_logs _ _ (si_linv _ _ _ HS) v _ Hv) as [Hgr _]. simpl in Hgr. exists leads'. split_and!; [done|by eapply grounded_grow|].
  rewrite (flog_grow leads leads') by done. rewrite <-(app_nil_r (flog leads (slog n))). eapply safe_grow; [exact Hn|exact Hg|reflexivity|].
  destruct (si_nodes _ _ _ HS v n Hv) as (_ & Hsc & Hsa). destruct (si_procs _ _ _ HS v _ Hv) as (_ & _ & _ & Hsb). simpl in Hsb.
  unfold known in Hi. rewrite law_snapshot_meta in Hi. fold (slog n) in Hi.
  destruct (decide (i ≤ n_commit_index n)); [by eapply safe_le; [exact Hsc|]|]. destruct (decide (i ≤ n_last_applied n)); [by eapply safe_le; [exact Hsa|]|].
  eapply safe_le; [exact Hsb|lia].
Qed.

(** ** What a node shows of its log *)

Lemma safe_length c leads T i l : safe B c leads T i l → (N.to_nat i ≤ length l)%nat.
Proof. intros [->|(t & k & _ & _ & _ & (? & ? & _ & _ & ? & _))]; [simpl; lia|done]. Qed.

(** An entry at an index as far as which two logs agree. *)
Lemma agree_entry leads leads' n n' i e :
  grounded leads (slog n) → grounded leads' (slog n') → take (N.to_nat i) (flog leads (slog n)) = take (N.to_nat i) (flog leads' (slog n')) →
  entry (n_storage n) i = Some e → i ≤ sm_index (snapshot_meta (n_storage n')) ∨ entry (n_storage n') i = Some e.
Proof.
  intros Hg Hg' Et He. rewrite law_entry in He |- *. rewrite law_snapshot_meta. fold (slog n) (slog n') in *.
  apply (based_entry _ _ Hg) in He as [Hi He]. destruct (decide (i ≤ sm_index (el_base (slog n')))) as [|Hgt]; [by left|right].
  apply (based_entry _ _ Hg'). rewrite (grounded_len _ _ Hg'). split; [lia|]. fold (flog leads' (slog n')) in *. fold (flog leads (slog n)) in He.
  rewrite <-(lookup_take_lt _ (N.to_nat i)), <-Et, lookup_take_lt by lia. done.
Qed.

Lemma agree_term leads leads' n n' i t :
  grounded leads (slog n) → grounded leads' (slog n') → take (N.to_nat i) (flog leads (slog n)) = take (N.to_nat i) (flog leads' (slog n')) →
  term_at (n_storage n) i = Some t → i < sm_index (snapshot_meta (n_storage n')) ∨ term_at (n_storage n') i = Some t.
Proof.
  intros Hg Hg' Et Ht. rewrite law_term_at in Ht |- *. rewrite law_snapshot_meta. fold (slog n) (slog n') in *.
  apply (based_term_at _ _ Hg) in Ht as (Hi & Hl & ->). fold (flog leads (slog n)) in *. destruct (decide (i < sm_index (el_base (slog n')))) as [|Hge]; [by left|right].
  apply (based_term_at _ _ Hg'). rewrite (grounded_len _ _ Hg'). fold (flog leads' (slog n')). split_and!; [lia| |].
  - apply (f_equal length) in Et. rewrite !length_take in Et. unfold blen in *. lia.
  - unfold term_before. destruct (N.eqb_spec i 0); [done|]. do 2 f_equal.
    rewrite <-(lookup_take_lt (flog leads (slog n)) (N.to_nat i)), Et, lookup_take_lt by lia. done.
Qed.

(** An entry handed over is a committed one of the log. *)
Lemma taken_entry n e :
  EntryLog_wf (slog n) → e ∈ (take_committed n).1 → entry (n_storage n) (e_index e) = Some e ∧ e_index e ≤ known n.
Proof.
  intros Hwf. unfold take_committed. destruct (_ <? _); cbn [fst]; [|by intros ?%not_elem_of_nil].
  rewrite list_elem_of_omap. intros (k & Hk & He). pose proof He as He'. rewrite law_entry in He'. apply (EntryLog_entry_Some _ _ _ Hwf) in He' as [-> _].
  apply elem_of_range_incl in Hk. split; [done|]. unfold known. lia.
Qed.

(** What two nodes have that is committed, at two moments of one run, is the same as far as both go. *)
Lemma known_agree c js c' js' v n v' n' i :
  kreachable B (c, js) → rtc (kstep B) (c, js) (c', js') → c_procs c !! v = Some (Up n) → c_procs c' !! v' = Some (Up n') →
  i ≤ known n → i ≤ known n' →
  ∃ leads, grounded leads (slog n) ∧ grounded leads (slog n') ∧ take (N.to_nat i) (flog leads (slog n)) = take (N.to_nat i) (flog leads (slog n')).
Proof.
  intros Hc Hr Hv Hv' Hi Hi'. destruct (safe_later _ _ _ _ _ _ _ Hc Hr Hv Hi) as (leads & HS & Hg & Hs). exists leads.
  destruct (li_logs _ _ (si_linv _ _ _ HS) v' _ Hv') as [Hg' _]. simpl in Hg'. split_and!; [done|done|].
  destruct (si_nodes _ _ _ HS v' n' Hv') as (_ & Hsc & Hsa). destruct (si_procs _ _ _ HS v' _ Hv') as (_ & _ & _ & Hsb). simpl in Hsb.
  unfold known in Hi'. rewrite law_snapshot_meta in Hi'. fold (slog n') in Hi'.
  eapply safe_agree; [exact HS|exact Hs|]. destruct (decide (i ≤ n_commit_index n')); [by eapply safe_le; [exact Hsc|]|].
  destruct (decide (i ≤ n_last_applied n')); [by eapply safe_le; [exact Hsa|]|].
  eapply safe_le; [exact Hsb|lia].
Qed.

(** C5: leader completeness. In a cluster whose membership nobody changes, whatever the network loses,
    repeats or reorders, whoever crashes and restarts, and whichever nodes compact their logs and take
    the snapshots of others: whoever leads a term, then or later, has everything that any node of that
    term or an earlier one had taken for committed. Its log goes at least as far; an entry it still
    holds is the same entry, and what it has in its snapshot ends in the same term. *)
Theorem leader_completeness c js c' js' v n v' n' :
  kreachable B (c, js) → rtc (kstep B) (c, js) (c', js') →
  c_procs c !! v = Some (Up n) → c_procs c' !! v' = Some (Up n') →
  n_role n' = Leader → node_term n ≤ node_term n' →
  known n ≤ last_index (n_storage n) ∧ known n ≤ last_index (n_storage n') ∧
  ∀ i, i ≤ known n →
    (∀ e, entry (n_storage n) i = Some e → i ≤ sm_index (snapshot_meta (n_storage n')) ∨ entry (n_storage n') i = Some e) ∧
    (∀ t, term_at (n_storage n) i = Some t → i < sm_index (snapshot_meta (n_storage n')) ∨ term_at (n_storage n') i = Some t).
Proof.
  intros Hc Hr Hv Hv' Hl Ht. destruct (safe_later _ _ _ _ _ _ (known n) Hc Hr Hv) as (leads & HS & Hg & Hs); [lia|].
  pose proof (li_leader _ _ (si_linv _ _ _ HS) _ _ Hv' Hl) as E. destruct (li_logs _ _ (si_linv _ _ _ HS) v' _ Hv') as [Hg' _]. simpl in Hg'.
  destruct (safe_in_leader _ _ _ _ _ _ _ _ _ HS Hs Ht E) as (Te & H1' & H2').
  rewrite !law_last_index. fold (slog n) (slog n'). rewrite (based_last _ _ Hg), (based_last _ _ Hg'). fold (flog leads (slog n)) (flog leads (slog n')).
  split_and!; [unfold blen; lia..|]. intros i Hi. assert (take (N.to_nat i) (flog leads (slog n)) = take (N.to_nat i) (flog leads (slog n'))) as Ti by (eapply take_eq_le; [exact Te|lia]).
  split; intros x Hx; [by apply (agree_entry leads leads n n')|by apply (agree_term leads leads n n')].
Qed.

(** C4: state machine safety. In a cluster whose membership nobody changes, whatever is lost, repeated,
    reordered, crashed, restarted, compacted or installed from another's snapshot, no two nodes ever
    disagree on what is committed: as far
    as two nodes have what is committed, at any two moments, an entry both hold at an index is the same,
    and where one's snapshot ends the other has an entry of the same term; so whatever entries two nodes
    hand over to their stores, at one index they hand over the same. *)
Theorem state_machine_safety c js c' js' v n v' n' :
  kreachable B (c, js) → rtc (kstep B) (c, js) (c', js') →
  c_procs c !! v = Some (Up n) → c_procs c' !! v' = Some (Up n') →
  (∀ i, i ≤ known n → i ≤ known n' →
    (∀ e, entry (n_storage n) i = Some e → i ≤ sm_index (snapshot_meta (n_storage n')) ∨ entry (n_storage n') i = Some e) ∧
    (∀ t, term_at (n_storage n) i = Some t → i < sm_index (snapshot_meta (n_storage n')) ∨ term_at (n_storage n') i = Some t)) ∧
  (∀ e e', e ∈ (take_committed n).1 → e' ∈ (take_committed n').1 → e_index e = e_index e' → e = e').
Proof.
  intros Hc Hr Hv Hv'. split.
  - intros i Hi Hi'. destruct (known_agree _ _ _ _ _ _ _ _ i Hc Hr Hv Hv' Hi Hi') as (leads & Hg & Hg' & Et). split; intros x Hx; [by apply (agree_entry leads leads n n')|by apply (agree_term leads leads n n')].
  - intros e e' He He' Hix. destruct (known_agree _ _ _ _ _ _ _ _ 0 Hc Hr Hv Hv') as (l0 & [Hwf _] & [Hwf' _] & _); [lia..|].
    destruct (taken_entry n e Hwf He) as [En Ki], (taken_entry n' e' Hwf' He') as [En' Ki']. rewrite <-Hix in En', Ki'.
    destruct (known_agree _ _ _ _ _ _ _ _ _ Hc Hr Hv Hv' Ki Ki') as (leads & Hg & Hg' & Et).
    destruct (agree_entry _ _ _ _ _ _ Hg Hg' Et En) as [Hle|E]; [|congruence]. rewrite law_entry in En'. apply (EntryLog_entry_Some _ _ _ Hwf') in En' as [_ [Hlt _]].
    rewrite law_snapshot_meta in Hle. fold (slog n') in Hle. lia.
Qed.

(** ** Runs in which nothing is compacted *)

Lemma sreachable_sinv c : sreachable B c → Inv c ∧ ∃ leads, SInv B c leads.
Proof. intros Hc%sreachable_kreachable. destruct (kreachable_sinv B HB c [] Hc) as (HI & leads & HS & _). split; [done|by exists leads]. Qed.

Lemma sstep_inv c c' : Inv c → sstep B c c' → Inv c'.
Proof. intros HI Hs%sstep_kstep. by eapply kstep_inv. Qed.

Lemma sreachable_lreachable c : sreachable B c → lreachable c.
Proof.
  induction 1 as [procs Hp|c c' _ IH Hs]; [constructor|by eapply lreach_step, sstep_lstep].
  eapply map_Forall_impl; [exact Hp|]. intros v p (st & -> & Hst & Hl & _). by exists st.
Qed.

(** Their logs are whole. *)
Lemma sreachable_flat c : sreachable B c → flat c.
Proof.
  intros Hc. destruct (sreachable_sinv c Hc) as [_ [leads HS]]. apply lreachable_linv; [by apply sreachable_lreachable|]. apply (same_voters_steady B), HS.
Qed.

Lemma flat_whole c leads v n : flat c → SInv B c leads → c_procs c !! v = Some (Up n) → whole (slog n) ∧ flog leads (slog n) = log_of n.
Proof.
  intros HF HS Hv. destruct (flat_based c leads v n HF (si_linv _ _ _ HS) Hv) as [_ Hw]. split; [by apply whole_based|]. apply flog_whole. by apply (proj1 HF v (Up n)).
Qed.

Lemma ssteps_sreachable c c' : sreachable B c → rtc (sstep B) c c' → sreachable B c'.
Proof. intros Hc Hr. revert Hc. induction Hr as [|c c1 c' Hs _ IH]; intros Hc; [done|]. apply IH. by eapply sreach_step. Qed.

(** What two nodes take for committed at two moments of one run is the same as far as both go. *)
Lemma committed_agree c c' v n v' n' i :
  sreachable B c → rtc (sstep B) c c' → c_procs c !! v = Some (Up n) → c_procs c' !! v' = Some (Up n') →
  i ≤ n_commit_index n → i ≤ n_commit_index n' → take (N.to_nat i) (log_of n) = take (N.to_nat i) (log_of n').
Proof.
  intros Hc Hr Hv Hv' Hi Hi'. assert (∀ c v n leads, sreachable B c → c_procs c !! v = Some (Up n) → flog leads (slog n) = log_of n) as Hfl.
  { intros c0 v0 n0 leads Hc0 Hv0. apply flog_whole. by apply (proj1 (sreachable_flat c0 Hc0) v0 (Up n0)). }
  destruct (known_agree c [] c' [] v n v' n' i) as (leads & _ & _ & Et); try done; [by apply sreachable_kreachable|by apply ssteps_ksteps|unfold known; lia..|].
  rewrite (Hfl c v), (Hfl c' v') in Et; [done|by eapply ssteps_sreachable|done|done|done].
Qed.

(** It has what it takes for committed. *)
Lemma commit_in_range c v n :
  sreachable B c → c_procs c !! v = Some (Up n) → whole (slog n) ∧ n_commit_index n ≤ blen (log_of n).
Proof.
  intros Hc Hv. destruct (sreachable_sinv c Hc) as [_ [leads HS]]. destruct (flat_whole c leads v n (sreachable_flat c Hc) HS Hv) as [Hw El]. split; [done|].
  destruct (si_nodes _ _ _ HS v n Hv) as (_ & Hs & _). apply safe_length in Hs. rewrite El in Hs. unfold blen. lia.
Qed.

(** ** Running it *)

Definition sexec (c : Cluster) (x : Sched) : option Cluster :=
  match x with
  | SInput v i =>
      match c_procs c !! v with
      | Some (Up n) => if unchanging i then match node_input i n with (Ok _, _) => cexec c x | (Err _, _) => None end else None
      | _ => None
      end
  | SRestart _ bootstrap _ => if bool_decide (bootstrap = B) then cexec c x else None
  | SCrash _ => cexec c x
  end.

Lemma sexec_input c v i c' :
  sexec c (SInput v i) = Some c' →
  ∃ n acts n', c_procs c !! v = Some (Up n) ∧ unchanging i = true ∧ (∀ from m, input_message i = Some (from, m) → (from, v, m) ∈ c_net c) ∧
    node_input i n = (Ok acts, n') ∧ c' = advance v n (Up n') acts c.
Proof.
  simpl. intros Hx. destruct (c_procs c !! v) as [[n|st]|] eqn:Hv; [|done|done]. destruct (unchanging i) eqn:Hnc; [|done].
  destruct (node_input i n) as [[acts|e] n'] eqn:Hi; [|done].
  match type of Hx with (if ?b then _ else _) = _ => destruct b eqn:Hm; [|done] end. injection Hx as <-.
  exists n, acts, n'. split_and!; try done. intros from m Em. rewrite Em in Hm. by apply bool_decide_eq_true in Hm.
Qed.

Lemma sexec_sstep c x c' : sexec c x = Some c' → sstep B c c'.
Proof.
  intros Hx. destruct x as [v bs cfg|v|v i]; [simpl in Hx..|].
  - case_bool_decide as Hb; [subst bs|done]. destruct (c_procs c !! v) as [[n|st]|] eqn:Hv; [done| |done]. injection Hx as <-. by constructor.
  - destruct (c_procs c !! v) as [[n|st]|] eqn:Hv; [|done|done]. injection Hx as <-. by apply ss_crash.
  - apply sexec_input in Hx as (n & acts & n' & Hv & Hi & Hm & Hin & ->). by eapply ss_input.
Qed.

Fixpoint srun (c : Cluster) (xs : list Sched) : option Cluster :=
  match xs with [] => Some c | x :: xs => match sexec c x with Some c' => srun c' xs | None => None end end.

Lemma srun_steps c xs c' : srun c xs = Some c' → rtc (sstep B) c c'.
Proof.
  revert c. induction xs as [|x xs IH]; intros c Hr; simpl in Hr; [by injection Hr as <-|].
  destruct (sexec c x) as [c1|] eqn:Hx; [|done]. eapply rtc_l; [by eapply sexec_sstep|by apply IH].
Qed.

Lemma srun_sreachable c xs c' : sreachable B c → srun c xs = Some c' → sreachable B c'.
Proof. intros Hc Hr%srun_steps. by eapply ssteps_sreachable. Qed.

(** The same with snapshots. *)
Inductive KSched :=
  | KOf (x : Sched (S := S))
  | KBegin (v : NodeId) (index : N)
  | KWrite (v : NodeId) (d : bytes)
  | KFinish (v : NodeId).

(** The snapshot [v] has begun or written to last. *)
Fixpoint job_of (v : NodeId) (js : list (NodeId * Sink)) : option Sink :=
  match js with [] => None | (w, k) :: js => if w =? v then Some k else job_of v js end.

Definition kexec (x : Cluster * list (NodeId * Sink)) (y : KSched) : option (Cluster * list (NodeId * Sink)) :=
  let '(c, js) := x in
  match y with
  | KOf z => c' ← sexec c z; Some (c', match z with SCrash v => filter (λ x, x.1 ≠ v) js | _ => js end)
  | KBegin v index =>
      match c_procs c !! v with
      | Some (Up n) => match begin_compaction index n with (Ok (Some k), n') => Some (advance v n (Up n') [] c, (v, k) :: js) | _ => None end
      | _ => None
      end
  | KWrite v d => match job_of v js with Some k => match sink_write_all d k with (Ok _, k') => Some (c, (v, k') :: js) | _ => None end | None => None end
  | KFinish v =>
      match c_procs c !! v, job_of v js with
      | Some (Up n), Some k => match node_input (InFinish k) n with (Ok acts, n') => Some (advance v n (Up n') acts c, js) | _ => None end
      | _, _ => None
      end
  end.

Lemma job_of_in v js k : job_of v js = Some k → (v, k) ∈ js.
Proof.
  induction js as [|[w k0] js IH]; simpl; [done|]. destruct (N.eqb_spec w v) as [->|_]; [intros [= ->]; apply elem_of_cons; by left|].
  intros Hk. apply elem_of_cons. right. by apply IH.
Qed.

Lemma kexec_kstep x y x' : kexec x y = Some x' → kstep B x x'.
Proof.
  destruct x as [c js], y as [z|v index|v d|v]; unfold kexec.
  - unfold mbind, option_bind. destruct (sexec c z) as [c'|] eqn:Hz; [|done]. intros [= <-]. destruct z as [v bs cfg|v|v i].
    + simpl in Hz. case_bool_decide as Hb; [subst bs|done]. destruct (c_procs c !! v) as [[n|st]|] eqn:Hv; [done| |done]. injection Hz as <-. by apply ks_restart.
    + simpl in Hz. destruct (c_procs c !! v) as [[n|st]|] eqn:Hv; [|done|done]. injection Hz as <-. by apply ks_crash.
    + apply sexec_input in Hz as (n & acts & n' & Hv & Hi & Hm & Hin & ->). by eapply ks_input.
  - destruct (c_procs c !! v) as [[n|st]|] eqn:Hv; [|done|done]. destruct (begin_compaction index n) as [[[k|]|e] n'] eqn:Hb; [|done|done]. intros [= <-]. by eapply ks_begin.
  - destruct (job_of v js) as [k|] eqn:Hk; [apply job_of_in in Hk|done]. destruct (sink_write_all d k) as [[[]|e] k'] eqn:Hw; [|done]. intros [= <-]. by eapply ks_write.
  - destruct (job_of v js) as [k|] eqn:Hk; [apply job_of_in in Hk|by destruct (c_procs c !! v) as [[]|]].
    destruct (c_procs c !! v) as [[n|st]|] eqn:Hv; [|done|done]. destruct (node_input (InFinish k) n) as [[acts|e] n'] eqn:Hi; [|done]. intros [= <-]. by eapply ks_finish.
Qed.

Fixpoint krun (x : Cluster * list (NodeId * Sink)) (ys : list KSched) : option (Cluster * list (NodeId * Sink)) :=
  match ys with [] => Some x | y :: ys => match kexec x y with Some x' => krun x' ys | None => None end end.

Lemma krun_steps x ys x' : krun x ys = Some x' → rtc (kstep B) x x'.
Proof.
  revert x. induction ys as [|y ys IH]; intros x Hr; simpl in Hr; [by injection Hr as <-|].
  destruct (kexec x y) as [x1|] eqn:Hx; [|done]. eapply rtc_l; [by eapply kexec_kstep|by apply IH].
Qed.

Lemma krun_kreachable x ys x' : kreachable B x → krun x ys = Some x' → kreachable B x'.
Proof. intros Hc Hr%krun_steps. revert Hc. induction Hr as [|x x1 x' Hs _ IH]; intros Hc; [done|]. apply IH. by eapply kreach_step. Qed.
End cluster.

(** ** A committed entry outlives its leader *)

Definition three_voters : list Member := (λ p, mkMember p [] false) <$> [1; 2; 3].

(** Node 1 leads, and commits its first entry with node 2. *)
Definition first_term : option (Cluster (S := MemStorage)) :=
  srun three_voters three_nodes
    [SRestart 1 three_voters NodeConfig_default; SRestart 2 three_voters NodeConfig_default; SRestart 3 three_voters NodeConfig_default;
     SInput 1 InCampaign; SInput 2 (InStep 1 (RequestVote 1 0 0)); SInput 1 (InStep 2 (RequestVoteReply 1 true));
     SInput 2 (InStep 1 (AppendEntries 1 0 0 [mkEntry 1 1 Noop] 0 0)); SInput 1 (InStep 2 (AppendEntriesReply 1 true 1 0 None 0))].

(** It then compacts its log, proposes, sends its snapshot to node 3, and commits the entry with it. *)
Definition compacted_term (c : Cluster (S := MemStorage)) : option (Cluster * list (NodeId * Sink)) :=
  krun three_voters (c, [])
    [KOf (SInput 1 InTake); KBegin 1 1; KWrite 1 [x00]; KFinish 1; KOf (SInput 1 (InPropose [x01]));
     KOf (SInput 3 (InStep 1 (InstallSnapshot 1 1 1 0 [x00] true 0 (Some three_voters))));
     KOf (SInput 1 (InStep 3 (InstallSnapshotReply 1 1 1 true 0)));
     KOf (SInput 3 (InStep 1 (AppendEntries 1 1 1 [mkEntry 1 2 (Data [x01])] 1 0)));
     KOf (SInput 1 (InStep 3 (AppendEntriesReply 1 true 2 0 None 0)))].

(** Nodes 1 and 2 crash and node 2 comes back; node 3 leads, brings it up to date and commits. *)
Definition second_term (x : Cluster * list (NodeId * Sink)) : option (Cluster (S := MemStorage) * list (NodeId * Sink)) :=
  krun three_voters x
    [KOf (SCrash 1); KOf (SCrash 2); KOf (SRestart 2 three_voters NodeConfig_default); KOf (SInput 3 InCampaign);
     KOf (SInput 2 (InStep 3 (RequestVote 2 2 1))); KOf (SInput 3 (InStep 2 (RequestVoteReply 2 true)));
     KOf (SInput 2 (InStep 3 (AppendEntries 2 2 1 [mkEntry 2 3 Noop] 1 0))); KOf (SInput 3 (InStep 2 (AppendEntriesReply 2 false 0 2 None 0)));
     KOf (SInput 2 (InStep 3 (AppendEntries 2 1 1 [mkEntry 1 2 (Data [x01]); mkEntry 2 3 Noop] 1 0)));
     KOf (SInput 3 (InStep 2 (AppendEntriesReply 2 true 3 0 None 0)))].

Definition seen (c : Cluster (S := MemStorage)) (v : NodeId) : option (Role * N * N * list Entry) :=
  match c_procs c !! v with Some (Up n) => Some (n_role n, node_term n, n_commit_index n, log_of n) | _ => None end.

Lemma three_nodes_sreachable : sreachable three_voters three_nodes.
Proof.
  constructor. apply map_Forall_lookup. intros v p Hv%elem_of_list_to_map_2.
  rewrite list_elem_of_fmap in Hv. destruct Hv as (u & [= -> ->] & _). by exists MemStorage_new.
Qed.

Lemma three_voters_vote : Forall (λ m, m_learner m = false) three_voters.
Proof. by repeat constructor. Qed.

Lemma seen_node c v r t i l :
  seen c v = Some (r, t, i, l) → ∃ n, c_procs c !! v = Some (Up n) ∧ n_role n = r ∧ node_term n = t ∧ n_commit_index n = i ∧ log_of n = l.
Proof. unfold seen. destruct (c_procs c !! v) as [[n|st]|]; [|done|done]. intros [= <- <- <- <-]. by exists n. Qed.

(** What a node shows of the first two entries: how far its snapshot goes, and what it has of each. *)
Definition shows (c : Cluster (S := MemStorage)) (v : NodeId) : option (N * option Entry * option Entry) :=
  match c_procs c !! v with
  | Some (Up n) => Some (sm_index (snapshot_meta (n_storage n)), entry (n_storage n) 1, entry (n_storage n) 2)
  | _ => None
  end.

Lemma shows_node c v n b e1 e2 :
  c_procs c !! v = Some (Up n) → shows c v = Some (b, e1, e2) →
  sm_index (snapshot_meta (n_storage n)) = b ∧ entry (n_storage n) 1 = e1 ∧ entry (n_storage n) 2 = e2.
Proof. unfold shows. intros ->. by intros [= <- <- <-]. Qed.

(** Two moments, with a compacted log and an installed snapshot in between. *)
Lemma two_moments :
  ∃ c js c' js', kreachable three_voters (c, js) ∧ rtc (kstep three_voters) (c, js) (c', js') ∧
    seen c 1 = Some (Leader, 1, 2, [mkEntry 1 2 (Data [x01])]) ∧ shows c 1 = Some (1, None, Some (mkEntry 1 2 (Data [x01]))) ∧
    seen c' 3 = Some (Leader, 2, 3, [mkEntry 1 2 (Data [x01]); mkEntry 2 3 Noop]) ∧ shows c' 3 = Some (1, None, Some (mkEntry 1 2 (Data [x01]))).
Proof.
  assert ((first_term ≫= λ c, compacted_term c ≫= λ x, second_term x ≫= λ y, Some (seen x.1 1, shows x.1 1, seen y.1 3, shows y.1 3)) =
    Some (Some (Leader, 1, 2, [mkEntry 1 2 (Data [x01])]), Some (1, None, Some (mkEntry 1 2 (Data [x01]))),
          Some (Leader, 2, 3, [mkEntry 1 2 (Data [x01]); mkEntry 2 3 Noop]), Some (1, None, Some (mkEntry 1 2 (Data [x01]))))) as Hc by by vm_compute.
  destruct first_term as [c0|] eqn:E0; [|discriminate Hc]. cbn [mbind option_bind] in Hc.
  destruct (compacted_term c0) as [[c js]|] eqn:E1; [|discriminate Hc]. cbn [mbind option_bind] in Hc.
  destruct (second_term (c, js)) as [[c' js']|] eqn:E2; [|discriminate Hc]. cbn [mbind option_bind fst] in Hc.
  apply (inj Some) in Hc. injection Hc as H1 H2 H3 H4. exists c, js, c', js'. split_and!; [|eapply krun_steps; exact E2|exact H1|exact H2|exact H3|exact H4].
  eapply krun_kreachable; [|exact E1]. apply sreachable_kreachable. eapply srun_sreachable; [apply three_nodes_sreachable|exact E0].
Qed.

Lemma leader_completeness_witness :
  ∃ c js c' js' n n', kreachable three_voters (c, js) ∧ rtc (kstep three_voters) (c, js) (c', js') ∧
    c_procs c !! 1 = Some (Up n) ∧ c_procs c' !! 3 = Some (Up n') ∧ n_commit_index n = 2 ∧ known n ≤ last_index (n_storage n') ∧
    entry (n_storage n') 2 = Some (mkEntry 1 2 (Data [x01])).
Proof.
  destruct two_moments as (c & js & c' & js' & Hc & Hr & (n & Hn & _ & T1 & C1 & _)%seen_node & S1 & (n' & Hn' & L2 & T2 & _ & _)%seen_node & S2).
  destruct (shows_node _ _ _ _ _ _ Hn S1) as (B1 & _ & N1), (shows_node _ _ _ _ _ _ Hn' S2) as (B2 & _ & _).
  assert (node_term n ≤ node_term n') as Ht by (rewrite T1, T2; lia).
  pose proof (leader_completeness three_voters three_voters_vote c js c' js' 1 n 3 n' Hc Hr Hn Hn' L2 Ht) as (_ & Hk & He).
  assert (2 ≤ known n) as K1 by (unfold known; rewrite C1; lia). destruct (proj1 (He 2 K1) _ N1) as [Hle|E]; [rewrite B2 in Hle; lia|].
  exists c, js, c', js', n, n'. exact (conj Hc (conj Hr (conj Hn (conj Hn' (conj C1 (conj Hk E)))))).
Defined.

Lemma state_machine_safety_witness :
  ∃ c js c' js' n n', kreachable three_voters (c, js) ∧ rtc (kstep three_voters) (c, js) (c', js') ∧
    c_procs c !! 1 = Some (Up n) ∧ c_procs c' !! 3 = Some (Up n') ∧ entry (n_storage n') 2 = Some (mkEntry 1 2 (Data [x01])) ∧
    ∀ e e', e ∈ (take_committed n).1 → e' ∈ (take_committed n').1 → e_index e = e_index e' → e = e'.
Proof.
  destruct two_moments as (c & js & c' & js' & Hc & Hr & (n & Hn & _ & T1 & C1 & _)%seen_node & S1 & (n' & Hn' & L2 & T2 & C2 & _)%seen_node & S2).
  destruct (shows_node _ _ _ _ _ _ Hn S1) as (B1 & _ & N1), (shows_node _ _ _ _ _ _ Hn' S2) as (B2 & _ & _).
  destruct (state_machine_safety three_voters three_voters_vote c js c' js' 1 n 3 n' Hc Hr Hn Hn') as [Hag Hent].
  assert (2 ≤ known n) as K1 by (unfold known; rewrite C1; lia). assert (2 ≤ known n') as K2 by (unfold known; rewrite C2; lia).
  destruct (proj1 (Hag 2 K1 K2) _ N1) as [Hle|E]; [rewrite B2 in Hle; lia|].
  exists c, js, c', js', n, n'. exact (conj Hc (conj Hr (conj Hn (conj Hn' (conj E Hent))))).
Defined.
