(* ===== verification/ReadSteps.v ===== *)
(** * What a node's operations do to its reads (src/raft/node.rs)

    A read waits for a round: a number no earlier message carries, which the followers send
    back. What an operation may do to the rounds, to what is counted of the answers, to the
    index a leader's reads start from, and what the messages it sends say of them. *)

From S2P Require Import Prelude.
From S2P Require Import RaftLog.
From S2P Require Import Message.
From S2P Require Import NodeState.
From S2P Require Import Node.
From S2P Require Import NodeFrame.
From S2P Require Import Quorum.
From S2P Require Import Election.
From S2P Require Import Replication.
From S2P Require Import Commit.
From S2P Require Import LogSteps.
From S2P Require Import LogMatching.

#[local] Open Scope N_scope.

Section read_steps.
Context {St : Type} `{StorageLaws St}.
Implicit Types (n : Node St) (s : HState St).

(** The message the operation answers, if any, and the node that takes it. *)
Variable msg : option (NodeId * Message).
Variable n0 : Node St.

(** It is one of a leader to its followers. *)
Definition follows : bool :=
  match msg with Some (_, AppendEntries _ _ _ _ _ _) | Some (_, InstallSnapshot _ _ _ _ _ _ _ _) => true | _ => false end.

(** [p] says in term [t] that it has heard of round [a]. *)
Definition told_round (p : NodeId) (t a : N) : Prop :=
  (∃ ok mi ci ct, msg = Some (p, AppendEntriesReply t ok mi ci ct a)) ∨ ∃ li no fin, msg = Some (p, InstallSnapshotReply t li no fin a).

(** A read on behalf of another node, opened just now by the leader of [t]. *)
Definition opened_for (t : N) (rr : RemoteRead) : Prop :=
  n_role n0 = Leader ∧ node_term n0 = t ∧ (∃ t', msg = Some (rr_from rr, ReadIndex t' (rr_id rr))) ∧
  rr_seq rr = n_seq n0 + 1 ∧ rr_index rr = N.max (n_commit_index n0) (n_leader_start n0).

(** A read the node holds, the round of which a majority has answered. *)
Definition answers (to : NodeId) (id r : N) : Prop :=
  n_role n0 = Leader ∧ ∃ rr, rr ∈ n_remote_reads n0 ∧ rr_from rr = to ∧ rr_id rr = id ∧ rr_index rr = r ∧
    ∃ Q, quorum_of (n_voters n0) Q = true ∧
      ∀ p, p ∈ Q → p = n_id n0 ∨ ∃ a, rr_seq rr ≤ a ∧ (a = 0 ∨ n_acked n0 !! p = Some a ∨ told_round p (node_term n0) a).

(** What a message says of rounds and of what is committed. *)
Definition said n (a : Action) : Prop :=
  match a with
  | Send _ (AppendEntries _ _ _ _ lc sq) => follows = false ∧ lc ≤ n_commit_index n ∧ sq ≤ n_seq n
  | Send _ (InstallSnapshot _ li _ _ _ _ _ _) => 0 < li
  | Send _ (AppendEntriesReply t _ _ _ _ sq) =>
      sq = 0 ∨ ∃ from prev pt es lc, msg = Some (from, AppendEntries t prev pt es lc sq) ∧ node_term n0 ≤ t
  | Send _ (InstallSnapshotReply t _ _ _ sq) =>
      sq = 0 ∨ ∃ from li lt off data fin ms, msg = Some (from, InstallSnapshot t li lt off data fin sq ms)
  | Send to (ReadIndexReply _ id (Some r)) => answers to id r
  | _ => True
  end.

(** Neither a leader's message nor an answer to one, nor to a read. *)
Definition aside (a : Action) : Prop :=
  match a with
  | Send _ (AppendEntries _ _ _ _ _ _) | Send _ (InstallSnapshot _ _ _ _ _ _ _ _) => False
  | Send _ (AppendEntriesReply _ _ _ _ _ sq) | Send _ (InstallSnapshotReply _ _ _ _ sq) => sq = 0
  | Send _ (ReadIndexReply _ _ (Some _)) => False
  | _ => True
  end.

Lemma aside_said n a : aside a → said n a.
Proof. destruct a as [to []]; try done; simpl; auto. by destruct index. Qed.

(** Nobody is sent what comes before the first entry. *)
Definition next_ok n : Prop := map_Forall (λ _ i, 0 < i) (n_next_index n).

Record says s s' : Prop := {
  sy_seq : n_seq s.1 ≤ n_seq s'.1;
  sy_commit : follows = false → n_commit_index s.1 ≤ n_commit_index s'.1;
  sy_log : follows = false → log_of s.1 `prefix_of` log_of s'.1;
  sy_next : next_ok s.1 → next_ok s'.1;
  sy_forwarded : ∀ id r, n_forwarded s'.1 !! id = Some (AReady r) →
    n_forwarded s.1 !! id = Some (AReady r) ∨ ∃ from t, msg = Some (from, ReadIndexReply t id (Some r));
  sy_said : next_ok s.1 → ∃ out, s'.2 = s.2 ++ out ∧ Forall (said s'.1) out;
}.

(** A leader is the one it was, or has just become one. *)
Record leads_on s s' : Prop := {
  lo_commit : n_commit_index s.1 ≤ n_commit_index s'.1;
  lo_acked : ∀ p a, n_acked s'.1 !! p = Some a →
    a = 0 ∨ n_role s.1 = Leader ∧ node_term s.1 = node_term s'.1 ∧ n_acked s.1 !! p = Some a ∨ told_round p (node_term s'.1) a;
  lo_reads : ∀ rr, rr ∈ n_remote_reads s'.1 →
    n_role s.1 = Leader ∧ node_term s.1 = node_term s'.1 ∧ rr ∈ n_remote_reads s.1 ∨ opened_for (node_term s'.1) rr;
  lo_start :
    n_role s.1 = Leader ∧ node_term s.1 = node_term s'.1 ∧ n_leader_start s'.1 = n_leader_start s.1 ∨
    follows = false ∧ ∃ e, e ∈ drop (length (log_of s.1)) (log_of s'.1) ∧ n_leader_start s'.1 = e_index e;
}.

Definition Reads s s' : Prop := says s s' ∧ (n_role s'.1 = Leader → leads_on s s').

Lemma said_grow n n' a :
  n_seq n ≤ n_seq n' → (follows = false → n_commit_index n ≤ n_commit_index n') → said n a → said n' a.
Proof. destruct a as [to []]; try done. simpl. intros Hs Hc (Hf & ? & ?). specialize (Hc Hf). split_and!; [done|lia..]. Qed.

#[export] Instance says_preorder : PreOrder says.
Proof.
  split.
  - intros s. split; try done; [lia..|by left|]. intros _. exists []. by rewrite app_nil_r.
  - intros s1 s2 s3 [A1 A2 A3 A4 A6 A5] [B1 B2 B3 B4 B6 B5]. split.
    + lia.
    + intros Hf. specialize (A2 Hf). specialize (B2 Hf). lia.
    + intros Hf. etrans; [by apply A3|by apply B3].
    + auto.
    + intros id r [Hid|?]%B6; [by apply A6|by right].
    + intros Hn. destruct (A5 Hn) as (o1 & E1 & F1), (B5 (A4 Hn)) as (o2 & E2 & F2). exists (o1 ++ o2).
      rewrite E2, E1, (assoc_L (++)). split; [done|]. apply Forall_app_2; [|done]. eapply list.Forall_impl; [exact F1|].
      intros a. by apply said_grow.
Qed.

Lemma elem_of_drop_le {A} (x : A) j k l : (j ≤ k)%nat → x ∈ drop k l → x ∈ drop j l.
Proof.
  intros Hjk [i Hi]%list_elem_of_lookup. rewrite lookup_drop in Hi. apply (list_elem_of_lookup_2 _ (k - j + i)).
  rewrite lookup_drop. by replace (j + (k - j + i))%nat with (k + i)%nat by lia.
Qed.

Lemma elem_of_drop_prefix {A} (x : A) j l l' : l `prefix_of` l' → x ∈ drop j l → x ∈ drop j l'.
Proof.
  intros [r ->] [i Hi]%list_elem_of_lookup. rewrite lookup_drop in Hi. apply (list_elem_of_lookup_2 _ i).
  rewrite lookup_drop. by apply lookup_app_l_Some.
Qed.

#[export] Instance Reads_preorder : PreOrder Reads.
Proof.
  split.
  - intros s. split; [done|]. intros Hl. split; [lia|auto|auto|by left].
  - intros s1 s2 s3 [S12 L12] [S23 L23]. split; [by etrans|]. intros Hl3. destruct (L23 Hl3) as [C3 A3 R3 T3].
    assert (n_commit_index s1.1 ≤ n_commit_index s2.1) as C2.
    { destruct T3 as [(Hl2 & _)|[Hf _]]; [apply (L12 Hl2)|by apply S12]. }
    split; [lia| | |].
    + intros p a Ha. destruct (A3 p a Ha) as [?|[(Hl2 & Ht & Ha2)|?]]; [by left| |by right; right].
      destruct (lo_acked _ _ (L12 Hl2) p a Ha2) as [?|[(? & ? & ?)|?]]; [by left|right; left; split_and!; congruence|right; right; by rewrite <-Ht].
    + intros rr Hrr. destruct (R3 rr Hrr) as [(Hl2 & Ht & Hr2)|?]; [|by right].
      destruct (lo_reads _ _ (L12 Hl2) rr Hr2) as [(? & ? & ?)|?]; [left; split_and!; congruence|right; by rewrite <-Ht].
    + destruct T3 as [(Hl2 & Ht & Es)|(Hf & e & He & Es)].
      * destruct (lo_start _ _ (L12 Hl2)) as [(? & ? & ?)|(Hf & e & He & Es2)]; [left; split_and!; congruence|right].
        split; [done|]. exists e. split; [|congruence]. eapply elem_of_drop_prefix; [by apply S23|done].
      * right. split; [done|]. exists e. split; [|done]. eapply elem_of_drop_le; [|exact He]. apply prefix_length, S12, Hf.
Qed.

(** ** Pieces of handlers *)

(** A field update, in a node that goes on leading or does not lead. *)
Record touches n n' : Prop := {
  tc_storage : n_storage n' = n_storage n;
  tc_seq : n_seq n ≤ n_seq n';
  tc_commit : n_commit_index n ≤ n_commit_index n';
  tc_next : next_ok n → next_ok n';
  tc_forwarded : ∀ id r, n_forwarded n' !! id = Some (AReady r) → n_forwarded n !! id = Some (AReady r);
  tc_leads : n_role n' = Leader →
    n_role n = Leader ∧ n_acked n' = n_acked n ∧ n_leader_start n' = n_leader_start n ∧ n_remote_reads n' ⊆ n_remote_reads n;
}.

Lemma touches_reads n n' acts : touches n n' → Reads (n, acts) (n', acts).
Proof.
  intros [E1 E2 E3 E4 E6 E5]. assert (log_of n' = log_of n) as El by (unfold log_of, slog; by rewrite E1).
  assert (node_term n' = node_term n) as Et by (unfold node_term; by rewrite E1). split.
  - split; cbn [fst snd]; try done; [by rewrite El|intros id r Hid; left; by apply E6|]. intros _. exists []. by rewrite app_nil_r.
  - cbn [fst snd]. intros Hl. destruct (E5 Hl) as (Hl' & Ea & Es & Er). split; cbn [fst snd]; [done| | |].
    + intros p a. rewrite Ea. intros Ha. right. left. split_and!; congruence.
    + intros rr Hrr%Er. left. split_and!; congruence.
    + left. split_and!; congruence.
Qed.

Lemma reads_modn f : (∀ n, touches n (f n)) → Steps Reads (modn f).
Proof. intros Hf [n acts]. by apply touches_reads. Qed.

Lemma reads_emit a : aside a → Steps Reads (emit a).
Proof.
  intros Ha s. unfold emit, mmodify. cbn [snd]. split; [|intros Hl; by split; [cbn; lia|auto|auto|left]].
  split; cbn [fst snd]; try done; [lia..|by left|]. intros _. exists [a]. split; [done|]. constructor; [by apply aside_said|done].
Qed.

Lemma reads_emit_at a s : (next_ok s.1 → said s.1 a) → Reads s (emit a s).2.
Proof.
  intros Ha. unfold emit, mmodify. cbn [snd]. split; [|intros Hl; by split; [cbn; lia|auto|auto|left]].
  split; cbn [fst snd]; try done; [lia..|by left|]. intros Hn. exists [a]. split; [done|]. constructor; [by apply Ha|done].
Qed.

Lemma reads_getn {A B} (f : Node St → A) (k : A → Handler St B) : (∀ a, Steps Reads (k a)) → Steps Reads (getn f ≫= k).
Proof. intros Hk. apply steps_bind; [apply _|apply steps_gets, _|done]. Qed.

Lemma reads_mtry {A} (m : Handler St A) : Steps Reads m → Steps Reads (mtry m).
Proof. intros Hm s. specialize (Hm s). unfold mtry. by destruct (m s). Qed.

(** The storage, but for its hard state. *)
Lemma reads_on_storage {A} (m : M St A) :
  (∀ st, hard_state (m st).2 = hard_state st) → (follows = false → ∀ st, el_entries (st_log st) `prefix_of` el_entries (st_log (m st).2)) →
  Steps Reads (on_storage m).
Proof.
  intros Hh Hp s. unfold on_storage. specialize (Hh (n_storage s.1)). destruct (m (n_storage s.1)) as [r st] eqn:E. cbn [snd fst] in *. split.
  - split; cbn [fst snd]; try done; [|by left|intros _; exists []; by rewrite app_nil_r]. intros Hf. specialize (Hp Hf (n_storage s.1)). by rewrite E in Hp.
  - intros Hl. cbn in Hl. assert (node_term (set_storage st s.1) = node_term s.1) as Et by (unfold node_term; simpl; by rewrite Hh).
    split; cbn [fst snd]; [done| | |left; by rewrite Et]; [intros p a Ha; right|intros rr Hrr]; left; by rewrite Et.
Qed.

Lemma reads_append es : Steps Reads (on_storage (append es)).
Proof.
  apply reads_on_storage; [intros st; apply law_append_hs|]. intros _ st. destruct (append es st) as [[[]|e] st'] eqn:E; cbn [snd].
  - apply law_append_ok in E. rewrite E, push_all_entries. by apply prefix_app_r.
  - apply law_append_err in E. by rewrite E.
Qed.

(** The hard state of a node that does not lead, or a vote in the same term. *)
Lemma reads_save hs s : n_role s.1 ≠ Leader ∨ hs_term hs = node_term s.1 → Reads s (on_storage (save_hard_state hs) s).2.
Proof.
  intros Hor. unfold on_storage. pose proof (law_save_log hs (n_storage s.1)) as Hl.
  assert (n_role s.1 = Leader → hs_term (hard_state (save_hard_state hs (n_storage s.1)).2) = node_term s.1) as Ht.
  { intros Hr. destruct Hor as [?|Ht]; [done|]. destruct (save_hard_state hs (n_storage s.1)) as [[[]|e] st] eqn:E; cbn [snd].
    - apply law_save_ok in E. by rewrite E.
    - apply law_save_err in E. by rewrite E. }
  destruct (save_hard_state hs (n_storage s.1)) as [r st]. cbn [snd fst] in *. split.
  - split; cbn [fst snd]; try done; [|by left|intros _; exists []; by rewrite app_nil_r]. intros _. unfold log_of, slog. simpl. by rewrite Hl.
  - intros Hr. cbn in Hr. assert (node_term (set_storage st s.1) = node_term s.1) as Et by (unfold node_term; simpl; by apply Ht).
    split; cbn [fst snd]; [done| | |left; by rewrite Et]; [intros p a Ha; right|intros rr Hrr]; left; by rewrite Et.
Qed.

Lemma touches_reset n n' : touches n n' → touches n (reset_election_timer n').
Proof. intros []. unfold reset_election_timer. destruct (random_timeout _ _). by split. Qed.

Lemma touches_commit n n' : touches n n' → touches n (maybe_commit n').
Proof.
  intros [E1 E2 E3 E4 E6 E5]. unfold maybe_commit. case_bool_decide; [by split|]. cbv zeta.
  destruct (N.ltb_spec (n_commit_index n') (majority_index n')); [|by split]. simpl. case_bool_decide; [|by split].
  split; try done. cbn. lia.
Qed.

Lemma next_insert n p i : 0 < i → next_ok n → map_Forall (λ _ i, 0 < i) (<[p := i]> (n_next_index n)).
Proof. intros Hi Hn. by apply map_Forall_insert_2. Qed.

Lemma next_or_insert ps i (m : gmap NodeId N) :
  0 < i → map_Forall (λ _ i, 0 < i) m → map_Forall (λ _ i, 0 < i) (foldl (λ m p, or_insert p i m) m ps).
Proof.
  intros Hi. revert m. induction ps as [|p ps IH]; intros m Hm; [done|]. simpl. apply IH. unfold or_insert. destruct (m !! p); [done|].
  by apply map_Forall_insert_2.
Qed.

Lemma next_filter (P : NodeId * N → Prop) `{∀ x, Decision (P x)} (m : gmap NodeId N) :
  map_Forall (λ _ i, 0 < i) m → map_Forall (λ _ i, 0 < i) (filter P m).
Proof. intros Hm k i [Hk _]%map_lookup_filter_Some. by apply (Hm k). Qed.

Lemma touches_reload n : touches n (reload_membership n).
Proof.
  unfold reload_membership. destruct (scan_config _ _ _) as [members at_]. cbv zeta. case_bool_decide; split; try done; try reflexivity.
  intros Hn. unfold next_ok. cbn. apply next_filter, next_or_insert; [lia|done].
Qed.
End read_steps.

(** ** Automation *)

Create HintDb reads.

Ltac solve_touches :=
  intros; cbv beta zeta; repeat case_match;
  repeat first [ apply touches_reset | apply touches_commit ];
  first [ apply touches_reload
        | (split; first [ done | (intros _; split_and!; (done || apply list_subseteq_nil)) | (cbn; lia) | (intros ?; cbn in *; by auto) | (intros ?; apply next_insert; [lia|done]) ]) ].

Ltac solve_reads :=
  repeat lazymatch goal with
  | |- ∀ _, _ => intros ?
  | |- Steps _ (mret _) => apply steps_ret, _
  | |- Steps _ (mfail _) => apply steps_fail, _
  | |- Steps _ (mlift _) => apply steps_lift, _
  | |- Steps _ (getn _ ≫= _) => apply reads_getn
  | |- Steps _ (mbind _ _) => apply steps_bind; [apply _| |]
  | |- Steps _ (mwhen _ _) => apply steps_when; [apply _|]
  | |- Steps _ (modn _) => apply reads_modn; solve_touches
  | |- Steps _ (emit _) => apply reads_emit; done
  | |- Steps _ (mtry _) => apply reads_mtry
  | |- Steps _ (miter _ _) => apply steps_iter; [apply _|]
  | |- Steps _ (on_storage (append _)) => apply reads_append
  | |- Steps _ (match ?x with _ => _ end) => destruct x
  | |- Steps _ _ => solve [eauto with reads]
  end.

(** ** Handlers *)

Section handlers.
Context {St : Type} `{StorageLaws St}.
Implicit Types (n : Node St) (s : HState St).
Variable msg : option (NodeId * Message).
Variable n0 : Node St.

Abbreviation Reads := (Reads (St := St) msg n0).

Lemma reads_becomes_follower term leader : Steps Reads (become_follower term leader).
Proof.
  intros s. unfold become_follower. unfold getn, mgets. unfold mbind at 1, M_bind at 1. unfold id.
  set (f n := set_remote_reads [] (set_active ∅ (set_votes ∅ (set_leader_id leader (set_role Follower n))))).
  change (Reads s ((modn f ;; mwhen (negb (term =? hs_term (hard_state (n_storage s.1)))) (on_storage (save_hard_state (mkHardState term None))) ;;
    modn reset_election_timer) s).2). unfold mbind at 1, M_bind at 1. cbn [modn mmodify fst snd].
  trans (f s.1, s.2); [destruct s; apply touches_reads; by split|]. unfold mbind, M_bind.
  assert (Reads (f s.1, s.2) (mwhen (negb (term =? hs_term (hard_state (n_storage s.1)))) (on_storage (save_hard_state (mkHardState term None))) (f s.1, s.2)).2) as Hs.
  { unfold mwhen. destruct (negb _); [|reflexivity]. apply reads_save. by left. }
  destruct (mwhen _ _ _) as [[[]|e] s2]; cbn [snd] in *; [|done]. etrans; [exact Hs|]. apply reads_modn. solve_touches.
Qed.
#[local] Hint Resolve reads_becomes_follower : reads.

Lemma reads_send_to_peers m : (∀ p, aside (Send p m)) → Steps Reads (send_to_peers m).
Proof. intros Hm. unfold send_to_peers. apply reads_getn. intros ps. apply steps_iter; [apply _|]. intros p. by apply reads_emit. Qed.

(** *** What a leader does, in answer to anything but another leader *)

Section leader.
Hypothesis Hf : follows msg = false.

Lemma reads_send_append peer : Steps Reads (send_append peer).
Proof.
  intros s. unfold send_append, getn, mgets, mbind, M_bind, id, mlift. destruct (append_message_for s.1 peer) as [a|e] eqn:E; [|reflexivity].
  apply reads_emit_at. intros Hn. unfold append_message_for in E. case_match eqn:Hle.
  - unfold mbind, result_bind in E. destruct (read_snapshot _ _ _); [|done]. injection E as <-. simpl. apply N.leb_le in Hle.
    destruct (n_next_index s.1 !! peer) as [i|] eqn:Ei; simpl in Hle; [|lia]. pose proof (Hn _ _ Ei) as Hi. simpl in Hi. lia.
  - injection E as <-. simpl. split_and!; [done|lia..].
Qed.
#[local] Hint Resolve reads_send_append : reads.

Lemma reads_broadcast_append : Steps Reads broadcast_append.
Proof. unfold broadcast_append. solve_reads. Qed.
#[local] Hint Resolve reads_broadcast_append : reads.

Lemma reads_append_local c : Steps Reads (append_local c).
Proof. unfold append_local. solve_reads. Qed.
#[local] Hint Resolve reads_append_local : reads.

Lemma reads_append_and_broadcast c : Steps Reads (append_and_broadcast c).
Proof. unfold append_and_broadcast. solve_reads. Qed.
#[local] Hint Resolve reads_append_and_broadcast : reads.

Lemma reads_propose c : Steps Reads (propose_h c).
Proof. unfold propose_h. solve_reads. Qed.

Lemma reads_propose_batch cs : Steps Reads (propose_batch_h cs).
Proof. unfold propose_batch_h. solve_reads. Qed.

Lemma reads_propose_membership ms : Steps Reads (propose_membership_h ms).
Proof. unfold propose_membership_h. solve_reads. Qed.
#[local] Hint Resolve reads_propose_membership : reads.

Lemma reads_maybe_promote : Steps Reads maybe_promote.
Proof. unfold maybe_promote. solve_reads. Qed.
#[local] Hint Resolve reads_maybe_promote : reads.

Lemma reads_append_reply from ok mi ci ct : Steps Reads (handle_append_reply from ok mi ci ct).
Proof. unfold handle_append_reply. solve_reads. Qed.

Lemma reads_snapshot_reply from li no fin : Steps Reads (handle_snapshot_reply from li no fin).
Proof. unfold handle_snapshot_reply. solve_reads. Qed.

(** What a round is, and where its reads start. *)
Lemma open_read_round_eq s :
  ∃ acts, open_read_round s =
    (Ok (n_seq s.1 + 1, N.max (n_commit_index s.1) (n_leader_start s.1)), (set_seq (n_seq s.1 + 1) s.1, acts)).
Proof.
  unfold open_read_round, getn, modn, mmodify, mgets, id. unfold mbind at 1 2 3, M_bind at 1 2 3. cbn [fst snd]. cbv zeta.
  match goal with |- context [miter ?f ?l ?x] => assert (∃ acts, miter f l x = (Ok tt, (set_seq (n_seq s.1 + 1) s.1, acts))) as [acts ->] end; [|by exists acts].
  generalize (n_replicas (set_seq (n_seq s.1 + 1) s.1)) as ps. generalize s.2 as out. intros out ps. revert out.
  induction ps as [|p ps IH]; intros out; [by exists out|]. cbn [miter]. unfold mbind, M_bind. destruct (_ <=? _); apply IH.
Qed.

(** The questions of a round go out with the number of the round. *)
Lemma reads_open_read_round : Steps Reads open_read_round.
Proof.
  unfold open_read_round. apply steps_bind; [apply _|apply reads_modn; solve_touches|intros _]. intros s. unfold getn, mgets, id.
  unfold mbind at 1, M_bind at 1. cbv zeta. unfold mbind at 1, M_bind at 1.
  match goal with |- context [miter ?f ?l s] => assert (Reads s (miter f l s).2) as Hi; [|by destruct (miter f l s) as [[[]|e] s1]] end.
  set (n1 := s.1). assert (s.1 = n1) as E1 by done. clearbody n1. revert s E1. generalize (n_replicas n1) as ps.
  induction ps as [|p ps IH]; intros s E1; [reflexivity|]. cbn [miter]. unfold mbind, M_bind. destruct (_ <=? _); [by apply IH|].
  unfold emit, mmodify. trans (s.1, s.2 ++ [Send p (AppendEntries (node_term n1) (default (last_index (n_storage n1) + 1) (n_next_index n1 !! p) - 1)
    (default 0 (term_at (n_storage n1) (default (last_index (n_storage n1) + 1) (n_next_index n1 !! p) - 1))) [] (n_commit_index n1) (n_seq n1))]).
  - apply (reads_emit_at msg n0 _ s). intros _. simpl. rewrite E1. split_and!; [done|lia..].
  - by apply IH.
Qed.
#[local] Hint Resolve reads_open_read_round : reads.

(** A read on behalf of another node. *)
Lemma reads_read_index from t i s :
  msg = Some (from, ReadIndex t i) → (n_role s.1 = Leader → s.1 = n0) → Reads s (handle_read_index from i s).2.
Proof.
  intros Hm Hn0. unfold handle_read_index, getn, mgets. unfold mbind at 1, M_bind at 1. unfold id. case_bool_decide as Hl; cbn [negb]; [|by apply reads_emit].
  pose proof (reads_open_read_round s) as R1. destruct (open_read_round_eq s) as [acts' E]. unfold mbind, M_bind. rewrite E in R1 |- *. cbn [snd] in R1.
  etrans; [exact R1|]. specialize (Hn0 Hl). unfold modn, mmodify. cbn [fst snd]. split.
  - split; cbn [fst snd]; try done; [by left|]. intros _. exists []. by rewrite app_nil_r.
  - intros _. split; cbn [fst snd]; [done|auto| |by left]. intros rr. cbn. rewrite elem_of_app, list_elem_of_singleton. intros [?|Hrr]; [by left|right]. subst rr.
    unfold opened_for. cbn. rewrite <-Hn0. split_and!; try done. by exists t.
Qed.

(** An operation that succeeds. *)
Definition Gives {A} (m : Handler St A) : Prop := ∀ s, wp m (λ _ s', Reads s s') (λ _, True) s.

Lemma gives_steps {A} (m : Handler St A) : Steps Reads m → Gives m.
Proof. intros Hm s. specialize (Hm s). unfold wp. by destruct (m s) as [[a|e] s']. Qed.

Lemma gives_bind {A B} (m : Handler St A) (f : A → Handler St B) : Gives m → (∀ a, Gives (f a)) → Gives (m ≫= f).
Proof.
  intros Hm Hk s. apply wp_bind. eapply wp_mono; [apply Hm| |done]. intros a s1 R1. eapply wp_mono; [apply Hk| |done].
  intros b s2 R2. etrans; [exact R1|exact R2].
Qed.

Lemma gives_getn {A B} (f : Node St → A) (k : A → Handler St B) : (∀ a, Gives (k a)) → Gives (getn f ≫= k).
Proof. intros Hk s. apply wp_getn, Hk. Qed.

Lemma gives_when b (m : Handler St unit) : Gives m → Gives (mwhen b m).
Proof. intros Hm s. apply wp_when; intros _; [apply Hm|]. reflexivity. Qed.

(** The entry a new leader appends first. *)
Lemma append_local_noop s :
  wp (append_local Noop) (λ start s', ∃ e, log_of s'.1 = log_of s.1 ++ [e] ∧ e_index e = start) (λ _, True) s.
Proof.
  unfold append_local. apply wp_getn. unfold id. apply wp_bind. unfold wp at 1, on_storage.
  destruct (append _ (n_storage s.1)) as [[[]|e] st] eqn:E; [|done]. apply law_append_ok in E.
  apply wp_bind, wp_ret, wp_bind, wp_modn, wp_ret. eexists. cbn [fst snd]. unfold log_of, slog.
  destruct (same_maybe_commit (set_storage st s.1)) as (_ & _ & ->). simpl. rewrite E, push_all_entries. done.
Qed.

(** A new leader counts no answers, and its reads start from its own first entry. *)
Lemma gives_become_leader : Gives become_leader.
Proof.
  intros s. unfold become_leader. apply wp_bind, wp_modn, wp_bind, wp_modn. cbn [fst snd].
  match goal with |- wp _ _ _ (?n, _) => set (n1 := n) end.
  assert (says msg n0 s (n1, s.2)) as S1.
  { split; cbn [fst snd]; try done; [|by left|intros _; exists []; by rewrite app_nil_r].
    intros Hn. unfold next_ok, n1. cbn. generalize (n_replicas s.1) as ps. intros ps.
    assert (∀ m : gmap NodeId N, map_Forall (λ _ i, 0 < i) m →
      map_Forall (λ _ i, 0 < i) (foldl (λ m p, <[p := last_index (n_storage s.1) + 1]> m) m ps)) as Hg; [|by apply Hg].
    induction ps as [|p ps IH]; intros m Hm; [done|]. simpl. apply IH, map_Forall_insert_2; [lia|done]. }
  apply wp_bind. pose proof (reads_append_local Noop (n1, s.2)) as R2. pose proof (append_local_noop (n1, s.2)) as A2. unfold wp in A2 |- *.
  destruct (append_local Noop (n1, s.2)) as [[start|e] s2]; cbn [snd] in R2; [|done]. destruct A2 as (e & El & Es).
  unfold modn, mmodify, mbind, M_bind. cbn [fst snd]. set (s3 := (set_leader_start start s2.1, s2.2)).
  pose proof (reads_broadcast_append s3) as R4. destruct (broadcast_append s3) as [[[]|e'] s4]; cbn [snd] in R4; [|done].
  assert (says msg n0 s2 s3) as S3 by (split; cbn; try done; try lia; [by left|]; intros _; exists []; by rewrite app_nil_r).
  destruct R2 as [S2 L2], R4 as [S4 L4]. split; [by repeat (etrans; [eassumption|])|]. intros Hl. destruct (L4 Hl) as [C4 A4 R4 T4].
  pose proof (sy_commit _ _ _ _ S1 Hf) as C1. pose proof (sy_commit _ _ _ _ S2 Hf) as C2.
  assert (log_of s3.1 = log_of s.1 ++ [e]) as El3 by exact El. split; [cbn in *; lia| | |right; split; [done|]].
  - intros p a Ha. destruct (A4 p a Ha) as [?|[(Hl3 & Ht & Ha3)|?]]; [by left| |by right; right].
    destruct (lo_acked _ _ _ _ (L2 Hl3) p a Ha3) as [?|[(_ & _ & Ha1)|Htd]]; [by left|done|]. right. right. by rewrite <-Ht.
  - intros rr Hrr. destruct (R4 rr Hrr) as [(Hl3 & Ht & Hr3)|?]; [|by right].
    destruct (lo_reads _ _ _ _ (L2 Hl3) rr Hr3) as [(_ & _ & Hr1)|Ho]; [by apply not_elem_of_nil in Hr1|]. right. by rewrite <-Ht.
  - destruct T4 as [(_ & _ & Es4)|(_ & e4 & He4 & Es4)].
    + exists e. split; [|by rewrite Es4]. eapply elem_of_drop_prefix; [by apply (sy_log _ _ _ _ S4)|]. rewrite El3, drop_app_length. by apply list_elem_of_singleton.
    + exists e4. split; [|done]. eapply elem_of_drop_le; [|exact He4]. rewrite El3, length_app. lia.
Qed.

Lemma gives_stand term :
  Gives (n ← getn id;
    if has_quorum n (n_votes n) then become_leader
    else send_to_peers (RequestVote term (last_index (n_storage n)) (last_term (n_storage n)))).
Proof. apply gives_getn. intros n. destruct (has_quorum _ _); [apply gives_become_leader|]. by apply gives_steps, reads_send_to_peers. Qed.

Lemma gives_become_candidate : Gives become_candidate.
Proof.
  intros s. unfold become_candidate. apply wp_getn. unfold id. apply wp_bind, wp_modn. set (n1 := set_remote_reads [] _).
  assert (Reads s (n1, s.2)) as R1 by (destruct s; apply touches_reads; by split).
  apply wp_bind. pose proof (reads_save msg n0 (mkHardState (node_term s.1 + 1) (Some (n_id s.1))) (n1, s.2)) as R2. unfold wp at 1.
  destruct (on_storage _ (n1, s.2)) as [[[]|e] s2]; [|done]. cbn [snd] in R2.
  assert (Reads (n1, s.2) s2) as R2' by (apply R2; by left).
  eapply wp_mono; [apply (gives_bind (modn _)); [|intros _; apply gives_stand]| |done]; [apply gives_steps, reads_modn; solve_touches|].
  intros u s3 R3. cbv beta in R3. etrans; [exact R1|]. etrans; [exact R2'|exact R3].
Qed.

Lemma gives_become_pre_candidate : Gives become_pre_candidate.
Proof.
  unfold become_pre_candidate. apply gives_bind; [apply gives_steps, reads_modn; solve_touches|intros _]. apply gives_getn. intros n.
  destruct (has_quorum _ _); [apply gives_become_candidate|]. by apply gives_steps, reads_send_to_peers.
Qed.

Lemma gives_tick : Gives tick_h.
Proof.
  unfold tick_h. apply gives_getn. intros n. destruct (n_role n); cycle 3.
  { apply gives_steps. solve_reads. }
  all: apply gives_bind; [apply gives_steps; solve_reads|intros _]; apply gives_getn; intros n'; apply gives_when.
  all: destruct (is_voter _); [apply gives_become_pre_candidate|apply gives_steps; solve_reads].
Qed.
End leader.

(** *** Messages *)

Lemma reads_request_vote from li lt : Steps Reads (handle_request_vote from li lt).
Proof.
  intros s. unfold handle_request_vote, getn, mgets. unfold mbind at 1, M_bind at 1. unfold id. cbv zeta.
  match goal with |- context [mwhen ?b _] => destruct b end; cbn [mwhen].
  - unfold mbind at 1, M_bind at 1. pose proof (reads_save msg n0 (mkHardState (hs_term (hard_state (n_storage s.1))) (Some from)) s (or_intror eq_refl)) as R1.
    unfold mbind at 1, M_bind at 1. destruct (on_storage _ s) as [[[]|e] s1]; cbn [snd] in *; [|done]. etrans; [exact R1|].
    match goal with |- Reads s1 (match modn ?f s1 with _ => _ end).2 => change (Reads s1 ((modn f ;; (n ← getn id; emit (Send from (RequestVoteReply (node_term n) true)))) s1).2) end.
    apply (steps_bind Reads); [apply reads_modn; solve_touches|intros _]. solve_reads.
  - unfold mbind at 1, M_bind at 1. cbn. by apply reads_emit.
Qed.

Lemma gives_vote_reply from term granted : follows msg = false → Gives (handle_vote_reply from term granted).
Proof.
  intros Hf. unfold handle_vote_reply. apply gives_getn. intros n. destruct (_ || _); [apply gives_steps, steps_ret, _|].
  destruct granted; [|apply gives_steps, steps_ret, _]. apply gives_bind; [apply gives_steps, reads_modn; solve_touches|intros _].
  apply gives_getn. intros n'. by apply gives_when, gives_become_leader.
Qed.

Lemma gives_pre_vote_reply from term granted : follows msg = false → Gives (handle_pre_vote_reply from term granted).
Proof.
  intros Hf. unfold handle_pre_vote_reply. apply gives_getn. intros n. destruct granted.
  - destruct (_ && _); [|apply gives_steps, steps_ret, _]. apply gives_bind; [apply gives_steps, reads_modn; solve_touches|intros _].
    apply gives_getn. intros n'. by apply gives_when, gives_become_candidate.
  - apply gives_steps. solve_reads.
Qed.

(** A round a majority has answered. *)
Lemma confirmed_by n sq :
  round_confirmed n sq = true →
  ∃ Q, quorum_of (n_voters n) Q = true ∧ ∀ p, p ∈ Q → p = n_id n ∨ ∃ a, sq ≤ a ∧ n_acked n !! p = Some a.
Proof.
  unfold round_confirmed. rewrite has_quorum_of. intros Hq. eexists. split; [exact Hq|]. intros p.
  rewrite elem_of_union, elem_of_singleton, elem_of_list_to_set, list_elem_of_filter. intros [?|[Ha _]]; [by left|right].
  destruct (n_acked n !! p) as [a|]; [|done]. exists a. by apply N.leb_le in Ha.
Qed.

(** Reads whose round is confirmed are answered, the others are kept. *)
Lemma release_iter n t l R acts :
  l ⊆ n_remote_reads n → R ⊆ n_remote_reads n →
  ∃ R' out, miter (λ read, m ← getn id;
      if round_confirmed m (rr_seq read) then emit (Send (rr_from read) (ReadIndexReply t (rr_id read) (Some (rr_index read))))
      else modn (λ n, set_remote_reads (n_remote_reads n ++ [read]) n)) l (set_remote_reads R n, acts) =
    (Ok tt, (set_remote_reads R' n, acts ++ out)) ∧ R' ⊆ n_remote_reads n ∧
    Forall (λ a, ∃ rr, a = Send (rr_from rr) (ReadIndexReply t (rr_id rr) (Some (rr_index rr))) ∧ rr ∈ n_remote_reads n ∧
      round_confirmed n (rr_seq rr) = true) out.
Proof.
  revert R acts. induction l as [|rr l IH]; intros R acts Hl HR; [exists R, []; by rewrite app_nil_r|].
  assert (rr ∈ n_remote_reads n) as Hrr by (apply Hl, elem_of_cons; by left).
  assert (l ⊆ n_remote_reads n) as Hl' by (intros x Hx; apply Hl, elem_of_cons; by right). cbn [miter].
  unfold mbind at 1, M_bind at 1. unfold mbind at 1, M_bind at 1. unfold getn at 1, mgets. unfold id at 1. cbn [fst].
  change (round_confirmed (set_remote_reads R n) (rr_seq rr)) with (round_confirmed n (rr_seq rr)). destruct (round_confirmed n (rr_seq rr)) eqn:Hc.
  - unfold emit at 1, mmodify. cbn [fst snd]. destruct (IH R (acts ++ [Send (rr_from rr) (ReadIndexReply t (rr_id rr) (Some (rr_index rr)))]) Hl' HR) as (R' & out & E & HR' & Ho).
    exists R'. eexists (_ :: out). rewrite E, <-(assoc_L (++)). split_and!; [done|done|]. constructor; [by exists rr|done].
  - unfold modn at 1, mmodify. cbn [fst snd]. change (set_remote_reads (n_remote_reads (set_remote_reads R n) ++ [rr]) (set_remote_reads R n)) with (set_remote_reads (R ++ [rr]) n).
    apply IH; [done|]. intros x. rewrite elem_of_app, list_elem_of_singleton. intros [?| ->]; auto.
Qed.

Lemma reads_release_reads s :
  n_role n0 = Leader → n_remote_reads s.1 ⊆ n_remote_reads n0 → n_voters s.1 = n_voters n0 → n_id s.1 = n_id n0 →
  (∀ p a, n_acked s.1 !! p = Some a → a = 0 ∨ n_acked n0 !! p = Some a ∨ told_round msg p (node_term n0) a) →
  Reads s (release_reads s).2.
Proof.
  intros Hl Hr Hvo Hid Ha. unfold release_reads. unfold mbind at 1, M_bind at 1. change (getn id s) with (Ok s.1, s). cbv beta iota zeta.
  case_bool_decide; [reflexivity|]. unfold mbind at 1, M_bind at 1. change (modn (set_remote_reads []) s) with (Ok tt, (set_remote_reads [] s.1, s.2)). cbv beta iota.
  destruct (release_iter s.1 (node_term s.1) (n_remote_reads s.1) [] s.2) as (R' & out & -> & HR' & Ho); [done|apply list_subseteq_nil|]. cbn [snd].
  trans (set_remote_reads R' s.1, s.2); [destruct s; by apply touches_reads|]. split; [|intros Hl2; split; cbn [fst snd]; [lia|auto|auto|by left]].
  split; cbn [fst snd]; try done; [by left|]. intros _. exists out. split; [done|]. eapply list.Forall_impl; [exact Ho|].
  intros a (rr & -> & Hrr & Hc). simpl. split; [done|]. exists rr. split_and!; try done; [by apply Hr|].
  destruct (confirmed_by s.1 (rr_seq rr) Hc) as (Q & HQ & Hp). exists Q. rewrite <-Hvo, <-Hid. split; [done|]. intros p Hpq.
  destruct (Hp p Hpq) as [?|(x & Hx & Hxa)]; [by left|right]. exists x. split; [done|]. by apply Ha.
Qed.

(** What is counted of the answers is what the answers say. *)
Lemma reads_set_acked f n acts :
  n_role n = Leader → (∀ p a, f !! p = Some a → a = 0 ∨ n_acked n !! p = Some a ∨ told_round msg p (node_term n) a) →
  Reads (n, acts) (set_acked f n, acts).
Proof.
  intros Hl Hk. split.
  - split; cbn [fst snd]; try done; [by left|]. intros _. exists []. by rewrite app_nil_r.
  - intros _. split; cbn [fst snd]; [done| |auto|by left]. intros p a Ha. destruct (Hk p a Ha) as [?|[?|?]]; auto.
Qed.

Lemma reads_heard_round from term seq s :
  (∃ ok mi ci ct, msg = Some (from, AppendEntriesReply term ok mi ci ct seq)) ∨ (∃ li no fin, msg = Some (from, InstallSnapshotReply term li no fin seq)) →
  (n_role s.1 = Leader → s.1 = n0) → Reads s (heard_round from term seq s).2.
Proof.
  intros Hm Hn0. unfold heard_round, getn, mgets. unfold mbind at 1, M_bind at 1. unfold id.
  case_bool_decide as Hl; cbn [negb orb]; [|reflexivity]. destruct (N.eqb_spec term (node_term s.1)) as [Ht|_]; cbn [negb]; [|reflexivity].
  specialize (Hn0 Hl). set (n1 := set_active ({[from]} ∪ n_active s.1) s.1). set (n2 := set_acked (or_insert from 0 (n_acked s.1)) n1).
  assert (∀ p a, n_acked n2 !! p = Some a → a = 0 ∨ n_acked s.1 !! p = Some a) as Hk2.
  { intros p a. unfold n2. cbn. unfold or_insert. destruct (n_acked s.1 !! from); [by right|]. rewrite lookup_insert_Some. intros [[_ <-]|[_ ?]]; auto. }
  assert (Reads s (n2, s.2)) as R1.
  { trans (n1, s.2); [destruct s; apply touches_reads; by split|]. apply reads_set_acked; [done|]. intros p a [?|?]%Hk2; auto. }
  etrans; [exact R1|]. change (Reads (n2, s.2) ((mwhen (default 0 (n_acked n2 !! from) <? seq)
    (modn (λ n, set_acked (<[from := seq]> (n_acked n)) n) ;; release_reads) ;; mret true) (n2, s.2)).2).
  unfold mwhen. destruct (_ <? seq); [|reflexivity]. set (m := modn _ ;; release_reads).
  assert (Reads (n2, s.2) (m (n2, s.2)).2) as R2; [|unfold mbind, M_bind; by destruct (m (n2, s.2)) as [[[]|e] s3]].
  set (n3 := set_acked (<[from := seq]> (n_acked n2)) n2).
  assert (∀ p a, n_acked n3 !! p = Some a → a = 0 ∨ n_acked s.1 !! p = Some a ∨ told_round msg p (node_term s.1) a) as Hk3.
  { intros p a. unfold n3. cbn. rewrite lookup_insert_Some. intros [[<- <-]|[_ [?|?]%Hk2]]; auto. right. right. by rewrite <-Ht. }
  trans (n3, s.2).
  - apply reads_set_acked; [done|]. intros p a. rewrite lookup_insert_Some. intros [[<- <-]|[_ ?]]; [right; right|by right; left].
    change (node_term n2) with (node_term s.1). rewrite <-Ht. exact Hm.
  - apply (reads_release_reads (n3, s.2)); rewrite <-Hn0; done.
Qed.

(** The answer to a read this node has asked for. *)
Lemma reads_read_reply from t i (index : option N) :
  msg = Some (from, ReadIndexReply t i index) →
  Steps Reads (modn (λ n, match n_forwarded n !! i with
    | Some AWaiting => set_forwarded (<[i := match index with Some x => AReady x | None => ARefused end]> (n_forwarded n)) n
    | _ => n
    end)).
Proof.
  intros Hm s. unfold modn, mmodify. cbn [snd]. destruct s as [n acts]. cbn [fst snd]. destruct (n_forwarded n !! i) as [[| |]|]; [|by apply touches_reads; split..].
  split; [|intros Hl; split; cbn [fst snd]; [done|auto|auto|by left]].
  split; cbn [fst snd]; try done; [|intros _; exists []; by rewrite app_nil_r].
  intros j r. cbn. rewrite lookup_insert_Some. intros [[<- Hr]|[_ ?]]; [right|by left]. exists from, t. destruct index; [|done]. by injection Hr as <-.
Qed.

(** *** A leader's message *)

(** Once the node follows, nothing is left to say of what it leads. *)
Lemma reads_follows s s' : says msg n0 s s' → n_role s'.1 = Follower → Reads s s'.
Proof. intros Hs Hr. split; [done|congruence]. Qed.

Lemma says_modn f : follows msg = true → (∀ n, n_next_index (f n) = n_next_index n ∧ n_seq (f n) = n_seq n ∧ n_forwarded (f n) = n_forwarded n) → Steps (says (St := St) msg n0) (modn f).
Proof.
  intros Hf Hk s. unfold modn, mmodify. cbn [snd]. destruct (Hk s.1) as (E1 & E2 & E3). split; cbn [fst snd]; try congruence.
  - rewrite E2. lia.
  - unfold next_ok. by rewrite E1.
  - rewrite E3. by left.
  - intros _. exists []. by rewrite app_nil_r.
Qed.

Lemma says_reads {A} (m : Handler St A) : Steps Reads m → Steps (says (St := St) msg n0) m.
Proof. intros Hm s. apply Hm. Qed.

Lemma says_on_storage {A} (m : M St A) : follows msg = true → Steps (says (St := St) msg n0) (on_storage m).
Proof.
  intros Hf s. unfold on_storage. destruct (m (n_storage s.1)) as [r st]. cbn [snd]. split; cbn [fst snd]; try congruence; try done; [by left|].
  intros _. exists []. by rewrite app_nil_r.
Qed.

Abbreviation says := (says (St := St) msg n0).

Lemma says_emit a : (∀ n, said msg n0 n a) → Steps says (emit a).
Proof. intros Ha s. apply (reads_emit_at msg n0 a s). intros _. apply Ha. Qed.

Lemma says_getn {A B} (f : Node St → A) (k : A → Handler St B) : (∀ a, Steps says (k a)) → Steps says (getn f ≫= k).
Proof. intros Hk. apply steps_bind; [apply _|apply steps_gets, _|done]. Qed.

Lemma says_scan index es k : follows msg = true → Steps says (scan_conflict index es k).
Proof.
  intros Hf. revert index k. induction es as [|e es IH]; intros index k; cbn [scan_conflict]; [apply steps_ret, _|].
  apply says_getn. intros n. destruct (term_at _ _) as [t|]; [|apply steps_ret, _]. destruct (_ =? _); [apply IH|].
  apply steps_bind; [apply _|by apply says_on_storage|intros _; apply steps_ret, _].
Qed.

Section append.
Variables (from : NodeId) (t prev0 pt0 : N) (es0 : list Entry) (lc sq : N).
Hypothesis Hmsg : msg = Some (from, AppendEntries t prev0 pt0 es0 lc sq).
Hypothesis Ht0 : node_term n0 ≤ t.

Lemma append_follows : follows msg = true.
Proof. by rewrite Hmsg. Qed.

Lemma says_append_reply ok li ci ct : Steps says (emit (Send from (AppendEntriesReply t ok li ci ct sq))).
Proof. apply says_emit. intros n. right. by exists from, prev0, pt0, es0, lc. Qed.

Lemma says_append_after prev pt es s : node_term s.1 = t → says s (append_after from prev pt es lc sq s).2.
Proof.
  intros Ht. pose proof append_follows as Hf. unfold append_after, getn, mgets. unfold mbind at 1, M_bind at 1. unfold id. rewrite Ht.
  destruct (negb _); [destruct (term_at _ _); apply says_append_reply|]. revert s Ht.
  assert (∀ m : Handler St unit, Steps says m → ∀ s, node_term s.1 = t → says s (m s).2) as Hm by (intros m Hm s _; apply Hm). apply Hm.
  apply steps_bind; [apply _|by apply says_scan|intros [k tr]]. cbv zeta.
  apply steps_bind; [apply _|apply steps_when; [apply _|]; by apply says_on_storage|intros _].
  apply steps_bind; [apply _|apply steps_when; [apply _|]; apply says_reads, reads_modn; solve_touches|intros _].
  apply steps_bind; [apply _|apply says_modn; [done|]; intros n; by case_match|intros _]. apply says_append_reply.
Qed.

Lemma reads_append_entries prev pt es s : node_term s.1 = t → Reads s (handle_append_entries from prev pt es lc sq s).2.
Proof.
  intros Ht. rewrite handle_append_entries_unfold. cbv zeta. set (h := (heard_leader from s.1, s.2)).
  assert (Reads s h) as R1 by (destruct s as [n acts]; apply touches_reads, touches_reset; by split).
  assert (node_term h.1 = t) as Hth by (unfold h; cbn [fst]; by rewrite heard_leader_term).
  assert (n_role h.1 = Follower) as Hr by (unfold h, heard_leader, reset_election_timer; cbn; by destruct (random_timeout _ _)).
  assert (∀ p t' es', Reads h (append_after from p t' es' lc sq h).2) as Ha.
  { intros p t' es'. apply reads_follows; [by apply says_append_after|]. destruct (steps_append_after from p t' es' lc sq h) as (_ & Hro & _).
    cbn [snd] in Hro. destruct Hro; congruence. }
  etrans; [exact R1|]. destruct (_ <? _); [|apply Ha]. destruct (_ <=? _); [|apply Ha].
  apply reads_follows; [|done]. rewrite Ht. apply says_append_reply.
Qed.
End append.

Lemma reads_install_snapshot from t meta off data fin sq ms s :
  msg = Some (from, InstallSnapshot t (sm_index meta) (sm_term meta) off data fin sq ms) → node_term s.1 = t →
  Reads s (handle_install_snapshot from meta off data fin sq ms s).2.
Proof.
  intros Hmsg Ht. assert (follows msg = true) as Hf by by rewrite Hmsg.
  assert (∀ no fin', Steps says (emit (Send from (InstallSnapshotReply t (sm_index meta) no fin' sq)))) as Hreply.
  { intros no fin'. apply says_emit. intros n. right. by exists from, (sm_index meta), (sm_term meta), off, data, fin, ms. }
  apply reads_follows.
  - unfold handle_install_snapshot. unfold mbind at 1, M_bind at 1. cbn [modn mmodify fst snd].
    set (n1 := reset_election_timer _). trans (n1, s.2); [destruct s; apply touches_reads, touches_reset; by split|].
    unfold mbind at 1, M_bind at 1. change (getn id (n1, s.2)) with (Ok n1, (n1, s.2)). cbv beta iota zeta.
    assert (node_term n1 = t) as ->.
    { rewrite <-Ht. unfold n1, reset_election_timer, node_term. by destruct (random_timeout _ _). }
    match goal with |- ReadSteps.says _ _ _ (?m (n1, s.2)).2 => cut (Steps says m); [intros Hm; apply Hm|] end. cbv zeta.
    destruct (_ <=? _); [apply steps_bind; [apply _|by apply says_modn|intros _; apply Hreply]|].
    destruct (_ && _); [apply Hreply|]. apply steps_bind; [apply _| |intros _].
    { apply steps_when; [apply _|]. apply steps_bind; [apply _|by apply says_on_storage|intros sink; by apply says_modn]. }
    apply says_getn. intros n. destruct (n_incoming n) as [[sender sink]|]; [|apply steps_ret, _].
    destruct (negb _); [apply Hreply|]. destruct (sink_write_all data sink) as [r sink'].
    apply steps_bind; [apply _|by apply says_modn|intros _]. apply steps_bind; [apply _|apply steps_lift, _|intros _].
    destruct (negb _); [apply Hreply|]. apply steps_bind; [apply _|by apply says_modn|intros _].
    apply steps_bind; [apply _|by apply says_on_storage|intros _].
    apply steps_bind; [apply _|apply says_reads, reads_modn; solve_touches|intros _].
    apply steps_bind; [apply _|by apply says_modn|intros _]. apply Hreply.
  - unfold handle_install_snapshot. unfold mbind at 1, M_bind at 1. cbn [modn mmodify fst snd].
    set (n1 := reset_election_timer _). assert (n_role n1 = Follower) as Hr by (unfold n1, reset_election_timer; by destruct (random_timeout _ _)).
    match goal with |- n_role (?m (n1, s.2)).2.1 = _ => assert (Steps Frame m) as Hfr by solve_steps;
      destruct (Hfr (n1, s.2)) as (_ & Hro & _) end. cbn [fst snd] in Hro. destruct Hro; congruence.
Qed.
End handlers.

(** ** Every operation *)

Section inputs.
Context {St : Type} `{StorageLaws St}.
Implicit Types (n : Node St) (s : HState St).

(** A message of the node's own term, or one it has moved up to. *)
Lemma wp_step_current_reads from m n0 s :
  node_term n0 ≤ node_term s.1 → (is_request m = true → node_term s.1 = msg_term m) → (n_role s.1 = Leader → s.1 = n0) →
  wp (step_current from m) (λ _ s', Reads (Some (from, m)) n0 s s') (λ _, True) s.
Proof.
  intros Ht0 Hcur Hn0. set (msg := Some (from, m)).
  assert (∀ A (h : Handler St A), Reads msg n0 s (h s).2 → wp h (λ _ s', Reads msg n0 s s') (λ _, True) s) as Hat.
  { intros A h Hh. unfold wp. by destruct (h s) as [[a|e] s']. }
  assert (∀ from term seq (k : Handler St unit), follows msg = false → told_round msg from term seq → Steps (Reads msg n0) k →
    Reads msg n0 s ((heard ← heard_round from term seq; mwhen heard k) s).2) as Hheard.
  { intros f term seq k Hf Htd Hk. pose proof (reads_heard_round msg n0 f term seq s Htd Hn0) as R1. unfold mbind, M_bind.
    destruct (heard_round f term seq s) as [[b|e] s1]; cbn [snd] in R1; [|done]. etrans; [exact R1|]. by apply (steps_when (Reads msg n0)). }
  destruct m; cbn [step_current is_request msg_term] in *.
  - apply wp_ret. reflexivity.
  - apply wp_ret. reflexivity.
  - apply Hat, reads_request_vote.
  - by apply gives_vote_reply.
  - apply Hat. eapply reads_append_entries; [done| |by apply Hcur]. by rewrite <-Hcur.
  - apply Hat. eapply (reads_install_snapshot _ _ _ _ (mkMeta _ _)); [done|by apply Hcur].
  - apply Hat, Hheard; [done|right; by do 3 eexists|]. by apply reads_snapshot_reply.
  - apply Hat, Hheard; [done|left; by do 4 eexists|]. by apply reads_append_reply.
  - apply Hat. by eapply reads_read_index.
  - apply Hat. by apply (reads_read_reply msg n0 from term id index).
Qed.

Lemma wp_become_follower_term term leader s :
  wp (become_follower term leader) (λ _ s', node_term s'.1 = term ∧ n_role s'.1 = Follower) (λ _, True) s.
Proof.
  unfold become_follower. apply wp_getn, wp_bind, wp_modn, wp_bind. unfold id. cbv zeta.
  assert (∀ n acts, node_term n = term ∧ n_role n = Follower →
    wp (modn reset_election_timer) (λ _ s', node_term s'.1 = term ∧ n_role s'.1 = Follower) (λ _, True) (n, acts)) as Hr.
  { intros n acts [Ht Hr]. apply wp_modn. cbn [fst]. rewrite <-Ht. unfold node_term, reset_election_timer. by destruct (random_timeout _ _). }
  destruct (N.eqb_spec term (hs_term (hard_state (n_storage s.1)))) as [Ht|Ht]; cbn [negb mwhen].
  - apply wp_ret, Hr. by rewrite Ht.
  - unfold wp at 1, on_storage. cbn [fst]. match goal with |- context [save_hard_state ?h ?st] => destruct (save_hard_state h st) as [[[]|e] st'] eqn:E end; [|done].
    apply Hr. unfold node_term. simpl. apply law_save_ok in E. by rewrite E.
Qed.

Lemma wp_settle_reads from m s :
  wp (if node_term s.1 <? msg_term m then become_follower (msg_term m) None ;; step_current from m
      else if (msg_term m <? node_term s.1) && is_request m then emit (reply_stale s.1 from m)
      else step_current from m) (λ _ s', Reads (Some (from, m)) s.1 s s') (λ _, True) s.
Proof.
  case_match eqn:Hlt; [|case_match eqn:Hst].
  - apply N.ltb_lt in Hlt. apply wp_bind. pose proof (reads_becomes_follower (Some (from, m)) s.1 (msg_term m) None s) as R1.
    pose proof (wp_become_follower_term (msg_term m) None s) as T1. unfold wp in T1. unfold wp at 1.
    destruct (become_follower (msg_term m) None s) as [[[]|e] s1]; [|done]. cbn [snd] in R1. destruct T1 as [T1 F1].
    eapply wp_mono; [apply (wp_step_current_reads from m s.1)| |done]; [rewrite T1; by apply N.lt_le_incl|done|congruence|]. intros u s2 R2. by etrans.
  - unfold wp. cbn. apply reads_emit_at. intros _. destruct m; simpl; auto.
  - apply wp_step_current_reads; [done| |done]. intros Hr. rewrite Hr, andb_true_r in Hst. apply N.ltb_ge in Hlt, Hst. lia.
Qed.

Lemma wp_step_reads from m s : wp (step_h from m) (λ _ s', Reads (Some (from, m)) s.1 s s') (λ _, True) s.
Proof.
  unfold step_h. apply wp_getn. unfold id. case_match.
  { unfold wp. cbn. apply reads_emit_at. intros _. by destruct m. }
  pose proof (wp_settle_reads from m s) as Hrest. destruct m; try exact Hrest.
  - unfold handle_pre_vote. apply wp_getn. unfold wp. cbn. by apply reads_emit_at.
  - by apply gives_pre_vote_reply.
Qed.

Lemma run_actions_reads msg (m : Handler St unit) n acts n' :
  wp m (λ _ s', Reads msg n (n, []) s') (λ _, True) (n, []) → run_actions m n = (Ok acts, n') →
  Reads msg n (n, []) (n', acts).
Proof. unfold wp, run_actions. destruct (m (n, [])) as [[[]|e] [n1 acts1]]; [|done]. by intros HP [= <- <-]. Qed.

(** Messages of an operation that failed are not sent. *)
Lemma reads_drop msg n0 n n' acts : Reads msg n0 (n, []) (n', acts) → Reads msg n0 (n, []) (n', []).
Proof. intros [[S1 S2 S3 S4 S5] HL]. split; [split; [done..|]; intros _; by exists []|]. intros Hl. destruct (HL Hl). by split. Qed.

Lemma run_propose_reads {A} (m : Handler St (A + ProposeError)) n acts n' :
  Steps (Reads None n) m →
  (Ok (match (run_propose m n).1 with inl (_, acts) => acts | inr _ => [] end), (run_propose m n).2) = (Ok acts, n') →
  Reads None n (n, []) (n', acts).
Proof.
  intros Hm E. specialize (Hm (n, [])). unfold run_propose in E. destruct (m (n, [])) as [[[a|e]|e] [n1 acts1]]; simpl in *; injection E as <- <-;
    [done|by eapply reads_drop..].
Qed.

(** One input, as reads see it. *)
Lemma node_input_reads i n acts n' :
  no_compaction i = true → node_input i n = (Ok acts, n') → Reads (input_message i) n (n, []) (n', acts).
Proof.
  destruct i; unfold node_input; cbn [input_message]; intros Hc; try done.
  - apply run_actions_reads. by apply gives_tick.
  - apply run_actions_reads, wp_step_reads.
  - apply run_actions_reads, wp_getn, wp_when; intros _; [by apply gives_become_candidate|reflexivity].
  - apply run_actions_reads, wp_getn, wp_when; intros _; [by apply gives_become_pre_candidate|reflexivity].
  - by apply run_propose_reads, reads_propose.
  - by apply run_propose_reads, reads_propose_membership.
  - by apply run_propose_reads, reads_propose_batch.
  - unfold read_index. case_bool_decide as Hl.
    + pose proof (reads_open_read_round None n eq_refl (n, [])) as HR.
      destruct (open_read_round (n, [])) as [[[seq index]|e] [n1 acts1]]; by intros [= <- <-].
    + destruct (n_leader_id n) as [n0|]; intros [= <- <-]; [|reflexivity].
      trans (n, [Send n0 (ReadIndex (node_term n) (n_next_read n + 1))]); [|].
      2: { apply touches_reads. split; try done. intros j r. cbn. rewrite lookup_insert_Some. by intros [[_ ?]|[_ ?]]. }
      by apply (reads_emit None n (Send n0 (ReadIndex (node_term n) (n_next_read n + 1))) I (n, [])).
  - intros [= <- <-]. apply touches_reads. destruct r; try by split. split; try done. intros j x. cbn. by rewrite lookup_delete_Some; intros [_ ?].
  - intros [= <- <-]. apply touches_reads. unfold take_committed. destruct (_ <? _); by split.
Qed.
End inputs.
