(* ===== verification/LinearReads.v ===== *)
(** * A read sees every write acknowledged before it (src/raft/node.rs)

    Over a whole cluster whose membership nobody changes and whose logs are not compacted: the
    index a read is answered with, by the leader or through it, covers everything any node took for
    committed before the read began. The read's round is a number no message of the term has carried
    yet, so the majority that sends it back had not left the term when the read began, and nothing
    was committed in a later one. A number used twice breaks this, and a run shows it. *)

From S2P Require Import Prelude.
From S2P Require Import RaftLog.
From S2P Require Import Message.
From S2P Require Import NodeState.
From S2P Require Import Node.
From S2P Require Import NodeFrame.
From S2P Require Import Quorum.
From S2P Require Import Election.
From S2P Require Import ElectionSafety.
From S2P Require Import Replication.
From S2P Require Import Commit.
From S2P Require Import LogSteps.
From S2P Require Import LogMatching.
From S2P Require Import CommitSteps.
From S2P Require Import LeaderCompleteness.
From S2P Require Import StateMachineSteps.
From S2P Require Import StateMachine.
From S2P Require Import ReadSteps.

#[local] Open Scope N_scope.

Section cluster.
Context {S : Type} `{StorageLaws S}.
Implicit Types (n : Node S) (c : Cluster (S := S)).

Variable B : list Member.
Hypothesis HB : Forall (λ m, m_learner m = false) B.

(** ** The invariant *)

(** [k] was committed in some term, whose leader knows if it still leads. *)
Definition told c (leads : Leads) (k : N) : Prop :=
  k = 0 ∨ ∃ t i, (N.to_nat k ≤ i)%nat ∧ chosen B c leads t i ∧
    ∀ w n, c_procs c !! w = Some (Up n) → n_role n = Leader → node_term n = t → k ≤ n_commit_index n.

Lemma told_le c leads k j : told c leads k → j ≤ k → told c leads j.
Proof.
  intros [->|(t & i & Hi & Hc & Hw)] Hj; [left; lia|right]. exists t, i. split_and!; [lia|done|]. intros w n H1' H2' H3'.
  specialize (Hw w n H1' H2' H3'). lia.
Qed.

Record RInv c (leads : Leads) : Prop := {
  ri_next : ∀ v n, c_procs c !! v = Some (Up n) → next_ok n;
  ri_told : ∀ v n, c_procs c !! v = Some (Up n) → told c leads (n_commit_index n);
  ri_sent : ∀ from to t prev pt es lc sq, (from, to, AppendEntries t prev pt es lc sq) ∈ c_net c →
    told c leads lc ∧ ∀ w n, c_procs c !! w = Some (Up n) → n_role n = Leader → node_term n = t → sq ≤ n_seq n;
  ri_snapshots : ∀ from to t li lt off data fin sq ms, (from, to, InstallSnapshot t li lt off data fin sq ms) ∉ c_net c;
  ri_echo : ∀ p to t ok mi ci ct sq, (p, to, AppendEntriesReply t ok mi ci ct sq) ∈ c_net c →
    sq = 0 ∨ ∃ from prev pt es lc, (from, p, AppendEntries t prev pt es lc sq) ∈ c_net c;
  ri_replies : ∀ p to t li no fin sq, (p, to, InstallSnapshotReply t li no fin sq) ∈ c_net c → sq = 0;
  ri_acked : ∀ v n, c_procs c !! v = Some (Up n) → n_role n = Leader → ∀ p a, n_acked n !! p = Some a →
    a = 0 ∨ ∃ to ok mi ci ct, (p, to, AppendEntriesReply (node_term n) ok mi ci ct a) ∈ c_net c;
  ri_reads : ∀ v n rr, c_procs c !! v = Some (Up n) → n_role n = Leader → rr ∈ n_remote_reads n →
    ∃ to t, (rr_from rr, to, ReadIndex t (rr_id rr)) ∈ c_net c;
  ri_answers : ∀ w to t id r, (w, to, ReadIndexReply t id (Some r)) ∈ c_net c → ∃ to' t', (to, to', ReadIndex t' id) ∈ c_net c;
  ri_start : ∀ v n, c_procs c !! v = Some (Up n) → n_role n = Leader →
    ∃ e, 0 < n_leader_start n ∧ log_of n !! N.to_nat (n_leader_start n - 1) = Some e ∧ e_term e = node_term n;
  ri_flat : flat c;
}.

(** ** One node takes an input *)

Section input.
Variables (c : Cluster (S := S)) (leads : Leads) (v : NodeId) (n n' : Node S) (i : Input S) (acts : list Action).
Hypothesis HS : SInv B c leads.
Hypothesis HI : Inv c.
Hypothesis HR : RInv c leads.
Hypothesis Hv : c_procs c !! v = Some (Up n).
Hypothesis Hun : unchanging i = true.
Hypothesis Hmsg : ∀ from m, input_message i = Some (from, m) → (from, v, m) ∈ c_net c.
Hypothesis Hin : node_input i n = (Ok acts, n').

Let c' := advance v n (Up n') acts c.
Let leads' := next_leads leads v n n'.

Lemma step_reads : Reads (input_message i) n (n, []) (n', acts).
Proof. apply node_input_reads; [by destruct i|done]. Qed.

Lemma step_ordinary : ordinary i = true.
Proof. by apply unchanging_ordinary. Qed.

Lemma step_sinv : SInv B c' leads'.
Proof. pose proof step_ordinary. eapply in_sinv; eassumption. Qed.

Lemma step_base : hid leads (el_base (slog n)) = [] ∧ based [] (slog n).
Proof. eapply flat_based; [apply HR|apply HS|done]. Qed.

Lemma step_flat : flat c'.
Proof.
  destruct step_base as [Eh _]. eapply flat_input; [apply HR|done|done|]. rewrite <-Eh. by apply (in_posts B HB c leads v n n' i acts HS Hv step_ordinary Hmsg Hin).
Qed.

Lemma step_log l : flog l (slog n) = log_of n ∧ flog l (slog n') = log_of n'.
Proof.
  split; apply flog_whole; [by apply (proj1 (ri_flat _ _ HR) v (Up n))|]. apply (proj1 step_flat v (Up n')). simpl. by rewrite lookup_insert_eq.
Qed.

Lemma step_said to m : Send to m ∈ acts → said (input_message i) n n' (Send to m).
Proof.
  intros Ha. destruct step_reads as [[_ _ _ _ _ Hs] _]. destruct (Hs (ri_next _ _ HR _ _ Hv)) as (out & Eo & Ho). cbn in Eo. subst out.
  rewrite list.Forall_forall in Ho. by apply Ho.
Qed.

(** The leader of a term somebody has led already is the one that led it. *)
Lemma still_leader w m t x :
  c_procs c' !! w = Some (Up m) → n_role m = Leader → node_term m = t → leads !! t = Some x →
  ∃ m0, c_procs c !! w = Some (Up m0) ∧ n_role m0 = Leader ∧ node_term m0 = t ∧ n_commit_index m0 ≤ n_commit_index m ∧ n_seq m0 ≤ n_seq m.
Proof.
  simpl. rewrite lookup_insert_Some. intros [[<- [= <-]]|[_ Hw]] Hl Ht E; [|exists m; split_and!; (done || lia)].
  destruct step_reads as [Hsy Hlo]. destruct (Hlo Hl) as [Hc _ _ _]. exists n.
  destruct (in_leads B HB c leads v n n' i acts HS HI Hv step_ordinary Hmsg Hin) as [(_ & Hno & _)|[(reach & u & L & _ & _ & Hno & _)|(es & _ & _ & _ & _ & _ & _ & Hor)]]; [done..|].
  destruct Hor as [[Hl0 Ht0]|[_ Hno]]; [|congruence]. split_and!; [done|done|congruence|done|apply Hsy].
Qed.

Lemma told_kept k : told c leads k → told c' leads' k.
Proof.
  intros [->|(t & j & Hj & Hc & Hw)]; [by left|right]. exists t, j. split_and!; [done| |].
  - eapply chosen_grow; [intros x Hx; apply elem_of_app; by right|by eapply in_grow; try done; apply step_ordinary|done].
  - intros w m Hm Hl Ht. destruct Hc as (k0 & u & L & e & Q & _ & E & _). destruct (still_leader w m t _ Hm Hl Ht E) as (m0 & H1' & H2' & H3' & H4' & _).
    specialize (Hw w m0 H1' H2' H3'). lia.
Qed.

(** What the leader itself has just counted. *)
Lemma told_now k : led n n' → chosen_by B (acked c) n' k → k ≤ n_commit_index n' → told c' leads' k.
Proof.
  intros Hled Hk Hle. destruct (chosen_now B HB c leads v n n' i acts HS HI Hv step_ordinary Hmsg Hin k Hled Hk) as [Hc _].
  right. exists (node_term n'), (N.to_nat k). split_and!; [done|done|]. intros w m Hm Hl Ht.
  pose proof (li_leader _ _ (si_linv _ _ _ step_sinv) w m Hm Hl) as Ew. unfold leads', next_leads in Ew. rewrite decide_True, Ht, lookup_insert_eq in Ew by done. injection Ew as <- _.
  simpl in Hm. rewrite lookup_insert_eq in Hm. by injection Hm as <-.
Qed.

(** The node leads, and what it says of the commit index it knows. *)
Lemma step_lead t x : leads' !! t = Some x → led n n' → t = node_term n' → x = (v, flog leads (slog n')).
Proof. unfold leads', next_leads. intros E Hled ->. rewrite decide_True, lookup_insert_eq in E by done. by injection E. Qed.

Lemma step_told : told c' leads' (n_commit_index n').
Proof.
  destruct (in_posts B HB c leads v n n' i acts HS Hv step_ordinary Hmsg Hin)
    as [_ (_ & _ & [Hc|[(from & prev & pt & es & lc & sq & prev' & pt' & es' & Em & _ & _ & _ & _ & Eco & _)|[(from & prev & pt & es & lc & sq & _ & _ & _ & Eco & _)|(from & li & lt & off & data & fin & sq & ms & held & Em & _)]]])]; cbn [fst snd] in *.
  - destruct (cn_commit _ _ _ _ _ Hc) as [Ec|[Hled Hch]]; cbn [fst] in *; [|by apply told_now].
    rewrite Ec. by eapply told_kept, ri_told.
  - rewrite Eco. unfold commit_after. destruct (_ <? _); [|by eapply told_kept, ri_told].
    destruct (ri_sent _ _ HR _ _ _ _ _ _ _ _ (Hmsg _ _ Em)) as [Ht _]. eapply told_le; [by apply told_kept|]. lia.
  - rewrite Eco. by eapply told_kept, ri_told.
  - by apply Hmsg, (ri_snapshots _ _ HR) in Em.
Qed.

Lemma step_sent to t prev pt es lc sq :
  Send to (AppendEntries t prev pt es lc sq) ∈ acts →
  told c' leads' lc ∧ ∀ w m, c_procs c' !! w = Some (Up m) → n_role m = Leader → node_term m = t → sq ≤ n_seq m.
Proof.
  intros Ha. pose proof (step_said _ _ Ha) as (_ & Hlc & Hsq).
  destruct (in_leads B HB c leads v n n' i acts HS HI Hv step_ordinary Hmsg Hin)
    as [(_ & _ & _ & Hp)|[(reach & u & L & _ & _ & _ & Hp)|(es' & El & _ & _ & _ & Hp & _ & Hor)]];
    rewrite list.Forall_forall in Hp; specialize (Hp _ Ha); try done. destruct Hp as [-> _].
  assert (led n n') as Hled by (destruct Hor as [?|[[? _]%elected_spec _]]; [by right|by left]). split.
  - destruct (in_counted B HB c leads v n n' i acts HS Hv step_ordinary Hmsg Hin) as [Hc|(reach & u & L & to' & m & lc' & _ & Ea & Hack & _)].
    + pose proof (cn_sent _ _ _ _ _ Hc) as Hok. rewrite list.Forall_forall in Hok. destruct (Hok _ Ha) as [->|Hch]; [by eapply told_kept, ri_told|by apply told_now].
    + rewrite Ea in Ha. apply list_elem_of_singleton in Ha. injection Ha as _ <-. done.
  - intros w m Hm Hl Ht. pose proof (li_leader _ _ (si_linv _ _ _ step_sinv) w m Hm Hl) as Ew. apply step_lead in Ew; [|done|done].
    injection Ew as -> _. simpl in Hm. rewrite lookup_insert_eq in Hm. by injection Hm as <-.
Qed.

(** A leader's own first entry is where it says. *)
Lemma step_start : n_role n' = Leader → ∃ e, 0 < n_leader_start n' ∧ log_of n' !! N.to_nat (n_leader_start n' - 1) = Some e ∧ e_term e = node_term n'.
Proof.
  intros Hl. destruct step_reads as [_ Hlo]. destruct (Hlo Hl) as [_ _ _ Hst]. cbn [fst snd] in Hst.
  destruct (in_leads B HB c leads v n n' i acts HS HI Hv step_ordinary Hmsg Hin)
    as [(_ & Hno & _)|[(reach & u & L & _ & _ & Hno & _)|(es & _ & _ & El & Hes & _)]]; [done..|].
  destruct (step_log leads) as [L1 L2]. rewrite L1, L2 in El.
  destruct Hst as [(Hl0 & Ht & Es)|(_ & e & He & Es)].
  - destruct (ri_start _ _ HR v n Hv Hl0) as (e & Hp & He & Hte). exists e. rewrite Es, El, <-Ht. split_and!; [done| |done]. by apply lookup_app_l_Some.
  - destruct (li_logs _ _ (si_linv _ _ _ step_sinv) v (Up n')) as [[Hwf _] _]; [simpl; by rewrite lookup_insert_eq|].
    assert (el_base (slog n') = mkMeta 0 0) as Hb by (apply (proj1 step_flat v (Up n')); simpl; by rewrite lookup_insert_eq).
    change (proc_log (Up n')) with (slog n') in Hwf. rewrite El, drop_app_length in He. pose proof He as [j Hj]%list_elem_of_lookup.
    assert (log_of n' !! (length (log_of n) + j)%nat = Some e) as Hje by (rewrite El, lookup_app_r, Nat.add_comm, Nat.add_sub by lia; done).
    pose proof (Hwf _ _ Hje) as Hix. rewrite Hb in Hix. cbn [sm_index] in Hix. exists e. rewrite Es, Hix. split_and!; [lia| |].
    + rewrite <-Hje. f_equal. lia.
    + rewrite list.Forall_forall in Hes. by apply Hes.
Qed.

Lemma step_rinv : RInv c' leads'.
Proof.
  split.
  - intros w m Hw. simpl in Hw. rewrite lookup_insert_Some in Hw. destruct Hw as [[<- [= <-]]|[_ Hw]]; [|by eapply ri_next].
    destruct step_reads as [Hsy _]. by eapply (sy_next _ _ _ _ Hsy), ri_next.
  - intros w m Hw. simpl in Hw. rewrite lookup_insert_Some in Hw. destruct Hw as [[<- [= <-]]|[_ Hw]]; [apply step_told|by eapply told_kept, ri_told].
  - simpl. intros from to t prev pt es lc sq [[-> Ha]%advance_net|Ha]%elem_of_app; [by eapply step_sent|].
    destruct (ri_sent _ _ HR _ _ _ _ _ _ _ _ Ha) as [Ht Hsq]. split; [by apply told_kept|]. intros w m Hm Hl Htm.
    destruct (li_net _ _ (si_linv _ _ _ HS) _ _ _ Ha) as (u & L & E & _). destruct (still_leader w m t _ Hm Hl Htm E) as (m0 & H1' & H2' & H3' & _ & H5').
    specialize (Hsq w m0 H1' H2' H3'). lia.
  - simpl. intros from to t li lt off data fin sq ms [[-> Ha]%advance_net|Ha]%elem_of_app; [|by eapply (ri_snapshots _ _ HR)].
    pose proof (step_said _ _ Ha) as Hli. simpl in Hli. assert (li = 0); [|lia]. eapply (proj2 step_flat). apply elem_of_app. left. by apply advance_net.
  - simpl. intros p to t ok mi ci ct sq [[-> Ha]%advance_net|Ha]%elem_of_app.
    + destruct (step_said _ _ Ha) as [?|(from & prev & pt & es & lc & Em & _)]; [by left|right]. exists from, prev, pt, es, lc.
      apply elem_of_app. right. by apply Hmsg.
    + destruct (ri_echo _ _ HR _ _ _ _ _ _ _ _ Ha) as [?|(from & prev & pt & es & lc & Hq)]; [by left|right]. exists from, prev, pt, es, lc.
      apply elem_of_app. by right.
  - simpl. intros p to t li no fin sq [[-> Ha]%advance_net|Ha]%elem_of_app; [|by eapply (ri_replies _ _ HR)].
    destruct (step_said _ _ Ha) as [?|(from & li' & lt & off & data & fin' & ms & Em)]; [done|].
    by apply Hmsg, (ri_snapshots _ _ HR) in Em.
  - intros w m Hw Hl p a Hp. simpl in Hw. rewrite lookup_insert_Some in Hw. destruct Hw as [[<- [= <-]]|[_ Hw]].
    + destruct step_reads as [_ Hlo]. destruct (Hlo Hl) as [_ Hak _ _]. destruct (Hak p a Hp) as [?|[(Hl0 & Ht & Hp0)|[(ok & mi & ci & ct & Em)|(li & no & fin & Em)]]]; [by left|..].
      * cbn [fst] in *. destruct (ri_acked _ _ HR v n Hv Hl0 p a Hp0) as [?|(to & ok & mi & ci & ct & Hq)]; [by left|right].
        exists to, ok, mi, ci, ct. rewrite <-Ht. apply elem_of_app. by right.
      * right. exists v, ok, mi, ci, ct. apply elem_of_app. right. by apply Hmsg.
      * left. by apply Hmsg, (ri_replies _ _ HR) in Em.
    + destruct (ri_acked _ _ HR w m Hw Hl p a Hp) as [?|(to & ok & mi & ci & ct & Hq)]; [by left|right].
      exists to, ok, mi, ci, ct. apply elem_of_app. by right.
  - intros w m rr Hw Hl Hrr. simpl in Hw. rewrite lookup_insert_Some in Hw. destruct Hw as [[<- [= <-]]|[_ Hw]].
    + destruct step_reads as [_ Hlo]. destruct (Hlo Hl) as [_ _ Hrd _]. destruct (Hrd rr Hrr) as [(Hl0 & _ & Hrr0)|(_ & _ & (t & Em) & _)].
      * destruct (ri_reads _ _ HR v n rr Hv Hl0 Hrr0) as (to & t & Hq). exists to, t. apply elem_of_app. by right.
      * exists v, t. apply elem_of_app. right. by apply Hmsg.
    + destruct (ri_reads _ _ HR w m rr Hw Hl Hrr) as (to & t & Hq). exists to, t. apply elem_of_app. by right.
  - simpl. intros w to t id r [[-> Ha]%advance_net|Ha]%elem_of_app.
    + destruct (step_said _ _ Ha) as (Hl & rr & Hrr & <- & <- & _). destruct (ri_reads _ _ HR v n rr Hv Hl Hrr) as (to & t' & Hq).
      exists to, t'. apply elem_of_app. by right.
    + destruct (ri_answers _ _ HR _ _ _ _ _ Ha) as (to' & t' & Hq). exists to', t'. apply elem_of_app. by right.
  - intros w m Hw Hl. simpl in Hw. rewrite lookup_insert_Some in Hw. destruct Hw as [[<- [= <-]]|[_ Hw]]; [by apply step_start|by eapply ri_start].
  - apply step_flat.
Qed.
End input.

(** ** A node stops or starts *)

Lemma told_replace c c2 leads v p' k :
  c_procs c2 = <[v := p']> (c_procs c) → c_net c2 = c_net c → (∀ n, p' = Up n → n_role n ≠ Leader) → told c leads k → told c2 leads k.
Proof.
  intros Ep En Hp [->|(t & i & Hi & Hc & Hw)]; [by left|right]. exists t, i. split_and!; [done| |].
  - eapply (chosen_grow _ c); [by rewrite En|apply leads_grow_refl|done].
  - intros w n Hn Hl. rewrite Ep, lookup_insert_Some in Hn. destruct Hn as [[_ ->]|[_ Hn]]; [by apply Hp in Hl|by eapply Hw].
Qed.

Lemma rinv_replace c c2 leads v p' :
  RInv c leads → c_procs c2 = <[v := p']> (c_procs c) → c_net c2 = c_net c → flat c2 →
  (∀ n, p' = Up n → n_role n ≠ Leader ∧ next_ok n ∧ n_commit_index n = 0) → RInv c2 leads.
Proof.
  intros [R1 R2 R3 R4 R5 R6 R7 R9 R10 R8 _] Ep En HF Hp.
  assert (∀ w n, c_procs c2 !! w = Some (Up n) → (c_procs c !! w = Some (Up n)) ∨ (n_role n ≠ Leader ∧ next_ok n ∧ n_commit_index n = 0)) as Hup.
  { intros w n. rewrite Ep, lookup_insert_Some. intros [[_ ->]|[_ ?]]; [right; by apply Hp|by left]. }
  assert (∀ k, told c leads k → told c2 leads k) as Ht by (intros k; eapply told_replace; [done|done|]; intros n Hn; by destruct (Hp n Hn)).
  split; rewrite ?En; try done.
  - intros w n [?|(_ & ? & _)]%Hup; [by eapply R1|done].
  - intros w n [?|(_ & _ & ->)]%Hup; [by eapply Ht, R2|by left].
  - intros from to t prev pt es lc sq Ha. destruct (R3 _ _ _ _ _ _ _ _ Ha) as [Hk Hsq]. split; [by apply Ht|].
    intros w n [?|(? & _)]%Hup Hl; [by apply (Hsq w)|done].
  - intros w n [?|(? & _)]%Hup Hl; [by apply (R7 w)|done].
  - intros w n rr [?|(? & _)]%Hup Hl; [by apply (R9 w n)|done].
  - intros w n [?|(? & _)]%Hup Hl; [by apply (R8 w)|done].
Qed.

Lemma with_members_next v config (st : S) : next_ok (with_members v B config st).
Proof.
  unfold with_members. destruct (random_timeout _ _) as [timeout rng]. apply touches_reload. intros k x Hx. done.
Qed.

Lemma with_members_forwarded v config (st : S) : n_forwarded (with_members v B config st) = ∅.
Proof.
  unfold with_members. destruct (random_timeout _ _) as [timeout rng]. unfold reload_membership. destruct (scan_config _ _ _). cbv zeta.
  by case_bool_decide.
Qed.

(** ** Every step *)

Lemma sstep_rinv c c' leads :
  SInv B c leads → Inv c → RInv c leads → sstep B c c' →
  ∃ leads', SInv B c' leads' ∧ RInv c' leads' ∧ ∀ k, told c leads k → told c' leads' k.
Proof.
  intros HS HI HR Hs. assert (JInv B c leads []) as HJ by by intros ?? ?%not_elem_of_nil. destruct Hs as [c v n i acts n' Hv Hi Hm Hin|c v n st Hv Hst Hl Hms|c v st config Hv].
  - exists (next_leads leads v n n'). split_and!; [by eapply in_sinv; try done; apply unchanging_ordinary|by eapply step_rinv|intros k; by eapply told_kept].
  - exists leads. split_and!; [by eapply (sinv_crash B c leads [])|eapply rinv_replace; try done; eapply flat_replace; [apply HR|done|by simpl; rewrite Hl|done]|intros k; by eapply told_replace].
  - exists leads. destruct (sinv_restart B c leads [] v st config HS HJ Hv) as [HS' _]. destruct (with_members_fresh v B config st) as (_ & _ & F3 & _).
    destruct (si_procs _ _ _ HS v _ Hv) as ([Hs Hp] & _ & _). destruct (li_logs _ _ (si_linv _ _ _ HS) v _ Hv) as [Hw _]. pose proof (proj1 (ri_flat _ _ HR) v _ Hv) as Hb.
    destruct (with_members_fixed B _ v config st Hs Hp Hw) as (_ & Hc & _). change (proc_log (Down st)) with (st_log st) in Hc, Hb. rewrite Hb in Hc.
    split_and!; [done|eapply rinv_replace; [done|done|done| |]|intros k; eapply told_replace; [done|done|]].
    + eapply flat_replace; [apply HR|done| |done]. simpl. unfold slog. by destruct (with_members_fresh v B config st) as (_ & _ & _ & ->).
    + intros n [= <-]. split_and!; [congruence|apply with_members_next|done].
    + intros n [= <-]. congruence.
Qed.

Lemma rinv_later c c' leads :
  Inv c → SInv B c leads → RInv c leads → rtc (sstep B) c c' →
  Inv c' ∧ ∃ leads', SInv B c' leads' ∧ RInv c' leads' ∧ ∀ k, told c leads k → told c' leads' k.
Proof.
  intros HI HS HR Hr. revert leads HI HS HR. induction Hr as [c|c c1 c' Hs _ IH]; intros leads HI HS HR; [split; [done|by exists leads]|].
  destruct (sstep_rinv _ _ _ HS HI HR Hs) as (l1 & HS1 & HR1 & T1). destruct (IH l1 (sstep_inv B _ _ HI Hs) HS1 HR1) as (HI2 & l2 & HS2 & HR2 & T2).
  split; [done|]. exists l2. split_and!; auto.
Qed.

Lemma sreachable_rinv c : sreachable B c → Inv c ∧ ∃ leads, SInv B c leads ∧ RInv c leads.
Proof.
  intros Hc. destruct (sreachable_sinv B HB c Hc) as [HI _]. split; [done|]. clear HI. induction Hc as [procs Hp|c c' Hc IH Hs].
  - destruct (sreachable_sinv B HB (mkCluster procs [] [] []) (sreach_init _ _ Hp)) as [_ [leads HS]]. exists leads. split; [done|].
    split; simpl; try (by intros; match goal with Hx : _ ∈ [] |- _ => by apply not_elem_of_nil in Hx end);
      try (intros v n Hv; by destruct (Hp v _ Hv) as (st & [=] & _)); [intros; apply not_elem_of_nil| |by apply (sreachable_flat B HB), sreach_init].
    intros v n rr Hv. by destruct (Hp v _ Hv) as (st & [=] & _).
  - destruct IH as (leads & HS & HR). destruct (sreachable_sinv B HB c Hc) as [HI _].
    destruct (sstep_rinv _ _ _ HS HI HR Hs) as (leads' & HS' & HR' & _). by exists leads'.
Qed.

(** ** Over time *)

Lemma sstep_terms c c' p q' : sstep B c c' → c_procs c' !! p = Some q' → ∃ q, c_procs c !! p = Some q ∧ proc_term q ≤ proc_term q'.
Proof.
  intros Hs. destruct Hs as [c v n i acts n' Hv Hi Hm Hin|c v n st Hv Hst Hl Hms|c v st config Hv]; simpl; rewrite lookup_insert_Some;
    (intros [[<- <-]|[_ Hp]]; [|exists q'; split; [done|lia]]); eexists; (split; [done|]).
  - pose proof (node_input_hs_le i n) as Hle. rewrite Hin in Hle. cbn [snd] in Hle. unfold proc_term. simpl. destruct Hle as [?|[? _]]; lia.
  - unfold proc_term. simpl. unfold hs_of. rewrite Hst. lia.
  - unfold proc_term. simpl. unfold hs_of. destruct (with_members_fresh v B config st) as (_ & _ & _ & ->). lia.
Qed.

Lemma later_terms c c' p q' : rtc (sstep B) c c' → c_procs c' !! p = Some q' → ∃ q, c_procs c !! p = Some q ∧ proc_term q ≤ proc_term q'.
Proof.
  intros Hr. revert q'. induction Hr as [c|c c1 c' Hs _ IH]; intros q' Hq; [exists q'; split; [done|lia]|].
  destruct (IH _ Hq) as (q1 & H1' & Hle). destruct (sstep_terms _ _ _ _ Hs H1') as (q & Hq0 & Hle0). exists q. split; [done|lia].
Qed.

(** A node answers a round in the term of the round, before it has left it. *)
Lemma sstep_answers c c' leads p to t ok mi ci ct sq :
  RInv c leads → sstep B c c' → (p, to, AppendEntriesReply t ok mi ci ct sq) ∈ c_net c' → sq ≠ 0 →
  (p, to, AppendEntriesReply t ok mi ci ct sq) ∈ c_net c ∨ ∃ q, c_procs c !! p = Some q ∧ proc_term q ≤ t.
Proof.
  intros HR Hs. destruct Hs as [c v n i acts n' Hv Hi Hm Hin|c v n st Hv Hst Hl Hms|c v st config Hv]; [|by left..].
  simpl. intros [[-> Ha]%advance_net|?]%elem_of_app Hsq; [right|by left]. exists (Up n). split; [done|].
  pose proof (step_said c leads v n n' i acts HR Hv Hi Hm Hin _ _ Ha) as [?|(from & prev & pt & es & lc & _ & Ht)]; done.
Qed.

Lemma round_answered c1 c leads t s p to ok mi ci ct sq :
  Inv c1 → SInv B c1 leads → RInv c1 leads → 0 < s →
  (∀ p to ok mi ci ct sq, (p, to, AppendEntriesReply t ok mi ci ct sq) ∈ c_net c1 → sq < s) →
  rtc (sstep B) c1 c → (p, to, AppendEntriesReply t ok mi ci ct sq) ∈ c_net c → s ≤ sq →
  ∃ q, c_procs c1 !! p = Some q ∧ proc_term q ≤ t.
Proof.
  intros HI HS HR Hs H1 Hr. revert p to ok mi ci ct sq. revert c Hr.
  refine (rtc_ind_r _ c1 _ _); [|intros c c' Hr Hstep IH]; intros p to ok mi ci ct sq Hin Hsq.
  { specialize (H1 _ _ _ _ _ _ _ Hin). lia. }
  destruct (rinv_later _ _ _ HI HS HR Hr) as (_ & leads' & _ & HR' & _).
  destruct (sstep_answers _ _ _ _ _ _ _ _ _ _ _ HR' Hstep Hin ltac:(lia)) as [Hold|(q & Hq & Ht)]; [by eapply IH|].
  destruct (later_terms _ _ _ _ Hr Hq) as (q0 & Hq0 & Hle). exists q0. split; [done|lia].
Qed.

(** ** Reads *)

(** A leader's read: its round is new, and it starts from what the leader has committed and from
    its own first entry. *)
Lemma read_index_leader n t s r acts n1 :
  read_index n = (KLocal t s r, acts, n1) →
  n_role n = Leader ∧ t = node_term n ∧ s = n_seq n + 1 ∧ r = N.max (n_commit_index n) (n_leader_start n).
Proof.
  unfold read_index. case_bool_decide as Hl; [|by destruct (n_leader_id n)]. destruct (open_read_round_eq (n, [])) as [acts' ->].
  by intros [= <- <- <- _ _].
Qed.

Lemma read_state_local n t s r r' :
  read_state n (KLocal t s r) = RReady r' → n_role n = Leader ∧ node_term n = t ∧ round_confirmed n s = true ∧ r' = r.
Proof.
  unfold read_state. case_bool_decide; cbn [negb orb]; [|done]. destruct (N.eqb_spec (node_term n) t); cbn [negb]; [|done].
  destruct (round_confirmed n s); [|done]. by intros [= <-].
Qed.

(** Anybody else asks the leader. *)
Lemma read_index_forwarded n id leader acts n1 :
  read_index n = (KForwarded id leader, acts, n1) →
  n_role n ≠ Leader ∧ acts = [Send leader (ReadIndex (node_term n) id)] ∧
  n1 = set_forwarded (<[id := AWaiting]> (n_forwarded n)) (set_next_read id n).
Proof.
  unfold read_index. case_bool_decide as Hl; [|by destruct (n_leader_id n); intros [= <- <- <- <-]].
  by destruct (open_read_round_eq (n, [])) as [acts' ->].
Qed.

(** What was committed before the read, if nobody had been elected past the reader's term. *)
Lemma told_read c leads v n k :
  SInv B c leads → RInv c leads → c_procs c !! v = Some (Up n) → n_role n = Leader → told c leads k →
  (∃ Q, quorum_of (config_voters B) Q = true ∧ ∀ p, p ∈ Q → ∃ q, c_procs c !! p = Some q ∧ proc_term q ≤ node_term n) →
  k ≤ N.max (n_commit_index n) (n_leader_start n).
Proof.
  intros HS HR Hv Hl [->|(t & i & Hi & Hc & Hw)] (Q & HQ & Hq); [lia|].
  assert (t ≤ node_term n) as Ht.
  { pose proof Hc as (k0 & u & L & e & Q0 & _ & E & _). destruct (si_led _ _ _ HS _ _ _ E) as (ls & Q' & _ & _ & HQ' & Hvo).
    destruct (quorums_meet _ _ _ _ (config_voters_NoDup B) (config_voters_NoDup B) (adjacent_refl _) HQ HQ') as (p & Hp & Hp' & _).
    destruct (Hq p Hp) as (q & Hpq & Hle). destruct (Hvo p Hp') as [(q' & Hpq' & Hle') _]. rewrite Hpq in Hpq'. injection Hpq' as <-. lia. }
  destruct (decide (t = node_term n)) as [->|Hne]; [specialize (Hw v n Hv Hl eq_refl); lia|].
  pose proof (li_leader _ _ (si_linv _ _ _ HS) v n Hv Hl) as E. rewrite (proj2 (flat_whole B c leads v n (ri_flat _ _ HR) HS Hv)) in E.
  assert (t < node_term n) as Hlt by lia. destruct (chosen_has _ _ _ _ _ _ _ _ HS Hc Hlt E) as (u & L & Et & HL & Hn & Tk).
  destruct (ri_start _ _ HR v n Hv Hl) as (e & Hp & He & Hte). destruct (decide (n_leader_start n ≤ N.of_nat i)) as [Hle|]; [exfalso|lia].
  assert (L !! N.to_nat (n_leader_start n - 1) = Some e) as HeL.
  { rewrite <-(lookup_take_lt L i), <-Tk, lookup_take_lt by lia. done. }
  pose proof (si_terms _ _ _ HS t u L e Et (list_elem_of_lookup_2 _ _ _ HeL)). lia.
Qed.

(** Node [p] has sent back a round from [s] on, in term [t]. *)
Definition echoed c (t s : N) (p : NodeId) : Prop :=
  ∃ to ok mi ci ct sq, (p, to, AppendEntriesReply t ok mi ci ct sq) ∈ c_net c ∧ s ≤ sq.

(** A round the leader [v] opened in [c], answered by a majority in [c2]. *)
Lemma round_covers c c2 leads v n k :
  Inv c → SInv B c leads → RInv c leads → told c leads k → c_procs c !! v = Some (Up n) → n_role n = Leader → rtc (sstep B) c c2 →
  (∃ Q, quorum_of (config_voters B) Q = true ∧ ∀ p, p ∈ Q → p = v ∨ echoed c2 (node_term n) (n_seq n + 1) p) →
  k ≤ N.max (n_commit_index n) (n_leader_start n).
Proof.
  intros HI HS HR Hk Hv Hl Hr (Q & HQ & Hans). apply (told_read c leads v); try done. exists Q. split; [done|]. intros p Hp.
  destruct (Hans p Hp) as [->|(to & ok & mi & ci & ct & sq & Hin & Hsq)]; [exists (Up n); split; [done|unfold proc_term; reflexivity]|].
  apply (round_answered c c2 leads (node_term n) (n_seq n + 1) p to ok mi ci ct sq); try done; [lia|].
  intros p' to' ok' mi' ci' ct' sq' Hin'. destruct (ri_echo _ _ HR _ _ _ _ _ _ _ _ Hin') as [->|(from & prev & pt & es & lc & Hask)]; [lia|].
  destruct (ri_sent _ _ HR _ _ _ _ _ _ _ _ Hask) as [_ Hle]. specialize (Hle v n Hv Hl eq_refl). lia.
Qed.

(** What a leader counts it has heard. *)
Lemma acked_echoed c leads v n p a s :
  RInv c leads → c_procs c !! v = Some (Up n) → n_role n = Leader → n_acked n !! p = Some a → 0 < s → s ≤ a → echoed c (node_term n) s p.
Proof.
  intros HR Hv Hl Ha Hs Hle. destruct (ri_acked _ _ HR v n Hv Hl p a Ha) as [->|(to & ok & mi & ci & ct & Hin)]; [lia|].
  by exists to, ok, mi, ci, ct, a.
Qed.

Lemma leader_read c1 c2 leads v n t s r acts n1 n2 r' k :
  Inv c1 → SInv B c1 leads → RInv c1 leads → told c1 leads k →
  c_procs c1 !! v = Some (Up n) → read_index n = (KLocal t s r, acts, n1) → rtc (sstep B) c1 c2 →
  c_procs c2 !! v = Some (Up n2) → read_state n2 (KLocal t s r) = RReady r' → k ≤ r'.
Proof.
  intros HI HS HR Hk Hv Hri H12 Hv2 Hrs. destruct (read_index_leader _ _ _ _ _ _ Hri) as (Hl & -> & -> & ->).
  destruct (read_state_local _ _ _ _ _ Hrs) as (Hl2 & Ht2 & Hconf & ->). destruct (rinv_later _ _ _ HI HS HR H12) as (HI2 & leads2 & HS2 & HR2 & _).
  apply (round_covers c1 c2 leads v); try done. destruct (confirmed_by _ _ Hconf) as (Q & HQ & Hp).
  destruct (si_procs _ _ _ HS2 v _ Hv2) as ((_ & _ & Ev & _) & _). rewrite Ev in HQ. destruct (inv_nodes c2 HI2 v n2 Hv2) as (Hid & _).
  exists Q. split; [done|]. intros p Hpq. destruct (Hp p Hpq) as [->|(a & Hle & Ha)]; [by left|right]. rewrite <-Ht2.
  by eapply acked_echoed; [| | | |lia|].
Qed.

(** ** Reads on behalf of another node *)

Section forwarded.
Variables (f : NodeId) (id k : N).

(** A read leader [v] of term [t] holds for the question: it was opened when [k] was committed already. *)
Definition holds c (v : NodeId) (t : N) (rr : RemoteRead) : Prop :=
  ∃ co leads n, Inv co ∧ SInv B co leads ∧ RInv co leads ∧ told co leads k ∧ c_procs co !! v = Some (Up n) ∧ n_role n = Leader ∧
    node_term n = t ∧ rr_seq rr = n_seq n + 1 ∧ rr_index rr = N.max (n_commit_index n) (n_leader_start n) ∧ rtc (sstep B) co c.

(** Every answer to the question covers [k]. *)
Record covers c : Prop := {
  cv_sent : ∀ w t r, (w, f, ReadIndexReply t id (Some r)) ∈ c_net c → k ≤ r;
  cv_held : ∀ v n rr, c_procs c !! v = Some (Up n) → n_role n = Leader → rr ∈ n_remote_reads n → rr_from rr = f → rr_id rr = id →
    holds c v (node_term n) rr;
  cv_ready : ∀ n r, c_procs c !! f = Some (Up n) → n_forwarded n !! id = Some (AReady r) → k ≤ r;
}.

Lemma holds_later c c' v t rr : holds c v t rr → sstep B c c' → holds c' v t rr.
Proof.
  intros (co & leads & n & H1' & H2' & H3' & H4' & H5' & H6' & H7' & H8' & H9' & H10') Hs. exists co, leads, n. split_and!; try done.
  by eapply rtc_r.
Qed.

(** An answer is given when a majority has sent the round back. *)
Lemma held_answer c leads v n (i : Input S) r :
  Inv c → SInv B c leads → RInv c leads → covers c → c_procs c !! v = Some (Up n) →
  (∀ from m, input_message i = Some (from, m) → (from, v, m) ∈ c_net c) → answers (input_message i) n f id r → k ≤ r.
Proof.
  intros HI HS HR HC Hv Hmsg (Hl & rr & Hrr & Hf & Hid & <- & Q & HQ & Hp).
  destruct (cv_held _ HC v n rr Hv Hl Hrr Hf Hid) as (co & leadso & no & I1 & S1 & R1 & K1 & Hvo & Hlo & Ht & Hsq & -> & Hr).
  apply (round_covers co c leadso v); try done. destruct (si_procs _ _ _ HS v _ Hv) as ((_ & _ & Ev & _) & _). rewrite Ev in HQ.
  destruct (inv_nodes c HI v n Hv) as (Hidv & _). exists Q. split; [done|]. intros p Hpq. rewrite Ht, <-Hsq.
  destruct (Hp p Hpq) as [->|(a & Hle & Ha)]; [by left|right].
  destruct Ha as [->|[Ha|[(ok & mi & ci & ct & Em)|(li & no' & fin & Em)]]]; [lia|..].
  - by eapply acked_echoed; [| | | |lia|].
  - exists v, ok, mi, ci, ct, a. split; [by apply Hmsg|done].
  - apply Hmsg, (ri_replies _ _ HR) in Em. lia.
Qed.

Lemma sstep_covers c c' leads : Inv c → SInv B c leads → RInv c leads → told c leads k → covers c → sstep B c c' → covers c'.
Proof.
  intros HI HS HR Hk HC Hs. pose proof Hs as Hs'. destruct Hs' as [c v n i acts n' Hv Hi Hm Hin|c v n st Hv Hst Hl Hms|c v st config Hv].
  - assert (no_compaction i = true) as Hnc by by destruct i. destruct (node_input_reads i n acts n' Hnc Hin) as [Hsy Hlo]. split.
    + simpl. intros w t r [[-> Ha]%advance_net|Ha]%elem_of_app; [|by eapply cv_sent].
      pose proof (step_said c leads v n n' i acts HR Hv Hi Hm Hin _ _ Ha) as Hans. by eapply (held_answer c leads v n i).
    + intros w m rr Hw Hl Hrr Hf Hid. simpl in Hw. rewrite lookup_insert_Some in Hw. destruct Hw as [[<- [= <-]]|[_ Hw]];
        [|eapply holds_later; [|exact Hs]; by eapply cv_held].
      destruct (Hlo Hl) as [_ _ Hrd _]. destruct (Hrd rr Hrr) as [(Hl0 & Ht & Hrr0)|(Hl0 & Ht & _ & Hsq & Hix)]; cbn [fst] in *.
      * rewrite <-Ht. eapply holds_later; [|exact Hs]. by eapply cv_held.
      * exists c, leads, n. split_and!; try done. by apply rtc_once.
    + intros m r Hm' Hr. simpl in Hm'. rewrite lookup_insert_Some in Hm'. destruct Hm' as [[-> [= <-]]|[_ Hm']]; [|by eapply cv_ready].
      destruct (sy_forwarded _ _ _ _ Hsy id r Hr) as [Hold|(from & t & Em)]; [by eapply cv_ready|]. by eapply cv_sent, Hm.
  - split; [apply HC| |].
    + intros w m rr Hw Hl' Hrr Hf Hid. eapply holds_later; [|exact Hs]. simpl in Hw. rewrite lookup_insert_Some in Hw.
      destruct Hw as [[_ ?]|[_ Hw]]; [done|by eapply cv_held].
    + intros m r Hm Hr. simpl in Hm. rewrite lookup_insert_Some in Hm. destruct Hm as [[_ ?]|[_ Hm]]; [done|by eapply cv_ready].
  - split; [apply HC| |].
    + intros w m rr Hw Hl' Hrr Hf Hid. eapply holds_later; [|exact Hs]. simpl in Hw. rewrite lookup_insert_Some in Hw.
      destruct Hw as [[_ [= <-]]|[_ Hw]]; [|by eapply cv_held]. destruct (with_members_fresh v B config st) as (_ & _ & F3 & _). congruence.
    + intros m r Hm Hr. simpl in Hm. rewrite lookup_insert_Some in Hm. destruct Hm as [[_ [= <-]]|[_ Hm]]; [|by eapply cv_ready].
      by rewrite with_members_forwarded in Hr.
Qed.
End forwarded.

Lemma later_covers c c' leads f id k :
  Inv c → SInv B c leads → RInv c leads → told c leads k → covers f id k c → rtc (sstep B) c c' → covers f id k c'.
Proof.
  intros HI HS HR Hk HC Hr. revert leads HI HS HR Hk HC. induction Hr as [c|c c1 c' Hs _ IH]; intros leads HI HS HR Hk HC; [done|].
  destruct (sstep_rinv _ _ _ HS HI HR Hs) as (l1 & HS1 & HR1 & T1). eapply (IH l1); [by eapply sstep_inv|done|done|by apply T1|by eapply sstep_covers].
Qed.

(** No question with this number is on its way, or has been: the node has not asked it before. *)
Definition new_question c (v : NodeId) (request : ReadKind) : Prop :=
  match request with KForwarded id _ => ∀ to t, (v, to, ReadIndex t id) ∉ c_net c | _ => True end.

Lemma forwarded_read c1 c2 leads v n id leader acts n1 n2 r' k :
  Inv c1 → SInv B c1 leads → RInv c1 leads → told c1 leads k → c_procs c1 !! v = Some (Up n) →
  read_index n = (KForwarded id leader, acts, n1) → new_question c1 v (KForwarded id leader) →
  rtc (sstep B) (advance v n (Up n1) acts c1) c2 →
  c_procs c2 !! v = Some (Up n2) → read_state n2 (KForwarded id leader) = RReady r' → k ≤ r'.
Proof.
  intros HI HS HR Hk Hv Hri Hnew H12 Hv2 Hrs. assert (sstep B c1 (advance v n (Up n1) acts c1)) as Hstep.
  { apply (ss_input B c1 v n InRead); [done|done|done|]. unfold node_input. by rewrite Hri. }
  destruct (read_index_forwarded _ _ _ _ _ Hri) as (Hl & Ea & En1). destruct (sstep_rinv _ _ _ HS HI HR Hstep) as (l1 & HS1 & HR1 & T1).
  assert (n_forwarded n2 !! id = Some (AReady r')) as Hr.
  { unfold read_state in Hrs. destruct (n_forwarded n2 !! id) as [[|x|]|]; [by case_bool_decide|by injection Hrs as <-|done|done]. }
  apply (cv_ready v id k c2) with n2; [|done|done]. eapply (later_covers _ c2 l1); [by eapply sstep_inv|done|done|by apply T1| |done]. split.
  - simpl. intros w t r [[-> Hin]%advance_net|Hin]%elem_of_app; [rewrite Ea in Hin; by apply list_elem_of_singleton in Hin|].
    destruct (ri_answers _ _ HR _ _ _ _ _ Hin) as (to & t' & Hq). by apply Hnew in Hq.
  - intros w m rr Hw Hlm Hrr Hf Hid. simpl in Hw. rewrite lookup_insert_Some in Hw. destruct Hw as [[<- [= <-]]|[_ Hw]]; [by rewrite En1 in Hlm|].
    destruct (ri_reads _ _ HR w m rr Hw Hlm Hrr) as (to & t' & Hq). rewrite Hf, Hid in Hq. by apply Hnew in Hq.
  - intros m r Hm. simpl in Hm. rewrite lookup_insert_eq in Hm. injection Hm as <-. rewrite En1. cbn. by rewrite lookup_insert_eq.
Qed.

(** Reads cover what was committed. In a cluster whose membership nobody changes and whose logs are not
    compacted, whatever the network loses, repeats or reorders and whoever crashes and restarts:
    when a read opened on any node is answered, any number of steps later, the index it is answered
    with is at least the commit index any node had at any moment before the read was opened. A node
    that asks the leader must do so with a number it has not used before. *)
Theorem read_covers c0 c1 c2 w m v n request acts n1 n2 r :
  sreachable B c0 → c_procs c0 !! w = Some (Up m) → rtc (sstep B) c0 c1 →
  c_procs c1 !! v = Some (Up n) → read_index n = (request, acts, n1) → new_question c1 v request →
  rtc (sstep B) (advance v n (Up n1) acts c1) c2 →
  c_procs c2 !! v = Some (Up n2) → read_state n2 request = RReady r →
  n_commit_index m ≤ r.
Proof.
  intros Hc0 Hm H01 Hv Hri Hnew H12 Hv2 Hrs. destruct (sreachable_rinv c0 Hc0) as (HI0 & leads0 & HS0 & HR0).
  destruct (rinv_later _ _ _ HI0 HS0 HR0 H01) as (HI1 & leads1 & HS1 & HR1 & T1).
  assert (told c1 leads1 (n_commit_index m)) as Hk by by eapply T1, ri_told. destruct request as [t s r'|id leader|]; [| |done].
  - eapply (leader_read c1 c2 leads1 v n); try done. eapply rtc_l; [|exact H12]. apply (ss_input B c1 v n InRead); [done|done|done|].
    unfold node_input. by rewrite Hri.
  - by eapply (forwarded_read c1 c2 leads1 v n id leader).
Qed.
End cluster.

(** ** A read through the leader, and one that is answered twice *)

(** Node [v] asks, and what its question has come to. *)
Definition ask (v : NodeId) (c : Cluster (S := MemStorage)) : option (ReadKind * Cluster (S := MemStorage)) :=
  match c_procs c !! v with
  | Some (Up n) => let '(request, acts, n1) := read_index n in Some (request, advance v n (Up n1) acts c)
  | _ => None
  end.

Definition answer_of (v : NodeId) (request : ReadKind) (c : Cluster (S := MemStorage)) : option (ReadState * N) :=
  match c_procs c !! v with Some (Up n) => Some (read_state n request, n_commit_index n) | _ => None end.

(** Node 1, which leads, hears node 2's question and confirms with it that it still leads. *)
Definition confirm : list (Sched (S := MemStorage)) :=
  [SInput 1 (InStep 2 (ReadIndex 1 1)); SInput 2 (InStep 1 (AppendEntries 1 1 1 [] 1 1)); SInput 1 (InStep 2 (AppendEntriesReply 1 true 1 0 None 1))].

Definition deliver : list (Sched (S := MemStorage)) := [SInput 2 (InStep 1 (ReadIndexReply 1 1 (Some 1)))].

(** Node 2 asks and crashes before the answer comes. It starts again; meanwhile node 1 commits
    another write with node 3, and tells node 2 no more than that it leads. *)
Definition restarted (c : Cluster (S := MemStorage)) : option (Cluster (S := MemStorage)) :=
  srun three_voters c
    (SInput 2 InRead :: confirm ++
     [SCrash 2; SRestart 2 three_voters NodeConfig_default; SInput 2 (InStep 1 (AppendEntries 1 1 1 [] 1 1));
      SInput 3 (InStep 1 (AppendEntries 1 0 0 [mkEntry 1 1 Noop] 0 0)); SInput 1 (InStep 3 (AppendEntriesReply 1 true 1 0 None 0));
      SInput 1 (InPropose (lit "x")); SInput 3 (InStep 1 (AppendEntries 1 1 1 [mkEntry 1 2 (Data (lit "x"))] 1 1));
      SInput 1 (InStep 3 (AppendEntriesReply 1 true 2 0 None 1))]).

Definition trial (go : list (Sched (S := MemStorage))) (c : Cluster (S := MemStorage)) :=
  match ask 2 c with
  | Some (request, c1) => Some (seen c 1, request, srun three_voters c1 go ≫= answer_of 2 request)
  | None => None
  end.

(** What a trial shows: node 1's commit index, and how node 2's read went. *)
Lemma trial_spec go c ro t k l request r ci :
  trial go c = Some (Some (ro, t, k, l), request, Some (RReady r, ci)) →
  ∃ m n acts n1 c2 n2, c_procs c !! 1 = Some (Up m) ∧ n_commit_index m = k ∧ c_procs c !! 2 = Some (Up n) ∧
    read_index n = (request, acts, n1) ∧ rtc (sstep three_voters) (advance 2 n (Up n1) acts c) c2 ∧
    c_procs c2 !! 2 = Some (Up n2) ∧ read_state n2 request = RReady r ∧ n_commit_index n2 = ci.
Proof.
  unfold trial, ask. destruct (c_procs c !! 2) as [[n|st]|] eqn:Hn; [|done|done].
  destruct (read_index n) as [[rq acts] n1] eqn:Hri. intros Hs.
  apply (inj Some) in Hs. injection Hs as Hseen -> Hrun. apply seen_node in Hseen as (m & Hm & _ & _ & Hk & _).
  destruct (srun three_voters _ go) as [c2|] eqn:Hgo; [|done]. cbn in Hrun. unfold answer_of in Hrun.
  destruct (c_procs c2 !! 2) as [[n2|st]|] eqn:Hn2; [|done|done]. apply (inj Some) in Hrun. injection Hrun as Hrs Hci.
  apply srun_steps in Hgo. exists m, n, acts, n1, c2, n2. exact (conj Hm (conj Hk (conj eq_refl (conj Hri (conj Hgo (conj Hn2 (conj Hrs Hci))))))).
Qed.

(** C37: a read can miss an acknowledged write after a restart. The numbers of a node's questions start
    from 1 again when it restarts, and an answer is taken for the number alone. So the answer to a
    question asked before the restart, when it comes late, answers the first question asked after it:
    here with index 1, on a node that has applied no more, when index 2 was committed before
    that question was asked. *)
Theorem restarted_read_stale :
  ∃ c c2 m n acts n1 n2, sreachable three_voters c ∧
    c_procs c !! 1 = Some (Up m) ∧ n_commit_index m = 2 ∧
    c_procs c !! 2 = Some (Up n) ∧ read_index n = (KForwarded 1 1, acts, n1) ∧
    rtc (sstep three_voters) (advance 2 n (Up n1) acts c) c2 ∧
    c_procs c2 !! 2 = Some (Up n2) ∧ read_state n2 (KForwarded 1 1) = RReady 1 ∧ n_commit_index n2 = 1.
Proof.
  assert ((first_term ≫= λ c, restarted c ≫= trial deliver) =
    Some (Some (Leader, 1, 2, [mkEntry 1 1 Noop; mkEntry 1 2 (Data (lit "x"))]), KForwarded 1 1, Some (RReady 1, 1))) as Hrun by by vm_compute.
  destruct first_term as [c|] eqn:Hf; [|discriminate Hrun]. cbn [mbind option_bind] in Hrun.
  destruct (restarted c) as [c'|] eqn:Hr; [|discriminate Hrun]. cbn [mbind option_bind] in Hrun.
  apply trial_spec in Hrun as (m & n & acts & n1 & c2 & n2 & Hm & Hk & Hn & Hri & Hgo & Hn2 & Hrs & Hci).
  assert (sreachable three_voters c') as Hc by (eapply srun_sreachable; [eapply srun_sreachable; [apply three_nodes_sreachable|exact Hf]|exact Hr]).
  exists c', c2, m, n, acts, n1, n2. exact (conj Hc (conj Hm (conj Hk (conj Hn (conj Hri (conj Hgo (conj Hn2 (conj Hrs Hci)))))))).
Qed.
