(* ===== verification/DataLog.v ===== *)
(** * Data files: the append end and the forward scanner (src/log.rs)

    A store's directory is three maps from file id to contents: the data files
    ([0000000001.log]), the hints beside them and the merges being written
    ([.log.part]). [LogWriter] appends to one data file through a buffer of its own;
    [Scanner] walks one from an offset, checking every record. System calls are
    taken to succeed, apart from reads past the end of a file. *)

From S2P Require Import Prelude.
From S2P Require Import Crc.
From S2P Require Import RecordFormat.

#[local] Open Scope N_scope.

Inductive SyncPolicy := EveryWrite | OsCache.

Record Dir := mkDir {
  d_data : gmap N bytes;
  d_hint : gmap N bytes;
  d_part : gmap N bytes;
}.

Definition set_data (f : gmap N bytes → gmap N bytes) (d : Dir) : Dir :=
  mkDir (f (d_data d)) (d_hint d) (d_part d).
Definition set_hint (f : gmap N bytes → gmap N bytes) (d : Dir) : Dir :=
  mkDir (d_data d) (f (d_hint d)) (d_part d).
Definition set_part (f : gmap N bytes → gmap N bytes) (d : Dir) : Dir :=
  mkDir (d_data d) (d_hint d) (f (d_part d)).

(** Every data file in the directory, oldest first. *)
Definition list_data_files (d : Dir) : list N := merge_sort N.le (elements (dom (d_data d))).

(** ** Writing *)

Inductive Reach := Buffer | Kernel | Disk.

#[export] Instance Reach_eq_decision : EqDecision Reach.
Proof. solve_decision. Defined.

Definition MAX_PENDING : N := 1024 * 1024.

Record LogWriter := mkLogWriter {
  lw_file_id : N;
  lw_offset : N;
  lw_written : N;
  lw_synced : N;
  lw_pending : bytes;
}.

(** The contents of data file [id]. *)
Definition data_file (d : Dir) (id : N) : bytes := default [] (d_data d !! id).

(** [file.write_all], on a file opened for appending. *)
Definition write_all (id : N) (bs : bytes) (d : Dir) : Dir :=
  set_data (λ m, <[id := data_file d id ++ bs]> m) d.

Definition LogWriter_open (id : N) (d : Dir) : Dir * LogWriter :=
  let d := write_all id [] d in
  let offset := blen (data_file d id) in
  (d, mkLogWriter id offset offset offset []).

Definition LogWriter_flush (s : Dir * LogWriter) : Dir * LogWriter :=
  let '(d, w) := s in
  if bool_decide (lw_pending w = []) then s
  else (write_all (lw_file_id w) (lw_pending w) d,
        mkLogWriter (lw_file_id w) (lw_offset w) (lw_offset w) (lw_synced w) []).

Definition LogWriter_sync (s : Dir * LogWriter) : Dir * LogWriter :=
  let '(d, w) := LogWriter_flush s in
  (d, mkLogWriter (lw_file_id w) (lw_offset w) (lw_written w) (lw_offset w) (lw_pending w)).

(** Where the record landed, and its length as the [u32] the index keeps. *)
Definition LogWriter_append (bs : bytes) (reach : Reach) (s : Dir * LogWriter)
    : (N * N) * (Dir * LogWriter) :=
  let '(d, w) := s in
  let at_ := (lw_offset w, as_u32 (blen bs)) in
  if negb (bool_decide (reach = Buffer)) && bool_decide (lw_pending w = []) then
    let offset := lw_offset w + blen bs in
    (at_, (write_all (lw_file_id w) bs d,
           mkLogWriter (lw_file_id w) offset offset
             (if bool_decide (reach = Disk) then offset else lw_synced w) []))
  else
    let w := mkLogWriter (lw_file_id w) (lw_offset w + blen bs) (lw_written w) (lw_synced w)
               (lw_pending w ++ bs) in
    (at_, match reach with
          | Buffer => if blen (lw_pending w) <? MAX_PENDING then (d, w) else LogWriter_flush (d, w)
          | Kernel => LogWriter_flush (d, w)
          | Disk => LogWriter_sync (d, w)
          end).

(** The bytes of a record still in the buffer, if this one is. *)
Definition LogWriter_buffered (w : LogWriter) (offset len : N) : option bytes :=
  if offset <? lw_written w then None
  else
    let start := offset - lw_written w in
    get_slice start (start + len) (lw_pending w).

Definition LogWriter_discard_buffer (w : LogWriter) : LogWriter :=
  mkLogWriter (lw_file_id w) (lw_offset w) (lw_written w) (lw_synced w) [].

(** ** Reading *)

(** [read_exact_at]. *)
Definition read_at (file : bytes) (offset len : N) : result bytes :=
  match get_slice offset (offset + len) file with
  | Some bs => Ok bs
  | None => Err (Io "failed to fill whole buffer")
  end.

Record Scanned := mkScanned {
  sc_offset : N;
  sc_len : N;
  sc_header : Header;
  sc_key : bytes;
}.

Inductive ScanOutcome :=
  | SRecord (rec : Scanned)
  | SEof
  | STorn (offset : N) (detail : string).

(** What is left of the file, and where that is. *)
Record Scanner := mkScanner { scan_rest : bytes; scan_offset : N }.

Definition Scanner_open_at (file : bytes) (offset : N) : Scanner :=
  mkScanner (drop (N.to_nat offset) file) offset.

(** [read_full]: as much of [n] bytes as there is. *)
Definition read_full (n : N) (rest : bytes) : bytes * bytes :=
  (take (N.to_nat n) rest, drop (N.to_nat n) rest).

Definition next_record (s : Scanner) : ScanOutcome * Scanner :=
  let start := scan_offset s in
  let '(header_buf, rest) := read_full (N.of_nat HEADER_LEN) (scan_rest s) in
  if blen header_buf =? 0 then (SEof, mkScanner rest start)
  else if blen header_buf <? N.of_nat HEADER_LEN then
    (STorn start "file ends inside a record header", mkScanner rest start)
  else
    let header := header_decode header_buf in
    let '(key, rest) := read_full (hdr_key_len header) rest in
    if blen key <? hdr_key_len header then
      (STorn start "file ends inside a record payload", mkScanner rest start)
    else
      let '(value, rest) := read_full (hdr_value_len header) rest in
      if blen value <? hdr_value_len header then
        (STorn start "file ends inside a record payload", mkScanner rest start)
      else if negb (verify header key value) then
        (STorn start "checksum mismatch", mkScanner rest start)
      else
        let len := record_len header in
        (SRecord (mkScanned start (as_u32 len) header key), mkScanner rest (start + len)).

(** ** Records as data, and files as lists of them *)

Record Rec := mkRec { r_key : bytes; r_value : option bytes; r_tstamp : N }.

Definition rec_bytes (r : Rec) : bytes := record_bytes (r_key r) (r_value r) (r_tstamp r).

(** Records [put] and [delete] write, whose length fits the index's [u32]. *)
Definition rec_ok (r : Rec) : Prop :=
  record_ok (r_key r) (r_value r) ∧ is_u64 (r_tstamp r) ∧ is_u32 (blen (rec_bytes r)).

Definition file_bytes (rs : list Rec) : bytes := mjoin (rec_bytes <$> rs).

Lemma file_bytes_app rs rs' : file_bytes (rs ++ rs') = file_bytes rs ++ file_bytes rs'.
Proof. unfold file_bytes. by rewrite fmap_app, join_app. Qed.

Lemma file_bytes_cons r rs : file_bytes (r :: rs) = rec_bytes r ++ file_bytes rs.
Proof. done. Qed.

Lemma file_bytes_snoc rs r : file_bytes (rs ++ [r]) = file_bytes rs ++ rec_bytes r.
Proof. rewrite file_bytes_app. unfold file_bytes at 2. simpl. by rewrite app_nil_r. Qed.

Lemma rec_bytes_len r :
  blen (rec_bytes r) = 21 + blen (r_key r) + blen (default [] (r_value r)).
Proof.
  unfold rec_bytes, record_bytes. autorewrite with blen.
  unfold blen at 1. rewrite length_header_encode. unfold HEADER_LEN. lia.
Qed.

Lemma rec_bytes_split r :
  rec_bytes r = header_encode (record_header (r_key r) (r_value r) (r_tstamp r)) ++
    r_key r ++ default [] (r_value r).
Proof. done. Qed.

(** What the scanner reports for a record found at [offset]. *)
Definition scanned_at (offset : N) (r : Rec) : Scanned :=
  mkScanned offset (blen (rec_bytes r)) (record_header (r_key r) (r_value r) (r_tstamp r)) (r_key r).

Lemma read_full_app l r n : n = blen l → read_full n (l ++ r) = (l, r).
Proof.
  intros ->. unfold read_full, blen. by rewrite Nat2N.id, take_app_length, drop_app_length.
Qed.

(** A whole record is read as itself. *)
Lemma next_record_whole r rest offset :
  rec_ok r →
  next_record (mkScanner (rec_bytes r ++ rest) offset) =
    (SRecord (scanned_at offset r), mkScanner rest (offset + blen (rec_bytes r))).
Proof.
  intros (Hok & Hts & Hlen). unfold next_record. cbn [scan_offset scan_rest].
  rewrite rec_bytes_split, <-!(assoc_L (++)).
  set (h := record_header (r_key r) (r_value r) (r_tstamp r)).
  assert (blen (header_encode h) = 21) as Hh by (unfold blen; by rewrite length_header_encode).
  rewrite (read_full_app (header_encode h)) by (by rewrite Hh). rewrite Hh. cbn [N.eqb N.ltb].
  change (21 =? 0) with false. change (21 <? N.of_nat HEADER_LEN) with false. cbv iota.
  rewrite header_decode_encode_exact by (by apply record_header_wf).
  rewrite (read_full_app (r_key r)) by done. rewrite (proj2 (N.ltb_ge _ _)) by (simpl; lia).
  rewrite (read_full_app (default [] (r_value r))) by done. rewrite (proj2 (N.ltb_ge _ _)) by (simpl; lia).
  unfold h at 1. rewrite record_verify. cbn [negb].
  assert (record_len h = blen (rec_bytes r)) as Hrl by (unfold rec_bytes, h; by rewrite record_bytes_len).
  rewrite Hrl. unfold scanned_at, as_u32. rewrite N.mod_small by done. done.
Qed.

(** Too little for a header is torn, whatever it is. *)
Lemma next_record_short tail offset :
  blen tail < N.of_nat HEADER_LEN → tail ≠ [] →
  ∃ detail s', next_record (mkScanner tail offset) = (STorn offset detail, s').
Proof.
  intros Hs Hnil. unfold next_record, read_full. cbn [scan_offset scan_rest].
  rewrite take_ge by (unfold blen in *; lia).
  destruct (N.eqb_spec (blen tail) 0) as [E%blen_0|]; [done|].
  rewrite (proj2 (N.ltb_lt _ _)) by done. by eauto.
Qed.

(** A record cut short is torn, wherever the cut. *)
Lemma next_record_cut r tail offset :
  rec_ok r → tail `prefix_of` rec_bytes r → tail ≠ rec_bytes r → tail ≠ [] →
  ∃ detail s', next_record (mkScanner tail offset) = (STorn offset detail, s').
Proof.
  intros (Hok & Hts & _) [rest Hpre] Hne Hnil.
  destruct (decide (21 ≤ blen tail)) as [Hlong|Hshort]; [|apply next_record_short; [unfold HEADER_LEN; lia|done]].
  unfold next_record. cbn [scan_offset scan_rest].
  set (h := record_header (r_key r) (r_value r) (r_tstamp r)).
  assert (blen (header_encode h) = 21) as Hh by (unfold blen; by rewrite length_header_encode).
  assert (rest ≠ []) as Hrest by (intros ->; rewrite app_nil_r in Hpre; congruence).
  rewrite rec_bytes_split in Hpre. fold h in Hpre.
  assert (∃ t, tail = header_encode h ++ t ∧ r_key r ++ default [] (r_value r) = t ++ rest) as (t & -> & Ht).
  { exists (drop HEADER_LEN tail).
    assert (take HEADER_LEN tail = header_encode h) as Htake.
    { rewrite <-(take_app_le tail rest) by (unfold blen, HEADER_LEN in *; lia). rewrite <-Hpre.
      apply take_app_length'. by rewrite length_header_encode. }
    split; [by rewrite <-Htake, take_drop|].
    apply (f_equal (drop HEADER_LEN)) in Hpre.
    rewrite drop_app_length' in Hpre by (by rewrite length_header_encode).
    rewrite drop_app_le in Hpre by (unfold blen, HEADER_LEN in *; lia). done. }
  rewrite (read_full_app (header_encode h)) by (by rewrite Hh). rewrite Hh.
  change (21 =? 0) with false. change (21 <? N.of_nat HEADER_LEN) with false. cbv iota.
  rewrite header_decode_encode_exact by (by apply record_header_wf).
  unfold read_full. change (hdr_key_len h) with (blen (r_key r)).
  change (hdr_value_len h) with (blen (default [] (r_value r))).
  destruct (N.ltb_spec (blen (take (N.to_nat (blen (r_key r))) t)) (blen (r_key r))) as [|Hk]; [by eauto|].
  destruct (N.ltb_spec (blen (take (N.to_nat (blen (default [] (r_value r))))
    (drop (N.to_nat (blen (r_key r))) t))) (blen (default [] (r_value r)))) as [|Hv]; [by eauto|].
  exfalso. apply Hrest. apply (f_equal length) in Ht. rewrite !length_app in Ht.
  unfold blen in *. rewrite length_take in Hk. rewrite length_take, length_drop in Hv.
  destruct rest; [done|]. simpl in Ht. lia.
Qed.
