(* ===== verification/HintFile.v ===== *)
(** * Hint files: the index of a data file (src/hint.rs)

    What is written, what is believed when it is read back, and that the two
    agree; anything else is ignored, never an error. *)

From S2P Require Import Prelude.
From S2P Require Import Crc.
From S2P Require Import RecordFormat.
From S2P Require Import DataLog.

#[local] Open Scope N_scope.

Definition HINT_HEADER_LEN : N := 4 + 8.
Definition ENTRY_FIXED : N := 8 + 4 + 8 + 1 + 4.

Record HintEntry := mkHintEntry {
  he_key : bytes;
  he_offset : N;
  he_len : N;
  he_tstamp : N;
  he_tombstone : bool;
}.

#[export] Instance HintEntry_eq_decision : EqDecision HintEntry.
Proof. solve_decision. Defined.

Definition hint_entry_bytes (e : HintEntry) : bytes :=
  to_le 8 (he_offset e) ++ to_le 4 (he_len e) ++ to_le 8 (he_tstamp e) ++
  [if he_tombstone e then u8 FLAG_TOMBSTONE else x00] ++
  to_le 4 (as_u32 (blen (he_key e))) ++ he_key e.

(** The file [hint::write] writes. *)
Definition hint_bytes (data_len : N) (entries : list HintEntry) : bytes :=
  let body := to_le 8 data_len ++ mjoin (hint_entry_bytes <$> entries) in
  to_le 4 (crc32_parts [body]) ++ body.

Definition hint_write (file_id data_len : N) (entries : list HintEntry) (d : Dir) : Dir :=
  set_hint (λ m, <[file_id := hint_bytes data_len entries]> m) d.

(** One turn of the loop of [load]. *)
Definition hint_entry_read : parser HintEntry :=
  fixed ← p_take ENTRY_FIXED;
  let offset := of_le (slice 0 8 fixed) in
  let len := of_le (slice 8 12 fixed) in
  let tstamp := of_le (slice 12 20 fixed) in
  let flags := default x00 (fixed !! 20%nat) in
  let key_len := of_le (slice 21 25 fixed) in
  key ← p_take key_len;
  mret (mkHintEntry key offset len tstamp (negb (N.land (Byte.to_N flags) FLAG_TOMBSTONE =? 0))).

(** The loop of [load]: an entry takes 25 bytes or more, so [fuel] at the number of
    bytes left is enough. *)
Fixpoint hint_load_loop (fuel : nat) (rest : bytes) (covered : N) (entries : list HintEntry)
    : option (list HintEntry * N) :=
  match fuel with
  | O => Some (entries, covered)
  | S fuel =>
      if bool_decide (rest = []) then Some (entries, covered)
      else
        match hint_entry_read rest with
        | None => None
        | Some (e, rest) =>
            if negb (he_offset e =? covered) then None
            else if TWO64 <=? he_offset e + he_len e then None
            else hint_load_loop fuel rest (he_offset e + he_len e) (entries ++ [e])
        end
  end.

(** [hint::load], given the hint file's contents. *)
Definition hint_parse (bs : bytes) (file_len : N) : option (list HintEntry * N) :=
  if blen bs <? HINT_HEADER_LEN then None
  else if negb (crc32_parts [drop 4 bs] =? of_le (slice 0 4 bs)) then None
  else
    let data_len := of_le (slice 4 12 bs) in
    if file_len <? data_len then None
    else
      let rest := drop (N.to_nat HINT_HEADER_LEN) bs in
      match hint_load_loop (length rest) rest 0 [] with
      | None => None
      | Some (entries, covered) => if covered =? data_len then Some (entries, data_len) else None
      end.

Definition hint_load (d : Dir) (file_id file_len : N) : option (list HintEntry * N) :=
  match d_hint d !! file_id with
  | None => None
  | Some bs => hint_parse bs file_len
  end.

(** ** Hints that describe a file *)

(** Entries that lie one after another from [at_] up to [end_]. *)
Fixpoint tiles (at_ : N) (entries : list HintEntry) (end_ : N) : Prop :=
  match entries with
  | [] => at_ = end_
  | e :: entries => he_offset e = at_ ∧ tiles (at_ + he_len e) entries end_
  end.

Definition hint_entry_wf (e : HintEntry) : Prop :=
  is_u64 (he_offset e + he_len e) ∧ is_u32 (he_len e) ∧ is_u64 (he_tstamp e) ∧ is_u32 (blen (he_key e)).

Lemma hint_entry_bytes_len e : blen (hint_entry_bytes e) = ENTRY_FIXED + blen (he_key e).
Proof. unfold hint_entry_bytes. autorewrite with blen. unfold ENTRY_FIXED. lia. Qed.

Lemma hint_entry_read_app e rest :
  hint_entry_wf e → hint_entry_read (hint_entry_bytes e ++ rest) = Some (e, rest).
Proof.
  intros (Ho & Hl & Ht & Hk). unfold hint_entry_read, hint_entry_bytes, as_u32.
  rewrite N.mod_small by done.
  set (flag := if he_tombstone e then u8 FLAG_TOMBSTONE else x00).
  set (fixed := to_le 8 (he_offset e) ++ to_le 4 (he_len e) ++ to_le 8 (he_tstamp e) ++ [flag] ++
    to_le 4 (blen (he_key e))).
  replace ((to_le 8 (he_offset e) ++ to_le 4 (he_len e) ++ to_le 8 (he_tstamp e) ++ [flag] ++
    to_le 4 (blen (he_key e)) ++ he_key e) ++ rest) with (fixed ++ he_key e ++ rest)
    by (unfold fixed; by rewrite <-!(assoc_L (++))).
  erewrite p_bind_Some; [|apply p_take_app; unfold fixed; autorewrite with blen; done].
  cbv zeta.
  assert (of_le (slice 0 8 fixed) = he_offset e) as ->.
  { unfold fixed. rewrite slice_here by done. apply of_le_to_le_u64. unfold is_u64 in *. lia. }
  assert (of_le (slice 8 12 fixed) = he_len e) as ->.
  { unfold fixed. rewrite slice_skip, slice_here by done. by apply of_le_to_le_u32. }
  assert (of_le (slice 12 20 fixed) = he_tstamp e) as ->.
  { unfold fixed. rewrite slice_skip, slice_skip, slice_here by done. by apply of_le_to_le_u64. }
  assert (fixed !! 20%nat = Some flag) as ->.
  { unfold fixed. do 3 (rewrite lookup_app_r by (rewrite length_to_le; lia); rewrite length_to_le). done. }
  assert (of_le (slice 21 25 fixed) = blen (he_key e)) as ->.
  { unfold fixed. rewrite !(assoc_L (++)), slice_end by done. by apply of_le_to_le_u32. }
  erewrite p_bind_Some; [|by apply p_take_app]. unfold flag. destruct e as [? ? ? ? []]; done.
Qed.

Lemma hint_load_loop_app entries fuel covered end_ acc :
  Forall hint_entry_wf entries → tiles covered entries end_ →
  (length (mjoin (hint_entry_bytes <$> entries)) ≤ fuel)%nat →
  hint_load_loop fuel (mjoin (hint_entry_bytes <$> entries)) covered acc = Some (acc ++ entries, end_).
Proof.
  revert fuel covered acc. induction entries as [|e entries IH]; intros fuel covered acc Hwf Ht Hfuel.
  - simpl in *. subst. rewrite app_nil_r. by destruct fuel.
  - change (mjoin (hint_entry_bytes <$> e :: entries))
      with (hint_entry_bytes e ++ mjoin (hint_entry_bytes <$> entries)) in *.
    apply Forall_cons_1 in Hwf as [He Hwf]. destruct Ht as [Ho Ht].
    pose proof (hint_entry_bytes_len e) as Hlen. unfold ENTRY_FIXED, blen in Hlen.
    rewrite length_app in Hfuel. destruct fuel as [|fuel]; [lia|]. cbn [hint_load_loop].
    rewrite bool_decide_false by (intros E; apply (f_equal length) in E; rewrite length_app in E; cbn [length] in E; lia).
    rewrite hint_entry_read_app by done. rewrite Ho, N.eqb_refl. cbn [negb].
    destruct He as (Hb & _). rewrite Ho in Hb. rewrite (proj2 (N.leb_gt _ _)) by done.
    rewrite IH; [by rewrite <-(assoc_L (++))|done|done|lia].
Qed.

Lemma hint_parse_bytes (data_len file_len : N) (entries : list HintEntry) :
  is_u64 data_len → Forall hint_entry_wf entries → tiles 0 entries data_len →
  hint_parse (hint_bytes data_len entries) file_len =
    if bool_decide (data_len ≤ file_len) then Some (entries, data_len) else None.
Proof.
  intros Hd Hwf Ht. unfold hint_parse, hint_bytes.
  set (body := to_le 8 data_len ++ mjoin (hint_entry_bytes <$> entries)).
  assert (blen body = 8 + blen (mjoin (hint_entry_bytes <$> entries))) as Hb
    by (unfold body; autorewrite with blen; done).
  rewrite (proj2 (N.ltb_ge _ _)) by (autorewrite with blen; rewrite Hb; unfold HINT_HEADER_LEN; lia).
  assert (drop 4 (to_le 4 (crc32_parts [body]) ++ body) = body) as ->.
  { apply drop_app_length'. by rewrite length_to_le. }
  rewrite slice_here, of_le_to_le_u32 by (done || apply crc32_parts_u32). rewrite N.eqb_refl. cbn [negb].
  assert (of_le (slice 4 12 (to_le 4 (crc32_parts [body]) ++ body)) = data_len) as ->.
  { rewrite slice_skip by done. unfold body. rewrite slice_here by done. by apply of_le_to_le_u64. }
  assert (drop (N.to_nat HINT_HEADER_LEN) (to_le 4 (crc32_parts [body]) ++ body)
    = mjoin (hint_entry_bytes <$> entries)) as ->.
  { unfold body. rewrite (assoc_L (++)). apply drop_app_length'. by autorewrite with len. }
  rewrite (hint_load_loop_app _ _ 0 data_len []) by done. rewrite N.eqb_refl.
  destruct (N.ltb_spec file_len data_len); [rewrite bool_decide_false|rewrite bool_decide_true]; (done || lia).
Qed.

(** What is written is what is read. A hint that tiles its data file, read back
    when the file has at least that length, gives exactly the entries written and the
    length they cover; read back when the file is shorter, it is ignored. *)
Theorem hint_roundtrip (data_len file_len : N) (entries : list HintEntry) :
  is_u64 data_len → Forall hint_entry_wf entries → tiles 0 entries data_len →
  hint_parse (hint_bytes data_len entries) file_len =
    if bool_decide (data_len ≤ file_len) then Some (entries, data_len) else None.
Proof. apply hint_parse_bytes. Qed.

Lemma hint_roundtrip_witness :
  let es := [mkHintEntry (lit "a") 0 23 5 false; mkHintEntry (lit "a") 23 22 6 true] in
  hint_parse (hint_bytes 45 es) 100 = Some (es, 45).
Proof.
  intros es. rewrite (hint_roundtrip 45 100 es); [done|done| |done].
  repeat constructor; done.
Defined.

(** ** Whatever a hint file holds, what is believed tiles the data file *)

Lemma hint_load_loop_tiles fuel rest covered acc entries end_ :
  hint_load_loop fuel rest covered acc = Some (entries, end_) →
  ∃ es, entries = acc ++ es ∧ tiles covered es end_.
Proof.
  revert rest covered acc. induction fuel as [|fuel IH]; intros rest covered acc E; simpl in E.
  - injection E as <- <-. exists []. by rewrite app_nil_r.
  - case_bool_decide; [injection E as <- <-; exists []; by rewrite app_nil_r|].
    destruct (hint_entry_read rest) as [[e rest']|]; [|done].
    destruct (N.eqb_spec (he_offset e) covered) as [Ho|]; [|done]. cbn [negb] in E.
    destruct (_ <=? _); [done|]. apply IH in E as (es & -> & Ht).
    exists (e :: es). rewrite <-(assoc_L (++)). split; [done|]. split; [done|]. by rewrite <-Ho.
Qed.

(** A hint is never believed beyond its data file. Whatever bytes a hint file
    holds, if it is believed at all then its entries lie one after another from the
    start of the data file, cover exactly the length claimed, and that length is
    within the file; and one whose checksum does not match is not believed. *)
Theorem hint_believed_tiles (bs : bytes) (file_len : N) (entries : list HintEntry) (data_len : N) :
  hint_parse bs file_len = Some (entries, data_len) →
  tiles 0 entries data_len ∧ data_len ≤ file_len ∧
  crc32_parts [drop 4 bs] = of_le (take 4 bs) ∧ of_le (slice 4 12 bs) = data_len.
Proof.
  unfold hint_parse. destruct (_ <? _); [done|].
  destruct (N.eqb_spec (crc32_parts [drop 4 bs]) (of_le (slice 0 4 bs))) as [Hc|]; [|done]. cbn [negb].
  destruct (N.ltb_spec file_len (of_le (slice 4 12 bs))); [done|].
  destruct (hint_load_loop _ _ _ _) as [[es c]|] eqn:E; [|done].
  destruct (N.eqb_spec c (of_le (slice 4 12 bs))) as [->|]; [|done]. intros [= <- <-].
  apply hint_load_loop_tiles in E as (es' & -> & Ht). split_and!; [done|done| |done].
  rewrite Hc. done.
Qed.

Lemma hint_believed_tiles_witness :
  tiles 0 [mkHintEntry (lit "a") 0 23 5 false] 23.
Proof.
  apply (hint_believed_tiles (hint_bytes 23 [mkHintEntry (lit "a") 0 23 5 false]) 30).
  by vm_compute.
Defined.
