(* ===== verification/Store.v ===== *)
(** * The store (src/store.rs)

    An in-memory index over a set of append-only files: opening, reads, writes,
    rollover, the two compactions, restoring and views. A store runs in the state
    and error monad [M Store]; its directory is part of its state. The clock is an
    argument, twice per write as the source reads it twice. The order in which a
    [HashMap] gives its keys is unspecified, so the list of files a compaction
    replaces is an argument too. A file handle is the id of a file that exists; a
    view, which may outlive the files, keeps their contents. *)

From S2P Require Import Prelude.
From S2P Require Import Crc.
From S2P Require Import RecordFormat.
From S2P Require Import DataLog.
From S2P Require Import HintFile.

#[local] Open Scope N_scope.

Record Location := mkLocation {
  loc_file_id : N;
  loc_offset : N;
  loc_len : N;
  loc_tstamp : N;
}.

#[export] Instance Location_eq_decision : EqDecision Location.
Proof. solve_decision. Defined.

Record Options := mkOptions {
  o_sync : SyncPolicy;
  o_max_file_bytes : N;
  o_verify_on_open : bool;
}.

Definition Options_default : Options := mkOptions EveryWrite (64 * 1024 * 1024) false.

Record Stats := mkStats {
  st_keys : N;
  st_files : N;
  st_live_bytes : N;
  st_disk_bytes : N;
}.

(** [saturating_sub], which is subtraction on [N]. *)
Definition reclaimable_bytes (s : Stats) : N := st_disk_bytes s - st_live_bytes s.

Record CompactReport := mkCompactReport {
  cr_files_before : N;
  cr_bytes_before : N;
  cr_bytes_after : N;
}.

Definition reclaimed_bytes (r : CompactReport) : N := cr_bytes_before r - cr_bytes_after r.

Record Store := mkStore {
  s_dir : Dir;
  s_keydir : gmap bytes Location;
  s_readers : gset N;
  s_writer : LogWriter;
  s_opts : Options;
  s_live_bytes : N;
  s_disk_bytes : N;
  s_sealed_synced : gmap N N;
  s_active_hints : list HintEntry;
  s_scanned_at_open : N;
  s_compacting : bool;
  s_restoring : bool;
}.

Definition s_set_dir (x : Dir) (s : Store) : Store :=
  mkStore x (s_keydir s) (s_readers s) (s_writer s) (s_opts s) (s_live_bytes s) (s_disk_bytes s) (s_sealed_synced s) (s_active_hints s) (s_scanned_at_open s) (s_compacting s) (s_restoring s).
Definition s_set_keydir (x : gmap bytes Location) (s : Store) : Store :=
  mkStore (s_dir s) x (s_readers s) (s_writer s) (s_opts s) (s_live_bytes s) (s_disk_bytes s) (s_sealed_synced s) (s_active_hints s) (s_scanned_at_open s) (s_compacting s) (s_restoring s).
Definition s_set_readers (x : gset N) (s : Store) : Store :=
  mkStore (s_dir s) (s_keydir s) x (s_writer s) (s_opts s) (s_live_bytes s) (s_disk_bytes s) (s_sealed_synced s) (s_active_hints s) (s_scanned_at_open s) (s_compacting s) (s_restoring s).
Definition s_set_writer (x : LogWriter) (s : Store) : Store :=
  mkStore (s_dir s) (s_keydir s) (s_readers s) x (s_opts s) (s_live_bytes s) (s_disk_bytes s) (s_sealed_synced s) (s_active_hints s) (s_scanned_at_open s) (s_compacting s) (s_restoring s).
Definition s_set_live_bytes (x : N) (s : Store) : Store :=
  mkStore (s_dir s) (s_keydir s) (s_readers s) (s_writer s) (s_opts s) x (s_disk_bytes s) (s_sealed_synced s) (s_active_hints s) (s_scanned_at_open s) (s_compacting s) (s_restoring s).
Definition s_set_disk_bytes (x : N) (s : Store) : Store :=
  mkStore (s_dir s) (s_keydir s) (s_readers s) (s_writer s) (s_opts s) (s_live_bytes s) x (s_sealed_synced s) (s_active_hints s) (s_scanned_at_open s) (s_compacting s) (s_restoring s).
Definition s_set_sealed_synced (x : gmap N N) (s : Store) : Store :=
  mkStore (s_dir s) (s_keydir s) (s_readers s) (s_writer s) (s_opts s) (s_live_bytes s) (s_disk_bytes s) x (s_active_hints s) (s_scanned_at_open s) (s_compacting s) (s_restoring s).
Definition s_set_active_hints (x : list HintEntry) (s : Store) : Store :=
  mkStore (s_dir s) (s_keydir s) (s_readers s) (s_writer s) (s_opts s) (s_live_bytes s) (s_disk_bytes s) (s_sealed_synced s) x (s_scanned_at_open s) (s_compacting s) (s_restoring s).
Definition s_set_compacting (x : bool) (s : Store) : Store :=
  mkStore (s_dir s) (s_keydir s) (s_readers s) (s_writer s) (s_opts s) (s_live_bytes s) (s_disk_bytes s) (s_sealed_synced s) (s_active_hints s) (s_scanned_at_open s) x (s_restoring s).
Definition s_set_restoring (x : bool) (s : Store) : Store :=
  mkStore (s_dir s) (s_keydir s) (s_readers s) (s_writer s) (s_opts s) (s_live_bytes s) (s_disk_bytes s) (s_sealed_synced s) (s_active_hints s) (s_scanned_at_open s) (s_compacting s) x.


(** ** Opening *)

(** The loop over [scanner.next_record], with the entries found so far: where the file
    is torn, if it is. A record takes 21 bytes or more, so [fuel] above the number of
    bytes left is enough. *)
Fixpoint scan_loop (fuel : nat) (scanner : Scanner) (entries : list HintEntry)
    : list HintEntry * option (N * string) :=
  match fuel with
  | O => (entries, None)
  | S fuel =>
      match next_record scanner with
      | (SRecord rec, scanner) =>
          scan_loop fuel scanner (entries ++ [mkHintEntry (sc_key rec) (sc_offset rec) (sc_len rec)
            (hdr_tstamp (sc_header rec)) (is_tombstone (sc_header rec))])
      | (SEof, _) => (entries, None)
      | (STorn offset detail, _) => (entries, Some (offset, detail))
      end
  end.

Definition truncate_at (file_id offset : N) (d : Dir) : Dir :=
  set_data (λ m, <[file_id := take (N.to_nat offset) (data_file d file_id)]> m) d.

(** The index and the byte counts while files are being replayed. *)
Record Indexing := mkIndexing {
  ix_keydir : gmap bytes Location;
  ix_live_bytes : N;
  ix_disk_bytes : N;
}.

Definition index_entry (file_id : N) (ix : Indexing) (e : HintEntry) : Indexing :=
  let disk := ix_disk_bytes ix + he_len e in
  let live := match ix_keydir ix !! he_key e with
              | Some old => ix_live_bytes ix - loc_len old
              | None => ix_live_bytes ix
              end in
  if he_tombstone e then mkIndexing (delete (he_key e) (ix_keydir ix)) live disk
  else mkIndexing
    (<[he_key e := mkLocation file_id (he_offset e) (he_len e) (he_tstamp e)]> (ix_keydir ix))
    (live + he_len e) disk.

Record Opening := mkOpening {
  op_dir : Dir;
  op_index : Indexing;
  op_readers : gset N;
  op_active_hints : list HintEntry;
  op_scanned : N;
}.

(** The body of the loop over the data files, oldest first. *)
Definition open_file (opts : Options) (newest : option N) (file_id : N) : M Opening unit := λ o,
  let d := op_dir o in
  let is_newest := bool_decide (Some file_id = newest) in
  let file := data_file d file_id in
  let file_len := blen file in
  let '(entries, hinted) :=
    if o_verify_on_open opts then ([], 0)
    else default ([], 0) (hint_load d file_id file_len) in
  let finish d entries scanned :=
    (Ok tt, mkOpening d (foldl (index_entry file_id) (op_index o) entries)
      ({[file_id]} ∪ op_readers o)
      (if is_newest then entries else op_active_hints o) scanned) in
  if hinted <? file_len then
    let scanned := op_scanned o + (file_len - hinted) in
    let '(entries, torn) := scan_loop (S (length file)) (Scanner_open_at file hinted) entries in
    match torn with
    | Some (offset, detail) =>
        if negb is_newest then
          (Err (Corrupt file_id offset detail),
           mkOpening d (op_index o) (op_readers o) (op_active_hints o) scanned)
        else finish (truncate_at file_id offset d) entries scanned
    | None =>
        if negb is_newest then finish (hint_write file_id file_len entries d) entries scanned
        else finish d entries scanned
    end
  else finish d entries (op_scanned o).

(** What the directory is cleared of before anything is read: merges that were never
    renamed into place, and hints whose data file is gone. *)
Definition clear_leftovers (d : Dir) : Dir :=
  set_hint (filter (λ kv, kv.1 ∈ list_data_files d)) (set_part (λ _, ∅) d).

Definition open_with (opts : Options) (d : Dir) : result Store * Dir :=
  let file_ids := list_data_files d in
  let newest := list.last file_ids in
  match miter (open_file opts newest) file_ids
          (mkOpening (clear_leftovers d) (mkIndexing ∅ 0 0) ∅ [] 0) with
  | (Err e, o) => (Err e, op_dir o)
  | (Ok _, o) =>
      let active_id := default 1 newest in
      let '(d, writer) := LogWriter_open active_id (op_dir o) in
      (Ok (mkStore d (ix_keydir (op_index o)) ({[active_id]} ∪ op_readers o) writer opts
         (ix_live_bytes (op_index o)) (ix_disk_bytes (op_index o)) ∅ (op_active_hints o)
         (op_scanned o) false false), d)
  end.

(** ** Syncing *)

(** Run a step of the writer on the store's directory and writer. *)
Definition on_writer {A} (f : Dir * LogWriter → A * (Dir * LogWriter)) (s : Store) : A * Store :=
  let '(a, (d, w)) := f (s_dir s, s_writer s) in (a, s_set_dir d (s_set_writer w s)).

Definition writer_flush (s : Store) : Store := (on_writer (λ dw, (tt, LogWriter_flush dw)) s).2.
Definition store_sync (s : Store) : Store := (on_writer (λ dw, (tt, LogWriter_sync dw)) s).2.

Definition append_point (s : Store) : N * N := (lw_file_id (s_writer s), lw_offset (s_writer s)).

(** [sync_handle], with the point the handle makes durable. *)
Definition sync_handle (s : Store) : (N * N) * Store :=
  let s := writer_flush s in (append_point s, s).

Definition note_synced (point : N * N) (s : Store) : Store :=
  let w := s_writer s in
  if (point.1 =? lw_file_id w) && (lw_synced w <? point.2) then
    s_set_writer (mkLogWriter (lw_file_id w) (lw_offset w) (lw_written w) point.2 (lw_pending w)) s
  else s.

Definition is_synced (s : Store) : bool := lw_synced (s_writer s) =? lw_offset (s_writer s).

(** ** Ends of a store: closed, killed, or cut off from power *)

(** [Drop] of the writer flushes its buffer. *)
Definition store_close (s : Store) : Dir := s_dir (writer_flush s).

(** The process is killed: the buffer is gone, the kernel's files stay. *)
Definition store_kill (s : Store) : Dir := s_dir s.

(** The kernel's cache goes too: no file keeps more than what was synced. *)
Definition simulate_power_cut (s : Store) : Dir :=
  let cut id synced d :=
    match d_data d !! id with
    | Some file => set_data (λ m, <[id := take (N.to_nat (N.min (blen file) synced)) file]> m) d
    | None => d
    end in
  let s := s_set_writer (LogWriter_discard_buffer (s_writer s)) s in
  cut (lw_file_id (s_writer s)) (lw_synced (s_writer s))
    (map_fold cut (s_dir s) (s_sealed_synced s)).

(** ** Reading *)

(** Check a record's bytes and take its value out of them. *)
Definition decode_value (bs : bytes) (loc : Location) : result bytes :=
  let corrupt detail := Err (Corrupt (loc_file_id loc) (loc_offset loc) detail) in
  if blen bs <? N.of_nat HEADER_LEN then corrupt "record shorter than a header"
  else
    let header := header_decode (take HEADER_LEN bs) in
    if negb (record_len header =? blen bs) then corrupt "record header does not match its length"
    else
      let key_end := N.of_nat HEADER_LEN + hdr_key_len header in
      let value := drop (N.to_nat key_end) bs in
      if negb (verify header (slice (N.of_nat HEADER_LEN) key_end bs) value)
      then corrupt "checksum mismatch on read"
      else Ok value.

(** [read_value], given the contents of the files that are open. *)
Definition read_value (readers : N → option bytes) (loc : Location) : result bytes :=
  match readers (loc_file_id loc) with
  | None => Err (Corrupt (loc_file_id loc) (loc_offset loc) "index points at a data file that is not open")
  | Some file => bs ← read_at file (loc_offset loc) (loc_len loc); decode_value bs loc
  end.

Definition open_reader (s : Store) (id : N) : option bytes :=
  if bool_decide (id ∈ s_readers s) then Some (data_file (s_dir s) id) else None.

Definition store_get (s : Store) (key : bytes) : result (option bytes) :=
  match s_keydir s !! key with
  | None => Ok None
  | Some loc =>
      let buffered :=
        if loc_file_id loc =? lw_file_id (s_writer s)
        then LogWriter_buffered (s_writer s) (loc_offset loc) (loc_len loc) else None in
      Some <$> match buffered with
               | Some bs => decode_value bs loc
               | None => read_value (open_reader s) loc
               end
  end.

Definition contains_key (s : Store) (key : bytes) : bool := bool_decide (is_Some (s_keydir s !! key)).

Definition store_stats (s : Store) : Stats :=
  mkStats (N.of_nat (size (s_keydir s))) (N.of_nat (size (s_readers s))) (s_live_bytes s) (s_disk_bytes s).

(** ** Writing *)

Definition restore_in_progress : Error :=
  Io "the store is being restored and takes no writes until it is done".
Definition compaction_in_progress : Error := Io "a compaction is already in progress".

Definition store_reach (s : Store) : Reach :=
  match o_sync (s_opts s) with EveryWrite => Disk | OsCache => Kernel end.

(** Sync the active file and leave it a hint. *)
Definition seal_active (s : Store) : Store :=
  let s := store_sync s in
  let w := s_writer s in
  let hints := s_active_hints s in
  s_set_dir (hint_write (lw_file_id w) (lw_offset w) hints (s_dir s))
    (s_set_active_hints []
      (s_set_sealed_synced (<[lw_file_id w := lw_synced w]> (s_sealed_synced s)) s)).

(** Move writing to data file [id]. *)
Definition open_active (id : N) (s : Store) : Store :=
  let '(d, w) := LogWriter_open id (s_dir s) in
  s_set_readers ({[id]} ∪ s_readers s) (s_set_writer w (s_set_dir d s)).

Definition roll_if_needed (incoming : N) (s : Store) : Store :=
  let w := s_writer s in
  if (lw_offset w =? 0) || (lw_offset w + incoming <=? o_max_file_bytes (s_opts s)) then s
  else
    let next_id := lw_file_id w + 1 in
    open_active next_id (seal_active s).

(** Drop a key from the index, with the bytes that were live through it. *)
Definition keydir_remove (key : bytes) (s : Store) : Store :=
  match s_keydir s !! key with
  | Some old => s_set_live_bytes (s_live_bytes s - loc_len old)
                  (s_set_keydir (delete key (s_keydir s)) s)
  | None => s
  end.

(** The part [put_with] and [delete_with] share: append the record and note it. *)
Definition append_record (key bs : bytes) (tombstone : bool) (reach : Reach) (tstamp : N) (s : Store)
    : Location * Store :=
  let s := roll_if_needed (blen bs) s in
  let '((offset, len), s) := on_writer (LogWriter_append bs reach) s in
  let s := s_set_active_hints (s_active_hints s ++ [mkHintEntry key offset len tstamp tombstone]) s in
  let s := s_set_disk_bytes (s_disk_bytes s + len) s in
  (mkLocation (lw_file_id (s_writer s)) offset len tstamp, keydir_remove key s).

(** [now] is the clock when the record is encoded, [now'] when the index notes it. *)
Definition put_with (key value : bytes) (reach : Reach) (now now' : N) : M Store unit := λ s,
  if s_restoring s then (Err restore_in_progress, s)
  else
    match record_encode key (Some value) now with
    | Err e => (Err e, s)
    | Ok bs =>
        let '(loc, s) := append_record key bs false reach now' s in
        (Ok tt, s_set_keydir (<[key := loc]> (s_keydir s))
                  (s_set_live_bytes (s_live_bytes s + loc_len loc) s))
    end.

Definition store_put (key value : bytes) (now now' : N) : M Store unit := λ s,
  put_with key value (store_reach s) now now' s.
Definition put_deferred (key value : bytes) (now now' : N) : M Store unit :=
  put_with key value Buffer now now'.

Definition delete_with (key : bytes) (reach : Reach) (now now' : N) : M Store bool := λ s,
  if s_restoring s then (Err restore_in_progress, s)
  else if negb (contains_key s key) then (Ok false, s)
  else
    match record_encode key None now with
    | Err e => (Err e, s)
    | Ok bs => let '(_, s) := append_record key bs true reach now' s in (Ok true, s)
    end.

Definition store_delete (key : bytes) (now now' : N) : M Store bool := λ s,
  delete_with key (store_reach s) now now' s.
Definition delete_deferred (key : bytes) (now now' : N) : M Store bool :=
  delete_with key Buffer now now'.

(** ** Compaction in place *)

Definition loc_le (a c : bytes * Location) : Prop :=
  loc_file_id a.2 < loc_file_id c.2 ∨
  loc_file_id a.2 = loc_file_id c.2 ∧ loc_offset a.2 ≤ loc_offset c.2.

#[export] Instance loc_le_dec : RelDecision loc_le.
Proof. intros a c. unfold loc_le. apply _. Defined.

(** The index, in file order. *)
Definition entries_in_file_order (s : Store) : list (bytes * Location) :=
  merge_sort loc_le (map_to_list (s_keydir s)).

Record Merging := mkMerging {
  mg_index : gmap bytes Location;
  mg_hints : list HintEntry;
  mg_bytes : N;
}.

(** The loop of [compact]: copy each live record to the end of the merged file. *)
Definition merge_entry (s : Store) (merged_id : N) (x : bytes * Location)
    : M (Merging * (Dir * LogWriter)) unit := λ g,
  let '(mg, dw) := g in
  let '(key, loc) := x in
  match open_reader s (loc_file_id loc) with
  | None => (Err (Corrupt (loc_file_id loc) (loc_offset loc) "index points at a data file that is not open"), g)
  | Some file =>
      match read_at file (loc_offset loc) (loc_len loc) with
      | Err e => (Err e, g)
      | Ok bs =>
          let '((offset, len), dw) := LogWriter_append bs Buffer dw in
          (Ok tt, (mkMerging (<[key := mkLocation merged_id offset len (loc_tstamp loc)]> (mg_index mg))
                     (mg_hints mg ++ [mkHintEntry key offset len (loc_tstamp loc) false])
                     (mg_bytes mg + len), dw))
      end
  end.

(** Close and delete a file the merge replaced: its hint goes first. *)
Definition remove_file (id : N) (s : Store) : Store :=
  s_set_readers (s_readers s ∖ {[id]})
    (s_set_sealed_synced (delete id (s_sealed_synced s))
      (s_set_dir (set_data (delete id) (set_hint (delete id) (s_dir s))) s)).

(** [old_ids] are the keys of [readers], in the order the map gives them. *)
Definition compact (old_ids : list N) : M Store CompactReport := λ s,
  if s_compacting s || s_restoring s then (Err compaction_in_progress, s)
  else
    let s := writer_flush s in
    let before := store_stats s in
    let merged_id := foldr N.max 0 old_ids + 1 in
    match miter (merge_entry s merged_id) (entries_in_file_order s)
            (mkMerging ∅ [] 0, LogWriter_open merged_id (s_dir s)) with
    | (Err e, (_, dw)) => (Err e, s_set_dir (LogWriter_flush dw).1 s)
    | (Ok _, (mg, dw)) =>
        let '(d, writer) := LogWriter_sync dw in
        let d := hint_write merged_id (lw_offset writer) (mg_hints mg) d in
        let s := foldl (λ s id, remove_file id s) (s_set_dir d s) old_ids in
        let s := s_set_readers ({[merged_id]} ∪ s_readers s) (s_set_keydir (mg_index mg)
                   (s_set_active_hints (mg_hints mg) (s_set_writer writer
                     (s_set_live_bytes (mg_bytes mg) (s_set_disk_bytes (mg_bytes mg) s))))) in
        (Ok (mkCompactReport (st_files before) (st_disk_bytes before) (mg_bytes mg)), s)
    end.

(** ** Views *)

Record StoreView := mkStoreView {
  sv_entries : list (bytes * Location);
  sv_readers : gmap N bytes;
}.

(** The order on keys: byte by byte. *)
Fixpoint bytes_leb (a c : bytes) : bool :=
  match a, c with
  | [], _ => true
  | _ :: _, [] => false
  | x :: a, y :: c =>
      if Byte.to_N x =? Byte.to_N y then bytes_leb a c else Byte.to_N x <? Byte.to_N y
  end.

Definition key_le (a c : bytes * Location) : Prop := bytes_leb a.1 c.1 = true.

#[export] Instance key_le_dec : RelDecision key_le.
Proof. intros a c. unfold key_le. apply _. Defined.

Definition bytes_le (a b : bytes) : Prop := bytes_leb a b = true.

#[export] Instance bytes_le_dec : RelDecision bytes_le.
Proof. intros a b. unfold bytes_le. apply _. Defined.

Definition store_keys (s : Store) : list bytes := (map_to_list (s_keydir s)).*1.

Definition store_view (s : Store) : StoreView * Store :=
  let s := writer_flush s in
  (mkStoreView (merge_sort key_le (map_to_list (s_keydir s)))
     (filter (λ kv, kv.1 ∈ s_readers s) (d_data (s_dir s))), s).

(** [for_each]: the callback's state and errors are its own. *)
Definition view_for_each {T} (v : StoreView) (f : bytes → bytes → M T unit) : M T unit :=
  miter (λ x, value ← mlift (read_value (λ id, sv_readers v !! id) x.2); f x.1 value) (sv_entries v).

(** ** Compaction off to the side *)

Record CompactionJob := mkCompactionJob {
  cj_view : StoreView;
  cj_merged_id : N;
  cj_old_ids : list N;
  cj_old_bytes : N;
}.

Record MergedFile := mkMergedFile {
  mf_id : N;
  mf_bytes : N;
  mf_old_ids : list N;
  mf_old_bytes : N;
  mf_moved : list (bytes * Location * Location);
}.

(** Seal the active file and move writing two ids on; the slot left between. *)
Definition seal_leaving_a_slot (s : Store) : N * Store :=
  let sealed := lw_file_id (s_writer s) in
  (sealed + 1, open_active (sealed + 2) (seal_active s)).

(** [old_ids] are the keys of [readers] before the new active file joins them. *)
Definition store_begin_compaction (old_ids : list N) : M Store CompactionJob := λ s,
  if s_compacting s || s_restoring s then (Err compaction_in_progress, s)
  else
    let '(merged_id, s) := seal_leaving_a_slot s in
    let old_bytes := s_disk_bytes s in
    let '(view, s) := store_view s in
    (Ok (mkCompactionJob view merged_id old_ids old_bytes), s_set_compacting true s).

Record Copying := mkCopying {
  cp_file : bytes;
  cp_offset : N;
  cp_moved : list (bytes * Location * Location);
  cp_hints : list HintEntry;
}.

Definition copy_entry (job : CompactionJob) (x : bytes * Location) : M Copying unit := λ c,
  let '(key, loc) := x in
  match sv_readers (cj_view job) !! loc_file_id loc with
  | None => (Err (Corrupt (loc_file_id loc) (loc_offset loc) "index points at a data file that is not open"), c)
  | Some file =>
      match bs ← read_at file (loc_offset loc) (loc_len loc); _ ← decode_value bs loc; Ok bs with
      | Err e => (Err e, c)
      | Ok bs =>
          let new := mkLocation (cj_merged_id job) (cp_offset c) (loc_len loc) (loc_tstamp loc) in
          (Ok tt, mkCopying (cp_file c ++ bs) (cp_offset c + loc_len loc)
             (cp_moved c ++ [(key, loc, new)])
             (cp_hints c ++ [mkHintEntry key (cp_offset c) (loc_len loc) (loc_tstamp loc) false]))
      end
  end.

(** [CompactionJob::run]: written under another name, then renamed into place. *)
Definition compaction_run (job : CompactionJob) : M Dir MergedFile := λ d,
  let id := cj_merged_id job in
  match miter (copy_entry job) (sv_entries (cj_view job)) (mkCopying [] 0 [] []) with
  | (Err e, c) => (Err e, set_part (λ m, <[id := cp_file c]> m) d)
  | (Ok _, c) =>
      (Ok (mkMergedFile id (cp_offset c) (cj_old_ids job) (cj_old_bytes job) (cp_moved c)),
       hint_write id (cp_offset c) (cp_hints c)
         (set_part (delete id) (set_data (λ m, <[id := cp_file c]> m) d)))
  end.

(** Point a key at its copy, unless it has been written since. *)
Definition move_key (s : Store) (x : bytes * Location * Location) : Store :=
  let '(key, old, new) := x in
  if bool_decide (s_keydir s !! key = Some old) then s_set_keydir (<[key := new]> (s_keydir s)) s else s.

Definition store_finish_compaction (merged : MergedFile) (s : Store) : CompactReport * Store :=
  let s := s_set_compacting false s in
  let files_before := N.of_nat (size (s_readers s)) in
  let s := s_set_readers ({[mf_id merged]} ∪ s_readers s) s in
  let s := s_set_sealed_synced (<[mf_id merged := mf_bytes merged]> (s_sealed_synced s)) s in
  let s := foldl move_key s (mf_moved merged) in
  let s := foldl (λ s id, remove_file id s) s (mf_old_ids merged) in
  let before := s_disk_bytes s in
  let s := s_set_disk_bytes (s_disk_bytes s - mf_old_bytes merged + mf_bytes merged) s in
  (mkCompactReport files_before before (s_disk_bytes s), s).

Definition abandon_compaction (s : Store) : Store := s_set_compacting false s.

(** ** Restoring *)

Record RestoreJob := mkRestoreJob {
  rj_id : N;
  rj_file : bytes;
  rj_offset : N;
  rj_index : list (bytes * Location);
  rj_hints : list HintEntry;
  rj_old_ids : list N;
}.

Record RestoredFile := mkRestoredFile {
  rf_id : N;
  rf_bytes : N;
  rf_index : list (bytes * Location);
  rf_old_ids : list N;
}.

Definition begin_restore (old_ids : list N) : M Store RestoreJob := λ s,
  if s_compacting s || s_restoring s then (Err compaction_in_progress, s)
  else
    let '(id, s) := seal_leaving_a_slot s in
    let s := s_set_dir (set_part (λ m, <[id := []]> m) (s_dir s)) s in
    (Ok (mkRestoreJob id [] 0 [] [] old_ids), s_set_restoring true s).

(** [RestoreJob::push]. *)
Definition restore_push (key value : bytes) : M RestoreJob unit := λ j,
  match record_encode key (Some value) 0 with
  | Err e => (Err e, j)
  | Ok bs =>
      let len := as_u32 (blen bs) in
      (Ok tt, mkRestoreJob (rj_id j) (rj_file j ++ bs) (rj_offset j + len)
         (rj_index j ++ [(key, mkLocation (rj_id j) (rj_offset j) len 0)])
         (rj_hints j ++ [mkHintEntry key (rj_offset j) len 0 false]) (rj_old_ids j))
  end.

(** [RestoreJob::finish]: the part file takes the slot. *)
Definition restore_finish (j : RestoreJob) (d : Dir) : RestoredFile * Dir :=
  (mkRestoredFile (rj_id j) (rj_offset j) (rj_index j) (rj_old_ids j),
   hint_write (rj_id j) (rj_offset j) (rj_hints j)
     (set_part (delete (rj_id j)) (set_data (λ m, <[rj_id j := rj_file j]> m) d))).

(** A job given up on takes its part file with it. *)
Definition restore_drop (j : RestoreJob) (d : Dir) : Dir := set_part (delete (rj_id j)) d.

Definition finish_restore (restored : RestoredFile) (s : Store) : Store :=
  let s := s_set_restoring false s in
  let s := foldl (λ s id, remove_file id s) s (rf_old_ids restored) in
  let s := s_set_readers ({[rf_id restored]} ∪ s_readers s) s in
  let s := s_set_sealed_synced (<[rf_id restored := rf_bytes restored]> (s_sealed_synced s)) s in
  let s := s_set_keydir (foldl (λ m x, <[x.1 := x.2]> m) ∅ (rf_index restored)) s in
  s_set_disk_bytes (rf_bytes restored + lw_offset (s_writer s)) (s_set_live_bytes (rf_bytes restored) s).

Definition abandon_restore (s : Store) : Store := s_set_restoring false s.
