(* ===== verification/StoreIndex.v ===== *)
(** * What a list of records means, and the index over it

    The reference meaning of a store is the map its records describe when they are
    replayed in order. [Indexing], the index [open_with] builds, follows it record by
    record, and its byte counts are what they say they are. *)

From S2P Require Import Prelude.
From S2P Require Import RecordFormat.
From S2P Require Import DataLog.
From S2P Require Import HintFile.
From S2P Require Import Store.

#[local] Open Scope N_scope.

(** ** The reference: replaying records into a map *)

Definition replay_step (m : gmap bytes bytes) (r : Rec) : gmap bytes bytes :=
  match r_value r with Some v => <[r_key r := v]> m | None => delete (r_key r) m end.

Definition replay (rs : list Rec) : gmap bytes bytes := foldl replay_step ∅ rs.

Lemma replay_snoc rs r : replay (rs ++ [r]) = replay_step (replay rs) r.
Proof. unfold replay. by rewrite foldl_app. Qed.

(** ** Where records are *)

(** A record with the file and the offset it is at. *)
Record Place := mkPlace { pl_file : N; pl_offset : N; pl_rec : Rec }.

Fixpoint places_from (id offset : N) (rs : list Rec) : list Place :=
  match rs with
  | [] => []
  | r :: rs => mkPlace id offset r :: places_from id (offset + blen (rec_bytes r)) rs
  end.

(** Files, oldest first, as their records. *)
Abbreviation Files := (list (N * list Rec)).

Definition places (fs : Files) : list Place := mjoin ((λ f, places_from f.1 0 f.2) <$> fs).
Definition all_recs (fs : Files) : list Rec := mjoin fs.*2.

Lemma places_from_recs id offset rs : pl_rec <$> places_from id offset rs = rs.
Proof. revert offset. induction rs as [|r rs IH]; intros offset; [done|]. simpl. by rewrite IH. Qed.

Lemma places_recs fs : pl_rec <$> places fs = all_recs fs.
Proof.
  induction fs as [|[id rs] fs IH]; [done|].
  change (places ((id, rs) :: fs)) with (places_from id 0 rs ++ places fs).
  rewrite fmap_app, places_from_recs, IH. done.
Qed.

Lemma places_app fs fs' : places (fs ++ fs') = places fs ++ places fs'.
Proof. unfold places. by rewrite fmap_app, join_app. Qed.

Lemma all_recs_app fs fs' : all_recs (fs ++ fs') = all_recs fs ++ all_recs fs'.
Proof. unfold all_recs. by rewrite fmap_app, join_app. Qed.

Lemma all_recs_one id rs : all_recs [(id, rs)] = rs.
Proof. unfold all_recs. simpl. by rewrite app_nil_r. Qed.

Lemma places_one id rs : places [(id, rs)] = places_from id 0 rs.
Proof. unfold places. simpl. by rewrite app_nil_r. Qed.

Lemma places_from_app id offset rs rs' :
  places_from id offset (rs ++ rs') = places_from id offset rs ++
    places_from id (offset + blen (file_bytes rs)) rs'.
Proof.
  revert offset. induction rs as [|r rs IH]; intros offset; simpl.
  - f_equal. change (file_bytes []) with (@nil byte). rewrite blen_nil. lia.
  - rewrite IH, file_bytes_cons. do 3 f_equal. rewrite blen_app. lia.
Qed.

(** The last put of each key, where it is. *)
Definition index_step (m : gmap bytes Place) (p : Place) : gmap bytes Place :=
  match r_value (pl_rec p) with
  | Some _ => <[r_key (pl_rec p) := p]> m
  | None => delete (r_key (pl_rec p)) m
  end.

Definition index_of (ps : list Place) : gmap bytes Place := foldl index_step ∅ ps.

Lemma index_of_snoc ps p : index_of (ps ++ [p]) = index_step (index_of ps) p.
Proof. unfold index_of. by rewrite foldl_app. Qed.

(** The index and the replay agree. *)
Lemma index_replay ps k :
  replay (pl_rec <$> ps) !! k = index_of ps !! k ≫= λ p, r_value (pl_rec p).
Proof.
  induction ps as [|p ps IH] using rev_ind; [done|].
  rewrite fmap_app, index_of_snoc. simpl. rewrite replay_snoc. unfold replay_step, index_step.
  destruct (r_value (pl_rec p)) as [v|] eqn:Hv.
  - rewrite !lookup_insert. case_decide; simpl; [by rewrite Hv|done].
  - rewrite !lookup_delete. by case_decide.
Qed.

(** An indexed place is one of the places, for its key, and holds a value. *)
Lemma index_of_Some ps k p :
  index_of ps !! k = Some p → p ∈ ps ∧ r_key (pl_rec p) = k ∧ is_Some (r_value (pl_rec p)).
Proof.
  induction ps as [|q ps IH] using rev_ind; [done|].
  rewrite index_of_snoc. unfold index_step. destruct (r_value (pl_rec q)) as [v|] eqn:Hv.
  - rewrite lookup_insert_Some. intros [[<- <-]|[_ H]].
    + rewrite elem_of_app, Hv, list_elem_of_singleton. eauto.
    + rewrite elem_of_app. naive_solver.
  - rewrite lookup_delete_Some. intros [_ H]. rewrite elem_of_app. naive_solver.
Qed.

(** ** The index a store keeps *)

Definition loc_at (p : Place) (l : Location) : Prop :=
  loc_file_id l = pl_file p ∧ loc_offset l = pl_offset p ∧ loc_len l = blen (rec_bytes (pl_rec p)) ∧
  is_u64 (loc_tstamp l).

(** The store's index is the last put of each key; its timestamps are its own. *)
Definition keydir_ok (keydir : gmap bytes Location) (ps : list Place) : Prop :=
  ∀ k, option_Forall2 loc_at (index_of ps !! k) (keydir !! k).

Definition live_of (keydir : gmap bytes Location) : N := map_fold (λ _ l t, loc_len l + t) 0 keydir.

Definition disk_of (ps : list Place) : N := foldr (λ p t, blen (rec_bytes (pl_rec p)) + t) 0 ps.

Lemma live_of_insert k l keydir :
  keydir !! k = None → live_of (<[k := l]> keydir) = loc_len l + live_of keydir.
Proof. intros Hk. unfold live_of. rewrite map_fold_insert_L; [done| |done]. intros. lia. Qed.

Lemma live_of_delete k l keydir :
  keydir !! k = Some l → live_of keydir = loc_len l + live_of (delete k keydir).
Proof. intros Hk. unfold live_of. rewrite (map_fold_delete_L _ _ k l keydir); [done| |done]. intros. lia. Qed.

Lemma disk_of_app ps ps' : disk_of (ps ++ ps') = disk_of ps + disk_of ps'.
Proof. induction ps as [|p ps IH]; simpl; [done|]. rewrite IH. lia. Qed.

Record Indexed (ix : Indexing) (ps : list Place) : Prop := {
  ixd_keydir : keydir_ok (ix_keydir ix) ps;
  ixd_live : ix_live_bytes ix = live_of (ix_keydir ix);
  ixd_disk : ix_disk_bytes ix = disk_of ps;
}.

Lemma Indexed_empty : Indexed (mkIndexing ∅ 0 0) [].
Proof. split; [|done|done]. intros k. unfold index_of. simpl. rewrite !lookup_empty. constructor. Qed.

(** What a hint entry says of a record at [offset]. *)
Definition entry_at (offset : N) (r : Rec) (e : HintEntry) : Prop :=
  he_key e = r_key r ∧ he_offset e = offset ∧ he_len e = blen (rec_bytes r) ∧
  he_tombstone e = bool_decide (r_value r = None) ∧ is_u64 (he_tstamp e).

Fixpoint entries_at (offset : N) (rs : list Rec) (es : list HintEntry) : Prop :=
  match rs, es with
  | [], [] => True
  | r :: rs, e :: es => entry_at offset r e ∧ entries_at (offset + blen (rec_bytes r)) rs es
  | _, _ => False
  end.

Lemma entries_at_app offset rs es rs' es' :
  entries_at offset rs es → entries_at (offset + blen (file_bytes rs)) rs' es' →
  entries_at offset (rs ++ rs') (es ++ es').
Proof.
  revert offset es. induction rs as [|r rs IH]; intros offset [|e es]; simpl; try done.
  - intros _. change (file_bytes []) with (@nil byte). rewrite blen_nil. by rewrite N.add_0_r.
  - intros [He Hes] H. split; [done|]. apply IH; [done|].
    rewrite file_bytes_cons, blen_app in H. by rewrite <-N.add_assoc.
Qed.

Lemma entries_at_snoc offset rs es r e :
  entries_at offset rs es → entry_at (offset + blen (file_bytes rs)) r e →
  entries_at offset (rs ++ [r]) (es ++ [e]).
Proof. intros H1 H2. by apply entries_at_app. Qed.

Lemma keydir_ok_lookup keydir ps k l :
  keydir_ok keydir ps → keydir !! k = Some l →
  ∃ p, index_of ps !! k = Some p ∧ loc_at p l.
Proof. intros H Hk. specialize (H k). rewrite Hk in H. inversion H; subst. eauto. Qed.

(** Indexing one more record. *)
Lemma index_entry_ok ix ps id offset r e :
  Indexed ix ps → entry_at offset r e →
  Indexed (index_entry id ix e) (ps ++ [mkPlace id offset r]).
Proof.
  intros [Hk Hl Hd] (E1 & E2 & E3 & E4 & E5). unfold index_entry.
  assert (match ix_keydir ix !! he_key e with
          | Some old => ix_live_bytes ix - loc_len old
          | None => ix_live_bytes ix
          end = live_of (delete (he_key e) (ix_keydir ix))) as ->.
  { destruct (ix_keydir ix !! he_key e) as [old|] eqn:Eo.
    - rewrite Hl, (live_of_delete _ old) by done. lia.
    - by rewrite delete_id. }
  assert (ix_disk_bytes ix + he_len e = disk_of (ps ++ [mkPlace id offset r])) as ->.
  { rewrite disk_of_app, Hd, E3. simpl. lia. }
  rewrite E4. case_bool_decide as Hv; split; simpl; try done.
  - intros k. rewrite index_of_snoc. unfold index_step. simpl. rewrite Hv, E1.
    rewrite !lookup_delete. case_decide; [constructor|apply Hk].
  - intros k. rewrite index_of_snoc. unfold index_step. simpl.
    destruct (r_value r) as [v|]; [|done]. rewrite E1, !lookup_insert.
    case_decide; [constructor; by split_and!|apply Hk].
  - rewrite E1. rewrite <-(insert_delete_eq (ix_keydir ix)), live_of_insert by apply lookup_delete_eq.
    simpl. lia.
Qed.

Lemma index_entries_ok ix ps id offset rs es :
  Indexed ix ps → entries_at offset rs es →
  Indexed (foldl (index_entry id) ix es) (ps ++ places_from id offset rs).
Proof.
  revert ix ps offset es. induction rs as [|r rs IH]; intros ix ps offset [|e es] Hix Hes; try done; simpl.
  - by rewrite app_nil_r.
  - destruct Hes as [He Hes]. rewrite cons_middle, (assoc_L (++)). apply IH; [|done].
    by apply index_entry_ok.
Qed.

(** ** The byte counts, in terms of what the store means *)

Definition total (m : gmap bytes N) : N := map_fold (λ _ n t, n + t) 0 m.

Lemma total_insert k n m : m !! k = None → total (<[k := n]> m) = n + total m.
Proof. intros Hk. unfold total. rewrite map_fold_insert_L; [done| |done]. intros. lia. Qed.

Lemma total_delete k n m : m !! k = Some n → total m = n + total (delete k m).
Proof. intros Hk. unfold total. rewrite (map_fold_delete_L _ _ k n m); [done| |done]. intros. lia. Qed.

Lemma live_of_total keydir : live_of keydir = total (loc_len <$> keydir).
Proof.
  induction keydir as [|k l m Hk IH] using map_ind; [done|].
  rewrite fmap_insert, live_of_insert, total_insert; [by rewrite IH| |done].
  by rewrite lookup_fmap, Hk.
Qed.

Definition place_len (p : Place) : N := blen (rec_bytes (pl_rec p)).

(** The live bytes of an index are those of the places it points at. *)
Lemma keydir_ok_lens keydir ps : keydir_ok keydir ps → loc_len <$> keydir = place_len <$> index_of ps.
Proof.
  intros Hk. apply map_eq. intros k. rewrite !lookup_fmap. specialize (Hk k).
  destruct Hk as [p l (_ & _ & E & _)|]; [|done]. simpl. by rewrite E.
Qed.

Lemma index_total_le ps : total (place_len <$> index_of ps) ≤ disk_of ps.
Proof.
  induction ps as [|p ps IH] using rev_ind; [done|].
  rewrite index_of_snoc, disk_of_app. unfold index_step. simpl. fold (place_len p).
  set (k := r_key (pl_rec p)).
  assert (total (delete k (place_len <$> index_of ps)) ≤ total (place_len <$> index_of ps)) as Hdel.
  { destruct ((place_len <$> index_of ps) !! k) as [n|] eqn:E.
    - rewrite (total_delete k n (place_len <$> index_of ps)) by done. lia.
    - by rewrite delete_id. }
  destruct (r_value (pl_rec p)).
  - rewrite fmap_insert, <-insert_delete_eq, total_insert by apply lookup_delete_eq. lia.
  - rewrite fmap_delete. lia.
Qed.

(** What a key and its value take on disk. *)
Definition entry_len (k v : bytes) : N := 21 + blen k + blen v.

Lemma index_lens ps :
  place_len <$> index_of ps = map_imap (λ k v, Some (entry_len k v)) (replay (pl_rec <$> ps)).
Proof.
  apply map_eq. intros k. rewrite lookup_fmap, map_lookup_imap, index_replay.
  destruct (index_of ps !! k) as [p|] eqn:E; [|done].
  apply index_of_Some in E as (_ & <- & [v Hv]). simpl. rewrite Hv. simpl.
  unfold place_len, entry_len. by rewrite rec_bytes_len, Hv.
Qed.
