(* ===== verification/StoreInv.v ===== *)
(** * The store's invariant, and that its operations keep it

    [SInv s fs rs]: the sealed files of [s] hold the records [fs], the active file,
    with what its writer still buffers, holds [rs], the hints describe prefixes of
    their files, the index is the last put of each key, and the byte counts are
    exact. What the store means is [replay] of all those records. *)

From S2P Require Import Prelude.
From S2P Require Import Crc.
From S2P Require Import RecordFormat.
From S2P Require Import DataLog.
From S2P Require Import HintFile.
From S2P Require Import Store.
From S2P Require Import StoreIndex.

#[local] Open Scope N_scope.

(** ** The append end *)

(** The records of the writer's file: [r0] known to be on the disk, [r1] handed to
    the kernel, [r2] still buffered. *)
Definition Wsplit (d : Dir) (w : LogWriter) (r0 r1 r2 : list Rec) : Prop :=
  d_data d !! lw_file_id w = Some (file_bytes (r0 ++ r1)) ∧ lw_pending w = file_bytes r2 ∧
  lw_written w = blen (file_bytes (r0 ++ r1)) ∧ lw_offset w = blen (file_bytes (r0 ++ r1 ++ r2)) ∧
  lw_synced w = blen (file_bytes r0).

(** The file of [w], with its buffer, holds the records [rs]. *)
Definition Wok (d : Dir) (w : LogWriter) (rs : list Rec) : Prop :=
  ∃ r0 r1 r2, rs = r0 ++ r1 ++ r2 ∧ Wsplit d w r0 r1 r2.

(** Only data file [id] may differ. *)
Definition only_data (id : N) (d d' : Dir) : Prop :=
  ∃ bs, d' = set_data (λ m, <[id := bs]> m) d.

Lemma write_all_only id bs d : only_data id d (write_all id bs d).
Proof. by eexists. Qed.

Lemma only_data_trans id d1 d2 d3 : only_data id d1 d2 → only_data id d2 d3 → only_data id d1 d3.
Proof.
  intros [x ->] [y ->]. exists y. unfold set_data. simpl. by rewrite insert_insert_eq.
Qed.

Lemma only_data_refl id d bs : d_data d !! id = Some bs → only_data id d d.
Proof. intros H. exists bs. unfold set_data. rewrite insert_id by done. by destruct d. Qed.

Lemma only_data_lookup id d d' j : only_data id d d' → j ≠ id → d_data d' !! j = d_data d !! j.
Proof. intros [bs ->] Hj. simpl. by rewrite lookup_insert_ne. Qed.

Lemma only_data_hint id d d' : only_data id d d' → d_hint d' = d_hint d ∧ d_part d' = d_part d.
Proof. by intros [bs ->]. Qed.

Lemma only_data_dom id d d' : only_data id d d' → dom (d_data d') = {[id]} ∪ dom (d_data d).
Proof. intros [bs ->]. simpl. apply dom_insert_L. Qed.

Lemma data_file_Some d id bs : d_data d !! id = Some bs → data_file d id = bs.
Proof. intros H. unfold data_file. by rewrite H. Qed.

Lemma file_bytes_nil rs : file_bytes rs = [] → rs = [].
Proof.
  destruct rs as [|r rs]; [done|]. intros E. apply (f_equal blen) in E.
  rewrite file_bytes_cons, blen_app, rec_bytes_len, blen_nil in E. lia.
Qed.

Lemma file_bytes_cat a c : file_bytes a ++ file_bytes c = file_bytes (a ++ c).
Proof. by rewrite file_bytes_app. Qed.

Lemma flush_split d w r0 r1 r2 :
  Wsplit d w r0 r1 r2 →
  let '(d', w') := LogWriter_flush (d, w) in
  Wsplit d' w' r0 (r1 ++ r2) [] ∧
  lw_file_id w' = lw_file_id w ∧ lw_offset w' = lw_offset w ∧ lw_pending w' = [] ∧
  lw_synced w' = lw_synced w ∧ only_data (lw_file_id w) d d'.
Proof.
  intros (Hd & Hp & Hw & Ho & Hs). unfold LogWriter_flush, Wsplit. case_bool_decide as Hc.
  - assert (r2 = []) as -> by (apply file_bytes_nil; congruence). rewrite !app_nil_r in *.
    split_and!; try done. by eapply only_data_refl.
  - simpl. rewrite lookup_insert_eq, (data_file_Some _ _ _ Hd), Hp, file_bytes_cat, <-!(assoc_L (++)), !app_nil_r.
    split_and!; try done. by eexists.
Qed.

Lemma sync_split d w r0 r1 r2 :
  Wsplit d w r0 r1 r2 →
  let '(d', w') := LogWriter_sync (d, w) in
  Wsplit d' w' (r0 ++ r1 ++ r2) [] [] ∧
  lw_file_id w' = lw_file_id w ∧ lw_offset w' = lw_offset w ∧ lw_pending w' = [] ∧
  lw_synced w' = lw_offset w' ∧ only_data (lw_file_id w) d d'.
Proof.
  intros HW. unfold LogWriter_sync. pose proof (flush_split d w r0 r1 r2 HW) as Hf.
  destruct (LogWriter_flush (d, w)) as [d' w']. unfold Wsplit in *.
  destruct Hf as ((H1 & H2 & H3 & H4 & H5) & Hid & Ho & Hp & _ & Hod). simpl.
  rewrite !app_nil_r in *. split_and!; try done.
Qed.

Lemma append_split d w r0 r1 r2 r reach :
  Wsplit d w r0 r1 r2 → rec_ok r →
  let '((offset, len), (d', w')) := LogWriter_append (rec_bytes r) reach (d, w) in
  offset = blen (file_bytes (r0 ++ r1 ++ r2)) ∧ len = blen (rec_bytes r) ∧
  (∃ r0' r1' r2', r0' ++ r1' ++ r2' = r0 ++ r1 ++ r2 ++ [r] ∧ Wsplit d' w' r0' r1' r2' ∧
    r0 `prefix_of` r0' ∧ (reach ≠ Buffer → r2' = []) ∧ (reach = Disk → r1' = [] ∧ r2' = [])) ∧
  lw_file_id w' = lw_file_id w ∧ only_data (lw_file_id w) d d'.
Proof.
  intros HW (_ & _ & Hlen). unfold LogWriter_append.
  assert (as_u32 (blen (rec_bytes r)) = blen (rec_bytes r)) as -> by (by apply N.mod_small).
  pose proof HW as (Hd & Hp & Hw & Ho & Hs).
  destruct (negb _ && _) eqn:Hc.
  - apply andb_true_iff in Hc as [Hr Hnil]. apply negb_true_iff, bool_decide_eq_false in Hr.
    apply bool_decide_eq_true in Hnil. assert (r2 = []) as -> by (apply file_bytes_nil; congruence).
    rewrite app_nil_r in *. split_and!; [done|done| |done|by eexists].
    assert (d_data (write_all (lw_file_id w) (rec_bytes r) d) !! lw_file_id w
      = Some (file_bytes (r0 ++ r1 ++ [r]))) as Hd'.
    { simpl. by rewrite lookup_insert_eq, (data_file_Some _ _ _ Hd), (assoc_L (++) r0), file_bytes_snoc. }
    assert (lw_offset w + blen (rec_bytes r) = blen (file_bytes (r0 ++ r1 ++ [r]))) as Ho'
      by (by rewrite (assoc_L (++) r0), file_bytes_snoc, blen_app, Ho).
    case_bool_decide as Hdisk.
    + exists (r0 ++ r1 ++ [r]), [], []. unfold Wsplit. cbn [lw_file_id lw_pending lw_written lw_offset lw_synced app].
      rewrite !app_nil_r, Hd', Ho'. split_and!; try done. by exists (r1 ++ [r]).
    + exists r0, (r1 ++ [r]), []. unfold Wsplit. cbn [lw_file_id lw_pending lw_written lw_offset lw_synced app].
      rewrite !app_nil_r, Hd', Ho'. split_and!; try done.
  - clear Hc.
    set (w1 := mkLogWriter (lw_file_id w) (lw_offset w + blen (rec_bytes r)) (lw_written w) (lw_synced w)
      (lw_pending w ++ rec_bytes r)).
    assert (Wsplit d w1 r0 r1 (r2 ++ [r])) as HW'.
    { unfold Wsplit, w1. cbn [lw_file_id lw_pending lw_written lw_offset lw_synced].
      rewrite !(assoc_L (++)), !file_bytes_snoc, blen_app, Hp, Ho, (assoc_L (++)). split_and!; done. }
    assert (only_data (lw_file_id w) d d) as Hrefl by (by eapply only_data_refl).
    destruct reach.
    + destruct (_ <? MAX_PENDING).
      * split_and!; try done. exists r0, r1, (r2 ++ [r]). split_and!; try done.
      * pose proof (flush_split d w1 _ _ _ HW') as Hf. destruct (LogWriter_flush (d, w1)) as [d' w'].
        destruct Hf as (F1 & F2 & F3 & F4 & F5 & F6). split_and!; try done.
        exists r0, (r1 ++ r2 ++ [r]), []. rewrite app_nil_r. split_and!; try done.
    + pose proof (flush_split d w1 _ _ _ HW') as Hf. destruct (LogWriter_flush (d, w1)) as [d' w'].
      destruct Hf as (F1 & F2 & F3 & F4 & F5 & F6). split_and!; try done.
      exists r0, (r1 ++ r2 ++ [r]), []. rewrite app_nil_r. split_and!; try done.
    + pose proof (sync_split d w1 _ _ _ HW') as Hf. destruct (LogWriter_sync (d, w1)) as [d' w'].
      destruct Hf as (F1 & F2 & F3 & F4 & F5 & F6). split_and!; try done.
      exists (r0 ++ r1 ++ r2 ++ [r]), [], []. rewrite !app_nil_r. split_and!; try done.
      by exists (r1 ++ r2 ++ [r]).
Qed.

Lemma Wok_synced d w rs : Wok d w rs → lw_synced w ≤ lw_offset w.
Proof.
  intros (r0 & r1 & r2 & -> & _ & _ & _ & Ho & Hs). rewrite Ho, Hs, file_bytes_app, blen_app. lia.
Qed.

(** The same, for the file as a whole. *)
Lemma flush_ok d w rs :
  Wok d w rs →
  let '(d', w') := LogWriter_flush (d, w) in
  Wok d' w' rs ∧ lw_file_id w' = lw_file_id w ∧ lw_offset w' = lw_offset w ∧ lw_pending w' = [] ∧
  lw_synced w' = lw_synced w ∧ only_data (lw_file_id w) d d'.
Proof.
  intros (r0 & r1 & r2 & -> & HW). pose proof (flush_split d w r0 r1 r2 HW) as Hf.
  destruct (LogWriter_flush (d, w)) as [d' w']. destruct Hf as (F1 & F2 & F3 & F4 & F5 & F6).
  split_and!; try done. exists r0, (r1 ++ r2), []. by rewrite app_nil_r.
Qed.

Lemma sync_ok d w rs :
  Wok d w rs →
  let '(d', w') := LogWriter_sync (d, w) in
  Wok d' w' rs ∧ lw_file_id w' = lw_file_id w ∧ lw_offset w' = lw_offset w ∧ lw_pending w' = [] ∧
  lw_synced w' = lw_offset w' ∧ d_data d' !! lw_file_id w = Some (file_bytes rs) ∧
  only_data (lw_file_id w) d d'.
Proof.
  intros (r0 & r1 & r2 & -> & HW). pose proof (sync_split d w r0 r1 r2 HW) as Hf.
  destruct (LogWriter_sync (d, w)) as [d' w']. destruct Hf as (F1 & F2 & F3 & F4 & F5 & F6).
  split_and!; try done; [by exists (r0 ++ r1 ++ r2), [], []; rewrite !app_nil_r|].
  destruct F1 as (G1 & _). by rewrite F2, app_nil_r in G1.
Qed.

Lemma append_ok d w rs r reach :
  Wok d w rs → rec_ok r →
  let '((offset, len), (d', w')) := LogWriter_append (rec_bytes r) reach (d, w) in
  offset = blen (file_bytes rs) ∧ len = blen (rec_bytes r) ∧ Wok d' w' (rs ++ [r]) ∧
  lw_file_id w' = lw_file_id w ∧ only_data (lw_file_id w) d d'.
Proof.
  intros (r0 & r1 & r2 & -> & HW) Hr. pose proof (append_split d w r0 r1 r2 r reach HW Hr) as Ha.
  destruct (LogWriter_append _ _ _) as [[offset len] [d' w']].
  destruct Ha as (A1 & A2 & (r0' & r1' & r2' & E & HW' & _) & A4 & A5).
  split_and!; try done. exists r0', r1', r2'. by rewrite E, <-!(assoc_L (++)).
Qed.

(** ** Hints that describe their files *)

Definition hint_file_ok (bs : bytes) (rs : list Rec) : Prop :=
  ∃ k es, entries_at 0 (take k rs) es ∧ bs = hint_bytes (blen (file_bytes (take k rs))) es.

Lemma entries_at_tiles offset rs es :
  entries_at offset rs es → tiles offset es (offset + blen (file_bytes rs)).
Proof.
  revert offset es. induction rs as [|r rs IH]; intros offset [|e es]; try done; simpl.
  - intros _. change (file_bytes []) with (@nil byte). rewrite blen_nil. lia.
  - intros [(_ & Ho & Hl & _) Hes]. split; [done|]. rewrite Hl, file_bytes_cons, blen_app, N.add_assoc. auto.
Qed.

Lemma entries_at_wf offset rs es :
  Forall rec_ok rs → is_u64 (offset + blen (file_bytes rs)) → entries_at offset rs es →
  Forall hint_entry_wf es.
Proof.
  intros Hrs. revert offset es. induction Hrs as [|r rs Hr Hrs IH]; intros offset [|e es] Hlen Hes; try done.
  destruct Hes as [(E1 & E2 & E3 & E4 & E5) Hes]. rewrite file_bytes_cons, blen_app in Hlen.
  constructor; [|eapply IH; [|done]; by rewrite <-N.add_assoc].
  destruct Hr as ((_ & Hk & _) & _ & Hl). split_and!; [|by rewrite E3|done|].
  - rewrite E2, E3. unfold is_u64 in *. lia.
  - rewrite E1. unfold is_u32, U32_MAX, TWO32 in *. lia.
Qed.

Lemma blen_file_bytes_take k rs : blen (file_bytes (take k rs)) ≤ blen (file_bytes rs).
Proof. rewrite <-(take_drop k rs) at 2. rewrite file_bytes_app, blen_app. lia. Qed.

(** Such a hint is believed, for what it covers. *)
Lemma hint_file_ok_parse bs rs file_len :
  Forall rec_ok rs → is_u64 (blen (file_bytes rs)) → blen (file_bytes rs) ≤ file_len →
  hint_file_ok bs rs →
  ∃ k es, entries_at 0 (take k rs) es ∧ hint_parse bs file_len = Some (es, blen (file_bytes (take k rs))).
Proof.
  intros Hrs Hu Hlen (k & es & Hes & ->). exists k, es. split; [done|].
  pose proof (blen_file_bytes_take k rs) as Hle.
  rewrite hint_parse_bytes; [rewrite bool_decide_true; [done|lia]|unfold is_u64 in *; lia| |].
  - eapply entries_at_wf; [by apply Forall_take| |done]. unfold is_u64 in *. lia.
  - apply (entries_at_tiles 0) in Hes. by rewrite N.add_0_l in Hes.
Qed.

Lemma hint_file_ok_all rs es :
  entries_at 0 rs es → hint_file_ok (hint_bytes (blen (file_bytes rs)) es) rs.
Proof. intros H. exists (length rs), es. by rewrite firstn_all. Qed.

(** A hint for the active file describes records that are on the disk. *)
Definition hint_synced (bs : bytes) (rs : list Rec) (synced : N) : Prop :=
  ∃ rs0, rs0 `prefix_of` rs ∧ blen (file_bytes rs0) ≤ synced ∧ hint_file_ok bs rs0.

Lemma hint_file_ok_prefix bs rs0 rs : rs0 `prefix_of` rs → hint_file_ok bs rs0 → hint_file_ok bs rs.
Proof.
  intros [rest ->] (k & es & H1 & ->). exists (k `min` length rs0)%nat, es.
  rewrite take_app_le by lia. rewrite <-take_take, (take_ge rs0 (length rs0)) by lia. done.
Qed.

Lemma hint_synced_ok bs rs n : hint_synced bs rs n → hint_file_ok bs rs.
Proof. intros (rs0 & Hp & _ & Hh). by eapply hint_file_ok_prefix. Qed.

Lemma hint_synced_more bs rs rs' n n' :
  rs `prefix_of` rs' → n ≤ n' → hint_synced bs rs n → hint_synced bs rs' n'.
Proof. intros Hp Hn (rs0 & Hp0 & Hl & Hh). exists rs0. split_and!; [by etrans|lia|done]. Qed.

(** ** The invariant *)

(** Sealed files hold exactly their records, and their hints describe them. *)
Record dir_ok (d : Dir) (fs : Files) : Prop := {
  do_data : ∀ id rs, (id, rs) ∈ fs → d_data d !! id = Some (file_bytes rs);
  do_hint : ∀ id rs bs, (id, rs) ∈ fs → d_hint d !! id = Some bs → hint_file_ok bs rs;
  do_recs : Forall rec_ok (all_recs fs);
  do_len : ∀ id rs, (id, rs) ∈ fs → is_u64 (blen (file_bytes rs));
}.

Definition active_id (s : Store) : N := lw_file_id (s_writer s).

(** All the files of a store. *)
Definition all_files (s : Store) (fs : Files) (rs : list Rec) : Files := fs ++ [(active_id s, rs)].

Definition indexing_of (s : Store) : Indexing := mkIndexing (s_keydir s) (s_live_bytes s) (s_disk_bytes s).

Record SInv (s : Store) (fs : Files) (rs : list Rec) : Prop := {
  si_sealed : dir_ok (s_dir s) fs;
  si_sorted : StronglySorted N.lt (fs.*1 ++ [active_id s]);
  si_dom : dom (d_data (s_dir s)) = list_to_set (fs.*1 ++ [active_id s]);
  si_hint_dom : dom (d_hint (s_dir s)) ⊆ dom (d_data (s_dir s));
  si_writer : Wok (s_dir s) (s_writer s) rs;
  si_hint : ∀ bs, d_hint (s_dir s) !! active_id s = Some bs → hint_synced bs rs (lw_synced (s_writer s));
  si_recs : Forall rec_ok rs;
  si_len : is_u64 (lw_offset (s_writer s));
  si_readers : s_readers s = list_to_set (fs.*1 ++ [active_id s]);
  si_index : Indexed (indexing_of s) (places (all_files s fs rs));
  si_hints : entries_at 0 rs (s_active_hints s);
  si_max : is_u64 (o_max_file_bytes (s_opts s));
  si_synced : ∀ id n, s_sealed_synced s !! id = Some n →
    ∃ rs', (id, rs') ∈ fs ∧ n = blen (file_bytes rs');
}.

(** What the store means. *)
Definition contents (s : Store) (fs : Files) (rs : list Rec) : gmap bytes bytes :=
  replay (all_recs (all_files s fs rs)).

Lemma all_recs_files s fs rs : all_recs (all_files s fs rs) = all_recs fs ++ rs.
Proof. unfold all_files. by rewrite all_recs_app, all_recs_one. Qed.

(** ** Reading *)

Lemma places_from_in id offset rs p :
  p ∈ places_from id offset rs →
  ∃ pre post, rs = pre ++ pl_rec p :: post ∧ pl_file p = id ∧ pl_offset p = offset + blen (file_bytes pre).
Proof.
  revert offset. induction rs as [|r rs IH]; intros offset Hp; [by apply not_elem_of_nil in Hp|].
  simpl in Hp. apply elem_of_cons in Hp as [->|Hp].
  - exists [], rs. split_and!; [done|done|]. change (file_bytes []) with (@nil byte). rewrite blen_nil. simpl. lia.
  - apply IH in Hp as (pre & post & -> & Hf & Ho). exists (r :: pre), post.
    rewrite file_bytes_cons, blen_app. split_and!; [done|done|lia].
Qed.

Lemma places_in fs p :
  p ∈ places fs → ∃ pre post, (pl_file p, pre ++ pl_rec p :: post) ∈ fs ∧ pl_offset p = blen (file_bytes pre).
Proof.
  unfold places. intros (l & Hp & Hl)%list_elem_of_join. apply list_elem_of_fmap in Hl as ([id rs] & -> & Hin).
  apply places_from_in in Hp as (pre & post & E & Hf & Ho). simpl in *. subst.
  exists pre, post. split; [done|]. by rewrite Ho.
Qed.

(** The bytes of a record within a file. *)
Lemma file_bytes_mid pre r post :
  file_bytes (pre ++ r :: post) = file_bytes pre ++ rec_bytes r ++ file_bytes post.
Proof. by rewrite file_bytes_app. Qed.

Lemma read_at_record pre r post :
  read_at (file_bytes (pre ++ r :: post)) (blen (file_bytes pre)) (blen (rec_bytes r)) = Ok (rec_bytes r).
Proof. unfold read_at. by rewrite file_bytes_mid, get_slice_app_exact. Qed.

Lemma rec_bytes_take r :
  take HEADER_LEN (rec_bytes r) = header_encode (record_header (r_key r) (r_value r) (r_tstamp r)).
Proof. exact (record_take (r_key r) (r_value r) (r_tstamp r)). Qed.

Lemma rec_bytes_record_len r :
  record_len (record_header (r_key r) (r_value r) (r_tstamp r)) = blen (rec_bytes r).
Proof. symmetry. exact (record_bytes_len (r_key r) (r_value r) (r_tstamp r)). Qed.

#[local] Opaque rec_bytes.

Lemma decode_value_record r loc :
  rec_ok r → decode_value (rec_bytes r) loc = Ok (default [] (r_value r)).
Proof.
  intros (Hok & Hts & _). unfold decode_value.
  rewrite (proj2 (N.ltb_ge _ _)) by (rewrite rec_bytes_len; unfold HEADER_LEN; lia).
  set (h := record_header (r_key r) (r_value r) (r_tstamp r)).
  rewrite rec_bytes_take. fold h. rewrite header_decode_encode_exact by (by apply record_header_wf).
  assert (record_len h = blen (rec_bytes r)) as -> by apply rec_bytes_record_len.
  rewrite N.eqb_refl. cbn [negb].
  change (hdr_key_len h) with (blen (r_key r)).
  assert (drop (N.to_nat (N.of_nat HEADER_LEN + blen (r_key r))) (rec_bytes r) = default [] (r_value r)) as ->.
  { rewrite rec_bytes_split, (assoc_L (++)). apply drop_app_length'.
    rewrite length_app, length_header_encode. unfold blen, HEADER_LEN. lia. }
  assert (slice (N.of_nat HEADER_LEN) (N.of_nat HEADER_LEN + blen (r_key r)) (rec_bytes r) = r_key r) as ->.
  { rewrite rec_bytes_split. replace (N.of_nat HEADER_LEN) with (blen (header_encode h)).
    - apply slice_app_exact.
    - unfold blen. by rewrite length_header_encode. }
  unfold h. by rewrite record_verify.
Qed.

(** A record of the active file is in the buffer or in the file. *)
Lemma read_active d w rs pre r post :
  Wok d w rs → rs = pre ++ r :: post →
  match LogWriter_buffered w (blen (file_bytes pre)) (blen (rec_bytes r)) with
  | Some bs => bs = rec_bytes r
  | None => read_at (data_file d (lw_file_id w)) (blen (file_bytes pre)) (blen (rec_bytes r)) = Ok (rec_bytes r)
  end.
Proof.
  intros (r0 & r1 & r2 & -> & Hd & Hp & Hw & _) E. rewrite (assoc_L (++)) in E.
  rewrite (data_file_Some _ _ _ Hd). set (f := r0 ++ r1) in *. clearbody f.
  unfold LogWriter_buffered. apply app_eq_inv in E as [(k & -> & E)|(k & -> & E)].
  - destruct k as [|x k]; simpl in *; simplify_eq.
    + rewrite app_nil_r in *. rewrite Hw, N.ltb_irrefl, N.sub_diag, Hp. simpl.
      change (file_bytes (r :: post)) with ([] ++ rec_bytes r ++ file_bytes post).
      by rewrite (get_slice_app_exact []).
    + rewrite (proj2 (N.ltb_lt _ _)); [by apply read_at_record|].
      rewrite Hw, file_bytes_mid, !blen_app, rec_bytes_len. lia.
  - rewrite (proj2 (N.ltb_ge _ _)) by (rewrite Hw, file_bytes_app, blen_app; lia).
    rewrite Hw, file_bytes_app, blen_app, Hp, E, file_bytes_mid.
    replace (blen (file_bytes f) + blen (file_bytes k) - blen (file_bytes f)) with (blen (file_bytes k)) by lia.
    by rewrite get_slice_app_exact.
Qed.
