(* ===== verification/StoreOps.v ===== *)
(** * Every operation of the store against its meaning

    With the invariant of the store, a read returns what the records replay to, and
    writes, rollovers and syncs keep the invariant and change the meaning by exactly
    the record they append. *)

From S2P Require Import Prelude.
From S2P Require Import Crc.
From S2P Require Import RecordFormat.
From S2P Require Import DataLog.
From S2P Require Import HintFile.
From S2P Require Import Store.
From S2P Require Import StoreIndex.
From S2P Require Import StoreInv.

#[local] Open Scope N_scope.
#[local] Opaque rec_bytes.

Section sorted.
Lemma sorted_snoc_lt (l : list N) (a x : N) : StronglySorted N.lt (l ++ [a]) → x ∈ l → x < a.
Proof.
  intros Hs Hx. apply StronglySorted_app in Hs as (Hlt & _ & _). apply (Hlt x a Hx).
  by apply list_elem_of_singleton.
Qed.

Lemma sorted_snoc (l : list N) (a c : N) :
  StronglySorted N.lt (l ++ [a]) → a < c → StronglySorted N.lt ((l ++ [a]) ++ [c]).
Proof.
  intros Hs Hac. apply StronglySorted_app_2; [|done|by repeat constructor].
  intros x y Hx Hy. apply list_elem_of_singleton in Hy as ->.
  apply elem_of_app in Hx as [Hx|Hx]; [|apply list_elem_of_singleton in Hx as ->; done].
  pose proof (sorted_snoc_lt l a x Hs Hx). lia.
Qed.
End sorted.

Lemma contents_lookup s fs rs k :
  contents s fs rs !! k = index_of (places (all_files s fs rs)) !! k ≫= λ p, r_value (pl_rec p).
Proof. unfold contents. rewrite <-places_recs. apply index_replay. Qed.

Lemma SInv_rec_ok s fs rs p : SInv s fs rs → p ∈ places (all_files s fs rs) → rec_ok (pl_rec p).
Proof.
  intros HI Hp. assert (pl_rec p ∈ all_recs (all_files s fs rs)) as Hr.
  { rewrite <-places_recs. by apply list_elem_of_fmap_2. }
  rewrite all_recs_files in Hr. apply elem_of_app in Hr as [Hr|Hr].
  - pose proof (do_recs _ _ (si_sealed _ _ _ HI)) as Hf. rewrite list.Forall_forall in Hf. by apply Hf.
  - pose proof (si_recs _ _ _ HI) as Hf. rewrite list.Forall_forall in Hf. by apply Hf.
Qed.

(** ** Reads *)

(** The bytes a location of the index points at are the record's. *)
Lemma read_place s fs rs p loc :
  SInv s fs rs → p ∈ places (all_files s fs rs) → loc_at p loc →
  match (if loc_file_id loc =? active_id s
         then LogWriter_buffered (s_writer s) (loc_offset loc) (loc_len loc) else None) with
  | Some bs => bs = rec_bytes (pl_rec p)
  | None => loc_file_id loc ∈ s_readers s ∧
      read_at (data_file (s_dir s) (loc_file_id loc)) (loc_offset loc) (loc_len loc) = Ok (rec_bytes (pl_rec p))
  end.
Proof.
  intros HI Hp (L1 & L2 & L3 & _). apply places_in in Hp as (pre & post & Hin & Ho).
  rewrite L1, L2, L3, Ho. rewrite (si_readers _ _ _ HI).
  apply elem_of_app in Hin as [Hin|Hin].
  - assert (pl_file p ∈ fs.*1) as Hid by (by apply (list_elem_of_fmap_2 fst) in Hin).
    pose proof (sorted_snoc_lt _ _ _ (si_sorted _ _ _ HI) Hid) as Hlt.
    rewrite (proj2 (N.eqb_neq _ _)) by lia. split; [set_solver|].
    rewrite (data_file_Some _ _ _ (do_data _ _ (si_sealed _ _ _ HI) _ _ Hin)). apply read_at_record.
  - apply list_elem_of_singleton in Hin as [= Hid Hrs]. rewrite Hid, N.eqb_refl.
    pose proof (read_active _ _ _ pre (pl_rec p) post (si_writer _ _ _ HI) (eq_sym Hrs)) as Hread.
    destruct (LogWriter_buffered _ _ _); [done|]. split; [set_solver|done].
Qed.

Lemma get_ok s fs rs k : SInv s fs rs → store_get s k = Ok (contents s fs rs !! k).
Proof.
  intros HI. unfold store_get. rewrite contents_lookup.
  pose proof (ixd_keydir _ _ (si_index _ _ _ HI) k) as Hk. simpl in Hk.
  destruct (index_of (places (all_files s fs rs)) !! k) as [p|] eqn:Ep; inversion Hk as [? loc Hloc|]; subst; [|done].
  apply index_of_Some in Ep as (Hp & _ & [v Hv]).
  pose proof (SInv_rec_ok _ _ _ _ HI Hp) as Hok.
  pose proof (read_place s fs rs p loc HI Hp Hloc) as Hread. unfold active_id in Hread.
  cbn [mbind option_bind]. rewrite Hv.
  destruct (if loc_file_id loc =? lw_file_id (s_writer s) then _ else _) as [bs|].
  - rewrite Hread, decode_value_record by done. by rewrite Hv.
  - destruct Hread as [Hr Hread]. unfold read_value, open_reader. rewrite bool_decide_true by done.
    rewrite Hread. simpl. rewrite decode_value_record by done. by rewrite Hv.
Qed.

(** ** Moving the writer *)

(** Only the active data file and the writer changed, and they hold the same records. *)
Lemma SInv_writer s fs rs d w :
  SInv s fs rs → Wok d w rs → lw_file_id w = active_id s → lw_offset w = lw_offset (s_writer s) →
  lw_synced (s_writer s) ≤ lw_synced w → only_data (active_id s) (s_dir s) d →
  SInv (s_set_dir d (s_set_writer w s)) fs rs.
Proof.
  intros HI HW Hid Ho Hsy Hod. pose proof (only_data_hint _ _ _ Hod) as [Hh _].
  assert (active_id (s_set_dir d (s_set_writer w s)) = active_id s) as Ha by done.
  destruct HI as [[D1 D2 D3 D4] I2 I3 I3' I4 I5 I6 I7 I8 I9 I10 I11 I12].
  split; unfold all_files in *; rewrite ?Ha; simpl; try done.
  - split; try done.
    + intros id rs' Hin. rewrite (only_data_lookup _ _ _ _ Hod); [by apply D1|].
      pose proof (sorted_snoc_lt _ _ id I2) as Hlt. intros ->.
      specialize (Hlt ltac:(by apply (list_elem_of_fmap_2 fst) in Hin)). lia.
    + intros id rs' bs Hin. rewrite Hh. by apply D2.
  - rewrite (only_data_dom _ _ _ Hod), I3. set_solver.
  - rewrite (only_data_dom _ _ _ Hod), Hh. set_solver.
  - intros bs. rewrite Hh. intros Hb. by eapply hint_synced_more, I5.
  - by rewrite Ho.
Qed.

(** A step of the writer leaves the rest of the store alone. *)
Definition same_but_writer (s s' : Store) : Prop :=
  s_keydir s' = s_keydir s ∧ s_live_bytes s' = s_live_bytes s ∧ s_disk_bytes s' = s_disk_bytes s ∧
  s_readers s' = s_readers s ∧ s_opts s' = s_opts s ∧ s_active_hints s' = s_active_hints s ∧
  s_compacting s' = s_compacting s ∧ s_restoring s' = s_restoring s ∧
  s_sealed_synced s' = s_sealed_synced s ∧ s_scanned_at_open s' = s_scanned_at_open s.

Lemma on_writer_same {A} (f : Dir * LogWriter → A * (Dir * LogWriter)) s :
  same_but_writer s (on_writer f s).2.
Proof. unfold on_writer. by destruct (f (s_dir s, s_writer s)) as [a [d w]]. Qed.

Lemma flush_inv s fs rs :
  SInv s fs rs → SInv (writer_flush s) fs rs ∧ lw_pending (s_writer (writer_flush s)) = [] ∧
    active_id (writer_flush s) = active_id s.
Proof.
  intros HI. unfold writer_flush, on_writer.
  pose proof (flush_ok _ _ _ (si_writer _ _ _ HI)) as Hf.
  destruct (LogWriter_flush _) as [d w]. destruct Hf as (F1 & F2 & F3 & F4 & F5 & F6).
  split_and!; [apply SInv_writer; (done || lia)|done|done].
Qed.

Lemma sync_inv s fs rs :
  SInv s fs rs → SInv (store_sync s) fs rs ∧ lw_pending (s_writer (store_sync s)) = [] ∧
    active_id (store_sync s) = active_id s ∧ is_synced (store_sync s) = true ∧
    d_data (s_dir (store_sync s)) !! active_id s = Some (file_bytes rs).
Proof.
  intros HI. unfold store_sync, on_writer.
  pose proof (sync_ok _ _ _ (si_writer _ _ _ HI)) as Hf.
  pose proof (Wok_synced _ _ _ (si_writer _ _ _ HI)) as Hle.
  destruct (LogWriter_sync _) as [d w]. destruct Hf as (F1 & F2 & F3 & F4 & F5 & F6 & F7).
  split_and!; [apply SInv_writer; (done || lia)|done|done| |done]. unfold is_synced. simpl. by apply N.eqb_eq.
Qed.

(** ** Rolling over to a new file *)

Lemma elem_fst (fs : Files) id rs : (id, rs) ∈ fs → id ∈ fs.*1.
Proof. apply (list_elem_of_fmap_2 fst). Qed.

Lemma snoc_places_nil fs id : places (fs ++ [(id, [])]) = places fs.
Proof. by rewrite places_app, places_one, app_nil_r. Qed.

(** The store after sealing: everything on disk, with a hint for all of it. *)
Lemma seal_inv s fs rs :
  SInv s fs rs →
  let s' := seal_active s in
  dir_ok (s_dir s') (fs ++ [(active_id s, rs)]) ∧
  dom (d_data (s_dir s')) = list_to_set (fs.*1 ++ [active_id s]) ∧
  dom (d_hint (s_dir s')) ⊆ dom (d_data (s_dir s')) ∧
  s_keydir s' = s_keydir s ∧ s_live_bytes s' = s_live_bytes s ∧ s_disk_bytes s' = s_disk_bytes s ∧
  s_readers s' = s_readers s ∧ s_opts s' = s_opts s ∧ s_active_hints s' = [] ∧
  s_compacting s' = s_compacting s ∧ s_restoring s' = s_restoring s ∧
  (∀ id n, s_sealed_synced s' !! id = Some n →
    ∃ rs', (id, rs') ∈ fs ++ [(active_id s, rs)] ∧ n = blen (file_bytes rs')).
Proof.
  intros HI. destruct (sync_inv s fs rs HI) as (HI' & Hp & Ha & Hsy & Hd).
  pose proof (si_writer _ _ _ HI') as (r0 & r1 & r2 & Ers & _ & _ & _ & Ho & _). rewrite <-Ers in Ho.
  pose proof HI' as [[D1 D2 D3 D4] I2 I3 I3' I4 I5 I6 I7 I8 I9 I10 I11 I12].
  rewrite Ha in *. unfold seal_active. set (s1 := store_sync s) in *.
  assert (∀ id rs', (id, rs') ∈ fs → id ≠ active_id s) as Hne.
  { intros id rs' Hin ->. pose proof (sorted_snoc_lt _ _ _ I2 (elem_fst _ _ _ Hin)). lia. }
  assert (same_but_writer s s1) as (Q1 & Q2 & Q3 & Q4 & Q5 & Q6 & Q7 & Q8 & Q9 & Q10) by apply on_writer_same.
  cbn zeta. split_and!; try done.
  - split.
    + intros id rs' [Hin|[= -> ->]%list_elem_of_singleton]%elem_of_app; [by apply D1|done].
    + intros id rs' bs [Hin|[= -> ->]%list_elem_of_singleton]%elem_of_app; simpl.
      * rewrite lookup_insert_ne; [by apply D2|]. change (lw_file_id (s_writer s1)) with (active_id s1).
        rewrite Ha. intros E. by apply (Hne id rs').
      * change (lw_file_id (s_writer s1)) with (active_id s1). rewrite Ha, lookup_insert_eq.
        intros [= <-]. rewrite Ho. by apply hint_file_ok_all.
    + rewrite all_recs_app, all_recs_one. by apply Forall_app.
    + intros id rs' [Hin|[= -> ->]%list_elem_of_singleton]%elem_of_app; [by eapply D4|]. by rewrite <-Ho.
  - simpl. rewrite dom_insert_L. change (lw_file_id (s_writer s1)) with (active_id s1). rewrite Ha, I3 in *.
    set_solver.
  - intros id n. simpl. change (lw_file_id (s_writer s1)) with (active_id s1). rewrite Ha.
    rewrite lookup_insert_Some. intros [[<- <-]|[_ Hn]].
    + exists rs. rewrite elem_of_app, list_elem_of_singleton. split; [by right|].
      unfold is_synced in Hsy. apply N.eqb_eq in Hsy. by rewrite Hsy.
    + destruct (I12 id n Hn) as (rs' & Hin & ->). exists rs'. rewrite elem_of_app. auto.
Qed.

Lemma roll_inv s fs rs id :
  SInv s fs rs → active_id s < id →
  let s' := open_active id (seal_active s) in
  SInv s' (fs ++ [(active_id s, rs)]) [] ∧ active_id s' = id ∧
  s_opts s' = s_opts s ∧ s_compacting s' = s_compacting s ∧ s_restoring s' = s_restoring s.
Proof.
  intros HI Hid. pose proof (seal_inv s fs rs HI) as Hs. cbn zeta in Hs.
  destruct Hs as ([D1 D2 D3 D4] & Hdom & Hhd & K & L & Di & R & O & A & C & Re & Sy).
  unfold open_active. set (s1 := seal_active s) in *. clearbody s1.
  assert (∀ x, x ∈ fs.*1 ++ [active_id s] → x < id) as Hlt.
  { intros x [Hx|Hx%list_elem_of_singleton]%elem_of_app; [|by subst].
    pose proof (sorted_snoc_lt _ _ _ (si_sorted _ _ _ HI) Hx). lia. }
  assert (d_data (s_dir s1) !! id = None) as Hfresh.
  { apply not_elem_of_dom. rewrite Hdom, elem_of_list_to_set. intros Hx%Hlt. lia. }
  unfold LogWriter_open. assert (data_file (s_dir s1) id = []) as Hdf by (unfold data_file; by rewrite Hfresh).
  assert (data_file (write_all id [] (s_dir s1)) id = []) as Hdf'.
  { unfold data_file. simpl. by rewrite lookup_insert_eq, Hdf. }
  rewrite Hdf'. cbn zeta. split; [|simpl; by rewrite O, C, Re].
  assert (active_id (s_set_readers ({[id]} ∪ s_readers s1) (s_set_writer (mkLogWriter id (blen (@nil byte))
    (blen (@nil byte)) (blen (@nil byte)) []) (s_set_dir (write_all id [] (s_dir s1)) s1))) = id) as Ha by done.
  split; unfold all_files; rewrite ?Ha; simpl; rewrite ?fmap_app; simpl.
  - split; try done.
    + intros i rs' Hin. simpl. rewrite lookup_insert_ne; [by apply D1|].
      intros <-. apply elem_fst in Hin. rewrite fmap_app in Hin. apply Hlt in Hin. lia.
  - by apply sorted_snoc; [apply (si_sorted _ _ _ HI)|].
  - rewrite dom_insert_L, Hdom. set_solver.
  - rewrite dom_insert_L. set_solver.
  - exists [], [], []. split; [done|]. unfold Wsplit. simpl. by rewrite lookup_insert_eq, Hdf.
  - intros bs Hbs. apply elem_of_dom_2 in Hbs. apply Hhd in Hbs. apply not_elem_of_dom in Hfresh. done.
  - constructor.
  - done.
  - rewrite R, (si_readers _ _ _ HI). set_solver.
  - rewrite snoc_places_nil. unfold indexing_of. simpl. rewrite K, L, Di. apply (si_index _ _ _ HI).
  - by rewrite A.
  - rewrite O. apply (si_max _ _ _ HI).
  - done.
Qed.

(** Either the same active file, or it was sealed and the next one is new. *)
Definition rolled (s : Store) (fs : Files) (rs : list Rec) (s' : Store) (fs' : Files) (rs' : list Rec) : Prop :=
  (fs' = fs ∧ rs' = rs ∧ active_id s' = active_id s) ∨
  (fs' = fs ++ [(active_id s, rs)] ∧ rs' = [] ∧ active_id s' = active_id s + 1).

Lemma rolled_recs s fs rs s' fs' rs' : rolled s fs rs s' fs' rs' → all_recs fs' ++ rs' = all_recs fs ++ rs.
Proof. intros [(-> & -> & _)|(-> & -> & _)]; [done|]. by rewrite all_recs_app, all_recs_one, app_nil_r. Qed.

Lemma roll_keydir incoming s : s_keydir (roll_if_needed incoming s) = s_keydir s.
Proof.
  unfold roll_if_needed. destruct (_ || _); [done|]. unfold open_active, LogWriter_open. cbn zeta.
  unfold seal_active, store_sync, on_writer. by destruct (LogWriter_sync _).
Qed.

Lemma roll_if_needed_inv s fs rs incoming :
  SInv s fs rs → is_u32 incoming →
  ∃ fs' rs', let s' := roll_if_needed incoming s in
    SInv s' fs' rs' ∧ rolled s fs rs s' fs' rs' ∧
    is_u64 (lw_offset (s_writer s') + incoming) ∧
    s_opts s' = s_opts s ∧ s_compacting s' = s_compacting s ∧ s_restoring s' = s_restoring s.
Proof.
  intros HI Hin. unfold roll_if_needed.
  destruct ((lw_offset (s_writer s) =? 0) || _) eqn:Hc.
  - exists fs, rs. split_and!; try done; [by left|]. pose proof (si_max _ _ _ HI) as Hm.
    apply orb_true_iff in Hc as [Hc|Hc]; [apply N.eqb_eq in Hc|apply N.leb_le in Hc];
      unfold is_u32, is_u64, TWO32, TWO64 in *; lia.
  - destruct (roll_inv s fs rs (lw_file_id (s_writer s) + 1) HI) as (HI' & Ha & Ho & Hco & Hre);
      [unfold active_id; lia|].
    exists (fs ++ [(active_id s, rs)]), []. cbn zeta. split_and!; try done.
    + right. split_and!; try done.
    + destruct (si_writer _ _ _ HI') as (r0 & r1 & r2 & E & _ & _ & _ & Hoff & _).
      rewrite <-E in Hoff. rewrite Hoff. change (blen (file_bytes [])) with 0.
      unfold is_u32, is_u64, TWO32, TWO64 in *. lia.
Qed.

(** ** Appending a record *)

(** The store with one more record, its index moved by [index_entry]. *)
Lemma SInv_append s fs rs r e d w s' :
  SInv s fs rs → rec_ok r → is_u64 (lw_offset (s_writer s) + blen (rec_bytes r)) →
  Wok d w (rs ++ [r]) → lw_synced (s_writer s) ≤ lw_synced w → lw_file_id w = active_id s → only_data (active_id s) (s_dir s) d →
  entry_at (blen (file_bytes rs)) r e →
  s_dir s' = d → s_writer s' = w → s_readers s' = s_readers s → s_opts s' = s_opts s →
  s_sealed_synced s' = s_sealed_synced s → s_active_hints s' = s_active_hints s ++ [e] →
  indexing_of s' = index_entry (active_id s) (indexing_of s) e →
  SInv s' fs (rs ++ [r]).
Proof.
  intros HI Hr Hu HW Hsy Hid Hod He Ed Ew Er Eo Es Eh Ei.
  pose proof (only_data_hint _ _ _ Hod) as [Hh _].
  assert (active_id s' = active_id s) as Ha by (unfold active_id; by rewrite Ew).
  assert (lw_offset (s_writer s) = blen (file_bytes rs)) as Hoff.
  { destruct (si_writer _ _ _ HI) as (r0 & r1 & r2 & -> & _ & _ & _ & Hoff & _). done. }
  destruct HI as [[D1 D2 D3 D4] I2 I3 I3' I4 I5 I6 I7 I8 I9 I10 I11 I12].
  split; unfold all_files; rewrite ?Ha, ?Ed, ?Ew, ?Er, ?Eo, ?Es, ?Eh; try done.
  - split; try done.
    + intros id rs' Hin. rewrite (only_data_lookup _ _ _ _ Hod); [by apply D1|].
      pose proof (sorted_snoc_lt _ _ id I2 (elem_fst _ _ _ Hin)). lia.
    + intros id rs' bs Hin. rewrite Hh. by apply D2.
  - rewrite (only_data_dom _ _ _ Hod), I3. set_solver.
  - rewrite (only_data_dom _ _ _ Hod), Hh. set_solver.
  - intros bs. rewrite Hh. intros Hbs. eapply hint_synced_more; [by apply prefix_app_r| |by apply I5]. done.
  - apply Forall_app. by split; [|apply Forall_singleton].
  - destruct HW as (r0 & r1 & r2 & E & _ & _ & _ & Ho & _). rewrite <-E in Ho.
    rewrite Ho, file_bytes_snoc, blen_app. by rewrite <-Hoff.
  - rewrite Ei. rewrite places_app, places_one, places_from_app, (assoc_L (++)), N.add_0_l. simpl.
    unfold all_files in I9. rewrite places_app, places_one in I9.
    by apply index_entry_ok.
  - by apply entries_at_snoc.
Qed.

Lemma indexing_append s (key : bytes) (loc : Location) (e : HintEntry) (tomb : bool) :
  e = mkHintEntry key (loc_offset loc) (loc_len loc) (loc_tstamp loc) tomb →
  let s2 := keydir_remove key (s_set_disk_bytes (s_disk_bytes s + loc_len loc) s) in
  index_entry (loc_file_id loc) (indexing_of s) e =
  if tomb then indexing_of s2
  else indexing_of (s_set_keydir (<[key := loc]> (s_keydir s2))
                     (s_set_live_bytes (s_live_bytes s2 + loc_len loc) s2)).
Proof.
  intros ->. unfold index_entry, indexing_of, keydir_remove. simpl.
  destruct (s_keydir s !! key) as [old|] eqn:Ek; simpl; destruct tomb; simpl; destruct loc; simpl; try done.
  - by rewrite insert_delete_eq.
  - by rewrite delete_id.
Qed.

Lemma keydir_remove_same key s :
  let s' := keydir_remove key s in
  s_dir s' = s_dir s ∧ s_writer s' = s_writer s ∧ s_readers s' = s_readers s ∧ s_opts s' = s_opts s ∧
  s_sealed_synced s' = s_sealed_synced s ∧ s_active_hints s' = s_active_hints s ∧
  s_compacting s' = s_compacting s ∧ s_restoring s' = s_restoring s.
Proof. unfold keydir_remove. by destruct (s_keydir s !! key). Qed.

Lemma keydir_remove_lookup key s k : k ≠ key → s_keydir (keydir_remove key s) !! k = s_keydir s !! k.
Proof. intros Hk. unfold keydir_remove. destruct (s_keydir s !! key); [|done]. simpl. by apply lookup_delete_ne. Qed.

(** Append [r] as [put_with] and [delete_with] do, and let [fin] finish the index. *)
Lemma append_record_inv s fs rs r reach now' :
  SInv s fs rs → rec_ok r → is_u64 now' →
  let '(loc, s2) := append_record (r_key r) (rec_bytes r) (bool_decide (r_value r = None)) reach now' s in
  let s' := if bool_decide (r_value r = None) then s2
            else s_set_keydir (<[r_key r := loc]> (s_keydir s2))
                   (s_set_live_bytes (s_live_bytes s2 + loc_len loc) s2) in
  ∃ fs' rs', SInv s' fs' (rs' ++ [r]) ∧ all_recs fs' ++ rs' = all_recs fs ++ rs ∧
    s_opts s' = s_opts s ∧ s_compacting s' = s_compacting s ∧ s_restoring s' = s_restoring s ∧
    lw_synced (s_writer s') ≤ lw_offset (s_writer s') ∧
    (reach = Disk → is_synced s' = true) ∧ (reach ≠ Buffer → lw_pending (s_writer s') = []) ∧
    rolled s fs rs s' fs' rs' ∧ (∀ k, k ≠ r_key r → s_keydir s' !! k = s_keydir s !! k).
Proof.
  intros HI Hr Hts. unfold append_record.
  destruct (roll_if_needed_inv s fs rs (blen (rec_bytes r)) HI) as (fs' & rs' & HI' & Hroll & Hu & Ho & Hc & Hre);
    [apply Hr|]. pose proof (rolled_recs _ _ _ _ _ _ Hroll) as Hall.
  pose proof (roll_keydir (blen (rec_bytes r)) s) as Hkd.
  cbn zeta in *. set (s1 := roll_if_needed _ s) in *. clearbody s1.
  pose proof (si_writer _ _ _ HI') as (q0 & q1 & q2 & Eq & Hsplit).
  pose proof (append_split _ _ _ _ _ r reach Hsplit Hr) as Ha. unfold on_writer.
  destruct (LogWriter_append (rec_bytes r) reach (s_dir s1, s_writer s1)) as [[offset len] [d w]].
  destruct Ha as (-> & -> & (p0 & p1 & p2 & E & HW & Hpre & Hb & Hd) & Hid & Hod). rewrite <-Eq in *.
  set (loc := mkLocation _ _ _ _).
  set (e := mkHintEntry _ _ _ _ _).
  set (s2 := s_set_dir d (s_set_writer w s1)).
  exists fs', rs'.
  assert (Wok d w (rs' ++ [r])) as HWok by (exists p0, p1, p2; by rewrite E, Eq, <-!(assoc_L (++))).
  pose proof HW as (W1 & W2 & W3 & W4 & W5).
  assert (entry_at (blen (file_bytes rs')) r e) as He by (by split_and!).
  pose proof (indexing_append (s_set_active_hints (s_active_hints s2 ++ [e]) s2) (r_key r) loc e
    (bool_decide (r_value r = None)) eq_refl) as Hix.
  change (indexing_of (s_set_active_hints (s_active_hints s2 ++ [e]) s2)) with (indexing_of s1) in Hix.
  change (loc_file_id loc) with (lw_file_id w) in Hix. rewrite Hid in Hix. cbn zeta in Hix.
  set (s3 := s_set_disk_bytes _ _) in *.
  destruct (keydir_remove_same (r_key r) s3) as (K1 & K2 & K3 & K4 & K5 & K6 & K7 & K8).
  set (s4 := keydir_remove (r_key r) s3) in *.
  assert (lw_synced w ≤ lw_offset w) as Hle.
  { rewrite W5, W4, file_bytes_app, blen_app. lia. }
  assert (reach = Disk → is_synced s4 = true) as Hsy.
  { intros Hd'. destruct (Hd Hd') as [-> ->]. unfold is_synced. rewrite K2. simpl.
    rewrite W5, W4. simpl. rewrite app_nil_r. apply N.eqb_refl. }
  assert (reach ≠ Buffer → lw_pending (s_writer s4) = []) as Hpe.
  { intros Hb'. rewrite K2. simpl. rewrite W2, (Hb Hb'). done. }
  assert (lw_synced (s_writer s1) ≤ lw_synced w) as Hmono.
  { destruct Hsplit as (_ & _ & _ & _ & ->). rewrite W5. destruct Hpre as [q ->].
    rewrite file_bytes_app, blen_app. lia. }
  assert (active_id s4 = active_id s1) as Ha4 by (unfold active_id; rewrite K2; exact Hid).
  assert (∀ k, k ≠ r_key r → s_keydir s4 !! k = s_keydir s !! k) as Hk4.
  { intros k Hk. unfold s4. rewrite keydir_remove_lookup by done. by rewrite <-Hkd. }
  case_bool_decide as Hv.
  - split_and!; try done; [|by rewrite K4|by rewrite K7|by rewrite K8|by rewrite K2|by unfold rolled; rewrite Ha4].
    eapply (SInv_append s1 fs' rs' r e d w); try done; by rewrite <-?Hix.
  - split_and!; try done; simpl; [|by rewrite K4|by rewrite K7|by rewrite K8|by rewrite K2|by unfold rolled in *; rewrite <-Ha4 in Hroll|].
    + eapply (SInv_append s1 fs' rs' r e d w); try done; by rewrite <-?Hix.
    + intros k Hk. by rewrite lookup_insert_ne, Hk4.
Qed.
