(* ===== verification/StoreMap.v ===== *)
(** * The store is a map from keys to values

    [Refines s m]: the store is in a state its invariant allows, and means the map
    [m]. Reads return what [m] holds and every write does to [m] what its name says,
    with the errors it refuses a write with. *)

From S2P Require Import Prelude.
From S2P Require Import Crc.
From S2P Require Import RecordFormat.
From S2P Require Import DataLog.
From S2P Require Import HintFile.
From S2P Require Import Store.
From S2P Require Import StoreIndex.
From S2P Require Import StoreInv.
From S2P Require Import StoreOps.

#[local] Open Scope N_scope.
#[local] Opaque rec_bytes.

Definition Refines (s : Store) (m : gmap bytes bytes) : Prop :=
  ∃ fs rs, SInv s fs rs ∧ contents s fs rs = m.

Lemma Refines_get s m k : Refines s m → store_get s k = Ok (m !! k).
Proof. intros (fs & rs & HI & <-). by apply get_ok. Qed.

Lemma Refines_dom s m k : Refines s m → is_Some (s_keydir s !! k) ↔ is_Some (m !! k).
Proof.
  intros (fs & rs & HI & <-). rewrite contents_lookup.
  pose proof (ixd_keydir _ _ (si_index _ _ _ HI) k) as Hk. simpl in Hk.
  destruct (index_of _ !! k) as [p|] eqn:E; inversion Hk as [? l Hl|]; subst; simpl; [|done].
  apply index_of_Some in E as (_ & _ & [v ->]). split; by eexists.
Qed.

Lemma Refines_contains s m k : Refines s m → contains_key s k = bool_decide (is_Some (m !! k)).
Proof. intros HR. unfold contains_key. apply bool_decide_ext. by apply Refines_dom. Qed.

Lemma Refines_counts s m :
  Refines s m →
  s_live_bytes s = total (map_imap (λ k v, Some (entry_len k v)) m) ∧ s_live_bytes s ≤ s_disk_bytes s.
Proof.
  intros (fs & rs & HI & <-). destruct (si_index _ _ _ HI) as [Hk Hl Hd]. simpl in *.
  rewrite Hl, Hd, live_of_total, (keydir_ok_lens _ _ Hk). split; [|apply index_total_le].
  by rewrite index_lens, places_recs.
Qed.

(** A store answers as the map it means. Every read of a key returns that key's
    value in the map, or nothing if it has none, and never an error; membership and
    the number of keys agree with it; and the live bytes counted are exactly the
    bytes its keys and values take, never more than the bytes on disk. *)
Theorem store_reads_as_map (s : Store) (m : gmap bytes bytes) (k : bytes) :
  Refines s m →
  store_get s k = Ok (m !! k) ∧ contains_key s k = bool_decide (is_Some (m !! k)) ∧
  st_keys (store_stats s) = N.of_nat (size m) ∧
  st_live_bytes (store_stats s) = total (map_imap (λ k v, Some (entry_len k v)) m) ∧
  st_live_bytes (store_stats s) ≤ st_disk_bytes (store_stats s).
Proof.
  intros HR. split_and!; [by apply Refines_get|by apply Refines_contains| |by destruct (Refines_counts s m HR)..].
  simpl. rewrite <-!size_dom. do 2 f_equal. apply set_eq. intros x.
  rewrite !elem_of_dom. by apply Refines_dom.
Qed.

(** ** Writes *)

(** The record fits the index's 32-bit length. *)
Definition fits (k v : bytes) : Prop := is_u32 (entry_len k v).

Lemma fits_rec_ok k v now :
  k ≠ [] → fits k v → is_u64 now → rec_ok (mkRec k (Some v) now).
Proof.
  intros Hk Hf Ht. unfold rec_ok, fits, entry_len in *. rewrite rec_bytes_len. cbn [r_key r_value r_tstamp].
  simpl default. split_and!; [|done|done]. unfold record_ok, is_u32, U32_MAX, TWO32 in *. simpl. split_and!; [done|lia..].
Qed.

Lemma record_encode_rec k v now :
  record_ok k v → record_encode k v now = Ok (rec_bytes (mkRec k v now)).
Proof. intros H. rewrite record_encode_ok by done. Transparent rec_bytes. done. Opaque rec_bytes. Qed.

(** One record appended: [s'] is [s] with [r] at its end, and only [r]'s key moved. *)
Record Appended (s : Store) (fs : Files) (rs : list Rec) (r : Rec) (reach : Reach)
    (s' : Store) (fs' : Files) (rs' : list Rec) : Prop := {
  ap_inv : SInv s' fs' (rs' ++ [r]);
  ap_rolled : rolled s fs rs s' fs' rs';
  ap_keydir : ∀ k, k ≠ r_key r → s_keydir s' !! k = s_keydir s !! k;
  ap_synced : reach = Disk → is_synced s' = true;
  ap_restoring : s_restoring s' = s_restoring s;
  ap_compacting : s_compacting s' = s_compacting s;
  ap_opts : s_opts s' = s_opts s;
}.

Lemma Appended_contents s fs rs r reach s' fs' rs' :
  Appended s fs rs r reach s' fs' rs' → contents s' fs' (rs' ++ [r]) = replay_step (contents s fs rs) r.
Proof.
  intros HA. pose proof (rolled_recs _ _ _ _ _ _ (ap_rolled _ _ _ _ _ _ _ _ HA)) as Hall.
  unfold contents. by rewrite !all_recs_files, (assoc_L (++)), Hall, replay_snoc.
Qed.

Lemma put_step s fs rs k v reach now now' :
  SInv s fs rs → s_restoring s = false → k ≠ [] → fits k v → is_u64 now → is_u64 now' →
  ∃ s' fs' rs', put_with k v reach now now' s = (Ok tt, s') ∧
    Appended s fs rs (mkRec k (Some v) now) reach s' fs' rs'.
Proof.
  intros HI Hre Hk Hf Ht Ht'. pose proof (fits_rec_ok k v now Hk Hf Ht) as Hr.
  unfold put_with. rewrite Hre, record_encode_rec by apply Hr.
  pose proof (append_record_inv s fs rs _ reach now' HI Hr Ht') as Ha.
  cbn [r_key r_value] in Ha. rewrite bool_decide_false in Ha by done.
  destruct (append_record k _ false reach now' s) as [loc s2].
  destruct Ha as (fs' & rs' & HI' & _ & Ho & Hc & Hr' & _ & Hs & _ & Hroll & Hkd).
  eexists _, fs', rs'. split; [reflexivity|]. by split.
Qed.

Lemma live_key_rec_ok s fs rs k now :
  SInv s fs rs → is_Some (s_keydir s !! k) → is_u64 now → rec_ok (mkRec k None now).
Proof.
  intros HI [loc Hin] Ht.
  destruct (keydir_ok_lookup _ _ k loc (ixd_keydir _ _ (si_index _ _ _ HI)) Hin) as (p & Hp & _).
  apply index_of_Some in Hp as (Hp & Hk & _).
  assert (rec_ok (pl_rec p)) as Hr by (by eapply SInv_rec_ok).
  unfold rec_ok in *. rewrite rec_bytes_len in *. cbn [r_key r_value r_tstamp]. rewrite Hk in Hr.
  destruct Hr as ((H1 & H2 & H3) & _ & H4). unfold record_ok, is_u32, U32_MAX, TWO32 in *.
  simpl default. rewrite blen_nil. split_and!; [done..|lia|done|lia].
Qed.

Lemma delete_step s fs rs k reach now now' :
  SInv s fs rs → s_restoring s = false → is_Some (s_keydir s !! k) → is_u64 now → is_u64 now' →
  ∃ s' fs' rs', delete_with k reach now now' s = (Ok true, s') ∧
    Appended s fs rs (mkRec k None now) reach s' fs' rs'.
Proof.
  intros HI Hre Hin Ht Ht'. pose proof (live_key_rec_ok s fs rs k now HI Hin Ht) as Hr.
  unfold delete_with, contains_key. rewrite Hre, bool_decide_true by done. simpl.
  rewrite record_encode_rec by apply Hr.
  pose proof (append_record_inv s fs rs _ reach now' HI Hr Ht') as Ha.
  cbn [r_key r_value] in Ha. rewrite bool_decide_true in Ha by done.
  destruct (append_record k _ true reach now' s) as [loc s2].
  destruct Ha as (fs' & rs' & HI' & _ & Ho & Hc & Hr' & _ & Hs & _ & Hroll & Hkd).
  eexists _, fs', rs'. split; [reflexivity|]. by split.
Qed.

Lemma put_refines s m k v reach now now' :
  Refines s m → s_restoring s = false → k ≠ [] → fits k v → is_u64 now → is_u64 now' →
  ∃ s', put_with k v reach now now' s = (Ok tt, s') ∧ Refines s' (<[k := v]> m) ∧
    (reach = Disk → is_synced s' = true) ∧ s_restoring s' = false ∧ s_compacting s' = s_compacting s ∧
    s_opts s' = s_opts s.
Proof.
  intros (fs & rs & HI & <-) Hre Hk Hf Ht Ht'.
  destruct (put_step s fs rs k v reach now now' HI Hre Hk Hf Ht Ht') as (s' & fs' & rs' & E & HA).
  exists s'. pose proof HA as [A1 A2 A3 A4 A5 A6 A7]. split_and!; try done; [|by rewrite A5].
  exists fs', (rs' ++ [mkRec k (Some v) now]). split; [done|]. by rewrite (Appended_contents _ _ _ _ _ _ _ _ HA).
Qed.

Lemma delete_refines s m k reach now now' :
  Refines s m → s_restoring s = false → is_u64 now → is_u64 now' →
  ∃ s', delete_with k reach now now' s = (Ok (bool_decide (is_Some (m !! k))), s') ∧
    Refines s' (delete k m) ∧ (reach = Disk → is_Some (m !! k) → is_synced s' = true) ∧
    s_restoring s' = false ∧ s_compacting s' = s_compacting s ∧ s_opts s' = s_opts s.
Proof.
  intros HR Hre Ht Ht'. destruct (decide (is_Some (m !! k))) as [Hin|Hout]; cycle 1.
  { unfold delete_with. rewrite Hre, (Refines_contains s m), bool_decide_false by done. simpl.
    exists s. split_and!; try done. rewrite delete_id; [done|]. by apply eq_None_not_Some. }
  rewrite bool_decide_true by done. apply (Refines_dom s m k HR) in Hin as Hkd.
  destruct HR as (fs & rs & HI & <-).
  destruct (delete_step s fs rs k reach now now' HI Hre Hkd Ht Ht') as (s' & fs' & rs' & E & HA).
  exists s'. pose proof HA as [A1 A2 A3 A4 A5 A6 A7]. split_and!; try done; [|by auto|by rewrite A5].
  exists fs', (rs' ++ [mkRec k None now]). split; [done|]. by rewrite (Appended_contents _ _ _ _ _ _ _ _ HA).
Qed.

(** A put stores the value and nothing else. For a key that is not empty and a
    record that fits the index's 32-bit length, [put] succeeds, the store then means
    the old map with that one key set, and with the policy that syncs every write it
    is on disk; an empty key or an oversized one is refused and leaves the store
    exactly as it was, as does any write while a restore is out. *)
Theorem store_put_exact (s : Store) (m : gmap bytes bytes) (k v : bytes) (reach : Reach) (now now' : N) :
  Refines s m → is_u64 now → is_u64 now' →
  (s_restoring s = false → k ≠ [] → fits k v →
    ∃ s', put_with k v reach now now' s = (Ok tt, s') ∧ Refines s' (<[k := v]> m) ∧
      (reach = Disk → is_synced s' = true)) ∧
  (s_restoring s = true → put_with k v reach now now' s = (Err restore_in_progress, s)) ∧
  (s_restoring s = false → ¬ record_ok k (Some v) →
    ∃ e, record_encode k (Some v) now = Err e ∧ put_with k v reach now now' s = (Err e, s)).
Proof.
  intros HR Ht Ht'. split_and!.
  - intros Hre Hk Hf. destruct (put_refines s m k v reach now now' HR Hre Hk Hf Ht Ht')
      as (s' & E & HR' & Hs & _). eauto.
  - intros Hre. unfold put_with. by rewrite Hre.
  - intros Hre Hno. unfold put_with. rewrite Hre.
    destruct (record_encode k (Some v) now) as [bs|e] eqn:E; [|by eauto].
    by apply record_encode_inv in E as [? _].
Qed.

(** A delete removes the key and nothing else, and says whether it was there: the
    store then means the map without it, on disk at once under the policy that syncs
    every write; a key that is not there writes nothing; while a restore is out it is
    refused. *)
Theorem store_delete_exact (s : Store) (m : gmap bytes bytes) (k : bytes) (reach : Reach) (now now' : N) :
  Refines s m → is_u64 now → is_u64 now' →
  (s_restoring s = false →
    ∃ s', delete_with k reach now now' s = (Ok (bool_decide (is_Some (m !! k))), s') ∧
      Refines s' (delete k m) ∧ (reach = Disk → is_Some (m !! k) → is_synced s' = true)) ∧
  (s_restoring s = false → m !! k = None → delete_with k reach now now' s = (Ok false, s)) ∧
  (s_restoring s = true → delete_with k reach now now' s = (Err restore_in_progress, s)).
Proof.
  intros HR Ht Ht'. split_and!.
  - intros Hre. destruct (delete_refines s m k reach now now' HR Hre Ht Ht') as (s' & E & HR' & Hs & _). eauto.
  - intros Hre Hm. unfold delete_with. rewrite Hre, (Refines_contains s m) by done.
    by rewrite bool_decide_false; [|rewrite Hm; by intros [? [=]]].
  - intros Hre. unfold delete_with. by rewrite Hre.
Qed.

Lemma sync_refines s m : Refines s m → Refines (store_sync s) m ∧ is_synced (store_sync s) = true.
Proof.
  intros (fs & rs & HI & <-). destruct (sync_inv s fs rs HI) as (HI' & _ & Ha & Hs & _).
  split; [|done]. exists fs, rs. split; [done|]. unfold contents. by rewrite !all_recs_files.
Qed.

(** ** A new store, and one with a few writes behind it *)

(** What opening an empty directory gives. *)
Definition fresh_store (opts : Options) : Store :=
  mkStore (mkDir {[1 := []]} ∅ ∅) ∅ {[1]} (mkLogWriter 1 0 0 0 []) opts 0 0 ∅ [] 0 false false.

Lemma fresh_inv opts : is_u64 (o_max_file_bytes opts) → SInv (fresh_store opts) [] [].
Proof.
  intros Hmax. split; simpl; try done.
  - split; simpl; intros; try (by apply not_elem_of_nil in H); constructor.
  - by repeat constructor.
  - by exists [], [], [].
  - apply Indexed_empty.
Qed.

Lemma fresh_refines opts : is_u64 (o_max_file_bytes opts) → Refines (fresh_store opts) ∅.
Proof. intros H. exists [], []. split; [by apply fresh_inv|done]. Qed.

(** Files of 40 bytes, so that every write starts one. *)
Definition small_files (sync : SyncPolicy) : Options := mkOptions sync 40 false.

(** Colours are set, one is dropped. *)
Definition colours (reach : Reach) : Store :=
  (delete_with (lit "sky") reach 7 7
    (put_with (lit "grass") (lit "green") reach 6 6
      (put_with (lit "sky") (lit "blue") reach 5 5 (fresh_store (small_files OsCache))).2).2).2.

Lemma colours_refines reach :
  Refines (colours reach) {[lit "grass" := lit "green"]} ∧ s_restoring (colours reach) = false ∧
  s_compacting (colours reach) = false.
Proof.
  destruct (put_refines (fresh_store (small_files OsCache)) ∅ (lit "sky") (lit "blue") reach 5 5)
    as (s1 & E1 & R1 & _ & P1 & Q1 & _); [by apply fresh_refines|done..|].
  destruct (put_refines s1 _ (lit "grass") (lit "green") reach 6 6 R1 P1) as (s2 & E2 & R2 & _ & P2 & Q2 & _);
    [done..|].
  destruct (delete_refines s2 _ (lit "sky") reach 7 7 R2 P2) as (s3 & E3 & R3 & _ & P3 & Q3 & _); [done..|].
  unfold colours. rewrite E1. cbn [snd]. rewrite E2. cbn [snd]. rewrite E3. cbn [snd].
  split_and!; [|done|by rewrite Q3, Q2, Q1].
  replace {[lit "grass" := lit "green"]} with
    (delete (lit "sky") (<[lit "grass" := lit "green"]> (<[lit "sky" := lit "blue"]> ∅ : gmap bytes bytes))); [done|].
  by apply (bool_decide_unpack _); vm_compute.
Qed.

Lemma store_reads_as_map_witness :
  Refines (colours Disk) {[lit "grass" := lit "green"]} ∧
  store_get (colours Disk) (lit "grass") = Ok (Some (lit "green")).
Proof.
  split; [apply colours_refines|].
  exact (proj1 (store_reads_as_map (colours Disk) _ (lit "grass") (proj1 (colours_refines Disk)))).
Defined.

Lemma store_put_exact_witness :
  ∃ s', put_with (lit "sea") (lit "blue") Disk 8 8 (colours Buffer) = (Ok tt, s') ∧
    Refines s' (<[lit "sea" := lit "blue"]> {[lit "grass" := lit "green"]}) ∧ (Disk = Disk → is_synced s' = true).
Proof.
  refine (proj1 (store_put_exact (colours Buffer) _ (lit "sea") (lit "blue") Disk 8 8
    (proj1 (colours_refines Buffer)) _ _) _ _ _); [done|done|apply colours_refines|done|done].
Defined.

Lemma store_delete_exact_witness :
  ∃ s', delete_with (lit "grass") Disk 8 8 (colours Buffer) = (Ok true, s') ∧
    Refines s' (delete (lit "grass") {[lit "grass" := lit "green"]}) ∧
    (Disk = Disk → is_Some (({[lit "grass" := lit "green"]} : gmap bytes bytes) !! lit "grass") → is_synced s' = true).
Proof.
  exact (proj1 (store_delete_exact (colours Buffer) {[lit "grass" := lit "green"]} (lit "grass") Disk 8 8
    (proj1 (colours_refines Buffer)) eq_refl eq_refl) (proj1 (proj2 (colours_refines Buffer)))).
Defined.
