(* ===== verification/KeyOrder.v ===== *)
(** * Keys in order

    The order on keys that [keys], views and snapshots sort by is total, and what is sorted
    by it depends only on which keys there are. *)

From S2P Require Import Prelude.
From S2P Require Import Store.
From S2P Require Import StoreMap.

#[local] Open Scope N_scope.

Lemma bytes_leb_total a b : bytes_leb a b = true ∨ bytes_leb b a = true.
Proof.
  revert b. induction a as [|x a IH]; intros [|y b]; [by left|by left|by right|]. simpl.
  rewrite (N.eqb_sym (Byte.to_N y)). destruct (N.eqb_spec (Byte.to_N x) (Byte.to_N y)); [apply IH|].
  rewrite !N.ltb_lt. lia.
Qed.

Lemma bytes_leb_antisymm a b : bytes_leb a b = true → bytes_leb b a = true → a = b.
Proof.
  revert b. induction a as [|x a IH]; intros [|y b]; [done|done|done|]. simpl.
  rewrite (N.eqb_sym (Byte.to_N y)). destruct (N.eqb_spec (Byte.to_N x) (Byte.to_N y)) as [E|E].
  - intros H1 H2. f_equal; [by apply byte_to_N_inj|by apply IH].
  - rewrite !N.ltb_lt. lia.
Qed.

Lemma bytes_leb_trans a b d : bytes_leb a b = true → bytes_leb b d = true → bytes_leb a d = true.
Proof.
  revert b d. induction a as [|x a IH]; intros [|y b] [|z d]; [done..|]. simpl.
  destruct (N.eqb_spec (Byte.to_N x) (Byte.to_N y)) as [E|E], (N.eqb_spec (Byte.to_N y) (Byte.to_N z)) as [E'|E'].
  - rewrite E, E', N.eqb_refl. apply IH.
  - rewrite E. destruct (N.eqb_spec (Byte.to_N y) (Byte.to_N z)); done.
  - rewrite <-E'. destruct (N.eqb_spec (Byte.to_N x) (Byte.to_N y)); [done|]. done.
  - rewrite !N.ltb_lt. intros H1 H2. destruct (N.eqb_spec (Byte.to_N x) (Byte.to_N z)); [lia|]. apply N.ltb_lt. lia.
Qed.

#[export] Instance bytes_le_total : Total bytes_le := bytes_leb_total.
#[export] Instance bytes_le_antisymm : AntiSymm (=) bytes_le := bytes_leb_antisymm.
#[export] Instance bytes_le_trans : Transitive bytes_le := bytes_leb_trans.

(** Sorting forgets the order things came in. *)
Lemma sort_Permutation (l l' : list bytes) : l ≡ₚ l' → merge_sort bytes_le l = merge_sort bytes_le l'.
Proof.
  intros Hl. apply (StronglySorted_unique bytes_le); [apply (StronglySorted_merge_sort bytes_le)..|].
  by rewrite !merge_sort_Permutation.
Qed.

Definition map_keys (m : gmap bytes bytes) : list bytes := (map_to_list m).*1.

Lemma store_keys_map s m : Refines s m → store_keys s ≡ₚ map_keys m.
Proof.
  intros HR. apply NoDup_Permutation; [apply NoDup_fst_map_to_list..|]. intros k. unfold store_keys, map_keys.
  rewrite !list_elem_of_fmap. pose proof (Refines_dom s m k HR) as Hk. split.
  - intros ([k' loc] & -> & Hin%elem_of_map_to_list). destruct Hk as [[v Hv] _]; [by eexists|].
    exists (k', v). split; [done|]. by apply elem_of_map_to_list.
  - intros ([k' v] & -> & Hin%elem_of_map_to_list). destruct Hk as [_ [loc Hl]]; [by eexists|].
    exists (k', loc). split; [done|]. by apply elem_of_map_to_list.
Qed.
