(* ===== verification/StoreOpen.v ===== *)
(** * Opening a store, and what survives a crash

    Opening a directory whose files hold records, the newest perhaps ending in part
    of one, gives a store that means exactly what the whole records replay to,
    whichever hints are there. From this, what a store left behind by a clean close, a
    kill, or a power cut means when it is opened again. *)

From S2P Require Import Prelude.
From S2P Require Import Crc.
From S2P Require Import RecordFormat.
From S2P Require Import DataLog.
From S2P Require Import HintFile.
From S2P Require Import Store.
From S2P Require Import StoreIndex.
From S2P Require Import StoreInv.
From S2P Require Import StoreOps.
From S2P Require Import StoreMap.

#[local] Open Scope N_scope.
#[local] Opaque rec_bytes.

(** What a write cut short leaves: nothing, or part of a record; and anything that is too
    short to be a record's header. *)
Definition torn_tail (tail : bytes) : Prop :=
  tail = [] ∨ blen tail < N.of_nat HEADER_LEN ∨ ∃ r, rec_ok r ∧ tail `prefix_of` rec_bytes r ∧ tail ≠ rec_bytes r.

(** ** Scanning *)

Lemma scan_loop_ok rs tail offset fuel acc :
  Forall rec_ok rs → torn_tail tail → (length (file_bytes rs ++ tail) < fuel)%nat →
  ∃ es torn, scan_loop fuel (mkScanner (file_bytes rs ++ tail) offset) acc = (acc ++ es, torn) ∧
    entries_at offset rs es ∧
    match torn with
    | None => tail = []
    | Some (at_, _) => tail ≠ [] ∧ at_ = offset + blen (file_bytes rs)
    end.
Proof.
  intros Hrs Ht. revert offset fuel acc.
  induction Hrs as [|r rs Hr Hrs IH]; intros offset fuel acc Hfuel;
    (destruct fuel as [|fuel]; [lia|]); cbn [scan_loop].
  - change (file_bytes [] ++ tail) with tail. destruct (decide (tail = [])) as [->|Hnil].
    + exists [], None. by rewrite app_nil_r.
    + assert (∃ detail s', next_record (mkScanner tail offset) = (STorn offset detail, s')) as (detail & s' & ->).
      { destruct Ht as [?|[?|(r & Hr & Hpre & Hne)]]; [done|by apply next_record_short|by eapply next_record_cut]. }
      exists [], (Some (offset, detail)). rewrite app_nil_r. split_and!; [done..|].
      change (file_bytes []) with (@nil byte). rewrite blen_nil. lia.
  - rewrite file_bytes_cons, <-(assoc_L (++)). rewrite next_record_whole by done.
    destruct (IH (offset + blen (rec_bytes r)) fuel
      (acc ++ [mkHintEntry (sc_key (scanned_at offset r)) (sc_offset (scanned_at offset r))
         (sc_len (scanned_at offset r)) (hdr_tstamp (sc_header (scanned_at offset r)))
         (is_tombstone (sc_header (scanned_at offset r)))])) as (es & torn & E & Hes & Htorn).
    { rewrite file_bytes_cons, <-(assoc_L (++)), length_app in Hfuel.
      pose proof (rec_bytes_len r) as Hl. unfold blen in Hl. lia. }
    rewrite E. eexists (_ :: es), torn. rewrite <-(assoc_L (++)). split_and!; [done| |].
    + split; [|done]. unfold scanned_at. simpl. split_and!; [done..| |apply Hr].
      rewrite record_is_tombstone. by destruct (r_value r).
    + destruct torn as [[at_ detail]|]; [|done]. destruct Htorn as [Hn ->]. split; [done|].
      rewrite blen_app. lia.
Qed.

(** ** One file *)

(** The entries a hint gives for a file, and where they end. *)
Lemma hinted_ok opts d id rs (file_len : N) :
  Forall rec_ok rs → is_u64 (blen (file_bytes rs)) → blen (file_bytes rs) ≤ file_len →
  (∀ bs, d_hint d !! id = Some bs → hint_file_ok bs rs) →
  ∃ k es, (if o_verify_on_open opts then ([], 0) else default ([], 0) (hint_load d id file_len))
      = (es, blen (file_bytes (take k rs))) ∧ entries_at 0 (take k rs) es.
Proof.
  intros Hrs Hu Hlen Hh. destruct (o_verify_on_open opts); [by exists 0%nat, []|].
  unfold hint_load. destruct (d_hint d !! id) as [bs|] eqn:E; [|by exists 0%nat, []].
  destruct (hint_file_ok_parse bs rs file_len Hrs Hu Hlen (Hh bs eq_refl)) as (k & es & Hes & ->).
  by exists k, es.
Qed.

(** Whatever the hint covered, the file ends up wholly indexed. *)
Lemma open_file_ok opts newest o id rs tail :
  Forall rec_ok rs → torn_tail tail → is_u64 (blen (file_bytes rs ++ tail)) →
  d_data (op_dir o) !! id = Some (file_bytes rs ++ tail) →
  (∀ bs, d_hint (op_dir o) !! id = Some bs → hint_file_ok bs rs) →
  (Some id ≠ newest → tail = []) →
  ∃ o' es, open_file opts newest id o = (Ok tt, o') ∧ entries_at 0 rs es ∧
    op_index o' = foldl (index_entry id) (op_index o) es ∧
    op_readers o' = {[id]} ∪ op_readers o ∧
    op_active_hints o' = (if bool_decide (Some id = newest) then es else op_active_hints o) ∧
    d_data (op_dir o') = <[id := file_bytes rs]> (d_data (op_dir o)) ∧
    d_part (op_dir o') = d_part (op_dir o) ∧
    (d_hint (op_dir o') = d_hint (op_dir o) ∨
     d_hint (op_dir o') = <[id := hint_bytes (blen (file_bytes rs)) es]> (d_hint (op_dir o))).
Proof.
  intros Hrs Ht Hu Hd Hh Hsealed. unfold open_file. rewrite (data_file_Some _ _ _ Hd).
  set (file := file_bytes rs ++ tail) in *.
  assert (blen (file_bytes rs) ≤ blen file) as Hle by (unfold file; rewrite blen_app; lia).
  destruct (hinted_ok opts (op_dir o) id rs (blen file) Hrs) as (k & es & -> & Hes);
    [unfold is_u64 in *; lia|done|done|].
  destruct (N.ltb_spec (blen (file_bytes (take k rs))) (blen file)) as [Hlt|Hge].
  - unfold Scanner_open_at.
    assert (drop (N.to_nat (blen (file_bytes (take k rs)))) file = file_bytes (drop k rs) ++ tail) as ->.
    { unfold file. rewrite <-(take_drop k rs) at 2. rewrite file_bytes_app, <-(assoc_L (++)).
      apply drop_app_length'. unfold blen. lia. }
    destruct (scan_loop_ok (drop k rs) tail (blen (file_bytes (take k rs))) (S (length file)) es)
      as (es' & torn & -> & Hes' & Htorn); [by apply Forall_drop|done| |].
    { unfold file. rewrite <-(take_drop k rs) at 2. rewrite file_bytes_app, !length_app. lia. }
    assert (entries_at 0 rs (es ++ es')) as Hall.
    { rewrite <-(take_drop k rs). by apply entries_at_app; rewrite ?N.add_0_l. }
    destruct torn as [[at_ detail]|].
    + destruct Htorn as [Hne ->]. rewrite bool_decide_true by (destruct (decide (Some id = newest)); naive_solver).
      cbn [negb]. eexists _, (es ++ es'). split_and!; [done|done..| |done|by left]. simpl.
      rewrite (data_file_Some _ _ _ Hd). f_equal.
      replace (blen (file_bytes (take k rs)) + blen (file_bytes (drop k rs))) with (blen (file_bytes rs)).
      2: { rewrite <-blen_app, <-file_bytes_app, take_drop. done. }
      unfold file, blen. rewrite Nat2N.id. apply take_app_length.
    + subst tail. unfold file in *. rewrite app_nil_r in *. case_bool_decide; cbn [negb].
      * eexists _, (es ++ es'). split_and!; [done|done..| |done|by left]. simpl. by rewrite insert_id.
      * eexists _, (es ++ es'). split_and!; [done|done..| |done|by right]. simpl. by rewrite insert_id.
  - assert (tail = [] ∧ file_bytes (drop k rs) = []) as [-> Hdrop].
    { unfold file in Hge. rewrite <-(take_drop k rs) in Hge at 1. rewrite file_bytes_app, !blen_app in Hge.
      split; apply blen_0; lia. }
    apply file_bytes_nil in Hdrop.
    assert (take k rs = rs) as Hk by (rewrite <-(take_drop k rs) at 2; by rewrite Hdrop, app_nil_r).
    rewrite Hk in Hes. unfold file in *. rewrite app_nil_r in *.
    eexists _, es. split_and!; [done|done..| |done|by left]. simpl. by rewrite insert_id.
Qed.

(** ** The whole directory *)

(** The files of a directory: [fs] sealed, and [a] the newest, holding [rs] and
    perhaps part of one more record. *)
Record disk_ok (d : Dir) (fs : Files) (a : N) (rs : list Rec) (tail : bytes) : Prop := {
  dk_sealed : dir_ok d fs;
  dk_sorted : StronglySorted N.lt (fs.*1 ++ [a]);
  dk_dom : dom (d_data d) = list_to_set (fs.*1 ++ [a]);
  dk_active : d_data d !! a = Some (file_bytes rs ++ tail);
  dk_hint : ∀ bs, d_hint d !! a = Some bs → hint_file_ok bs rs;
  dk_recs : Forall rec_ok rs;
  dk_tail : torn_tail tail;
  dk_len : is_u64 (blen (file_bytes rs ++ tail));
}.

#[export] Instance N_le_antisymm : AntiSymm (=) N.le.
Proof. intros x y. lia. Qed.

Lemma sorted_lt_NoDup (l : list N) : StronglySorted N.lt l → NoDup l.
Proof.
  induction 1 as [|x l Hl IH Hx]; [constructor|]. constructor; [|done].
  intros Hin. rewrite list.Forall_forall in Hx. specialize (Hx x Hin). lia.
Qed.

Lemma list_data_files_sorted d l :
  dom (d_data d) = list_to_set l → StronglySorted N.lt l → list_data_files d = l.
Proof.
  intros Hdom Hl. unfold list_data_files. apply (StronglySorted_unique N.le).
  - apply (StronglySorted_merge_sort N.le).
  - clear Hdom. induction Hl as [|x l Hl IH Hx]; constructor; [done|].
    eapply list.Forall_impl; [exact Hx|]. simpl. lia.
  - rewrite merge_sort_Permutation, Hdom. by apply elements_list_to_set, sorted_lt_NoDup.
Qed.

(** The loop over the files, part way. *)
Record Opened (d : Dir) (all : Files) (o : Opening) (done_ : Files) : Prop := {
  od_index : Indexed (op_index o) (places done_);
  od_readers : op_readers o = list_to_set done_.*1;
  od_data : d_data (op_dir o) = d_data d;
  od_hint : ∀ id rs bs, (id, rs) ∈ all → d_hint (op_dir o) !! id = Some bs → hint_file_ok bs rs;
  od_hint_dom : dom (d_hint (op_dir o)) ⊆ dom (d_data d);
  od_part : d_part (op_dir o) = d_part d;
}.

Lemma sorted_unique_file (fs : Files) id rs rs' :
  StronglySorted N.lt fs.*1 → (id, rs) ∈ fs → (id, rs') ∈ fs → rs = rs'.
Proof.
  intros Hs%sorted_lt_NoDup H1 H2. apply list_elem_of_lookup in H1 as [i Hi], H2 as [j Hj].
  assert (i = j) as ->; [|congruence].
  eapply (NoDup_lookup fs.*1 i j id); [done|..]; by rewrite list_lookup_fmap, ?Hi, ?Hj.
Qed.

Lemma open_sealed_ok opts newest d all o done_ id rs :
  Opened d all o done_ → StronglySorted N.lt all.*1 → (id, rs) ∈ all →
  Forall rec_ok rs → is_u64 (blen (file_bytes rs)) → d_data d !! id = Some (file_bytes rs) →
  Some id ≠ newest →
  ∃ o', open_file opts newest id o = (Ok tt, o') ∧ Opened d all o' (done_ ++ [(id, rs)]) ∧
    op_active_hints o' = op_active_hints o.
Proof.
  intros [O1 O2 O3 O4 O5 O6] Hs Hin Hrs Hu Hd Hne.
  destruct (open_file_ok opts newest o id rs []) as (o' & es & E & Hes & Hix & Hre & Hah & Hda & Hpa & Hhi);
    rewrite ?app_nil_r; try done; [by left|by rewrite O3|by intros bs; apply O4|].
  exists o'. split; [done|]. rewrite bool_decide_false in Hah by done. split; [|done].
  assert (d_data (op_dir o') = d_data d) as Hdd by (rewrite Hda, O3; by apply insert_id).
  split; [| |done|..].
  - rewrite Hix, places_app, places_one. by apply index_entries_ok.
  - rewrite Hre, O2, fmap_app. set_solver.
  - intros id' rs' bs Hin'. destruct Hhi as [->| ->]; [by apply O4|].
    rewrite lookup_insert_Some. intros [[<- <-]|[_ Hb]]; [|by eapply O4].
    rewrite (sorted_unique_file all id rs' rs) by done. by apply hint_file_ok_all.
  - destruct Hhi as [->| ->]; [done|]. rewrite dom_insert_L.
    assert (id ∈ dom (d_data d)) by (by apply elem_of_dom_2 in Hd). set_solver.
  - by rewrite Hpa.
Qed.

Lemma open_sealed_loop opts newest d all fs o done_ :
  Opened d all o done_ → StronglySorted N.lt all.*1 → fs ⊆ all → dir_ok d fs →
  newest ∉ Some <$> fs.*1 →
  ∃ o', miter (open_file opts newest) fs.*1 o = (Ok tt, o') ∧ Opened d all o' (done_ ++ fs) ∧
    op_active_hints o' = op_active_hints o.
Proof.
  revert o done_. induction fs as [|[id rs] fs IH]; intros o done_ HO Hs Hsub [D1 D2 D3 D4] Hnew.
  { exists o. by rewrite app_nil_r. }
  change (all_recs ((id, rs) :: fs)) with (rs ++ all_recs fs) in D3. apply Forall_app in D3 as [D3 D3'].
  assert ((id, rs) ∈ (id, rs) :: fs) as Hhere by apply list_elem_of_here.
  destruct (open_sealed_ok opts newest d all o done_ id rs HO Hs) as (o1 & E1 & HO1 & Ha1); eauto.
  { intros <-. apply Hnew. apply list_elem_of_here. }
  destruct (IH o1 (done_ ++ [(id, rs)]) HO1 Hs) as (o' & E & HO' & Ha).
  - intros x Hx. apply Hsub. by apply list_elem_of_further.
  - split; [|..|done|]; intros; [eapply D1|eapply D2|eapply D4]; (by apply list_elem_of_further) || done.
  - intros Hin. apply Hnew. by apply list_elem_of_further.
  - exists o'. rewrite <-(assoc_L (++)) in HO'. split_and!; [|done|congruence].
    cbn [fmap list_fmap fst miter]. unfold mbind, M_bind. by rewrite E1.
Qed.

Lemma miter_app {T A} (f : A → M T unit) l l' s s1 :
  miter f l s = (Ok tt, s1) → miter f (l ++ l') s = miter f l' s1.
Proof.
  revert s. induction l as [|x l IH]; intros s E; simpl in *.
  - by injection E as <-.
  - unfold mbind, M_bind in *. destruct (f x s) as [[[]|e] s']; [|done]. by apply IH.
Qed.

Lemma clear_leftovers_ok d fs a rs tail :
  disk_ok d fs a rs tail →
  Opened (clear_leftovers d) (fs ++ [(a, rs)]) (mkOpening (clear_leftovers d) (mkIndexing ∅ 0 0) ∅ [] 0) [].
Proof.
  intros [[D1 D2 D3 D4] K2 K3 K4 K5 K6 K7 K8]. split; try done; simpl.
  - apply Indexed_empty.
  - intros id rs' bs Hin [Hb _]%map_lookup_filter_Some.
    apply elem_of_app in Hin as [Hin|[= -> ->]%list_elem_of_singleton]; [by eapply D2|by apply K5].
  - intros id [bs [Hb Hid]%map_lookup_filter_Some]%elem_of_dom. simpl in *.
    unfold list_data_files in Hid. rewrite merge_sort_Permutation in Hid. by apply elem_of_elements in Hid.
Qed.

(** Opening a directory that holds records gives a store that means them. *)
Lemma open_ok opts d fs a rs tail :
  disk_ok d fs a rs tail → is_u64 (o_max_file_bytes opts) →
  ∃ s, open_with opts d = (Ok s, s_dir s) ∧ SInv s fs rs ∧ active_id s = a ∧
    s_restoring s = false ∧ s_compacting s = false ∧ s_opts s = opts ∧
    lw_pending (s_writer s) = [] ∧ is_synced s = true ∧ d_part (s_dir s) = ∅.
Proof.
  intros HK Hmax. pose proof (clear_leftovers_ok d fs a rs tail HK) as HO0.
  pose proof HK as [[D1 D2 D3 D4] K2 K3 K4 K5 K6 K7 K8]. unfold open_with.
  rewrite (list_data_files_sorted d (fs.*1 ++ [a])) by done. rewrite last_snoc.
  set (o0 := mkOpening _ _ _ _ _) in *.
  assert (StronglySorted N.lt (fs ++ [(a, rs)]).*1) as Hs by (by rewrite fmap_app).
  destruct (open_sealed_loop opts (Some a) (clear_leftovers d) (fs ++ [(a, rs)]) fs o0 []) as (o1 & E1 & HO1 & Ha1);
    [done|done|set_solver| | |].
  { split; try done. intros id rs' bs Hin [Hb _]%map_lookup_filter_Some. by eapply D2. }
  { intros (id & [= ->] & Hid)%list_elem_of_fmap. pose proof (sorted_snoc_lt _ _ _ K2 Hid). lia. }
  simpl in HO1. destruct HO1 as [O1 O2 O3 O4 O5 O6].
  destruct (open_file_ok opts (Some a) o1 a rs tail) as (o2 & es & E2 & Hes & Hix & Hre & Hah & Hda & Hpa & Hhi);
    try done; [by rewrite O3|..].
  { intros bs. apply O4. rewrite elem_of_app, list_elem_of_singleton. by right. }
  rewrite (miter_app _ _ _ _ _ E1). cbn [miter]. unfold mbind, M_bind. rewrite E2.
  rewrite bool_decide_true in Hah by done.
  unfold LogWriter_open, mret, M_ret. change (default 1 (Some a)) with a. cbv zeta iota beta.
  assert (d_data (op_dir o2) !! a = Some (file_bytes rs)) as Hd2 by (by rewrite Hda, lookup_insert_eq).
  assert (data_file (write_all a [] (op_dir o2)) a = file_bytes rs) as ->.
  { unfold data_file. simpl. by rewrite lookup_insert_eq, (data_file_Some _ _ _ Hd2), app_nil_r. }
  assert (write_all a [] (op_dir o2) = op_dir o2) as ->.
  { unfold write_all, set_data. rewrite (data_file_Some _ _ _ Hd2), app_nil_r, insert_id by done.
    by destruct (op_dir o2). }
  match goal with |- ∃ s, (Ok ?st, _) = _ ∧ _ => set (s := st); exists s end. split; [reflexivity|].
  assert (active_id s = a) as Ha by done.
  split_and!; try done; cycle 1.
  { unfold is_synced. simpl. apply N.eqb_refl. }
  { simpl. by rewrite Hpa, O6. }
  assert (∀ id rs', (id, rs') ∈ fs → id ≠ a) as Hne.
  { intros id rs' Hin ->. pose proof (sorted_snoc_lt _ _ _ K2 (elem_fst _ _ _ Hin)). lia. }
  assert (∀ id rs' bs, (id, rs') ∈ fs ++ [(a, rs)] → d_hint (op_dir o2) !! id = Some bs →
    hint_file_ok bs rs') as Hhint.
  { intros id rs' bs Hin. destruct Hhi as [->| ->]; [by apply O4|].
    rewrite lookup_insert_Some. intros [[<- <-]|[_ Hb]]; [|by eapply O4].
    rewrite (sorted_unique_file _ a rs' rs Hs Hin); [by apply hint_file_ok_all|].
    rewrite elem_of_app, list_elem_of_singleton. by right. }
  assert (dom (d_data (op_dir o2)) = list_to_set (fs.*1 ++ [a])) as Hdom.
  { rewrite Hda, O3, dom_insert_L. simpl. rewrite K3. set_solver. }
  split; unfold all_files; rewrite ?Ha; simpl; try done.
  - split; try done.
    + intros id rs' Hin. rewrite Hda, lookup_insert_ne, O3 by (intros <-; by eapply Hne). by apply D1.
    + intros id rs' bs Hin. apply Hhint. apply elem_of_app. by left.
  - rewrite Hdom. assert (dom (d_hint (op_dir o1)) ⊆ list_to_set (fs.*1 ++ [a])) by (by rewrite <-K3).
    destruct Hhi as [->| ->]; [done|]. rewrite dom_insert_L. set_solver.
  - exists rs, [], []. rewrite app_nil_r. split; [done|]. unfold Wsplit. simpl. by rewrite !app_nil_r.
  - intros bs Hb. exists rs. split_and!; [done|done|]. apply (Hhint a); [|done].
    rewrite elem_of_app, list_elem_of_singleton. by right.
  - rewrite blen_app in K8. unfold is_u64 in *. lia.
  - rewrite Hre, O2. set_solver.
  - rewrite places_app, places_one. unfold indexing_of. simpl. 
    replace (mkIndexing _ _ _) with (op_index o2) by (by destruct (op_index o2)).
    rewrite Hix. by apply index_entries_ok.
  - by rewrite Hah.
Qed.

(** Opening an empty directory gives the new store. *)
Lemma open_empty opts : open_with opts (mkDir ∅ ∅ ∅) = (Ok (fresh_store opts), s_dir (fresh_store opts)).
Proof. reflexivity. Qed.
