(* ===== verification/StoreCrash.v ===== *)
(** * What survives: closing, killing and cutting the power

    A store's history is the list of records it has appended, oldest first. However it
    ends, opening its directory again gives a store whose history is a prefix of it
    that contains every record that was synced. *)

From S2P Require Import Prelude.
From S2P Require Import Crc.
From S2P Require Import RecordFormat.
From S2P Require Import DataLog.
From S2P Require Import HintFile.
From S2P Require Import Store.
From S2P Require Import StoreIndex.
From S2P Require Import StoreInv.
From S2P Require Import StoreOps.
From S2P Require Import StoreMap.
From S2P Require Import StoreOpen.

#[local] Open Scope N_scope.
#[local] Opaque rec_bytes.

(** The records a store has appended, in order: [hs] all of them, [hs0] those it knows
    to be on the disk. *)
Definition History (s : Store) (hs0 hs : list Rec) : Prop :=
  ∃ fs rs r0, SInv s fs rs ∧ r0 `prefix_of` rs ∧ lw_synced (s_writer s) = blen (file_bytes r0) ∧
    hs0 = all_recs fs ++ r0 ∧ hs = all_recs fs ++ rs.

Lemma History_refines s hs0 hs : History s hs0 hs → Refines s (replay hs).
Proof.
  intros (fs & rs & r0 & HI & _ & _ & _ & ->). exists fs, rs. split; [done|].
  unfold contents. by rewrite all_recs_files.
Qed.

Lemma Refines_history s m : Refines s m → ∃ hs0 hs, History s hs0 hs ∧ replay hs = m.
Proof.
  intros (fs & rs & HI & <-). pose proof (si_writer _ _ _ HI) as (r0 & r1 & r2 & E & _ & _ & _ & _ & Hs).
  exists (all_recs fs ++ r0), (all_recs fs ++ rs). split; [|unfold contents; by rewrite all_recs_files].
  exists fs, rs, r0. split_and!; try done. rewrite E. by eexists.
Qed.

(** ** Cutting a file short *)

(** A file cut anywhere is whole records and perhaps part of one more. *)
Lemma file_cut rs n :
  Forall rec_ok rs →
  ∃ rs1 rs2 tail, rs = rs1 ++ rs2 ∧ take n (file_bytes rs) = file_bytes rs1 ++ tail ∧ torn_tail tail ∧
    (∀ r0, r0 `prefix_of` rs → (length (file_bytes r0) ≤ n)%nat → r0 `prefix_of` rs1).
Proof.
  intros Hrs. revert n. induction Hrs as [|r rs Hr Hrs IH]; intros n.
  - exists [], [], []. split_and!; [done|by destruct n|by left|done].
  - destruct (decide (length (rec_bytes r) ≤ n)%nat) as [Hle|Hgt].
    + destruct (IH (n - length (rec_bytes r))%nat) as (rs1 & rs2 & tail & -> & Ht & Htail & Hmax).
      exists (r :: rs1), rs2, tail. rewrite !file_bytes_cons, take_app_ge, Ht by lia.
      split_and!; [done|by rewrite <-(assoc_L (++))|done|].
      intros [|r' r0] Hp Hl; [apply prefix_nil|]. apply prefix_cons_inv_1 in Hp as Heq; subst r'.
      apply prefix_cons_inv_2 in Hp. apply prefix_cons, Hmax; [done|].
      rewrite file_bytes_cons, length_app in Hl. lia.
    + exists [], (r :: rs), (take n (rec_bytes r)). rewrite file_bytes_cons, take_app_le by lia.
      split_and!; [done|done| |].
      * right; right. exists r. split_and!; [done|apply prefix_take|]. intros E. apply (f_equal length) in E.
        rewrite length_take in E. lia.
      * intros [|r' r0] Hp Hl; [done|]. apply prefix_cons_inv_1 in Hp as ->.
        rewrite file_bytes_cons, length_app in Hl. lia.
Qed.

(** The directory of [s] with its active file cut to [n] bytes. *)
Definition crash (n : N) (s : Store) : Dir :=
  set_data (λ m, <[active_id s := take (N.to_nat n) (data_file (s_dir s) (active_id s))]> m) (s_dir s).

(** The file's length as the kernel has it: a cut loses nothing that was synced. *)
Definition may_crash_at (n : N) (s : Store) : Prop := lw_synced (s_writer s) ≤ n.

Lemma crash_disk s fs rs n :
  SInv s fs rs → may_crash_at n s →
  ∃ rs1 tail, disk_ok (crash n s) fs (active_id s) rs1 tail ∧ rs1 `prefix_of` rs ∧
    (∀ r0, r0 `prefix_of` rs → blen (file_bytes r0) ≤ lw_synced (s_writer s) → r0 `prefix_of` rs1).
Proof.
  intros HI Hn. unfold may_crash_at in Hn.
  pose proof (si_writer _ _ _ HI) as (r0 & r1 & r2 & -> & W1 & W2 & W3 & W4 & W5).
  pose proof HI as [[D1 D2 D3 D4] I2 I3 I3' I4 I5 I6 I7 I8 I9 I10 I11 I12].
  assert (Forall rec_ok (r0 ++ r1)) as Hok by (rewrite (assoc_L (++)) in I6; by apply Forall_app in I6 as [? _]).
  destruct (file_cut (r0 ++ r1) (N.to_nat n) Hok) as (rs1 & rs2 & tail & E & Ht & Htail & Hmax).
  exists rs1, tail.
  assert (rs1 `prefix_of` r0 ++ r1 ++ r2) as Hpre.
  { rewrite (assoc_L (++)), E. rewrite <-(assoc_L (++)). by eexists. }
  assert (∀ q, q `prefix_of` r0 ++ r1 ++ r2 → blen (file_bytes q) ≤ lw_synced (s_writer s) → q `prefix_of` rs1) as Hkeep.
  { intros q Hq Hl. apply Hmax; [|unfold blen in *; lia].
    destruct (prefix_weak_total q (r0 ++ r1) (r0 ++ r1 ++ r2)) as [Hp|Hp]; [done|by exists r2; rewrite <-(assoc_L (++))|done|].
    destruct Hp as [q' ->]. rewrite !file_bytes_app, !blen_app in Hl. rewrite W5 in Hl.
    assert (file_bytes q' = []) as ->%file_bytes_nil by (apply blen_0; lia). by rewrite app_nil_r. }
  split; [|done].
  assert (∀ id rs', (id, rs') ∈ fs → id ≠ active_id s) as Hne.
  { intros id rs' Hin ->. pose proof (sorted_snoc_lt _ _ _ I2 (elem_fst _ _ _ Hin)). lia. }
  assert (data_file (s_dir s) (active_id s) = file_bytes (r0 ++ r1)) as Hdf by (by apply data_file_Some).
  split; try done.
  - split; try done. intros id rs' Hin. simpl. rewrite lookup_insert_ne by (intros <-; by eapply Hne). by apply D1.
  - simpl. rewrite dom_insert_L, I3. set_solver.
  - simpl. by rewrite lookup_insert_eq, Hdf, Ht.
  - simpl. intros bs (q & Hq & Hl & Hh)%I5. eapply hint_file_ok_prefix; [|done]. by apply Hkeep.
  - rewrite E in Hok. by apply Forall_app in Hok as [? _].
  - rewrite <-Ht. unfold is_u64 in *. rewrite W4, (assoc_L (++)), (file_bytes_app (r0 ++ r1)), blen_app in I7.
    unfold blen in *. rewrite length_take. lia.
Qed.

Lemma crash_open s hs0 hs n opts :
  History s hs0 hs → may_crash_at n s → is_u64 (o_max_file_bytes opts) →
  ∃ s' hs', open_with opts (crash n s) = (Ok s', s_dir s') ∧ History s' hs' hs' ∧
    hs0 `prefix_of` hs' ∧ hs' `prefix_of` hs ∧ s_restoring s' = false ∧ s_compacting s' = false ∧
    s_opts s' = opts.
Proof.
  intros (fs & rs & r0 & HI & Hr0 & Hs & -> & ->) Hn Hmax.
  destruct (crash_disk s fs rs n HI Hn) as (rs1 & tail & HK & Hpre & Hkeep).
  destruct (open_ok opts (crash n s) fs (active_id s) rs1 tail HK Hmax)
    as (s' & E & HI' & Ha & Hre & Hc & Ho & Hp & Hsy & _).
  exists s', (all_recs fs ++ rs1). split_and!; try done.
  - exists fs, rs1, rs1. split_and!; try done.
    pose proof (si_writer _ _ _ HI') as (q0 & q1 & q2 & Eq & _ & _ & _ & Hoff & _). rewrite <-Eq in Hoff.
    unfold is_synced in Hsy. apply N.eqb_eq in Hsy. by rewrite Hsy.
  - apply prefix_app, Hkeep; [done|]. by rewrite Hs.
  - by apply prefix_app.
Qed.

Lemma synced_all s hs0 hs : History s hs0 hs → is_synced s = true → hs0 = hs.
Proof.
  intros (fs & rs & r0 & HI & [r' ->] & Hs & -> & ->) Hsy. f_equal.
  pose proof (si_writer _ _ _ HI) as (q0 & q1 & q2 & Eq & _ & _ & _ & Hoff & _). rewrite <-Eq in Hoff.
  unfold is_synced in Hsy. apply N.eqb_eq in Hsy. rewrite Hs, Hoff, file_bytes_app, blen_app in Hsy.
  assert (file_bytes r' = []) as ->%file_bytes_nil by (apply blen_0; lia). by rewrite app_nil_r.
Qed.

(** C7: a crash keeps a prefix. Cut the active file of a store anywhere at or past what
    it knows to be synced, as killing the process or losing power does, and open the
    directory again: opening succeeds, the store holds exactly the first so many of the
    records ever appended, every synced one among them, and answers as replaying those
    records does; if everything was synced, nothing is lost. *)
Theorem crash_keeps_synced_prefix (s : Store) (hs0 hs : list Rec) (n : N) (opts : Options) :
  History s hs0 hs → may_crash_at n s → is_u64 (o_max_file_bytes opts) →
  ∃ s' hs', open_with opts (crash n s) = (Ok s', s_dir s') ∧ History s' hs' hs' ∧
    hs0 `prefix_of` hs' ∧ hs' `prefix_of` hs ∧
    (∀ k, store_get s' k = Ok (replay hs' !! k)) ∧ (is_synced s = true → hs' = hs).
Proof.
  intros HH Hn Hmax. destruct (crash_open s hs0 hs n opts HH Hn Hmax) as (s' & hs' & E & HH' & H0 & H1 & _).
  exists s', hs'. split_and!; try done.
  - intros k. apply Refines_get. by eapply History_refines.
  - intros Hsy. apply (synced_all s hs0 hs) in Hsy as ->; [|done].
    apply (anti_symm prefix); done.
Qed.

(** C8: an acknowledged write survives. After a put that was asked to reach the disk,
    whatever the crash that follows, the store that opens again has the value, and
    every other key as it was before. *)
Theorem acknowledged_put_survives (s : Store) (m : gmap bytes bytes) (k v : bytes) (now now' n : N)
    (opts : Options) :
  Refines s m → s_restoring s = false → k ≠ [] → fits k v → is_u64 now → is_u64 now' →
  is_u64 (o_max_file_bytes opts) →
  ∃ s', put_with k v Disk now now' s = (Ok tt, s') ∧
    (may_crash_at n s' →
     ∃ s'', open_with opts (crash n s') = (Ok s'', s_dir s'') ∧ Refines s'' (<[k := v]> m) ∧
       ∀ j, store_get s'' j = Ok (<[k := v]> m !! j)).
Proof.
  intros HR Hre Hk Hf Ht Ht' Hmax.
  destruct (put_refines s m k v Disk now now' HR Hre Hk Hf Ht Ht') as (s' & E & HR' & Hsy & _).
  exists s'. split; [done|]. intros Hn. destruct (Refines_history s' _ HR') as (hs0 & hs & HH & Hm).
  destruct (crash_open s' hs0 hs n opts HH Hn Hmax) as (s'' & hs' & E' & HH' & H0 & H1 & _).
  apply (synced_all s' hs0 hs) in HH as Heq; [|by apply Hsy]. subst hs0.
  assert (hs' = hs) as -> by (apply (anti_symm prefix); done).
  exists s''. assert (Refines s'' (<[k := v]> m)) as HR'' by (rewrite <-Hm; by eapply History_refines).
  split_and!; [done|done|]. intros j. by apply Refines_get.
Qed.

(** ** The directory a store leaves behind *)

Lemma crash_all s n : blen (data_file (s_dir s) (active_id s)) ≤ n → is_Some (d_data (s_dir s) !! active_id s) →
  crash n s = s_dir s.
Proof.
  intros Hn [bs Hbs]. unfold crash. rewrite (data_file_Some _ _ _ Hbs) in *.
  rewrite take_ge by (unfold blen in *; lia). unfold set_data. rewrite insert_id by done. by destruct (s_dir s).
Qed.

Lemma kill_is_crash s fs rs : SInv s fs rs → store_kill s = crash (lw_offset (s_writer s)) s.
Proof.
  intros HI. destruct (si_writer _ _ _ HI) as (r0 & r1 & r2 & E & W1 & W2 & W3 & W4 & W5).
  unfold store_kill. rewrite crash_all; [done| |by eexists].
  unfold active_id. rewrite (data_file_Some _ _ _ W1), W4, (assoc_L (++)), (file_bytes_app (r0 ++ r1)), blen_app. lia.
Qed.

(** [simulate_power_cut] cuts the active file at what was synced and nothing else. *)
Lemma power_cut_is_crash s fs rs : SInv s fs rs → simulate_power_cut s = crash (lw_synced (s_writer s)) s.
Proof.
  intros HI. destruct (si_writer _ _ _ HI) as (r0 & r1 & r2 & E & W1 & W2 & W3 & W4 & W5).
  pose proof (si_sealed _ _ _ HI) as [D1 _ _ _]. pose proof (si_synced _ _ _ HI) as Hs.
  unfold simulate_power_cut. cbn [s_dir s_sealed_synced s_writer s_set_writer].
  match goal with |- context [map_fold ?f (s_dir s) _] => set (cut := f) end.
  assert (map_fold cut (s_dir s) (s_sealed_synced s) = s_dir s) as ->.
  { rewrite map_fold_foldr.
    assert (∀ id n, (id, n) ∈ map_to_list (s_sealed_synced s) → cut id n (s_dir s) = s_dir s) as Hcut.
    { intros id n Hin%elem_of_map_to_list. destruct (Hs id n Hin) as (rs' & Hf & ->). unfold cut.
      rewrite (D1 id rs' Hf), N.min_id. unfold blen. rewrite Nat2N.id, firstn_all.
      unfold set_data. rewrite insert_id by (by apply D1). by destruct (s_dir s). }
    induction (map_to_list (s_sealed_synced s)) as [|[id n] l IH]; [done|]. simpl.
    rewrite IH; [apply Hcut, list_elem_of_here|]. intros id' n' Hin. by apply Hcut, list_elem_of_further. }
  unfold cut, crash, active_id. simpl. rewrite W1, (data_file_Some _ _ _ W1), W5.
  rewrite N.min_r; [done|]. rewrite file_bytes_app, blen_app. lia.
Qed.

(** A cut that falls between two records. *)
Lemma crash_exact s fs rs r0 r1 r2 q :
  SInv s fs rs → rs = r0 ++ r1 ++ r2 → Wsplit (s_dir s) (s_writer s) r0 r1 r2 →
  r0 `prefix_of` q → q `prefix_of` r0 ++ r1 →
  disk_ok (crash (blen (file_bytes q)) s) fs (active_id s) q [].
Proof.
  intros HI -> (W1 & W2 & W3 & W4 & W5) H0 [q' E].
  pose proof HI as [[D1 D2 D3 D4] I2 I3 I3' I4 I5 I6 I7 I8 I9 I10 I11 I12].
  rewrite (assoc_L (++)), E in I6, W4. apply Forall_app in I6 as [I6 _]. apply Forall_app in I6 as [I6 _].
  assert (∀ id rs', (id, rs') ∈ fs → id ≠ active_id s) as Hne.
  { intros id rs' Hin ->. pose proof (sorted_snoc_lt _ _ _ I2 (elem_fst _ _ _ Hin)). lia. }
  split; try done; rewrite ?app_nil_r.
  - split; try done. intros id rs' Hin. simpl. rewrite lookup_insert_ne by (intros <-; by eapply Hne). by apply D1.
  - simpl. rewrite dom_insert_L, I3. set_solver.
  - simpl. rewrite lookup_insert_eq. unfold active_id. rewrite (data_file_Some _ _ _ W1), E, file_bytes_app.
    f_equal. unfold blen. rewrite Nat2N.id. apply take_app_length.
  - simpl. intros bs (p & Hp & Hl & Hh)%I5. eapply hint_file_ok_prefix; [|done]. rewrite W5 in Hl.
    destruct (prefix_weak_total p q (r0 ++ r1 ++ r2)) as [Hpq|[p' ->]]; [done| |done|].
    { rewrite (assoc_L (++)), E. exists (q' ++ r2). by rewrite <-(assoc_L (++)). }
    destruct H0 as [q0 ->]. rewrite !file_bytes_app, !blen_app in Hl.
    assert (file_bytes p' = []) as ->%file_bytes_nil by (apply blen_0; lia). by rewrite app_nil_r.
  - by left.
  - unfold is_u64 in *. rewrite W4, <-(assoc_L (++)), file_bytes_app, blen_app in I7. lia.
Qed.

Lemma open_exact opts d fs a q :
  disk_ok d fs a q [] → is_u64 (o_max_file_bytes opts) →
  ∃ s', open_with opts d = (Ok s', s_dir s') ∧ History s' (all_recs fs ++ q) (all_recs fs ++ q).
Proof.
  intros HK Hmax. destruct (open_ok opts d fs a q [] HK Hmax) as (s' & E & HI' & Ha & _ & _ & _ & _ & Hsy & _).
  exists s'. split; [done|]. exists fs, q, q. split_and!; try done.
  pose proof (si_writer _ _ _ HI') as (q0 & q1 & q2 & Eq & _ & _ & _ & Hoff & _). rewrite <-Eq in Hoff.
  unfold is_synced in Hsy. apply N.eqb_eq in Hsy. by rewrite Hsy.
Qed.

(** Killing keeps what the kernel has. *)
Lemma kill_open s fs rs r0 r1 r2 opts :
  SInv s fs rs → rs = r0 ++ r1 ++ r2 → Wsplit (s_dir s) (s_writer s) r0 r1 r2 →
  is_u64 (o_max_file_bytes opts) →
  ∃ s', open_with opts (store_kill s) = (Ok s', s_dir s') ∧
    History s' (all_recs fs ++ r0 ++ r1) (all_recs fs ++ r0 ++ r1).
Proof.
  intros HI E HW Hmax. eapply open_exact; [|done].
  pose proof (crash_exact s fs rs r0 r1 r2 (r0 ++ r1) HI E HW) as HK.
  destruct HW as (W1 & _). rewrite crash_all in HK; [|unfold active_id; by rewrite (data_file_Some _ _ _ W1)|by eexists].
  apply HK; [by eexists|done].
Qed.

(** However a store ends, what it leaves behind opens: closed normally, every record
    is there; killed, everything handed to the kernel is, which is everything unless
    writes were deferred; cut off from power, exactly what the store knew to be synced. *)
Theorem every_ending_opens (s : Store) (hs0 hs : list Rec) (opts : Options) :
  History s hs0 hs → is_u64 (o_max_file_bytes opts) →
  (∃ s', open_with opts (store_close s) = (Ok s', s_dir s') ∧ History s' hs hs) ∧
  (∃ s' hs', open_with opts (store_kill s) = (Ok s', s_dir s') ∧ History s' hs' hs' ∧
     hs0 `prefix_of` hs' ∧ hs' `prefix_of` hs ∧ (lw_pending (s_writer s) = [] → hs' = hs)) ∧
  (∃ s', open_with opts (simulate_power_cut s) = (Ok s', s_dir s') ∧ History s' hs0 hs0).
Proof.
  intros (fs & rs & r & HI & Hr & Hs & -> & ->) Hmax.
  pose proof (si_writer _ _ _ HI) as (r0 & r1 & r2 & E & HW).
  assert (r = r0) as ->.
  { pose proof HW as (_ & _ & _ & _ & W5). rewrite W5 in Hs.
    destruct (prefix_weak_total r r0 rs) as [[q ->]|[q ->]]; [done|rewrite E; by eexists|..];
      rewrite file_bytes_app, blen_app in Hs;
      (assert (file_bytes q = []) as ->%file_bytes_nil by (apply blen_0; lia)); by rewrite app_nil_r. }
  split_and!.
  - destruct (flush_inv s fs rs HI) as (HI' & Hp & Ha).
    pose proof (si_writer _ _ _ HI') as (q0 & q1 & q2 & Eq & HW').
    assert (q2 = []) as -> by (destruct HW' as (_ & W2 & _); apply file_bytes_nil; congruence).
    destruct (kill_open _ _ _ _ _ _ opts HI' Eq HW' Hmax) as (s' & E1 & H1).
    exists s'. split; [exact E1|]. by rewrite app_nil_r in Eq; rewrite Eq.
  - destruct (kill_open _ _ _ _ _ _ opts HI E HW Hmax) as (s' & E1 & H1).
    exists s', (all_recs fs ++ r0 ++ r1). split_and!; try done.
    + apply prefix_app. by eexists.
    + rewrite E, (assoc_L (++) r0). apply prefix_app. by eexists.
    + intros Hp. destruct HW as (_ & W2 & _). rewrite Hp in W2.
      rewrite E, (file_bytes_nil r2) by congruence. by rewrite app_nil_r.
  - rewrite (power_cut_is_crash s fs rs HI), Hs. eapply open_exact; [|done].
    eapply crash_exact; try done. by eexists.
Qed.

(** ** The colours, written but not synced *)

Lemma colours_history reach :
  ∃ hs0 hs, History (colours reach) hs0 hs ∧ replay hs = {[lit "grass" := lit "green"]}.
Proof. apply Refines_history, colours_refines. Qed.

Lemma crash_keeps_synced_prefix_witness :
  ∃ s' hs', open_with Options_default (crash 25 (colours Kernel)) = (Ok s', s_dir s') ∧
    ∀ k, store_get s' k = Ok (replay hs' !! k).
Proof.
  destruct (colours_history Kernel) as (hs0 & hs & HH & _).
  destruct (crash_keeps_synced_prefix (colours Kernel) hs0 hs 25 Options_default HH) as (s' & hs' & E & _ & _ & _ & Hg & _).
  - unfold may_crash_at. by apply (bool_decide_unpack _); vm_compute.
  - done.
  - exact (ex_intro _ s' (ex_intro _ hs' (conj E Hg))).
Defined.

Lemma acknowledged_put_survives_witness :
  ∃ s', put_with (lit "sea") (lit "blue") Disk 8 8 (colours Buffer) = (Ok tt, s') ∧
    (may_crash_at 1000 s' →
     ∃ s'', open_with Options_default (crash 1000 s') = (Ok s'', s_dir s'') ∧
       Refines s'' (<[lit "sea" := lit "blue"]> {[lit "grass" := lit "green"]}) ∧
       ∀ j, store_get s'' j = Ok (<[lit "sea" := lit "blue"]> ({[lit "grass" := lit "green"]} : gmap bytes bytes) !! j)).
Proof.
  exact (acknowledged_put_survives (colours Buffer) _ (lit "sea") (lit "blue") 8 8 1000 Options_default
    (proj1 (colours_refines Buffer)) (proj1 (proj2 (colours_refines Buffer))) ltac:(done) ltac:(done)
    eq_refl eq_refl eq_refl).
Defined.

Lemma every_ending_opens_witness :
  ∃ s' hs, open_with Options_default (store_close (colours Buffer)) = (Ok s', s_dir s') ∧
    History s' hs hs ∧ replay hs = {[lit "grass" := lit "green"]}.
Proof.
  destruct (colours_history Buffer) as (hs0 & hs & HH & Hm).
  destruct (proj1 (every_ending_opens (colours Buffer) hs0 hs Options_default HH eq_refl)) as (s' & E & H').
  exact (ex_intro _ s' (ex_intro _ hs (conj E (conj H' Hm)))).
Defined.
