(* ===== verification/StoreCompact.v ===== *)
(** * Compaction in place

    What [compact] leaves is one file with one record per live key, and the same map. *)

From S2P Require Import Prelude.
From S2P Require Import Crc.
From S2P Require Import RecordFormat.
From S2P Require Import DataLog.
From S2P Require Import HintFile.
From S2P Require Import Store.
From S2P Require Import StoreIndex.
From S2P Require Import StoreInv.
From S2P Require Import StoreOps.
From S2P Require Import StoreMap.
From S2P Require Import StoreOpen.
From S2P Require Import StoreCrash.

#[local] Open Scope N_scope.
#[local] Opaque rec_bytes.

(** ** Replaying copies *)

Lemma replay_app_lookup h1 h2 k :
  replay (h1 ++ h2) !! k =
  if bool_decide (k ∈ r_key <$> h2) then replay h2 !! k else replay h1 !! k.
Proof.
  induction h2 as [|r h2 IH] using rev_ind; [by rewrite app_nil_r|].
  rewrite (assoc_L (++)), !replay_snoc. unfold replay_step.
  assert (k ∈ r_key <$> h2 ++ [r] ↔ k ∈ r_key <$> h2 ∨ k = r_key r) as Hk.
  { rewrite fmap_app, elem_of_app. simpl. by rewrite list_elem_of_singleton. }
  destruct (r_value r) as [v|]; rewrite ?lookup_insert, ?lookup_delete;
    (destruct (decide (r_key r = k)) as [Hr|Hr]; [rewrite bool_decide_true; [done|rewrite Hk; auto]|]);
    rewrite IH; (erewrite bool_decide_ext; [done|]); rewrite Hk; naive_solver.
Qed.

(** Records that repeat what is already there change nothing. *)
Lemma replay_copies hs copies :
  (∀ r, r ∈ copies → replay hs !! r_key r = r_value r) → replay (hs ++ copies) = replay hs.
Proof.
  induction copies as [|r copies IH] using rev_ind; intros Hc; [by rewrite app_nil_r|].
  rewrite (assoc_L (++)), replay_snoc, IH.
  - specialize (Hc r). rewrite elem_of_app, list_elem_of_singleton in Hc. specialize (Hc (or_intror eq_refl)).
    unfold replay_step. destruct (r_value r) as [v|].
    + by apply insert_id.
    + by apply delete_id.
  - intros r' Hr'. apply Hc. apply elem_of_app. by left.
Qed.

(** Puts of distinct keys replay to exactly those keys. *)
Lemma replay_NoDup rq r : NoDup (r_key <$> rq) → r ∈ rq → replay rq !! r_key r = r_value r.
Proof.
  induction rq as [|r' rq IH] using rev_ind; intros Hnd Hin; [by apply not_elem_of_nil in Hin|].
  rewrite fmap_app in Hnd. apply list.NoDup_app in Hnd as (Hnd & Hdis & _).
  rewrite replay_snoc. unfold replay_step. apply elem_of_app in Hin as [Hin|Hin%list_elem_of_singleton].
  - assert (r_key r' ≠ r_key r) as Hne.
    { intros E. apply (Hdis (r_key r)); [by apply list_elem_of_fmap_2|]. apply list_elem_of_singleton. by rewrite E. }
    destruct (r_value r'); rewrite ?lookup_insert_ne, ?lookup_delete_ne by done; by apply IH.
  - subst. destruct (r_value r'); by rewrite ?lookup_insert_eq, ?lookup_delete_eq.
Qed.

Lemma replay_not_in rq k : k ∉ r_key <$> rq → replay rq !! k = None.
Proof.
  intros Hk. rewrite <-(app_nil_l rq), replay_app_lookup, bool_decide_false by done. done.
Qed.

(** A key a history leaves without a value has none after any later part of it. *)
Lemma replay_suffix_None h1 h2 k : replay (h1 ++ h2) !! k = None → replay h2 !! k = None.
Proof.
  rewrite replay_app_lookup. case_bool_decide; [done|]. intros _. by apply replay_not_in.
Qed.

(** One put per key of [m]. *)
Definition copies_of (m : gmap bytes bytes) (rq : list Rec) : Prop :=
  NoDup (r_key <$> rq) ∧ (∀ k, is_Some (m !! k) ↔ k ∈ r_key <$> rq) ∧
  ∀ r, r ∈ rq → m !! r_key r = r_value r.

Lemma copies_replay m rq : copies_of m rq → replay rq = m.
Proof.
  intros (Hnd & Hdom & Hval). apply map_eq. intros k. destruct (decide (k ∈ r_key <$> rq)) as [Hin|Hout].
  - apply list_elem_of_fmap in Hin as (r & -> & Hr). rewrite replay_NoDup by done. symmetry. by apply Hval.
  - rewrite replay_not_in by done. symmetry. apply eq_None_not_Some. by rewrite Hdom.
Qed.

(** Whatever suffix of the history is left in front of the copies, the map is the same. *)
Lemma copies_after_suffix h1 h2 rq :
  copies_of (replay (h1 ++ h2)) rq → replay (h2 ++ rq) = replay (h1 ++ h2).
Proof.
  intros Hc. apply map_eq. intros k. rewrite replay_app_lookup, (copies_replay _ _ Hc).
  case_bool_decide as Hk; [done|]. destruct Hc as (_ & Hdom & _).
  assert (replay (h1 ++ h2) !! k = None) as Hn by (apply eq_None_not_Some; by rewrite Hdom).
  rewrite Hn. by eapply replay_suffix_None.
Qed.

(** ** The merge *)

Section merge.
Variables (s : Store) (fs : Files) (rs : list Rec) (mid : N).
Hypothesis HI : SInv s fs rs.
Hypothesis Hflushed : lw_pending (s_writer s) = [].

Let m := contents s fs rs.

(** The merge part way: the entries [done_] have been copied as the records [rq]. *)
Record Merged (g : Merging * (Dir * LogWriter)) (done_ : list (bytes * Location)) (rq : list Rec) : Prop := {
  me_writer : Wok g.2.1 g.2.2 rq;
  me_id : lw_file_id g.2.2 = mid;
  me_dir : only_data mid (s_dir s) g.2.1;
  me_index : Indexed (mkIndexing (mg_index g.1) (mg_bytes g.1) (mg_bytes g.1)) (places_from mid 0 rq);
  me_hints : entries_at 0 rq (mg_hints g.1);
  me_recs : Forall rec_ok rq;
  me_keys : r_key <$> rq = done_.*1;
  me_values : ∀ r, r ∈ rq → is_Some (r_value r) ∧ m !! r_key r = r_value r;
}.

(** An entry of the index reads back as the record it points at. *)
Lemma read_entry k loc :
  s_keydir s !! k = Some loc →
  ∃ r file, open_reader s (loc_file_id loc) = Some file ∧
    read_at file (loc_offset loc) (loc_len loc) = Ok (rec_bytes r) ∧
    rec_ok r ∧ r_key r = k ∧ is_Some (r_value r) ∧ m !! k = r_value r ∧ loc_len loc = blen (rec_bytes r) ∧
    is_u64 (loc_tstamp loc).
Proof.
  intros Hk. destruct (keydir_ok_lookup _ _ k loc (ixd_keydir _ _ (si_index _ _ _ HI)) Hk) as (p & Hp & Hloc).
  pose proof Hp as Hp'. apply index_of_Some in Hp' as (Hin & Hkey & Hv).
  pose proof (read_place s fs rs p loc HI Hin Hloc) as Hread.
  assert (loc_file_id loc ∈ s_readers s ∧
    read_at (data_file (s_dir s) (loc_file_id loc)) (loc_offset loc) (loc_len loc) = Ok (rec_bytes (pl_rec p))) as [Hr Hrd].
  { destruct (N.eqb_spec (loc_file_id loc) (active_id s)) as [Ha|]; [|done].
    destruct (LogWriter_buffered _ _ _) as [bs|] eqn:Eb; [|done]. exfalso.
    unfold LogWriter_buffered in Eb. rewrite Hflushed in Eb. destruct (_ <? _); [done|].
    apply get_slice_Some in Eb as (_ & Hl & _). rewrite blen_nil in Hl.
    destruct Hloc as (_ & _ & Hll & _). rewrite Hll, rec_bytes_len in Hl. lia. }
  exists (pl_rec p), (data_file (s_dir s) (loc_file_id loc)). unfold open_reader.
  rewrite bool_decide_true by done. split_and!; try done.
  - by eapply SInv_rec_ok.
  - unfold m. rewrite contents_lookup, Hp. done.
  - apply Hloc.
  - apply Hloc.
Qed.

Lemma merge_entry_ok g done_ rq k loc :
  Merged g done_ rq → s_keydir s !! k = Some loc → k ∉ done_.*1 →
  ∃ g' r, merge_entry s mid (k, loc) g = (Ok tt, g') ∧ Merged g' (done_ ++ [(k, loc)]) (rq ++ [r]).
Proof.
  intros [M1 M2 M3 M4 M5 M6 M7 M8] Hk Hnew. destruct g as [mg [d w]]. simpl in M1, M2, M3, M4, M5.
  destruct (read_entry k loc Hk) as (r & file & Ho & Hr & Hok & Hkey & Hv & Hm & Hlen & Hts).
  unfold merge_entry. rewrite Ho, Hr.
  pose proof (append_ok d w rq r Buffer M1 Hok) as Ha.
  destruct (LogWriter_append _ _ _) as [[offset len] [d' w']].
  destruct Ha as (-> & -> & HW & Hid & Hod).
  set (e := mkHintEntry k _ _ _ _).
  assert (entry_at (blen (file_bytes rq)) r e) as He.
  { split_and!; simpl; [by rewrite Hkey|done|done| |done]. destruct Hv as [v ->]. by rewrite bool_decide_false. }
  eexists _, r. split; [done|]. split; simpl; try done.
  - congruence.
  - rewrite M2 in Hod. by eapply only_data_trans.
  - rewrite places_from_app, N.add_0_l. simpl.
    pose proof (index_entry_ok _ _ mid _ r e M4 He) as Hix. unfold index_entry in Hix. simpl in Hix.
    assert (mg_index mg !! k = None) as Hnone.
    { destruct (mg_index mg !! k) as [l|] eqn:El; [exfalso|done].
      destruct (keydir_ok_lookup _ _ k l (ixd_keydir _ _ M4) El) as (p & Hp & _).
      apply index_of_Some in Hp as (Hp & Hpk & _). apply Hnew. rewrite <-M7, <-Hpk.
      apply list_elem_of_fmap_2. apply (list_elem_of_fmap_2 pl_rec) in Hp. by rewrite places_from_recs in Hp. }
    by rewrite Hnone in Hix.
  - by apply entries_at_snoc.
  - apply Forall_app. by split; [|apply Forall_singleton].
  - by rewrite !fmap_app, M7, <-Hkey.
  - intros r' [Hr'|Hr'%list_elem_of_singleton]%elem_of_app; [by apply M8|]. by rewrite Hr', Hkey.
Qed.

Lemma merge_loop_ok l g done_ rq :
  Merged g done_ rq → (∀ k loc, (k, loc) ∈ l → s_keydir s !! k = Some loc) →
  NoDup (done_.*1 ++ l.*1) →
  ∃ g' rq', miter (merge_entry s mid) l g = (Ok tt, g') ∧ Merged g' (done_ ++ l) rq'.
Proof.
  revert g done_ rq. induction l as [|[k loc] l IH]; intros g done_ rq HM Hl Hnd.
  { exists g, rq. by rewrite app_nil_r. }
  assert (s_keydir s !! k = Some loc) as Hk by (apply Hl, list_elem_of_here).
  destruct (merge_entry_ok g done_ rq k loc HM Hk) as (g1 & r & E1 & HM1).
  { apply list.NoDup_app in Hnd as (_ & Hdis & _). intros Hin. apply (Hdis k Hin). apply list_elem_of_here. }
  destruct (IH g1 (done_ ++ [(k, loc)]) (rq ++ [r]) HM1) as (g' & rq' & E & HM').
  - intros k' loc' Hin. apply Hl. by apply list_elem_of_further.
  - rewrite fmap_app, <-(assoc_L (++)). done.
  - exists g', rq'. rewrite <-(assoc_L (++)) in HM'. split; [|done].
    cbn [miter]. unfold mbind, M_bind. by rewrite E1.
Qed.
End merge.

(** ** Deleting the originals *)

Definition remove_files (ids : list N) (s : Store) : Store := foldl (λ s id, remove_file id s) s ids.

Lemma remove_files_dir ids s :
  (∀ id, d_data (s_dir (remove_files ids s)) !! id = if bool_decide (id ∈ ids) then None else d_data (s_dir s) !! id) ∧
  (∀ id, d_hint (s_dir (remove_files ids s)) !! id = if bool_decide (id ∈ ids) then None else d_hint (s_dir s) !! id) ∧
  d_part (s_dir (remove_files ids s)) = d_part (s_dir s).
Proof.
  revert s. induction ids as [|i ids IH]; intros s.
  { split_and!; [intros id..|done]; rewrite bool_decide_false; done || apply not_elem_of_nil. }
  unfold remove_files in *. simpl. destruct (IH (remove_file i s)) as (H1 & H2 & H3).
  split_and!; [intros id; rewrite H1|intros id; rewrite H2|by rewrite H3];
    simpl; (destruct (decide (i = id)) as [->|Hne];
      [rewrite lookup_delete_eq, (bool_decide_true (id ∈ id :: ids)) by apply list_elem_of_here;
       by case_bool_decide
      |rewrite lookup_delete_ne by done;
       rewrite (bool_decide_ext (id ∈ ids) (id ∈ i :: ids)); [done|]; rewrite elem_of_cons; naive_solver]).
Qed.

Lemma remove_files_rest ids s :
  s_readers (remove_files ids s) = s_readers s ∖ list_to_set ids ∧
  (∀ id n, s_sealed_synced (remove_files ids s) !! id = Some n → id ∉ ids ∧ s_sealed_synced s !! id = Some n) ∧
  s_opts (remove_files ids s) = s_opts s ∧ s_compacting (remove_files ids s) = s_compacting s ∧
  s_restoring (remove_files ids s) = s_restoring s ∧ s_writer (remove_files ids s) = s_writer s ∧
  s_keydir (remove_files ids s) = s_keydir s ∧ s_disk_bytes (remove_files ids s) = s_disk_bytes s.
Proof.
  revert s. induction ids as [|i ids IH]; intros s.
  { split_and!; try done; [set_solver|]. intros id n. split; [apply not_elem_of_nil|done]. }
  unfold remove_files in *. simpl. destruct (IH (remove_file i s)) as (H1 & H2 & H3 & H4 & H5 & H6 & H7 & H8).
  split_and!; try done.
  - rewrite H1. simpl. set_solver.
  - intros id n Hn. apply H2 in Hn as [Hni Hn]. simpl in Hn.
    apply lookup_delete_Some in Hn as [Hne Hn]. split; [|done]. by apply not_elem_of_cons.
Qed.

Lemma remove_files_counts ids s :
  s_live_bytes (remove_files ids s) = s_live_bytes s ∧ s_active_hints (remove_files ids s) = s_active_hints s.
Proof. revert s. induction ids as [|i ids IH]; intros s; [done|]. unfold remove_files in *. simpl. apply (IH (remove_file i s)). Qed.

Lemma foldr_max_le (l : list N) x : x ∈ l → x ≤ foldr N.max 0 l.
Proof.
  induction l as [|y l IH]; intros Hx; [by apply not_elem_of_nil in Hx|]. simpl.
  apply elem_of_cons in Hx as [->|Hx]; [lia|]. specialize (IH Hx). lia.
Qed.

Lemma disk_of_places_from id offset rs : disk_of (places_from id offset rs) = blen (file_bytes rs).
Proof.
  revert offset. induction rs as [|r rs IH]; intros offset; [done|]. simpl. rewrite IH, file_bytes_cons, blen_app. done.
Qed.

Lemma replay_bytes id ix rq :
  Indexed ix (places_from id 0 rq) → ix_live_bytes ix = total (map_imap (λ k v, Some (entry_len k v)) (replay rq)).
Proof.
  intros [Hk Hl _]. rewrite Hl, live_of_total, (keydir_ok_lens _ _ Hk), index_lens, places_from_recs. done.
Qed.

(** ** The whole compaction *)

(** The merge of a flushed store: the merged file and what it holds. *)
Lemma merge_ok s fs rs mid :
  SInv s fs rs → lw_pending (s_writer s) = [] → mid ∉ fs.*1 ++ [active_id s] →
  ∃ mg d w rq, miter (merge_entry s mid) (entries_in_file_order s)
      (mkMerging ∅ [] 0, LogWriter_open mid (s_dir s)) = (Ok tt, (mg, (d, w))) ∧
    Merged s fs rs mid (mg, (d, w)) (entries_in_file_order s) rq ∧
    copies_of (contents s fs rs) rq ∧ mg_bytes mg = s_live_bytes s ∧ blen (file_bytes rq) = s_live_bytes s.
Proof.
  intros HI Hf Hmid.
  assert (d_data (s_dir s) !! mid = None) as Hfresh.
  { apply not_elem_of_dom. rewrite (si_dom _ _ _ HI), elem_of_list_to_set. done. }
  assert (entries_in_file_order s ≡ₚ map_to_list (s_keydir s)) as Hperm by apply merge_sort_Permutation.
  assert (NoDup (entries_in_file_order s).*1) as Hnd by (rewrite Hperm; apply NoDup_fst_map_to_list).
  destruct (merge_loop_ok s fs rs mid HI Hf (entries_in_file_order s)
    (mkMerging ∅ [] 0, LogWriter_open mid (s_dir s)) [] []) as ([mg [d w]] & rq & E & HM); [| |done|].
  - unfold LogWriter_open.
    assert (data_file (s_dir s) mid = []) as Hdf by (unfold data_file; by rewrite Hfresh).
    assert (data_file (write_all mid [] (s_dir s)) mid = []) as ->
      by (unfold data_file at 1; simpl; by rewrite lookup_insert_eq, Hdf).
    split; simpl; try done.
    + exists [], [], []. split; [done|]. unfold Wsplit. simpl. by rewrite lookup_insert_eq, Hdf.
    + by eexists.
    + apply Indexed_empty.
    + intros r Hr%not_elem_of_nil. done.
  - intros k loc Hin. rewrite Hperm in Hin. by apply elem_of_map_to_list in Hin.
  - simpl in HM. exists mg, d, w, rq.
    assert (copies_of (contents s fs rs) rq) as Hc.
    { split_and!.
      - rewrite (me_keys _ _ _ _ _ _ _ HM). done.
      - intros k. rewrite (me_keys _ _ _ _ _ _ _ HM), Hperm.
        rewrite <-(Refines_dom s (contents s fs rs) k) by (by exists fs, rs).
        rewrite list_elem_of_fmap. split.
        + intros [loc Hl]. exists (k, loc). split; [done|]. by apply elem_of_map_to_list.
        + intros ([k' loc] & -> & Hin%elem_of_map_to_list). by eexists.
      - intros r Hr. by apply (me_values _ _ _ _ _ _ _ HM). }
    assert (mg_bytes mg = s_live_bytes s) as Hb.
    { pose proof (replay_bytes _ _ _ (me_index _ _ _ _ _ _ _ HM)) as Hb. simpl in Hb.
      rewrite (copies_replay _ _ Hc) in Hb.
      destruct (Refines_counts s (contents s fs rs)) as [Hl _]; [by exists fs, rs|]. by rewrite Hb, Hl. }
    split_and!; try done.
    rewrite <-Hb. pose proof (ixd_disk _ _ (me_index _ _ _ _ _ _ _ HM)) as Hd. simpl in Hd.
    by rewrite Hd, disk_of_places_from.
Qed.

(** The directory once the merge is synced and has its hint, before anything is deleted. *)
Lemma merged_dir s fs rs mid mg d w rq :
  SInv s fs rs → Merged s fs rs mid (mg, (d, w)) (entries_in_file_order s) rq →
  let '(d', w') := LogWriter_sync (d, w) in
  let dm := hint_write mid (lw_offset w') (mg_hints mg) d' in
  Wok dm w' rq ∧ lw_file_id w' = mid ∧ lw_offset w' = blen (file_bytes rq) ∧
  lw_synced w' = lw_offset w' ∧ lw_pending w' = [] ∧
  d_data dm = <[mid := file_bytes rq]> (d_data (s_dir s)) ∧
  d_hint dm = <[mid := hint_bytes (blen (file_bytes rq)) (mg_hints mg)]> (d_hint (s_dir s)).
Proof.
  intros HI HM. pose proof (sync_ok d w rq (me_writer _ _ _ _ _ _ _ HM)) as Hs.
  pose proof (me_id _ _ _ _ _ _ _ HM) as Hid. simpl in Hid.
  destruct (LogWriter_sync (d, w)) as [d' w']. destruct Hs as (S1 & S2 & S3 & S4 & S5 & S6 & S7).
  pose proof (me_dir _ _ _ _ _ _ _ HM) as Hod. simpl in Hod. rewrite Hid in *.
  assert (lw_offset w' = blen (file_bytes rq)) as Ho.
  { destruct S1 as (q0 & q1 & q2 & -> & _ & _ & _ & Ho & _). done. }
  assert (only_data mid (s_dir s) d') as [bs Ed] by (by eapply only_data_trans).
  cbn zeta. split_and!; try done.
  - simpl. rewrite Ed in S6 |- *. simpl in *. rewrite lookup_insert_eq in S6. by injection S6 as ->.
  - simpl. rewrite Ho, Ed. done.
Qed.

Lemma compact_ok s fs rs old_ids :
  SInv s fs rs → s_compacting s = false → s_restoring s = false →
  (∀ id, id ∈ old_ids ↔ id ∈ s_readers s) → is_u64 (s_live_bytes s) →
  ∃ rep s' rq, compact old_ids s = (Ok rep, s') ∧ SInv s' [] rq ∧ copies_of (contents s fs rs) rq ∧
    is_synced s' = true ∧ s_disk_bytes s' = s_live_bytes s ∧ s_live_bytes s' = s_live_bytes s ∧
    s_readers s' = {[active_id s']} ∧
    rep = mkCompactReport (N.of_nat (size (s_readers s))) (s_disk_bytes s) (s_live_bytes s).
Proof.
  intros HI0 Hc Hr Hold Hlive. unfold compact. rewrite Hc, Hr. cbn [orb].
  destruct (flush_inv s fs rs HI0) as (HI & Hp & Ha).
  assert (same_but_writer s (writer_flush s)) as (Q1 & Q2 & Q3 & Q4 & Q5 & Q6 & Q7 & Q8 & Q9 & Q10)
    by apply on_writer_same.
  set (s1 := writer_flush s) in *. set (mid := foldr N.max 0 old_ids + 1).
  assert (∀ id, id ∈ fs.*1 ++ [active_id s1] ↔ id ∈ old_ids) as Hids.
  { intros id. by rewrite Hold, <-Q4, (si_readers _ _ _ HI), elem_of_list_to_set. }
  assert (mid ∉ fs.*1 ++ [active_id s1]) as Hmid.
  { intros Hin%Hids%foldr_max_le. unfold mid in Hin. lia. }
  assert (mid ∉ old_ids) as Hmid' by (by rewrite <-Hids).
  destruct (merge_ok s1 fs rs mid HI Hp Hmid) as (mg & d & w & rq & -> & HM & Hcp & Hb & Hlen).
  pose proof (merged_dir s1 fs rs mid mg d w rq HI HM) as Hmd.
  destruct (LogWriter_sync (d, w)) as [d' w']. cbn zeta in Hmd.
  set (dm := hint_write mid (lw_offset w') (mg_hints mg) d') in *.
  destruct Hmd as (W1 & W2 & W3 & W4 & W5 & W6 & W7). clearbody dm.
  fold (remove_files old_ids (s_set_dir dm s1)).
  destruct (remove_files_dir old_ids (s_set_dir dm s1)) as (R1 & R2 & R3).
  destruct (remove_files_rest old_ids (s_set_dir dm s1)) as (P1 & P2 & P3 & P4 & P5 & P6 & P7 & P8).
  set (s2 := remove_files old_ids (s_set_dir dm s1)) in *.
  assert (s_readers s2 = ∅) as Hre.
  { rewrite P1. simpl. rewrite Q4. apply set_eq. intros x. rewrite elem_of_difference, elem_of_list_to_set, Hold. set_solver. }
  assert (∀ id, d_data (s_dir s2) !! id = if decide (id = mid) then Some (file_bytes rq) else None) as Hdata.
  { intros id. rewrite R1. simpl. rewrite W6. case_decide as Hid.
    - subst id. by rewrite bool_decide_false, lookup_insert_eq.
    - rewrite lookup_insert_ne by done. case_bool_decide as Hin; [done|].
      apply not_elem_of_dom. rewrite (si_dom _ _ _ HI), elem_of_list_to_set, Hids. done. }
  assert (∀ id bs, d_hint (s_dir s2) !! id = Some bs → id = mid ∧ bs = hint_bytes (blen (file_bytes rq)) (mg_hints mg)) as Hhint.
  { intros id bs. rewrite R2. simpl. rewrite W7. case_bool_decide as Hin; [done|].
    rewrite lookup_insert_Some. intros [[<- <-]|[Hne Hb']]; [done|]. exfalso. apply Hin, Hids.
    apply elem_of_dom_2, (si_hint_dom _ _ _ HI) in Hb'.
    by rewrite (si_dom _ _ _ HI), elem_of_list_to_set in Hb'. }
  eexists _, _, rq. split; [reflexivity|].
  match goal with |- SInv ?st _ _ ∧ _ => set (s' := st) end.
  assert (active_id s' = mid) as Ha' by done.
  split_and!; try done.
  - split; unfold all_files; rewrite ?Ha'; simpl; rewrite ?app_nil_l.
    + split; [by intros ? ? ?%not_elem_of_nil|by intros ? ? ? ?%not_elem_of_nil|constructor|by intros ? ? ?%not_elem_of_nil].
    + by repeat constructor.
    + apply set_eq. intros id. rewrite elem_of_dom, Hdata. case_decide; set_solver.
    + intros id [bs Hb']%elem_of_dom. apply Hhint in Hb' as [-> _]. apply elem_of_dom. rewrite Hdata.
      rewrite decide_True by done. by eexists.
    + destruct W1 as (q0 & q1 & q2 & E & V1 & V2 & V3 & V4 & V5). exists q0, q1, q2. split; [done|].
      split_and!; try done. rewrite W2, Hdata, decide_True by done. f_equal.
      rewrite W2, W6, lookup_insert_eq in V1. by injection V1.
    + intros bs Hb'. apply Hhint in Hb' as [_ ->]. exists rq. split_and!; [done|by rewrite W4, W3|].
      apply hint_file_ok_all, HM.
    + apply (me_recs _ _ _ _ _ _ _ HM).
    + rewrite W3, Hlen. by rewrite Q2.
    + rewrite Hre. set_solver.
    + rewrite places_one. apply HM.
    + apply HM.
    + rewrite P3. simpl. apply (si_max _ _ _ HI).
    + intros id n Hn. apply P2 in Hn as [Hni Hn]. simpl in Hn.
      destruct (si_synced _ _ _ HI id n Hn) as (rs' & Hin & _). exfalso. apply Hni, Hids, elem_of_app. left.
      by eapply elem_fst.
  - unfold contents in *. rewrite all_recs_files in *. done.
  - unfold is_synced. simpl. by apply N.eqb_eq.
  - simpl. by rewrite Hb, Q2.
  - simpl. by rewrite Hb, Q2.
  - simpl. rewrite Hre, Ha'. set_solver.
  - unfold store_stats. simpl. by rewrite Hb, Q2, Q3, Q4.
Qed.

(** A compacted store means the same map, and its files hold nothing else. *)
Lemma compact_refines s m old_ids :
  Refines s m → s_compacting s = false → s_restoring s = false →
  (∀ id, id ∈ old_ids ↔ id ∈ s_readers s) → is_u64 (s_live_bytes s) →
  ∃ rep s', compact old_ids s = (Ok rep, s') ∧ Refines s' m ∧ is_synced s' = true ∧
    s_disk_bytes s' = s_live_bytes s ∧ s_live_bytes s' = s_live_bytes s ∧ s_readers s' = {[active_id s']} ∧
    rep = mkCompactReport (N.of_nat (size (s_readers s))) (s_disk_bytes s) (s_live_bytes s).
Proof.
  intros (fs & rs & HI & Hm) Hc Hr Hold Hu.
  destruct (compact_ok s fs rs old_ids HI Hc Hr Hold Hu)
    as (rep & s' & rq & E & HI' & Hcp & Hsy & Hd & Hl & Hre & Hrep).
  exists rep, s'. split_and!; try done. exists [], rq. split; [done|]. unfold contents.
  rewrite all_recs_files. simpl. rewrite <-Hm. by apply copies_replay.
Qed.

(** C18: compaction keeps the map and nothing else. It succeeds, leaves one data file with
    exactly one record per live key, everything on disk, the same map and byte counts
    that show no waste; the bytes it reports reclaimed are those that were dead. *)
Theorem compact_exact (s : Store) (m : gmap bytes bytes) (old_ids : list N) :
  Refines s m → s_compacting s = false → s_restoring s = false →
  (∀ id, id ∈ old_ids ↔ id ∈ s_readers s) → is_u64 (s_live_bytes s) →
  ∃ rep s', compact old_ids s = (Ok rep, s') ∧ Refines s' m ∧ is_synced s' = true ∧
    (∀ k, store_get s' k = store_get s k) ∧
    st_files (store_stats s') = 1 ∧ reclaimable_bytes (store_stats s') = 0 ∧
    reclaimed_bytes rep = reclaimable_bytes (store_stats s).
Proof.
  intros HR Hc Hr Hold Hu. destruct (compact_refines s m old_ids HR Hc Hr Hold Hu)
    as (rep & s' & E & HR' & Hsy & Hd & Hl & Hre & Hrep).
  exists rep, s'. split_and!; try done.
  - intros k. by rewrite (Refines_get s m), (Refines_get s' m).
  - simpl. by rewrite Hre, size_singleton.
  - unfold reclaimable_bytes. simpl. rewrite Hd, Hl. lia.
  - rewrite Hrep. done.
Qed.

Lemma colours_files reach id : id ∈ [1; 2; 3] ↔ id ∈ s_readers (colours reach).
Proof. replace (s_readers (colours reach)) with (list_to_set [1; 2; 3] : gset N); [by rewrite elem_of_list_to_set|].
  destruct reach; by apply (bool_decide_unpack _); vm_compute. Qed.

Lemma compact_exact_witness :
  ∃ rep s', compact [3; 1; 2] (colours Kernel) = (Ok rep, s') ∧ Refines s' {[lit "grass" := lit "green"]}.
Proof.
  destruct (compact_exact (colours Kernel) _ [3; 1; 2] (proj1 (colours_refines Kernel)))
    as (rep & s' & E & HR & _).
  - apply colours_refines.
  - apply colours_refines.
  - intros id. rewrite <-colours_files. by rewrite (Permutation_cons_append [1; 2] 3).
  - by vm_compute.
  - exact (ex_intro _ rep (ex_intro _ s' (conj E HR))).
Defined.
