(* ===== verification/StoreKill.v ===== *)
(** * A compaction killed in the middle

    A process killed anywhere in the middle of a compaction leaves a directory that opens. The
    code deletes the originals in the order of a hash map's keys: whatever that is, no key is
    lost or changed, and as long as the ones deleted are the oldest the map is the same;
    deleted newest first, a removed key comes back. *)

From S2P Require Import Prelude.
From S2P Require Import Crc.
From S2P Require Import RecordFormat.
From S2P Require Import DataLog.
From S2P Require Import HintFile.
From S2P Require Import Store.
From S2P Require Import StoreIndex.
From S2P Require Import StoreInv.
From S2P Require Import StoreOps.
From S2P Require Import StoreMap.
From S2P Require Import StoreOpen.
From S2P Require Import StoreCrash.
From S2P Require Import StoreCompact.

#[local] Open Scope N_scope.
#[local] Opaque rec_bytes.

(** The directory of a compaction killed while it copies: [n] bytes of the merged file
    have been written. *)
Definition killed_merging (old_ids : list N) (n : N) (s : Store) : Dir :=
  let s := writer_flush s in
  let mid := foldr N.max 0 old_ids + 1 in
  let g := (miter (merge_entry s mid) (entries_in_file_order s)
             (mkMerging ∅ [] 0, LogWriter_open mid (s_dir s))).2 in
  let d := (LogWriter_flush g.2).1 in
  set_data (λ m, <[mid := take (N.to_nat n) (data_file d mid)]> m) (s_dir s).

(** The directory of a store killed while it deletes [old_ids]: the first [j] of them are
    gone and, if [hint_gone], the hint of the next. *)
Definition deleting (old_ids : list N) (j : nat) (hint_gone : bool) (s : Store) : Dir :=
  let d := s_dir (remove_files (take j old_ids) s) in
  match old_ids !! j with
  | Some id => if hint_gone then set_hint (delete id) d else d
  | None => d
  end.

(** The directory of a compaction killed while it deletes the originals. *)
Definition killed_deleting (old_ids : list N) (j : nat) (hint_gone : bool) (s : Store) : Dir :=
  let s := writer_flush s in
  let mid := foldr N.max 0 old_ids + 1 in
  let g := (miter (merge_entry s mid) (entries_in_file_order s)
             (mkMerging ∅ [] 0, LogWriter_open mid (s_dir s))).2 in
  let '(d, w) := LogWriter_sync g.2 in
  deleting old_ids j hint_gone (s_set_dir (hint_write mid (lw_offset w) (mg_hints g.1) d) s).

(** ** What a deletion in any order can bring back *)

(** [m'] is [m], but that a key [m] lacks may have a value it had earlier in the history [h]. *)
Definition returns (h : list Rec) (m m' : gmap bytes bytes) : Prop :=
  ∀ k, m' !! k = m !! k ∨ m !! k = None ∧ ∃ h0, h0 `prefix_of` h ∧ m' !! k = replay h0 !! k.

(** The files [gone] are the oldest of [ids]. *)
Definition oldest_first (gone ids : list N) : Prop := ∀ x y, x ∈ gone → y ∈ ids → y ∉ gone → x < y.

Definition kept (gone : list N) (fs : Files) : Files := filter (λ f, f.1 ∉ gone) fs.

Lemma replay_Some_in h k v : replay h !! k = Some v → ∃ r, r ∈ h ∧ r_key r = k ∧ r_value r = Some v.
Proof.
  induction h as [|r h IH] using rev_ind; [done|]. rewrite replay_snoc. unfold replay_step.
  destruct (r_value r) as [w|] eqn:Er; [rewrite lookup_insert_Some|rewrite lookup_delete_Some].
  - intros [[<- <-]|[_ Hk]]; [exists r; set_solver|]. destruct (IH Hk) as (r' & ? & ?). exists r'. set_solver.
  - intros [_ Hk]. destruct (IH Hk) as (r' & ? & ?). exists r'. set_solver.
Qed.

(** Behind any records of the history, the copies hold everything there is. *)
Lemma copies_returns h h' rq : copies_of (replay h) rq → h' ⊆ h → returns h (replay h) (replay (h' ++ rq)).
Proof.
  intros Hc Hsub k. rewrite replay_app_lookup, (copies_replay _ _ Hc). case_bool_decide as Hk; [by left|].
  destruct Hc as (_ & Hdom & _). assert (replay h !! k = None) as Hn by (apply eq_None_not_Some; by rewrite Hdom).
  destruct (replay h' !! k) as [v|] eqn:Ev; [right|by left]. split; [done|].
  destruct (replay_Some_in _ _ _ Ev) as (r & Hr%Hsub & <- & Erv). apply list_elem_of_split in Hr as (h1 & h2 & ->).
  exists (h1 ++ [r]). split; [apply prefix_app, prefix_cons, prefix_nil|]. rewrite replay_snoc. unfold replay_step.
  by rewrite Erv, lookup_insert_eq.
Qed.

Lemma returns_eq h m m' : returns h m m' → ∀ k v, m !! k = Some v → m' !! k = Some v.
Proof. intros HR k v Hk. destruct (HR k) as [->|[? _]]; [done|congruence]. Qed.

Lemma sorted_sublist (l l' : list N) : l `sublist_of` l' → StronglySorted N.lt l' → StronglySorted N.lt l.
Proof.
  induction 1 as [|x l l' Hl IH|x l l' Hl IH]; intros Hs; [done| |]; apply StronglySorted_inv in Hs as [Hs Hx].
  - constructor; [by apply IH|]. rewrite list.Forall_forall in Hx |- *. intros y Hy. apply Hx. by eapply elem_of_sublist.
  - by apply IH.
Qed.

Lemma kept_sub gone fs : kept gone fs ⊆ fs.
Proof. intros f [_ Hf]%list_elem_of_filter. done. Qed.

Lemma kept_ids gone fs id : id ∈ (kept gone fs).*1 ↔ id ∈ fs.*1 ∧ id ∉ gone.
Proof.
  rewrite !list_elem_of_fmap. split.
  - intros (f & -> & [Hn Hf]%list_elem_of_filter). split; [by exists f|done].
  - intros [(f & -> & Hf) Hn]. exists f. split; [done|]. by apply list_elem_of_filter.
Qed.

Lemma kept_sorted gone fs : StronglySorted N.lt fs.*1 → StronglySorted N.lt (kept gone fs).*1.
Proof. apply sorted_sublist, fmap_sublist, sublist_filter. Qed.

Lemma kept_recs_sub gone fs : all_recs (kept gone fs) ⊆ all_recs fs.
Proof.
  intros r (l & Hr & Hl)%list_elem_of_join. apply list_elem_of_join. exists l. split; [done|].
  apply list_elem_of_fmap in Hl as (f & -> & Hf%kept_sub). by apply list_elem_of_fmap_2.
Qed.

(** The oldest gone, what is left is the end of the history. *)
Lemma kept_oldest gone fs :
  StronglySorted N.lt fs.*1 → oldest_first gone fs.*1 → ∃ h, all_recs fs = h ++ all_recs (kept gone fs).
Proof.
  induction fs as [|[id rs] fs IH]; intros Hs Ho; [by exists []|]. cbn [fmap list_fmap fst] in Hs, Ho. apply StronglySorted_inv in Hs as [Hs Hid].
  destruct IH as [h Eh]; [done|intros x y Hx Hy; apply Ho; [done|by right]|]. change (all_recs ((id, rs) :: fs)) with (rs ++ all_recs fs).
  unfold kept. rewrite filter_cons. case_decide as Hn; cbn [fst] in Hn; cycle 1.
  { exists (rs ++ h). fold (kept gone fs). by rewrite Eh, (assoc_L (++)). }
  exists []. fold (kept gone fs). change (all_recs ((id, rs) :: kept gone fs)) with (rs ++ all_recs (kept gone fs)).
  assert (kept gone fs = fs) as ->; [|done]. apply filter_all. rewrite list.Forall_forall in Hid. intros f Hf Hg.
  pose proof (Ho f.1 id Hg (list_elem_of_here _ _) Hn) as H1. pose proof (Hid f.1 ltac:(by apply list_elem_of_fmap_2)). lia.
Qed.

(** What is left: everything but the deleted files, and at most the hints. *)
Lemma deleting_dir old_ids j hint_gone s :
  (∀ id, d_data (deleting old_ids j hint_gone s) !! id =
     if bool_decide (id ∈ take j old_ids) then None else d_data (s_dir s) !! id) ∧
  (∀ id bs, d_hint (deleting old_ids j hint_gone s) !! id = Some bs →
     id ∉ take j old_ids ∧ d_hint (s_dir s) !! id = Some bs).
Proof.
  destruct (remove_files_dir (take j old_ids) s) as (R1 & R2 & _).
  assert (∀ id bs, d_hint (s_dir (remove_files (take j old_ids) s)) !! id = Some bs →
     id ∉ take j old_ids ∧ d_hint (s_dir s) !! id = Some bs) as R.
  { intros id bs. rewrite R2. by case_bool_decide. }
  unfold deleting. destruct (old_ids !! j) as [i|]; [|done]. destruct hint_gone; [|done].
  split; [done|]. intros id bs Hb. simpl in Hb. apply lookup_delete_Some in Hb as [_ Hb]. by apply R.
Qed.

(** A flushed store's active file is as good as sealed. *)
Lemma flushed_dir s fs rs :
  SInv s fs rs → lw_pending (s_writer s) = [] → dir_ok (s_dir s) (fs ++ [(active_id s, rs)]).
Proof.
  intros HI Hp. pose proof HI as [[D1 D2 D3 D4] I2 I3 I3' I4 I5 I6 I7 I8 I9 I10 I11 I12].
  destruct I4 as (r0 & r1 & r2 & E & W1 & W2 & W3 & W4 & W5).
  assert (r2 = []) as -> by (apply file_bytes_nil; congruence). rewrite app_nil_r in E, W4. subst rs.
  split.
  - intros id rs' [Hin|[= -> ->]%list_elem_of_singleton]%elem_of_app; [by apply D1|done].
  - intros id rs' bs [Hin|[= -> ->]%list_elem_of_singleton]%elem_of_app; [by apply D2|].
    intros Hb. by eapply hint_synced_ok, I5.
  - rewrite all_recs_app, all_recs_one. by apply Forall_app.
  - intros id rs' [Hin|[= -> ->]%list_elem_of_singleton]%elem_of_app; [by eapply D4|]. by rewrite <-W4.
Qed.

Lemma dir_ok_sub d d' fs fs' :
  dir_ok d fs → fs' ⊆ fs →
  (∀ id rs, (id, rs) ∈ fs' → d_data d' !! id = d_data d !! id) →
  (∀ id rs bs, (id, rs) ∈ fs' → d_hint d' !! id = Some bs → d_hint d !! id = Some bs) → dir_ok d' fs'.
Proof.
  intros [D1 D2 D3 D4] Hsub Hd Hh. split.
  - intros id rs Hin. rewrite (Hd id rs) by done. by apply D1, Hsub.
  - intros id rs bs Hin Hb. eapply D2; [by apply Hsub|]. by eapply Hh.
  - rewrite list.Forall_forall in D3 |- *. intros r (l & Hr & Hl)%list_elem_of_join.
    apply D3, list_elem_of_join. exists l. split; [done|]. apply list_elem_of_fmap in Hl as (f & -> & Hf).
    by apply list_elem_of_fmap_2, Hsub.
  - intros id rs Hin. by eapply D4, Hsub.
Qed.

(** What the two stages share. *)
Record Compacting (s : Store) (fs : Files) (rs : list Rec) (old_ids : list N) (mid : N)
    (rq : list Rec) : Prop := {
  cg_inv : SInv (writer_flush s) fs rs;
  cg_flushed : lw_pending (s_writer (writer_flush s)) = [];
  cg_ids : ∀ id, id ∈ fs.*1 ++ [active_id (writer_flush s)] ↔ id ∈ old_ids;
  cg_mid : ∀ id, id ∈ fs.*1 ++ [active_id (writer_flush s)] → id < mid;
  cg_copies : copies_of (replay (all_recs fs ++ rs)) rq;
  cg_recs : Forall rec_ok rq;
  cg_len : is_u64 (blen (file_bytes rq));
}.

Lemma compacting s fs rs old_ids :
  SInv s fs rs → (∀ id, id ∈ old_ids ↔ id ∈ s_readers s) → is_u64 (s_live_bytes s) →
  let s1 := writer_flush s in
  let mid := foldr N.max 0 old_ids + 1 in
  ∃ mg d w rq, miter (merge_entry s1 mid) (entries_in_file_order s1)
      (mkMerging ∅ [] 0, LogWriter_open mid (s_dir s1)) = (Ok tt, (mg, (d, w))) ∧
    Merged s1 fs rs mid (mg, (d, w)) (entries_in_file_order s1) rq ∧
    Compacting s fs rs old_ids mid rq.
Proof.
  intros HI0 Hold Hlive s1 mid.
  destruct (flush_inv s fs rs HI0) as (HI & Hp & Ha).
  assert (same_but_writer s s1) as (Q1 & Q2 & Q3 & Q4 & _) by apply on_writer_same.
  assert (∀ id, id ∈ fs.*1 ++ [active_id s1] ↔ id ∈ old_ids) as Hids.
  { intros id. rewrite Hold. pose proof (si_readers _ _ _ HI) as Hr. fold s1 in Hr. rewrite Q4 in Hr.
    by rewrite Hr, elem_of_list_to_set. }
  assert (∀ id, id ∈ fs.*1 ++ [active_id s1] → id < mid) as Hmid.
  { intros id Hin%Hids%foldr_max_le. unfold mid. lia. }
  destruct (merge_ok s1 fs rs mid HI Hp) as (mg & d & w & rq & E & HM & Hcp & Hb & Hlen).
  { intros Hin%Hmid. lia. }
  exists mg, d, w, rq. split_and!; try done. split; try done.
  - unfold contents in Hcp. by rewrite all_recs_files in Hcp.
  - apply (me_recs _ _ _ _ _ _ _ HM).
  - rewrite Hlen. fold s1. by rewrite Q2.
Qed.

(** Two ascending lists of the same ids are the same list. *)
Lemma sorted_lt_unique (l l' : list N) :
  StronglySorted N.lt l → StronglySorted N.lt l' → (∀ x, x ∈ l ↔ x ∈ l') → l = l'.
Proof.
  intros Hl Hl' E. set (d := mkDir (gset_to_gmap [] (list_to_set l)) ∅ ∅).
  rewrite <-(list_data_files_sorted d l), <-(list_data_files_sorted d l'); try done.
  - unfold d. simpl. rewrite dom_gset_to_gmap. apply set_eq. intros x. by rewrite !elem_of_list_to_set.
  - unfold d. simpl. by rewrite dom_gset_to_gmap.
Qed.

Lemma snoc_sorted (l : list N) mid :
  StronglySorted N.lt l → (∀ x, x ∈ l → x < mid) → StronglySorted N.lt (l ++ [mid]).
Proof.
  intros Hl Hm. apply StronglySorted_app_2; [|done|by repeat constructor].
  intros x y Hx Hy. apply list_elem_of_singleton in Hy as ->. by apply Hm.
Qed.

(** The files left once [gone] are deleted and [mid] is added. *)
Lemma remaining_dom (m0 m : gmap N bytes) (fs : Files) gone mid bs :
  mid ∉ gone →
  (∀ id, m !! id = if bool_decide (id ∈ gone) then None else <[mid := bs]> m0 !! id) →
  dom m0 = list_to_set fs.*1 → dom m = list_to_set ((kept gone fs).*1 ++ [mid]).
Proof.
  intros Hmid Hm Hdom. apply set_eq. intros id. rewrite elem_of_dom, Hm, elem_of_list_to_set, elem_of_app, list_elem_of_singleton, kept_ids.
  assert (is_Some (m0 !! id) ↔ id ∈ fs.*1) as H0 by (by rewrite <-elem_of_dom, Hdom, elem_of_list_to_set).
  case_bool_decide as Hin; [rewrite is_Some_alt; naive_solver|].
  rewrite lookup_insert. case_decide as Hid; [naive_solver|]. rewrite H0. naive_solver.
Qed.

(** As opening leaves a store: no job under way, everything on the disk. *)
Definition at_rest (s : Store) : Prop := s_restoring s = false ∧ s_compacting s = false ∧ is_synced s = true.

Section killed.
Variables (s : Store) (fs : Files) (rs : list Rec) (old_ids : list N) (opts : Options).
Hypothesis HI : SInv s fs rs.
Hypothesis Hold : ∀ id, id ∈ old_ids ↔ id ∈ s_readers s.
Hypothesis Hlive : is_u64 (s_live_bytes s).
Hypothesis Hmax : is_u64 (o_max_file_bytes opts).

Let s1 := writer_flush s.
Let mid := foldr N.max 0 old_ids + 1.
Let all := fs ++ [(active_id s1, rs)].

Lemma all_sorted rq : Compacting s fs rs old_ids mid rq → StronglySorted N.lt all.*1.
Proof. intros HC. unfold all. rewrite fmap_app. apply (si_sorted _ _ _ (cg_inv _ _ _ _ _ _ HC)). Qed.

Lemma copying_file d w rq :
  Wok d w rq → lw_file_id w = mid → data_file (LogWriter_flush (d, w)).1 mid = file_bytes rq.
Proof.
  intros HW Hid. pose proof (flush_ok d w rq HW) as Hf. destruct (LogWriter_flush (d, w)) as [d' w'].
  destruct Hf as ((r0 & r1 & r2 & -> & W1 & W2 & _) & Hid' & _ & Hp & _). rewrite Hid', Hid in W1.
  apply data_file_Some. cbn [fst]. rewrite W1. rewrite (file_bytes_nil r2) by congruence. by rewrite app_nil_r.
Qed.

(** Killed while it copies. *)
Lemma killed_merging_ok n :
  ∃ s', open_with opts (killed_merging old_ids n s) = (Ok s', s_dir s') ∧
    Refines s' (replay (all_recs fs ++ rs)) ∧ at_rest s'.
Proof.
  destruct (compacting s fs rs old_ids HI Hold Hlive) as (mg & d & w & rq & E & HM & HC).
  pose proof HC as [HI1 Hp Hids Hmid Hcp Hrq Hlen].
  unfold killed_merging. fold s1 mid in E, HM, HI1, Hp, Hids, Hmid |- *. rewrite E. cbn [fst snd].
  rewrite (copying_file d w rq) by apply HM.
  destruct (file_cut rq (N.to_nat n) Hrq) as (q1 & q2 & tail & -> & Ht & Htail & _). rewrite Ht.
  assert (∀ id r, (id, r) ∈ all → id ≠ mid) as Hne.
  { intros id r Hin%elem_fst ->. unfold all in Hin. rewrite fmap_app in Hin. apply Hmid in Hin. lia. }
  destruct (open_ok opts (set_data (λ m, <[mid := file_bytes q1 ++ tail]> m) (s_dir s1)) all mid q1 tail)
    as (s' & E' & HI' & _ & Hre & Hco & _ & _ & Hsy & _); [|done|].
  - split; simpl.
    + eapply dir_ok_sub; [by apply flushed_dir|done|..]; simpl; [|done].
      intros id r Hin. apply lookup_insert_ne. intros <-. by eapply Hne.
    + eapply snoc_sorted; [by eapply all_sorted|]. unfold all. by rewrite fmap_app.
    + rewrite dom_insert_L, (si_dom _ _ _ HI1). unfold all. rewrite fmap_app. set_solver.
    + apply lookup_insert_eq.
    + intros bs Hb%elem_of_dom_2%(si_hint_dom _ _ _ HI1). exfalso.
      rewrite (si_dom _ _ _ HI1), elem_of_list_to_set in Hb. apply Hmid in Hb. lia.
    + by apply Forall_app in Hrq as [? _].
    + done.
    + rewrite <-Ht. unfold is_u64, blen in *. rewrite length_take. lia.
  - exists s'. split; [done|]. split; [|done]. exists all, q1. split; [done|]. unfold contents.
    rewrite all_recs_files. unfold all. rewrite all_recs_app, all_recs_one. apply replay_copies.
    intros r Hr. destruct Hcp as (_ & _ & Hv). apply Hv, elem_of_app. by left.
Qed.

(** Killed while it deletes, in whatever order. *)
Lemma killed_deleting_ok j hint_gone :
  ∃ s' m', open_with opts (killed_deleting old_ids j hint_gone s) = (Ok s', s_dir s') ∧ Refines s' m' ∧
    returns (all_recs fs ++ rs) (replay (all_recs fs ++ rs)) m' ∧
    (oldest_first (take j old_ids) old_ids → m' = replay (all_recs fs ++ rs)) ∧ at_rest s'.
Proof.
  destruct (compacting s fs rs old_ids HI Hold Hlive) as (mg & d & w & rq & E & HM & HC).
  pose proof HC as [HI1 Hp Hids Hmid Hcp Hrq Hlen].
  unfold killed_deleting. fold s1 mid in E, HM, HI1, Hp, Hids, Hmid |- *. rewrite E. cbn [fst snd].
  pose proof (merged_dir s1 fs rs mid mg d w rq HI1 HM) as Hmd.
  destruct (LogWriter_sync (d, w)) as [d' w']. cbn zeta in Hmd.
  set (dm := hint_write mid (lw_offset w') (mg_hints mg) d') in *.
  destruct Hmd as (_ & _ & _ & _ & _ & W6 & W7). clearbody dm.
  destruct (deleting_dir old_ids j hint_gone (s_set_dir dm s1)) as (R1 & R2). simpl in R1, R2.
  set (dk := deleting old_ids j hint_gone (s_set_dir dm s1)) in *. clearbody dk.
  assert (∀ id, id ∈ all.*1 ↔ id ∈ old_ids) as Hall by (intros id; unfold all; rewrite fmap_app; apply Hids).
  assert (∀ id, id ∈ all.*1 → id < mid) as Hlt by (intros id; unfold all; rewrite fmap_app; apply Hmid).
  set (gone := take j old_ids) in *.
  assert (mid ∉ gone) as Hmid' by (intros Hin%subseteq_take%Hall%Hlt; lia).
  assert (∀ id r, (id, r) ∈ kept gone all → id ∉ gone ∧ id ≠ mid) as Hleft.
  { intros id r [Hn Hin%elem_fst%Hlt]%list_elem_of_filter. split; [done|lia]. }
  assert (all_recs all = all_recs fs ++ rs) as Ea by (unfold all; by rewrite all_recs_app, all_recs_one).
  destruct (open_ok opts dk (kept gone all) mid rq []) as (s' & E' & HI' & _ & Hre & Hco & _ & _ & Hsy & _); [|done|].
  - split; rewrite ?app_nil_r; try done.
    + eapply dir_ok_sub; [by apply flushed_dir|apply kept_sub|..].
      * intros id r [Hn Hne]%Hleft. rewrite R1, bool_decide_false, W6 by done. by apply lookup_insert_ne.
      * intros id r bs [Hn Hne]%Hleft [_ Hb]%R2. by rewrite W7, lookup_insert_ne in Hb.
    + apply snoc_sorted; [by eapply kept_sorted, all_sorted|]. intros x [Hx _]%kept_ids. by apply Hlt.
    + eapply (remaining_dom (d_data (s_dir s1)) _ _ _ _ (file_bytes rq)); [done|intros id; by rewrite R1, W6|].
      rewrite (si_dom _ _ _ HI1). unfold all. by rewrite fmap_app.
    + rewrite R1, bool_decide_false, W6 by done. apply lookup_insert_eq.
    + intros bs [_ Hb]%R2. rewrite W7, lookup_insert_eq in Hb. injection Hb as <-. apply hint_file_ok_all, HM.
    + by left.
  - exists s', (replay (all_recs (kept gone all) ++ rq)). rewrite <-Ea in *. split_and!; [done|..|done].
    + exists (kept gone all), rq. split; [done|]. unfold contents. by rewrite all_recs_files.
    + apply copies_returns; [done|apply kept_recs_sub].
    + intros Ho. destruct (kept_oldest gone all) as [h Eh]; [by eapply all_sorted|intros x y Hx Hy%Hall; by apply Ho|].
      rewrite Eh in Hcp |- *. by apply copies_after_suffix.
Qed.
End killed.

(** The last stage is what the compaction leaves. *)
Lemma killed_deleting_last s fs rs old_ids :
  SInv s fs rs → s_compacting s = false → s_restoring s = false →
  (∀ id, id ∈ old_ids ↔ id ∈ s_readers s) → is_u64 (s_live_bytes s) →
  killed_deleting old_ids (length old_ids) false s = s_dir (compact old_ids s).2.
Proof.
  intros HI Hc Hr Hold Hlive.
  destruct (compacting s fs rs old_ids HI Hold Hlive) as (mg & d & w & rq & E & _ & _). cbv zeta in E.
  unfold killed_deleting, compact. rewrite Hc, Hr. cbn [orb]. rewrite E. cbn [fst snd].
  destruct (LogWriter_sync (d, w)) as [d' w'].
  unfold deleting. by rewrite firstn_all, lookup_ge_None_2 by done.
Qed.

(** C20: what a killed compaction can and cannot do. The process is killed with the merged file cut at
    any byte: the directory opens to the same map. It is killed with the merged file complete and any
    number of the originals deleted, in whatever order the hash map of files gives them, the next one's
    hint perhaps gone already: the directory opens, every key that was there has its value, and a key
    that was not there is still not there or has a value it had earlier in the store's history, which
    it cannot have if the files deleted are the oldest ones. The last of these directories is the one
    [compact] leaves when nothing stops it. *)
Theorem killed_compaction_keeps_map (s : Store) (hs0 hs : list Rec) (old_ids : list N) (opts : Options) :
  History s hs0 hs → s_compacting s = false → s_restoring s = false →
  (∀ id, id ∈ old_ids ↔ id ∈ s_readers s) →
  is_u64 (s_live_bytes s) → is_u64 (o_max_file_bytes opts) →
  (∀ n, ∃ s', open_with opts (killed_merging old_ids n s) = (Ok s', s_dir s') ∧ Refines s' (replay hs)) ∧
  (∀ j hint_gone, ∃ s' m', open_with opts (killed_deleting old_ids j hint_gone s) = (Ok s', s_dir s') ∧ Refines s' m' ∧
    (∀ k v, replay hs !! k = Some v → m' !! k = Some v) ∧ returns hs (replay hs) m' ∧
    (oldest_first (take j old_ids) old_ids → m' = replay hs)) ∧
  killed_deleting old_ids (length old_ids) false s = s_dir (compact old_ids s).2.
Proof.
  intros (fs & rs & r0 & HI & _ & _ & _ & ->) Hc Hr Hold Hl Hmax.
  split_and!; [| |by eapply killed_deleting_last].
  { intros n. destruct (killed_merging_ok s fs rs old_ids opts HI Hold Hl Hmax n) as (s' & E & HR & _). by exists s'. }
  intros j g.
  destruct (killed_deleting_ok s fs rs old_ids opts HI Hold Hl Hmax j g) as (s' & m' & E & HR & Hret & Ho & _). exists s', m'.
  split_and!; [done..|by eapply returns_eq|done|done].
Qed.

(** The colours' files, deleted in the order 2, 1, 3 and killed after the second, and in the order 3, 2, 1 and killed after the first. *)
Lemma killed_compaction_keeps_map_witness :
  ∃ s1 s2 m, open_with Options_default (killed_deleting [2; 1; 3] 2 true (colours Kernel)) = (Ok s1, s_dir s1) ∧
    Refines s1 {[lit "grass" := lit "green"]} ∧
    open_with Options_default (killed_deleting [3; 2; 1] 1 true (colours Kernel)) = (Ok s2, s_dir s2) ∧
    Refines s2 m ∧ m !! lit "grass" = Some (lit "green").
Proof.
  destruct (colours_refines Kernel) as (HR & Hr & Hc). destruct (Refines_history _ _ HR) as (hs0 & hs & HH & Em).
  assert (∀ ids, ids ≡ₚ [1; 2; 3] → ∀ id, id ∈ ids ↔ id ∈ s_readers (colours Kernel)) as Hold.
  { intros ids Hp id. rewrite Hp. apply colours_files. }
  assert (is_u64 (s_live_bytes (colours Kernel))) as Hl by (vm_compute; reflexivity).
  assert (is_u64 (o_max_file_bytes Options_default)) as Hm by (vm_compute; reflexivity).
  assert ([2; 1; 3] ≡ₚ [1; 2; 3]) as P1 by constructor. assert ([3; 2; 1] ≡ₚ [1; 2; 3]) as P2 by exact (symmetry (Permutation_rev [1; 2; 3])).
  set (s := colours Kernel) in *. clearbody s.
  destruct (killed_compaction_keeps_map s hs0 hs [2; 1; 3] Options_default HH Hc Hr
    (Hold _ P1) Hl Hm) as (_ & H1 & _).
  destruct (killed_compaction_keeps_map s hs0 hs [3; 2; 1] Options_default HH Hc Hr
    (Hold _ P2) Hl Hm) as (_ & H2 & _).
  destruct (H1 2%nat true) as (s1 & m1 & E1 & R1 & _ & _ & O1). destruct (H2 1%nat true) as (s2 & m2 & E2 & R2 & K2 & _).
  assert (m1 = {[lit "grass" := lit "green"]}) as ->.
  { rewrite <-Em. apply O1. intros x y Hx Hy Hn. simpl in Hx, Hn. set_unfold. destruct Hy as [->|[->|[->|[]]]]; [tauto|tauto|]. lia. }
  assert (replay hs !! lit "grass" = Some (lit "green")) as Hg by (rewrite Em; apply lookup_singleton_eq).
  exists s1, s2, m2. exact (conj E1 (conj R1 (conj E2 (conj R2 (K2 _ _ Hg))))).
Defined.

(** ** Deleted in another order *)

(** The value a directory's store has for a key once opened. *)
Definition reopened_get (opts : Options) (d : Dir) (k : bytes) : result (option bytes) :=
  match (open_with opts d).1 with Ok s => store_get s k | Err e => Err e end.

(** Deleted newest first, a removed key comes back. The colours' store has no "sky":
    it was put in file 1 and deleted in file 3. Compaction may be handed the ids of the
    same three files as [3; 2; 1], since it takes them from a hash map; killed once the
    first is gone, the put in file 1 is all that is left of "sky", and it has its old
    value again. *)
Theorem compact_delete_order_matters :
  store_get (colours Disk) (lit "sky") = Ok None ∧
  (∀ id, id ∈ [3; 2; 1] ↔ id ∈ s_readers (colours Disk)) ∧
  reopened_get Options_default (killed_deleting [3; 2; 1] 1 false (colours Disk)) (lit "sky") = Ok (Some (lit "blue")) ∧
  reopened_get Options_default (killed_deleting [1; 2; 3] 1 false (colours Disk)) (lit "sky") = Ok None.
Proof.
  split_and!; [by vm_compute| |by vm_compute|by vm_compute].
  intros id. rewrite <-colours_files. by rewrite (Permutation_rev [3; 2; 1]).
Qed.

(** ** Power lost during the merge *)

(** The power is lost during the merge, when [n] bytes of the merged file are on the disk
    and [k] of the active file: it was flushed, not synced. *)
Definition power_lost_merging (old_ids : list N) (n k : N) (s : Store) : Dir :=
  let d := killed_merging old_ids n s in
  set_data (λ m, <[active_id s := take (N.to_nat k) (data_file d (active_id s))]> m) d.

(** A merge makes an unsynced active file one that must be whole. Under the policy that
    leaves syncing to the kernel, a power cut during [compact] that tears the active file
    leaves a directory that does not open, because the merged file is newer; the same
    tear with no merge running only loses the unsynced tail. *)
Theorem compact_power_cut_refuses_to_open :
  let s := colours Kernel in
  may_crash_at 10 s ∧
  reopened_get Options_default (crash 10 s) (lit "grass") = Ok (Some (lit "green")) ∧
  ∃ detail, reopened_get Options_default (power_lost_merging [1; 2; 3] 0 10 s) (lit "grass") = Err (Corrupt 3 0 detail).
Proof.
  split_and!; [unfold may_crash_at; by apply (bool_decide_unpack _); vm_compute|by vm_compute|].
  eexists. vm_compute. reflexivity.
Qed.

