(* ===== verification/StoreSide.v ===== *)
(** * Writes made while a file is being prepared on the side

    A background compaction seals the files it will replace, leaves an id free after
    them and lets the store go on writing into a newer file. [Side]: what such a store
    looks like, and that every write keeps it so. [beside]: the prepared file put in its
    place under the store's feet, which no write notices. *)

From S2P Require Import Prelude.
From S2P Require Import Crc.
From S2P Require Import RecordFormat.
From S2P Require Import DataLog.
From S2P Require Import HintFile.
From S2P Require Import Store.
From S2P Require Import StoreIndex.
From S2P Require Import StoreInv.
From S2P Require Import StoreOps.
From S2P Require Import StoreMap.

#[local] Open Scope N_scope.
#[local] Opaque rec_bytes.

(** ** Writes *)

Inductive Write :=
  | WPut (k v : bytes) (reach : Reach) (now now' : N)
  | WDelete (k : bytes) (reach : Reach) (now now' : N)
  | WSync.

Definition run_write (s : Store) (w : Write) : Store :=
  match w with
  | WPut k v reach now now' => (put_with k v reach now now' s).2
  | WDelete k reach now now' => (delete_with k reach now now' s).2
  | WSync => store_sync s
  end.

Definition run_writes (ws : list Write) (s : Store) : Store := foldl run_write s ws.

#[export] Instance fits_dec k v : Decision (fits k v).
Proof. unfold fits, is_u32. apply _. Defined.

(** What a write does to the map: a put of an empty or oversized key or value is refused. *)
Definition write_map (m : gmap bytes bytes) (w : Write) : gmap bytes bytes :=
  match w with
  | WPut k v _ _ _ => if bool_decide (k ≠ [] ∧ fits k v) then <[k := v]> m else m
  | WDelete k _ _ _ => delete k m
  | WSync => m
  end.

Definition write_maps (ws : list Write) (m : gmap bytes bytes) : gmap bytes bytes := foldl write_map m ws.

(** The clock is a [u64], and no record is accepted that the index cannot measure. *)
Definition write_ok (w : Write) : Prop :=
  match w with
  | WPut k v _ now now' => (record_ok k (Some v) → fits k v) ∧ is_u64 now ∧ is_u64 now'
  | WDelete _ _ now now' => is_u64 now ∧ is_u64 now'
  | WSync => True
  end.

(** ** The store meanwhile *)

(** [fs0] are the files being replaced, [mid] the id left for what replaces them, [kd0]
    the index when they were sealed; [fs1] and [rs] have been written since. *)
Record Side (kd0 : gmap bytes Location) (fs0 : Files) (mid : N) (s : Store) (fs1 : Files)
    (rs : list Rec) : Prop := {
  sd_inv : SInv s (fs0 ++ fs1) rs;
  sd_before : ∀ id, id ∈ fs0.*1 → id < mid;
  sd_after : ∀ id, id ∈ fs1.*1 ++ [active_id s] → mid < id;
  sd_keydir : ∀ k, k ∉ r_key <$> all_recs fs1 ++ rs → s_keydir s !! k = kd0 !! k;
}.

Section side.
Variables (kd0 : gmap bytes Location) (fs0 : Files) (mid : N).

Lemma side_append s fs1 rs r reach s' fs' rs' :
  Side kd0 fs0 mid s fs1 rs → Appended s (fs0 ++ fs1) rs r reach s' fs' rs' →
  ∃ fs1', Side kd0 fs0 mid s' fs1' (rs' ++ [r]) ∧ all_recs fs1' ++ rs' = all_recs fs1 ++ rs.
Proof.
  intros [S1 S2 S3 S4] HA.
  assert (∃ fs1', fs' = fs0 ++ fs1' ∧ all_recs fs1' ++ rs' = all_recs fs1 ++ rs ∧
    (∀ id, id ∈ fs1'.*1 ++ [active_id s'] → mid < id)) as (fs1' & -> & Hall & Hid).
  { destruct (ap_rolled _ _ _ _ _ _ _ _ HA) as [(-> & -> & ->)|(-> & -> & Ea)]; [by exists fs1|].
    exists (fs1 ++ [(active_id s, rs)]). rewrite (assoc_L (++)). split_and!; [done| |].
    - by rewrite all_recs_app, all_recs_one, app_nil_r.
    - intros id. rewrite fmap_app, Ea. intros [Hin|Hin%list_elem_of_singleton]%elem_of_app; [by apply S3|].
      assert (mid < active_id s) by (apply S3, elem_of_app; right; by apply list_elem_of_singleton). lia. }
  exists fs1'. split; [|done]. split; [apply HA|done|done|].
  intros k. rewrite (assoc_L (++)), Hall, fmap_app, elem_of_app. intros Hk. 
  rewrite (ap_keydir _ _ _ _ _ _ _ _ HA), S4; [done|naive_solver|].
  intros ->. apply Hk. right. by apply list_elem_of_singleton.
Qed.

(** What the store means, in terms of the history. *)
Definition side_map (fs1 : Files) (rs : list Rec) : gmap bytes bytes :=
  replay (all_recs fs0 ++ all_recs fs1 ++ rs).

Lemma side_contents s fs1 rs : contents s (fs0 ++ fs1) rs = side_map fs1 rs.
Proof. unfold contents, side_map. by rewrite all_recs_files, all_recs_app, <-(assoc_L (++)). Qed.

Lemma side_map_snoc fs1 rs fs1' rs' r :
  all_recs fs1' ++ rs' = all_recs fs1 ++ rs → side_map fs1' (rs' ++ [r]) = replay_step (side_map fs1 rs) r.
Proof. intros E. unfold side_map. by rewrite (assoc_L (++) (all_recs fs1')), E, (assoc_L (++)), replay_snoc. Qed.

Lemma side_refines s fs1 rs : Side kd0 fs0 mid s fs1 rs → Refines s (side_map fs1 rs).
Proof. intros HS. exists (fs0 ++ fs1), rs. split; [apply HS|apply side_contents]. Qed.

(** Every write keeps the store beside the free slot, and does to the map what it says. *)
Lemma side_write s fs1 rs w :
  Side kd0 fs0 mid s fs1 rs → s_restoring s = false → write_ok w →
  ∃ fs1' rs', Side kd0 fs0 mid (run_write s w) fs1' rs' ∧ side_map fs1' rs' = write_map (side_map fs1 rs) w ∧
    s_restoring (run_write s w) = false ∧ s_compacting (run_write s w) = s_compacting s ∧
    s_opts (run_write s w) = s_opts s.
Proof.
  intros HS Hre Hw. destruct w as [k v reach now now'|k reach now now'|]; simpl in Hw |- *.
  - destruct Hw as (Hok & Ht & Ht'). case_bool_decide as Hf.
    + destruct Hf as [Hk Hf].
      destruct (put_step s _ _ k v reach now now' (sd_inv _ _ _ _ _ _ HS) Hre Hk Hf Ht Ht') as (s' & fs' & rs' & -> & HA).
      destruct (side_append s fs1 rs _ _ _ _ _ HS HA) as (fs1' & HS' & Hall). simpl.
      eexists fs1', _. split_and!; [done|by rewrite (side_map_snoc fs1 rs)|..|by apply HA|by apply HA].
      rewrite <-Hre. apply HA.
    + exists fs1, rs. unfold put_with. rewrite Hre.
      destruct (record_encode k (Some v) now) as [bs|e] eqn:E; [|by split_and!].
      apply record_encode_inv in E as [Hrok _]. exfalso. apply Hf. split; [apply Hrok|by apply Hok].
  - destruct Hw as (Ht & Ht'). destruct (decide (is_Some (s_keydir s !! k))) as [Hin|Hout].
    + destruct (delete_step s _ _ k reach now now' (sd_inv _ _ _ _ _ _ HS) Hre Hin Ht Ht') as (s' & fs' & rs' & -> & HA).
      destruct (side_append s fs1 rs _ _ _ _ _ HS HA) as (fs1' & HS' & Hall). simpl.
      eexists fs1', _. split_and!; [done|by rewrite (side_map_snoc fs1 rs)|..|by apply HA|by apply HA].
      rewrite <-Hre. apply HA.
    + exists fs1, rs. unfold delete_with, contains_key. rewrite Hre, bool_decide_false by done. simpl.
      split_and!; try done. rewrite delete_id; [done|].
      apply eq_None_not_Some. by rewrite <-(Refines_dom s) by (by apply side_refines).
  - exists fs1, rs. destruct (sync_inv s _ _ (sd_inv _ _ _ _ _ _ HS)) as (HI & _ & Ha & _).
    assert (same_but_writer s (store_sync s)) as (Q1 & _ & _ & _ & Q5 & _ & Q7 & Q8 & _) by apply on_writer_same.
    split_and!; try done; [|congruence]. destruct HS as [S1 S2 S3 S4]. split; try done.
    + by rewrite Ha.
    + by rewrite Q1.
Qed.

Lemma side_writes s fs1 rs ws :
  Side kd0 fs0 mid s fs1 rs → s_restoring s = false → Forall write_ok ws →
  ∃ fs1' rs', Side kd0 fs0 mid (run_writes ws s) fs1' rs' ∧
    side_map fs1' rs' = write_maps ws (side_map fs1 rs) ∧
    s_restoring (run_writes ws s) = false ∧ s_compacting (run_writes ws s) = s_compacting s ∧
    s_opts (run_writes ws s) = s_opts s.
Proof.
  intros HS Hre Hws. revert s fs1 rs HS Hre. induction Hws as [|w ws Hw Hws IH]; intros s fs1 rs HS Hre.
  { by exists fs1, rs. }
  destruct (side_write s fs1 rs w HS Hre Hw) as (fs2 & rs2 & HS2 & Hm & Hre2 & Hc2 & Ho2).
  destruct (IH _ _ _ HS2 Hre2) as (fs3 & rs3 & HS3 & Hm3 & Hre3 & Hc3 & Ho3).
  exists fs3, rs3. simpl. rewrite <-Hm, <-Ho2, <-Hc2. done.
Qed.
End side.

(** ** The prepared file, beside the store's own *)

Definition beside_dir (mid : N) (file hint : bytes) (d : Dir) : Dir :=
  mkDir (<[mid := file]> (d_data d)) (<[mid := hint]> (d_hint d)) (delete mid (d_part d)).

Definition beside (mid : N) (file hint : bytes) (s : Store) : Store := s_set_dir (beside_dir mid file hint (s_dir s)) s.

Section beside.
Variables (mid : N) (file hint : bytes).
#[local] Abbreviation B := (beside_dir mid file hint).
#[local] Abbreviation bs := (beside mid file hint).

Lemma data_file_beside id d : id ≠ mid → data_file (B d) id = data_file d id.
Proof. intros H. unfold data_file. simpl. by rewrite lookup_insert_ne. Qed.

Lemma write_all_beside id x d : id ≠ mid → write_all id x (B d) = B (write_all id x d).
Proof.
  intros H. unfold write_all, set_data. rewrite data_file_beside by done. unfold beside_dir. simpl.
  by rewrite insert_insert_ne.
Qed.

Lemma hint_write_beside id n es d : id ≠ mid → hint_write id n es (B d) = B (hint_write id n es d).
Proof. intros H. unfold hint_write, set_hint, beside_dir. simpl. by rewrite insert_insert_ne. Qed.

Lemma open_beside i d :
  i ≠ mid → LogWriter_open i (B d) = prod_map B id (LogWriter_open i d).
Proof. intros H. unfold LogWriter_open. rewrite write_all_beside by done. by rewrite data_file_beside. Qed.

(** A step of the writer that leaves file [mid] alone. *)
Definition aside {A} (f : Dir * LogWriter → A * (Dir * LogWriter)) : Prop :=
  ∀ d w, lw_file_id w ≠ mid → f (B d, w) = let '(a, (d', w')) := f (d, w) in (a, (B d', w')).

Lemma flush_beside d w :
  lw_file_id w ≠ mid → LogWriter_flush (B d, w) = let '(d', w') := LogWriter_flush (d, w) in (B d', w').
Proof. intros H. unfold LogWriter_flush. case_bool_decide; [done|]. by rewrite write_all_beside. Qed.

Lemma sync_beside d w :
  lw_file_id w ≠ mid → LogWriter_sync (B d, w) = let '(d', w') := LogWriter_sync (d, w) in (B d', w').
Proof. intros H. unfold LogWriter_sync. rewrite flush_beside by done. by destruct (LogWriter_flush (d, w)). Qed.

Lemma append_aside x reach : aside (LogWriter_append x reach).
Proof.
  intros d w H. unfold LogWriter_append. destruct (_ && _); [by rewrite write_all_beside|].
  destruct reach; [destruct (_ <? _); [done|]|..]; rewrite ?flush_beside, ?sync_beside by done;
    by destruct (LogWriter_flush _) || destruct (LogWriter_sync _).
Qed.

Lemma on_writer_beside {A} (f : Dir * LogWriter → A * (Dir * LogWriter)) s :
  aside f → active_id s ≠ mid → on_writer f (bs s) = prod_map id bs (on_writer f s).
Proof.
  intros Hf H. unfold on_writer. simpl. rewrite Hf by done.
  by destruct (f (s_dir s, s_writer s)) as [a [d w]].
Qed.

Lemma store_sync_beside s : active_id s ≠ mid → store_sync (bs s) = bs (store_sync s).
Proof.
  intros H. unfold store_sync. rewrite on_writer_beside; [done| |done].
  intros d w Hw. rewrite sync_beside by done. by destruct (LogWriter_sync (d, w)).
Qed.

Lemma active_sync s : active_id (store_sync s) = active_id s.
Proof.
  unfold store_sync, on_writer, LogWriter_sync, LogWriter_flush, active_id. by case_bool_decide.
Qed.

Lemma seal_beside s : active_id s ≠ mid → seal_active (bs s) = bs (seal_active s).
Proof.
  intros H. unfold seal_active. rewrite store_sync_beside by done. cbn zeta.
  unfold beside. cbn [s_dir s_writer s_active_hints s_sealed_synced s_set_dir s_set_active_hints s_set_sealed_synced].
  rewrite hint_write_beside; [done|]. by change (active_id (store_sync s) ≠ mid); rewrite active_sync.
Qed.

Lemma open_active_beside id s : id ≠ mid → open_active id (bs s) = bs (open_active id s).
Proof.
  intros H. unfold open_active. change (s_dir (bs s)) with (B (s_dir s)). rewrite open_beside by done.
  by destruct (LogWriter_open id (s_dir s)).
Qed.

Lemma roll_beside n s :
  mid < active_id s → roll_if_needed n (bs s) = bs (roll_if_needed n s) ∧ mid < active_id (roll_if_needed n s).
Proof.
  intros H. unfold active_id in H. unfold roll_if_needed.
  change (s_writer (bs s)) with (s_writer s). change (s_opts (bs s)) with (s_opts s).
  destruct (_ || _); [done|]. rewrite seal_beside by (unfold active_id; lia).
  rewrite open_active_beside by lia. split; [done|].
  unfold open_active, LogWriter_open, active_id. simpl. lia.
Qed.

Lemma keydir_remove_beside k s : keydir_remove k (bs s) = bs (keydir_remove k s).
Proof. unfold keydir_remove. simpl. by destruct (s_keydir s !! k). Qed.

Lemma append_record_beside k x tomb reach now' s :
  mid < active_id s → append_record k x tomb reach now' (bs s) = prod_map id bs (append_record k x tomb reach now' s).
Proof.
  intros H. unfold append_record. destruct (roll_beside (blen x) s H) as [-> H'].
  rewrite on_writer_beside; [|apply append_aside|lia].
  destruct (on_writer (LogWriter_append x reach) (roll_if_needed (blen x) s)) as [[offset len] s2].
  cbn [prod_map fst snd]. unfold id at 1. by rewrite <-keydir_remove_beside.
Qed.

Lemma run_write_beside s w : mid < active_id s → run_write (bs s) w = bs (run_write s w).
Proof.
  intros H. destruct w as [k v reach now now'|k reach now now'|]; simpl.
  - unfold put_with. simpl. destruct (s_restoring s); [done|]. destruct (record_encode k (Some v) now) as [x|]; [|done].
    rewrite append_record_beside by done. by destruct (append_record k x false reach now' s).
  - unfold delete_with, contains_key. simpl. destruct (s_restoring s); [done|].
    destruct (negb _); [done|]. destruct (record_encode k None now) as [x|]; [|done].
    rewrite append_record_beside by done. by destruct (append_record k x true reach now' s).
  - apply store_sync_beside. lia.
Qed.

(** No read notices either. *)
Lemma get_beside s k : mid ∉ s_readers s → store_get (bs s) k = store_get s k.
Proof.
  intros H. unfold store_get. simpl. destruct (s_keydir s !! k) as [loc|]; [|done].
  assert (open_reader (bs s) (loc_file_id loc) = open_reader s (loc_file_id loc)) as Hr.
  { unfold open_reader. simpl. case_bool_decide; [|done]. rewrite data_file_beside; [done|]. by intros <-. }
  unfold read_value. by rewrite Hr.
Qed.

Lemma side_writes_beside kd0 fs0 s fs1 rs ws :
  Side kd0 fs0 mid s fs1 rs → s_restoring s = false → Forall write_ok ws →
  run_writes ws (bs s) = bs (run_writes ws s).
Proof.
  intros HS Hre Hws. revert s fs1 rs HS Hre. induction Hws as [|w ws Hw Hws IH]; intros s fs1 rs HS Hre; [done|].
  simpl. rewrite run_write_beside.
  2: { apply (sd_after _ _ _ _ _ _ HS), elem_of_app. right. by apply list_elem_of_singleton. }
  destruct (side_write kd0 fs0 mid s fs1 rs w HS Hre Hw) as (fs2 & rs2 & HS2 & _ & Hre2 & _).
  by eapply IH.
Qed.
End beside.

(** ** Putting a prepared file in place of the originals *)

Section replace.
Variables (kd0 : gmap bytes Location) (fs0 : Files) (mid : N) (old_ids : list N).
Variables (rq : list Rec) (hints : list HintEntry).
Variables (s : Store) (fs1 : Files) (rs : list Rec).
Hypothesis HS : Side kd0 fs0 mid s fs1 rs.
Hypothesis Hold : ∀ id, id ∈ old_ids ↔ id ∈ fs0.*1.
Hypothesis Hrecs : Forall rec_ok rq.
Hypothesis Hhints : entries_at 0 rq hints.
Hypothesis Hlen : is_u64 (blen (file_bytes rq)).
#[local] Abbreviation file := (file_bytes rq).
#[local] Abbreviation hint := (hint_bytes (blen (file_bytes rq)) hints).

(** The files after the originals are gone. *)
Lemma swapped_dir d :
  (∀ id, d_data d !! id = if bool_decide (id ∈ old_ids) then None else d_data (beside_dir mid file hint (s_dir s)) !! id) →
  (∀ id, d_hint d !! id = if bool_decide (id ∈ old_ids) then None else d_hint (beside_dir mid file hint (s_dir s)) !! id) →
  dir_ok d ((mid, rq) :: fs1) ∧ dom (d_data d) = list_to_set (mid :: fs1.*1 ++ [active_id s]) ∧
  dom (d_hint d) ⊆ dom (d_data d) ∧
  d_data d !! active_id s = d_data (s_dir s) !! active_id s ∧ d_hint d !! active_id s = d_hint (s_dir s) !! active_id s.
Proof.
  intros Hd Hh. simpl in Hd, Hh. pose proof HS as [[[D1 D2 D3 D4] I2 I3 I3' _ _ _ _ _ _ _ _ _] S2 S3 _].
  assert (∀ id, id ∈ fs1.*1 ++ [active_id s] → id ∉ old_ids ∧ id ≠ mid) as Hnew.
  { intros id Hin. apply S3 in Hin as Hlt. split; [|lia]. rewrite Hold. intros Hin'%S2. lia. }
  assert (mid ∉ old_ids) as Hmid by (rewrite Hold; intros Hin%S2; lia).
  assert (∀ id r, (id, r) ∈ fs1 → id ∈ fs1.*1 ++ [active_id s]) as Hfs1.
  { intros id r Hin. apply elem_of_app. left. by eapply elem_fst. }
  assert (∀ id, id ∉ old_ids → id ≠ mid → d_data d !! id = d_data (s_dir s) !! id ∧ d_hint d !! id = d_hint (s_dir s) !! id) as Hsame.
  { intros id H1 H2. by rewrite Hd, Hh, !bool_decide_false, !lookup_insert_ne. }
  assert (active_id s ∈ fs1.*1 ++ [active_id s]) as Hact by (apply elem_of_app; right; by apply list_elem_of_singleton).
  assert (dom (d_data d) = list_to_set (mid :: fs1.*1 ++ [active_id s])) as Hdom.
  { apply set_eq. intros id. rewrite elem_of_list_to_set, elem_of_cons, elem_of_dom, Hd.
    rewrite fmap_app, <-(assoc_L (++)) in I3.
    assert (is_Some (d_data (s_dir s) !! id) ↔ id ∈ fs0.*1 ∨ id ∈ fs1.*1 ++ [active_id s]) as H0.
    { by rewrite <-elem_of_dom, I3, elem_of_list_to_set, elem_of_app. }
    case_bool_decide as Hin.
    - rewrite is_Some_alt. split; [done|]. intros [->|Hin']; [done|]. by apply Hnew in Hin' as [? _].
    - rewrite lookup_insert. case_decide as Hid; [naive_solver|]. rewrite H0, <-Hold. naive_solver. }
  split_and!; [|done| |by apply Hsame; apply Hnew|by apply Hsame; apply Hnew].
  - split.
    + intros id r [[= -> ->]|Hin]%elem_of_cons.
      * rewrite Hd, bool_decide_false by done. apply lookup_insert_eq.
      * destruct (Hnew id (Hfs1 id r Hin)) as [H1 H2]. rewrite (proj1 (Hsame id H1 H2)). apply D1, elem_of_app. by right.
    + intros id r x [[= -> ->]|Hin]%elem_of_cons.
      * rewrite Hh, bool_decide_false, lookup_insert_eq by done. intros [= <-]. by apply hint_file_ok_all.
      * destruct (Hnew id (Hfs1 id r Hin)) as [H1 H2]. rewrite (proj2 (Hsame id H1 H2)). apply D2, elem_of_app. by right.
    + change (all_recs ((mid, rq) :: fs1)) with (rq ++ all_recs fs1). rewrite all_recs_app in D3.
      apply Forall_app in D3 as [_ D3]. apply Forall_app. by split.
    + intros id r [[= -> ->]|Hin]%elem_of_cons; [done|].
      eapply D4, elem_of_app. right. done.
  - intros id [x Hx]%elem_of_dom. rewrite Hdom, elem_of_list_to_set, elem_of_cons. rewrite Hh in Hx.
    case_bool_decide as Hin; [done|]. apply lookup_insert_Some in Hx as [[-> _]|[_ Hx]]; [by left|].
    apply elem_of_dom_2, I3' in Hx. rewrite I3, fmap_app, elem_of_list_to_set, !elem_of_app, <-Hold in Hx.
    rewrite elem_of_app. naive_solver.
Qed.


(** A store whose index is that of the prepared file and what was written since. *)
Lemma replace_inv s' :
  (∀ id, d_data (s_dir s') !! id =
     if bool_decide (id ∈ old_ids) then None else d_data (beside_dir mid file hint (s_dir s)) !! id) →
  (∀ id, d_hint (s_dir s') !! id =
     if bool_decide (id ∈ old_ids) then None else d_hint (beside_dir mid file hint (s_dir s)) !! id) →
  s_writer s' = s_writer s → s_readers s' = ({[mid]} ∪ s_readers s) ∖ list_to_set old_ids →
  s_opts s' = s_opts s → s_active_hints s' = s_active_hints s →
  (∀ id n, s_sealed_synced s' !! id = Some n →
     (id = mid ∧ n = blen file) ∨ (id ∉ old_ids ∧ s_sealed_synced s !! id = Some n)) →
  Indexed (indexing_of s') (places_from mid 0 rq ++ places (fs1 ++ [(active_id s, rs)])) →
  SInv s' ((mid, rq) :: fs1) rs.
Proof.
  intros R1 R2 Ew Er Eo Eh Es Hix.
  destruct (swapped_dir (s_dir s') R1 R2) as (G1 & G2 & G3 & G4 & G5).
  pose proof HS as [HI S2 S3 _]. pose proof HI as [_ I2 I3 _ I4 I5 I6 I7 I8 _ I10 I11 I12].
  assert (active_id s' = active_id s) as Ha by (unfold active_id; by rewrite Ew).
  assert (s_readers s' = list_to_set (mid :: fs1.*1 ++ [active_id s])) as Hrd.
  { rewrite Er, I8, fmap_app. simpl. apply set_eq. intros id.
    assert (id ∈ fs1.*1 ++ [active_id s] → id ∉ fs0.*1) as Hne by (intros H1%S3 H2%S2; lia).
    assert (id = mid → id ∉ fs0.*1) as Hne' by (intros -> H2%S2; lia).
    rewrite elem_of_difference, !elem_of_union, !elem_of_singleton, !elem_of_list_to_set, Hold,
      <-(assoc_L (++)), (elem_of_app fs0.*1). naive_solver. }
  split; rewrite ?Ha, ?Ew, ?Eo, ?Eh; try done.
  - cbn [fmap list_fmap fst app]. constructor.
    + rewrite fmap_app, <-(assoc_L (++)) in I2. by eapply StronglySorted_app_1_r.
    + apply list.Forall_forall. intros id Hin. by apply S3.
  - destruct I4 as (r0 & r1 & r2 & E & W1 & W). exists r0, r1, r2. split; [done|].
    unfold Wsplit. split; [|done]. change (lw_file_id (s_writer s)) with (active_id s). by rewrite G4.
  - intros x. rewrite G5. apply I5.
  - unfold all_files. rewrite Ha. cbn [app].
    change ((mid, rq) :: fs1 ++ [(active_id s, rs)]) with ([(mid, rq)] ++ fs1 ++ [(active_id s, rs)]).
    by rewrite places_app, places_one.
  - intros id n [[-> ->]|[Hni Hn]]%Es.
    + exists rq. split; [apply list_elem_of_here|done].
    + destruct (I12 id n Hn) as (rs' & [Hin|Hin]%elem_of_app & ->).
      * exfalso. apply Hni, Hold. by eapply elem_fst.
      * exists rs'. split; [by apply list_elem_of_further|done].
Qed.
End replace.
