(* ===== verification/StoreBackground.v ===== *)
(** * Compaction in the background

    [begin_compaction] seals what there is, [CompactionJob::run] copies it into a file of
    its own while the store goes on taking writes, and [finish_compaction] swaps the copy
    in. However the writes fall around the copying, the store means what it would without
    the compaction, and a process killed at any moment leaves a directory that opens to
    the same map, as long as the originals are deleted oldest first. *)

From S2P Require Import Prelude.
From S2P Require Import Crc.
From S2P Require Import RecordFormat.
From S2P Require Import DataLog.
From S2P Require Import HintFile.
From S2P Require Import Store.
From S2P Require Import StoreIndex.
From S2P Require Import StoreInv.
From S2P Require Import StoreOps.
From S2P Require Import StoreMap.
From S2P Require Import StoreOpen.
From S2P Require Import StoreCrash.
From S2P Require Import StoreCompact.
From S2P Require Import StoreKill.
From S2P Require Import StoreSide.

#[local] Open Scope N_scope.
#[local] Opaque rec_bytes.

(** ** The index of a file put in front *)

Definition pl_key (p : Place) : bytes := r_key (pl_rec p).

Lemma index_app_lookup ps suf k :
  index_of (ps ++ suf) !! k = if bool_decide (k ∈ pl_key <$> suf) then index_of suf !! k else index_of ps !! k.
Proof.
  induction suf as [|p suf IH] using rev_ind; [by rewrite app_nil_r|].
  rewrite (assoc_L (++)), !index_of_snoc. unfold index_step. fold (pl_key p).
  assert (k ∈ pl_key <$> suf ++ [p] ↔ k ∈ pl_key <$> suf ∨ k = pl_key p) as Hk.
  { rewrite fmap_app, elem_of_app. simpl. by rewrite list_elem_of_singleton. }
  destruct (r_value (pl_rec p)) as [v|]; rewrite ?lookup_insert, ?lookup_delete;
    (destruct (decide (pl_key p = k)) as [Hr|Hr]; [rewrite bool_decide_true; [done|rewrite Hk; auto]|]);
    rewrite IH; (erewrite bool_decide_ext; [done|]); rewrite Hk; naive_solver.
Qed.

Lemma index_not_in ps k : k ∉ pl_key <$> ps → index_of ps !! k = None.
Proof. intros Hk. rewrite <-(app_nil_l ps), index_app_lookup, bool_decide_false by done. done. Qed.

Lemma index_NoDup ps p :
  NoDup (pl_key <$> ps) → p ∈ ps → is_Some (r_value (pl_rec p)) → index_of ps !! pl_key p = Some p.
Proof.
  induction ps as [|q ps IH] using rev_ind; intros Hnd Hin Hv; [by apply not_elem_of_nil in Hin|].
  rewrite fmap_app in Hnd. apply list.NoDup_app in Hnd as (Hnd & Hdis & _).
  rewrite index_of_snoc. unfold index_step. fold (pl_key q). apply elem_of_app in Hin as [Hin|Hin%list_elem_of_singleton].
  - assert (pl_key q ≠ pl_key p) as Hne.
    { intros E. apply (Hdis (pl_key p)); [by apply (list_elem_of_fmap_2 pl_key)|].
      apply list_elem_of_singleton. by rewrite E. }
    destruct (r_value (pl_rec q)); rewrite ?lookup_insert_ne, ?lookup_delete_ne by done; by apply IH.
  - subst. destruct Hv as [v ->]. by rewrite lookup_insert_eq.
Qed.

(** What copies of a map take on disk. *)
Lemma copies_bytes rq :
  NoDup (r_key <$> rq) → Forall (λ r, is_Some (r_value r)) rq →
  blen (file_bytes rq) = total (map_imap (λ k v, Some (entry_len k v)) (replay rq)).
Proof.
  induction rq as [|r rq IH] using rev_ind; intros Hnd Hv; [done|].
  rewrite fmap_app in Hnd. apply list.NoDup_app in Hnd as (Hnd & Hdis & _).
  apply Forall_app in Hv as [Hv [[v Hr] _]%Forall_cons_1].
  rewrite file_bytes_snoc, blen_app, IH, replay_snoc by done. unfold replay_step. rewrite Hr.
  assert (replay rq !! r_key r = None) as Hn.
  { apply replay_not_in. intros Hin. apply (Hdis _ Hin). by apply list_elem_of_singleton. }
  rewrite map_imap_insert. simpl. rewrite total_insert by (by rewrite map_lookup_imap, Hn).
  unfold entry_len. rewrite rec_bytes_len, Hr. simpl. lia.
Qed.

Lemma replay_app_cong h h' t : replay h = replay h' → replay (h ++ t) = replay (h' ++ t).
Proof. unfold replay. rewrite !foldl_app. by intros ->. Qed.

(** ** Beginning *)

Lemma SInv_compacting b s fs rs : SInv s fs rs → SInv (s_set_compacting b s) fs rs.
Proof. intros [I1 I2 I3 I3' I4 I5 I6 I7 I8 I9 I10 I11 I12]. by split. Qed.

Lemma flush_nothing s : lw_pending (s_writer s) = [] → writer_flush s = s.
Proof.
  intros H. unfold writer_flush, on_writer, LogWriter_flush. rewrite bool_decide_true by done. by destruct s.
Qed.

(** The job that copies the store [s]. *)
Definition job_of (s : Store) (mid : N) (old_ids : list N) : CompactionJob :=
  mkCompactionJob (mkStoreView (merge_sort key_le (map_to_list (s_keydir s)))
    (filter (λ kv, kv.1 ∈ s_readers s) (d_data (s_dir s)))) mid old_ids (s_disk_bytes s).

Lemma begin_ok s fs rs old_ids :
  SInv s fs rs → s_compacting s = false → s_restoring s = false →
  let fs0 := fs ++ [(active_id s, rs)] in
  let mid := active_id s + 1 in
  ∃ s1, store_begin_compaction old_ids s = (Ok (job_of s1 mid old_ids), s1) ∧
    Side (s_keydir s1) fs0 mid s1 [] [] ∧ lw_pending (s_writer s1) = [] ∧
    s_restoring s1 = false ∧ s_compacting s1 = true ∧ s_opts s1 = s_opts s.
Proof.
  intros HI Hc Hr fs0 mid. unfold store_begin_compaction. rewrite Hc, Hr. cbn [orb].
  unfold seal_leaving_a_slot, store_view. cbn zeta.
  change (lw_file_id (s_writer s)) with (active_id s).
  destruct (roll_inv s fs rs (active_id s + 2) HI) as (HI1 & Ha1 & Ho1 & Hc1 & Hr1); [lia|].
  set (s1 := open_active (active_id s + 2) (seal_active s)) in *. clearbody s1.
  pose proof (si_writer _ _ _ HI1) as (q0 & q1 & q2 & Eq & _ & Hp & _).
  symmetry in Eq. apply app_eq_nil in Eq as [_ [_ ->]%app_eq_nil].
  change (file_bytes []) with (@nil byte) in Hp. rewrite (flush_nothing s1 Hp).
  exists (s_set_compacting true s1). split; [done|]. split; [|by rewrite <-Hr, <-Hr1].
  split; simpl.
  - rewrite app_nil_r. by apply SInv_compacting.
  - intros id. unfold fs0, mid. rewrite fmap_app. intros [Hin|Hin%list_elem_of_singleton]%elem_of_app.
    + pose proof (sorted_snoc_lt _ _ _ (si_sorted _ _ _ HI) Hin). lia.
    + simpl in Hin. lia.
  - intros id Hin%list_elem_of_singleton. change (active_id (s_set_compacting true s1)) with (active_id s1) in Hin.
    unfold mid. lia.
  - done.
Qed.

(** ** Copying *)

Section copying.
Variables (s : Store) (fs0 : Files) (mid : N) (old_ids : list N).
Hypothesis HI : SInv s fs0 [].
Hypothesis Hflushed : lw_pending (s_writer s) = [].
#[local] Abbreviation job := (job_of s mid old_ids).
#[local] Abbreviation m := (contents s fs0 []).

(** Part way: the entries [done_] have been copied as the records [rq]. *)
Record Copied (c : Copying) (done_ : list (bytes * Location)) (rq : list Rec) : Prop := {
  cd_file : cp_file c = file_bytes rq;
  cd_offset : cp_offset c = blen (file_bytes rq);
  cd_hints : entries_at 0 rq (cp_hints c);
  cd_recs : Forall rec_ok rq;
  cd_keys : r_key <$> rq = done_.*1;
  cd_values : ∀ r, r ∈ rq → is_Some (r_value r) ∧ m !! r_key r = r_value r;
  cd_moved : (cp_moved c).*1 = done_;
  cd_new : Forall2 (λ x p, x.1.1 = pl_key p ∧ loc_at p x.2) (cp_moved c) (places_from mid 0 rq);
}.

Lemma copy_entry_ok c done_ rq k loc :
  Copied c done_ rq → s_keydir s !! k = Some loc →
  ∃ c' r, copy_entry job (k, loc) c = (Ok tt, c') ∧ Copied c' (done_ ++ [(k, loc)]) (rq ++ [r]).
Proof.
  intros [C1 C2 C3 C4 C5 C6 C7 C8] Hk.
  destruct (read_entry s fs0 [] HI Hflushed k loc Hk) as (r & file & Ho & Hr & Hok & Hkey & Hv & Hm & Hlen & Hts).
  assert (sv_readers (cj_view job) !! loc_file_id loc = Some file) as Hf.
  { unfold open_reader in Ho. case_bool_decide as Hin; [|done]. injection Ho as <-. simpl.
    apply map_lookup_filter_Some. split; [|done].
    assert (is_Some (d_data (s_dir s) !! loc_file_id loc)) as [f Ef].
    { apply elem_of_dom. by rewrite (si_dom _ _ _ HI), <-(si_readers _ _ _ HI). }
    unfold data_file. by rewrite Ef. }
  unfold copy_entry. rewrite Hf, Hr. cbn [mbind result_bind]. rewrite decode_value_record by done.
  cbn [mbind result_bind].
  eexists _, r. split; [done|]. split; simpl.
  - by rewrite C1, file_bytes_snoc.
  - by rewrite C2, Hlen, file_bytes_snoc, blen_app.
  - apply entries_at_snoc; [done|]. split_and!; simpl; try done.
    destruct Hv as [v ->]. by rewrite bool_decide_false.
  - apply Forall_app. by split; [|apply Forall_singleton].
  - by rewrite !fmap_app, C5, <-Hkey.
  - intros r' [Hr'|Hr'%list_elem_of_singleton]%elem_of_app; [by apply C6|]. by rewrite Hr', Hkey.
  - by rewrite fmap_app, C7.
  - rewrite places_from_app, N.add_0_l. apply Forall2_app; [done|]. simpl. constructor; [|constructor].
    split; [done|]. by split_and!.
Qed.

Lemma copy_loop_ok l c done_ rq :
  Copied c done_ rq → (∀ k loc, (k, loc) ∈ l → s_keydir s !! k = Some loc) →
  ∃ c' rq', miter (copy_entry job) l c = (Ok tt, c') ∧ Copied c' (done_ ++ l) rq'.
Proof.
  revert c done_ rq. induction l as [|[k loc] l IH]; intros c done_ rq HC Hl.
  { exists c, rq. by rewrite app_nil_r. }
  destruct (copy_entry_ok c done_ rq k loc HC) as (c1 & r & E1 & HC1); [apply Hl, list_elem_of_here|].
  destruct (IH c1 (done_ ++ [(k, loc)]) (rq ++ [r]) HC1) as (c' & rq' & E & HC').
  { intros k' loc' Hin. apply Hl. by apply list_elem_of_further. }
  exists c', rq'. rewrite <-(assoc_L (++)) in HC'. split; [|done].
  cbn [miter]. unfold mbind, M_bind. by rewrite E1.
Qed.

(** What the job makes of the index: one copy per live key, in a file of its own. *)
Record Copy (merged : MergedFile) (rq : list Rec) (hints : list HintEntry) : Prop := {
  cy_merged : merged = mkMergedFile mid (blen (file_bytes rq)) old_ids (s_disk_bytes s) (mf_moved merged);
  cy_recs : Forall rec_ok rq;
  cy_hints : entries_at 0 rq hints;
  cy_copies : copies_of m rq;
  cy_len : blen (file_bytes rq) = s_live_bytes s;
  cy_moved : ∀ k old, (k, old) ∈ (mf_moved merged).*1 ↔ s_keydir s !! k = Some old;
  cy_new : Forall2 (λ x p, x.1.1 = pl_key p ∧ loc_at p x.2) (mf_moved merged) (places_from mid 0 rq);
}.

Lemma run_ok d :
  ∃ merged rq hints, Copy merged rq hints ∧
    compaction_run job d = (Ok merged, beside_dir mid (file_bytes rq) (hint_bytes (blen (file_bytes rq)) hints) d).
Proof.
  assert (merge_sort key_le (map_to_list (s_keydir s)) ≡ₚ map_to_list (s_keydir s)) as Hperm by apply merge_sort_Permutation.
  unfold compaction_run.
  destruct (copy_loop_ok (merge_sort key_le (map_to_list (s_keydir s))) (mkCopying [] 0 [] []) [] [])
    as (c & rq & E & [C1 C2 C3 C4 C5 C6 C7 C8]).
  { split; try done. by intros r ?%not_elem_of_nil. }
  { intros k loc Hin. rewrite Hperm in Hin. by apply elem_of_map_to_list in Hin. }
  simpl in C5, C7. change (sv_entries (cj_view job)) with (merge_sort key_le (map_to_list (s_keydir s))).
  rewrite E. eexists _, rq, (cp_hints c). split; [|by rewrite C1, C2].
  assert (copies_of m rq) as Hcp.
  { split_and!.
    - rewrite C5, Hperm. apply NoDup_fst_map_to_list.
    - intros k. rewrite C5, Hperm, <-(Refines_dom s m k) by (by exists fs0, []).
      rewrite list_elem_of_fmap. split.
      + intros [loc Hl]. exists (k, loc). split; [done|]. by apply elem_of_map_to_list.
      + intros ([k' loc] & -> & Hin%elem_of_map_to_list). by eexists.
    - intros r Hr. by apply C6. }
  split; simpl; rewrite ?C2; try done.
  - rewrite copies_bytes, (copies_replay _ _ Hcp); [|apply Hcp|apply list.Forall_forall; intros r Hr; by apply C6].
    symmetry. eapply Refines_counts. by exists fs0, [].
  - intros k old. by rewrite C7, Hperm, elem_of_map_to_list.
Qed.
End copying.

(** ** Swapping the copy in *)

Definition move_kd (kd : gmap bytes Location) (x : bytes * Location * Location) : gmap bytes Location :=
  if bool_decide (kd !! x.1.1 = Some x.1.2) then <[x.1.1 := x.2]> kd else kd.

Lemma move_keys_kd l s : foldl move_key s l = s_set_keydir (foldl move_kd (s_keydir s) l) s.
Proof.
  revert s. induction l as [|[[k old] new] l IH]; intros s; simpl; [by destruct s|].
  rewrite IH. unfold move_key, move_kd. simpl. by case_bool_decide.
Qed.

Lemma move_kd_other l kd k : k ∉ l.*1.*1 → foldl move_kd kd l !! k = kd !! k.
Proof.
  revert kd. induction l as [|x l IH]; intros kd Hk; [done|]. simpl in *.
  apply not_elem_of_cons in Hk as [Hx Hk]. rewrite IH by done. unfold move_kd.
  case_bool_decide; [|done]. by rewrite lookup_insert_ne.
Qed.

Lemma move_kd_moved l kd k old new :
  NoDup l.*1.*1 → (k, old, new) ∈ l →
  foldl move_kd kd l !! k = if bool_decide (kd !! k = Some old) then Some new else kd !! k.
Proof.
  revert kd. induction l as [|x l IH]; intros kd Hnd Hin; [by apply not_elem_of_nil in Hin|].
  simpl in *. apply list.NoDup_cons in Hnd as [Hx Hnd]. apply elem_of_cons in Hin as [<-|Hin].
  - rewrite move_kd_other by done. unfold move_kd. simpl. case_bool_decide; [by rewrite lookup_insert_eq|done].
  - rewrite IH by done. assert (x.1.1 ≠ k) as Hne.
    { intros E. apply Hx. rewrite E. apply (list_elem_of_fmap_2 fst) in Hin. by apply (list_elem_of_fmap_2 fst) in Hin. }
    assert (move_kd kd x !! k = kd !! k) as ->; [|done].
    unfold move_kd. case_bool_decide; [|done]. by rewrite lookup_insert_ne.
Qed.

Lemma places_keys id offset rs : pl_key <$> places_from id offset rs = r_key <$> rs.
Proof. rewrite <-(places_from_recs id offset rs) at 2. by rewrite <-list_fmap_compose. Qed.

Section swap.
Variables (s0 : Store) (fs0 : Files) (mid : N) (old_ids : list N).
Variables (merged : MergedFile) (rq : list Rec) (hints : list HintEntry).
Variables (s : Store) (fs1 : Files) (rs : list Rec).
Hypothesis HI0 : SInv s0 fs0 [].
Hypothesis HC : Copy s0 fs0 mid old_ids merged rq hints.
Hypothesis HS : Side (s_keydir s0) fs0 mid s fs1 rs.
#[local] Abbreviation suf := (places (fs1 ++ [(active_id s, rs)])).

Lemma moved_keys : (mf_moved merged).*1.*1 = r_key <$> rq.
Proof.
  rewrite <-(places_keys mid 0 rq). induction (cy_new _ _ _ _ _ _ _ HC) as [|x p l ps [Hk _] _ IH]; [done|].
  simpl. by f_equal.
Qed.

Lemma old_place k loc :
  s_keydir s0 !! k = Some loc → ∃ p, p ∈ places fs0 ∧ loc_file_id loc = pl_file p ∧ pl_file p < mid.
Proof.
  intros Hk. destruct (keydir_ok_lookup _ _ k loc (ixd_keydir _ _ (si_index _ _ _ HI0)) Hk) as (p & Hp & Hf & _).
  apply index_of_Some in Hp as (Hp & _ & _). unfold all_files in Hp. rewrite places_app, places_one, app_nil_r in Hp.
  exists p. split_and!; try done. apply places_in in Hp as (pre & post & Hin & _).
  by eapply (sd_before _ _ _ _ _ _ HS), elem_fst.
Qed.

Lemma suf_place p : p ∈ suf → mid < pl_file p.
Proof.
  intros (pre & post & Hin & _)%places_in. apply (sd_after _ _ _ _ _ _ HS).
  apply elem_fst in Hin. by rewrite fmap_app in Hin.
Qed.

Lemma suf_keys : pl_key <$> suf = r_key <$> all_recs fs1 ++ rs.
Proof.
  unfold pl_key. rewrite (list_fmap_compose pl_rec r_key), places_recs, all_recs_app, all_recs_one. done.
Qed.

(** Every key the merge copied points at its copy, unless it was written since. *)
Lemma swapped_keydir :
  keydir_ok (foldl move_kd (s_keydir s) (mf_moved merged)) (places_from mid 0 rq ++ suf).
Proof.
  pose proof (cy_copies _ _ _ _ _ _ _ HC) as (Hnd & Hdom & Hval).
  intros k. rewrite index_app_lookup.
  pose proof (ixd_keydir _ _ (si_index _ _ _ (sd_inv _ _ _ _ _ _ HS)) k) as Hk. simpl in Hk.
  unfold all_files in Hk. rewrite <-(assoc_L (++)), places_app, index_app_lookup in Hk.
  destruct (decide (k ∈ r_key <$> rq)) as [Hin|Hout].
  - assert (∃ x p, x ∈ mf_moved merged ∧ p ∈ places_from mid 0 rq ∧ x.1.1 = k ∧ pl_key p = k ∧ loc_at p x.2)
      as ([[k' old] new] & p & Hx & Hp & Hk1 & Hk2 & Hloc).
    { rewrite <-moved_keys in Hin. apply list_elem_of_fmap in Hin as (y & -> & Hy).
      apply list_elem_of_fmap in Hy as (x & -> & Hx). apply list_elem_of_lookup in Hx as [i Hi].
      destruct (Forall2_lookup_l _ _ _ _ _ (cy_new _ _ _ _ _ _ _ HC) Hi) as (p & Hp & E & Hl).
      exists x, p. split_and!; try done; by eapply list_elem_of_lookup_2. }
    simpl in Hk1. subst k'.
    rewrite (move_kd_moved _ _ k old new) by (by rewrite ?moved_keys).
    assert (s_keydir s0 !! k = Some old) as Hold.
    { apply (cy_moved _ _ _ _ _ _ _ HC). by apply (list_elem_of_fmap_2 fst _ (k, old, new)). }
    rewrite suf_keys in Hk |- *. case_bool_decide as Hsuf.
    + rewrite bool_decide_false; [done|]. intros E. rewrite E in Hk. inversion Hk as [q ? Hq Hlq|]; subst.
      destruct (old_place _ old Hold) as (p' & _ & Hf & Hlt).
      symmetry in Hlq. apply index_of_Some in Hlq as (Hlq & _ & _). apply suf_place in Hlq.
      destruct Hq as (Hq & _). rewrite <-Hq, Hf in Hlq. lia.
    + rewrite (sd_keydir _ _ _ _ _ _ HS) by done. rewrite Hold, bool_decide_true by done.
      rewrite <-Hk2, index_NoDup; [by constructor|by rewrite places_keys|done|].
      apply (Hdom k) in Hin. rewrite <-Hval; [by rewrite <-Hk2 in Hin|].
      apply (list_elem_of_fmap_2 pl_rec) in Hp. by rewrite places_from_recs in Hp.
  - rewrite move_kd_other by (by rewrite moved_keys). rewrite suf_keys in Hk |- *. case_bool_decide as Hsuf; [done|].
    rewrite index_not_in by (by rewrite places_keys). rewrite (sd_keydir _ _ _ _ _ _ HS) by done.
    destruct (s_keydir s0 !! k) as [loc|] eqn:E; [exfalso|constructor]. apply Hout, Hdom.
    rewrite <-(Refines_dom s0) by (by exists fs0, []). by eexists.
Qed.

(** The same map, whichever of the two the newer records follow. *)
Lemma swapped_map : replay (rq ++ all_recs fs1 ++ rs) = side_map fs0 fs1 rs.
Proof.
  apply replay_app_cong. rewrite (copies_replay _ _ (cy_copies _ _ _ _ _ _ _ HC)).
  unfold contents. by rewrite all_recs_files, app_nil_r.
Qed.

Lemma swapped_index :
  Indexed (mkIndexing (foldl move_kd (s_keydir s) (mf_moved merged)) (s_live_bytes s)
      (s_disk_bytes s - s_disk_bytes s0 + blen (file_bytes rq)))
    (places_from mid 0 rq ++ suf).
Proof.
  split; simpl.
  - apply swapped_keydir.
  - rewrite live_of_total, (keydir_ok_lens _ _ swapped_keydir), index_lens.
    rewrite fmap_app, places_from_recs, places_recs, all_recs_app, all_recs_one, swapped_map.
    by apply (Refines_counts s), (side_refines _ _ _ _ _ _ HS).
  - pose proof (ixd_disk _ _ (si_index _ _ _ (sd_inv _ _ _ _ _ _ HS))) as Hd. simpl in Hd.
    pose proof (ixd_disk _ _ (si_index _ _ _ HI0)) as Hd0. simpl in Hd0. unfold all_files in Hd, Hd0.
    rewrite <-(assoc_L (++)), places_app, disk_of_app in Hd.
    rewrite places_app, places_one, app_nil_r in Hd0. rewrite disk_of_app, disk_of_places_from. lia.
Qed.

Hypothesis Hold : ∀ id, id ∈ old_ids ↔ id ∈ fs0.*1.
Hypothesis Hlive : is_u64 (s_live_bytes s0).

Lemma finish_ok :
  ∃ rep s', store_finish_compaction merged
      (beside mid (file_bytes rq) (hint_bytes (blen (file_bytes rq)) hints) s) = (rep, s') ∧
    SInv s' ((mid, rq) :: fs1) rs ∧ s_compacting s' = false ∧ s_restoring s' = s_restoring s.
Proof.
  pose proof swapped_index as Hix.
  pose proof (cy_merged _ _ _ _ _ _ _ HC) as Em.
  pose proof (cy_recs _ _ _ _ _ _ _ HC) as Hrecs. pose proof (cy_hints _ _ _ _ _ _ _ HC) as Hhints.
  assert (is_u64 (blen (file_bytes rq))) as Hlen by (by rewrite (cy_len _ _ _ _ _ _ _ HC)).
  destruct merged as [i n o ob moved]. simpl in Em, Hix. injection Em as -> -> -> ->.
  unfold store_finish_compaction. cbn [mf_id mf_bytes mf_old_ids mf_old_bytes mf_moved].
  rewrite move_keys_kd.
  match goal with |- context [foldl _ ?st old_ids] => set (s1 := st); fold (remove_files old_ids s1) end.
  destruct (remove_files_dir old_ids s1) as (R1 & R2 & R3).
  destruct (remove_files_rest old_ids s1) as (P1 & P2 & P3 & P4 & P5 & P6 & P7 & P8).
  destruct (remove_files_counts old_ids s1) as (P9 & P10).
  eexists _, _. split; [reflexivity|]. split; [|done].
  eapply (replace_inv _ _ _ old_ids rq hints s); try done.
  - intros id x Hx. apply P2 in Hx as [Hni Hn]. simpl in Hn.
    apply lookup_insert_Some in Hn as [[<- <-]|[_ Hn]]; [by left|by right].
  - unfold indexing_of. simpl. rewrite P7, P8, P9. exact Hix.
Qed.
End swap.

(** ** The whole of it *)

(** The steps up to the swap, with the writes that fall around the copying. *)
Lemma background_ok s fs rs0 old_ids ws1 ws2 :
  SInv s fs rs0 → s_compacting s = false → s_restoring s = false →
  (∀ id, id ∈ old_ids ↔ id ∈ s_readers s) → is_u64 (s_live_bytes s) → Forall write_ok (ws1 ++ ws2) →
  ∃ job s1 merged d, store_begin_compaction old_ids s = (Ok job, s1) ∧
    let s2 := run_writes ws1 s1 in
    compaction_run job (s_dir s2) = (Ok merged, d) ∧
    ∃ fs0 mid rq hints fs1 rs s3, SInv s1 fs0 [] ∧ Copy s1 fs0 mid old_ids merged rq hints ∧
      Side (s_keydir s1) fs0 mid s3 fs1 rs ∧ (∀ id, id ∈ old_ids ↔ id ∈ fs0.*1) ∧ is_u64 (s_live_bytes s1) ∧
      run_writes ws2 (s_set_dir d s2) = beside mid (file_bytes rq) (hint_bytes (blen (file_bytes rq)) hints) s3 ∧
      side_map fs0 fs1 rs = write_maps (ws1 ++ ws2) (replay (all_recs fs ++ rs0)) ∧ s_restoring s3 = false ∧
      all_recs fs0 = all_recs fs ++ rs0.
Proof.
  intros HI Hc Hr Hold Hlive [Hw1 Hw2]%Forall_app.
  destruct (begin_ok s fs rs0 old_ids HI Hc Hr) as (s1 & E1 & HS1 & Hp1 & Hr1 & _). cbv zeta in E1, HS1.
  set (fs0 := fs ++ [(active_id s, rs0)]) in *. set (mid := active_id s + 1) in *.
  assert (SInv s1 fs0 []) as HI1 by (pose proof (sd_inv _ _ _ _ _ _ HS1) as HI1; by rewrite app_nil_r in HI1).
  assert (all_recs fs0 = all_recs fs ++ rs0) as Ea by (unfold fs0; by rewrite all_recs_app, all_recs_one).
  set (m := replay (all_recs fs ++ rs0)). assert (side_map fs0 [] [] = m) as Hm1 by (unfold side_map; by rewrite Ea, app_nil_r).
  assert (Refines s m) as HR by (exists fs, rs0; split; [done|]; unfold contents; by rewrite all_recs_files).
  destruct (side_writes _ _ _ s1 [] [] ws1 HS1 Hr1 Hw1) as (fs2 & rs2 & HS2 & Hm2 & Hr2 & _).
  destruct (run_ok s1 fs0 mid old_ids HI1 Hp1 (s_dir (run_writes ws1 s1))) as (merged & rq & hints & HC & E2).
  eexists _, s1, merged, _. split; [done|]. cbv zeta. split; [done|].
  destruct (side_writes _ _ _ _ _ _ ws2 HS2 Hr2 Hw2) as (fs3 & rs3 & HS3 & Hm3 & Hr3 & _).
  exists fs0, mid, rq, hints, fs3, rs3, (run_writes ws2 (run_writes ws1 s1)). split_and!; try done.
  - intros id. rewrite Hold, (si_readers _ _ _ HI), elem_of_list_to_set. unfold fs0. by rewrite fmap_app.
  - destruct (Refines_counts s m HR) as [Hl _].
    destruct (Refines_counts s1 m) as [Hl1 _]; [rewrite <-Hm1; by eapply side_refines|]. by rewrite Hl1, <-Hl.
  - by eapply side_writes_beside.
  - rewrite Hm3, Hm2, Hm1. unfold write_maps. by rewrite foldl_app.
Qed.

(** C19: a background compaction is invisible. However many writes are made between its
    beginning and the moment the copy is in place, and however many between that and the
    swap, every read answers as if there were no compaction, before the swap and after,
    and the store goes on meaning the map those writes make: a key written meanwhile
    keeps its new value, a key deleted meanwhile stays deleted. *)
Theorem background_compaction_exact (s : Store) (m : gmap bytes bytes) (old_ids : list N) (ws1 ws2 : list Write) :
  Refines s m → s_compacting s = false → s_restoring s = false →
  (∀ id, id ∈ old_ids ↔ id ∈ s_readers s) → is_u64 (s_live_bytes s) → Forall write_ok (ws1 ++ ws2) →
  ∃ job s1 merged d, store_begin_compaction old_ids s = (Ok job, s1) ∧
    let s2 := run_writes ws1 s1 in
    compaction_run job (s_dir s2) = (Ok merged, d) ∧
    let s3 := run_writes ws2 (s_set_dir d s2) in
    let s4 := (store_finish_compaction merged s3).2 in
    (∀ k, store_get s3 k = Ok (write_maps (ws1 ++ ws2) m !! k)) ∧
    Refines s4 (write_maps (ws1 ++ ws2) m) ∧ s_compacting s4 = false ∧ s_restoring s4 = false.
Proof.
  intros (fs & rs0 & HI & <-) Hc Hr Hold Hlive Hw. unfold contents. rewrite all_recs_files.
  destruct (background_ok s fs rs0 old_ids ws1 ws2 HI Hc Hr Hold Hlive Hw)
    as (job & s1 & merged & d & E1 & E2 & fs0 & mid & rq & hints & fs1 & rs & s3 & HI1 & HC & HS & Ho & Hl & E3 & Hm & Hr3 & Hm0).
  exists job, s1, merged, d. split; [done|]. cbv zeta in *. split; [done|]. rewrite E3.
  destruct (finish_ok s1 fs0 mid old_ids merged rq hints s3 fs1 rs HI1 HC HS Ho Hl) as (rep & s4 & -> & HI4 & Hc4 & Hr4).
  cbn [snd]. rewrite Hr4. split_and!; try done.
  - intros k. rewrite get_beside, (Refines_get s3 (side_map fs0 fs1 rs)), Hm; [done|by eapply side_refines|].
    rewrite (si_readers _ _ _ (sd_inv _ _ _ _ _ _ HS)), elem_of_list_to_set, fmap_app, <-(assoc_L (++)), elem_of_app.
    intros [Hin|Hin]; [apply (sd_before _ _ _ _ _ _ HS) in Hin|apply (sd_after _ _ _ _ _ _ HS) in Hin]; lia.
  - exists ((mid, rq) :: fs1), rs. split; [done|]. unfold contents. rewrite all_recs_files, <-Hm.
    change (all_recs ((mid, rq) :: fs1)) with (rq ++ all_recs fs1). rewrite <-(assoc_L (++)). by eapply swapped_map.
Qed.

Lemma background_compaction_exact_witness :
  ∃ s1 job merged d, store_begin_compaction [1; 2; 3] (colours Kernel) = (Ok job, s1) ∧
    compaction_run job (s_dir (run_writes [WDelete (lit "grass") Kernel 8 8] s1)) = (Ok merged, d) ∧
    Refines (store_finish_compaction merged
        (run_writes [WPut (lit "sea") (lit "blue") Kernel 9 9]
          (s_set_dir d (run_writes [WDelete (lit "grass") Kernel 8 8] s1)))).2
      (write_maps [WDelete (lit "grass") Kernel 8 8; WPut (lit "sea") (lit "blue") Kernel 9 9]
        {[lit "grass" := lit "green"]}).
Proof.
  destruct (background_compaction_exact (colours Kernel) _ [1; 2; 3] [WDelete (lit "grass") Kernel 8 8]
    [WPut (lit "sea") (lit "blue") Kernel 9 9] (proj1 (colours_refines Kernel))) as (job & s1 & merged & d & E1 & E2 & _ & HR & _).
  - apply colours_refines.
  - apply colours_refines.
  - intros id. apply colours_files.
  - by vm_compute.
  - repeat constructor.
  - exact (ex_intro _ s1 (ex_intro _ job (ex_intro _ merged (ex_intro _ d (conj E1 (conj E2 HR)))))).
Defined.

(** ** Stopped in the middle *)

Section stopped.
Variables (s0 : Store) (fs0 : Files) (mid : N) (old_ids : list N).
Variables (merged : MergedFile) (rq : list Rec) (hints : list HintEntry).
Variables (s : Store) (fs1 : Files) (rs : list Rec).
Hypothesis HI0 : SInv s0 fs0 [].
Hypothesis HC : Copy s0 fs0 mid old_ids merged rq hints.
Hypothesis HS : Side (s_keydir s0) fs0 mid s fs1 rs.
Hypothesis Hold : ∀ id, id ∈ old_ids ↔ id ∈ fs0.*1.
Hypothesis Hlive : is_u64 (s_live_bytes s0).
Variable gone : list N.
Hypothesis Hgone : gone ⊆ old_ids.
#[local] Abbreviation beside_copy := (beside_dir mid (file_bytes rq) (hint_bytes (blen (file_bytes rq)) hints)).

Lemma stopped_sorted : StronglySorted N.lt ((kept gone fs0 ++ (mid, rq) :: fs1).*1 ++ [active_id s]).
Proof.
  pose proof HS as [HI S2 S3 _]. pose proof (si_sorted _ _ _ HI) as Hs.
  rewrite fmap_app, <-(assoc_L (++)) in Hs. apply StronglySorted_app in Hs as (Hx & Hs1 & Hs2).
  rewrite fmap_app, <-(assoc_L (++)). apply StronglySorted_app. split_and!; [|by apply kept_sorted|].
  - intros x y [Hin _]%kept_ids [->|Hy]%elem_of_cons; [by apply S2|by apply Hx].
  - constructor; [done|]. apply list.Forall_forall. intros y Hy. by apply S3.
Qed.

Lemma all_recs_sub (l l' : Files) : l ⊆ l' → Forall rec_ok (all_recs l') → Forall rec_ok (all_recs l).
Proof.
  intros Hsub. rewrite !list.Forall_forall. intros H r (x & Hr & Hx)%list_elem_of_join. apply H, list_elem_of_join.
  exists x. split; [done|]. apply list_elem_of_fmap in Hx as (f & -> & Hf). by apply list_elem_of_fmap_2, Hsub.
Qed.

Lemma gone_before id : id ∈ gone → id < mid.
Proof. intros Hin%Hgone%Hold. by apply (sd_before _ _ _ _ _ _ HS). Qed.

Lemma stopped_keep id :
  id ∈ (kept gone fs0 ++ fs1).*1 ++ [active_id s] → id ∉ gone ∧ id ≠ mid.
Proof.
  intros Hin. pose proof HS as [HI S2 S3 _]. rewrite fmap_app, <-(assoc_L (++)) in Hin.
  apply elem_of_app in Hin as [[Hin Hn]%kept_ids|Hin]; [apply S2 in Hin; split; [done|lia]|].
  apply S3 in Hin. split; [intros Hg%gone_before|]; lia.
Qed.

Lemma stopped_cases id r :
  (id, r) ∈ kept gone fs0 ++ (mid, rq) :: fs1 →
  (id = mid ∧ r = rq) ∨ ((id, r) ∈ fs0 ++ fs1 ∧ id ∉ gone ∧ id ≠ mid).
Proof.
  intros Hin.
  assert ((id, r) = (mid, rq) ∨ (id, r) ∈ kept gone fs0 ++ fs1) as [[= -> ->]|Hin']; [|by left|right].
  { rewrite elem_of_app, elem_of_cons in Hin. rewrite elem_of_app. naive_solver. }
  split.
  - apply elem_of_app in Hin' as [?%kept_sub|?]; apply elem_of_app; auto.
  - apply stopped_keep, elem_of_app. left. by eapply elem_fst.
Qed.

Lemma stopped_dom (m0 m : gmap N bytes) bs :
  dom m0 = list_to_set ((fs0 ++ fs1).*1 ++ [active_id s]) →
  (∀ id, m !! id = if bool_decide (id ∈ gone) then None else <[mid := bs]> m0 !! id) →
  dom m = list_to_set ((kept gone fs0 ++ (mid, rq) :: fs1).*1 ++ [active_id s]).
Proof.
  intros K3 Hd. rewrite fmap_app. cbn [fmap list_fmap fst]. rewrite fmap_app, <-(assoc_L (++)) in K3.
  apply set_eq. intros id. rewrite elem_of_dom, Hd, elem_of_list_to_set.
  assert (is_Some (m0 !! id) ↔ id ∈ fs0.*1 ∨ id ∈ fs1.*1 ++ [active_id s]) as H0.
  { by rewrite <-elem_of_dom, K3, elem_of_list_to_set, elem_of_app. }
  assert (id ∈ fs1.*1 ++ [active_id s] → id ∉ gone) as H1.
  { intros Hin Hg%gone_before. apply (sd_after _ _ _ _ _ _ HS) in Hin. lia. }
  assert (mid ∉ gone) as Hmid by (intros Hin%gone_before; lia).
  rewrite <-(assoc_L (++)), elem_of_app, <-app_comm_cons, elem_of_cons, kept_ids.
  case_bool_decide as Hin; [rewrite is_Some_alt; naive_solver|].
  rewrite lookup_insert. case_decide as Hid; [naive_solver|]. rewrite H0. naive_solver.
Qed.

(** Whatever of the originals is gone, the files are whole but for the newest. *)
Lemma stopped_disk d0 d q tail :
  disk_ok d0 (fs0 ++ fs1) (active_id s) q tail →
  (∀ id, d_data d !! id = if bool_decide (id ∈ gone) then None else d_data (beside_copy d0) !! id) →
  (∀ id bs, d_hint d !! id = Some bs → id ∉ gone ∧ d_hint (beside_copy d0) !! id = Some bs) →
  disk_ok d (kept gone fs0 ++ (mid, rq) :: fs1) (active_id s) q tail.
Proof.
  intros [[D1 D2 D3 D4] K2 K3 K4 K5 K6 K7 K8] Hd Hh. simpl in Hd, Hh.
  assert (mid ∉ gone) as Hmid by (intros Hin%gone_before; lia).
  assert (active_id s ∉ gone ∧ active_id s ≠ mid) as [Ha1 Ha2].
  { apply stopped_keep, elem_of_app. right. by apply list_elem_of_singleton. }
  split; try done.
  - split.
    + intros id r [[-> ->]|(Hin & Hn & Hne)]%stopped_cases; rewrite Hd, bool_decide_false by done; [apply lookup_insert_eq|].
      rewrite lookup_insert_ne by done. by apply D1.
    + intros id r bs Hin [_ Hb]%Hh. apply stopped_cases in Hin as [[-> ->]|(Hin & _ & Hne)].
      * rewrite lookup_insert_eq in Hb. injection Hb as <-. apply hint_file_ok_all, HC.
      * rewrite lookup_insert_ne in Hb by done. by eapply D2.
    + rewrite all_recs_app. change (all_recs ((mid, rq) :: fs1)) with (rq ++ all_recs fs1).
      rewrite all_recs_app in D3. apply Forall_app in D3 as [D3 D3'].
      repeat apply Forall_app_2; [|apply HC|done]. eapply all_recs_sub; [apply kept_sub|done].
    + intros id r [[-> ->]|(Hin & _)]%stopped_cases; [by rewrite (cy_len _ _ _ _ _ _ _ HC)|by eapply D4].
  - apply stopped_sorted.
  - by eapply stopped_dom.
  - rewrite Hd, bool_decide_false, lookup_insert_ne by done. done.
  - intros bs [_ Hb]%Hh. rewrite lookup_insert_ne in Hb by done. by apply K5.
Qed.

(** What is left replays to the same map, but for what may have come back. *)
Lemma stopped_map q :
  returns (all_recs fs0) (replay (all_recs fs0 ++ all_recs fs1 ++ q)) (replay (all_recs (kept gone fs0 ++ (mid, rq) :: fs1) ++ q)) ∧
  (oldest_first gone old_ids → replay (all_recs (kept gone fs0 ++ (mid, rq) :: fs1) ++ q) = replay (all_recs fs0 ++ all_recs fs1 ++ q)).
Proof.
  rewrite all_recs_app. change (all_recs ((mid, rq) :: fs1)) with (rq ++ all_recs fs1).
  rewrite <-!(assoc_L (++)), (assoc_L (++) (all_recs (kept gone fs0))).
  pose proof (cy_copies _ _ _ _ _ _ _ HC) as Hcp. unfold contents in Hcp. rewrite all_recs_files, app_nil_r in Hcp. split.
  - pose proof (copies_returns (all_recs fs0) _ rq Hcp (kept_recs_sub gone fs0)) as Hr. intros k. rewrite !(replay_app_lookup _ (all_recs fs1 ++ q)).
    case_bool_decide; [by left|apply Hr].
  - intros Ho. apply replay_app_cong. pose proof (si_sorted _ _ _ (sd_inv _ _ _ _ _ _ HS)) as Hs. rewrite fmap_app, <-(assoc_L (++)) in Hs.
    destruct (kept_oldest gone fs0) as [h Eh]; [by eapply StronglySorted_app_1_l|intros x y Hx Hy%Hold; by apply Ho|].
    rewrite Eh in Hcp |- *. by apply copies_after_suffix.
Qed.
End stopped.

Lemma crash_beside mid file hint n s :
  active_id s ≠ mid → crash n (beside mid file hint s) = beside_dir mid file hint (crash n s).
Proof.
  intros H. unfold crash. change (active_id (beside mid file hint s)) with (active_id s).
  change (s_dir (beside mid file hint s)) with (beside_dir mid file hint (s_dir s)).
  rewrite data_file_beside by done. unfold set_data, beside_dir. simpl. by rewrite insert_insert_ne.
Qed.

(** A merge that was never renamed into place is as if it were not there. *)
Lemma open_ignores_part opts f d : open_with opts (set_part f d) = open_with opts d.
Proof. reflexivity. Qed.

(** One stop: the active file cut at [n], [j] of the originals gone. *)
Lemma stopped_open s0 fs0 mid old_ids merged rq hints s fs1 rs opts n j hint_gone :
  Copy s0 fs0 mid old_ids merged rq hints → Side (s_keydir s0) fs0 mid s fs1 rs →
  (∀ id, id ∈ old_ids ↔ id ∈ fs0.*1) → is_u64 (s_live_bytes s0) → is_u64 (o_max_file_bytes opts) → may_crash_at n s →
  let s3 := beside mid (file_bytes rq) (hint_bytes (blen (file_bytes rq)) hints) s in
  ∃ s' rs1 m', open_with opts (deleting old_ids j hint_gone (s_set_dir (crash n s3) s3)) = (Ok s', s_dir s') ∧
    rs1 `prefix_of` rs ∧ Refines s' m' ∧ returns (all_recs fs0) (replay (all_recs fs0 ++ all_recs fs1 ++ rs1)) m' ∧
    (oldest_first (take j old_ids) old_ids → m' = replay (all_recs fs0 ++ all_recs fs1 ++ rs1)) ∧ (is_synced s = true → rs1 = rs).
Proof.
  intros HC HS Hold Hl Hmax Hn s3.
  destruct (crash_disk s (fs0 ++ fs1) rs n (sd_inv _ _ _ _ _ _ HS) Hn) as (rs1 & tail & HK & Hpre & Hkeep).
  assert (crash n s3 = beside_dir mid (file_bytes rq) (hint_bytes (blen (file_bytes rq)) hints) (crash n s)) as Ec.
  { apply crash_beside. assert (mid < active_id s); [|lia].
    apply (sd_after _ _ _ _ _ _ HS), elem_of_app. right. by apply list_elem_of_singleton. }
  destruct (deleting_dir old_ids j hint_gone (s_set_dir (crash n s3) s3)) as [R1 R2].
  set (d := deleting old_ids j hint_gone (s_set_dir (crash n s3) s3)) in *. clearbody d.
  cbn [s_dir s_set_dir] in R1, R2. rewrite Ec in R1, R2. pose proof (subseteq_take j old_ids) as Hg. set (gone := take j old_ids) in *. clearbody gone.
  assert (disk_ok d (kept gone fs0 ++ (mid, rq) :: fs1) (active_id s) rs1 tail) as HK' by by eapply stopped_disk.
  destruct (open_ok opts d _ _ _ _ HK' Hmax) as (s' & E & HI' & _).
  destruct (stopped_map s0 fs0 mid old_ids merged rq hints s fs1 rs HC HS Hold gone rs1) as [Hret Hex].
  exists s', rs1. eexists. split_and!; [done|done| |exact Hret|exact Hex|].
  - eexists _, rs1. split; [done|]. unfold contents. by rewrite all_recs_files.
  - intros Hsy. apply (anti_symm prefix); [done|]. apply Hkeep; [done|].
    destruct (si_writer _ _ _ (sd_inv _ _ _ _ _ _ HS)) as (q0 & q1 & q2 & Eq & _ & _ & _ & Hoff & _).
    rewrite <-Eq in Hoff. unfold is_synced in Hsy. apply N.eqb_eq in Hsy. by rewrite Hsy, Hoff.
Qed.

(** C21: a background compaction may be stopped at any moment. Lose the process or the power
    while it copies, and what was copied is ignored. Once the copy is in place, with any
    number of the originals deleted in whatever order the hash map of files gives them, the next one's
    hint perhaps gone, and the active file cut anywhere past what is synced: the directory opens, and
    the store holds the map [h0] stands for, where the compaction began, and a prefix of the writes made
    since, every one of them if the store was synced; every key that map has has its value, and one
    that it lacks may have a value from before the compaction, which it cannot if the files deleted
    are the oldest ones. *)
Theorem stopped_background_compaction (s : Store) (hs0 h0 : list Rec) (old_ids : list N)
    (ws1 ws2 : list Write) (opts : Options) :
  History s hs0 h0 → s_compacting s = false → s_restoring s = false →
  (∀ id, id ∈ old_ids ↔ id ∈ s_readers s) → is_u64 (s_live_bytes s) →
  Forall write_ok (ws1 ++ ws2) → is_u64 (o_max_file_bytes opts) →
  ∃ job s1 merged d, store_begin_compaction old_ids s = (Ok job, s1) ∧
    let s2 := run_writes ws1 s1 in
    compaction_run job (s_dir s2) = (Ok merged, d) ∧
    (∀ n part, open_with opts (set_part (λ p, <[cj_merged_id job := part]> p) (crash n s2)) = open_with opts (crash n s2)) ∧
    let s3 := run_writes ws2 (s_set_dir d s2) in
    ∃ h1, replay (h0 ++ h1) = write_maps (ws1 ++ ws2) (replay h0) ∧
      ∀ n j hint_gone, may_crash_at n s3 →
      ∃ s' h1' m', open_with opts (deleting old_ids j hint_gone (s_set_dir (crash n s3) s3)) = (Ok s', s_dir s') ∧ Refines s' m' ∧
        h1' `prefix_of` h1 ∧ (is_synced s3 = true → h1' = h1) ∧
        (∀ k v, replay (h0 ++ h1') !! k = Some v → m' !! k = Some v) ∧ returns h0 (replay (h0 ++ h1')) m' ∧
        (oldest_first (take j old_ids) old_ids → m' = replay (h0 ++ h1')).
Proof.
  intros HH Hc Hr Hold Hlive Hw Hmax. pose proof HH as (fs & rs0 & _ & HI & _ & _ & _ & Eh0).
  destruct (background_ok s fs rs0 old_ids ws1 ws2 HI Hc Hr Hold Hlive Hw)
    as (job & s1 & merged & d & E1 & E2 & fs0 & mid & rq & hints & fs1 & rs & s3 & HI1 & HC & HS & Ho & Hl & E3 & Hm & Hr3 & Hm0).
  exists job, s1, merged, d. split; [done|]. cbv zeta in *. split; [done|]. split; [done|]. rewrite E3.
  rewrite <-Eh0 in Hm0, Hm. exists (all_recs fs1 ++ rs). rewrite <-Hm0 in Hm |- *. split; [exact Hm|]. intros n j g Hn.
  destruct (stopped_open s1 fs0 mid old_ids merged rq hints s3 fs1 rs opts n j g HC HS Ho Hl Hmax Hn)
    as (s' & rs1 & m' & E & Hpre & HR' & Hret & Hex & Hsy).
  exists s', (all_recs fs1 ++ rs1), m'. split_and!; [done|done|by apply prefix_app| |by eapply returns_eq|done|done]. intros Hs. by rewrite Hsy.
Qed.

(** The originals deleted newest first, and stopped after the first. *)
Lemma stopped_background_compaction_witness :
  ∃ job s1 merged d, store_begin_compaction [3; 2; 1] (colours Kernel) = (Ok job, s1) ∧
    let s2 := run_writes [WDelete (lit "grass") Kernel 8 8] s1 in
    compaction_run job (s_dir s2) = (Ok merged, d) ∧
    let s3 := run_writes [WPut (lit "sea") (lit "blue") Kernel 9 9; WSync] (s_set_dir d s2) in
    ∀ n hint_gone, may_crash_at n s3 → is_synced s3 = true →
    ∃ s' m', open_with Options_default (deleting [3; 2; 1] 1 hint_gone (s_set_dir (crash n s3) s3)) = (Ok s', s_dir s') ∧ Refines s' m' ∧
      m' !! lit "sea" = Some (lit "blue").
Proof.
  destruct (colours_refines Kernel) as (HR & Hr & Hc). destruct (Refines_history _ _ HR) as (hs0 & h0 & HH & Em).
  assert (∀ id, id ∈ [3; 2; 1] ↔ id ∈ s_readers (colours Kernel)) as Hold.
  { intros id. rewrite <-colours_files. by rewrite (Permutation_rev [3; 2; 1]). }
  assert (is_u64 (s_live_bytes (colours Kernel))) as Hl by (vm_compute; reflexivity).
  assert (is_u64 (o_max_file_bytes Options_default)) as Hm by (vm_compute; reflexivity).
  set (ws := [WDelete (lit "grass") Kernel 8 8] ++ [WPut (lit "sea") (lit "blue") Kernel 9 9; WSync]).
  assert (Forall write_ok ws) as Hw by (repeat constructor).
  destruct (stopped_background_compaction (colours Kernel) hs0 h0 [3; 2; 1] [WDelete (lit "grass") Kernel 8 8]
    [WPut (lit "sea") (lit "blue") Kernel 9 9; WSync] Options_default HH Hc Hr Hold Hl Hw Hm) as (job & s1 & merged & d & E1 & E2 & _ & h1 & H0 & H1).
  exists job, s1, merged, d. split; [exact E1|]. split; [exact E2|]. intros s3 n g Hn Hsy.
  destruct (H1 n 1%nat g Hn) as (s' & h1' & m' & E & R & _ & Hall & Hkeep & _). exists s', m'. split; [exact E|]. split; [exact R|].
  apply Hkeep. rewrite (Hall Hsy), H0, Em. vm_compute. reflexivity.
Defined.
