(* ===== verification/StoreRestore.v ===== *)
(** * Replacing the whole contents

    A restore seals what there is, takes no writes while it is out, writes the new
    contents into a file of their own and, when finished, is all the store holds. *)

From S2P Require Import Prelude.
From S2P Require Import Crc.
From S2P Require Import RecordFormat.
From S2P Require Import DataLog.
From S2P Require Import HintFile.
From S2P Require Import Store.
From S2P Require Import StoreIndex.
From S2P Require Import StoreInv.
From S2P Require Import StoreOps.
From S2P Require Import StoreMap.
From S2P Require Import StoreOpen.
From S2P Require Import StoreCrash.
From S2P Require Import StoreCompact.
From S2P Require Import StoreSide.

#[local] Open Scope N_scope.
#[local] Opaque rec_bytes.

(** The records of a restore: no clock here knows when they were written. *)
Definition restored_recs (l : list (bytes * bytes)) : list Rec := (λ x, mkRec x.1 (Some x.2) 0) <$> l.

Definition index_map (l : list (bytes * Location)) : gmap bytes Location := foldl (λ m x, <[x.1 := x.2]> m) ∅ l.

Record Pushed (id : N) (old_ids : list N) (j : RestoreJob) (l : list (bytes * bytes)) : Prop := {
  pu_id : rj_id j = id;
  pu_old_ids : rj_old_ids j = old_ids;
  pu_file : rj_file j = file_bytes (restored_recs l);
  pu_offset : rj_offset j = blen (file_bytes (restored_recs l));
  pu_recs : Forall rec_ok (restored_recs l);
  pu_hints : entries_at 0 (restored_recs l) (rj_hints j);
  pu_index : Indexed (mkIndexing (index_map (rj_index j)) (rj_offset j) (rj_offset j)) (places_from id 0 (restored_recs l));
}.

Lemma restored_keys l : r_key <$> restored_recs l = l.*1.
Proof. unfold restored_recs. by rewrite <-list_fmap_compose. Qed.

Lemma push_ok id old_ids j l k v :
  Pushed id old_ids j l → k ∉ l.*1 → k ≠ [] → fits k v →
  ∃ j', restore_push k v j = (Ok tt, j') ∧ Pushed id old_ids j' (l ++ [(k, v)]).
Proof.
  intros [P1 P2 P3 P4 P5 P6 P7] Hnew Hk Hf.
  assert (rec_ok (mkRec k (Some v) 0)) as Hr by (by apply fits_rec_ok).
  unfold restore_push. rewrite record_encode_rec by apply Hr.
  assert (as_u32 (blen (rec_bytes (mkRec k (Some v) 0))) = blen (rec_bytes (mkRec k (Some v) 0))) as ->.
  { unfold as_u32. apply N.mod_small, Hr. }
  assert (restored_recs (l ++ [(k, v)]) = restored_recs l ++ [mkRec k (Some v) 0]) as El
    by (unfold restored_recs; by rewrite fmap_app).
  eexists. split; [done|]. set (r := mkRec k (Some v) 0) in *.
  assert (entry_at (rj_offset j) r (mkHintEntry k (rj_offset j) (blen (rec_bytes r)) 0 false)) as He by (by split_and!).
  split; simpl; rewrite ?El; try done.
  - by rewrite P3, file_bytes_snoc.
  - by rewrite P4, file_bytes_snoc, blen_app.
  - apply Forall_app. by split; [|apply Forall_singleton].
  - apply entries_at_snoc; [done|]. by rewrite N.add_0_l, <-P4.
  - rewrite places_from_app, N.add_0_l, <-P4. simpl.
    pose proof (index_entry_ok _ _ id _ r _ P7 He) as Hix. unfold index_entry in Hix. simpl in Hix.
    assert (index_map (rj_index j) !! k = None) as Hnone.
    { destruct (index_map (rj_index j) !! k) as [loc|] eqn:El'; [exfalso|done].
      destruct (keydir_ok_lookup _ _ k loc (ixd_keydir _ _ P7) El') as (p & Hp & _).
      apply index_of_Some in Hp as (Hp & Hpk & _). apply Hnew. rewrite <-restored_keys, <-Hpk.
      apply list_elem_of_fmap_2. apply (list_elem_of_fmap_2 pl_rec) in Hp. by rewrite places_from_recs in Hp. }
    rewrite Hnone in Hix. unfold index_map. rewrite foldl_app. simpl. rewrite P1. exact Hix.
Qed.

Lemma pushes_ok id old_ids j l l' :
  Pushed id old_ids j l → NoDup (l ++ l').*1 → Forall (λ x, x.1 ≠ [] ∧ fits x.1 x.2) l' →
  ∃ j', miter (λ x, restore_push x.1 x.2) l' j = (Ok tt, j') ∧ Pushed id old_ids j' (l ++ l').
Proof.
  revert j l. induction l' as [|[k v] l' IH]; intros j l HP Hnd Hl.
  { exists j. by rewrite app_nil_r. }
  apply Forall_cons_1 in Hl as [[Hk Hf] Hl].
  destruct (push_ok id old_ids j l k v HP) as (j1 & E1 & HP1); [|done|done|].
  { rewrite fmap_app in Hnd. apply list.NoDup_app in Hnd as (_ & Hdis & _). intros Hin. apply (Hdis k Hin), list_elem_of_here. }
  destruct (IH j1 (l ++ [(k, v)]) HP1) as (j' & E & HP'); [by rewrite <-(assoc_L (++))|done|].
  exists j'. rewrite <-(assoc_L (++)) in HP'. split; [|done]. cbn [miter fst snd]. unfold mbind, M_bind. by rewrite E1.
Qed.

Lemma replay_restored l : NoDup l.*1 → replay (restored_recs l) = list_to_map l.
Proof.
  intros Hnd. apply map_eq. intros k. destruct (decide (k ∈ l.*1)) as [Hin|Hout].
  - apply list_elem_of_fmap in Hin as ([k' v] & -> & Hin). simpl. rewrite (elem_of_list_to_map_1 l k' v) by done.
    apply (replay_NoDup (restored_recs l) (mkRec k' (Some v) 0)); [by rewrite restored_keys|].
    by apply (list_elem_of_fmap_2 (λ x, mkRec x.1 (Some x.2) 0) l (k', v)).
  - rewrite replay_not_in by (by rewrite restored_keys). symmetry. by apply not_elem_of_list_to_map_1.
Qed.

(** ** Beginning, finishing, giving up *)

(** The invariant does not depend on part files and on the two flags. *)
Lemma SInv_restoring f b s fs rs :
  SInv s fs rs → SInv (s_set_restoring b (s_set_dir (set_part f (s_dir s)) s)) fs rs.
Proof. intros [[D1 D2 D3 D4] I2 I3 I3' I4 I5 I6 I7 I8 I9 I10 I11 I12]. by split. Qed.

Lemma begin_restore_ok s fs rs old_ids :
  SInv s fs rs → s_compacting s = false → s_restoring s = false →
  let fs0 := fs ++ [(active_id s, rs)] in
  let mid := active_id s + 1 in
  ∃ s1, begin_restore old_ids s = (Ok (mkRestoreJob mid [] 0 [] [] old_ids), s1) ∧
    Side (s_keydir s1) fs0 mid s1 [] [] ∧ s_restoring s1 = true ∧ s_compacting s1 = false ∧
    lw_offset (s_writer s1) = 0.
Proof.
  intros HI Hc Hr fs0 mid. unfold begin_restore. rewrite Hc, Hr. cbn [orb].
  unfold seal_leaving_a_slot. cbn zeta. change (lw_file_id (s_writer s)) with (active_id s).
  destruct (roll_inv s fs rs (active_id s + 2) HI) as (HI1 & Ha1 & Ho1 & Hc1 & Hr1); [lia|].
  set (s1 := open_active (active_id s + 2) (seal_active s)) in *. clearbody s1.
  eexists. split; [reflexivity|]. split_and!; [|done|by rewrite <-Hc|].
  - split; simpl.
    + rewrite app_nil_r. by apply (SInv_restoring _ true).
    + intros id. unfold fs0, mid. rewrite fmap_app. intros [Hin|Hin%list_elem_of_singleton]%elem_of_app.
      * pose proof (sorted_snoc_lt _ _ _ (si_sorted _ _ _ HI) Hin). lia.
      * simpl in Hin. lia.
    + intros id Hin%list_elem_of_singleton. assert (id = active_id s1) by exact Hin. unfold mid. lia.
    + done.
  - simpl. destruct (si_writer _ _ _ HI1) as (q0 & q1 & q2 & Eq & _ & _ & _ & Hoff & _). by rewrite <-Eq in Hoff.
Qed.

Lemma finish_restore_ok s fs0 mid old_ids j l :
  Side (s_keydir s) fs0 mid s [] [] → Pushed mid old_ids j l → NoDup l.*1 →
  is_u64 (blen (file_bytes (restored_recs l))) → (∀ id, id ∈ old_ids ↔ id ∈ fs0.*1) → lw_offset (s_writer s) = 0 →
  let '(rf, d) := restore_finish j (s_dir s) in
  let s' := finish_restore rf (s_set_dir d s) in
  Refines s' (list_to_map l) ∧ s_restoring s' = false ∧ s_compacting s' = s_compacting s.
Proof.
  intros HS [P1 P2 P3 P4 P5 P6 P7] Hnd Hlen Hold Hoff. unfold restore_finish.
  unfold finish_restore. cbn [rf_id rf_bytes rf_index rf_old_ids]. rewrite P1, P2, P3, P4.
  set (rq := restored_recs l) in *.
  match goal with |- context [foldl _ ?st old_ids] => set (s1 := st); fold (remove_files old_ids s1) end.
  destruct (remove_files_dir old_ids s1) as (R1 & R2 & R3).
  destruct (remove_files_rest old_ids s1) as (Q1 & Q2 & Q3 & Q4 & Q5 & Q6 & Q7 & Q8).
  destruct (remove_files_counts old_ids s1) as (Q9 & Q10).
  cbv zeta. split; [|done]. exists [(mid, rq)], [].
  split; [|unfold contents; rewrite all_recs_files, all_recs_one, app_nil_r; by apply replay_restored].
  eapply (replace_inv _ _ _ old_ids rq (rj_hints j) s [] []); try done.
  - simpl. rewrite Q1. simpl. apply set_eq. intros id.
    assert (mid ∉ old_ids) by (rewrite Hold; intros H%(sd_before _ _ _ _ _ _ HS); lia). set_solver.
  - intros id n Hn. simpl in Hn. apply lookup_insert_Some in Hn as [[<- <-]|[_ Hn]]; [by left|].
    apply Q2 in Hn. by right.
  - unfold indexing_of. simpl. rewrite app_nil_r, Q6. simpl. rewrite Hoff, N.add_0_r, <-P4. exact P7.
Qed.

(** A restore replaces everything. From the moment it begins every write is refused and
    every read answers as before; given the new contents one key at a time, finishing
    makes the store mean exactly them, whatever it held, and takes writes again; giving
    up instead leaves what was there. *)
Theorem restore_exact (s : Store) (m : gmap bytes bytes) (old_ids : list N) (l : list (bytes * bytes)) :
  Refines s m → s_compacting s = false → s_restoring s = false →
  (∀ id, id ∈ old_ids ↔ id ∈ s_readers s) → NoDup l.*1 → Forall (λ x, x.1 ≠ [] ∧ fits x.1 x.2) l →
  is_u64 (blen (file_bytes (restored_recs l))) →
  ∃ job s1 job', begin_restore old_ids s = (Ok job, s1) ∧
    (∀ k, store_get s1 k = Ok (m !! k)) ∧
    (∀ k v reach now now', put_with k v reach now now' s1 = (Err restore_in_progress, s1)) ∧
    miter (λ x, restore_push x.1 x.2) l job = (Ok tt, job') ∧
    (let '(rf, d) := restore_finish job' (s_dir s1) in
     let s' := finish_restore rf (s_set_dir d s1) in
     Refines s' (list_to_map l) ∧ s_restoring s' = false) ∧
    Refines (abandon_restore (s_set_dir (restore_drop job' (s_dir s1)) s1)) m.
Proof.
  intros HR Hc Hr Hold Hnd Hl Hlen. destruct HR as (fs & rs & HI & Hm).
  destruct (begin_restore_ok s fs rs old_ids HI Hc Hr) as (s1 & E1 & HS & Hr1 & Hc1 & Ho1). cbv zeta in E1, HS.
  set (fs0 := fs ++ [(active_id s, rs)]) in *. set (mid := active_id s + 1) in *.
  destruct (pushes_ok mid old_ids (mkRestoreJob mid [] 0 [] [] old_ids) [] l) as (job' & E2 & HP); [|done|done|].
  { split; try done. apply Indexed_empty. }
  exists (mkRestoreJob mid [] 0 [] [] old_ids), s1, job'.
  assert (side_map fs0 [] [] = m) as Hm1.
  { rewrite <-Hm. unfold side_map, contents, fs0. by rewrite all_recs_files, all_recs_app, all_recs_one, app_nil_r. }
  assert (∀ id, id ∈ old_ids ↔ id ∈ fs0.*1) as Hids.
  { intros id. rewrite Hold, (si_readers _ _ _ HI), elem_of_list_to_set. unfold fs0. by rewrite fmap_app. }
  split_and!; [done| | |done| |].
  - intros k. rewrite <-Hm1. eapply Refines_get, side_refines, HS.
  - intros k v reach now now'. unfold put_with. by rewrite Hr1.
  - pose proof (finish_restore_ok s1 fs0 mid old_ids job' l HS HP Hnd Hlen Hids Ho1) as Hf.
    destruct (restore_finish job' (s_dir s1)) as [rf d]. destruct Hf as (Hf1 & Hf2 & _). done.
  - exists fs0, []. split; [|by rewrite <-Hm1, <-(side_contents fs0 s1 [] []), app_nil_r].
    pose proof (sd_inv _ _ _ _ _ _ HS) as HI1. rewrite app_nil_r in HI1. by apply (SInv_restoring _ false).
Qed.

Lemma restore_exact_witness :
  ∃ job s1 job', begin_restore [3; 2; 1] (colours Kernel) = (Ok job, s1) ∧
    miter (λ x, restore_push x.1 x.2) [(lit "sea", lit "blue")] job = (Ok tt, job') ∧
    let '(rf, d) := restore_finish job' (s_dir s1) in
    let s' := finish_restore rf (s_set_dir d s1) in
    Refines s' (list_to_map [(lit "sea", lit "blue")]) ∧ s_restoring s' = false.
Proof.
  destruct (restore_exact (colours Kernel) _ [3; 2; 1] [(lit "sea", lit "blue")] (proj1 (colours_refines Kernel)))
    as (job & s1 & job' & E1 & _ & _ & E2 & Hf & _).
  - apply colours_refines.
  - apply colours_refines.
  - intros id. rewrite <-colours_files. by rewrite (Permutation_rev [3; 2; 1]).
  - simpl. apply NoDup_singleton.
  - by repeat constructor.
  - by vm_compute.
  - exact (ex_intro _ job (ex_intro _ s1 (ex_intro _ job' (conj E1 (conj E2 Hf))))).
Defined.
