(* ===== verification/StoreGrow.v ===== *)
(** * How a store grows

    A store's files determine its records, so its history is one list. Writes only ever
    add to the last file or start another; a point in a file, once it has been written,
    stands for the same records for good, and is behind what is synced for good. *)

From S2P Require Import Prelude.
From S2P Require Import Crc.
From S2P Require Import RecordFormat.
From S2P Require Import DataLog.
From S2P Require Import HintFile.
From S2P Require Import Store.
From S2P Require Import StoreIndex.
From S2P Require Import StoreInv.
From S2P Require Import StoreOps.
From S2P Require Import StoreMap.
From S2P Require Import StoreOpen.
From S2P Require Import StoreCrash.

#[local] Open Scope N_scope.

#[export] Instance Rec_eq_dec : EqDecision Rec.
Proof. solve_decision. Defined.

(** ** The records of a store are determined *)

Lemma rec_bytes_inj r r' a a' :
  rec_ok r → rec_ok r' → rec_bytes r ++ a = rec_bytes r' ++ a' → r = r' ∧ a = a'.
Proof.
  intros (Hr & Ht & _) (Hr' & Ht' & _) E. rewrite !rec_bytes_split, <-!(assoc_L (++)) in E.
  apply app_inj_1 in E as [Eh E]; [|by rewrite !length_header_encode].
  apply (f_equal header_decode) in Eh. rewrite !header_decode_encode_exact in Eh by auto using record_header_wf.
  injection Eh as _ Et Ek Ev Ef. apply app_inj_1 in E as [Ekey E]; [|unfold blen in Ek; lia].
  apply app_inj_1 in E as [Eval E]; [|unfold blen in Ev; lia]. split; [|done].
  destruct r as [k [v|] t], r' as [k' [v'|] t']; simpl in *; congruence.
Qed.

#[local] Opaque rec_bytes.

Lemma file_bytes_inj rs rs' :
  Forall rec_ok rs → Forall rec_ok rs' → file_bytes rs = file_bytes rs' → rs = rs'.
Proof.
  intros Hrs. revert rs'. induction Hrs as [|r rs Hr Hrs IH]; intros rs' Hrs' E.
  - symmetry. apply file_bytes_nil. by rewrite <-E.
  - destruct Hrs' as [|r' rs' Hr' Hrs']; [by apply file_bytes_nil in E|].
    rewrite !file_bytes_cons in E. apply rec_bytes_inj in E as [-> E]; [|done..]. f_equal. by apply IH.
Qed.

Lemma files_eq (fs fs' : Files) :
  fs.*1 = fs'.*1 → (∀ id rs rs', (id, rs) ∈ fs → (id, rs') ∈ fs' → rs = rs') → fs = fs'.
Proof.
  revert fs'. induction fs as [|[id rs] fs IH]; intros [|[id' rs'] fs'] E H; try done.
  injection E as -> E. f_equal.
  - f_equal. apply (H id'); apply list_elem_of_here.
  - apply IH; [done|]. intros i a b Ha Hb. apply (H i); by apply list_elem_of_further.
Qed.

Lemma all_recs_elem (fs : Files) id rs (P : Rec → Prop) :
  Forall P (all_recs fs) → (id, rs) ∈ fs → Forall P rs.
Proof.
  intros H [l1 [l2 ->]]%list_elem_of_split. rewrite all_recs_app in H. apply Forall_app in H as [_ H].
  change ((id, rs) :: l2) with ([(id, rs)] ++ l2) in H. rewrite all_recs_app, all_recs_one in H.
  by apply Forall_app in H as [H _].
Qed.

(** A directory and its writer hold one list of files. *)
Lemma SInv_unique s fs rs fs' rs' : SInv s fs rs → SInv s fs' rs' → fs = fs' ∧ rs = rs'.
Proof.
  intros HI HI'. split.
  - apply files_eq.
    + pose proof (list_data_files_sorted _ _ (si_dom _ _ _ HI) (si_sorted _ _ _ HI)) as E.
      rewrite (list_data_files_sorted _ _ (si_dom _ _ _ HI') (si_sorted _ _ _ HI')) in E.
      by apply app_inj_tail in E as [-> _].
    + intros id a b Ha Hb. apply file_bytes_inj.
      * eapply all_recs_elem; [apply (do_recs _ _ (si_sealed _ _ _ HI))|done].
      * eapply all_recs_elem; [apply (do_recs _ _ (si_sealed _ _ _ HI'))|done].
      * pose proof (do_data _ _ (si_sealed _ _ _ HI) _ _ Ha) as E.
        rewrite (do_data _ _ (si_sealed _ _ _ HI') _ _ Hb) in E. congruence.
  - apply file_bytes_inj; [apply (si_recs _ _ _ HI)|apply (si_recs _ _ _ HI')|].
    destruct (si_writer _ _ _ HI) as (r0 & r1 & r2 & -> & W1 & W2 & _).
    destruct (si_writer _ _ _ HI') as (q0 & q1 & q2 & -> & V1 & V2 & _).
    rewrite W1 in V1. injection V1 as V1. rewrite !(assoc_L (++)), (file_bytes_app _ r2), (file_bytes_app _ q2). congruence.
Qed.

Lemma History_unique s hs0 hs hs0' hs' : History s hs0 hs → History s hs0' hs' → hs = hs'.
Proof.
  intros (fs & rs & r0 & HI & _ & _ & _ & ->) (fs' & rs' & r0' & HI' & _ & _ & _ & ->).
  by destruct (SInv_unique s fs rs fs' rs' HI HI') as [-> ->].
Qed.

(** ** Files that grow *)

(** More in the last file, and more files after it. *)
Definition files_grow (F F' : Files) : Prop :=
  ∃ init a rs more tl, F = init ++ [(a, rs)] ∧ F' = init ++ (a, rs ++ more) :: tl.

(** The point [p] is in [F], and the history up to it takes in [h]. *)
Definition Covers (F : Files) (p : N * N) (h : list Rec) : Prop :=
  ∃ F1 q q' F2, F = F1 ++ (p.1, q ++ q') :: F2 ∧ p.2 = blen (file_bytes q) ∧ h `prefix_of` all_recs F1 ++ q.

Lemma all_recs_cons id rs fs : all_recs ((id, rs) :: fs) = rs ++ all_recs fs.
Proof. change ((id, rs) :: fs) with ([(id, rs)] ++ fs). by rewrite all_recs_app, all_recs_one. Qed.

Lemma snoc_split {A} (init F1 F2 : list A) x y :
  init ++ [x] = F1 ++ y :: F2 →
  (F2 = [] ∧ init = F1 ∧ x = y) ∨ (∃ F2', F2 = F2' ++ [x] ∧ init = F1 ++ y :: F2').
Proof.
  intros E. destruct F2 as [|z F2' _] using rev_ind.
  - apply app_inj_tail in E as [-> ->]. by left.
  - right. change (F1 ++ y :: F2' ++ [z]) with (F1 ++ (y :: F2') ++ [z]) in E. rewrite (assoc_L (++)) in E.
    apply app_inj_tail in E as [-> ->]. by exists F2'.
Qed.

Lemma files_grow_trans F F' F'' : files_grow F F' → files_grow F' F'' → files_grow F F''.
Proof.
  intros (init & a & rs & m & tl & -> & ->) (init' & a' & rs' & m' & tl' & E & ->).
  symmetry in E. apply snoc_split in E as [(-> & -> & [= -> ->])|(tl0 & -> & ->)].
  - exists init, a, rs, (m ++ m'), tl'. by rewrite (assoc_L (++) rs).
  - exists init, a, rs, m, (tl0 ++ (a', rs' ++ m') :: tl'). by rewrite <-(assoc_L (++)).
Qed.

Lemma files_grow_recs F F' : files_grow F F' → all_recs F `prefix_of` all_recs F'.
Proof.
  intros (init & a & rs & m & tl & -> & ->). rewrite !all_recs_app, all_recs_one, all_recs_cons, <-(assoc_L (++)).
  apply prefix_app, prefix_app_r. done.
Qed.

Lemma Covers_grow F F' p h : files_grow F F' → Covers F p h → Covers F' p h.
Proof.
  intros (init & a & rs & m & tl & -> & ->) (F1 & q & q' & F2 & E & Hp & Hh).
  apply snoc_split in E as [(-> & -> & [= -> ->])|(F2' & -> & ->)].
  - exists F1, q, (q' ++ m), tl. by rewrite (assoc_L (++) q).
  - exists F1, q, q', (F2' ++ (a, rs ++ m) :: tl). by rewrite <-(assoc_L (++)).
Qed.

Lemma Covers_less F p h h' : h' `prefix_of` h → Covers F p h → Covers F p h'.
Proof. intros Hh (F1 & q & q' & F2 & -> & Hp & H). exists F1, q, q', F2. split_and!; [done..|]. by etrans. Qed.

Lemma Covers_recs F p h : Covers F p h → h `prefix_of` all_recs F.
Proof.
  intros (F1 & q & q' & F2 & -> & _ & H). rewrite all_recs_app, all_recs_cons. etrans; [exact H|].
  apply prefix_app. rewrite <-(assoc_L (++)). by apply prefix_app_r.
Qed.

(** ** Stores that grow *)

(** The point [p] is no further than what the store knows to be on the disk. *)
Definition behind (p : N * N) (s : Store) : Prop :=
  p.1 < active_id s ∨ (p.1 = active_id s ∧ p.2 ≤ lw_synced (s_writer s)).

(** [s'] is [s] with more appended, flushed or synced; both take writes. *)
Record Grown (s : Store) (fs : Files) (rs : list Rec) (s' : Store) (fs' : Files) (rs' : list Rec) : Prop := {
  gr_inv : SInv s' fs' rs';
  gr_restoring : s_restoring s' = false;
  gr_opts : s_opts s' = s_opts s;
  gr_files : files_grow (all_files s fs rs) (all_files s' fs' rs');
  gr_active : active_id s ≤ active_id s';
  gr_writer : active_id s' = active_id s →
    lw_written (s_writer s) ≤ lw_written (s_writer s') ∧ lw_synced (s_writer s) ≤ lw_synced (s_writer s');
}.

Definition Grows (s s' : Store) : Prop :=
  ∀ fs rs, SInv s fs rs → s_restoring s = false → ∃ fs' rs', Grown s fs rs s' fs' rs'.

Lemma files_grow_refl s fs rs : files_grow (all_files s fs rs) (all_files s fs rs).
Proof. exists fs, (active_id s), rs, [], []. by rewrite app_nil_r. Qed.

#[export] Instance Grows_preorder : PreOrder Grows.
Proof.
  split.
  - intros s fs rs HI Hre. exists fs, rs. split; try done. apply files_grow_refl.
  - intros s1 s2 s3 H12 H23 fs rs HI Hre.
    destruct (H12 fs rs HI Hre) as (fs2 & rs2 & [A1 A2 A3 A4 A5 A6]).
    destruct (H23 fs2 rs2 A1 A2) as (fs3 & rs3 & [B1 B2 B3 B4 B5 B6]).
    exists fs3, rs3. split; [done|done|congruence|by eapply files_grow_trans|lia|].
    intros E. destruct A6; [lia|]. destruct B6; [lia|]. lia.
Qed.

Lemma behind_grown s fs rs s' fs' rs' p : Grown s fs rs s' fs' rs' → behind p s → behind p s'.
Proof.
  intros [_ _ _ _ Ha Hw] [Hp|[Hp Hs]]; [left; lia|].
  destruct (decide (active_id s' = active_id s)) as [E|E]; [|left; lia].
  right. rewrite E. destruct (Hw E). split; [done|lia].
Qed.

(** *** Appending *)

Definition lw_ordered (w : LogWriter) : Prop := lw_synced w ≤ lw_written w ∧ lw_written w ≤ lw_offset w.

Lemma Wok_ordered d w rs : Wok d w rs → lw_ordered w.
Proof.
  intros (r0 & r1 & r2 & _ & _ & _ & W3 & W4 & W5). unfold lw_ordered.
  rewrite W3, W4, W5, !file_bytes_app, !blen_app. lia.
Qed.

Lemma flush_mono d w :
  lw_ordered w →
  let '(_, w') := LogWriter_flush (d, w) in
  lw_ordered w' ∧ lw_offset w' = lw_offset w ∧ lw_written w ≤ lw_written w' ∧ lw_synced w' = lw_synced w.
Proof. intros []. unfold LogWriter_flush, lw_ordered. case_bool_decide; simpl; lia. Qed.

Lemma append_mono bs reach d w :
  lw_ordered w →
  let '(_, (_, w')) := LogWriter_append bs reach (d, w) in
  lw_written w ≤ lw_written w' ∧ lw_synced w ≤ lw_synced w'.
Proof.
  intros Hw. unfold LogWriter_append. destruct (negb _ && _).
  - unfold lw_ordered in *. simpl. case_bool_decide; lia.
  - set (w1 := mkLogWriter _ _ _ _ _). assert (lw_ordered w1) as Hw1 by (unfold lw_ordered in *; simpl; lia).
    pose proof (flush_mono d w1 Hw1) as Hf. destruct Hw as [Hw Hw']. unfold LogWriter_sync. destruct reach.
    + destruct (_ <? _); [simpl; lia|]. destruct (LogWriter_flush (d, w1)) as [d' w']. simpl in *. lia.
    + destruct (LogWriter_flush (d, w1)) as [d' w']. simpl in *. lia.
    + destruct (LogWriter_flush (d, w1)) as [d' w']. simpl in *. lia.
Qed.

Lemma append_file bs reach d w :
  let '(_, (_, w')) := LogWriter_append bs reach (d, w) in lw_file_id w' = lw_file_id w.
Proof.
  unfold LogWriter_append, LogWriter_sync, LogWriter_flush. destruct (negb _ && _); [done|].
  destruct reach; [destruct (_ <? _)|..]; try done; by case_bool_decide.
Qed.

(** While the active file stays, the writer only moves forward. *)
Lemma append_record_writer key bs t reach ts s :
  lw_ordered (s_writer s) →
  let s' := (append_record key bs t reach ts s).2 in
  active_id s' = active_id s →
  lw_written (s_writer s) ≤ lw_written (s_writer s') ∧ lw_synced (s_writer s) ≤ lw_synced (s_writer s').
Proof.
  intros Hw. unfold append_record, on_writer.
  set (s1 := roll_if_needed (blen bs) s).
  assert (s1 = s ∨ active_id s1 = active_id s + 1) as Hs1.
  { unfold s1, roll_if_needed. destruct (_ || _); [by left|right].
    unfold open_active, LogWriter_open, active_id. done. }
  clearbody s1. pose proof (append_mono bs reach (s_dir s1) (s_writer s1)) as Hm.
  pose proof (append_file bs reach (s_dir s1) (s_writer s1)) as Hf.
  destruct (LogWriter_append bs reach _) as [[offset len] [d w]]. cbn zeta. cbn [snd].
  match goal with |- context [keydir_remove key ?x] => destruct (keydir_remove_same key x) as (_ & K & _) end.
  unfold active_id in *. rewrite K. simpl. intros E. destruct Hs1 as [->|Hs1]; [by apply Hm|lia].
Qed.

Lemma rolled_grow s fs rs s' fs' rs' r :
  rolled s fs rs s' fs' rs' → files_grow (all_files s fs rs) (all_files s' fs' (rs' ++ [r])).
Proof.
  intros [(-> & -> & E)|(-> & -> & E)]; unfold all_files; rewrite E.
  - by exists fs, (active_id s), rs, [r], [].
  - exists fs, (active_id s), rs, [], [(active_id s + 1, [r])]. by rewrite app_nil_r, <-(assoc_L (++)).
Qed.

Lemma Appended_grown s fs rs r reach s' fs' rs' :
  s_restoring s = false → Appended s fs rs r reach s' fs' rs' →
  (active_id s' = active_id s →
    lw_written (s_writer s) ≤ lw_written (s_writer s') ∧ lw_synced (s_writer s) ≤ lw_synced (s_writer s')) →
  Grown s fs rs s' fs' (rs' ++ [r]).
Proof.
  intros Hre [A1 A2 A3 A4 A5 A6 A7] Hw. split; try done; [congruence|by apply rolled_grow|].
  destruct A2 as [(_ & _ & ->)|(_ & _ & ->)]; lia.
Qed.

Lemma put_grows k v reach now now' :
  (k ≠ [] → fits k v) → is_u64 now → is_u64 now' → Steps Grows (put_with k v reach now now').
Proof.
  intros Hf Hn Hn' s fs rs HI Hre. destruct (decide (k = [])) as [->|Hk].
  - assert (put_with [] v reach now now' s = (Err (InvalidKey "keys may not be empty"), s)) as ->
      by (unfold put_with; by rewrite Hre). by apply Grows_preorder.
  - destruct (put_step s fs rs k v reach now now' HI Hre Hk (Hf Hk) Hn Hn') as (s' & fs' & rs' & E & HA).
    rewrite E. exists fs', (rs' ++ [mkRec k (Some v) now]). eapply Appended_grown; [done..|].
    pose proof (Wok_ordered _ _ _ (si_writer _ _ _ HI)) as Ho. unfold put_with in E. rewrite Hre in E.
    destruct (record_encode k (Some v) now) as [bs|]; [|done].
    pose proof (append_record_writer k bs false reach now' s Ho) as Hw.
    destruct (append_record k bs false reach now' s) as [loc s2]. injection E as <-. exact Hw.
Qed.

Lemma delete_grows k reach now now' :
  is_u64 now → is_u64 now' → Steps Grows (delete_with k reach now now').
Proof.
  intros Hn Hn' s fs rs HI Hre. destruct (decide (is_Some (s_keydir s !! k))) as [Hk|Hk].
  - destruct (delete_step s fs rs k reach now now' HI Hre Hk Hn Hn') as (s' & fs' & rs' & E & HA).
    rewrite E. exists fs', (rs' ++ [mkRec k None now]). eapply Appended_grown; [done..|].
    pose proof (Wok_ordered _ _ _ (si_writer _ _ _ HI)) as Ho. unfold delete_with in E. rewrite Hre in E.
    destruct (negb _); [done|]. destruct (record_encode k None now) as [bs|]; [|done].
    pose proof (append_record_writer k bs true reach now' s Ho) as Hw.
    destruct (append_record k bs true reach now' s) as [loc s2]. injection E as <-. exact Hw.
  - unfold delete_with, contains_key. rewrite Hre, bool_decide_false by done. by apply Grows_preorder.
Qed.

(** *** Syncing *)

Lemma handle_grows s : Grows s (sync_handle s).2.
Proof.
  intros fs rs HI Hre. exists fs, rs. destruct (flush_inv s fs rs HI) as (HI' & _ & Ha).
  destruct (on_writer_same (λ dw, (tt, LogWriter_flush dw)) s) as (_ & _ & _ & _ & Q5 & _ & _ & Q8 & _).
  split; simpl; [done|by rewrite <-Hre|done|unfold all_files; rewrite Ha; apply files_grow_refl|lia|]. intros _.
  pose proof (flush_mono (s_dir s) (s_writer s) (Wok_ordered _ _ _ (si_writer _ _ _ HI))) as Hf.
  unfold writer_flush, on_writer. destruct (LogWriter_flush _) as [d w]. simpl. lia.
Qed.

Lemma Wok_offset d w rs : Wok d w rs → lw_offset w = blen (file_bytes rs).
Proof. by intros (r0 & r1 & r2 & -> & _ & _ & _ & W4 & _). Qed.

(** The handle's point takes in everything appended, all of it with the kernel. *)
Lemma handle_point s fs rs :
  SInv s fs rs →
  let '(pt, s') := sync_handle s in
  Covers (all_files s' fs rs) pt (all_recs fs ++ rs) ∧ pt.1 = active_id s' ∧ pt.2 ≤ lw_written (s_writer s').
Proof.
  intros HI. destruct (flush_inv s fs rs HI) as (HI' & Hp & _). unfold sync_handle. cbn zeta.
  set (s' := writer_flush s) in *. split_and!.
  - exists fs, rs, [], []. rewrite app_nil_r. split_and!; [done| |done]. by apply Wok_offset with (d := s_dir s'), HI'.
  - done.
  - destruct (si_writer _ _ _ HI') as (r0 & r1 & r2 & _ & _ & W2 & W3 & W4 & _). simpl.
    rewrite Hp in W2. rewrite (file_bytes_nil r2) in W4 by done. by rewrite W3, W4, app_nil_r.
Qed.

(** A point of the active file is a prefix of its records. *)
Lemma Covers_active s fs rs p h :
  SInv s fs rs → Covers (all_files s fs rs) p h → p.1 = active_id s →
  ∃ q, q `prefix_of` rs ∧ p.2 = blen (file_bytes q) ∧ h `prefix_of` all_recs fs ++ q.
Proof.
  intros HI (F1 & q & q' & F2 & E & Hp & Hh) Ha. apply snoc_split in E as [(-> & -> & [= _ ->])|(F2' & -> & ->)].
  - exists q. split_and!; [by eexists|done..].
  - pose proof (sorted_snoc_lt _ _ p.1 (si_sorted _ _ _ HI)) as Hlt. rewrite fmap_app in Hlt.
    ospecialize (Hlt _); [set_solver|lia].
Qed.

(** Of two prefixes of a file, the one with fewer bytes is a prefix of the other. *)
Lemma prefix_by_len (q q' rs : list Rec) :
  q `prefix_of` rs → q' `prefix_of` rs → blen (file_bytes q) ≤ blen (file_bytes q') → q `prefix_of` q'.
Proof.
  intros Hq Hq' Hl. destruct (prefix_weak_total q q' rs) as [|[x ->]]; [done..|].
  rewrite file_bytes_app, blen_app in Hl. rewrite (file_bytes_nil x) by (apply blen_0; lia). by rewrite app_nil_r.
Qed.

Lemma note_synced_inv s pt fs rs :
  SInv s fs rs → Covers (all_files s fs rs) pt [] → (pt.1 = active_id s → pt.2 ≤ lw_written (s_writer s)) →
  SInv (note_synced pt s) fs rs.
Proof.
  intros HI Hc Hw. unfold note_synced. destruct (_ && _) eqn:E; [|done].
  apply andb_true_iff in E as [Ea%N.eqb_eq Hs%N.ltb_lt].
  destruct (Covers_active s fs rs pt [] HI Hc Ea) as (q & Hq & Hp & _).
  specialize (Hw Ea). set (w := mkLogWriter _ _ _ _ _).
  destruct (si_writer _ _ _ HI) as (r0 & r1 & r2 & Er & W1 & W2 & W3 & W4 & W5).
  assert (q `prefix_of` r0 ++ r1) as [q' Eq].
  { apply (prefix_by_len _ _ rs); [done| |congruence]. rewrite Er, (assoc_L (++)). by apply prefix_app_r. }
  assert (Wok (s_dir s) w rs) as HW.
  { exists q, q', r2. rewrite Er, (assoc_L (++)), Eq, <-(assoc_L (++)). split; [done|].
    unfold Wsplit. simpl. rewrite (assoc_L (++)), <-Eq, <-(assoc_L (++)). done. }
  assert (SInv (s_set_dir (s_dir s) (s_set_writer w s)) fs rs) as HI'; [|by destruct s].
  apply SInv_writer; try done; [simpl; lia|]. by eapply only_data_refl.
Qed.

Lemma note_synced_grows s pt :
  (∀ fs rs, SInv s fs rs → Covers (all_files s fs rs) pt []) →
  (pt.1 = active_id s → pt.2 ≤ lw_written (s_writer s)) →
  Grows s (note_synced pt s).
Proof.
  intros Hc Hw fs rs HI Hre. exists fs, rs. pose proof (note_synced_inv s pt fs rs HI (Hc fs rs HI) Hw) as HI'.
  unfold note_synced in *. destruct (_ && _) eqn:E; [|split; try done; apply files_grow_refl].
  apply andb_true_iff in E as [_ Hs%N.ltb_lt].
  split; [done|done|done|exact (files_grow_refl s fs rs)|done|]. simpl. intros _. lia.
Qed.

Lemma note_synced_behind s pt :
  pt.1 ≤ active_id s → behind pt (note_synced pt s).
Proof.
  intros Hle. unfold behind, note_synced. destruct (N.eqb_spec pt.1 (lw_file_id (s_writer s))) as [E|E]; simpl.
  - destruct (N.ltb_spec (lw_synced (s_writer s)) pt.2); simpl; right; (split; [done|simpl; lia]).
  - left. unfold active_id in *. lia.
Qed.

Lemma Covers_le s fs rs p h : SInv s fs rs → Covers (all_files s fs rs) p h → p.1 ≤ active_id s.
Proof.
  intros HI (F1 & q & q' & F2 & E & _). apply snoc_split in E as [(_ & _ & [= <- _])|(F2' & _ & ->)]; [done|].
  pose proof (sorted_snoc_lt _ _ p.1 (si_sorted _ _ _ HI)) as Hlt. rewrite fmap_app in Hlt.
  ospecialize (Hlt _); [set_solver|lia].
Qed.

(** What a synced point covers is what the store knows to be on the disk. *)
Lemma behind_synced s fs rs r0 p h :
  SInv s fs rs → r0 `prefix_of` rs → lw_synced (s_writer s) = blen (file_bytes r0) →
  Covers (all_files s fs rs) p h → behind p s → h `prefix_of` all_recs fs ++ r0.
Proof.
  intros HI Hr Hs Hc [Hlt|[Ha Hle]].
  - destruct Hc as (F1 & q & q' & F2 & E & _ & Hh). apply snoc_split in E as [(_ & _ & [= E _])|(F2' & _ & ->)].
    { rewrite E in Hlt. lia. }
    etrans; [exact Hh|]. rewrite all_recs_app, all_recs_cons, <-!(assoc_L (++)). by apply prefix_app, prefix_app_r.
  - destruct (Covers_active s fs rs p h HI Hc Ha) as (q & Hq & Hp & Hh). etrans; [exact Hh|].
    apply prefix_app, (prefix_by_len _ _ rs); [done..|]. lia.
Qed.

Lemma Covers_append_point s fs rs h :
  SInv s fs rs → h `prefix_of` all_recs fs ++ rs → Covers (all_files s fs rs) (append_point s) h.
Proof.
  intros HI Hh. exists fs, rs, [], []. rewrite app_nil_r. split_and!; [done| |done].
  by apply Wok_offset with (d := s_dir s), HI.
Qed.

Lemma behind_zero s : behind (active_id s, 0) s.
Proof. right. simpl. split; [done|lia]. Qed.

Lemma Covers_zero s fs rs : Covers (all_files s fs rs) (active_id s, 0) [].
Proof. exists fs, [], rs, []. split_and!; [done|done|apply prefix_nil]. Qed.
