(* ===== verification/Resp.v ===== *)
(** * The client protocol (src/resp.rs)

    Replies as the server writes them, commands and replies as they are read off a
    stream, with the parts of the standard library they rest on: UTF-8 validation,
    printing and parsing of decimal numbers. What is written is read back; whatever is
    read, nothing longer than the protocol's limits is ever accepted. *)

From S2P Require Import Prelude.

#[local] Open Scope N_scope.

(** ** Text *)

Definition in_range (lo hi : N) (b : byte) : bool := (lo <=? Byte.to_N b) && (Byte.to_N b <=? hi).
Definition is_cont : byte → bool := in_range 0x80 0xBF.

(** [String::from_utf8]: whether the bytes are UTF-8. *)
Fixpoint utf8_valid (l : bytes) : bool :=
  match l with
  | [] => true
  | b0 :: l =>
      if Byte.to_N b0 <? 0x80 then utf8_valid l
      else
        match l with
        | [] => false
        | b1 :: l =>
            if in_range 0xC2 0xDF b0 then is_cont b1 && utf8_valid l
            else
              match l with
              | [] => false
              | b2 :: l =>
                  if in_range 0xE0 0xEF b0 then
                    in_range (if Byte.to_N b0 =? 0xE0 then 0xA0 else 0x80)
                             (if Byte.to_N b0 =? 0xED then 0x9F else 0xBF) b1
                    && is_cont b2 && utf8_valid l
                  else
                    match l with
                    | [] => false
                    | b3 :: l =>
                        in_range 0xF0 0xF4 b0
                        && in_range (if Byte.to_N b0 =? 0xF0 then 0x90 else 0x80)
                                    (if Byte.to_N b0 =? 0xF4 then 0x8F else 0xBF) b1
                        && is_cont b2 && is_cont b3 && utf8_valid l
                    end
              end
        end
  end.

(** ** Numbers *)

Definition digit (n : N) : byte := u8 (48 + n).

(** The decimal digits of [n], in front of [acc]; [fuel] bounds their number. *)
Fixpoint show_digits (fuel : nat) (n : N) (acc : bytes) : bytes :=
  match fuel with
  | O => acc
  | S fuel =>
      let acc := digit (n mod 10) :: acc in
      if n <? 10 then acc else show_digits fuel (n / 10) acc
  end.

(** [{n}] for an unsigned number: a [u64] has at most twenty digits. *)
Definition show_N (n : N) : bytes := show_digits 20 n [].

(** [{n}] for an [i64]. *)
Definition show_Z (n : Z) : bytes :=
  if (n <? 0)%Z then x2d :: show_N (Z.to_N (- n)) else show_N (Z.to_N n).

Definition parse_digit (b : byte) : option N :=
  if in_range 48 57 b then Some (Byte.to_N b - 48) else None.

Fixpoint parse_digits (l : bytes) (acc : N) : option N :=
  match l with
  | [] => Some acc
  | b :: l => d ← parse_digit b; parse_digits l (acc * 10 + d)
  end.

(** [str::parse] for an unsigned integer up to [max]: digits, perhaps after a plus sign, that fit. *)
Definition parse_uint (max : N) (l : bytes) : option N :=
  let digits := match l with b :: rest => if bool_decide (b = x2b) then rest else l | [] => l end in
  if bool_decide (digits = []) then None
  else n ← parse_digits digits 0; if n <=? max then Some n else None.

Definition I64_MIN : Z := -9223372036854775808.
Definition I64_MAX : Z := 9223372036854775807.

(** [str::parse::<i64>]: a sign or none, then digits, and a value that fits. *)
Definition parse_i64 (l : bytes) : option Z :=
  let '(neg, digits) := match l with
                        | b :: r => if bool_decide (b = x2d) then (true, r)
                                    else if bool_decide (b = x2b) then (false, r) else (false, l)
                        | [] => (false, l)
                        end in
  if bool_decide (digits = []) then None
  else
    n ← parse_digits digits 0;
    let z := if neg : bool then (- Z.of_N n)%Z else Z.of_N n in
    if ((I64_MIN <=? z) && (z <=? I64_MAX))%Z then Some z else None.

(** ** The stream *)

Inductive RespError := InvalidData (detail : string) | UnexpectedEof (detail : string).

(** What reading from the stream gives: a value and the rest of it, or an error, after
    which the connection is closed. *)
Definition reader (A : Type) : Type := bytes → (A * bytes) + RespError.

#[export] Instance reader_ret : MRet reader := λ A a r, inl (a, r).
#[export] Instance reader_bind : MBind reader := λ A B f p r,
  match p r with inl (a, r') => f a r' | inr e => inr e end.

Definition r_fail {A} (e : RespError) : reader A := λ _, inr e.
Definition invalid {A} (detail : string) : reader A := r_fail (InvalidData detail).

Definition MAX_BULK_LEN : N := 512 * 1024 * 1024.
Definition MAX_ARRAY_LEN : N := 1024 * 1024.

(** [read_until(b'\n')], without the newline; whether there was one does not matter. *)
Fixpoint split_line (l : bytes) : bytes * bytes :=
  match l with
  | [] => ([], [])
  | b :: l => if bool_decide (b = x0a) then ([], l) else let '(a, r) := split_line l in (b :: a, r)
  end.

Definition strip_cr (l : bytes) : bytes :=
  match list.last l with Some x0d => take (length l - 1) l | _ => l end.

(** One line without its terminator. [None] at a clean end of stream. *)
Definition read_line : reader (option bytes) := λ r,
  match r with
  | [] => inl (None, [])
  | _ => let '(line, rest) := split_line r in inl (Some (strip_cr line), rest)
  end.

(** A length-prefixed payload plus its trailing CRLF. *)
Definition read_bulk (len : N) : reader bytes := λ r,
  if len + 2 <=? blen r then
    let buf := take (N.to_nat (len + 2)) r in
    if bool_decide (drop (N.to_nat len) buf = [x0d; x0a])
    then inl (take (N.to_nat len) buf, drop (N.to_nat (len + 2)) r)
    else inr (InvalidData "bulk string is not terminated by CRLF")
  else inr (UnexpectedEof "failed to fill whole buffer").

Definition text (l : bytes) : reader bytes :=
  if utf8_valid l then mret l else invalid "non-utf8 bytes in a protocol line".

(** The number after a [$] or [*]: [None] for -1. *)
Definition parse_len (digits : bytes) (max : N) : reader (option N) :=
  t ← text digits;
  match parse_i64 t with
  | None => invalid "length is not a number"
  | Some n =>
      if (n =? -1)%Z then mret None
      else if (n <? 0)%Z then invalid "negative length"
      else if max <? Z.to_N n then invalid "length exceeds the protocol limit"
      else mret (Some (Z.to_N n))
  end.

(** [for _ in 0..count], collecting. *)
Fixpoint r_repeat {A} (n : nat) (p : reader A) : reader (list A) :=
  match n with
  | O => mret []
  | S n => x ← p; l ← r_repeat n p; mret (x :: l)
  end.

(** ** Commands *)

Definition is_ascii_whitespace (b : byte) : bool :=
  match b with x20 | x09 | x0a | x0c | x0d => true | _ => false end.

(** [split] on whitespace, with the empty words filtered out. *)
Fixpoint words (l : bytes) (word : bytes) : list bytes :=
  let flush := if bool_decide (word = []) then [] else [word] in
  match l with
  | [] => flush
  | b :: l => if is_ascii_whitespace b then flush ++ words l [] else words l (word ++ [b])
  end.

(** One argument of a command array. *)
Definition read_arg : reader bytes :=
  line ← read_line;
  match line with
  | None => invalid "connection closed inside a command"
  | Some header =>
      match header with
      | x24 :: rest =>
          len ← parse_len rest MAX_BULK_LEN;
          match len with
          | None => invalid "null bulk string inside a command array"
          | Some len => read_bulk len
          end
      | _ => invalid "expected a bulk string inside a command array"
      end
  end.

Definition read_command : reader (option (list bytes)) :=
  line ← read_line;
  match line with
  | None => mret None
  | Some [] => mret (Some [])
  | Some (x2a :: rest) =>
      count ← parse_len rest MAX_ARRAY_LEN;
      match count with
      | None => mret (Some [])
      | Some count => args ← r_repeat (N.to_nat count) read_arg; mret (Some args)
      end
  | Some line => mret (Some (words line []))
  end.

(** ** Replies *)

Inductive Reply :=
  | Simple (s : bytes)
  | ErrorReply (s : bytes)
  | Integer (n : Z)
  | Bulk (bs : bytes)
  | Null
  | Array (items : list Reply).

Definition Reply_ok : Reply := Simple (lit "OK").
Definition Reply_err (message : bytes) : Reply := ErrorReply (lit "ERR " ++ message).

(** The prefixes are [+], [-], [:], [$] and [*]. *)
Definition CRLF : bytes := [x0d; x0a].

Fixpoint write_to (r : Reply) : bytes :=
  match r with
  | Simple s => x2b :: s ++ CRLF
  | ErrorReply s => x2d :: s ++ CRLF
  | Integer n => x3a :: show_Z n ++ CRLF
  | Bulk bs => x24 :: show_N (blen bs) ++ CRLF ++ bs ++ CRLF
  | Null => lit "$-1" ++ CRLF
  | Array items => x2a :: show_N (blen items) ++ CRLF ++ mjoin (write_to <$> items)
  end.

(** [fuel] bounds the depth of nested arrays: every level takes a line of the stream. *)
Fixpoint read_reply (fuel : nat) : reader Reply :=
  match fuel with
  | O => invalid "too deep"
  | S fuel =>
      line ← read_line;
      match line with
      | None => r_fail (UnexpectedEof "connection closed while waiting for a reply")
      | Some [] => invalid "empty line where a reply was expected"
      | Some (prefix :: rest) =>
          match prefix with
          | x2b => t ← text rest; mret (Simple t)
          | x2d => t ← text rest; mret (ErrorReply t)
          | x3a => t ← text rest;
                   match parse_i64 t with
                   | Some n => mret (Integer n)
                   | None => invalid "integer reply is not a number"
                   end
          | x24 => len ← parse_len rest MAX_BULK_LEN;
                   match len with
                   | Some len => bs ← read_bulk len; mret (Bulk bs)
                   | None => mret Null
                   end
          | x2a => count ← parse_len rest MAX_ARRAY_LEN;
                   match count with
                   | Some count => items ← r_repeat (N.to_nat count) (read_reply fuel); mret (Array items)
                   | None => mret Null
                   end
          | other => invalid "unknown reply type"
          end
      end
  end.

(** ** Numbers round-trip *)

Lemma digit_to_N n : n < 10 → Byte.to_N (digit n) = 48 + n.
Proof. intros H. unfold digit. rewrite to_N_u8. apply N.mod_small. lia. Qed.

Lemma digit_in_range n : n < 10 → in_range 48 57 (digit n) = true.
Proof.
  intros H. unfold in_range. rewrite digit_to_N by done. apply andb_true_iff. split; apply N.leb_le; lia.
Qed.

Lemma parse_digit_digit n : n < 10 → parse_digit (digit n) = Some n.
Proof.
  intros H. unfold parse_digit. rewrite digit_in_range, digit_to_N by done. f_equal. lia.
Qed.

Lemma show_digits_parse fuel n acc :
  n < 10 ^ N.of_nat fuel → parse_digits (show_digits fuel n acc) 0 = parse_digits acc n.
Proof.
  revert n acc. induction fuel as [|fuel IH]; intros n acc Hn.
  { change (10 ^ N.of_nat 0) with 1 in Hn. simpl. f_equal. lia. }
  cbn [show_digits]. pose proof (N.mod_lt n 10). pose proof (N.div_mod' n 10).
  destruct (N.ltb_spec n 10).
  - cbn [parse_digits]. rewrite parse_digit_digit by lia. simpl. f_equal. rewrite N.mod_small; lia.
  - rewrite IH.
    + cbn [parse_digits]. rewrite parse_digit_digit by lia. simpl. f_equal. lia.
    + rewrite Nat2N.inj_succ, N.pow_succ_r' in Hn. apply N.Div0.div_lt_upper_bound. lia.
Qed.

(** Digits only, and at least one. *)
Definition is_digit (b : byte) : bool := in_range 48 57 b.

Lemma show_digits_all fuel n acc :
  Forall is_digit acc → Forall is_digit (show_digits fuel n acc).
Proof.
  revert n acc. induction fuel as [|fuel IH]; intros n acc Hacc; [done|]. cbn [show_digits].
  assert (Forall is_digit (digit (n mod 10) :: acc)) as Hd.
  { constructor; [|done]. unfold is_digit. rewrite digit_in_range; [done|]. by apply N.mod_lt. }
  destruct (n <? 10); [done|by apply IH].
Qed.

Lemma show_digits_nonempty fuel n acc : acc ≠ [] → show_digits fuel n acc ≠ [].
Proof.
  revert n acc. induction fuel as [|fuel IH]; intros n acc Hacc; [done|]. cbn [show_digits].
  destruct (n <? 10); [done|by apply IH].
Qed.

Lemma show_N_digits n : Forall is_digit (show_N n).
Proof. by apply show_digits_all. Qed.

Lemma show_N_nonempty n : show_N n ≠ [].
Proof.
  assert (∀ fuel, show_digits (S fuel) n [] ≠ []) as H; [|apply H].
  intros fuel. cbn [show_digits]. destruct (n <? 10); [done|]. by apply show_digits_nonempty.
Qed.
#[local] Opaque show_N.

Lemma show_N_parse n : is_u64 n → parse_digits (show_N n) 0 = Some n.
Proof.
  intros Hn. Transparent show_N. unfold show_N. Opaque show_N. rewrite show_digits_parse; [done|].
  unfold is_u64, TWO64 in Hn. change (10 ^ N.of_nat 20) with 100000000000000000000. lia.
Qed.

Lemma digit_not_sign b : is_digit b → b ≠ x2d ∧ b ≠ x2b ∧ b ≠ x0a.
Proof. intros H. split_and!; intros ->; vm_compute in H; done. Qed.

Lemma digits_parse_i64 l n :
  Forall is_digit l → l ≠ [] → parse_digits l 0 = Some n → (Z.of_N n <= I64_MAX)%Z → parse_i64 l = Some (Z.of_N n).
Proof.
  intros Hd Hne Hp Hm. destruct l as [|b l]; [done|]. apply Forall_cons_1 in Hd as [Hb Hd].
  apply digit_not_sign in Hb as (Hb1 & Hb2 & _).
  unfold parse_i64. rewrite (bool_decide_false _ Hb1), (bool_decide_false _ Hb2), (bool_decide_false (_ :: _ = _)) by done.
  rewrite Hp. simpl.
  rewrite (proj2 (Z.leb_le I64_MIN _)), (proj2 (Z.leb_le _ I64_MAX)) by (unfold I64_MIN; lia). done.
Qed.

Lemma show_N_parse_uint max n : n ≤ max → is_u64 n → parse_uint max (show_N n) = Some n.
Proof.
  intros Hmax Hn. unfold parse_uint. pose proof (show_N_digits n) as Hd. pose proof (show_N_nonempty n) as Hne.
  destruct (show_N n) as [|b rest] eqn:E; [done|]. apply Forall_cons_1 in Hd as [Hb _].
  rewrite (bool_decide_false (b = x2b)) by (by intros ->). rewrite bool_decide_false by done.
  rewrite <-E, show_N_parse by done. simpl. by rewrite (proj2 (N.leb_le _ _)).
Qed.

Lemma show_N_parse_i64 n : (Z.of_N n <= I64_MAX)%Z → parse_i64 (show_N n) = Some (Z.of_N n).
Proof.
  intros Hn. apply digits_parse_i64; [apply show_N_digits|apply show_N_nonempty| |done].
  apply show_N_parse. unfold is_u64, TWO64, I64_MAX in *. lia.
Qed.

Definition is_i64 (z : Z) : Prop := (I64_MIN <= z <= I64_MAX)%Z.

Lemma show_Z_parse z : is_i64 z → parse_i64 (show_Z z) = Some z.
Proof.
  intros [H1 H2]. unfold show_Z. destruct (Z.ltb_spec z 0).
  - unfold parse_i64. rewrite (bool_decide_true (x2d = x2d)) by done.
    rewrite (bool_decide_false (_ = [])) by apply show_N_nonempty.
    rewrite show_N_parse by (unfold is_u64, TWO64, I64_MIN in *; lia). simpl. rewrite Z2N.id by lia.
    rewrite Z.opp_involutive. rewrite (proj2 (Z.leb_le I64_MIN z)), (proj2 (Z.leb_le z I64_MAX)) by done. done.
  - rewrite show_N_parse_i64 by (rewrite Z2N.id; lia). by rewrite Z2N.id by lia.
Qed.

(** ** Lines round-trip *)

Lemma digit_utf8 l : Forall is_digit l → utf8_valid l.
Proof.
  induction 1 as [|b l Hb _ IH]; [done|]. cbn [utf8_valid]. unfold is_digit, in_range in Hb.
  apply andb_prop_elim in Hb as [_ Hb]. apply Is_true_true, N.leb_le in Hb.
  rewrite (proj2 (N.ltb_lt _ _)); [done|]. lia.
Qed.

Lemma digit_no_newline l : Forall is_digit l → x0a ∉ l.
Proof. intros Hl Hin. rewrite list.Forall_forall in Hl. by destruct (digit_not_sign _ (Hl _ Hin)) as (_ & _ & ?). Qed.

Lemma show_Z_text z : utf8_valid (show_Z z) ∧ x0a ∉ show_Z z.
Proof.
  unfold show_Z. destruct (z <? 0)%Z.
  - split; [|].
    + change (utf8_valid (show_N (Z.to_N (- z)))). apply digit_utf8, show_N_digits.
    + apply not_elem_of_cons. split; [done|]. apply digit_no_newline, show_N_digits.
  - split; [apply digit_utf8, show_N_digits|apply digit_no_newline, show_N_digits].
Qed.

Lemma split_line_app l rest : x0a ∉ l → split_line (l ++ x0a :: rest) = (l, rest).
Proof.
  induction l as [|b l IH]; intros Hl; [done|]. cbn [app split_line].
  apply not_elem_of_cons in Hl as [Hb Hl]. rewrite bool_decide_false by done. by rewrite IH.
Qed.

Lemma strip_cr_snoc l : strip_cr (l ++ [x0d]) = l.
Proof.
  unfold strip_cr. rewrite last_snoc, length_app. simpl. replace (length l + 1 - 1)%nat with (length l) by lia.
  apply take_app_length.
Qed.

Lemma read_line_app l rest : x0a ∉ l → read_line (l ++ CRLF ++ rest) = inl (Some l, rest).
Proof.
  intros Hl. assert (l ++ CRLF ++ rest = (l ++ [x0d]) ++ x0a :: rest) as -> by (by rewrite <-(assoc_L (++))).
  unfold read_line. rewrite split_line_app.
  - rewrite strip_cr_snoc. by destruct ((l ++ [x0d]) ++ x0a :: rest) eqn:E; [destruct l|].
  - rewrite elem_of_app, list_elem_of_singleton. naive_solver.
Qed.

Lemma read_bulk_app bs rest : read_bulk (blen bs) (bs ++ CRLF ++ rest) = inl (bs, rest).
Proof.
  unfold read_bulk. rewrite !blen_app. change (blen CRLF) with 2.
  rewrite (proj2 (N.leb_le _ _)) by lia. rewrite (assoc_L (++)).
  assert (N.to_nat (blen bs + 2) = length (bs ++ CRLF)) as -> by (rewrite length_app; unfold blen; simpl; lia).
  rewrite take_app_length, drop_app_length. unfold blen. rewrite Nat2N.id, drop_app_length, take_app_length.
  by rewrite bool_decide_true.
Qed.

Lemma parse_len_show n max rest :
  n ≤ max → (Z.of_N max <= I64_MAX)%Z → parse_len (show_N n) max rest = inl (Some n, rest).
Proof.
  intros Hn Hm. unfold parse_len, text. rewrite (Is_true_true_1 _ (digit_utf8 _ (show_N_digits n))).
  unfold mbind, reader_bind, mret, reader_ret at 1. rewrite show_N_parse_i64 by lia.
  rewrite (proj2 (Z.eqb_neq _ _)), (proj2 (Z.ltb_ge _ _)), N2Z.id, (proj2 (N.ltb_ge _ _)) by lia. done.
Qed.

(** ** Replies round-trip *)

(** Text that stays on its line. *)
Definition text_ok (s : bytes) : Prop := utf8_valid s ∧ x0a ∉ s.

(** What the server may send: text without newlines, numbers and lengths in range. *)
Fixpoint reply_wf (r : Reply) : Prop :=
  match r with
  | Simple s | ErrorReply s => text_ok s
  | Integer n => is_i64 n
  | Bulk bs => blen bs ≤ MAX_BULK_LEN
  | Null => True
  | Array items => blen items ≤ MAX_ARRAY_LEN ∧ foldr (λ r P, reply_wf r ∧ P) True items
  end.

Fixpoint depth (r : Reply) : nat :=
  match r with
  | Array items => S (foldr (λ r n, Nat.max (depth r) n) 0%nat items)
  | _ => 1%nat
  end.

Fixpoint Reply_rect' (P : Reply → Prop) (Hs : ∀ s, P (Simple s)) (He : ∀ s, P (ErrorReply s))
    (Hi : ∀ n, P (Integer n)) (Hb : ∀ bs, P (Bulk bs)) (Hn : P Null)
    (Ha : ∀ items, Forall P items → P (Array items)) (r : Reply) {struct r} : P r :=
  match r with
  | Simple s => Hs s
  | ErrorReply s => He s
  | Integer n => Hi n
  | Bulk bs => Hb bs
  | Null => Hn
  | Array items => Ha items ((fix go l : Forall P l :=
      match l with
      | [] => List.Forall_nil P
      | x :: l => @List.Forall_cons _ P x l (Reply_rect' P Hs He Hi Hb Hn Ha x) (go l)
      end) items)
  end.

Lemma text_app s rest : utf8_valid s → text s rest = inl (s, rest).
Proof. intros H. unfold text. by rewrite (Is_true_true_1 _ H). Qed.

(** A line that starts with a one-byte prefix. *)
Lemma read_prefixed b s rest :
  b ≠ x0a → x0a ∉ s → read_line (b :: s ++ CRLF ++ rest) = inl (Some (b :: s), rest).
Proof. intros Hb Hs. apply (read_line_app (b :: s)). by apply not_elem_of_cons. Qed.

Lemma r_repeat_app {A} (p : reader A) (w : A → bytes) l rest :
  (∀ x rest, x ∈ l → p (w x ++ rest) = inl (x, rest)) →
  r_repeat (length l) p (mjoin (w <$> l) ++ rest) = inl (l, rest).
Proof.
  revert rest. induction l as [|x l IH]; intros rest Hp; [done|].
  cbn [length r_repeat fmap list_fmap mjoin list_join]. unfold mbind, reader_bind at 1. rewrite <-(assoc_L (++)).
  rewrite Hp by apply list_elem_of_here. fold (@mbind reader _). unfold mbind, reader_bind.
  rewrite IH; [done|]. intros y r Hy. apply Hp. by apply list_elem_of_further.
Qed.

Lemma max_array_i64 : (Z.of_N MAX_ARRAY_LEN <= I64_MAX)%Z.
Proof. done. Qed.
Lemma max_bulk_i64 : (Z.of_N MAX_BULK_LEN <= I64_MAX)%Z.
Proof. done. Qed.

Lemma read_write_reply r fuel rest :
  reply_wf r → (depth r ≤ fuel)%nat → read_reply fuel (write_to r ++ rest) = inl (r, rest).
Proof.
  revert fuel rest. induction r as [s|s|n|bs| |items IH] using Reply_rect'; intros fuel rest Hwf Hd;
    (destruct fuel as [|fuel]; [simpl in Hd; lia|]); cbn [read_reply write_to].
  - destruct Hwf as [Hu Hn]. cbn [app]. rewrite <-!(assoc_L (++)). unfold mbind, reader_bind at 1.
    rewrite (read_prefixed x2b) by done. unfold reader_bind. by rewrite text_app.
  - destruct Hwf as [Hu Hn]. cbn [app]. rewrite <-!(assoc_L (++)). unfold mbind, reader_bind at 1.
    rewrite (read_prefixed x2d) by done. unfold reader_bind. by rewrite text_app.
  - destruct (show_Z_text n) as [Hu Hn]. cbn [app]. rewrite <-!(assoc_L (++)). unfold mbind, reader_bind at 1.
    rewrite (read_prefixed x3a) by done. unfold reader_bind. rewrite text_app by done. by rewrite show_Z_parse.
  - cbn [app]. rewrite <-!(assoc_L (++)). unfold mbind, reader_bind at 1.
    rewrite (read_prefixed x24) by (done || apply digit_no_newline, show_N_digits).
    unfold reader_bind. rewrite parse_len_show by (done || apply max_bulk_i64). by rewrite read_bulk_app.
  - done.
  - destruct Hwf as [Hl Hwf]. cbn [app]. rewrite <-!(assoc_L (++)). unfold mbind, reader_bind at 1.
    rewrite (read_prefixed x2a) by (done || apply digit_no_newline, show_N_digits).
    unfold reader_bind at 1. rewrite parse_len_show by (done || apply max_array_i64).
    unfold blen. rewrite Nat2N.id. unfold reader_bind. rewrite r_repeat_app; [done|].
    clear Hl. cbn [depth] in Hd. apply le_S_n in Hd. revert Hwf Hd.
    induction IH as [|x items Hx IH' IHi]; intros Hwf Hd y rest' Hy; [by apply not_elem_of_nil in Hy|].
    simpl in Hwf, Hd. destruct Hwf as [Hwx Hwf]. apply elem_of_cons in Hy as [->|Hy]; [apply Hx; [done|lia]|].
    apply IHi; [done|lia|done].
Qed.

Lemma depth_le r : (depth r ≤ length (write_to r))%nat.
Proof.
  induction r as [s|s|n|bs| |items IH] using Reply_rect'; cbn [depth write_to length]; try lia; [simpl; lia|].
  apply le_n_S. rewrite !length_app.
  assert (foldr (λ r n, Nat.max (depth r) n) 0%nat items ≤ length (mjoin (write_to <$> items)))%nat; [|lia].
  induction IH as [|x items Hx _ IHi]; [done|]. cbn [foldr].
  change (mjoin (write_to <$> x :: items)) with (write_to x ++ mjoin (write_to <$> items)). rewrite length_app. lia.
Qed.

(** What the server writes is what a client reads. Any reply with its text on one line
    and its numbers and lengths in range, nested arrays included, is read back as itself,
    and exactly its bytes are consumed, whatever follows on the stream. *)
Theorem reply_roundtrip (r : Reply) (rest : bytes) :
  reply_wf r → read_reply (S (length (write_to r ++ rest))) (write_to r ++ rest) = inl (r, rest).
Proof. intros Hwf. apply read_write_reply; [done|]. pose proof (depth_le r). rewrite length_app. lia. Qed.

Lemma reply_roundtrip_witness :
  let r := Array [Bulk (lit "green"); Integer (-7); Array [Null; Simple (lit "OK")]] in
  read_reply (S (length (write_to r ++ lit "+next"))) (write_to r ++ lit "+next") = inl (r, lit "+next").
Proof.
  apply reply_roundtrip. cbn [reply_wf foldr]. unfold is_i64, text_ok.
  repeat (split || lia); try done; by apply (bool_decide_unpack _).
Defined.

(** ** Commands round-trip *)

Definition command_ok (args : list bytes) : Prop :=
  blen args ≤ MAX_ARRAY_LEN ∧ Forall (λ a, blen a ≤ MAX_BULK_LEN) args.

Lemma read_arg_app a rest : blen a ≤ MAX_BULK_LEN → read_arg (write_to (Bulk a) ++ rest) = inl (a, rest).
Proof.
  intros Ha. unfold read_arg. cbn [write_to app]. rewrite <-!(assoc_L (++)). unfold mbind, reader_bind at 1.
  rewrite (read_prefixed x24) by (done || apply digit_no_newline, show_N_digits).
  unfold reader_bind. rewrite parse_len_show by (done || apply max_bulk_i64). by rewrite read_bulk_app.
Qed.

(** A command sent as an array of bulk strings, binary or not, is read as exactly its
    arguments, and the stream is left at the next command. *)
Theorem command_roundtrip (args : list bytes) (rest : bytes) :
  command_ok args → read_command (write_to (Array (Bulk <$> args)) ++ rest) = inl (Some args, rest).
Proof.
  intros [Hl Ha]. unfold read_command. cbn [write_to app]. rewrite <-!(assoc_L (++)). unfold mbind, reader_bind at 1.
  rewrite (read_prefixed x2a) by (done || apply digit_no_newline, show_N_digits).
  unfold reader_bind at 1. unfold blen. rewrite length_fmap. fold (blen args).
  rewrite parse_len_show by (done || apply max_array_i64).
  unfold blen. rewrite Nat2N.id, <-list_fmap_compose. unfold reader_bind.
  rewrite (r_repeat_app read_arg (write_to ∘ Bulk)); [done|].
  intros a r Hin. apply read_arg_app. rewrite list.Forall_forall in Ha. by apply Ha.
Qed.

Lemma command_roundtrip_witness :
  read_command (write_to (Array (Bulk <$> [lit "SET"; lit "k"; [x0d; x0a; x00]])) ++ lit "next")
    = inl (Some [lit "SET"; lit "k"; [x0d; x0a; x00]], lit "next").
Proof. apply command_roundtrip. split; [done|]. by repeat constructor. Defined.

(** ** Whatever comes *)

(** A reader that takes what it reads off the front of the stream. *)
Definition consumes {A} (p : reader A) : Prop := ∀ l a rest, p l = inl (a, rest) → rest `suffix_of` l.

Lemma consumes_bind {A B} (p : reader A) (f : A → reader B) :
  consumes p → (∀ a, consumes (f a)) → consumes (p ≫= f).
Proof.
  intros Hp Hf l b rest E. unfold mbind, reader_bind in E. destruct (p l) as [[a r]|] eqn:Ep; [|done].
  etrans; [by eapply Hf|by eapply Hp].
Qed.

Lemma consumes_ret {A} (a : A) : consumes (mret a).
Proof. by intros l a' rest [= -> ->]. Qed.

Lemma consumes_fail {A} e : consumes (r_fail e : reader A).
Proof. by intros l a rest. Qed.

Lemma split_line_suffix l : (split_line l).2 `suffix_of` l.
Proof.
  induction l as [|b l IH]; [done|]. cbn [split_line]. case_bool_decide; [by exists [b]|].
  destruct (split_line l) as [a r]. by apply suffix_cons_r.
Qed.

Lemma consumes_line : consumes read_line.
Proof.
  intros l a rest E. unfold read_line in E. destruct l as [|b l]; [by injection E as <- <-|].
  pose proof (split_line_suffix (b :: l)) as Hs. destruct (split_line (b :: l)) as [line r].
  by injection E as <- <-.
Qed.

Lemma consumes_bulk n : consumes (read_bulk n).
Proof.
  intros l a rest E. unfold read_bulk in E. destruct (_ <=? _); [|done]. case_bool_decide; [|done].
  injection E as <- <-. apply suffix_drop.
Qed.

Lemma consumes_text s : consumes (text s).
Proof. unfold text. destruct (utf8_valid s); [apply consumes_ret|apply consumes_fail]. Qed.

Lemma consumes_len digits max : consumes (parse_len digits max).
Proof.
  apply consumes_bind; [apply consumes_text|]. intros t. destruct (parse_i64 t) as [n|]; [|apply consumes_fail].
  destruct (n =? -1)%Z; [apply consumes_ret|]. destruct (n <? 0)%Z; [apply consumes_fail|].
  destruct (_ <? _); [apply consumes_fail|apply consumes_ret].
Qed.

Lemma consumes_repeat {A} n (p : reader A) : consumes p → consumes (r_repeat n p).
Proof.
  intros Hp. induction n as [|n IH]; cbn [r_repeat]; [apply consumes_ret|].
  apply consumes_bind; [done|]. intros x. apply consumes_bind; [done|]. intros l. apply consumes_ret.
Qed.

Lemma consumes_reply fuel : consumes (read_reply fuel).
Proof.
  induction fuel as [|fuel IH]; cbn [read_reply]; [apply consumes_fail|].
  apply consumes_bind; [apply consumes_line|]. intros [[|prefix rest]|]; try apply consumes_fail.
  destruct prefix; try apply consumes_fail;
    (apply consumes_bind; [apply consumes_text || apply consumes_len|]; intros x);
    try apply consumes_ret.
  - destruct x as [len|]; [|apply consumes_ret]. apply consumes_bind; [apply consumes_bulk|intros; apply consumes_ret].
  - destruct x as [n|]; [|apply consumes_ret].
    apply consumes_bind; [by apply consumes_repeat|intros; apply consumes_ret].
  - destruct (parse_i64 x); [apply consumes_ret|apply consumes_fail].
Qed.

(** Readers that agree on every stream no longer than this one. *)
Lemma r_repeat_ext {A} n (p q : reader A) l :
  consumes p → (∀ l', l' `suffix_of` l → p l' = q l') → r_repeat n p l = r_repeat n q l.
Proof.
  intros Hp. revert l. induction n as [|n IH]; intros l E; [done|]. cbn [r_repeat]. unfold mbind, reader_bind.
  rewrite <-E by done. destruct (p l) as [[x r]|] eqn:Ep; [|done]. apply Hp in Ep.
  rewrite (IH r); [done|]. intros l' Hl. apply E. by etrans.
Qed.

Lemma read_line_shorter l x rest : read_line l = inl (Some x, rest) → (length rest < length l)%nat.
Proof.
  unfold read_line. destruct l as [|b l]; [done|]. cbn [split_line]. pose proof (split_line_suffix l) as Hs.
  case_bool_decide; [intros [= _ <-]; simpl; lia|].
  destruct (split_line l) as [a r]. intros [= _ <-]. apply suffix_length in Hs. simpl in *. lia.
Qed.

(** More fuel than the stream has bytes makes no difference: the depth of nesting a
    stream can ask for is bounded by its length. *)
Lemma read_reply_fuel fuel fuel' l :
  (length l < fuel)%nat → (length l < fuel')%nat → read_reply fuel l = read_reply fuel' l.
Proof.
  revert fuel' l. induction fuel as [|fuel IH]; intros [|fuel'] l H H'; try lia.
  cbn [read_reply]. unfold mbind, reader_bind. destruct (read_line l) as [[[line|] rest]|] eqn:El; try done.
  apply read_line_shorter in El. destruct line as [|prefix line]; [done|]. destruct prefix; try done.
  destruct (parse_len line MAX_ARRAY_LEN rest) as [[[n|] rest']|] eqn:Ep; try done.
  apply consumes_len, suffix_length in Ep.
  rewrite (r_repeat_ext _ _ (read_reply fuel')); [done|apply consumes_reply|].
  intros l' Hl%suffix_length. apply IH; lia.
Qed.

Lemma strip_cr_prefix l : strip_cr l `prefix_of` l.
Proof. unfold strip_cr. destruct (list.last l) as [[]|]; try done. apply prefix_take. Qed.

(** A line starts as the stream does. *)
Lemma read_line_head l b line rest : read_line l = inl (Some (b :: line), rest) → head l = Some b.
Proof.
  unfold read_line. destruct l as [|c l]; [done|]. cbn [split_line]. case_bool_decide; [done|].
  destruct (split_line l) as [a r]. intros [= E _]. pose proof (strip_cr_prefix (c :: a)) as Hp. rewrite E in Hp.
  apply prefix_cons_inv_1 in Hp. by subst.
Qed.

(** A word of an inline command. *)
Definition word_ok (w : bytes) : Prop := w ≠ [] ∧ Forall (λ b, is_ascii_whitespace b = false) w.

Lemma words_ok l word : Forall (λ b, is_ascii_whitespace b = false) word → Forall word_ok (words l word).
Proof.
  revert word. induction l as [|b l IH]; intros word Hw; cbn [words].
  - case_bool_decide; [constructor|]. by apply Forall_singleton.
  - destruct (is_ascii_whitespace b) eqn:Eb.
    + apply Forall_app. split; [|by apply IH]. case_bool_decide; [constructor|]. by apply Forall_singleton.
    + apply IH, Forall_app. by split; [|apply Forall_singleton].
Qed.

Lemma parse_len_max digits max l n rest : parse_len digits max l = inl (Some n, rest) → n ≤ max.
Proof.
  unfold parse_len, mbind, reader_bind. destruct (text digits l) as [[t r]|]; [|done].
  destruct (parse_i64 t) as [z|]; [|done]. destruct (z =? -1)%Z; [done|]. destruct (z <? 0)%Z; [done|].
  destruct (N.ltb_spec max (Z.to_N z)); [done|]. by intros [= <- _].
Qed.

Lemma read_arg_max l a rest : read_arg l = inl (a, rest) → blen a ≤ MAX_BULK_LEN.
Proof.
  unfold read_arg, mbind, reader_bind at 1. destruct (read_line l) as [[[[|b line]|] r]|]; try done.
  destruct b; try done. unfold reader_bind. destruct (parse_len line MAX_BULK_LEN r) as [[[n|] r']|] eqn:Ep; try done.
  apply parse_len_max in Ep. unfold read_bulk. destruct (_ <=? _) eqn:El; [|done]. case_bool_decide; [|done].
  intros [= <- _]. unfold blen. rewrite !length_take. lia.
Qed.

Lemma consumes_arg : consumes read_arg.
Proof.
  apply consumes_bind; [apply consumes_line|]. intros [[|b line]|]; try apply consumes_fail.
  destruct b; try apply consumes_fail. apply consumes_bind; [apply consumes_len|].
  intros [n|]; [apply consumes_bulk|apply consumes_fail].
Qed.

Lemma r_repeat_all {A} (P : A → Prop) n (p : reader A) l xs rest :
  (∀ l a r, p l = inl (a, r) → P a) → r_repeat n p l = inl (xs, rest) → length xs = n ∧ Forall P xs.
Proof.
  intros Hp. revert l xs rest. induction n as [|n IH]; intros l xs rest; cbn [r_repeat].
  - intros [= <- _]. by split.
  - unfold mbind, reader_bind. destruct (p l) as [[x r]|] eqn:Ep; [|done].
    destruct (r_repeat n p r) as [[ys r']|] eqn:Er; [|done]. intros [= <- _].
    apply IH in Er as [Hl Hall]. split; [simpl; lia|]. constructor; [by eapply Hp|done].
Qed.

(** No input makes the server accept more than the protocol's limits. Whatever bytes
    arrive, a command that is read was taken off the front of the stream; sent as an
    array, it has at most [MAX_ARRAY_LEN] arguments of at most [MAX_BULK_LEN] bytes;
    sent as a line, its arguments are words, none of them empty. *)
Theorem command_within_limits (l : bytes) (args : list bytes) (rest : bytes) :
  read_command l = inl (Some args, rest) →
  rest `suffix_of` l ∧ (head l = Some x2a → command_ok args) ∧ (head l ≠ Some x2a → Forall word_ok args).
Proof.
  intros E. split; [|].
  - revert E. apply (consumes_bind read_line _ consumes_line). intros [[|b line]|]; try apply consumes_ret.
    destruct b; try apply consumes_ret. apply consumes_bind; [apply consumes_len|].
    intros [n|]; [|apply consumes_ret]. apply consumes_bind; [apply consumes_repeat, consumes_arg|intros; apply consumes_ret].
  - unfold read_command, mbind, reader_bind at 1 in E.
    destruct (read_line l) as [[[line|] r]|] eqn:El; try done. destruct line as [|b line].
    { injection E as <- _. done. }
    apply read_line_head in El. rewrite El.
    destruct (decide (b = x2a)) as [->|Hb].
    + split; [intros _|done]. unfold reader_bind in E.
      destruct (parse_len line MAX_ARRAY_LEN r) as [[[n|] r']|] eqn:Ep; [|by injection E as <- _|done].
      apply parse_len_max in Ep. destruct (r_repeat (N.to_nat n) read_arg r') as [[xs r'']|] eqn:Er; [|done].
      injection E as <- _. apply (r_repeat_all (λ a, blen a ≤ MAX_BULK_LEN)) in Er as [Hlen Hall]; [|apply read_arg_max].
      split; [unfold blen; lia|done].
    + split; [congruence|]. intros _.
      assert (args = words (b :: line) []) as ->; [|by apply words_ok].
      destruct b; try done; by injection E.
Qed.

Lemma command_within_limits_witness :
  ∃ args rest, read_command (lit "*1\" ++ CRLF) = inr (InvalidData "length is not a number") ∧
    read_command (lit "  GET  k " ++ CRLF) = inl (Some args, rest) ∧ Forall word_ok args.
Proof.
  exists [lit "GET"; lit "k"], []. split; [done|]. split; [done|].
  apply (command_within_limits (lit "  GET  k " ++ CRLF) _ []); done.
Defined.
