(* ===== verification/Server.v ===== *)
(** * The server's commands (src/server.rs)

    [dispatch] runs one command against the store, [glob_match] is the pattern matching of
    [KEYS]. A command does to the store what its specification does to a map, and replies
    as the specification says; the reply to a write waits for the store's append point. *)

From S2P Require Import Prelude.
From S2P Require Import Crc.
From S2P Require Import RecordFormat.
From S2P Require Import DataLog.
From S2P Require Import HintFile.
From S2P Require Import Store.
From S2P Require Import StoreIndex.
From S2P Require Import StoreInv.
From S2P Require Import StoreOps.
From S2P Require Import StoreMap.
From S2P Require Import KeyOrder.
From S2P Require Import Resp.

#[local] Open Scope N_scope.
#[local] Opaque rec_bytes.

(** ** Text *)

Definition REPLACEMENT : bytes := [xef; xbf; xbd].

(** [String::from_utf8_lossy]: each ill-formed sequence becomes one replacement
    character; a sequence cut short counts as far as it went well. *)
Fixpoint utf8_lossy (l : bytes) : bytes :=
  match l with
  | [] => []
  | b0 :: l1 =>
      if Byte.to_N b0 <? 0x80 then b0 :: utf8_lossy l1
      else if negb (in_range 0xC2 0xF4 b0) then REPLACEMENT ++ utf8_lossy l1
      else
        match l1 with
        | [] => REPLACEMENT
        | b1 :: l2 =>
            let lo := if Byte.to_N b0 =? 0xE0 then 0xA0 else if Byte.to_N b0 =? 0xF0 then 0x90 else 0x80 in
            let hi := if Byte.to_N b0 =? 0xED then 0x9F else if Byte.to_N b0 =? 0xF4 then 0x8F else 0xBF in
            if negb (in_range lo hi b1) then REPLACEMENT ++ utf8_lossy l1
            else if Byte.to_N b0 <? 0xE0 then b0 :: b1 :: utf8_lossy l2
            else
              match l2 with
              | [] => REPLACEMENT
              | b2 :: l3 =>
                  if negb (is_cont b2) then REPLACEMENT ++ utf8_lossy l2
                  else if Byte.to_N b0 <? 0xF0 then b0 :: b1 :: b2 :: utf8_lossy l3
                  else
                    match l3 with
                    | [] => REPLACEMENT
                    | b3 :: l4 =>
                        if negb (is_cont b3) then REPLACEMENT ++ utf8_lossy l3
                        else b0 :: b1 :: b2 :: b3 :: utf8_lossy l4
                    end
              end
        end
  end.

Definition ascii_upper (b : byte) : byte := if in_range 97 122 b then u8 (Byte.to_N b - 32) else b.
Definition ascii_lower (b : byte) : byte := if in_range 65 90 b then u8 (Byte.to_N b + 32) else b.
Definition to_ascii_uppercase (l : bytes) : bytes := ascii_upper <$> l.
Definition to_ascii_lowercase (l : bytes) : bytes := ascii_lower <$> l.

(** [{n:010}]. *)
Definition show_padded (n : N) : bytes := let d := show_N n in replicate (10 - length d) x30 ++ d.

(** [Display] of an error. *)
Definition error_display (e : Error) : bytes :=
  match e with
  | Io why => lit "io error: " ++ lit why
  | Corrupt file_id offset detail =>
      lit "corrupt record in " ++ show_padded file_id ++ lit ".log at offset " ++ show_N offset ++ lit ": " ++ lit detail
  | InvalidKey why => lit "invalid key: " ++ lit why
  | ValueTooLarge n => lit "value of " ++ show_N n ++ lit " bytes exceeds the u32 length prefix"
  end.

(** ** Patterns *)

(** [*], [?] and backslash escapes; [fuel] above the two lengths together is enough. *)
Fixpoint glob_match_fuel (fuel : nat) (pattern text : bytes) : bool :=
  match fuel with
  | O => false
  | S fuel =>
      match pattern with
      | [] => bool_decide (text = [])
      | p :: rest =>
          if bool_decide (p = x2a) then
            glob_match_fuel fuel rest text ||
            match text with [] => false | _ :: text_rest => glob_match_fuel fuel pattern text_rest end
          else
            match text with
            | [] => false
            | t :: text_rest =>
                if bool_decide (p = x3f) then glob_match_fuel fuel rest text_rest
                else if bool_decide (p = x5c) && negb (bool_decide (rest = [])) then
                  bool_decide (head rest = Some t) && glob_match_fuel fuel (tail rest) text_rest
                else bool_decide (p = t) && glob_match_fuel fuel rest text_rest
            end
      end
  end.

Definition glob_match (pattern text : bytes) : bool :=
  glob_match_fuel (S (length pattern + length text)) pattern text.

(** ** Commands *)

(** The clock, reading by reading: the [i]th write of a command reads it twice. *)
Definition clock := nat → N.

Definition server_put (c : clock) (i : nat) (key value : bytes) : M Store unit := λ s,
  match o_sync (s_opts s) with
  | EveryWrite => put_deferred key value (c (2 * i)%nat) (c (2 * i + 1)%nat) s
  | OsCache => store_put key value (c (2 * i)%nat) (c (2 * i + 1)%nat) s
  end.

Definition server_delete (c : clock) (i : nat) (key : bytes) : M Store bool := λ s,
  match o_sync (s_opts s) with
  | EveryWrite => delete_deferred key (c (2 * i)%nat) (c (2 * i + 1)%nat) s
  | OsCache => store_delete key (c (2 * i)%nat) (c (2 * i + 1)%nat) s
  end.

(** The order on points: a later file, or further in the same one. *)
Definition point_lt (p q : N * N) : bool := (p.1 <? q.1) || ((p.1 =? q.1) && (p.2 <? q.2)).

Definition must_reach (s : Store) (durable_by : option (N * N)) : option (N * N) :=
  match o_sync (s_opts s) with
  | EveryWrite =>
      let point := append_point s in
      match durable_by with
      | None => Some point
      | Some p => if point_lt p point then Some point else durable_by
      end
  | OsCache => durable_by
  end.

Definition bulk_or_null (value : option bytes) : Reply :=
  match value with Some v => Bulk v | None => Null end.

(** What the options of [SET] ask for: only if missing, only if present; [None] for
    anything else among them. *)
Fixpoint set_options (options : list bytes) (nx xx : bool) : option (bool * bool) :=
  match options with
  | [] => Some (nx, xx)
  | o :: options =>
      if bool_decide (to_ascii_uppercase o = lit "NX") then set_options options true xx
      else if bool_decide (to_ascii_uppercase o = lit "XX") then set_options options nx true
      else None
  end.

Definition server_set (c : clock) (key value : bytes) (options : list bytes) : M Store Reply := λ s,
  match set_options options false false with
  | None | Some (true, true) => (Ok (Reply_err (lit "syntax error")), s)
  | Some (nx, xx) =>
      let present := contains_key s key in
      if (nx && present) || (xx && negb present) then (Ok Null, s)
      else (server_put c 0 key value ;; mret Reply_ok) s
  end.

(** [count] of a batch of deletes, the first of them the [i]th write. *)
Fixpoint count_deletes (c : clock) (i : nat) (keys : list bytes) (n : Z) : M Store Reply :=
  match keys with
  | [] => mret (Integer n)
  | k :: keys => deleted ← server_delete c i k; count_deletes c (S i) keys (if deleted : bool then n + 1 else n)%Z
  end.

Fixpoint put_pairs (c : clock) (i : nat) (pairs : list bytes) : M Store unit :=
  match pairs with
  | k :: v :: pairs => server_put c i k v ;; put_pairs c (S i) pairs
  | _ => mret tt
  end.

Fixpoint delete_all (c : clock) (i : nat) (keys : list bytes) : M Store unit :=
  match keys with
  | [] => mret tt
  | k :: keys => server_delete c i k ;; delete_all c (S i) keys
  end.

Fixpoint get_all (s : Store) (keys : list bytes) : result (list Reply) :=
  match keys with
  | [] => Ok []
  | k :: keys => v ← store_get s k; l ← get_all s keys; Ok (bulk_or_null v :: l)
  end.

Definition wrong_arity (name : bytes) : Reply :=
  Reply_err (lit "wrong number of arguments for '" ++ to_ascii_lowercase name ++ lit "' command").

(** A command that writes: its reply must wait for what it wrote. *)
Definition writing (m : M Store Reply) (durable_by : option (N * N)) (s : Store)
    : result Reply * (Store * option (N * N)) :=
  let '(reply, s) := m s in (reply, (s, must_reach s durable_by)).

Definition is_name (name : bytes) (s : string) : bool := bool_decide (name = lit s).

(** The [match] on the name: the reply or the error it ends in. *)
Definition dispatch_name (c : clock) (name : bytes) (args : list bytes) (durable_by : option (N * N)) (s : Store)
    : result Reply * (Store * option (N * N)) :=
  let reading r := (r, (s, durable_by)) in
  let arity := reading (Ok (wrong_arity name)) in
  if is_name name "PING" then
    match args with
    | [] => reading (Ok (Simple (lit "PONG")))
    | [msg] => reading (Ok (Bulk msg))
    | _ => arity
    end
  else if is_name name "ECHO" then
    match args with [msg] => reading (Ok (Bulk msg)) | _ => arity end
  else if is_name name "GET" then
    match args with [key] => reading (v ← store_get s key; Ok (bulk_or_null v)) | _ => arity end
  else if is_name name "SET" then
    match args with
    | key :: value :: options => writing (server_set c key value options) durable_by s
    | _ => arity
    end
  else if is_name name "DEL" then
    match args with [] => arity | keys => writing (count_deletes c 0 keys 0) durable_by s end
  else if is_name name "EXISTS" then
    match args with
    | [] => arity
    | keys => reading (Ok (Integer (Z.of_nat (length (filter (λ k, contains_key s k = true) keys)))))
    end
  else if is_name name "MGET" then
    match args with [] => arity | keys => reading (l ← get_all s keys; Ok (Array l)) end
  else if is_name name "MSET" then
    match args with
    | [] => arity
    | pairs =>
        if negb (Nat.even (length pairs)) then arity
        else writing (put_pairs c 0 pairs ;; mret Reply_ok) durable_by s
    end
  else if is_name name "KEYS" then
    match args with
    | [pattern] =>
        reading (Ok (Array (Bulk <$> merge_sort bytes_le (filter (λ k, glob_match pattern k = true) (store_keys s)))))
    | _ => arity
    end
  else if is_name name "DBSIZE" then
    match args with [] => reading (Ok (Integer (Z.of_nat (size (s_keydir s))))) | _ => arity end
  else if is_name name "FLUSHDB" || is_name name "FLUSHALL" then
    writing (delete_all c 0 (store_keys s) ;; mret Reply_ok) durable_by s
  else if is_name name "SELECT" then
    match args with
    | [db] => reading (Ok (if bool_decide (db = lit "0") then Reply_ok else Reply_err (lit "DB index is out of range")))
    | _ => arity
    end
  else if is_name name "COMMAND" then reading (Ok (Array []))
  else if is_name name "CLIENT" then reading (Ok Reply_ok)
  else if is_name name "QUIT" then reading (Ok Reply_ok)
  else reading (Ok (Reply_err (lit "unknown command '" ++ to_ascii_lowercase name ++ lit "'"))).

Definition dispatch (c : clock) (args : list bytes) (durable_by : option (N * N)) (s : Store)
    : Reply * (Store * option (N * N)) :=
  match args with
  | [] => (Reply_err [], (s, durable_by))
  | name :: args =>
      let '(r, st) := dispatch_name c (to_ascii_uppercase (utf8_lossy name)) args durable_by s in
      (match r with Ok reply => reply | Err e => Reply_err (error_display e) end, st)
  end.

(** ** What a pattern means *)

(** [*] stands for any bytes, [?] for any one; a backslash takes the next byte literally,
    unless it is the last. *)
Inductive glob : bytes → bytes → Prop :=
  | glob_nil : glob [] []
  | glob_star p t t' : glob p t' → glob (x2a :: p) (t ++ t')
  | glob_any p c t : glob p t → glob (x3f :: p) (c :: t)
  | glob_escape p c t : glob p t → glob (x5c :: c :: p) (c :: t)
  | glob_char p c t : c ≠ x2a → c ≠ x3f → (c = x5c → p = []) → glob p t → glob (c :: p) (c :: t).

Lemma glob_star_inv p t : glob (x2a :: p) t → ∃ t1 t2, t = t1 ++ t2 ∧ glob p t2.
Proof. inversion 1; subst; [eauto|done]. Qed.

Lemma glob_match_fuel_ok fuel p t :
  (length p + length t < fuel)%nat → glob_match_fuel fuel p t = true ↔ glob p t.
Proof.
  revert p t. induction fuel as [|fuel IH]; intros p t Hf; [lia|]. cbn [glob_match_fuel].
  destruct p as [|c p]; [rewrite bool_decide_eq_true; split; [intros ->; constructor|by inversion 1]|].
  simpl in Hf. destruct (bool_decide_reflect (c = x2a)) as [->|Hstar].
  { rewrite orb_true_iff, IH by lia. split.
    - intros [Hg|Hg]; [by apply (glob_star p [])|]. destruct t as [|c t]; [done|].
      apply IH in Hg; [|simpl in *; lia]. apply glob_star_inv in Hg as (t1 & t2 & -> & Hg).
      by apply (glob_star p (c :: t1)).
    - intros (t1 & t2 & -> & Hg)%glob_star_inv. destruct t1 as [|c t1]; [by left|right].
      simpl in *. apply IH; [simpl; lia|]. by apply glob_star. }
  destruct t as [|d t]; [split; [done|by inversion 1]|]. simpl in Hf.
  destruct (bool_decide_reflect (c = x3f)) as [->|Hany].
  { rewrite IH by lia. split; [by apply glob_any|]. by inversion 1. }
  destruct (bool_decide_reflect (c = x5c)) as [->|Hesc].
  - destruct p as [|e p]; cbn [negb andb bool_decide head tail].
    + rewrite bool_decide_true by done. simpl. rewrite andb_true_iff, bool_decide_eq_true, IH by (simpl in *; lia).
      split; [intros [<- Hg]; by apply glob_char|]. by inversion 1.
    + rewrite bool_decide_false by done. simpl. rewrite andb_true_iff, bool_decide_eq_true, IH by (simpl in *; lia).
      split; [intros [[= ->] Hg]; by apply glob_escape|]. inversion 1 as [| | |? ? ? Hg|? ? ? ? ? He]; subst; [done|].
      by specialize (He eq_refl).
  - simpl. rewrite andb_true_iff, bool_decide_eq_true, IH by lia.
    split; [intros [<- Hg]; by apply glob_char|]. by inversion 1.
Qed.

(** Patterns match exactly what they mean: any bytes for [*], any one for [?], and a
    byte after a backslash literally; and the search always ends. *)
Theorem glob_match_exact (pattern text : bytes) : glob_match pattern text = true ↔ glob pattern text.
Proof. apply glob_match_fuel_ok. lia. Qed.

(** ** What the commands mean *)

Abbreviation kvmap := (gmap bytes bytes).

Definition no_empty_keys : Error := InvalidKey "keys may not be empty".

Definition map_put (k v : bytes) (m : kvmap) : result unit * kvmap :=
  if bool_decide (k = []) then (Err no_empty_keys, m) else (Ok tt, <[k := v]> m).

Fixpoint map_puts (pairs : list bytes) (m : kvmap) : result unit * kvmap :=
  match pairs with
  | k :: v :: pairs => match map_put k v m with (Ok _, m) => map_puts pairs m | (Err e, m) => (Err e, m) end
  | _ => (Ok tt, m)
  end.

(** [SET key value], with [NX] only if the key is missing, with [XX] only if it is there. *)
Definition map_set (k v : bytes) (options : list bytes) (m : kvmap) : result Reply * kvmap :=
  match set_options options false false with
  | None | Some (true, true) => (Ok (Reply_err (lit "syntax error")), m)
  | Some (nx, xx) =>
      let present := bool_decide (is_Some (m !! k)) in
      if (nx && present) || (xx && negb present) then (Ok Null, m)
      else match map_put k v m with (Ok _, m) => (Ok Reply_ok, m) | (Err e, m) => (Err e, m) end
  end.

(** How many of the keys were there, counting a key named twice once, and the map without
    them. *)
Fixpoint map_deletes (keys : list bytes) (n : Z) (m : kvmap) : Z * kvmap :=
  match keys with
  | [] => (n, m)
  | k :: keys => map_deletes keys (if bool_decide (is_Some (m !! k)) then n + 1 else n)%Z (delete k m)
  end.

(** A command on a map: the reply or the error, and the map after it. *)
Definition map_dispatch (name : bytes) (args : list bytes) (m : kvmap) : result Reply * kvmap :=
  let reading r := (Ok r, m) in
  let arity := reading (wrong_arity name) in
  if is_name name "PING" then
    match args with [] => reading (Simple (lit "PONG")) | [msg] => reading (Bulk msg) | _ => arity end
  else if is_name name "ECHO" then match args with [msg] => reading (Bulk msg) | _ => arity end
  else if is_name name "GET" then match args with [key] => reading (bulk_or_null (m !! key)) | _ => arity end
  else if is_name name "SET" then
    match args with key :: value :: options => map_set key value options m | _ => arity end
  else if is_name name "DEL" then
    match args with [] => arity | keys => let '(n, m) := map_deletes keys 0 m in (Ok (Integer n), m) end
  else if is_name name "EXISTS" then
    match args with
    | [] => arity
    | keys => reading (Integer (Z.of_nat (length (filter (λ k, is_Some (m !! k)) keys))))
    end
  else if is_name name "MGET" then
    match args with [] => arity | keys => reading (Array ((λ k, bulk_or_null (m !! k)) <$> keys)) end
  else if is_name name "MSET" then
    match args with
    | [] => arity
    | pairs =>
        if negb (Nat.even (length pairs)) then arity
        else match map_puts pairs m with (Ok _, m) => (Ok Reply_ok, m) | (Err e, m) => (Err e, m) end
    end
  else if is_name name "KEYS" then
    match args with
    | [pattern] => reading (Array (Bulk <$> merge_sort bytes_le (filter (λ k, glob_match pattern k = true) (map_keys m))))
    | _ => arity
    end
  else if is_name name "DBSIZE" then
    match args with [] => reading (Integer (Z.of_nat (size m))) | _ => arity end
  else if is_name name "FLUSHDB" || is_name name "FLUSHALL" then (Ok Reply_ok, ∅)
  else if is_name name "SELECT" then
    match args with
    | [db] => reading (if bool_decide (db = lit "0") then Reply_ok else Reply_err (lit "DB index is out of range"))
    | _ => arity
    end
  else if is_name name "COMMAND" then reading (Array [])
  else if is_name name "CLIENT" then reading Reply_ok
  else if is_name name "QUIT" then reading Reply_ok
  else reading (Reply_err (lit "unknown command '" ++ to_ascii_lowercase name ++ lit "'")).

(** ** The store does what the map does *)

Section commands.
Variable c : clock.
Hypothesis Hclock : ∀ i, is_u64 (c i).

(** A store that takes writes and means [m]. *)
Definition Serving (s : Store) (m : kvmap) : Prop := Refines s m ∧ s_restoring s = false.

Definition arg_ok (a : bytes) : Prop := blen a ≤ MAX_BULK_LEN.

(** Arguments within the protocol's limit always fit the index's 32-bit length. *)
Lemma args_fit k v : arg_ok k → arg_ok v → fits k v.
Proof. unfold arg_ok, fits, entry_len, is_u32, MAX_BULK_LEN, TWO32. lia. Qed.

Lemma put_reach_ok s m k v reach now now' :
  Serving s m → arg_ok k → arg_ok v → is_u64 now → is_u64 now' →
  ∃ s', put_with k v reach now now' s = ((map_put k v m).1, s') ∧ Serving s' (map_put k v m).2.
Proof.
  intros [HR Hre] Hk Hv Hn Hn'. unfold map_put. case_bool_decide as Hnil.
  - exists s. subst k. unfold put_with. rewrite Hre. done.
  - destruct (put_refines s m k v reach now now' HR Hre Hnil (args_fit k v Hk Hv) Hn Hn') as (s' & E & HR' & _ & Hre' & _).
    by exists s'.
Qed.

Lemma server_put_ok s m i k v :
  Serving s m → arg_ok k → arg_ok v →
  ∃ s', server_put c i k v s = ((map_put k v m).1, s') ∧ Serving s' (map_put k v m).2.
Proof. intros HS Hk Hv. unfold server_put, put_deferred, store_put. destruct (o_sync (s_opts s)); by apply put_reach_ok. Qed.

Lemma server_delete_ok s m i k :
  Serving s m → ∃ s', server_delete c i k s = (Ok (bool_decide (is_Some (m !! k))), s') ∧ Serving s' (delete k m).
Proof.
  intros [HR Hre]. unfold server_delete, delete_deferred, store_delete.
  destruct (o_sync (s_opts s));
    [destruct (delete_refines s m k Buffer _ _ HR Hre (Hclock (2 * i)) (Hclock (2 * i + 1))) as (s' & E & HR' & _ & Hre' & _)
    |destruct (delete_refines s m k (store_reach s) _ _ HR Hre (Hclock (2 * i)) (Hclock (2 * i + 1)))
       as (s' & E & HR' & _ & Hre' & _)]; by exists s'.
Qed.

Lemma count_deletes_ok s m i keys n :
  Serving s m →
  ∃ s', count_deletes c i keys n s = (Ok (Integer (map_deletes keys n m).1), s') ∧ Serving s' (map_deletes keys n m).2.
Proof.
  revert s m i n. induction keys as [|k keys IH]; intros s m i n HS; [by exists s|].
  destruct (server_delete_ok s m i k HS) as (s1 & E1 & HS1). cbn [count_deletes map_deletes].
  unfold mbind, M_bind. rewrite E1. by apply IH.
Qed.

Lemma put_pairs_ok s m i pairs :
  Serving s m → Forall arg_ok pairs →
  ∃ s', put_pairs c i pairs s = ((map_puts pairs m).1, s') ∧ Serving s' (map_puts pairs m).2.
Proof.
  revert s m i. induction pairs as [pairs IH] using (induction_ltof1 _ length); intros s m i HS Hp.
  destruct pairs as [|k [|v pairs]]; [by exists s..|].
  apply Forall_cons_1 in Hp as [Hk [Hv Hp]%Forall_cons_1].
  destruct (server_put_ok s m i k v HS Hk Hv) as (s1 & E1 & HS1). cbn [put_pairs map_puts].
  unfold mbind, M_bind. rewrite E1. destruct (map_put k v m) as [[[]|e] m1]; [|by exists s1].
  apply IH; [unfold ltof; simpl; lia|done|done].
Qed.

Lemma server_set_ok s m k v options :
  Serving s m → arg_ok k → arg_ok v →
  ∃ s', server_set c k v options s = ((map_set k v options m).1, s') ∧ Serving s' (map_set k v options m).2.
Proof.
  intros HS Hk Hv. unfold server_set, map_set. rewrite (Refines_contains s m) by apply HS.
  destruct (set_options options false false) as [[nx xx]|]; [|by exists s].
  destruct (nx && xx) eqn:Enx; [apply andb_true_iff in Enx as [-> ->]; by exists s|].
  assert (∀ A (a b : A), match nx, xx with true, true => a | _, _ => b end = b) as Hm by (by destruct nx, xx).
  destruct (server_put_ok s m 0 k v HS Hk Hv) as (s1 & E1 & HS1).
  destruct nx, xx; try done; cbn [andb orb]; unfold mbind, M_bind;
    try (destruct (bool_decide _); cbn [negb]; [by exists s|]); rewrite ?E1;
    try (destruct (bool_decide _); cbn [negb]; [|by exists s]); rewrite ?E1;
    destruct (map_put k v m) as [[[]|e] m1]; by exists s1.
Qed.
End commands.

Lemma map_deletes_all keys n m : (∀ k, is_Some (m !! k) → k ∈ keys) → (map_deletes keys n m).2 = ∅.
Proof.
  revert n m. induction keys as [|k keys IH]; intros n m Hk; simpl.
  - apply map_empty. intros k. apply eq_None_not_Some. intros Hs%Hk. by apply not_elem_of_nil in Hs.
  - apply IH. intros k' [v [Hne Hv]%lookup_delete_Some].
    assert (k' ∈ k :: keys) as Hin by (apply Hk; by eexists). apply elem_of_cons in Hin as [->|]; done.
Qed.

Lemma Refines_size s m : Refines s m → size (s_keydir s) = size m.
Proof.
  intros HR. rewrite <-!size_dom. f_equal. apply set_eq. intros x. rewrite !elem_of_dom. by apply Refines_dom.
Qed.

Section dispatch.
Variable c : clock.
Hypothesis Hclock : ∀ i, is_u64 (c i).

Lemma delete_all_ok s m i keys n :
  Serving s m → ∃ s', delete_all c i keys s = (Ok tt, s') ∧ Serving s' (map_deletes keys n m).2.
Proof.
  revert s m i n. induction keys as [|k keys IH]; intros s m i n HS; [by exists s|].
  destruct (server_delete_ok c Hclock s m i k HS) as (s1 & E1 & HS1). cbn [delete_all map_deletes].
  unfold mbind, M_bind. rewrite E1. by apply IH.
Qed.

Lemma flushdb_ok s m :
  Serving s m → ∃ s', delete_all c 0 (store_keys s) s = (Ok tt, s') ∧ Serving s' ∅.
Proof.
  intros HS. destruct (delete_all_ok s m 0 (store_keys s) 0 HS) as (s' & E & HS').
  rewrite map_deletes_all in HS'; [by exists s'|]. intros k [v Hv].
  rewrite (store_keys_map s m) by apply HS. apply list_elem_of_fmap. exists (k, v). split; [done|].
  by apply elem_of_map_to_list.
Qed.

Lemma get_all_ok s m keys :
  Refines s m → get_all s keys = Ok ((λ k, bulk_or_null (m !! k)) <$> keys).
Proof.
  intros HR. induction keys as [|k keys IH]; [done|]. cbn [get_all]. rewrite (Refines_get s m k HR).
  cbn [mbind result_bind]. by rewrite IH.
Qed.

(** A write command: what it replies, and that the reply waits for it. *)
Lemma writing_ok (f : M Store Reply) d s r m' :
  (∃ s', f s = (r, s') ∧ Serving s' m') →
  ∃ s', writing f d s = (r, (s', must_reach s' d)) ∧ Serving s' m'.
Proof. intros (s' & E & HS). exists s'. unfold writing. by rewrite E. Qed.

Definition dispatch_ok (name : bytes) (args : list bytes) (d : option (N * N)) (s : Store) (m : kvmap) : Prop :=
  ∃ s' d', dispatch_name c name args d s = ((map_dispatch name args m).1, (s', d')) ∧
    Serving s' (map_dispatch name args m).2 ∧ (s' = s ∧ d' = d ∨ d' = must_reach s' d).

Lemma dispatch_name_ok name args d s m :
  Serving s m → Forall arg_ok args → dispatch_ok name args d s m.
Proof.
  intros HS Ha. pose proof HS as [HR Hre].
  unfold dispatch_ok, dispatch_name, map_dispatch. cbv zeta.
  assert (∀ r : result Reply, ∃ s' d', (r, (s, d)) = (r, (s', d')) ∧ Serving s' m ∧ (s' = s ∧ d' = d ∨ d' = must_reach s' d)) as Hread
    by (intros r; exists s, d; auto).
  assert (∀ f r m', (∃ s', f s = (r, s') ∧ Serving s' m') →
    ∃ s' d', writing f d s = (r, (s', d')) ∧ Serving s' m' ∧ (s' = s ∧ d' = d ∨ d' = must_reach s' d)) as Hwrite.
  { intros f r m' Hf. destruct (writing_ok f d s r m' Hf) as (s' & E & HS'). exists s', (must_reach s' d). auto. }
  destruct (is_name name "PING"); [by destruct args as [|? [|? ?]]; apply Hread|].
  destruct (is_name name "ECHO"); [by destruct args as [|? [|? ?]]; apply Hread|].
  destruct (is_name name "GET").
  { destruct args as [|k [|? ?]]; try apply Hread. rewrite (Refines_get s m k HR). apply Hread. }
  destruct (is_name name "SET").
  { destruct args as [|k [|v options]]; try apply Hread.
    apply Forall_cons_1 in Ha as [Hk [Hv _]%Forall_cons_1]. by apply Hwrite, server_set_ok. }
  destruct (is_name name "DEL").
  { destruct args as [|k keys]; [apply Hread|].
    destruct (count_deletes_ok c Hclock s m 0 (k :: keys) 0 HS) as (s' & E & HS').
    destruct (map_deletes (k :: keys) 0 m) as [n m']. apply Hwrite. by exists s'. }
  destruct (is_name name "EXISTS").
  { destruct args as [|k keys]; [apply Hread|].
    erewrite (list_filter_iff (λ k, contains_key s k = true) (λ k, is_Some (m !! k))); [apply Hread|].
    intros x. by rewrite (Refines_contains s m), bool_decide_eq_true. }
  destruct (is_name name "MGET").
  { destruct args as [|k keys]; [apply Hread|]. rewrite (get_all_ok s m) by done. apply Hread. }
  destruct (is_name name "MSET").
  { destruct args as [|k pairs]; [apply Hread|]. destruct (negb _); [apply Hread|].
    destruct (put_pairs_ok c Hclock s m 0 (k :: pairs) HS Ha) as (s' & E & HS').
    destruct (map_puts (k :: pairs) m) as [[[]|e] m']; apply Hwrite; exists s'; unfold mbind, M_bind; by rewrite E. }
  destruct (is_name name "KEYS").
  { destruct args as [|pattern [|? ?]]; try apply Hread.
    rewrite (sort_Permutation (filter _ (store_keys s)) (filter (λ k, glob_match pattern k = true) (map_keys m)));
      [apply Hread|]. by rewrite (store_keys_map s m). }
  destruct (is_name name "DBSIZE").
  { destruct args; [|apply Hread]. rewrite (Refines_size s m) by done. apply Hread. }
  destruct (is_name name "FLUSHDB" || is_name name "FLUSHALL").
  { destruct (flushdb_ok s m HS) as (s' & E & HS'). apply Hwrite. exists s'. unfold mbind, M_bind. by rewrite E. }
  destruct (is_name name "SELECT"); [by destruct args as [|db [|? ?]]; apply Hread|].
  destruct (is_name name "COMMAND"); [apply Hread|]. destruct (is_name name "CLIENT"); [apply Hread|].
  destruct (is_name name "QUIT"); apply Hread.
Qed.
End dispatch.

(** Every command means what it means on a map. For a store that means [m] and
    arguments within the protocol's limits, [dispatch] gives exactly the reply of the
    command on [m], errors included, and leaves the store meaning exactly the map the
    command leaves; and either nothing was written, or the reply waits for everything
    the store has appended. *)
Theorem dispatch_exact (c : clock) (name : bytes) (args : list bytes) (d : option (N * N)) (s : Store) (m : kvmap) :
  (∀ i, is_u64 (c i)) → Serving s m → Forall arg_ok args →
  let '(r, m') := map_dispatch (to_ascii_uppercase (utf8_lossy name)) args m in
  ∃ s' d', dispatch c (name :: args) d s =
      (match r with Ok reply => reply | Err e => Reply_err (error_display e) end, (s', d')) ∧
    Serving s' m' ∧ (s' = s ∧ d' = d ∨ d' = must_reach s' d).
Proof.
  intros Hc HS Ha.
  destruct (dispatch_name_ok c Hc (to_ascii_uppercase (utf8_lossy name)) args d s m HS Ha) as (s' & d' & E & HS' & Hd).
  unfold dispatch. rewrite E. destruct (map_dispatch _ args m) as [r m']. by exists s', d'.
Qed.

Lemma colours_serving reach : Serving (colours reach) {[lit "grass" := lit "green"]}.
Proof. split; apply colours_refines. Qed.

Lemma dispatch_exact_witness :
  ∃ s' d', dispatch (λ _, 9) [lit "set"; lit "sea"; lit "blue"; lit "nx"] None (colours Kernel) = (Reply_ok, (s', d')) ∧
    Serving s' (<[lit "sea" := lit "blue"]> {[lit "grass" := lit "green"]}).
Proof.
  pose proof (dispatch_exact (λ _, 9) (lit "set") [lit "sea"; lit "blue"; lit "nx"] None (colours Kernel)
    {[lit "grass" := lit "green"]} ltac:(done) (colours_serving Kernel) ltac:(by repeat constructor)) as H.
  destruct (map_dispatch _ _ _) as [r m'] eqn:E in H. destruct H as (s' & d' & Ed & HS & _). exists s', d'.
  assert (r = Ok Reply_ok ∧ m' = <[lit "sea" := lit "blue"]> {[lit "grass" := lit "green"]}) as [-> ->]; [|exact (conj Ed HS)].
  injection E as <- <-. split; [done|]. by apply (bool_decide_unpack _); vm_compute.
Defined.

(** The name of an unknown command is sent back as it came. A name with a line break in
    it, which a bulk string may hold, breaks the error reply in two: a client reads the
    first line as the reply and the rest as the reply to its next command. *)
Theorem unknown_command_splits_reply :
  let name := lit "x" ++ CRLF ++ lit "+OK" in
  let reply := (dispatch (λ _, 0) [name] None (fresh_store Options_default)).1 in
  command_ok [name] ∧ read_command (write_to (Array [Bulk name])) = inl (Some [name], []) ∧
  read_reply 100 (write_to reply) = inl (ErrorReply (lit "ERR unknown command 'x"), lit "+ok'" ++ CRLF).
Proof. split; [|by vm_compute]. split; [done|]. by repeat constructor. Qed.
