(* ===== verification/ServerCommit.v ===== *)
(** * Group commit (src/server.rs)

    Connections write into the store's buffer and hold their replies; whoever needs an
    fsync first runs one for everyone, outside the store's lock. The server as a system of
    connections that interleave between any two lock regions, without their bytes and free to
    send when they like: no reply to a write leaves before the write is where no crash can
    take it. ServerLoop shows that the server's connections are such a system. *)

From S2P Require Import Prelude.
From S2P Require Import Crc.
From S2P Require Import RecordFormat.
From S2P Require Import DataLog.
From S2P Require Import HintFile.
From S2P Require Import Store.
From S2P Require Import StoreIndex.
From S2P Require Import StoreInv.
From S2P Require Import StoreOps.
From S2P Require Import StoreMap.
From S2P Require Import StoreOpen.
From S2P Require Import StoreCrash.
From S2P Require Import StoreGrow.
From S2P Require Import Resp.
From S2P Require Import Server.

#[local] Open Scope N_scope.
#[local] Opaque rec_bytes.

(** ** The system *)

Record Durable := mkDurable { du_point : N * N; du_syncing : bool }.

(** Where a connection is: running commands, in the loop of [wait] for a point, awake or asleep
    (which ServerLoop tells apart: [sv_asleep]), about to take a handle, in the fsync with the
    handle's point, or done with it; or hung up. *)
Inductive Phase :=
  | Running
  | Waiting (p : N * N)
  | Starting (p : N * N)
  | Syncing (p pt : N * N)
  | Noted (p pt : N * N)
  | Closed.

(** [cn_hist] is not in the code: the store's history as the connection's last write left
    it, which is what its replies claim. *)
Record Conn := mkConn { cn_durable_by : option (N * N); cn_phase : Phase; cn_hist : list Rec }.

(** [sy_acked] is not in the code either: what each batch of replies that left claimed. *)
Record System := mkSystem {
  sy_store : Store;
  sy_durable : Durable;
  sy_conns : gmap nat Conn;
  sy_acked : list (list Rec);
}.

Definition set_conn (i : nat) (cn : Conn) (sy : System) : System :=
  mkSystem (sy_store sy) (sy_durable sy) (<[i := cn]> (sy_conns sy)) (sy_acked sy).
Definition set_store (s : Store) (sy : System) : System :=
  mkSystem s (sy_durable sy) (sy_conns sy) (sy_acked sy).
Definition set_durable (d : Durable) (sy : System) : System :=
  mkSystem (sy_store sy) d (sy_conns sy) (sy_acked sy).
Definition add_acked (h : list Rec) (sy : System) : System :=
  mkSystem (sy_store sy) (sy_durable sy) (sy_conns sy) (h :: sy_acked sy).

(** One lock region of one connection. *)
Inductive sys_step : System → System → Prop :=
  | step_command sy i cn c args reply s' d' hs0 h hs0' h' :
      (* one turn of [serve]: a command, its reply held *)
      sy_conns sy !! i = Some cn → cn_phase cn = Running → args ≠ [] → Forall arg_ok args → (∀ j, is_u64 (c j)) →
      dispatch c args (cn_durable_by cn) (sy_store sy) = (reply, (s', d')) →
      History (sy_store sy) hs0 h → History s' hs0' h' →
      sys_step sy (set_store s' (set_conn i (mkConn d' Running (if bool_decide (h' = h) then cn_hist cn else h')) sy))
  | step_send_now sy i cn :
      (* [send]: nothing to wait for, the held replies leave *)
      sy_conns sy !! i = Some cn → cn_phase cn = Running → cn_durable_by cn = None →
      sys_step sy (add_acked (cn_hist cn) sy)
  | step_send sy i cn p :
      (* [send]: replies that must wait *)
      sy_conns sy !! i = Some cn → cn_phase cn = Running → cn_durable_by cn = Some p →
      sys_step sy (set_conn i (mkConn None (Waiting p) (cn_hist cn)) sy)
  | step_reached sy i cn p :
      (* [wait] returns, and the replies leave *)
      sy_conns sy !! i = Some cn → cn_phase cn = Waiting p → point_lt (du_point (sy_durable sy)) p = false →
      sys_step sy (add_acked (cn_hist cn) (set_conn i (mkConn None Running (cn_hist cn)) sy))
  | step_start sy i cn p :
      (* nobody is syncing, so this connection does *)
      sy_conns sy !! i = Some cn → cn_phase cn = Waiting p → point_lt (du_point (sy_durable sy)) p = true →
      du_syncing (sy_durable sy) = false →
      sys_step sy (set_durable (mkDurable (du_point (sy_durable sy)) true)
        (set_conn i (mkConn None (Starting p) (cn_hist cn)) sy))
  | step_handle sy i cn p pt s' :
      (* the handle, under the store's lock *)
      sy_conns sy !! i = Some cn → cn_phase cn = Starting p → sync_handle (sy_store sy) = (pt, s') →
      sys_step sy (set_store s' (set_conn i (mkConn None (Syncing p pt) (cn_hist cn)) sy))
  | step_synced sy i cn p pt :
      (* the fsync succeeded; the store is told, under its lock *)
      sy_conns sy !! i = Some cn → cn_phase cn = Syncing p pt →
      sys_step sy (set_store (note_synced pt (sy_store sy))
        (set_conn i (mkConn None (Noted p pt) (cn_hist cn)) sy))
  | step_failed sy i cn p pt :
      (* the fsync failed: the client is told so, and the connection ends *)
      sy_conns sy !! i = Some cn → cn_phase cn = Syncing p pt →
      sys_step sy (set_durable (mkDurable (du_point (sy_durable sy)) false)
        (set_conn i (mkConn None Closed []) sy))
  | step_done sy i cn p pt :
      (* everyone is told how far the disk has got *)
      sy_conns sy !! i = Some cn → cn_phase cn = Noted p pt →
      sys_step sy (set_durable (mkDurable (if point_lt (du_point (sy_durable sy)) pt then pt
                                            else du_point (sy_durable sy)) false)
        (set_conn i (mkConn None (Waiting p) (cn_hist cn)) sy))
  | step_connect sy i :
      (* a client connects *)
      sy_conns sy !! i = None → sys_step sy (set_conn i (mkConn None Running []) sy)
  | step_hangup sy i cn :
      (* a client hangs up, quits or breaks the protocol: its held replies are dropped, or
         were sent before *)
      sy_conns sy !! i = Some cn → cn_phase cn = Running →
      sys_step sy (set_conn i (mkConn None Closed []) sy).

(** [Server::bind] on an open store: everything in it counts as durable. *)
Definition bind (s : Store) : System := mkSystem s (mkDurable (append_point s) false) ∅ [].

(** ** Commands only ever add to the store *)

Section grows.
Variable c : clock.
Hypothesis Hclock : ∀ i, is_u64 (c i).

Lemma server_put_grows i k v : arg_ok k → arg_ok v → Steps Grows (server_put c i k v).
Proof.
  intros Hk Hv s. unfold server_put, put_deferred, store_put.
  destruct (o_sync (s_opts s)); apply put_grows; auto using args_fit.
Qed.

Lemma server_delete_grows i k : Steps Grows (server_delete c i k).
Proof.
  intros s. unfold server_delete, delete_deferred, store_delete.
  destruct (o_sync (s_opts s)); by apply delete_grows.
Qed.

Lemma count_deletes_grows i keys n : Steps Grows (count_deletes c i keys n).
Proof.
  revert i n. induction keys as [|k keys IH]; intros i n; cbn [count_deletes]; [apply (steps_ret Grows)|].
  apply (steps_bind Grows); [apply server_delete_grows|]. intros b. apply IH.
Qed.

Lemma put_pairs_grows i pairs : Forall arg_ok pairs → Steps Grows (put_pairs c i pairs).
Proof.
  revert i. induction pairs as [pairs IH] using (induction_ltof1 _ length); intros i Hp.
  destruct pairs as [|k [|v pairs]]; cbn [put_pairs]; try apply (steps_ret Grows).
  apply Forall_cons_1 in Hp as [Hk [Hv Hp]%Forall_cons_1].
  apply (steps_bind Grows); [by apply server_put_grows|]. intros []. apply IH; [unfold ltof; simpl; lia|done].
Qed.

Lemma delete_all_grows i keys : Steps Grows (delete_all c i keys).
Proof.
  revert i. induction keys as [|k keys IH]; intros i; cbn [delete_all]; [apply (steps_ret Grows)|].
  apply (steps_bind Grows); [apply server_delete_grows|]. intros b. apply IH.
Qed.

Lemma server_set_grows k v options : arg_ok k → arg_ok v → Steps Grows (server_set c k v options).
Proof.
  intros Hk Hv s. unfold server_set.
  assert (Steps Grows (server_put c 0 k v ;; mret Reply_ok)) as Hput.
  { apply (steps_bind Grows); [by apply server_put_grows|]. intros []. apply (steps_ret Grows). }
  destruct (set_options options false false) as [[[] []]|]; try (by apply Grows_preorder);
    destruct (_ || _); try (by apply Grows_preorder); apply Hput.
Qed.

(** What a command may do to the store, and to the point its reply waits for. *)
Definition commanded (d : option (N * N)) (s : Store) (r : result Reply * (Store * option (N * N))) : Prop :=
  Grows s r.2.1 ∧ (r.2.1 = s ∧ r.2.2 = d ∨ r.2.2 = must_reach r.2.1 d).

Lemma commanded_reading d s r : commanded d s (r, (s, d)).
Proof. split; [by apply Grows_preorder|by left]. Qed.

Lemma commanded_writing f d s : Steps Grows f → commanded d s (writing f d s).
Proof. intros Hf. specialize (Hf s). unfold writing. destruct (f s) as [r s']. split; [done|by right]. Qed.

Lemma dispatch_name_grows name args d s : Forall arg_ok args → commanded d s (dispatch_name c name args d s).
Proof.
  intros Ha. unfold dispatch_name. cbv zeta.
  destruct (is_name name "PING"); [destruct args as [|? [|? ?]]; apply commanded_reading|].
  destruct (is_name name "ECHO"); [destruct args as [|? [|? ?]]; apply commanded_reading|].
  destruct (is_name name "GET"); [destruct args as [|? [|? ?]]; apply commanded_reading|].
  destruct (is_name name "SET").
  { destruct args as [|k [|v options]]; try apply commanded_reading.
    apply Forall_cons_1 in Ha as [Hk [Hv _]%Forall_cons_1]. by apply commanded_writing, server_set_grows. }
  destruct (is_name name "DEL").
  { destruct args as [|k keys]; [apply commanded_reading|]. apply commanded_writing, count_deletes_grows. }
  destruct (is_name name "EXISTS"); [destruct args; apply commanded_reading|].
  destruct (is_name name "MGET"); [destruct args; apply commanded_reading|].
  destruct (is_name name "MSET").
  { destruct args as [|k pairs]; [apply commanded_reading|]. destruct (negb _); [apply commanded_reading|].
    apply commanded_writing, (steps_bind Grows); [by apply put_pairs_grows|]. intros []. apply (steps_ret Grows). }
  destruct (is_name name "KEYS"); [destruct args as [|? [|? ?]]; apply commanded_reading|].
  destruct (is_name name "DBSIZE"); [destruct args; apply commanded_reading|].
  destruct (is_name name "FLUSHDB" || is_name name "FLUSHALL").
  { apply commanded_writing, (steps_bind Grows); [apply delete_all_grows|]. intros []. apply (steps_ret Grows). }
  destruct (is_name name "SELECT"); [destruct args as [|? [|? ?]]; apply commanded_reading|].
  destruct (is_name name "COMMAND"); [apply commanded_reading|]. destruct (is_name name "CLIENT"); [apply commanded_reading|].
  destruct (is_name name "QUIT"); apply commanded_reading.
Qed.

Lemma dispatch_grows args d s reply s' d' :
  Forall arg_ok args → args ≠ [] → dispatch c args d s = (reply, (s', d')) →
  Grows s s' ∧ (s' = s ∧ d' = d ∨ d' = must_reach s' d).
Proof.
  intros Ha Hne. destruct args as [|name args]; [done|]. apply Forall_cons_1 in Ha as [_ Ha]. unfold dispatch.
  pose proof (dispatch_name_grows (to_ascii_uppercase (utf8_lossy name)) args d s Ha) as Hc.
  destruct (dispatch_name c _ args d s) as [r [s1 d1]]. intros [= _ <- <-]. exact Hc.
Qed.
End grows.

(** ** What holds between any two lock regions *)

Lemma behind_le p q s : point_lt q p = false → behind q s → behind p s.
Proof.
  unfold point_lt, behind. rewrite orb_false_iff, N.ltb_ge. intros [H1 H2] Hq.
  destruct (N.eqb_spec q.1 p.1) as [E|E]; simpl in H2; [apply N.ltb_ge in H2|]; lia.
Qed.

(** A point that is not before the end is the end. *)
Lemma Covers_end s fs rs p h :
  SInv s fs rs → Covers (all_files s fs rs) p h → point_lt p (append_point s) = false →
  Covers (all_files s fs rs) p (all_recs fs ++ rs).
Proof.
  intros HI Hc Hp. assert (p = append_point s) as ->; [|by apply Covers_append_point].
  pose proof (Covers_le s fs rs p h HI Hc) as Hle. pose proof (Wok_offset _ _ _ (si_writer _ _ _ HI)) as Ho.
  unfold point_lt, append_point in *. simpl in Hp. apply orb_false_iff in Hp as [Hp1%N.ltb_ge Hp2].
  assert (p.1 = active_id s) as Ha by (unfold active_id in *; lia).
  rewrite Ha in Hp2. unfold active_id in Hp2. rewrite N.eqb_refl in Hp2. apply N.ltb_ge in Hp2.
  destruct (Covers_active s fs rs p h HI Hc Ha) as (q & [q' ->] & Hq & _). destruct p as [p1 p2]. simpl in *.
  f_equal; [done|]. rewrite Ho, file_bytes_app, blen_app in *. lia.
Qed.

(** The store syncs every write. *)
Abbreviation syncs s := (o_sync (s_opts s) = EveryWrite).

(** [h] is where no crash can take it. *)
Definition on_disk (s : Store) (F : Files) (h : list Rec) : Prop := ∃ p, Covers F p h ∧ behind p s.

(** What a reply promises of the history it speaks for: all of it is in the files, and, if the
    store syncs every write, on the disk. *)
Definition saved (s : Store) (F : Files) (h : list Rec) : Prop := h `prefix_of` all_recs F ∧ (syncs s → on_disk s F h).

Definition conn_ok (s : Store) (F : Files) (cn : Conn) : Prop :=
  match cn_phase cn with
  | Running =>
      match cn_durable_by cn with Some p => syncs s ∧ Covers F p (cn_hist cn) | None => saved s F (cn_hist cn) end
  | Waiting p | Starting p => Covers F p (cn_hist cn)
  | Syncing p pt =>
      Covers F p (cn_hist cn) ∧ Covers F pt [] ∧ (pt.1 = active_id s → pt.2 ≤ lw_written (s_writer s))
  | Noted p pt => Covers F p (cn_hist cn) ∧ behind pt s
  | Closed => True
  end.

Record sys_ok (sy : System) (fs : Files) (rs : list Rec) : Prop := {
  so_inv : SInv (sy_store sy) fs rs;
  so_restoring : s_restoring (sy_store sy) = false;
  so_point : syncs (sy_store sy) → behind (du_point (sy_durable sy)) (sy_store sy);
  so_conns : map_Forall (λ _, conn_ok (sy_store sy) (all_files (sy_store sy) fs rs)) (sy_conns sy);
  so_acked : Forall (saved (sy_store sy) (all_files (sy_store sy) fs rs)) (sy_acked sy);
}.

Lemma saved_grown s fs rs s' fs' rs' h :
  Grown s fs rs s' fs' rs' → saved s (all_files s fs rs) h → saved s' (all_files s' fs' rs') h.
Proof.
  intros HG [Hp Hd]. split; [etrans; [done|]; apply files_grow_recs, HG|].
  rewrite (gr_opts _ _ _ _ _ _ HG). intros (p & Hc & Hb)%Hd.
  exists p. split; [by eapply Covers_grow, Hc; apply HG|by eapply behind_grown].
Qed.

Lemma conn_ok_grown s fs rs s' fs' rs' cn :
  SInv s fs rs → Grown s fs rs s' fs' rs' → conn_ok s (all_files s fs rs) cn → conn_ok s' (all_files s' fs' rs') cn.
Proof.
  intros HI HG. pose proof (gr_files _ _ _ _ _ _ HG) as HF. unfold conn_ok.
  destruct (cn_phase cn) as [|p|p|p pt|p pt|].
  - destruct (cn_durable_by cn); [|by eapply saved_grown]. rewrite (gr_opts _ _ _ _ _ _ HG).
    intros [Hs H]. split; [done|by eapply Covers_grow].
  - by apply Covers_grow.
  - by apply Covers_grow.
  - intros (H1 & H2 & H3). pose proof (Covers_le _ _ _ _ _ HI H2) as Hle.
    split_and!; [by eapply Covers_grow|by eapply Covers_grow|]. intros E.
    pose proof (gr_active _ _ _ _ _ _ HG). destruct (gr_writer _ _ _ _ _ _ HG); [lia|].
    assert (pt.2 ≤ lw_written (s_writer s)) by (apply H3; lia). lia.
  - intros [H1 H2]. split; [by eapply Covers_grow|by eapply behind_grown].
  - done.
Qed.

Lemma sys_ok_grown sy fs rs s' fs' rs' :
  sys_ok sy fs rs → Grown (sy_store sy) fs rs s' fs' rs' → sys_ok (set_store s' sy) fs' rs'.
Proof.
  intros [H1 H2 H4 H5 H6] HG. pose proof HG as [G1 G2 G3 G4 G5 G6].
  split; simpl; [done|done|rewrite G3; intros Hs; by eapply behind_grown, H4| |].
  - intros i cn Hi. by eapply conn_ok_grown, (H5 i cn Hi).
  - eapply list.Forall_impl; [exact H6|]. intros h. by apply saved_grown.
Qed.

Lemma sys_ok_conn sy fs rs i cn :
  sys_ok sy fs rs → conn_ok (sy_store sy) (all_files (sy_store sy) fs rs) cn → sys_ok (set_conn i cn sy) fs rs.
Proof. intros [H1 H2 H4 H5 H6] Hcn. split; try done. simpl. by apply map_Forall_insert_2. Qed.

Lemma sys_ok_durable sy fs rs d :
  sys_ok sy fs rs → (syncs (sy_store sy) → behind (du_point d) (sy_store sy)) → sys_ok (set_durable d sy) fs rs.
Proof. intros [H1 H2 H4 H5 H6] Hd. by split. Qed.

Lemma sys_ok_acked sy fs rs h :
  sys_ok sy fs rs → saved (sy_store sy) (all_files (sy_store sy) fs rs) h → sys_ok (add_acked h sy) fs rs.
Proof. intros [H1 H2 H4 H5 H6] Hh. split; try done. by constructor. Qed.

(** A write's reply waits for the whole history. *)
Lemma must_reach_covers s fs rs d :
  SInv s fs rs → o_sync (s_opts s) = EveryWrite → (∀ p, d = Some p → ∃ h, Covers (all_files s fs rs) p h) →
  ∃ p, must_reach s d = Some p ∧ Covers (all_files s fs rs) p (all_recs fs ++ rs).
Proof.
  intros HI Hs Hd. unfold must_reach. rewrite Hs. cbn zeta.
  pose proof (Covers_append_point s fs rs (all_recs fs ++ rs) HI ltac:(done)) as Hap.
  destruct d as [p|]; [|by eauto]. destruct (point_lt p (append_point s)) eqn:E; [by eauto|].
  exists p. split; [done|]. destruct (Hd p eq_refl) as [h Hh]. by eapply Covers_end.
Qed.

Lemma conn_ok_hist s fs rs cn :
  conn_ok s (all_files s fs rs) cn → cn_phase cn = Running → cn_hist cn `prefix_of` all_recs fs ++ rs.
Proof.
  unfold conn_ok. intros H E. rewrite E in H. rewrite <-(all_recs_files s).
  destruct (cn_durable_by cn) as [p|]; [by eapply Covers_recs, H|apply H].
Qed.

Lemma command_ok_step sy fs rs i cn c args reply s' d' hs0 h hs0' h' :
  sys_ok sy fs rs → sy_conns sy !! i = Some cn → cn_phase cn = Running → args ≠ [] → Forall arg_ok args →
  (∀ j, is_u64 (c j)) → dispatch c args (cn_durable_by cn) (sy_store sy) = (reply, (s', d')) →
  History (sy_store sy) hs0 h → History s' hs0' h' →
  ∃ fs' rs', sys_ok (set_store s' (set_conn i
    (mkConn d' Running (if bool_decide (h' = h) then cn_hist cn else h')) sy)) fs' rs'.
Proof.
  intros HS Hi Hrun Hne Ha Hc E (fs0 & rs0 & r0 & HI0 & _ & _ & _ & ->) (fs1 & rs1 & r1 & HI1 & _ & _ & _ & ->).
  destruct (dispatch_grows c Hc args _ _ _ _ _ Ha Hne E) as [HG Hd].
  destruct (HG fs rs (so_inv _ _ _ HS) (so_restoring _ _ _ HS)) as (fs' & rs' & HG'). exists fs', rs'.
  destruct (SInv_unique _ _ _ _ _ HI0 (so_inv _ _ _ HS)) as [-> ->].
  destruct (SInv_unique _ _ _ _ _ HI1 (gr_inv _ _ _ _ _ _ HG')) as [-> ->].
  pose proof (so_conns _ _ _ HS i cn Hi) as Hcn. simpl in Hcn.
  pose proof (conn_ok_grown _ _ _ _ _ _ _ (so_inv _ _ _ HS) HG' Hcn) as Hcn'.
  apply (sys_ok_conn (set_store s' sy)); [by eapply sys_ok_grown|]. simpl.
  destruct Hd as [[-> ->]|Hd].
  - destruct (SInv_unique _ _ _ _ _ HI1 (so_inv _ _ _ HS)) as [-> ->]. rewrite bool_decide_true by done.
    destruct cn. simpl in *. by subst.
  - assert ((if bool_decide (all_recs fs' ++ rs' = all_recs fs ++ rs) then cn_hist cn else all_recs fs' ++ rs')
      `prefix_of` all_recs fs' ++ rs') as Hpre.
    { case_bool_decide as Eh; [|done]. rewrite Eh. by eapply conn_ok_hist. }
    destruct (o_sync (s_opts s')) eqn:Es.
    + destruct (must_reach_covers s' fs' rs' (cn_durable_by cn)) as (p & Ep & Hp); [done|done|..].
      { intros p Ep. unfold conn_ok in Hcn'. rewrite Hrun, Ep in Hcn'. destruct Hcn'. by eexists. }
      unfold conn_ok. simpl. rewrite Hd, Ep. split; [done|]. by eapply Covers_less.
    + unfold conn_ok in *. simpl. rewrite Hrun in Hcn'. unfold must_reach in Hd. rewrite Es in Hd. subst d'.
      destruct (cn_durable_by cn) as [p|]; [destruct Hcn' as [Hs _]; congruence|].
      split; [by rewrite all_recs_files|congruence].
Qed.

Lemma step_ok sy sy' fs rs : sys_step sy sy' → sys_ok sy fs rs → ∃ fs' rs', sys_ok sy' fs' rs'.
Proof.
  intros Hst HS. assert (∀ i cn, sy_conns sy !! i = Some cn → conn_ok (sy_store sy) (all_files (sy_store sy) fs rs) cn)
    as Hcn by (intros i cn; apply (so_conns _ _ _ HS)).
  destruct Hst as [sy i cn c args reply s' d' hs0 h hs0' h' Hi Hp Hne Ha Hc E HH HH'|sy i cn Hi Hp Hd|sy i cn p Hi Hp Hd
    |sy i cn p Hi Hp Hd|sy i cn p Hi Hp Hd Hs|sy i cn p pt s' Hi Hp E|sy i cn p pt Hi Hp|sy i cn p pt Hi Hp
    |sy i cn p pt Hi Hp|sy i Hi|sy i cn Hi Hp]; try specialize (Hcn i cn Hi); try (unfold conn_ok in Hcn; rewrite Hp in Hcn).
  - by eapply command_ok_step.
  - exists fs, rs. apply sys_ok_acked; [done|]. by rewrite Hd in Hcn.
  - exists fs, rs. apply sys_ok_conn; [done|]. rewrite Hd in Hcn. apply Hcn.
  - exists fs, rs. assert (saved (sy_store sy) (all_files (sy_store sy) fs rs) (cn_hist cn)) as Hsv.
    { split; [by eapply Covers_recs|]. intros Hs. exists p. split; [done|]. eapply behind_le; [done|].
      by apply (so_point _ _ _ HS). }
    apply sys_ok_acked; [|done]. by apply sys_ok_conn.
  - exists fs, rs. apply sys_ok_durable; [|apply (so_point _ _ _ HS)]. by apply sys_ok_conn.
  - pose proof (so_inv _ _ _ HS) as HI. pose proof (handle_point (sy_store sy) fs rs HI) as Hpt.
    destruct (flush_inv _ _ _ HI) as (HI' & _). pose proof (handle_grows (sy_store sy) fs rs HI (so_restoring _ _ _ HS)) as HG.
    unfold sync_handle in E, HG, Hpt. injection E as <- <-. destruct HG as (fs' & rs' & HG).
    destruct (SInv_unique _ _ _ _ _ (gr_inv _ _ _ _ _ _ HG) HI') as [-> ->]. destruct Hpt as (P1 & P2 & P3).
    exists fs, rs. apply (sys_ok_conn (set_store _ sy)); [by eapply sys_ok_grown|]. simpl. split_and!.
    + eapply Covers_grow, Hcn. apply HG.
    + eapply Covers_less; [apply prefix_nil|exact P1].
    + done.
  - destruct Hcn as (H1 & H2 & H3). pose proof (so_inv _ _ _ HS) as HI.
    destruct (note_synced_grows (sy_store sy) pt) with (fs := fs) (rs := rs) as (fs' & rs' & HG);
      [|done|done|apply (so_restoring _ _ _ HS)|].
    { intros fs0 rs0 HI0. by destruct (SInv_unique _ _ _ _ _ HI0 HI) as [-> ->]. }
    exists fs', rs'. apply (sys_ok_conn (set_store _ sy)); [by eapply sys_ok_grown|]. simpl. split.
    + eapply Covers_grow, H1. apply HG.
    + apply note_synced_behind. by eapply Covers_le.
  - exists fs, rs. apply sys_ok_durable; [|apply (so_point _ _ _ HS)]. by apply sys_ok_conn.
  - destruct Hcn as (H1 & H2). exists fs, rs. apply sys_ok_durable; [by apply sys_ok_conn|]. simpl.
    destruct (point_lt _ _); [done|]. apply (so_point _ _ _ HS).
  - exists fs, rs. apply sys_ok_conn; [done|]. split; [apply prefix_nil|]. intros _.
    exists (active_id (sy_store sy), 0). split; [apply Covers_zero|apply behind_zero].
  - exists fs, rs. by apply sys_ok_conn.
Qed.

Lemma bind_ok s hs0 hs :
  History s hs0 hs → s_restoring s = false → (syncs s → is_synced s = true) → ∃ fs rs, sys_ok (bind s) fs rs.
Proof.
  intros (fs & rs & r0 & HI & _) Hre Hs. exists fs, rs. split; try done.
  - intros Ho. specialize (Hs Ho). right. simpl. unfold is_synced in Hs. apply N.eqb_eq in Hs. unfold active_id. split; [done|lia].
Qed.

Lemma reachable_ok s sy :
  (∃ fs rs, sys_ok (bind s) fs rs) → rtc sys_step (bind s) sy → ∃ fs rs, sys_ok sy fs rs.
Proof.
  intros H Hr. revert H. induction Hr as [|sy1 sy2 sy3 Hst Hr IH]; [done|].
  intros (fs & rs & HS). apply IH. by eapply step_ok.
Qed.

Lemma step_opts sy sy' fs rs :
  sys_step sy sy' → sys_ok sy fs rs → s_opts (sy_store sy') = s_opts (sy_store sy).
Proof.
  destruct 1 as [sy i cn c args reply s' d' hs0 h hs0' h' Hi Hp Hne Ha Hc E HH HH'|sy i cn Hi Hp Hd|sy i cn p Hi Hp Hd
    |sy i cn p Hi Hp Hd|sy i cn p Hi Hp Hd Hs|sy i cn p pt s' Hi Hp E|sy i cn p pt Hi Hp|sy i cn p pt Hi Hp
    |sy i cn p pt Hi Hp|sy i Hi|sy i cn Hi Hp]; intros HS; try done.
  - destruct (dispatch_grows c Hc args _ _ _ _ _ Ha Hne E) as [HG _].
    destruct (HG fs rs (so_inv _ _ _ HS) (so_restoring _ _ _ HS)) as (fs' & rs' & HG'). apply HG'.
  - pose proof (handle_grows (sy_store sy) fs rs (so_inv _ _ _ HS) (so_restoring _ _ _ HS)) as (fs' & rs' & HG).
    rewrite E in HG. apply HG.
  - simpl. unfold note_synced. by destruct (_ && _).
Qed.

Lemma reachable_opts s sy :
  (∃ fs rs, sys_ok (bind s) fs rs) → rtc sys_step (bind s) sy → s_opts (sy_store sy) = s_opts s.
Proof.
  intros H Hr. change (s_opts s) with (s_opts (sy_store (bind s))). revert H.
  induction Hr as [|sy1 sy2 sy3 Hst Hr IH]; [done|]. intros (fs & rs & HS).
  rewrite IH by (by eapply step_ok). by eapply step_opts.
Qed.

Lemma sys_ok_history sy fs rs :
  sys_ok sy fs rs → syncs (sy_store sy) →
  ∃ r0, History (sy_store sy) (all_recs fs ++ r0) (all_recs fs ++ rs) ∧ Forall (λ h, h `prefix_of` all_recs fs ++ r0) (sy_acked sy).
Proof.
  intros [HI Hre Hp Hc Ha] Hs. destruct (si_writer _ _ _ HI) as (r0 & r1 & r2 & E & _ & _ & _ & _ & W5).
  assert (r0 `prefix_of` rs) as Hr0 by (rewrite E; by apply prefix_app_r).
  exists r0. split; [by exists fs, rs, r0|]. eapply list.Forall_impl; [exact Ha|].
  intros h [_ (p & Hcov & Hb)%(λ H, H Hs)]. by eapply behind_synced.
Qed.

(** No reply to a write leaves before the write is safe. However connections interleave
    their commands, their waits and the fsync one of them runs for all, fail or not, take
    any moment: every batch of replies that has left by then, of any connection, claims
    only writes that are on the disk. Crash at that moment, losing what was not synced,
    and open the directory again: opening succeeds, with all those writes there. *)
Theorem group_commit_durable (s : Store) (hs0 hs : list Rec) (sy : System) (n : N) (opts : Options) :
  History s hs0 hs → s_restoring s = false → o_sync (s_opts s) = EveryWrite → is_synced s = true →
  rtc sys_step (bind s) sy → may_crash_at n (sy_store sy) → is_u64 (o_max_file_bytes opts) →
  ∃ s' hs', open_with opts (crash n (sy_store sy)) = (Ok s', s_dir s') ∧ History s' hs' hs' ∧
    ∀ h, h ∈ sy_acked sy → h `prefix_of` hs'.
Proof.
  intros HH Hre Ho Hs Hr Hn Hmax.
  pose proof (bind_ok s hs0 hs HH Hre (λ _, Hs)) as Hok. destruct (reachable_ok s sy Hok Hr) as (fs & rs & HS).
  assert (syncs (sy_store sy)) as Ho' by (by rewrite (reachable_opts s sy Hok Hr)).
  destruct (sys_ok_history sy fs rs HS Ho') as (r0 & HH' & Ha).
  destruct (crash_open _ _ _ n opts HH' Hn Hmax) as (s' & hs' & E & HH'' & H0 & _).
  exists s', hs'. split_and!; [done|done|]. intros h Hin. rewrite list.Forall_forall in Ha. etrans; [by apply Ha|done].
Qed.

(** ** Someone is syncing while the flag says so *)

(** In the part of [wait] that syncs for everyone. *)
Definition busy (cn : Conn) : bool :=
  match cn_phase cn with Starting _ | Syncing _ _ | Noted _ _ => true | _ => false end.

(** The flag is up only while someone is there to take it down. *)
Definition flag_ok (sy : System) : Prop :=
  du_syncing (sy_durable sy) = true → ∃ i cn, sy_conns sy !! i = Some cn ∧ busy cn = true.

Lemma flag_conn sy sy' i cn :
  flag_ok sy → du_syncing (sy_durable sy') = du_syncing (sy_durable sy) → sy_conns sy' = <[i := cn]> (sy_conns sy) →
  (∀ cn0, sy_conns sy !! i = Some cn0 → busy cn0 = true → busy cn = true) → flag_ok sy'.
Proof.
  intros HF Ed Ec Hb. unfold flag_ok. rewrite Ed. intros (j & cnj & Hj & Hbj)%HF.
  destruct (decide (j = i)) as [->|Hne].
  - exists i, cn. rewrite Ec, lookup_insert_eq. split; [done|]. by eapply Hb.
  - exists j, cnj. by rewrite Ec, lookup_insert_ne.
Qed.

Lemma step_flag sy sy' : sys_step sy sy' → flag_ok sy → flag_ok sy'.
Proof.
  destruct 1 as [sy i cn c args reply s' d' hs0 h hs0' h' Hi Hp Hne Ha Hc E HH HH'|sy i cn Hi Hp Hd|sy i cn p Hi Hp Hd
    |sy i cn p Hi Hp Hd|sy i cn p Hi Hp Hd Hs|sy i cn p pt s' Hi Hp E|sy i cn p pt Hi Hp|sy i cn p pt Hi Hp
    |sy i cn p pt Hi Hp|sy i Hi|sy i cn Hi Hp]; intros HF; try done.
  all: try (eapply (flag_conn sy _ i); [done|reflexivity|reflexivity|]; intros cn0 Hi' Hb; unfold busy in Hb; simplify_eq; try (rewrite Hp in Hb; done); try done).
  intros _. exists i, (mkConn None (Starting p) (cn_hist cn)). split; [apply lookup_insert_eq|done].
Qed.

Lemma Covers_not_past s fs rs p h :
  SInv s fs rs → Covers (all_files s fs rs) p h → point_lt (append_point s) p = false.
Proof.
  intros HI Hc. pose proof (Covers_le s fs rs p h HI Hc) as Hle. unfold point_lt, append_point. simpl.
  rewrite orb_false_iff, N.ltb_ge. split; [done|].
  destruct (N.eqb_spec (lw_file_id (s_writer s)) p.1) as [E|E]; [|done]. simpl. apply N.ltb_ge.
  destruct (Covers_active s fs rs p h HI Hc (eq_sym E)) as (q & [q' ->] & -> & _).
  rewrite (Wok_offset _ _ _ (si_writer _ _ _ HI)), file_bytes_app, blen_app. lia.
Qed.

Lemma point_lt_trans p q r : point_lt p q = false → point_lt q r = false → point_lt p r = false.
Proof.
  unfold point_lt. rewrite !orb_false_iff, !andb_false_iff, !N.ltb_ge, !N.eqb_neq.
  intros [H1 H2] [H3 H4]. split; [lia|]. destruct H2, H4; try lia.
Qed.

Lemma reachable_flag s sy : rtc sys_step (bind s) sy → flag_ok sy.
Proof.
  assert (flag_ok (bind s)) as H0 by done. intros Hr. revert H0.
  induction Hr as [|sy1 sy2 sy3 Hst Hr IH]; [done|]. intros HF. by eapply IH, step_flag.
Qed.

(** ** One key, set and not synced *)

Definition every_write : Options := small_files EveryWrite.

Definition sea_store : Store :=
  (put_deferred (lit "sea") (lit "blue") 9 9 (fresh_store every_write)).2.

Lemma fresh_history opts : is_u64 (o_max_file_bytes opts) → History (fresh_store opts) [] [].
Proof. intros H. exists [], [], []. split_and!; try done. by apply fresh_inv. Qed.
