(* ===== verification/ServerLoop.v ===== *)
(** * A connection, from its bytes to its replies (src/server.rs)

    [serve] reads commands off a socket, runs them and holds their replies; [send] lets them
    go, in one write for a whole batch, once the disk has the writes they acknowledge. Here
    the bytes a client sends and gets are in the model, and so is when a batch is sent: the
    read buffer is empty, too much is held, or the connection ends. The server as connections
    that interleave between lock regions implements the system of ServerCommit. *)

From S2P Require Import Prelude.
From S2P Require Import Crc.
From S2P Require Import RecordFormat.
From S2P Require Import DataLog.
From S2P Require Import HintFile.
From S2P Require Import Store.
From S2P Require Import StoreIndex.
From S2P Require Import StoreInv.
From S2P Require Import StoreOps.
From S2P Require Import StoreMap.
From S2P Require Import StoreOpen.
From S2P Require Import StoreCrash.
From S2P Require Import StoreGrow.
From S2P Require Import Resp.
From S2P Require Import Server.
From S2P Require Import ServerCommit.

#[local] Open Scope N_scope.
#[local] Opaque rec_bytes.

(** ** Reading *)

(** A [BufReader] on a socket: what it has buffered, then what each further read of the
    socket gives, to the end of the stream. It reads only when its buffer is empty. *)
Abbreviation Input := (list bytes).

Definition buffer (inp : Input) : bytes := match inp with chunk :: _ => chunk | [] => [] end.

(** What is left once [n] bytes have been taken. *)
Fixpoint consume (n : nat) (inp : Input) : Input :=
  match inp with
  | [] => []
  | chunk :: rest => if (n <=? length chunk)%nat then drop n chunk :: rest else consume (n - length chunk) rest
  end.

Inductive Heard :=
  | Command (args : list bytes) (inp : Input)
  | HungUp
  | Garbled (detail : string)
  | Broken.

(** [resp::read_command] on the connection's reader. *)
Definition hear (inp : Input) : Heard :=
  let stream := mjoin inp in
  match read_command stream with
  | inl (Some args, rest) => Command args (consume (length stream - length rest) inp)
  | inl (None, _) => HungUp
  | inr (InvalidData detail) => Garbled detail
  | inr (UnexpectedEof _) => Broken
  end.

(** ** A connection *)

Definition MAX_HELD_REPLIES : N := 64 * 1024.

(** Where the connection's thread is: at the top of the loop of [serve]; at the top of [send];
    in [wait], called from there; or returned. [last]: [serve] returns after this [send]. *)
Inductive Position :=
  | Reading
  | Sending (last : bool)
  | Committing (ph : Phase) (last : bool)
  | Ended.

#[export] Instance Phase_eq_dec : EqDecision Phase.
Proof. solve_decision. Defined.
#[export] Instance Position_eq_dec : EqDecision Position.
Proof. solve_decision. Defined.

(** The locals of [serve]. [ss_sent] is what the socket has taken so far; [ss_stream], all that
    the client will have sent, is not in the code. *)
Record Session := mkSession {
  ss_input : Input;
  ss_out : bytes;
  ss_durable_by : option (N * N);
  ss_at : Position;
  ss_sent : bytes;
  ss_stream : bytes;
}.

Definition move_to (p : Position) (ss : Session) : Session :=
  mkSession (ss_input ss) (ss_out ss) (ss_durable_by ss) p (ss_sent ss) (ss_stream ss).

Definition protocol_error (detail : string) : Reply := Reply_err (lit "Protocol error: " ++ lit detail).

Definition eq_ignore_ascii_case (a b : bytes) : bool := bool_decide (to_ascii_lowercase a = to_ascii_lowercase b).

(** One turn of the loop of [serve], up to [send] if it comes to that: the connection, the
    store, and the command that ran with its reply. *)
Definition serve_turn (c : clock) (ss : Session) (s : Store) : Session * Store * option (list bytes * Reply) :=
  match hear (ss_input ss) with
  | HungUp | Broken => (move_to Ended ss, s, None)
  | Garbled detail =>
      (mkSession (ss_input ss) (ss_out ss ++ write_to (protocol_error detail)) (ss_durable_by ss) (Sending true)
         (ss_sent ss) (ss_stream ss), s, None)
  | Command [] inp => (mkSession inp (ss_out ss) (ss_durable_by ss) Reading (ss_sent ss) (ss_stream ss), s, None)
  | Command (name :: args) inp =>
      let quit := eq_ignore_ascii_case name (lit "QUIT") in
      let '(reply, (s', durable_by)) := dispatch c (name :: args) (ss_durable_by ss) s in
      let out := ss_out ss ++ write_to reply in
      let p := if quit || bool_decide (buffer inp = []) || (MAX_HELD_REPLIES <=? blen out) then Sending quit else Reading in
      (mkSession inp out durable_by p (ss_sent ss) (ss_stream ss), s', Some (name :: args, reply))
  end.

(** [write_all] of what is held, of which the socket takes [n] bytes: all of it and [send]
    returns, or the connection ends with the error. *)
Definition write_held (n : nat) (last : bool) (ss : Session) : Session :=
  mkSession (ss_input ss) [] None
    (if (length (ss_out ss) <=? n)%nat then if last then Ended else Reading else Ended)
    (ss_sent ss ++ take n (ss_out ss)) (ss_stream ss).

Definition sync_refused (e : Error) : Reply :=
  Reply_err (lit "the disk refused to sync, so earlier writes may not be durable: " ++ error_display e).

(** The other end of [send]: the wait failed. The replies are dropped, and the client is told;
    the socket may not take all of that either. *)
Definition write_refusal (n : nat) (e : Error) (ss : Session) : Session :=
  mkSession (ss_input ss) [] None Ended (ss_sent ss ++ take n (write_to (sync_refused e))) (ss_stream ss).

(** ** The server *)

(** A command that ran: whose it was, and the store on either side of it. *)
Record Ran := mkRan { rn_conn : nat; rn_args : list bytes; rn_reply : Reply; rn_before : Store; rn_after : Store }.

(** The listener's connections and what they share. [sv_asleep]: the threads asleep on the
    condition variable [synced], in the loop of [wait]. [sv_ran], every command in the order
    they ran, is not in the code. *)
Record ServerState := mkServerState {
  sv_store : Store;
  sv_durable : Durable;
  sv_asleep : gset nat;
  sv_sessions : gmap nat Session;
  sv_ran : list Ran;
}.

Definition set_session (i : nat) (ss : Session) (sv : ServerState) : ServerState :=
  mkServerState (sv_store sv) (sv_durable sv) (sv_asleep sv) (<[i := ss]> (sv_sessions sv)) (sv_ran sv).
Definition share_store (s : Store) (sv : ServerState) : ServerState :=
  mkServerState s (sv_durable sv) (sv_asleep sv) (sv_sessions sv) (sv_ran sv).
Definition share_durable (d : Durable) (sv : ServerState) : ServerState :=
  mkServerState (sv_store sv) d (sv_asleep sv) (sv_sessions sv) (sv_ran sv).

Definition set_asleep (l : gset nat) (sv : ServerState) : ServerState :=
  mkServerState (sv_store sv) (sv_durable sv) l (sv_sessions sv) (sv_ran sv).

(** [notify_all] on [synced]. *)
Definition notify_all (sv : ServerState) : ServerState := set_asleep ∅ sv.

(** The store after a turn, and the command noted if there was one. *)
Definition ran_turn (i : nat) (s' : Store) (ran : option (list bytes * Reply)) (sv : ServerState) : ServerState :=
  mkServerState s' (sv_durable sv) (sv_asleep sv) (sv_sessions sv)
    (sv_ran sv ++ match ran with Some (args, reply) => [mkRan i args reply (sv_store sv) s'] | None => [] end).

(** [Server::bind] *)
Definition server_bind (s : Store) : ServerState := mkServerState s (mkDurable (append_point s) false) ∅ ∅ [].

(** The words of a line are within the limit that the protocol sets for bulk strings. *)
Definition words_fit (inp : Input) : Prop :=
  ∀ args inp', hear inp = Command args inp' → Forall arg_ok args.

(** One lock region of one connection, or a new connection. *)
Inductive server_step : ServerState → ServerState → Prop :=
  | server_accept sv i inp :
      sv_sessions sv !! i = None → server_step sv (set_session i (mkSession inp [] None Reading [] (mjoin inp)) sv)
  | server_turn sv i ss c ss' s' ran :
      sv_sessions sv !! i = Some ss → ss_at ss = Reading → (∀ j, is_u64 (c j)) → words_fit (ss_input ss) →
      serve_turn c ss (sv_store sv) = (ss', s', ran) →
      server_step sv (ran_turn i s' ran (set_session i ss' sv))
  | server_broken sv i ss :
      (* the socket fails while it is read *)
      sv_sessions sv !! i = Some ss → ss_at ss = Reading → server_step sv (set_session i (move_to Ended ss) sv)
  | server_send sv i ss last n :
      (* nothing to wait for *)
      sv_sessions sv !! i = Some ss → ss_at ss = Sending last → ss_durable_by ss = None →
      server_step sv (set_session i (write_held n last ss) sv)
  | server_wait sv i ss last p :
      sv_sessions sv !! i = Some ss → ss_at ss = Sending last → ss_durable_by ss = Some p →
      server_step sv (set_session i (mkSession (ss_input ss) (ss_out ss) None (Committing (Waiting p) last)
                                    (ss_sent ss) (ss_stream ss)) sv)
  | server_reached sv i ss p last n :
      (* [wait] returns, and the replies are written *)
      sv_sessions sv !! i = Some ss → ss_at ss = Committing (Waiting p) last → i ∉ sv_asleep sv →
      point_lt (du_point (sv_durable sv)) p = false →
      server_step sv (set_session i (write_held n last ss) sv)
  | server_start sv i ss p last :
      (* nobody is syncing, so this thread does *)
      sv_sessions sv !! i = Some ss → ss_at ss = Committing (Waiting p) last → i ∉ sv_asleep sv →
      point_lt (du_point (sv_durable sv)) p = true → du_syncing (sv_durable sv) = false →
      server_step sv (share_durable (mkDurable (du_point (sv_durable sv)) true)
        (set_session i (move_to (Committing (Starting p) last) ss) sv))
  | server_sleep sv i ss p last :
      (* someone is syncing, so this thread sleeps *)
      sv_sessions sv !! i = Some ss → ss_at ss = Committing (Waiting p) last → i ∉ sv_asleep sv →
      point_lt (du_point (sv_durable sv)) p = true → du_syncing (sv_durable sv) = true →
      server_step sv (set_asleep ({[i]} ∪ sv_asleep sv) sv)
  | server_stirs sv i :
      (* a thread that sleeps on a condition variable may wake up for no reason *)
      i ∈ sv_asleep sv → server_step sv (set_asleep (sv_asleep sv ∖ {[i]}) sv)
  | server_handle sv i ss p last pt s' :
      sv_sessions sv !! i = Some ss → ss_at ss = Committing (Starting p) last →
      sync_handle (sv_store sv) = (pt, s') →
      server_step sv (share_store s' (set_session i (move_to (Committing (Syncing p pt) last) ss) sv))
  | server_synced sv i ss p pt last :
      sv_sessions sv !! i = Some ss → ss_at ss = Committing (Syncing p pt) last →
      server_step sv (share_store (note_synced pt (sv_store sv))
        (set_session i (move_to (Committing (Noted p pt) last) ss) sv))
  | server_sync_failed sv i ss p pt last e n :
      sv_sessions sv !! i = Some ss → ss_at ss = Committing (Syncing p pt) last →
      server_step sv (notify_all (share_durable (mkDurable (du_point (sv_durable sv)) false)
        (set_session i (write_refusal n e ss) sv)))
  | server_done sv i ss p pt last :
      sv_sessions sv !! i = Some ss → ss_at ss = Committing (Noted p pt) last →
      server_step sv (notify_all (share_durable (mkDurable (if point_lt (du_point (sv_durable sv)) pt then pt
                                                 else du_point (sv_durable sv)) false)
        (set_session i (move_to (Committing (Waiting p) last) ss) sv))).

(** ** What a client may rely on *)

(** A command on a map, with its reply. *)
Definition map_command (args : list bytes) (m : kvmap) : Reply * kvmap :=
  match args with
  | [] => (Reply_err [], m)
  | name :: args =>
      let '(r, m) := map_dispatch (to_ascii_uppercase (utf8_lossy name)) args m in
      (match r with Ok reply => reply | Err e => Reply_err (error_display e) end, m)
  end.

Fixpoint map_run (commands : list (list bytes)) (m : kvmap) : list Reply * kvmap :=
  match commands with
  | [] => ([], m)
  | args :: commands =>
      let '(reply, m) := map_command args m in
      let '(replies, m) := map_run commands m in (reply :: replies, m)
  end.

(** The commands read off a stream, the empty ones left out, and what is left of it. *)
Inductive taken (stream : bytes) : list (list bytes) → bytes → Prop :=
  | taken_none : taken stream [] stream
  | taken_blank commands l l' :
      taken stream commands l → read_command l = inl (Some [], l') → taken stream commands l'
  | taken_command commands l args l' :
      taken stream commands l → read_command l = inl (Some args, l') → args ≠ [] → taken stream (commands ++ [args]) l'.

(** No empty command in the stream. *)
Definition no_blanks (stream : bytes) : Prop :=
  ∀ commands l l', taken stream commands l → read_command l ≠ inl (Some [], l').

Definition replies_bytes (ran : list Ran) : bytes := mjoin (write_to ∘ rn_reply <$> ran).

(** The commands of one connection, in the order they ran. *)
Definition ran_by (i : nat) (ran : list Ran) : list Ran := filter (λ e, rn_conn e = i) ran.

(** What may come after the last reply: nothing, that the stream made no sense, or that the disk
    refused to sync. *)
Definition farewell (ss : Session) (closing : bytes) : Prop :=
  closing = [] ∨
  (∃ detail, read_command (mjoin (ss_input ss)) = inr (InvalidData detail) ∧ closing = write_to (protocol_error detail)) ∨
  (∃ e, closing = write_to (sync_refused e)).

(** ** Reading takes commands off the front of the stream *)

Lemma consume_join n inp : mjoin (consume n inp) = drop n (mjoin inp).
Proof.
  revert n. induction inp as [|chunk rest IH]; intros n; simpl; [by rewrite drop_nil|].
  destruct (Nat.leb_spec n (length chunk)); simpl; [by rewrite drop_app_le by lia|].
  rewrite IH, drop_app_ge by lia. done.
Qed.

Lemma suffix_drop {A} (l1 l2 : list A) : l1 `suffix_of` l2 → drop (length l2 - length l1) l2 = l1.
Proof. intros [k ->]. rewrite length_app, drop_app_ge by lia. replace (_ - _)%nat with 0%nat by lia. done. Qed.

Lemma hear_command inp args inp' :
  hear inp = Command args inp' → read_command (mjoin inp) = inl (Some args, mjoin inp').
Proof.
  unfold hear. cbv zeta. destruct (read_command (mjoin inp)) as [[[a|] rest]|[]] eqn:E; try done. intros [= -> <-].
  rewrite consume_join, suffix_drop; [done|]. by destruct (command_within_limits _ _ _ E).
Qed.

(** An array's arguments are always within the limit. *)
Lemma array_words_fit inp : head (mjoin inp) = Some x2a → words_fit inp.
Proof.
  intros Hh args inp' E%hear_command. destruct (command_within_limits _ _ _ E) as (_ & Ha & _).
  by destruct (Ha Hh).
Qed.

Lemma map_run_snoc commands args m :
  map_run (commands ++ [args]) m =
  let '(replies, m1) := map_run commands m in
  let '(reply, m2) := map_command args m1 in (replies ++ [reply], m2).
Proof.
  revert m. induction commands as [|a commands IH]; intros m; simpl; [by destruct (map_command args m)|].
  destruct (map_command a m) as [r m1]. rewrite IH. destruct (map_run commands m1) as [rs m2].
  by destruct (map_command args m2).
Qed.

Lemma replies_app es es' : replies_bytes (es ++ es') = replies_bytes es ++ replies_bytes es'.
Proof. unfold replies_bytes. by rewrite fmap_app, join_app. Qed.

Lemma replies_snoc es e : replies_bytes (es ++ [e]) = replies_bytes es ++ write_to (rn_reply e).
Proof. rewrite replies_app. unfold replies_bytes at 2. simpl. by rewrite app_nil_r. Qed.

Lemma ran_by_snoc i ran e : rn_conn e = i → ran_by i (ran ++ [e]) = ran_by i ran ++ [e].
Proof. intros H. unfold ran_by. rewrite list.filter_app. f_equal. by rewrite list.filter_cons_True. Qed.

Lemma ran_by_other i ran e : rn_conn e ≠ i → ran_by i (ran ++ [e]) = ran_by i ran.
Proof. intros H. unfold ran_by. rewrite list.filter_app, (list.filter_cons_False _ e) by done. apply app_nil_r. Qed.

(** ** The server implements the system of connections *)

Definition phase_at (p : Position) : Phase :=
  match p with Reading | Sending _ => Running | Committing ph _ => ph | Ended => Closed end.

(** The point that a thread inside [wait] was called with. *)
Definition wait_point (ph : Phase) : option (N * N) :=
  match ph with Waiting p | Starting p | Syncing p _ | Noted p _ => Some p | Running | Closed => None end.

(** If the command wrote anything, all it left in the store is within [h]. *)
Definition left_within (h : list Rec) (e : Ran) : Prop :=
  ∃ a h0 b h1, History (rn_before e) a h0 ∧ History (rn_after e) b h1 ∧ (h0 ≠ h1 → h1 `prefix_of` h).

(** What it left is within a history that some batch of replies claimed. *)
Definition left_claimed (acked : list (list Rec)) (e : Ran) : Prop :=
  ∃ a h0 b h1, History (rn_before e) a h0 ∧ History (rn_after e) b h1 ∧ (h0 ≠ h1 → ∃ h, h ∈ acked ∧ h1 `prefix_of` h).

(** [done]: the commands whose replies were sent, [held]: those whose replies wait. *)
Definition session_at (ss : Session) (done held : list Ran) : Prop :=
  match ss_at ss with
  | Reading =>
      ss_sent ss = replies_bytes done ∧ ss_out ss = replies_bytes held ∧
      (buffer (ss_input ss) = [] → no_blanks (ss_stream ss) → ss_out ss = [])
  | Sending last | Committing _ last =>
      ss_sent ss = replies_bytes done ∧
      ∃ closing, ss_out ss = replies_bytes held ++ closing ∧ (closing ≠ [] → last = true) ∧ farewell ss closing
  | Ended => ∃ closing, ss_sent ss `prefix_of` replies_bytes done ++ closing ∧ farewell ss closing
  end.

Record session_inv (acked : list (list Rec)) (hist : list Rec) (ran done held : list Ran) (ss : Session) : Prop := {
  li_taken : taken (ss_stream ss) (rn_args <$> ran) (mjoin (ss_input ss));
  li_split : ran = done ++ held;
  li_done : Forall (left_claimed acked) done;
  li_held : ss_at ss ≠ Ended → Forall (left_within hist) held;
  li_at : session_at ss done held;
  li_waiting : ∀ ph last, ss_at ss = Committing ph last → ss_durable_by ss = None ∧ is_Some (wait_point ph);
}.

(** The connection of the system that a connection of the server implements. *)
Record implements (sy : System) (ran : list Ran) (i : nat) (ss : Session) (cn : Conn) : Prop := {
  im_conn : sy_conns sy !! i = Some cn;
  im_phase : cn_phase cn = phase_at (ss_at ss);
  im_durable_by : ss_at ss ≠ Ended → cn_durable_by cn = ss_durable_by ss;
  im_session : ∃ done held, session_inv (sy_acked sy) (cn_hist cn) (ran_by i ran) done held ss;
}.

Record server_inv (s : Store) (m : kvmap) (sv : ServerState) (sy : System) (m' : kvmap) : Prop := {
  sv_reach : rtc sys_step (bind s) sy;
  sv_same_store : sy_store sy = sv_store sv;
  sv_same_durable : sy_durable sy = sv_durable sv;
  sv_serving : Serving (sv_store sv) m';
  sv_replies : map_run (rn_args <$> sv_ran sv) m = (rn_reply <$> sv_ran sv, m');
  sv_new : ∀ i, sv_sessions sv !! i = None → sy_conns sy !! i = None ∧ ran_by i (sv_ran sv) = [];
  sv_conn : ∀ i ss, sv_sessions sv !! i = Some ss → ∃ cn, implements sy (sv_ran sv) i ss cn;
}.

Lemma claimed_within acked h e : (∀ h', h' ∈ acked → h' `prefix_of` h) → left_claimed acked e → left_within h e.
Proof.
  intros Ha (a & h0 & b & h1 & H0 & H1 & H). exists a, h0, b, h1. split_and!; [done|done|].
  intros (h' & Hin & Hp)%H. etrans; [exact Hp|by apply Ha].
Qed.

Lemma claimed_mono acked acked' e : acked ⊆ acked' → left_claimed acked e → left_claimed acked' e.
Proof.
  intros Hsub (a & h0 & b & h1 & H0 & H1 & H). exists a, h0, b, h1. split_and!; [done|done|].
  intros (h & Hin & Hp)%H. eauto.
Qed.

Lemma within_mono h h' e : h `prefix_of` h' → left_within h e → left_within h' e.
Proof.
  intros Hp (a & h0 & b & h1 & H0 & H1 & H). exists a, h0, b, h1. split_and!; [done|done|].
  intros Hne. etrans; [by apply H|done].
Qed.

Lemma within_claimed acked h e : h ∈ acked → left_within h e → left_claimed acked e.
Proof.
  intros Hin (a & h0 & b & h1 & H0 & H1 & H). exists a, h0, b, h1. split_and!; [done|done|].
  intros Hne. exists h. split; [done|by apply H].
Qed.

Lemma session_inv_acked acked acked' hist ran done held ss :
  acked ⊆ acked' → session_inv acked hist ran done held ss → session_inv acked' hist ran done held ss.
Proof.
  intros Hsub [H1 H2 H3 H4 H5 H6]. split; try done. eapply list.Forall_impl; [exact H3|].
  intros e. by apply claimed_mono.
Qed.

(** The other connections are as they were. *)
Record others (i : nat) (sy sy' : System) : Prop := {
  ot_conns : ∀ j, j ≠ i → sy_conns sy' !! j = sy_conns sy !! j;
  ot_acked : sy_acked sy ⊆ sy_acked sy';
}.

(** A step of the server that changes one connection. *)
Lemma server_inv_session s m sv sy m1 sv' sy' m2 i ss' cn' :
  server_inv s m sv sy m1 → rtc sys_step sy sy' → others i sy sy' →
  sy_store sy' = sv_store sv' → sy_durable sy' = sv_durable sv' → Serving (sv_store sv') m2 →
  map_run (rn_args <$> sv_ran sv') m = (rn_reply <$> sv_ran sv', m2) →
  sv_sessions sv' = <[i := ss']> (sv_sessions sv) → (∀ j, j ≠ i → ran_by j (sv_ran sv') = ran_by j (sv_ran sv)) →
  implements sy' (sv_ran sv') i ss' cn' → server_inv s m sv' sy' m2.
Proof.
  intros HV Hr [Oc Oa] Es Ed HS Hm El Hran Him. split; try done.
  - etrans; [apply HV|done].
  - intros j. rewrite El. destruct (decide (j = i)) as [->|Hne]; [by rewrite lookup_insert_eq|].
    rewrite lookup_insert_ne, Oc, Hran by done. apply HV.
  - intros j ss. rewrite El. destruct (decide (j = i)) as [->|Hne].
    { rewrite lookup_insert_eq. intros [= <-]. by exists cn'. }
    rewrite lookup_insert_ne by done. intros Hj. destruct (sv_conn _ _ _ _ _ HV j ss Hj) as (cn & [C1 C2 C3 C4]).
    exists cn. split; [by rewrite Oc|done|done|]. destruct C4 as (done & held & HL). exists done, held.
    rewrite Hran by done. by eapply session_inv_acked.
Qed.

(** ** Every step keeps it so *)

Lemma SInv_history s fs rs : SInv s fs rs → ∃ hs0, History s hs0 (all_recs fs ++ rs).
Proof.
  intros HI. destruct (si_writer _ _ _ HI) as (r0 & r1 & r2 & E & _ & _ & _ & _ & W5).
  exists (all_recs fs ++ r0), fs, rs, r0. split_and!; try done. rewrite E. by apply prefix_app_r.
Qed.

Lemma serving_same s s' fs rs m :
  Serving s m → SInv s fs rs → SInv s' fs rs → s_restoring s' = s_restoring s → Serving s' m.
Proof.
  intros [(fs0 & rs0 & HI0 & <-) Hre] HI HI' E. destruct (SInv_unique _ _ _ _ _ HI0 HI) as [-> ->].
  split; [|by rewrite E]. exists fs, rs. split; [done|]. unfold contents. by rewrite !all_recs_files.
Qed.

Lemma dispatch_command c args d s m :
  (∀ i, is_u64 (c i)) → Serving s m → args ≠ [] → Forall arg_ok args →
  ∃ s' d', dispatch c args d s = ((map_command args m).1, (s', d')) ∧ Serving s' (map_command args m).2.
Proof.
  intros Hc HS Hne Ha. destruct args as [|name args]; [done|]. apply Forall_cons_1 in Ha as [_ Ha].
  pose proof (dispatch_exact c name args d s m Hc HS Ha) as H. unfold map_command.
  destruct (map_dispatch _ args m) as [r m']. destruct H as (s' & d' & E & HS' & _). by exists s', d'.
Qed.

Section steps.
Variables (s : Store) (m : kvmap).
Hypothesis Hok : ∃ fs rs, sys_ok (bind s) fs rs.

Lemma inv_ok sv sy m' : server_inv s m sv sy m' → ∃ fs rs, sys_ok sy fs rs.
Proof. intros HV. eapply reachable_ok; [exact Hok|apply HV]. Qed.

Lemma others_conn i cn sy : others i sy (set_conn i cn sy).
Proof. split; [intros j Hj; by apply lookup_insert_ne|done]. Qed.

(** The command of a turn, as a step of the system. *)
Lemma command_step sv sy m1 i ss cn done held c args inp reply s' d' :
  server_inv s m sv sy m1 → sv_sessions sv !! i = Some ss → ss_at ss = Reading → (∀ j, is_u64 (c j)) →
  Forall arg_ok args → args ≠ [] → hear (ss_input ss) = Command args inp →
  sy_conns sy !! i = Some cn → cn_phase cn = Running →
  session_inv (sy_acked sy) (cn_hist cn) (ran_by i (sv_ran sv)) done held ss →
  dispatch c args (cn_durable_by cn) (sv_store sv) = (reply, (s', d')) →
  let e := mkRan i args reply (sv_store sv) s' in
  ∃ hist, rtc sys_step sy (set_store s' (set_conn i (mkConn d' Running hist) sy)) ∧
    taken (ss_stream ss) (rn_args <$> ran_by i (sv_ran sv ++ [e])) (mjoin inp) ∧
    ran_by i (sv_ran sv ++ [e]) = done ++ (held ++ [e]) ∧ Forall (left_within hist) (held ++ [e]).
Proof.
  intros HV Hi Hat Hc Ha Hne Eh Hcn Hp [L1 L2 L3 L4 L5 L6] Ed e.
  destruct (inv_ok _ _ _ HV) as (fs & rs & HS). pose proof (sv_same_store _ _ _ _ _ HV) as Es. rewrite <-Es in Ed.
  destruct (dispatch_grows c Hc args _ _ _ _ _ Ha Hne Ed) as [HG _].
  destruct (HG fs rs (so_inv _ _ _ HS) (so_restoring _ _ _ HS)) as (fs' & rs' & HG').
  destruct (SInv_history _ _ _ (so_inv _ _ _ HS)) as [ha HH].
  destruct (SInv_history _ _ _ (gr_inv _ _ _ _ _ _ HG')) as [hb HH'].
  set (h := all_recs fs ++ rs) in *. set (h' := all_recs fs' ++ rs') in *.
  exists (if bool_decide (h' = h) then cn_hist cn else h'). split_and!.
  - eapply rtc_once, step_command; try done.
  - rewrite ran_by_snoc, fmap_app by done. eapply taken_command; [exact L1|by apply hear_command|done].
  - rewrite ran_by_snoc, L2 by done. by rewrite (assoc_L (++)).
  - pose proof (files_grow_recs _ _ (gr_files _ _ _ _ _ _ HG')) as Hpre. rewrite !all_recs_files in Hpre.
    apply Forall_app_2; [|constructor; [|done]].
    + eapply list.Forall_impl; [apply L4; by rewrite Hat|]. intros x. apply within_mono. case_bool_decide; [done|].
      etrans; [|exact Hpre]. eapply conn_ok_hist; [|done]. apply (so_conns _ _ _ HS i cn Hcn).
    + exists ha, h, hb, h'. unfold e. simpl. rewrite <-Es. split_and!; [done|done|]. intros Hh. by rewrite bool_decide_false.
Qed.

Lemma farewell_none ss : farewell ss [].
Proof. by left. Qed.

Lemma ran_by_none i ran : ran_by i (ran ++ []) = ran_by i ran.
Proof. by rewrite app_nil_r. Qed.

(** A step that only moves the connection's thread, or does nothing the system sees. *)
Lemma server_inv_move sv sy m1 sy' sv' i ss' cn' :
  server_inv s m sv sy m1 → rtc sys_step sy sy' → others i sy sy' → sy_store sy' = sv_store sv' →
  sy_durable sy' = sv_durable sv' → Serving (sv_store sv') m1 → sv_ran sv' = sv_ran sv →
  sv_sessions sv' = <[i := ss']> (sv_sessions sv) → implements sy' (sv_ran sv) i ss' cn' → server_inv s m sv' sy' m1.
Proof.
  intros HV Hr Ho Es Ed HS Er El Him.
  eapply server_inv_session; try done; rewrite Er; [apply HV|done|done].
Qed.

(** The thread leaves the loop, whatever it holds. *)
Lemma hangup_implements sy ran i ss acked hist done held :
  ss_at ss = Reading → sy_acked sy = acked → session_inv acked hist (ran_by i ran) done held ss →
  implements (set_conn i (mkConn None Closed []) sy) ran i (move_to Ended ss) (mkConn None Closed []).
Proof.
  intros Hat Ea [L1 L2 L3 L4 L5 L6]. unfold session_at in L5. rewrite Hat in L5. destruct L5 as (A1 & _ & _).
  split; [apply lookup_insert_eq|done|done|]. exists done, held. split; try done; [by simpl; rewrite Ea|].
  exists []. rewrite app_nil_r. simpl. rewrite A1. split; [done|apply farewell_none].
Qed.

Lemma serve_turn_inv sv sy m1 i ss c ss' s' ran :
  server_inv s m sv sy m1 → sv_sessions sv !! i = Some ss → ss_at ss = Reading → (∀ j, is_u64 (c j)) →
  words_fit (ss_input ss) → serve_turn c ss (sv_store sv) = (ss', s', ran) →
  ∃ sy' m2, server_inv s m (ran_turn i s' ran (set_session i ss' sv)) sy' m2.
Proof.
  intros HV Hi Hat Hc Hw E. pose proof HV as [V1 V2 V3 V4 V5 V6 V7].
  destruct (V7 i ss Hi) as (cn & [C1 C2 C3 (done & held & HL)]).
  rewrite Hat in C2. specialize (C3 ltac:(by rewrite Hat)). pose proof HL as [L1 L2 L3 L4 L5 L6].
  unfold session_at in L5. rewrite Hat in L5. destruct L5 as (A1 & A2 & A3).
  assert (∀ sy' cn' ss1, sy' = sy ∨ sy' = set_conn i cn' sy → rtc sys_step sy sy' → implements sy' (sv_ran sv) i ss1 cn' →
    ∃ sy' m2, server_inv s m (ran_turn i (sv_store sv) None (set_session i ss1 sv)) sy' m2) as Hquiet.
  { intros sy' cn' ss1 Hsy Hr Him. exists sy', m1. eapply (server_inv_move sv sy m1 sy' _ i ss1 cn'); try done.
    - destruct Hsy as [-> | ->]; [by split|apply others_conn].
    - by destruct Hsy as [-> | ->].
    - by destruct Hsy as [-> | ->].
    - simpl. by rewrite app_nil_r. }
  unfold serve_turn in E. destruct (hear (ss_input ss)) as [[|name args] inp| |detail|] eqn:Eh.
  - injection E as <- <- <-. apply (Hquiet sy cn); [by left|done|]. split; [done|done|done|]. exists done, held.
    pose proof (hear_command _ _ _ Eh) as Er.
    split; [by eapply taken_blank|done|done|by intros _; apply L4; rewrite Hat| |done]. split_and!; [done|done|]. intros _ Hb. by destruct (Hb _ _ _ L1 Er).
  - rewrite <-C3 in E.
    assert (Forall arg_ok (name :: args)) as Ha by (by eapply Hw).
    destruct (dispatch_command c (name :: args) (cn_durable_by cn) (sv_store sv) m1 Hc V4 ltac:(done) Ha)
      as (s1 & d1 & Ed & HS1). rewrite Ed in E.
    destruct (command_step sv sy m1 i ss cn done held c (name :: args) inp _ s1 d1 HV Hi Hat Hc Ha ltac:(done) Eh C1 C2 HL Ed)
      as (hist & Hr & Ht & Hsp & Hwi). set (e := mkRan i _ _ _ s1) in *.
    injection E as <- <- <-. set (sy' := set_store _ _) in *. exists sy', (map_command (name :: args) m1).2.
    eapply (server_inv_session s m sv sy m1 _ sy' _ i _ (mkConn d1 Running hist)); [done|done|split; [|done]|done|done|done|..].
    + intros j Hj. simpl. by rewrite lookup_insert_ne.
    + cbn [sv_ran ran_turn set_session]. rewrite !fmap_app. change (rn_args <$> [_]) with [name :: args].
      change (rn_reply <$> [_]) with [(map_command (name :: args) m1).1].
      rewrite map_run_snoc, V5. by destruct (map_command (name :: args) m1).
    + done.
    + intros j Hj. by apply ran_by_other.
    + split; [apply lookup_insert_eq|by simpl; destruct (_ || _)|done|]. exists done, (held ++ [e]).
      split; try done; [|intros ph last; simpl; by destruct (_ || _)].
      unfold session_at. simpl. rewrite replies_snoc, A2.
      destruct (_ || bool_decide _ || _) eqn:Eq; cycle 1.
      { split_and!; [done|done|]. apply orb_false_iff in Eq as [[_ Eb%bool_decide_eq_false]%orb_false_iff _]. done. }
      split; [done|]. exists []. rewrite app_nil_r. split_and!; [done|done|apply farewell_none].
  - injection E as <- <- <-. eapply (Hquiet (set_conn i (mkConn None Closed []) sy)); [by right|by eapply rtc_once, step_hangup|].
    by eapply hangup_implements.
  - injection E as <- <- <-. apply (Hquiet sy cn); [by left|done|]. split; [done|done|done|]. exists done, held.
    split; try done; [by intros _; apply L4; rewrite Hat|]. split; [done|].
    exists (write_to (protocol_error detail)). split_and!; [by rewrite <-A2|done|]. right. left. exists detail.
    split; [|done]. revert Eh. unfold hear. simpl. by destruct (read_command _) as [[[]]|[]]; intros [= ->].
  - injection E as <- <- <-. eapply (Hquiet (set_conn i (mkConn None Closed []) sy)); [by right|by eapply rtc_once, step_hangup|].
    by eapply hangup_implements.
Qed.

(** The thread of a connection is in [send], and returns from [serve] after it or not. *)
Definition in_send (last : bool) (p : Position) : Prop := p = Sending last ∨ ∃ ph, p = Committing ph last.

Lemma in_send_at last ss done held :
  in_send last (ss_at ss) → session_at ss done held →
  ss_sent ss = replies_bytes done ∧
  ∃ closing, ss_out ss = replies_bytes held ++ closing ∧ (closing ≠ [] → last = true) ∧ farewell ss closing.
Proof. unfold session_at. by intros [-> | [ph ->]]. Qed.

Lemma write_held_inv acked acked' hist hist' ran done held n last ss :
  in_send last (ss_at ss) → session_inv acked hist ran done held ss → acked ⊆ acked' → hist ∈ acked' →
  session_inv acked' hist' ran (done ++ held) [] (write_held n last ss).
Proof.
  intros Hin [L1 L2 L3 L4 L5 L6] Hsub Hh. destruct (in_send_at _ _ _ _ Hin L5) as (A1 & closing & A2 & A3 & A4).
  assert (ss_at ss ≠ Ended) as Hne by (by destruct Hin as [-> | [ph ->]]).
  split; [done|by rewrite app_nil_r| |done| |intros ph last'; simpl; by destruct (_ <=? _)%nat, last].
  - apply Forall_app_2; [eapply list.Forall_impl; [exact L3|]; intros e; by apply claimed_mono|].
    eapply list.Forall_impl; [by apply L4|]. intros e. by apply within_claimed.
  - assert (∃ closing', ss_sent ss ++ take n (ss_out ss) `prefix_of` replies_bytes (done ++ held) ++ closing' ∧
      farewell ss closing') as Hpre.
    { exists closing. split; [|done]. rewrite replies_app, A1, A2, <-(assoc_L (++)).
      apply prefix_app. apply prefix_take. }
    unfold session_at, write_held. cbn [ss_at]. destruct (Nat.leb_spec (length (ss_out ss)) n) as [Hn|Hn]; [|exact Hpre].
    destruct last; [exact Hpre|]. split_and!; [|done|done]. simpl.
    assert (closing = []) as -> by (destruct closing; [done|by specialize (A3 ltac:(done))]).
    by rewrite firstn_all2, replies_app, A1, A2, app_nil_r by lia.
Qed.

(** The replies have left: the thread goes back to reading, or is done. *)
Lemma sent_inv sv sy m1 i ss cn last n sy1 :
  server_inv s m sv sy m1 → sv_sessions sv !! i = Some ss → in_send last (ss_at ss) → implements sy (sv_ran sv) i ss cn →
  rtc sys_step sy sy1 → sy_conns sy1 = <[i := mkConn None Running (cn_hist cn)]> (sy_conns sy) →
  sy_acked sy1 = cn_hist cn :: sy_acked sy → sy_store sy1 = sy_store sy → sy_durable sy1 = sy_durable sy →
  ∃ sy' m2, server_inv s m (set_session i (write_held n last ss) sv) sy' m2.
Proof.
  intros HV Hi Hin [C1 C2 C3 (done & held & HL)] Hr Ec Ea Es Ed. pose proof HV as [V1 V2 V3 V4 V5 V6 V7].
  assert (∀ hist', session_inv (sy_acked sy1) hist' (ran_by i (sv_ran sv)) (done ++ held) [] (write_held n last ss)) as HL'.
  { intros hist'. eapply write_held_inv; [done|done| |]; rewrite Ea; set_solver. }
  assert (others i sy sy1) as Ho.
  { split; [intros j Hj; by rewrite Ec, lookup_insert_ne|rewrite Ea; set_solver]. }
  destruct (decide (ss_at (write_held n last ss) = Ended)) as [E|E].
  - pose (sy2 := set_conn i (mkConn None Closed []) sy1). exists sy2, m1.
    eapply (server_inv_move sv sy m1 sy2 _ i (write_held n last ss) (mkConn None Closed [])); try done.
    + eapply rtc_r; [exact Hr|]. eapply step_hangup; [by rewrite Ec, lookup_insert_eq|done].
    + split; [|apply Ho]. intros j Hj. simpl. rewrite lookup_insert_ne by done. by apply Ho.
    + simpl. congruence.
    + simpl. congruence.
    + split; [apply lookup_insert_eq|by rewrite E|done|]. by exists (done ++ held), [].
  - exists sy1, m1. eapply (server_inv_move sv sy m1 sy1 _ i (write_held n last ss) (mkConn None Running (cn_hist cn)));
      try done; [simpl; congruence..|].
    split; [by rewrite Ec, lookup_insert_eq| |done|by exists (done ++ held), []].
    revert E. unfold write_held. simpl. destruct (_ <=? _)%nat; [|done]. by destruct last.
Qed.

(** Inside [wait], the thread moves and nothing is sent. *)
Lemma committing_inv acked hist ran done held ph ph' last ss :
  ss_at ss = Committing ph last → is_Some (wait_point ph') → session_inv acked hist ran done held ss →
  session_inv acked hist ran done held (move_to (Committing ph' last) ss).
Proof.
  intros Hat Hp [L1 L2 L3 L4 L5 L6]. unfold session_at in L5. rewrite Hat in L5.
  split; [done|done|done|by intros _; apply L4; rewrite Hat|exact L5|]. simpl.
  intros ? ? [= <- _]. split; [|done]. by eapply L6.
Qed.

Lemma waiting_move sv sy m1 i ss ph ph' last sv' sy' :
  server_inv s m sv sy m1 → sv_sessions sv !! i = Some ss → ss_at ss = Committing ph last → is_Some (wait_point ph') →
  (∀ cn, sy_conns sy !! i = Some cn → cn_phase cn = ph →
    sys_step sy sy' ∧ sy_conns sy' = <[i := mkConn None ph' (cn_hist cn)]> (sy_conns sy)) →
  sy_acked sy' = sy_acked sy →
  sv_sessions sv' = <[i := move_to (Committing ph' last) ss]> (sv_sessions sv) → sv_ran sv' = sv_ran sv →
  sy_store sy' = sv_store sv' → sy_durable sy' = sv_durable sv' → Serving (sv_store sv') m1 →
  ∃ sy' m2, server_inv s m sv' sy' m2.
Proof.
  intros HV Hi Hat Hpt Hst Ea El Er Es Ed HS. destruct (sv_conn _ _ _ _ _ HV i ss Hi) as (cn & [C1 C2 C3 (done & held & HL)]).
  rewrite Hat in C2. destruct (Hst cn C1 C2) as [H1 Ec]. exists sy', m1.
  eapply (server_inv_move sv sy m1 sy' _ i (move_to (Committing ph' last) ss) (mkConn None ph' (cn_hist cn))); try done.
  - by apply rtc_once.
  - split; [intros j Hj; by rewrite Ec, lookup_insert_ne|by rewrite Ea].
  - split; [by rewrite Ec, lookup_insert_eq|done| |].
    + intros _. simpl. symmetry. by eapply (li_waiting _ _ _ _ _ _ HL).
    + exists done, held. rewrite Ea. by eapply committing_inv.
Qed.

Lemma accept_inv sv sy m1 i inp :
  server_inv s m sv sy m1 → sv_sessions sv !! i = None →
  ∃ sy' m2, server_inv s m (set_session i (mkSession inp [] None Reading [] (mjoin inp)) sv) sy' m2.
Proof.
  intros HV Hi. pose proof HV as [V1 V2 V3 V4 V5 V6 V7]. destruct (V6 i Hi) as [Hn Hr].
  exists (set_conn i (mkConn None Running []) sy), m1.
  eapply (server_inv_move sv sy m1 _ _ i (mkSession inp [] None Reading [] (mjoin inp)) (mkConn None Running [])); try done.
  - by apply rtc_once, step_connect.
  - apply others_conn.
  - split; [apply lookup_insert_eq|done|done|]. exists [], []. rewrite Hr. by split; [constructor|constructor| | | |].
Qed.

Lemma wait_inv sv sy m1 i ss last p :
  server_inv s m sv sy m1 → sv_sessions sv !! i = Some ss → ss_at ss = Sending last → ss_durable_by ss = Some p →
  ∃ sy' m2, server_inv s m (set_session i (mkSession (ss_input ss) (ss_out ss) None (Committing (Waiting p) last)
                                          (ss_sent ss) (ss_stream ss)) sv) sy' m2.
Proof.
  intros HV Hi Hat Hd. pose proof HV as [V1 V2 V3 V4 V5 V6 V7].
  destruct (V7 i ss Hi) as (cn & [C1 C2 C3 (done & held & HL)]). rewrite Hat in C2, C3. specialize (C3 ltac:(done)).
  exists (set_conn i (mkConn None (Waiting p) (cn_hist cn)) sy), m1.
  eapply (server_inv_move sv sy m1 _ _ i
    (mkSession (ss_input ss) (ss_out ss) None (Committing (Waiting p) last) (ss_sent ss) (ss_stream ss))
    (mkConn None (Waiting p) (cn_hist cn))); try done.
  - eapply rtc_once, step_send; try done. congruence.
  - apply others_conn.
  - split; [apply lookup_insert_eq|done|done|]. exists done, held. destruct HL as [L1 L2 L3 L4 L5 L6].
    split; [done|done|done|by intros _; apply L4; rewrite Hat| |].
    + unfold session_at in L5. rewrite Hat in L5. exact L5.
    + intros ? ? [= <- _]. by split.
Qed.

Lemma refused_inv sv sy m1 i ss p pt last e n :
  server_inv s m sv sy m1 → sv_sessions sv !! i = Some ss → ss_at ss = Committing (Syncing p pt) last →
  ∃ sy' m2, server_inv s m (notify_all (share_durable (mkDurable (du_point (sv_durable sv)) false)
                              (set_session i (write_refusal n e ss) sv))) sy' m2.
Proof.
  intros HV Hi Hat. pose proof HV as [V1 V2 V3 V4 V5 V6 V7].
  destruct (V7 i ss Hi) as (cn & [C1 C2 C3 (done & held & HL)]). rewrite Hat in C2.
  exists (set_durable (mkDurable (du_point (sv_durable sv)) false) (set_conn i (mkConn None Closed []) sy)), m1.
  eapply (server_inv_move sv sy m1 _ _ i (write_refusal n e ss) (mkConn None Closed [])); try done.
  - rewrite <-V3. by eapply rtc_once, step_failed.
  - split; [|done]. intros j Hj. by apply lookup_insert_ne.
  - split; [apply lookup_insert_eq|done|done|]. exists done, held. destruct HL as [L1 L2 L3 L4 L5 L6]. split; try done.
    unfold session_at in L5. rewrite Hat in L5. destruct L5 as (A1 & _). exists (write_to (sync_refused e)).
    change (ss_sent (write_refusal n e ss)) with (ss_sent ss ++ take n (write_to (sync_refused e))). rewrite A1.
    split; [apply prefix_app, prefix_take|]. right. right. by exists e.
Qed.

Lemma server_step_inv sv sv' sy m1 :
  server_step sv sv' → server_inv s m sv sy m1 → ∃ sy' m2, server_inv s m sv' sy' m2.
Proof.
  intros Hst HV. pose proof HV as [V1 V2 V3 V4 V5 V6 V7]. destruct (inv_ok _ _ _ HV) as (fs & rs & HS).
  pose proof (so_inv _ _ _ HS) as HI.
  destruct Hst as [sv i inp Hi|sv i ss c ss' s' ran Hi Hat Hc Hw E|sv i ss Hi Hat|sv i ss last n Hi Hat Hd
    |sv i ss last p Hi Hat Hd|sv i ss p last n Hi Hat Haw Hp|sv i ss p last Hi Hat Haw Hp Hf|sv i ss p last Hi Hat Haw Hp Hf|sv i Hi
    |sv i ss p last pt s' Hi Hat E|sv i ss p pt last Hi Hat|sv i ss p pt last e n Hi Hat|sv i ss p pt last Hi Hat].
  1: by eapply accept_inv.
  1: by eapply serve_turn_inv.
  3: by eapply wait_inv.
  5-6: by exists sy, m1; split.
  7: by eapply refused_inv.
  all: destruct (V7 i ss Hi) as (cn & HM); pose proof HM as [C1 C2 C3 (done & held & HL)];
    rewrite Hat in C2; simpl in C2; rewrite Hat in C3; specialize (C3 ltac:(done)).
  - (* the socket fails *)
    exists (set_conn i (mkConn None Closed []) sy), m1.
    eapply (server_inv_move sv sy m1 _ _ i (move_to Ended ss) (mkConn None Closed [])); try done.
    + by eapply rtc_once, step_hangup.
    + apply others_conn.
    + by eapply hangup_implements.
  - (* send *)
    eapply (sent_inv sv sy m1 i ss cn last n (add_acked (cn_hist cn) sy)); try done; [by left| |].
    + eapply rtc_once, step_send_now; try done. congruence.
    + simpl. rewrite insert_id; [done|]. rewrite C1. destruct cn. simpl in *. congruence.
  - (* reached *)
    eapply (sent_inv sv sy m1 i ss cn last n (add_acked (cn_hist cn) (set_conn i (mkConn None Running (cn_hist cn)) sy))); try done.
    + right. by eexists.
    + eapply rtc_once, step_reached; try done. by rewrite V3.
  - (* start *)
    eapply (waiting_move sv sy m1 i ss (Waiting p) (Starting p) last _
      (set_durable (mkDurable (du_point (sv_durable sv)) true) (set_conn i (mkConn None (Starting p) (cn_hist cn)) sy))); try done.
    intros cn' Hcn' _. simplify_eq. split; [|done]. rewrite <-V3. eapply step_start; rewrite ?V3; done.
  - (* handle *)
    rewrite <-V2 in E. destruct (flush_inv _ _ _ HI) as (HI' & _). pose proof E as E'. unfold sync_handle in E'. injection E' as _ <-.
    eapply (waiting_move sv sy m1 i ss (Starting p) (Syncing p pt) last _
      (set_store (writer_flush (sy_store sy)) (set_conn i (mkConn None (Syncing p pt) (cn_hist cn)) sy))); try done.
    + intros cn' Hcn' _. simplify_eq. split; [|done]. by eapply step_handle.
    + simpl. rewrite <-V2 in V4. eapply serving_same; [done|done|done|]. unfold writer_flush, on_writer.
      by destruct (LogWriter_flush _).
  - (* synced *)
    eapply (waiting_move sv sy m1 i ss (Syncing p pt) (Noted p pt) last _
      (set_store (note_synced pt (sy_store sy)) (set_conn i (mkConn None (Noted p pt) (cn_hist cn)) sy))); try done.
    + intros cn' Hcn' _. simplify_eq. split; [|done]. by eapply step_synced.
    + simpl. congruence.
    + simpl. pose proof (so_conns _ _ _ HS i cn C1) as Hcn. unfold conn_ok in Hcn. rewrite C2 in Hcn.
      destruct Hcn as (_ & H2 & H3). pose proof (note_synced_inv _ pt _ _ HI H2 H3) as HI'. rewrite V2 in HI, HI'.
      eapply serving_same; [done|done|done|]. unfold note_synced. by destruct (_ && _).
  - (* done *)
    eapply (waiting_move sv sy m1 i ss (Noted p pt) (Waiting p) last _
      (set_durable (mkDurable (if point_lt (du_point (sv_durable sv)) pt then pt else du_point (sv_durable sv)) false)
        (set_conn i (mkConn None (Waiting p) (cn_hist cn)) sy))); try done.
    intros cn' Hcn' _. simplify_eq. split; [|done]. rewrite <-V3. by eapply step_done.
Qed.
End steps.

Lemma server_reachable s hs0 hs sv :
  History s hs0 hs → s_restoring s = false → (syncs s → is_synced s = true) → rtc server_step (server_bind s) sv →
  ∃ sy m', server_inv s (replay hs) sv sy m'.
Proof.
  intros HH Hre Hs Hr. pose proof (bind_ok s hs0 hs HH Hre Hs) as Hok.
  assert (∃ sy m', server_inv s (replay hs) (server_bind s) sy m') as H0.
  { exists (bind s), (replay hs). split; try done. split; [by eapply History_refines|done]. }
  revert H0. induction Hr as [|sv1 sv2 sv3 Hst Hr IH]; [done|].
  intros (sy & m1 & HV). apply IH. by eapply server_step_inv.
Qed.

(** What a connection's place says of what was sent and what is held. *)
Lemma session_summary ss done held :
  session_at ss done held →
  ∃ closing, farewell ss closing ∧ ss_sent ss `prefix_of` replies_bytes done ++ closing ∧
    (ss_at ss ≠ Ended → ss_sent ss = replies_bytes done ∧ ss_out ss = replies_bytes held ++ closing).
Proof.
  unfold session_at. destruct (ss_at ss) as [|last|ph last|].
  - intros (A1 & A2 & _). exists []. rewrite !app_nil_r, A1. split_and!; [apply farewell_none|done|done].
  - intros (A1 & closing & A2 & _ & A3). exists closing. rewrite A1. split_and!; [done|by apply prefix_app_r|done].
  - intros (A1 & closing & A2 & _ & A3). exists closing. rewrite A1. split_and!; [done|by apply prefix_app_r|done].
  - intros (closing & A1 & A2). exists closing. split_and!; done.
Qed.

(** C10: every client gets the replies to its commands, as of one order of all of them. Take any
    moment of a server on a store that reads as [m], whatever its connections send, no word of a
    line being over the limit for bulk strings, cut up in whatever pieces, however their threads interleave, whoever hangs up and whatever fsync or
    socket fails. The commands that have run, all connections' together, in the order they
    ran, are a run on the map [m]: each got the reply of the map, and the store reads as the
    map they leave. Those of one connection are the commands of its stream, in order, each
    once, up to what it has not read yet. What its socket has taken is their replies, in
    order, up to some command, the last of them cut short if the socket failed; after
    these comes nothing, or one error, if its stream stopped making sense or the disk refused
    to sync. While the connection lives, what is held is the rest of the replies; and if its
    stream has no empty command, nothing is held while the thread waits for more input. *)
Theorem server_runs_commands (s : Store) (hs0 hs : list Rec) (sv : ServerState) :
  History s hs0 hs → s_restoring s = false → (syncs s → is_synced s = true) → rtc server_step (server_bind s) sv →
  ∃ m', map_run (rn_args <$> sv_ran sv) (replay hs) = (rn_reply <$> sv_ran sv, m') ∧ Refines (sv_store sv) m' ∧
  ∀ i ss, sv_sessions sv !! i = Some ss →
    let ran := ran_by i (sv_ran sv) in
    taken (ss_stream ss) (rn_args <$> ran) (mjoin (ss_input ss)) ∧
    ∃ done held closing, ran = done ++ held ∧ farewell ss closing ∧
      ss_sent ss `prefix_of` replies_bytes done ++ closing ∧
      (ss_at ss ≠ Ended → ss_sent ss = replies_bytes done ∧ ss_out ss = replies_bytes held ++ closing) ∧
      (ss_at ss = Reading → buffer (ss_input ss) = [] → no_blanks (ss_stream ss) → ss_out ss = []).
Proof.
  intros HH Hre Hs Hr. destruct (server_reachable s hs0 hs sv HH Hre Hs Hr) as (sy & m' & [V1 V2 V3 [V4 _] V5 V6 V7]).
  exists m'. split_and!; [done|done|]. intros i ss Hi ran.
  destruct (V7 i ss Hi) as (cn & [_ _ _ (done & held & [L1 L2 L3 L4 L5 L6])]). split; [done|]. exists done, held.
  destruct (session_summary _ _ _ L5) as (closing & F1 & F2 & F3). exists closing. split_and!; try done.
  intros Hat. unfold session_at in L5. rewrite Hat in L5. apply L5.
Qed.

(** C9: no reply to a write leaves before the write is safe. At any moment of such a server, on a
    store that syncs every write, crash, losing what was not synced, and open the directory
    again: opening succeeds, and of every connection, each command that wrote and of whose
    reply any byte was sent is there, with all that came before it in the store. *)
Theorem server_replies_durable (s : Store) (hs0 hs : list Rec) (sv : ServerState) (n : N) (opts : Options) :
  History s hs0 hs → s_restoring s = false → syncs s → is_synced s = true →
  rtc server_step (server_bind s) sv → may_crash_at n (sv_store sv) → is_u64 (o_max_file_bytes opts) →
  ∃ s' hs', open_with opts (crash n (sv_store sv)) = (Ok s', s_dir s') ∧ History s' hs' hs' ∧
  ∀ i ss, sv_sessions sv !! i = Some ss →
    ∃ done held closing, ran_by i (sv_ran sv) = done ++ held ∧ farewell ss closing ∧
      ss_sent ss `prefix_of` replies_bytes done ++ closing ∧ Forall (left_within hs') done.
Proof.
  intros HH Hre Hsy Hs Hr Hn Hmax.
  destruct (server_reachable s hs0 hs sv HH Hre (λ _, Hs) Hr) as (sy & m' & [V1 V2 V3 [V4 _] V5 V6 V7]).
  rewrite <-V2 in Hn |- *.
  destruct (group_commit_durable s hs0 hs sy n opts HH Hre Hsy Hs V1 Hn Hmax) as (s' & hs' & E & HH' & Ha).
  exists s', hs'. split_and!; [done|done|]. intros i ss Hi.
  destruct (V7 i ss Hi) as (cn & [_ _ _ (done & held & [L1 L2 L3 L4 L5 L6])]). exists done, held.
  destruct (session_summary _ _ _ L5) as (closing & F1 & F2 & _). exists closing. split_and!; try done.
  eapply list.Forall_impl; [exact L3|]. intros e. by apply claimed_within.
Qed.

(** ** What is held is sent *)

(** What a thread does next, if every socket and fsync works and nobody wakes up unless told to; [None] if it has
    returned, or is asleep. *)
Definition thread_step (c : clock) (i : nat) (sv : ServerState) : option ServerState :=
  ss ← sv_sessions sv !! i;
  match ss_at ss with
  | Reading =>
      if match hear (ss_input ss) with Command args _ => bool_decide (Forall arg_ok args) | _ => true end then
        let '(ss', s', ran) := serve_turn c ss (sv_store sv) in Some (ran_turn i s' ran (set_session i ss' sv))
      else None
  | Sending last =>
      match ss_durable_by ss with
      | None => Some (set_session i (write_held (length (ss_out ss)) last ss) sv)
      | Some p => Some (set_session i (mkSession (ss_input ss) (ss_out ss) None (Committing (Waiting p) last)
                                      (ss_sent ss) (ss_stream ss)) sv)
      end
  | Committing (Waiting p) last =>
      if decide (i ∈ sv_asleep sv) then None
      else if point_lt (du_point (sv_durable sv)) p then
        if du_syncing (sv_durable sv) then Some (set_asleep ({[i]} ∪ sv_asleep sv) sv)
        else Some (share_durable (mkDurable (du_point (sv_durable sv)) true)
               (set_session i (move_to (Committing (Starting p) last) ss) sv))
      else Some (set_session i (write_held (length (ss_out ss)) last ss) sv)
  | Committing (Starting p) last =>
      let '(pt, s') := sync_handle (sv_store sv) in
      Some (share_store s' (set_session i (move_to (Committing (Syncing p pt) last) ss) sv))
  | Committing (Syncing p pt) last =>
      Some (share_store (note_synced pt (sv_store sv)) (set_session i (move_to (Committing (Noted p pt) last) ss) sv))
  | Committing (Noted p pt) last =>
      Some (notify_all (share_durable (mkDurable (if point_lt (du_point (sv_durable sv)) pt then pt
                                       else du_point (sv_durable sv)) false)
        (set_session i (move_to (Committing (Waiting p) last) ss) sv)))
  | _ => None
  end.

Lemma thread_step_ok c i sv sv' : (∀ j, is_u64 (c j)) → thread_step c i sv = Some sv' → server_step sv sv'.
Proof.
  intros Hc. unfold thread_step. destruct (sv_sessions sv !! i) as [ss|] eqn:Hi; [|done]. simpl.
  destruct (ss_at ss) as [|last|[|p|p|p pt|p pt|] last|] eqn:Hat; try done.
  - destruct (match hear _ with Command _ _ => _ | _ => _ end) eqn:Hw; [|done].
    destruct (serve_turn c ss (sv_store sv)) as [[ss' s'] ran] eqn:E. intros [= <-]. eapply server_turn; try done.
    intros args inp' Eh. rewrite Eh in Hw. by apply bool_decide_eq_true in Hw.
  - destruct (ss_durable_by ss) as [p|] eqn:Hd; intros [= <-]; [by eapply server_wait|by eapply server_send].
  - case_decide as Haw; [done|]. destruct (point_lt _ _) eqn:Hp; [|intros [= <-]; by eapply server_reached].
    destruct (du_syncing _) eqn:Hf; intros [= <-]; [by eapply server_sleep|by eapply server_start].
  - intros [= <-]. by eapply server_handle.
  - intros [= <-]. by eapply server_synced.
  - intros [= <-]. by eapply server_done.
Qed.

(** One of the threads does that. *)
Definition takes_turn (c : clock) (sv sv' : ServerState) : Prop := ∃ i, thread_step c i sv = Some sv'.

(** Nobody sleeps while nobody syncs. *)
Definition awake_ok (sv : ServerState) : Prop := du_syncing (sv_durable sv) = false → sv_asleep sv = ∅.

Lemma step_awake sv sv' : server_step sv sv' → awake_ok sv → awake_ok sv'.
Proof.
  intros Hst Haw. destruct Hst; unfold awake_ok in *; cbn in *; auto; [congruence|]. intros Hf. rewrite Haw by done. set_solver.
Qed.

Lemma reachable_awake s sv : rtc server_step (server_bind s) sv → awake_ok sv.
Proof.
  assert (awake_ok (server_bind s)) as H0 by done. intros Hr. revert H0.
  induction Hr as [|sv1 sv2 sv3 Hst Hr IH]; [done|]. intros Haw. by eapply IH, step_awake.
Qed.

(** The other connections are as they were. *)
Definition kept (j : nat) (sv sv' : ServerState) : Prop := ∀ i, i ≠ j → sv_sessions sv' !! i = sv_sessions sv !! i.

Section answered.
Variables (c : clock) (s : Store) (m : kvmap).
Hypothesis Hc : ∀ j, is_u64 (c j).
Hypothesis Hok : ∃ fs rs, sys_ok (bind s) fs rs.

(** The end of a round of [wait]: nobody is syncing, nobody sleeps, and the disk has got to [pt]. *)
Definition round_over (sv : ServerState) (j : nat) (ss : Session) (last : bool) (p pt : N * N) (sv' : ServerState) : Prop :=
  rtc (takes_turn c) sv sv' ∧ du_syncing (sv_durable sv') = false ∧ sv_asleep sv' = ∅ ∧ kept j sv sv' ∧
  sv_sessions sv' !! j = Some (move_to (Committing (Waiting p) last) ss) ∧ point_lt (du_point (sv_durable sv')) pt = false.

Lemma round_over_step sv sv1 j ss ph last p pt sv' :
  takes_turn c sv sv1 → sv_sessions sv1 = <[j := move_to ph ss]> (sv_sessions sv) →
  round_over sv1 j (move_to ph ss) last p pt sv' → round_over sv j ss last p pt sv'.
Proof.
  intros Hst El (H1 & H2 & Hn & H3 & H4 & H5). split_and!; [by eapply rtc_l|done|done| |done|done].
  intros i Hne. by rewrite (H3 i Hne), El, lookup_insert_ne.
Qed.

Lemma noted_over sv j ss last p pt :
  sv_sessions sv !! j = Some ss → ss_at ss = Committing (Noted p pt) last → ∃ sv', round_over sv j ss last p pt sv'.
Proof.
  intros Hj Hat. exists (notify_all (share_durable (mkDurable (if point_lt (du_point (sv_durable sv)) pt then pt
    else du_point (sv_durable sv)) false) (set_session j (move_to (Committing (Waiting p) last) ss) sv))).
  split_and!; [|done|done| |apply lookup_insert_eq|].
  - apply rtc_once. exists j. unfold thread_step. rewrite Hj. cbn. by rewrite Hat.
  - intros i Hne. simpl. by rewrite lookup_insert_ne.
  - simpl. destruct (point_lt (du_point (sv_durable sv)) pt) eqn:E; [|done].
    unfold point_lt. by rewrite !N.ltb_irrefl, andb_false_r.
Qed.

Lemma syncing_over sv j ss last p pt :
  sv_sessions sv !! j = Some ss → ss_at ss = Committing (Syncing p pt) last → ∃ sv', round_over sv j ss last p pt sv'.
Proof.
  intros Hj Hat. set (sv1 := share_store (note_synced pt (sv_store sv)) (set_session j (move_to (Committing (Noted p pt) last) ss) sv)).
  assert (takes_turn c sv sv1) as Hst by (exists j; unfold thread_step; rewrite Hj; cbn [mbind option_bind]; by rewrite Hat).
  destruct (noted_over sv1 j (move_to (Committing (Noted p pt) last) ss) last p pt (lookup_insert_eq (sv_sessions sv) j _) eq_refl)
    as (sv' & Hr).
  exists sv'. by eapply round_over_step.
Qed.

Lemma starting_over sv j ss last p :
  sv_sessions sv !! j = Some ss → ss_at ss = Committing (Starting p) last →
  ∃ sv', round_over sv j ss last p (sync_handle (sv_store sv)).1 sv'.
Proof.
  intros Hj Hat. destruct (sync_handle (sv_store sv)) as [pt s'] eqn:E.
  set (sv1 := share_store s' (set_session j (move_to (Committing (Syncing p pt) last) ss) sv)).
  assert (takes_turn c sv sv1) as Hst by (exists j; unfold thread_step; rewrite Hj; cbn [mbind option_bind]; by rewrite Hat, E).
  destruct (syncing_over sv1 j (move_to (Committing (Syncing p pt) last) ss) last p pt (lookup_insert_eq (sv_sessions sv) j _) eq_refl)
    as (sv' & Hr).
  exists sv'. by eapply round_over_step.
Qed.

Lemma busy_over sv j ss ph last :
  sv_sessions sv !! j = Some ss → ss_at ss = Committing ph last → busy (mkConn None ph []) = true →
  ∃ sv' p pt, round_over sv j ss last p pt sv'.
Proof.
  intros Hj Hat. unfold busy. simpl. destruct ph as [|p|p|p pt|p pt|]; try done; intros _.
  - destruct (starting_over sv j ss last p Hj Hat) as (sv' & H). eauto.
  - destruct (syncing_over sv j ss last p pt Hj Hat) as (sv' & H). eauto.
  - destruct (noted_over sv j ss last p pt Hj Hat) as (sv' & H). eauto.
Qed.

(** While the flag is up, the thread that put it there is in its round. *)
Lemma flag_busy sv sy m1 :
  server_inv s m sv sy m1 → du_syncing (sv_durable sv) = true →
  ∃ j ss ph last, sv_sessions sv !! j = Some ss ∧ ss_at ss = Committing ph last ∧ busy (mkConn None ph []) = true.
Proof.
  intros HV Hf. rewrite <-(sv_same_durable _ _ _ _ _ HV) in Hf.
  destruct (reachable_flag s sy (sv_reach _ _ _ _ _ HV) Hf) as (j & cn & Hj & Hb).
  destruct (sv_sessions sv !! j) as [ss|] eqn:El; cycle 1.
  { destruct (sv_new _ _ _ _ _ HV j El). congruence. }
  destruct (sv_conn _ _ _ _ _ HV j ss El) as (cn' & [C1 C2 _ _]). simplify_eq. unfold busy in Hb. rewrite C2 in Hb.
  destruct (ss_at ss) as [|last|ph last|] eqn:Hat; try done. by exists j, ss, ph, last.
Qed.

(** A thread that waits awake, for a point the disk has reached, sends. *)
Lemma reached_sent sv i ss p last :
  sv_sessions sv !! i = Some ss → ss_at ss = Committing (Waiting p) last → sv_asleep sv = ∅ →
  point_lt (du_point (sv_durable sv)) p = false →
  takes_turn c sv (set_session i (write_held (length (ss_out ss)) last ss) sv).
Proof. intros Hi Hat Ha Hp. exists i. unfold thread_step. rewrite Hi. cbn. rewrite Hat, decide_False by (by rewrite Ha). by rewrite Hp. Qed.

(** A thread that waits while nobody syncs runs a round itself, and that is enough. *)
Lemma idle_sent sv sy m1 i ss p last :
  server_inv s m sv sy m1 → du_syncing (sv_durable sv) = false → sv_asleep sv = ∅ → sv_sessions sv !! i = Some ss →
  ss_at ss = Committing (Waiting p) last →
  ∃ sv', rtc (takes_turn c) sv sv' ∧ sv_sessions sv' !! i = Some (write_held (length (ss_out ss)) last ss).
Proof.
  intros HV Hf Ha Hi Hat. destruct (point_lt (du_point (sv_durable sv)) p) eqn:Elt; cycle 1.
  { eexists. split; [by eapply rtc_once, reached_sent|apply lookup_insert_eq]. }
  set (sv1 := share_durable (mkDurable (du_point (sv_durable sv)) true) (set_session i (move_to (Committing (Starting p) last) ss) sv)).
  assert (takes_turn c sv sv1) as Hst.
  { exists i. unfold thread_step. rewrite Hi. cbn. rewrite Hat, decide_False by (by rewrite Ha). by rewrite Elt, Hf. }
  destruct (starting_over sv1 i (move_to (Committing (Starting p) last) ss) last p (lookup_insert_eq (sv_sessions sv) i _) eq_refl)
    as (sv2 & Hr & _ & Ha2 & _ & H4 & H5).
  eexists. split; [eapply rtc_l; [exact Hst|]; eapply rtc_r; [exact Hr|]; eapply reached_sent; [exact H4|done|done|]|apply lookup_insert_eq].
  eapply point_lt_trans; [exact H5|]. destruct (inv_ok s m Hok _ _ _ HV) as (fs & rs & HS). pose proof (so_inv _ _ _ HS) as HI.
  destruct (sv_conn _ _ _ _ _ HV i ss Hi) as (cn & [C1 C2 _ _]). rewrite Hat in C2.
  destruct (flush_inv (sy_store sy) fs rs HI) as (HI' & _ & Ea). simpl. rewrite <-(sv_same_store _ _ _ _ _ HV).
  apply (Covers_not_past _ fs rs _ (cn_hist cn) HI'). unfold all_files. rewrite Ea.
  pose proof (so_conns _ _ _ HS i cn C1) as Hcn. unfold conn_ok in Hcn. by rewrite C2 in Hcn.
Qed.

Lemma turns_inv sv sy m1 sv' :
  server_inv s m sv sy m1 → rtc (takes_turn c) sv sv' → ∃ sy' m2, server_inv s m sv' sy' m2.
Proof.
  intros HV Hr. revert sy m1 HV. induction Hr as [sv|sv sv1 sv2 [i Hst] Hr IH]; intros sy m1 HV; [eauto|].
  apply (thread_step_ok c i sv sv1 Hc) in Hst. destruct (server_step_inv s m Hok _ _ _ _ Hst HV) as (sy1 & m2 & HV1). by eapply IH.
Qed.

Lemma waiting_sent sv sy m1 i ss p last :
  server_inv s m sv sy m1 → awake_ok sv → sv_sessions sv !! i = Some ss → ss_at ss = Committing (Waiting p) last →
  ∃ sv', rtc (takes_turn c) sv sv' ∧ sv_sessions sv' !! i = Some (write_held (length (ss_out ss)) last ss).
Proof.
  intros HV Haw Hi Hat. destruct (du_syncing (sv_durable sv)) eqn:Hf; [|by eapply idle_sent; eauto].
  destruct (flag_busy sv sy m1 HV Hf) as (j & ssj & ph & lastj & Hj & Hatj & Hb).
  destruct (busy_over sv j ssj ph lastj Hj Hatj Hb) as (sv1 & pj & ptj & Hr & Hf1 & Ha1 & Hk & _).
  destruct (turns_inv _ _ _ _ HV Hr) as (sy1 & m2 & HV1).
  assert (i ≠ j) as Hij by (intros ->; simplify_eq; rewrite Hat in Hatj; by simplify_eq).
  rewrite <-(Hk i Hij) in Hi. destruct (idle_sent _ _ _ _ _ _ _ HV1 Hf1 Ha1 Hi Hat) as (sv2 & Hr2 & H2).
  exists sv2. split; [by etrans|done].
Qed.

Lemma committing_sent sv sy m1 i ss ph last :
  server_inv s m sv sy m1 → awake_ok sv → sv_sessions sv !! i = Some ss → ss_at ss = Committing ph last →
  ∃ sv', rtc (takes_turn c) sv sv' ∧ sv_sessions sv' !! i = Some (write_held (length (ss_out ss)) last ss).
Proof.
  intros HV Haw Hi Hat. destruct (sv_conn _ _ _ _ _ HV i ss Hi) as (cn & [_ _ _ (done & held & HL)]).
  destruct (li_waiting _ _ _ _ _ _ HL ph last Hat) as [_ [p Hp]].
  destruct (busy (mkConn None ph [])) eqn:Hb; cycle 1.
  { destruct ph; try done. by eapply waiting_sent. }
  destruct (busy_over sv i ss ph last Hi Hat Hb) as (sv1 & p' & pt & Hr & Hf1 & Ha1 & _ & Hi1 & _).
  destruct (turns_inv _ _ _ _ HV Hr) as (sy1 & m2 & HV1).
  destruct (waiting_sent _ _ _ _ _ _ _ HV1 (λ _, Ha1) Hi1 eq_refl) as (sv2 & Hr2 & H2).
  exists sv2. split; [by etrans|exact H2].
Qed.

Lemma send_sent sv sy m1 i ss last :
  server_inv s m sv sy m1 → awake_ok sv → sv_sessions sv !! i = Some ss → in_send last (ss_at ss) →
  ∃ sv', rtc (takes_turn c) sv sv' ∧ sv_sessions sv' !! i = Some (write_held (length (ss_out ss)) last ss).
Proof.
  intros HV Haw Hi [Hat|[ph Hat]]; [|by eapply committing_sent].
  set (sv1 := match ss_durable_by ss with
              | None => set_session i (write_held (length (ss_out ss)) last ss) sv
              | Some p => set_session i (mkSession (ss_input ss) (ss_out ss) None (Committing (Waiting p) last) (ss_sent ss) (ss_stream ss)) sv
              end).
  assert (thread_step c i sv = Some sv1) as Hst by (unfold thread_step, sv1; rewrite Hi; cbn; rewrite Hat; by destruct (ss_durable_by ss)).
  pose proof (thread_step_ok c i sv sv1 Hc Hst) as Hst'. unfold sv1 in *. destruct (ss_durable_by ss) as [p|] eqn:Hd; cycle 1.
  { eexists. split; [by apply rtc_once; exists i|apply lookup_insert_eq]. }
  destruct (server_step_inv s _ Hok _ _ _ _ Hst' HV) as (sy1 & m2 & HV1).
  destruct (committing_sent _ _ _ i _ (Waiting p) last HV1 (step_awake _ _ Hst' Haw) (lookup_insert_eq _ i _) eq_refl) as (sv2 & Hr2 & H2).
  exists sv2. split; [eapply rtc_l; [by exists i|exact Hr2]|exact H2].
Qed.
End answered.

(** C32: replies that are to be sent are not forgotten. From every moment the server can get to,
    for every connection whose thread is in [send], awake or asleep until the disk is synced,
    there are turns of threads after which its socket has taken all that is held, exactly that, and
    the thread is back at the top of the loop or done, as it should be. In these turns a thread that
    is asleep does nothing until it is notified: nobody sleeps through the end of the fsync they
    sleep for, the flag that someone is syncing is never left up with nobody there, and one fsync
    that starts after a write covers it. *)
Theorem server_sends_held (s : Store) (hs0 hs : list Rec) (sv : ServerState) (i : nat) (ss : Session) (last : bool) (c : clock) :
  History s hs0 hs → s_restoring s = false → (syncs s → is_synced s = true) → rtc server_step (server_bind s) sv →
  (∀ j, is_u64 (c j)) → sv_sessions sv !! i = Some ss → in_send last (ss_at ss) →
  ∃ sv' ss', rtc (takes_turn c) sv sv' ∧ sv_sessions sv' !! i = Some ss' ∧ ss_sent ss' = ss_sent ss ++ ss_out ss ∧
    ss_out ss' = [] ∧ ss_at ss' = if last then Ended else Reading.
Proof.
  intros HH Hre Hs Hr Hc Hi Hin. pose proof (bind_ok s hs0 hs HH Hre Hs) as Hok.
  destruct (server_reachable s hs0 hs sv HH Hre Hs Hr) as (sy & m1 & HV).
  destruct (send_sent c s _ Hc Hok sv sy m1 i ss last HV (reachable_awake s sv Hr) Hi Hin) as (sv' & Hr' & H').
  exists sv', (write_held (length (ss_out ss)) last ss). split_and!; [done|done|..|]; simpl.
  - by rewrite firstn_all.
  - done.
  - by rewrite Nat.leb_refl.
Qed.

(** ** An empty line keeps a reply back *)

Lemma consume_one n chunk : (n ≤ length chunk)%nat → consume n [chunk] = [drop n chunk].
Proof. intros H. simpl. by destruct (Nat.leb_spec n (length chunk)); [|lia]. Qed.

Lemma hear_one chunk args rest :
  read_command chunk = inl (Some args, rest) → hear [chunk] = Command args [rest].
Proof.
  intros E. destruct (command_within_limits _ _ _ E) as (Hs & _). unfold hear. cbv zeta.
  change (mjoin [chunk]) with (chunk ++ []). rewrite app_nil_r, E, consume_one by lia. by rewrite suffix_drop.
Qed.

(** C38: an empty line keeps a reply back. A client sends a command and, in the same packet, an
    empty line, which a command line tool sends when enter is hit on nothing. The command runs,
    and its reply is held, because there is more to parse; the line is skipped without a look
    at what is held, and the thread goes on to read from the socket, with nothing left to parse
    and the reply still held. If the client now waits for the reply, both wait; if it has
    closed its side, the reply is dropped. This is so for every command but QUIT whose reply is
    not so long that it is sent anyway, acknowledged writes included. *)
Theorem blank_line_holds_reply (c : clock) (name : bytes) (args : list bytes) (s : Store) :
  command_ok (name :: args) → eq_ignore_ascii_case name (lit "QUIT") = false →
  let '(reply, (s', d)) := dispatch c (name :: args) None s in
  blen (write_to reply) < MAX_HELD_REPLIES →
  let stream := write_to (Array (Bulk <$> name :: args)) ++ CRLF in
  let ss p inp out d := mkSession inp out d p [] stream in
  serve_turn c (ss Reading [stream] [] None) s = (ss Reading [CRLF] (write_to reply) d, s', Some (name :: args, reply)) ∧
  (∀ c', serve_turn c' (ss Reading [CRLF] (write_to reply) d) s' = (ss Reading [[]] (write_to reply) d, s', None)) ∧
  (∀ c', serve_turn c' (ss Reading [[]] (write_to reply) d) s' = (ss Ended [[]] (write_to reply) d, s', None)).
Proof.
  intros Hok Hq. destruct (dispatch c (name :: args) None s) as [reply [s' d]] eqn:Ed. intros Hlen. cbv zeta.
  split_and!; [|done|done].
  unfold serve_turn. cbn [ss_input]. rewrite (hear_one _ (name :: args) CRLF) by (by apply command_roundtrip).
  cbn [ss_durable_by ss_out ss_sent ss_stream]. rewrite Ed, Hq. cbn [orb app buffer].
  rewrite bool_decide_false by done. cbn [orb]. destruct (N.leb_spec MAX_HELD_REPLIES (blen (write_to reply))); [lia|done].
Qed.

Lemma blank_line_holds_reply_witness :
  let args := [lit "SET"; lit "sea"; lit "blue"] in
  let ss p inp out d := mkSession inp out d p [] (write_to (Array (Bulk <$> args)) ++ CRLF) in
  ∃ s', serve_turn (λ _, 9) (ss Reading [CRLF] (write_to Reply_ok) (Some (append_point sea_store))) s' =
    (ss Reading [[]] (write_to Reply_ok) (Some (append_point sea_store)), s', None).
Proof.
  pose proof (blank_line_holds_reply (λ _, 9) (lit "SET") [lit "sea"; lit "blue"] (fresh_store every_write)
    ltac:(split; [done|by repeat constructor]) eq_refl) as H.
  assert (dispatch (λ _, 9) [lit "SET"; lit "sea"; lit "blue"] None (fresh_store every_write) =
    (Reply_ok, (sea_store, Some (append_point sea_store)))) as E by (by vm_compute).
  rewrite E in H. exists sea_store. apply H. done.
Defined.

(** ** A client that pipelines, run *)

Fixpoint thread_steps (c : clock) (turns : list nat) (sv : ServerState) : option ServerState :=
  match turns with [] => Some sv | i :: turns => sv' ← thread_step c i sv; thread_steps c turns sv' end.

Lemma thread_steps_ok c turns sv sv' : (∀ j, is_u64 (c j)) → thread_steps c turns sv = Some sv' → rtc server_step sv sv'.
Proof.
  intros Hc. revert sv. induction turns as [|i turns IH]; intros sv; simpl; [by intros [= ->]|].
  destruct (thread_step c i sv) as [sv1|] eqn:E; [|done]. intros H. eapply rtc_l; [by eapply thread_step_ok|by apply IH].
Qed.

(** A command and the next in one packet, from the socket to the replies: two turns, then
    [send], the wait, its fsync, and the replies in one write. *)
Definition sea_input : Input := [lit "SET sea blue" ++ CRLF ++ lit "GET sea" ++ CRLF].

Definition sea_server : ServerState :=
  set_session 0 (mkSession sea_input [] None Reading [] (mjoin sea_input)) (server_bind (fresh_store every_write)).

Definition sea_served : ServerState := default sea_server (thread_steps (λ _, 9) (replicate 8 0%nat) sea_server).

Lemma sea_served_run : rtc server_step (server_bind (fresh_store every_write)) sea_served.
Proof.
  eapply rtc_l; [by apply (server_accept _ 0%nat sea_input)|]. apply (thread_steps_ok (λ _, 9) (replicate 8 0%nat)); [done|].
  unfold sea_served. destruct (thread_steps _ _ _) eqn:E; [done|]. by vm_compute in E.
Qed.

Lemma sea_served_sent :
  ss_sent <$> sv_sessions sea_served !! 0%nat = Some (lit "+OK" ++ CRLF ++ lit "$4" ++ CRLF ++ lit "blue" ++ CRLF).
Proof. by vm_compute. Qed.

Lemma server_runs_commands_witness :
  ∃ m', map_run (rn_args <$> sv_ran sea_served) ∅ = (rn_reply <$> sv_ran sea_served, m') ∧
    rn_reply <$> sv_ran sea_served = [Reply_ok; Bulk (lit "blue")].
Proof.
  destruct (server_runs_commands (fresh_store every_write) [] [] sea_served (fresh_history every_write eq_refl) eq_refl
    (λ _, eq_refl) sea_served_run) as (m' & H & _). exists m'. exact (conj H eq_refl).
Defined.

Lemma server_replies_durable_witness :
  ∃ s' hs', open_with Options_default (crash 1000 (sv_store sea_served)) = (Ok s', s_dir s') ∧ History s' hs' hs' ∧
    ∃ done, done `prefix_of` ran_by 0 (sv_ran sea_served) ∧ Forall (left_within hs') done.
Proof.
  destruct (server_replies_durable (fresh_store every_write) [] [] sea_served 1000 Options_default
    (fresh_history every_write eq_refl) eq_refl eq_refl eq_refl sea_served_run
    ltac:(unfold may_crash_at; by apply (bool_decide_unpack _); vm_compute) eq_refl) as (s' & hs' & E & HH & H).
  exists s', hs'. refine (conj E (conj HH _)).
  destruct (H 0%nat (default (mkSession [] [] None Ended [] []) (sv_sessions sea_served !! 0%nat)) ltac:(by vm_compute)) as (done & held & _ & Er & _ & _ & Hd).
  exists done. refine (conj _ Hd). rewrite Er. apply prefix_app_r. reflexivity.
Defined.

(** Two such clients: while the first one's thread syncs, the second one's falls asleep. *)
Definition two_clients : ServerState := set_session 1 (mkSession sea_input [] None Reading [] (mjoin sea_input)) sea_server.

Definition sea_asleep : ServerState :=
  default two_clients (thread_steps (λ _, 9) (replicate 4 0%nat ++ replicate 4 1%nat) two_clients).

Lemma sea_asleep_run : rtc server_step (server_bind (fresh_store every_write)) sea_asleep.
Proof.
  eapply rtc_l; [by apply (server_accept _ 0%nat sea_input)|]. eapply rtc_l; [by apply (server_accept _ 1%nat sea_input)|].
  apply (thread_steps_ok (λ _, 9) (replicate 4 0%nat ++ replicate 4 1%nat)); [done|].
  unfold sea_asleep. destruct (thread_steps _ _ _) eqn:E; [done|]. by vm_compute in E.
Qed.

Lemma server_sends_held_witness :
  1%nat ∈ sv_asleep sea_asleep ∧
  ∃ sv' ss', rtc (takes_turn (λ _, 9)) sea_asleep sv' ∧ sv_sessions sv' !! 1%nat = Some ss' ∧ ss_at ss' = Reading ∧
    ss_sent ss' = lit "+OK" ++ CRLF ++ lit "$4" ++ CRLF ++ lit "blue" ++ CRLF.
Proof.
  split; [apply (bool_decide_unpack _); vm_compute; exact I|].
  destruct (sv_sessions sea_asleep !! 1%nat) as [ss|] eqn:E; [|by vm_compute in E].
  assert (∃ p, ss_at ss = Committing (Waiting p) false) as [p Hp] by (vm_compute in E; injection E as <-; by eexists).
  destruct (server_sends_held (fresh_store every_write) [] [] sea_asleep 1 ss false (λ _, 9) (fresh_history every_write eq_refl) eq_refl
    (λ _, eq_refl) sea_asleep_run ltac:(done) E (or_intror (ex_intro _ _ Hp))) as (sv' & ss' & Hr & H' & Hs & _ & Ha).
  exists sv', ss'. refine (conj Hr (conj H' (conj Ha _))). rewrite Hs. vm_compute in E. injection E as <-. reflexivity.
Defined.
