(* ===== verification/Programs.v ===== *)
(** * The programs over one store (src/bin/minicask.rs, src/bin/server.rs, src/bin/crash_writer.rs)

    A run of [minicask] opens a directory, runs one command and leaves; what it prints, the
    code it exits with and the files it leaves are values. Runs one after another act on a
    directory as their commands do on a map, and what a run said it wrote is on the disk when
    it ends. The test helper's torn record costs nothing but itself. *)

From Stdlib Require Import SpecFloat Wf_nat.
From S2P Require Import Prelude.
From S2P Require Import Crc.
From S2P Require Import RecordFormat.
From S2P Require Import DataLog.
From S2P Require Import HintFile.
From S2P Require Import Store.
From S2P Require Import StoreIndex.
From S2P Require Import StoreInv.
From S2P Require Import StoreOps.
From S2P Require Import StoreMap.
From S2P Require Import KeyOrder.
From S2P Require Import StoreOpen.
From S2P Require Import StoreCrash.
From S2P Require Import StoreCompact.
From S2P Require Import Resp.
From S2P Require Import Server.

#[local] Open Scope N_scope.
#[local] Opaque rec_bytes.

(** ** What a process leaves: its output and its exit code *)

Record Output := mkOutput { stdout : bytes; stderr : bytes; exit_code : N }.

Definition NEWLINE : bytes := [x0a].
Definition println (line : bytes) : bytes := line ++ NEWLINE.

Definition SUCCESS : N := 0.
Definition FAILURE : N := 1.

(** ** minicask *)

Definition MINICASK_USAGE : bytes := lit "minicask - an append-only key/value store

USAGE:
    minicask [--dir PATH] [--no-fsync] <COMMAND> [ARGS]

COMMANDS:
    put <key> <value>   Store a value
    get <key>           Print a value, or exit 1 if the key is missing
    del <key>           Delete a key
    keys                List every live key
    stats               Show key count, disk usage and fragmentation
    compact             Rewrite live records and drop the rest

OPTIONS:
    --dir PATH          Store directory (default: ./minicask-data)
    --no-fsync          Trade power-cut durability for speed
    -h, --help          Print this message
".

Definition fail (message : bytes) : Output := mkOutput [] (println (lit "minicask: " ++ message)) 2.

Definition arg_is (arg : bytes) (s : string) : bool := bool_decide (arg = lit s).

(** The options before the command: where to work and how, and the arguments left; or the end
    of the program. *)
Fixpoint run_options (args : list bytes) (dir : bytes) (opts : Options) : Output + (bytes * Options * list bytes) :=
  match args with
  | [] => inr (dir, opts, [])
  | arg :: rest =>
      if arg_is arg "--dir" then
        match rest with
        | path :: rest => run_options rest path opts
        | [] => inl (fail (lit "--dir needs a path"))
        end
      else if arg_is arg "--no-fsync" then
        run_options rest dir (mkOptions OsCache (o_max_file_bytes opts) (o_verify_on_open opts))
      else if arg_is arg "-h" || arg_is arg "--help" then inl (mkOutput MINICASK_USAGE [] SUCCESS)
      else inr (dir, opts, args)
  end.

(** *** The share that could be reclaimed, in binary64 *)

Definition f64_div : spec_float → spec_float → spec_float := SFdiv 53 1024.
Definition f64_mul : spec_float → spec_float → spec_float := SFmul 53 1024.

(** [n as f64]. *)
Definition as_f64 (n : N) : spec_float := binary_normalize 53 1024 (Z.of_N n) 0 false.

Definition fragmentation (s : Stats) : spec_float :=
  if st_disk_bytes s =? 0 then S754_zero false
  else f64_div (as_f64 (reclaimable_bytes s)) (as_f64 (st_disk_bytes s)).

(** [{:.1}]: the tenth nearest to the exact value, the even one of two. *)
Definition tenths (m : positive) (e : Z) : N :=
  if (0 <=? e)%Z then Npos m * 2 ^ Z.to_N e * 10
  else
    let d := 2 ^ Z.to_N (- e) in
    let q := Npos m * 10 / d in
    let r := Npos m * 10 mod d in
    if (d <? 2 * r) || ((d =? 2 * r) && N.odd q) then q + 1 else q.

Definition show_f64_1 (x : spec_float) : bytes :=
  match x with
  | S754_zero s => (if s then lit "-" else []) ++ lit "0.0"
  | S754_infinity s => if s then lit "-inf" else lit "inf"
  | S754_nan => lit "NaN"
  | S754_finite s m e =>
      let t := tenths m e in (if s then lit "-" else []) ++ show_N (t / 10) ++ lit "." ++ show_N (t mod 10)
  end.

Definition show_stats (stats : Stats) : bytes :=
  println (lit "keys         " ++ show_N (st_keys stats)) ++
  println (lit "data files   " ++ show_N (st_files stats)) ++
  println (lit "live bytes   " ++ show_N (st_live_bytes stats)) ++
  println (lit "disk bytes   " ++ show_N (st_disk_bytes stats)) ++
  println (lit "reclaimable  " ++ show_N (reclaimable_bytes stats) ++ lit " (" ++
           show_f64_1 (f64_mul (fragmentation stats) (as_f64 100)) ++ lit "%)").

Definition show_report (report : CompactReport) : bytes :=
  println (lit "merged " ++ show_N (cr_files_before report) ++ lit " file(s), " ++
           show_N (cr_bytes_before report) ++ lit " bytes -> " ++ show_N (cr_bytes_after report) ++
           lit " bytes, reclaimed " ++ show_N (reclaimed_bytes report)).

Definition no_such_key (key : bytes) : Output :=
  mkOutput [] (println (lit "minicask: no such key: " ++ key)) FAILURE.
Definition silent_success : Output := mkOutput [] [] SUCCESS.

(** The names of the live keys, in order, one on each line. *)
Definition show_keys (keys : list bytes) : bytes :=
  mjoin (println <$> merge_sort bytes_le (utf8_lossy <$> keys)).

Definition show_value (value : bytes) : Output := mkOutput (println (utf8_lossy value)) [] SUCCESS.

Definition unknown_command (command : bytes) : Output :=
  mkOutput MINICASK_USAGE (println (lit "minicask: unknown command: " ++ command)) 2.

(** *** One command against an open store *)

Abbreviation Filesystem := (gmap N Dir).

Section Minicask.

(** The directory a path names, and the order in which a hash set lists its elements. *)
Context (resolve : bytes → N) (hash_order : gset N → list N).

(** [store.sync()?]. *)
Definition run_sync : M Store unit := λ s, (Ok tt, store_sync s).

(** [clock] has the two readings a write takes. *)
Definition run_command (clock : N * N) (command : bytes) (args : list bytes) : M Store Output :=
  if arg_is command "put" then
    match args with
    | key :: value :: _ =>
        store_put key value clock.1 clock.2 ≫= λ _,
        run_sync ≫= λ _, mret silent_success
    | _ => mret (fail (lit "put needs a key and a value"))
    end
  else if arg_is command "get" then
    match args with
    | key :: _ => λ s,
        (value ← store_get s key;
         Ok (match value with Some value => show_value value | None => no_such_key key end), s)
    | [] => mret (fail (lit "get needs a key"))
    end
  else if arg_is command "del" then
    match args with
    | key :: _ =>
        store_delete key clock.1 clock.2 ≫= λ existed : bool,
        run_sync ≫= λ _, mret (if existed then silent_success else no_such_key key)
    | [] => mret (fail (lit "del needs a key"))
    end
  else if arg_is command "keys" then λ s, (Ok (mkOutput (show_keys (store_keys s)) [] SUCCESS), s)
  else if arg_is command "stats" then λ s, (Ok (mkOutput (show_stats (store_stats s)) [] SUCCESS), s)
  else if arg_is command "compact" then λ s,
    (compact (hash_order (s_readers s)) ≫= λ report, mret (mkOutput (show_report report) [] SUCCESS)) s
  else mret (unknown_command command).

(** *** A whole run *)


Definition no_files : Dir := mkDir ∅ ∅ ∅.
Definition files_at (files : Filesystem) (path : bytes) : Dir := default no_files (files !! resolve path).

Definition DEFAULT_DIR : bytes := lit "./minicask-data".

Definition run_failed (e : Error) : Output := mkOutput [] (println (lit "minicask: " ++ error_display e)) 2.

(** [main]: the store is dropped, and so closed, when [run] returns. *)
Definition minicask (clock : N * N) (args : list bytes) (files : Filesystem) : Output * Filesystem :=
  match run_options args DEFAULT_DIR Options_default with
  | inl o => (o, files)
  | inr (_, _, []) => (mkOutput MINICASK_USAGE [] 2, files)
  | inr (dir, opts, command :: args) =>
      match open_with opts (files_at files dir) with
      | (Err e, d) => (run_failed e, <[resolve dir := d]> files)
      | (Ok s, _) =>
          let '(r, s) := run_command clock command args s in
          (match r with Ok o => o | Err e => run_failed e end, <[resolve dir := store_close s]> files)
      end
  end.

End Minicask.

(** ** crash-writer *)

(** How it ends: with a panic, or as it means to, by [abort]. *)
Inductive Ending := Panicked (message : string) | Aborted.

(** The files' names are their ids in ten digits, so the last of the names is the newest. *)
Definition newest_data_file (d : Dir) : option N := list.last (list_data_files d).

Definition PARTIAL : bytes := replicate 9 xab.

Definition crash_put (clock : N → N * N) (i : N) : M Store unit :=
  store_put (lit "key-" ++ show_N i) (lit "value-" ++ show_N i) (clock i).1 (clock i).2.

Definition upto (count : N) : list N := N.of_nat <$> seq 0 (N.to_nat count).

Section CrashWriter.
Context (resolve : bytes → N).

Definition crash_writer (clock : N → N * N) (args : list bytes) (files : Filesystem) : Ending * Filesystem :=
  match args with
  | [] | [_] => (Panicked "usage: crash-writer <dir> <count>", files)
  | dir :: count :: _ =>
      match parse_uint U64_MAX count with
      | None => (Panicked "count must be a number", files)
      | Some count =>
          let opts := mkOptions EveryWrite (o_max_file_bytes Options_default) (o_verify_on_open Options_default) in
          match open_with opts (files_at resolve files dir) with
          | (Err _, d) => (Panicked "open store", <[resolve dir := d]> files)
          | (Ok s, _) =>
              let '(r, s) := miter (crash_put clock) (upto count) s in
              let d := store_close s in
              match r with
              | Err _ => (Panicked "put", <[resolve dir := d]> files)
              | Ok _ =>
                  match newest_data_file d with
                  | None => (Panicked "at least one data file", <[resolve dir := d]> files)
                  | Some active => (Aborted, <[resolve dir := write_all active PARTIAL d]> files)
                  end
              end
          end
      end
  end.

End CrashWriter.

(** ** minicask-server *)

Definition SERVER_USAGE : bytes := lit "minicask-server - serve a store over the Redis protocol

USAGE:
    minicask-server [--dir PATH] [--bind ADDR] [--port N] [--no-fsync]

OPTIONS:
    --dir PATH          Store directory (default: ./minicask-data)
    --bind ADDR         Interface to listen on (default: 127.0.0.1)
    --port N            Port to listen on (default: 6379, 0 picks a free one)
    --no-fsync          Trade power-cut durability for speed
    -h, --help          Print this message
".

Definition server_fail (message : bytes) : Output := mkOutput [] (println (lit "minicask-server: " ++ message)) 2.

Record ServerOptions := mkServerOptions { so_dir : bytes; so_bind : bytes; so_port : N; so_opts : Options }.

Definition ServerOptions_default : ServerOptions :=
  mkServerOptions (lit "./minicask-data") (lit "127.0.0.1") 6379 Options_default.

Fixpoint server_options (args : list bytes) (o : ServerOptions) : Output + ServerOptions :=
  match args with
  | [] => inr o
  | arg :: rest =>
      if arg_is arg "--dir" then
        match rest with
        | path :: rest => server_options rest (mkServerOptions path (so_bind o) (so_port o) (so_opts o))
        | [] => inl (server_fail (lit "--dir needs a path"))
        end
      else if arg_is arg "--bind" then
        match rest with
        | addr :: rest => server_options rest (mkServerOptions (so_dir o) addr (so_port o) (so_opts o))
        | [] => inl (server_fail (lit "--bind needs an address"))
        end
      else if arg_is arg "--port" then
        match rest with
        | p :: rest =>
            match parse_uint 65535 p with
            | Some n => server_options rest (mkServerOptions (so_dir o) (so_bind o) n (so_opts o))
            | None => inl (server_fail (lit "--port needs a number from 0 to 65535"))
            end
        | [] => inl (server_fail (lit "--port needs a number from 0 to 65535"))
        end
      else if arg_is arg "--no-fsync" then
        server_options rest (mkServerOptions (so_dir o) (so_bind o) (so_port o)
          (mkOptions OsCache (o_max_file_bytes (so_opts o)) (o_verify_on_open (so_opts o))))
      else if arg_is arg "-h" || arg_is arg "--help" then inl (mkOutput SERVER_USAGE [] SUCCESS)
      else inl (server_fail (lit "unknown option: " ++ arg))
  end.

(** What the network does: listening fails; or the address cannot be read; or the server runs
    until accepting fails. Errors are what they print as. *)
Inductive Listening := BindFailed (e : bytes) | AddrUnknown (e : bytes) | Listened (addr : bytes) (accept_error : option bytes).

Section ServerMain.
Context (resolve : bytes → N).

(** The store that is served, and where: what [main] does before [Server::bind]. *)
Definition server_open (args : list bytes) (files : Filesystem) : Output * Filesystem + ServerOptions * Store :=
  match server_options args ServerOptions_default with
  | inl o => inl (o, files)
  | inr o =>
      match open_with (so_opts o) (files_at resolve files (so_dir o)) with
      | (Err e, d) => inl (server_fail (lit "cannot open " ++ so_dir o ++ lit ": " ++ error_display e), <[resolve (so_dir o) := d]> files)
      | (Ok s, _) => inr (o, s)
      end
  end.

End ServerMain.

(** The rest of [main]. *)
Definition server_listen (o : ServerOptions) (l : Listening) : Output :=
  match l with
  | BindFailed e => server_fail (lit "cannot listen on " ++ so_bind o ++ lit ":" ++ show_N (so_port o) ++ lit ": " ++ e)
  | AddrUnknown e => server_fail (lit "cannot read listening address: " ++ e)
  | Listened addr ended =>
      let said := println (lit "listening on " ++ addr) in
      match ended with
      | None => mkOutput said [] SUCCESS
      | Some e => mkOutput said (stderr (server_fail (lit "accept failed: " ++ e))) 2
      end
  end.

(** ** What a directory means *)

(** A directory that no store has open: none yet, or the files a store left, the newest
    perhaps with a torn end. *)
Definition dir_means (d : Dir) (m : gmap bytes bytes) : Prop :=
  (d = no_files ∧ m = ∅) ∨ ∃ fs a rs tail, disk_ok d fs a rs tail ∧ replay (all_recs fs ++ rs) = m.

(** A store just opened, as far as the programs rely on it. *)
Record Ready (s : Store) (m : gmap bytes bytes) (opts : Options) : Prop := {
  rd_refines : Refines s m;
  rd_restoring : s_restoring s = false;
  rd_compacting : s_compacting s = false;
  rd_opts : s_opts s = opts;
  rd_synced : is_synced s = true;
}.

Lemma open_means opts d m :
  dir_means d m → is_u64 (o_max_file_bytes opts) → ∃ s, open_with opts d = (Ok s, s_dir s) ∧ Ready s m opts.
Proof.
  intros [[-> ->]|(fs & a & rs & tail & HK & <-)] Hmax.
  - exists (fresh_store opts). split; [apply open_empty|]. split; try done. by apply fresh_refines.
  - destruct (open_ok opts d fs a rs tail HK Hmax) as (s & E & HI & Ha & Hr & Hc & Ho & _ & Hsy & _).
    exists s. split; [done|]. split; try done. exists fs, rs. split; [done|]. unfold contents. by rewrite all_recs_files.
Qed.

(** What a store that is closed leaves. *)
Lemma close_disk s fs rs : SInv s fs rs → disk_ok (store_close s) fs (active_id s) rs [].
Proof.
  intros HI. destruct (flush_inv s fs rs HI) as (HI' & Hp & <-).
  pose proof (si_writer _ _ _ HI') as (r0 & r1 & r2 & E & HW).
  assert (r2 = []) as -> by (destruct HW as (_ & W2 & _); apply file_bytes_nil; congruence).
  rewrite app_nil_r in E. pose proof (crash_exact (writer_flush s) fs rs r0 r1 [] rs HI') as HK.
  rewrite app_nil_r in HK. specialize (HK E HW). destruct HW as (W1 & _). rewrite <-E in *.
  rewrite crash_all in HK; [|unfold active_id; by rewrite (data_file_Some _ _ _ W1)|by eexists].
  apply HK; [rewrite E; by eexists|done].
Qed.

Lemma close_means s m : Refines s m → dir_means (store_close s) m.
Proof.
  intros (fs & rs & HI & <-). right. exists fs, (active_id s), rs, []. split; [by apply close_disk|].
  unfold contents. by rewrite all_recs_files.
Qed.

(** A store with nothing unsynced leaves the same however it ends. *)
Lemma crash_means s m n : Refines s m → is_synced s = true → may_crash_at n s → dir_means (crash n s) m.
Proof.
  intros (fs & rs & HI & <-) Hsy Hn. right.
  destruct (crash_disk s fs rs n HI Hn) as (rs1 & tail & HK & Hpre & Hkeep).
  exists fs, (active_id s), rs1, tail. split; [done|]. unfold contents. rewrite all_recs_files.
  assert (rs1 = rs) as ->; [|done]. apply (anti_symm prefix); [done|]. apply Hkeep; [done|].
  pose proof (si_writer _ _ _ HI) as (r0 & r1 & r2 & E & _ & _ & _ & Hoff & _). rewrite <-E in Hoff.
  apply N.eqb_eq in Hsy. rewrite Hsy, Hoff. done.
Qed.

(** ** A command as one on a map *)

(** The bytes the records of a map take. *)
Definition live_total (m : gmap bytes bytes) : N := total (map_imap (λ k v, Some (entry_len k v)) m).

(** What [command] prints and makes of [m]. Only what [stats] and [compact] print depends on more than
    the map: on the garbage in the files. *)
Definition command_spec (command : bytes) (args : list bytes) (m : gmap bytes bytes) (o : Output)
    (m' : gmap bytes bytes) : Prop :=
  if arg_is command "put" then
    match args with
    | [] :: _ :: _ => o = run_failed (InvalidKey "keys may not be empty") ∧ m' = m
    | key :: value :: _ => o = silent_success ∧ m' = <[key := value]> m
    | _ => o = fail (lit "put needs a key and a value") ∧ m' = m
    end
  else if arg_is command "get" then
    m' = m ∧ o = match args with
                 | key :: _ => match m !! key with Some value => show_value value | None => no_such_key key end
                 | [] => fail (lit "get needs a key")
                 end
  else if arg_is command "del" then
    match args with
    | key :: _ => m' = delete key m ∧ o = match m !! key with Some _ => silent_success | None => no_such_key key end
    | [] => m' = m ∧ o = fail (lit "del needs a key")
    end
  else if arg_is command "keys" then m' = m ∧ o = mkOutput (show_keys (map_keys m)) [] SUCCESS
  else if arg_is command "stats" then
    m' = m ∧ ∃ stats, o = mkOutput (show_stats stats) [] SUCCESS ∧ st_keys stats = N.of_nat (size m) ∧
      st_live_bytes stats = live_total m ∧ st_live_bytes stats ≤ st_disk_bytes stats
  else if arg_is command "compact" then
    m' = m ∧ ∃ report, o = mkOutput (show_report report) [] SUCCESS ∧ cr_bytes_after report = live_total m ∧
      cr_bytes_after report ≤ cr_bytes_before report
  else m' = m ∧ o = unknown_command command.

(** The kernel takes no argument of more than 128 KiB. *)
Definition args_small (args : list bytes) : Prop := Forall (λ a, blen a ≤ 2 ^ 30) args.

Lemma args_small_fits k v args : args_small (k :: v :: args) → fits k v.
Proof.
  intros [Hk [Hv _]%Forall_cons_1]%Forall_cons_1. unfold fits, is_u32, entry_len, TWO32 in *. lia.
Qed.

Lemma put_empty_key v now now' s : s_restoring s = false →
  store_put [] v now now' s = (Err (InvalidKey "keys may not be empty"), s).
Proof. intros Hr. unfold store_put, put_with. by rewrite Hr. Qed.

(** Decide which literal an argument is. *)
Ltac decide_args :=
  repeat match goal with
  | |- context [arg_is (lit ?a) ?b] =>
      let v := eval vm_compute in (arg_is (lit a) b) in change (arg_is (lit a) b) with v
  end; cbv beta iota.

(** What a command leaves in memory: the store of a map, with nothing unsynced. *)
Definition Done (s : Store) (m : gmap bytes bytes) : Prop := Refines s m ∧ is_synced s = true.

Lemma Ready_done s m opts : Ready s m opts → Done s m.
Proof. by intros []. Qed.

#[local] Hint Resolve Ready_done : minicask.

Section Commands.
Context (hash_order : gset N → list N) (hash_order_ok : ∀ ids, hash_order ids ≡ₚ elements ids).
Context (s : Store) (m : gmap bytes bytes) (opts : Options) (HS : Ready s m opts).
Context (clock : N * N) (Hclock : is_u64 clock.1) (Hclock' : is_u64 clock.2).

Lemma put_command k v args : k ≠ [] → fits k v →
  ∃ s', run_command hash_order clock (lit "put") (k :: v :: args) s = (Ok silent_success, s') ∧ Done s' (<[k := v]> m).
Proof using HS Hclock Hclock'.
  intros Hk Hf. destruct HS as [R1 R2 R3 R4 R5].
  destruct (put_refines s m k v (store_reach s) clock.1 clock.2 R1 R2 Hk Hf Hclock Hclock') as (s' & E & HR' & _).
  exists (store_sync s'). split; [|by apply sync_refines].
  unfold run_command. decide_args. unfold mbind, M_bind, store_put. by rewrite E.
Qed.

Lemma del_command k args :
  ∃ s', run_command hash_order clock (lit "del") (k :: args) s =
      (Ok (match m !! k with Some _ => silent_success | None => no_such_key k end), s') ∧ Done s' (delete k m).
Proof using HS Hclock Hclock'.
  destruct HS as [R1 R2 R3 R4 R5].
  destruct (delete_refines s m k (store_reach s) clock.1 clock.2 R1 R2 Hclock Hclock') as (s' & E & HR' & _).
  exists (store_sync s'). split; [|by apply sync_refines].
  unfold run_command. decide_args. unfold mbind, M_bind, store_delete. rewrite E. by destruct (m !! k).
Qed.

Lemma compact_command args : is_u64 (live_total m) →
  ∃ s' report, run_command hash_order clock (lit "compact") args s = (Ok (mkOutput (show_report report) [] SUCCESS), s') ∧
    Done s' m ∧ cr_bytes_after report = live_total m ∧ cr_bytes_after report ≤ cr_bytes_before report.
Proof using HS hash_order_ok.
  intros Hu. destruct HS as [R1 R2 R3 R4 R5]. destruct (Refines_counts s m R1) as [Hl Hle].
  destruct (compact_refines s m (hash_order (s_readers s)) R1 R3 R2) as (rep & s' & E & HR' & Hsy & _ & _ & _ & ->).
  - intros id. by rewrite hash_order_ok, elem_of_elements.
  - by rewrite Hl.
  - eexists s', _. split; [unfold run_command; decide_args; unfold mbind, M_bind; by rewrite E|]. done.
Qed.

Lemma keys_command : show_keys (store_keys s) = show_keys (map_keys m).
Proof using HS.
  unfold show_keys. do 2 f_equal. apply sort_Permutation. f_equiv. apply store_keys_map. by destruct HS.
Qed.

Lemma stats_command :
  st_keys (store_stats s) = N.of_nat (size m) ∧ st_live_bytes (store_stats s) = live_total m ∧
  st_live_bytes (store_stats s) ≤ st_disk_bytes (store_stats s).
Proof using HS.
  destruct HS as [R1 _ _ _ _]. destruct (Refines_counts s m R1) as [Hl Hle]. split_and!; [|done..].
  simpl. rewrite <-!size_dom. do 2 f_equal. apply set_eq. intros x. rewrite !elem_of_dom. by apply Refines_dom.
Qed.

(** Every command is the one on the map. *)
Lemma run_command_ok command args :
  args_small args → is_u64 (live_total m) →
  ∃ r s' m', run_command hash_order clock command args s = (r, s') ∧
    command_spec command args m (match r with Ok o => o | Err e => run_failed e end) m' ∧ Done s' m'.
Proof using HS hash_order_ok Hclock Hclock'.
  intros Hsm Hu. pose proof (Ready_done s m opts HS) as HD. pose proof HS as [R1 R2 R3 R4 R5]. unfold command_spec.
  destruct (arg_is command "put") eqn:Eput.
  { apply bool_decide_eq_true in Eput as ->.
    destruct args as [|k [|v args]]; [by eexists _, s, m|by eexists _, s, m; destruct k|].
    destruct k as [|b k].
    - eexists _, s, m. unfold run_command. decide_args. unfold mbind, M_bind. by rewrite put_empty_key.
    - destruct (put_command (b :: k) v args) as (s' & E & HD'); [done|by eapply args_small_fits|]. by eexists _, s', _. }
  destruct (arg_is command "get") eqn:Eget.
  { apply bool_decide_eq_true in Eget as ->. destruct args as [|k args]; [by eexists _, s, m|].
    eexists _, s, m. unfold run_command. decide_args. rewrite (Refines_get s m k R1). split; [done|]. by destruct (m !! k). }
  destruct (arg_is command "del") eqn:Edel.
  { apply bool_decide_eq_true in Edel as ->. destruct args as [|k args]; [by eexists _, s, m|].
    destruct (del_command k args) as (s' & E & HD'). by eexists _, s', _. }
  unfold run_command. rewrite Eput, Eget, Edel.
  destruct (arg_is command "keys"); [eexists _, s, m; split; [done|]; by rewrite keys_command|].
  destruct (arg_is command "stats").
  { eexists _, s, m. split_and!; [done|done| |done]. by eexists; split; [done|apply stats_command]. }
  destruct (arg_is command "compact") eqn:Ec; [|by eexists _, s, m].
  apply bool_decide_eq_true in Ec as ->. destruct (compact_command args Hu) as (s' & report & E & HD' & Hr).
  unfold run_command in E. revert E. decide_args. intros E. eexists _, s', m. split; [done|]. eauto.
Qed.
End Commands.

Lemma run_options_max args dir opts dir' opts' rest :
  run_options args dir opts = inr (dir', opts', rest) → o_max_file_bytes opts' = o_max_file_bytes opts ∧ rest `suffix_of` args.
Proof.
  revert dir opts. induction args as [args IH] using (induction_ltof1 _ length); unfold ltof in IH.
  destruct args as [|arg rest']; intros dir opts; simpl; [intros [= _ <- <-]; done|].
  destruct (arg_is arg "--dir").
  { destruct rest' as [|path rest']; [done|]. intros [E Hs]%IH; [|simpl; lia]. split; [done|by do 2 apply suffix_cons_r]. }
  destruct (arg_is arg "--no-fsync").
  { intros [E Hs]%IH; [|simpl; lia]. split; [done|by apply suffix_cons_r]. }
  destruct (arg_is arg "-h" || arg_is arg "--help"); [done|]. by intros [= _ <- <-].
Qed.

Section Runs.
Context (resolve : bytes → N) (hash_order : gset N → list N).

(** C11: a run of the program is its command on a map. On a directory that stands for a map, whatever
    way the last store left it, [minicask] prints what the command says of the map and exits with its
    code, and leaves a directory that stands for the map the command makes; [put] and [del] do so
    even if the power fails the moment they have succeeded, [--no-fsync] or not. *)
Theorem minicask_acts_on_map (files : Filesystem) (args rest : list bytes) (dir command : bytes) (opts : Options)
    (clock : N * N) (m : gmap bytes bytes) :
  (∀ ids, hash_order ids ≡ₚ elements ids) →
  run_options args DEFAULT_DIR Options_default = inr (dir, opts, command :: rest) →
  dir_means (files_at resolve files dir) m → args_small args → is_u64 clock.1 → is_u64 clock.2 →
  is_u64 (live_total m) →
  ∃ o s' m', minicask resolve hash_order clock args files = (o, <[resolve dir := store_close s']> files) ∧
    command_spec command rest m o m' ∧ dir_means (store_close s') m' ∧
    (command = lit "put" ∨ command = lit "del" → exit_code o = SUCCESS →
     ∀ n, may_crash_at n s' → dir_means (crash n s') m').
Proof.
  intros Hord Hargs Hd Hsm Hc Hc' Hu. pose proof (run_options_max _ _ _ _ _ _ Hargs) as [Hmax [pre Hs]].
  destruct (open_means opts _ m Hd) as (s & E & HS); [by rewrite Hmax|].
  assert (args_small rest) as Hsm'.
  { unfold args_small in *. rewrite Hs in Hsm. by apply Forall_app in Hsm as [_ [_ ?]%Forall_cons_1]. }
  destruct (run_command_ok hash_order Hord s m opts HS clock Hc Hc' command rest Hsm' Hu) as (r & s' & m' & Er & Hspec & HR & Hsy).
  eexists _, s', m'. unfold minicask. rewrite Hargs, E, Er. split_and!; [done|done|by apply close_means|].
  intros _ _ n. by apply crash_means.
Qed.
End Runs.

(** ** The runs of crash-writer and of the server *)

(** The map with the helper's keys in it. *)
Definition crash_map (ids : list N) (m : gmap bytes bytes) : gmap bytes bytes :=
  foldl (λ m i, <[lit "key-" ++ show_N i := lit "value-" ++ show_N i]> m) m ids.

Lemma show_digits_len fuel n acc : (length (show_digits fuel n acc) ≤ fuel + length acc)%nat.
Proof.
  revert n acc. induction fuel as [|fuel IH]; intros n acc; cbn [show_digits]; [lia|].
  destruct (n <? 10); [simpl; lia|]. etrans; [apply IH|]. simpl. lia.
Qed.

Lemma show_N_len n : (length (show_N n) ≤ 20)%nat.
Proof. etrans; [apply show_digits_len|]. simpl. lia. Qed.

Lemma crash_puts_ok clock ids s m opts :
  Refines s m → s_restoring s = false → s_opts s = opts → (∀ i, is_u64 (clock i).1 ∧ is_u64 (clock i).2) →
  ∃ s', miter (crash_put clock) ids s = (Ok tt, s') ∧ Refines s' (crash_map ids m).
Proof.
  intros HR Hr Ho Hc. revert s m HR Hr Ho. induction ids as [|i ids IH]; intros s m HR Hr Ho; [by exists s|].
  destruct (Hc i) as [H1 H2].
  destruct (put_refines s m (lit "key-" ++ show_N i) (lit "value-" ++ show_N i) (store_reach s) (clock i).1 (clock i).2
    HR Hr) as (s1 & E & HR1 & _ & Hr1 & _ & Ho1); [done| |done|done|].
  { unfold fits, entry_len, is_u32, TWO32, blen. rewrite !length_app. pose proof (show_N_len i). simpl. lia. }
  destruct (IH s1 _ HR1 Hr1) as (s' & E' & HR'); [congruence|].
  exists s'. split; [|done]. cbn [miter]. unfold mbind, M_bind, crash_put, store_put. by rewrite E.
Qed.

(** The newest file of a closed store is the one it was writing. *)
Lemma newest_active s m : Refines s m → newest_data_file (store_close s) = Some (active_id s).
Proof.
  intros (fs & rs & HI & _). pose proof (close_disk s fs rs HI) as [_ K2 K3 _ _ _ _ _].
  unfold newest_data_file. rewrite (list_data_files_sorted _ (fs.*1 ++ [active_id s])) by done. apply list.last_snoc.
Qed.

(** A few bytes after the last record are as good as none. *)
Lemma partial_means s m :
  Refines s m → is_u64 (blen (data_file (store_close s) (active_id s)) + 9) →
  dir_means (write_all (active_id s) PARTIAL (store_close s)) m.
Proof.
  intros (fs & rs & HI & <-) Hlen. pose proof (close_disk s fs rs HI) as [[D1 D2 D3 D4] K2 K3 K4 K5 K6 K7 K8].
  rewrite app_nil_r in *. rewrite (data_file_Some _ _ _ K4) in Hlen.
  right. exists fs, (active_id s), rs, PARTIAL. split; [|unfold contents; by rewrite all_recs_files].
  assert (∀ id rs', (id, rs') ∈ fs → id ≠ active_id s) as Hne.
  { intros id rs' Hin ->. pose proof (sorted_snoc_lt _ _ _ K2 (elem_fst _ _ _ Hin)). lia. }
  split; try done.
  - split; try done. intros id rs' Hin. simpl. rewrite lookup_insert_ne by (intros <-; by eapply Hne). by apply D1.
  - simpl. rewrite dom_insert_L, K3. set_solver.
  - simpl. by rewrite lookup_insert_eq, (data_file_Some _ _ _ K4).
  - right; left. done.
  - rewrite blen_app. done.
Qed.

(** However much the helper writes, the torn record it leaves behind costs nothing: the directory
    stands for the map with every key it put. *)
Theorem crash_writer_loses_nothing (resolve : bytes → N) (clock : N → N * N) (dir count : bytes) (n : N)
    (files : Filesystem) (m : gmap bytes bytes) :
  parse_uint U64_MAX count = Some n → dir_means (files_at resolve files dir) m →
  (∀ i, is_u64 (clock i).1 ∧ is_u64 (clock i).2) →
  ∃ d active, newest_data_file d = Some active ∧
    (is_u64 (blen (data_file d active) + 9) →
     crash_writer resolve clock [dir; count] files = (Aborted, <[resolve dir := write_all active PARTIAL d]> files) ∧
     dir_means (write_all active PARTIAL d) (crash_map (upto n) m)).
Proof.
  intros Hn Hd Hc. destruct (open_means (mkOptions EveryWrite (o_max_file_bytes Options_default)
    (o_verify_on_open Options_default)) _ m Hd) as (s & E & [R1 R2 R3 R4 R5]); [done|].
  destruct (crash_puts_ok clock (upto n) s m _ R1 R2 R4 Hc) as (s' & E' & HR').
  pose proof (newest_active s' _ HR') as Hnew.
  exists (store_close s'), (active_id s'). split; [done|]. intros Hlen.
  split; [|by apply partial_means]. unfold crash_writer. by rewrite Hn, E, E', Hnew.
Qed.

(** What the options of the server can become. *)
Definition server_options_ok (o : ServerOptions) : Prop :=
  o_max_file_bytes (so_opts o) = o_max_file_bytes Options_default ∧ so_port o ≤ 65535.

Lemma parse_uint_max max l n : parse_uint max l = Some n → n ≤ max.
Proof.
  unfold parse_uint. case_bool_decide; [done|]. intros (k & _ & E)%bind_Some. by case_match; simplify_eq; apply N.leb_le.
Qed.

Lemma server_options_range args o o' :
  server_options_ok o → server_options args o = inr o' → server_options_ok o'.
Proof.
  revert o. induction args as [args IH] using (induction_ltof1 _ length); unfold ltof in IH.
  intros o [Ho Hp]. destruct args as [|arg rest]; simpl; [by intros [= <-]|].
  destruct (arg_is arg "--dir"); [destruct rest; [done|]; apply IH; [simpl; lia|done]|].
  destruct (arg_is arg "--bind"); [destruct rest; [done|]; apply IH; [simpl; lia|done]|].
  destruct (arg_is arg "--port").
  { destruct rest as [|p rest]; [done|]. destruct (parse_uint 65535 p) as [n|] eqn:E; [|done].
    apply IH; [simpl; lia|]. split; [done|]. by apply parse_uint_max in E. }
  destruct (arg_is arg "--no-fsync"); [apply IH; [simpl; lia|done]|].
  by destruct (arg_is arg "-h" || arg_is arg "--help").
Qed.

(** The server starts on the map its directory stands for, so that every command it answers is the
    one on that map, and asks for a port there is. *)
Theorem server_serves_directory (resolve : bytes → N) (args : list bytes) (o : ServerOptions) (files : Filesystem)
    (m : gmap bytes bytes) :
  server_options args ServerOptions_default = inr o → dir_means (files_at resolve files (so_dir o)) m →
  ∃ s, server_open resolve args files = inr (o, s) ∧ Serving s m ∧ so_port o ≤ 65535.
Proof.
  intros E Hd. assert (server_options_ok o) as [Ho Hp] by (by eapply server_options_range; [|done]).
  destruct (open_means (so_opts o) _ m Hd) as (s & Eo & [R1 R2 _ _ _]); [by rewrite Ho|].
  exists s. unfold server_open. rewrite E, Eo. done.
Qed.

(** ** Runs *)

(** The directory every path names, and hash sets that list their elements in the order of [elements]. *)
Definition here (path : bytes) : N := 1.
Definition in_order (ids : gset N) : list N := elements ids.

Definition then_run (x : list Output * Filesystem) (args : list string) : list Output * Filesystem :=
  let '(o, files) := minicask here in_order (5, 6) (lit <$> args) x.2 in (x.1 ++ [o], files).
Definition session (runs : list (list string)) (files : Filesystem) : list Output * Filesystem :=
  foldl then_run ([], files) runs.

(** One process after another. *)
Example minicask_session :
  ((λ o, (stdout o, exit_code o)) <$>
    (session [["put"; "sky"; "blue"]; ["--no-fsync"; "put"; "sea"; "grey"]; ["get"; "sky"]; ["del"; "sky"];
              ["get"; "sky"]; ["keys"]; ["compact"]; ["get"; "sea"]; ["put"; "sea"]]%string ∅).1) =
  [([], 0); ([], 0); (println (lit "blue"), 0); ([], 0); ([], 1); (println (lit "sea"), 0);
   (println (lit "merged 1 file(s), 80 bytes -> 28 bytes, reclaimed 52"), 0); (println (lit "grey"), 0); ([], 2)].
Proof. vm_compute. reflexivity. Qed.

(** The torn record is gone when the next process has looked. *)
Example crash_writer_session :
  let '(how, files) := crash_writer here (λ i, (i, i)) [lit "d"; lit "3"] ∅ in
  how = Aborted ∧
  (stdout <$> (session [["get"; "key-2"]; ["keys"]]%string files).1) =
    [println (lit "value-2"); mjoin (println <$> [lit "key-0"; lit "key-1"; lit "key-2"])].
Proof. vm_compute. done. Qed.

(** Percentages as they print. *)
Example percentages :
  ((λ x : N * N, show_f64_1 (f64_mul (fragmentation (mkStats 0 0 x.1 x.2)) (as_f64 100))) <$>
    [(0, 0); (1, 3); (799, 800); (1, 1000); (15, 16); (0, 7)]) =
  [lit "0.0"; lit "66.7"; lit "0.1"; lit "99.9"; lit "6.2"; lit "100.0"].
Proof. vm_compute. reflexivity. Qed.

Lemma minicask_acts_on_map_witness :
  ∃ o s' m', minicask here in_order (5, 6) (lit <$> ["--no-fsync"; "put"; "sky"; "blue"]%string) ∅ =
      (o, <[1 := store_close s']> ∅) ∧
    command_spec (lit "put") [lit "sky"; lit "blue"] ∅ o m' ∧ dir_means (store_close s') m' ∧
    (lit "put" = lit "put" ∨ lit "put" = lit "del" → exit_code o = SUCCESS →
     ∀ n, may_crash_at n s' → dir_means (crash n s') m').
Proof.
  exact (minicask_acts_on_map here in_order ∅ (lit <$> ["--no-fsync"; "put"; "sky"; "blue"]%string)
    [lit "sky"; lit "blue"] DEFAULT_DIR (lit "put") (mkOptions OsCache (64 * 1024 * 1024) false) (5, 6) ∅
    (λ ids, reflexivity _) eq_refl (or_introl (conj eq_refl eq_refl))
    ltac:(by apply (bool_decide_unpack _); vm_compute) eq_refl eq_refl eq_refl).
Defined.
