(* ===== verification/DiskStorage.v ===== *)
(** * A node's durable state (src/raft/storage.rs)

    [DiskStorage]: the term and the vote, the log and the snapshot, in three files, with
    what they hold cached in memory; and recovering all of it. The second implementation
    of the [Storage] interface. *)

From S2P Require Import Prelude.
From S2P Require Import Crc.
From S2P Require Import RecordFormat.
From S2P Require Import RaftLog.

#[local] Open Scope N_scope.

(** ** Constants *)

Definition HARD_STATE_LEN : N := 20.
Definition NO_VOTE : N := U64_MAX.
Definition SNAPSHOT_MAGIC : bytes := lit "MCS2".
Definition OLD_SNAPSHOT_HEADER_LEN : N := 4 + 8 + 8.
Definition NO_MEMBERS : N := U32_MAX.
Definition CONFIG_ENTRY : byte := x01.

(** ** The directory *)

(** The three files, and the part files by their number; [snapshot.tmp], which earlier
    versions wrote, is number 0. *)
Record RaftDir := mkRaftDir {
  rd_hard_state : option bytes;
  rd_entries : option bytes;
  rd_snapshot : option bytes;
  rd_parts : gset N;
}.

Definition rd_set_hard_state (f : bytes) (d : RaftDir) : RaftDir :=
  mkRaftDir (Some f) (rd_entries d) (rd_snapshot d) (rd_parts d).
Definition rd_set_entries (f : bytes) (d : RaftDir) : RaftDir :=
  mkRaftDir (rd_hard_state d) (Some f) (rd_snapshot d) (rd_parts d).
Definition rd_set_snapshot (f : bytes) (d : RaftDir) : RaftDir :=
  mkRaftDir (rd_hard_state d) (rd_entries d) (Some f) (rd_parts d).
Definition rd_set_parts (ps : gset N) (d : RaftDir) : RaftDir :=
  mkRaftDir (rd_hard_state d) (rd_entries d) (rd_snapshot d) ps.

Definition entries_file (d : RaftDir) : bytes := default [] (rd_entries d).

(** [seek] and [write_all]: over what is there, with zeros for a hole. *)
Definition write_at (at_ : N) (buf f : bytes) : bytes :=
  take (N.to_nat at_) f ++ replicate (N.to_nat at_ - length f) x00 ++ buf ++
  drop (N.to_nat at_ + length buf) f.

Definition set_len (at_ : N) (f : bytes) : bytes :=
  take (N.to_nat at_) f ++ replicate (N.to_nat at_ - length f) x00.

(** ** The storage *)

(** [ds_clock] is the clock, reading by reading. *)
Record DiskStorage := mkDiskStorage {
  ds_dir : RaftDir;
  ds_hard_state : HardState;
  ds_log : EntryLog;
  ds_offsets : list N;
  ds_end : N;
  ds_snapshot_len : N;
  ds_snapshot_data_at : N;
  ds_snapshot_members : option (list Member);
  ds_next_part : N;
  ds_clock : nat → N;
}.

(** ** Entries as records *)

Definition entry_key (index term : N) : bytes := to_le 8 index ++ to_le 8 term.

Definition encode_entry (now : N) (e : Entry) : result bytes :=
  let key := entry_key (e_index e) (e_term e) in
  match e_command e with
  | Noop => record_encode key None now
  | Data data => record_encode key (Some data) now
  | Config members => record_encode (key ++ [CONFIG_ENTRY]) (Some (encode_members members)) now
  end.

(** The loop of [append] and of [rewrite_entries]: the bytes, where each entry starts, and
    the end. *)
Fixpoint encode_all (c : nat → N) (at_ : N) (es : list Entry) : result (bytes * list N * N) :=
  match es with
  | [] => Ok ([], [], at_)
  | e :: es =>
      bs ← encode_entry (c 0%nat) e;
      '(buf, offsets, end_) ← encode_all (λ i, c (S i)) (at_ + blen bs) es;
      Ok (bs ++ buf, at_ :: offsets, end_)
  end.

Definition ds_tick (n : nat) (s : DiskStorage) : DiskStorage :=
  mkDiskStorage (ds_dir s) (ds_hard_state s) (ds_log s) (ds_offsets s) (ds_end s) (ds_snapshot_len s)
    (ds_snapshot_data_at s) (ds_snapshot_members s) (ds_next_part s) (λ i, ds_clock s (n + i)%nat).

Definition ds_set_dir (d : RaftDir) (s : DiskStorage) : DiskStorage :=
  mkDiskStorage d (ds_hard_state s) (ds_log s) (ds_offsets s) (ds_end s) (ds_snapshot_len s)
    (ds_snapshot_data_at s) (ds_snapshot_members s) (ds_next_part s) (ds_clock s).

Definition ds_set_log (log : EntryLog) (offsets : list N) (end_ : N) (s : DiskStorage) : DiskStorage :=
  mkDiskStorage (ds_dir s) (ds_hard_state s) log offsets end_ (ds_snapshot_len s)
    (ds_snapshot_data_at s) (ds_snapshot_members s) (ds_next_part s) (ds_clock s).

(** Written beside the old file and renamed over it. *)
Definition rewrite_entries : M DiskStorage unit := λ s,
  let n := length (el_entries (ds_log s)) in
  match encode_all (ds_clock s) 0 (el_entries (ds_log s)) with
  | Err e => (Err e, ds_tick n s)
  | Ok (buf, offsets, _) =>
      (Ok tt, ds_tick n (ds_set_dir (rd_set_entries buf (ds_dir s)) (ds_set_log (ds_log s) offsets (blen buf) s)))
  end.

(** ** Snapshots being written *)

Record DiskSnapshot := mkDiskSnapshot {
  sk_meta : SnapshotMeta;
  sk_members : option (list Member);
  sk_header : bytes;
  sk_file : bytes;
  sk_part : N;
  sk_crc : Crc32;
  sk_written : N;
}.

Definition DiskSnapshot_write (buf : bytes) : M DiskSnapshot unit :=
  mmodify (λ k, mkDiskSnapshot (sk_meta k) (sk_members k) (sk_header k) (sk_file k ++ buf) (sk_part k)
    (Crc32_update (sk_crc k) buf) (sk_written k + blen buf)).

(** The part file, its header filled in. *)
Definition DiskSnapshot_finish (k : DiskSnapshot) : bytes :=
  write_at 0 (SNAPSHOT_MAGIC ++ to_le 4 (Crc32_finish (sk_crc k)) ++ sk_header k) (sk_file k).

Definition DiskSnapshot_drop (k : DiskSnapshot) (d : RaftDir) : RaftDir :=
  rd_set_parts (rd_parts d ∖ {[sk_part k]}) d.

Definition snapshot_header (meta : SnapshotMeta) (members : option (list Member)) : bytes :=
  to_le 8 (sm_index meta) ++ to_le 8 (sm_term meta) ++
  match members with
  | Some members =>
      let encoded := encode_members members in to_le 4 (as_u32 (blen encoded)) ++ encoded
  | None => to_le 4 NO_MEMBERS
  end.

(** ** The operations *)

Definition hard_state_bytes (state : HardState) : bytes :=
  let body := to_le 8 (hs_term state) ++ to_le 8 (default NO_VOTE (hs_voted_for state)) in
  to_le 4 (crc32_parts [body]) ++ body.

Definition DiskStorage_save_hard_state (state : HardState) : M DiskStorage unit := λ s,
  if bool_decide (state = ds_hard_state s) then (Ok tt, s)
  else
    (Ok tt, mkDiskStorage (rd_set_hard_state (hard_state_bytes state) (ds_dir s)) state (ds_log s) (ds_offsets s)
      (ds_end s) (ds_snapshot_len s) (ds_snapshot_data_at s) (ds_snapshot_members s) (ds_next_part s) (ds_clock s)).

Definition DiskStorage_append (entries : list Entry) : M DiskStorage unit := λ s,
  if bool_decide (entries = []) then (Ok tt, s)
  else
    let n := length entries in
    match encode_all (ds_clock s) (ds_end s) entries with
    | Err e => (Err e, ds_tick n s)
    | Ok (buf, offsets, at_) =>
        let d := rd_set_entries (write_at (ds_end s) buf (entries_file (ds_dir s))) (ds_dir s) in
        (Ok tt, ds_tick n (ds_set_dir d
          (ds_set_log (foldl EntryLog_push (ds_log s) entries) (ds_offsets s ++ offsets) at_ s)))
    end.

Definition DiskStorage_truncate_from (index : N) : M DiskStorage unit := λ s,
  let '(keep, log) := EntryLog_truncate_from (ds_log s) index in
  match ds_offsets s !! keep with
  | None => (Ok tt, ds_set_log log (ds_offsets s) (ds_end s) s)
  | Some at_ =>
      let d := rd_set_entries (set_len at_ (entries_file (ds_dir s))) (ds_dir s) in
      (Ok tt, ds_set_dir d (ds_set_log log (take keep (ds_offsets s)) at_ s))
  end.

Definition no_such_file : Error := Io "No such file or directory".
Definition unexpected_eof : Error := Io "failed to fill whole buffer".

Definition DiskStorage_read_snapshot (s : DiskStorage) (offset len : N) : result bytes :=
  if ds_snapshot_len s <=? offset then Ok []
  else
    let len := N.min len (ds_snapshot_len s - offset) in
    match rd_snapshot (ds_dir s) with
    | None => Err no_such_file
    | Some file =>
        let start := ds_snapshot_data_at s + offset in
        ok_or (get_slice start (start + len) file) unexpected_eof
    end.

Definition DiskStorage_snapshot_reader (s : DiskStorage) : result bytes :=
  match rd_snapshot (ds_dir s) with
  | None => Err no_such_file
  | Some file => Ok (take (N.to_nat (ds_snapshot_len s)) (drop (N.to_nat (ds_snapshot_data_at s)) file))
  end.

Definition DiskStorage_new_snapshot (meta : SnapshotMeta) (members : option (list Member))
    : M DiskStorage DiskSnapshot := λ s,
  let part := ds_next_part s + 1 in
  let header := snapshot_header meta members in
  let file := replicate (8 + length header) x00 in
  let d := rd_set_parts ({[part]} ∪ rd_parts (ds_dir s)) (ds_dir s) in
  (Ok (mkDiskSnapshot meta members header file part (Crc32_update Crc32_new header) 0),
   mkDiskStorage d (ds_hard_state s) (ds_log s) (ds_offsets s) (ds_end s) (ds_snapshot_len s)
     (ds_snapshot_data_at s) (ds_snapshot_members s) part (ds_clock s)).

(** The snapshot in place, the log not yet cut down. *)
Definition rename_snapshot (sink : DiskSnapshot) (s : DiskStorage) : DiskStorage :=
  let d := rd_set_snapshot (DiskSnapshot_finish sink) (DiskSnapshot_drop sink (ds_dir s)) in
  mkDiskStorage d (ds_hard_state s) (ds_log s) (ds_offsets s) (ds_end s) (sk_written sink)
    (8 + blen (sk_header sink)) (sk_members sink) (ds_next_part s) (ds_clock s).

Definition DiskStorage_install_snapshot (sink : DiskSnapshot) : M DiskStorage unit := λ s,
  if sm_index (sk_meta sink) <=? sm_index (el_base (ds_log s)) then
    (Ok tt, ds_set_dir (DiskSnapshot_drop sink (ds_dir s)) s)
  else
    let s := rename_snapshot sink s in
    rewrite_entries (ds_set_log (EntryLog_compact (ds_log s) (sk_meta sink)).2 (ds_offsets s) (ds_end s) s).

#[export] Instance DiskStorage_Storage : Storage DiskStorage := {|
  Sink := DiskSnapshot;
  sink_meta := sk_meta;
  sink_written := sk_written;
  sink_write_all := DiskSnapshot_write;
  hard_state := ds_hard_state;
  save_hard_state := DiskStorage_save_hard_state;
  last_index := λ s, EntryLog_last_index (ds_log s);
  term_at := λ s, EntryLog_term_at (ds_log s);
  entry := λ s, EntryLog_entry (ds_log s);
  entries_from := λ s, EntryLog_entries_from (ds_log s);
  append := DiskStorage_append;
  truncate_from := DiskStorage_truncate_from;
  snapshot_meta := λ s, el_base (ds_log s);
  snapshot_members := ds_snapshot_members;
  snapshot_len := ds_snapshot_len;
  read_snapshot := DiskStorage_read_snapshot;
  snapshot_reader := DiskStorage_snapshot_reader;
  new_snapshot := DiskStorage_new_snapshot;
  install_snapshot := DiskStorage_install_snapshot;
|}.

(** ** Recovery *)

Definition corrupt_at (at_ : N) (detail : string) : Error := Corrupt 0 at_ detail.

Record SnapshotHeader := mkSnapshotHeader {
  sh_meta : SnapshotMeta;
  sh_members : option (list Member);
  sh_data_at : N;
  sh_data_len : N;
}.
Definition SnapshotHeader_default : SnapshotHeader := mkSnapshotHeader SnapshotMeta_default None 0 0.

Definition short_snapshot : Error := corrupt_at 0 "the raft snapshot is shorter than its header".

(** What is left to read after [n] bytes, which must be there. *)
Definition read_exact {A} (n : N) (e : Error) (r : bytes) (k : bytes → bytes → result A) : result A :=
  match p_take n r with None => Err e | Some (l, r) => k l r end.

(** The end of [read_snapshot_header]: the data, to the end of the file, and the checksum. *)
Definition check_snapshot (crc : Crc32) (expected : N) (meta : SnapshotMeta) (members : option (list Member))
    (data_at : N) (data : bytes) : result SnapshotHeader :=
  if negb (Crc32_finish (Crc32_update crc data) =? expected)
  then Err (corrupt_at 0 "checksum mismatch in the raft snapshot")
  else Ok (mkSnapshotHeader meta members data_at (blen data)).

Definition read_snapshot_header (file : option bytes) : result SnapshotHeader :=
  match file with
  | None => Ok SnapshotHeader_default
  | Some file =>
      read_exact 4 short_snapshot file (λ first r,
      if bool_decide (first = SNAPSHOT_MAGIC) then
        read_exact 24 short_snapshot r (λ fixed r,
        let crc := Crc32_update Crc32_new (drop 4 fixed) in
        let expected := of_le (slice 0 4 fixed) in
        let meta := mkMeta (of_le (slice 4 12 fixed)) (of_le (slice 12 20 fixed)) in
        let members_len := of_le (slice 20 24 fixed) in
        if members_len =? NO_MEMBERS then check_snapshot crc expected meta None (4 + 24) r
        else
          read_exact members_len short_snapshot r (λ encoded r,
          match decode_members encoded with
          | None => Err (corrupt_at 0 "the raft snapshot's membership is malformed")
          | Some members =>
              check_snapshot (Crc32_update crc encoded) expected meta (Some members) (4 + 24 + members_len) r
          end))
      else
        read_exact (OLD_SNAPSHOT_HEADER_LEN - 4) short_snapshot r (λ rest r,
        check_snapshot (Crc32_update Crc32_new rest) (of_le first)
          (mkMeta (of_le (slice 0 8 rest)) (of_le (slice 8 16 rest))) None OLD_SNAPSHOT_HEADER_LEN r))
  end.

(** Whether the key is that of a membership entry; [None] for one that is no entry's. *)
Definition key_kind (key : bytes) : option bool :=
  match length key with
  | 16%nat => Some false
  | 17%nat => if bool_decide (key !! 16%nat = Some CONFIG_ENTRY) then Some true else None
  | _ => None
  end.

Definition entry_command (at_ : N) (config : bool) (header : Header) (value : bytes) : result Command :=
  if config then
    match decode_members value with
    | Some members => Ok (Config members)
    | None => Err (corrupt_at at_ "raft log membership entry is malformed")
    end
  else if is_tombstone header then Ok Noop
  else Ok (Data value).

(** Indices follow each other, and none is 0. *)
Definition check_order (at_ : N) (entries : list Entry) (index : N) : result unit :=
  match list.last entries with
  | Some last =>
      if negb (index =? e_index last + 1) then Err (corrupt_at at_ "raft log entries are out of order") else Ok tt
  | None => if index =? 0 then Err (corrupt_at at_ "raft log entry has index 0") else Ok tt
  end.

(** One record, whole: the entry it holds. *)
Definition recover_entry (at_ : N) (entries : list Entry) (header : Header) (key value : bytes) : result Entry :=
  if negb (verify header key value) then Err (corrupt_at at_ "checksum mismatch in the raft log")
  else
    match key_kind key with
    | None => Err (corrupt_at at_ "raft log entry has a malformed key")
    | Some config =>
        let index := of_le (slice 0 8 key) in
        let term := of_le (slice 8 16 key) in
        check_order at_ entries index ≫= λ _,
        command ← entry_command at_ config header value;
        Ok (mkEntry term index command)
    end.

(** The loop of [recover]; every turn reads at least a header, so the length of the file is
    fuel enough. *)
Fixpoint recover_loop (fuel : nat) (rest : bytes) (at_ size : N) (entries : list Entry) (offsets : list N)
    : result (list Entry * list N * N) :=
  match fuel with
  | O => Ok (entries, offsets, at_)
  | S fuel =>
      match p_take (N.of_nat HEADER_LEN) rest with
      | None => Ok (entries, offsets, at_)
      | Some (header_buf, rest) =>
          let header := header_decode header_buf in
          if size - at_ <? record_len header then Ok (entries, offsets, at_)
          else
            match p_take (hdr_key_len header + hdr_value_len header) rest with
            | None => Ok (entries, offsets, at_)
            | Some (body, rest) =>
                let key := take (N.to_nat (hdr_key_len header)) body in
                let value := drop (N.to_nat (hdr_key_len header)) body in
                e ← recover_entry at_ entries header key value;
                recover_loop fuel rest (at_ + record_len header) size (entries ++ [e]) (offsets ++ [at_])
            end
      end
  end.

(** With the file, cut back to the last whole record. *)
Definition recover (file : bytes) : result (list Entry * list N * N * bytes) :=
  let size := blen file in
  '(entries, offsets, at_) ← recover_loop (S (length file)) file 0 size [] [];
  Ok (entries, offsets, at_, if negb (at_ =? size) then set_len at_ file else file).

Definition read_hard_state (file : option bytes) : result HardState :=
  match file with
  | None => Ok HardState_default
  | Some file =>
      match p_take HARD_STATE_LEN file with
      | None => Ok HardState_default
      | Some (buf, _) =>
          let expected := of_le (slice 0 4 buf) in
          if negb (crc32_parts [drop 4 buf] =? expected)
          then Err (corrupt_at 0 "checksum mismatch in the raft hard state")
          else
            let term := of_le (slice 4 12 buf) in
            let voted := of_le (slice 12 20 buf) in
            Ok (mkHardState term (if negb (voted =? NO_VOTE) then Some voted else None))
      end
  end.

(** The storage as opened, its log still to be fitted to the snapshot. *)
Definition opened (d : RaftDir) (hs : HardState) (h : SnapshotHeader) (log : EntryLog) (offsets : list N) (end_ : N)
    (c : nat → N) : DiskStorage :=
  mkDiskStorage d hs log offsets end_ (sh_data_len h) (sh_data_at h) (sh_members h) 0 c.

(** [DiskStorage::open], with the directory it leaves behind. *)
Definition raft_open (c : nat → N) (d : RaftDir) : result DiskStorage * RaftDir :=
  match read_hard_state (rd_hard_state d) with
  | Err e => (Err e, d)
  | Ok hs =>
      match read_snapshot_header (rd_snapshot d) with
      | Err e => (Err e, d)
      | Ok h =>
          let base := sh_meta h in
          let d := rd_set_entries (entries_file d) (rd_set_parts ∅ d) in
          match recover (entries_file d) with
          | Err e => (Err e, d)
          | Ok (entries, offsets, end_, file) =>
              let d := rd_set_entries file d in
              let fitting := (Ok (opened d hs h (mkEntryLog base entries) offsets end_ c), d) in
              match e_index <$> head entries with
              | None => fitting
              | Some first =>
                  if first =? sm_index base + 1 then fitting
                  else if first <=? sm_index base then
                    let log := (EntryLog_compact (mkEntryLog (mkMeta (first - 1) 0) entries) base).2 in
                    match rewrite_entries (opened d hs h log offsets end_ c) with
                    | (Ok _, s) => (Ok s, ds_dir s)
                    | (Err e, s) => (Err e, ds_dir s)
                    end
                  else (Err (corrupt_at 0 "the raft log does not begin where the snapshot ends"), d)
              end
          end
      end
  end.
