(* ===== verification/DiskProof.v ===== *)
(** * The durable storage keeps its promises

    [DiskStorage] obeys the laws the node relies on. [DInv s]: the files hold what the
    storage says it holds; every operation keeps it, and opening the directory of such a
    storage, or the directory a crash left in the middle of an operation, gives it back. *)

From S2P Require Import Prelude.
From S2P Require Import Crc.
From S2P Require Import RecordFormat.
From S2P Require Import RaftLog.
From S2P Require Import DataLog.
From S2P Require Import HintFile.
From S2P Require Import Store.
From S2P Require Import StoreIndex.
From S2P Require Import StoreInv.
From S2P Require Import StoreOps.
From S2P Require Import StoreMap.
From S2P Require Import StoreOpen.
From S2P Require Import StoreCrash.
From S2P Require Import DiskStorage.

#[local] Open Scope N_scope.

(** ** The laws *)

Lemma rewrite_entries_log s : ds_log (rewrite_entries s).2 = ds_log s ∧ ds_hard_state (rewrite_entries s).2 = ds_hard_state s.
Proof. unfold rewrite_entries. by destruct (encode_all _ _ _) as [[[buf offsets] end_]|e]. Qed.

Lemma DiskStorage_install_log k s :
  ds_hard_state (DiskStorage_install_snapshot k s).2 = ds_hard_state s ∧
  ds_log (DiskStorage_install_snapshot k s).2 = (EntryLog_compact (ds_log s) (sk_meta k)).2.
Proof.
  unfold DiskStorage_install_snapshot. destruct (N.leb_spec (sm_index (sk_meta k)) (sm_index (el_base (ds_log s)))).
  - by rewrite EntryLog_compact_old.
  - match goal with |- context [rewrite_entries ?x] => destruct (rewrite_entries_log x) as [-> ->] end. done.
Qed.

#[export] Instance DiskStorage_laws : StorageLaws DiskStorage.
Proof.
  unshelve eapply (Build_StorageLaws _ _ ds_log); [exact sk_members|..]; try done; simpl.
  - intros hs s. unfold DiskStorage_save_hard_state. by case_bool_decide.
  - intros hs s s'. unfold DiskStorage_save_hard_state. case_bool_decide as E; intros [= <-]; [by rewrite E|done].
  - intros hs s e s'. unfold DiskStorage_save_hard_state. by case_bool_decide.
  - intros es s. unfold DiskStorage_append. case_bool_decide; [done|].
    by destruct (encode_all _ _ _) as [[[buf offsets] end_]|e].
  - intros es s s'. unfold DiskStorage_append. case_bool_decide as E; [intros [= <-]; by rewrite E|].
    destruct (encode_all _ _ _) as [[[buf offsets] end_]|e]; [|done]. by intros [= <-].
  - intros es s e s'. unfold DiskStorage_append. case_bool_decide; [done|].
    destruct (encode_all _ _ _) as [[[buf offsets] end_]|e']; [done|]. by intros [= _ <-].
  - intros i s. unfold DiskStorage_truncate_from. simpl. by destruct (ds_offsets s !! _).
  - intros i s. unfold DiskStorage_truncate_from. simpl. by destruct (ds_offsets s !! _).
  - intros meta ms s k s' [= <- <-]. done.
  - intros k s. apply DiskStorage_install_log.
  - intros k s s' E. pose proof (DiskStorage_install_log k s) as H. rewrite E in H. apply H.
  - intros k s e s' E. pose proof (DiskStorage_install_log k s) as H. rewrite E in H. right. apply H.
  - intros d k k' [= <-]. done.
  - intros hs s. unfold DiskStorage_save_hard_state. by case_bool_decide.
  - intros es s. unfold DiskStorage_append. case_bool_decide; [done|].
    by destruct (encode_all _ _ _) as [[[buf offsets] end_]|e].
  - intros i s. unfold DiskStorage_truncate_from. simpl. by destruct (ds_offsets s !! _).
  - by intros meta ms s k s' [= <- <-].
  - intros k s. unfold DiskStorage_install_snapshot. destruct (_ <=? _); [by left|].
    right. unfold rewrite_entries. repeat case_match; done.
Defined.

(** ** Entries as records *)

Definition key_of (e : Entry) : bytes :=
  entry_key (e_index e) (e_term e) ++ match e_command e with Config _ => [CONFIG_ENTRY] | _ => [] end.

Definition value_of (e : Entry) : option bytes :=
  match e_command e with
  | Noop => None
  | Data data => Some data
  | Config members => Some (encode_members members)
  end.

Definition entry_rec (now : N) (e : Entry) : Rec := mkRec (key_of e) (value_of e) now.

(** What fits the format: 64-bit numbers, a membership that can be encoded, and a record
    no longer than 32 bits can say. *)
Definition entry_ok (e : Entry) : Prop :=
  is_u64 (e_index e) ∧ is_u64 (e_term e) ∧ match e_command e with Config ms => members_wf ms | _ => True end ∧
  is_u32 (21 + blen (key_of e) + blen (default [] (value_of e))).

#[export] Instance entry_ok_dec e : Decision (entry_ok e).
Proof. unfold entry_ok, is_u64, is_u32. destruct (e_command e); apply _. Defined.

Definition is_rec (e : Entry) (r : Rec) : Prop := ∃ now, is_u64 now ∧ r = entry_rec now e.

Lemma entry_rec_ok e now : entry_ok e → is_u64 now → rec_ok (entry_rec now e).
Proof.
  intros (Hi & Ht & Hm & Hl) Hn. unfold rec_ok, record_ok. rewrite rec_bytes_len. cbn [entry_rec r_key r_value r_tstamp].
  split_and!; [|unfold is_u32, U32_MAX, TWO32 in *; lia..|done|done]. unfold key_of. intros E.
  apply (f_equal length) in E. unfold entry_key in E. rewrite !length_app, !length_to_le in E. done.
Qed.

Lemma is_rec_ok es rs : Forall entry_ok es → Forall2 is_rec es rs → Forall rec_ok rs.
Proof.
  intros Hok H2. revert Hok. induction H2 as [|e r es rs (now & Hn & ->) H2 IH]; intros Hok; [constructor|].
  apply Forall_cons_1 in Hok as [He Hes]. constructor; [by apply entry_rec_ok|by apply IH].
Qed.

Lemma encode_entry_ok now e :
  entry_ok e → is_u64 now → encode_entry now e = Ok (rec_bytes (entry_rec now e)).
Proof.
  intros He Hn. destruct (entry_rec_ok e now He Hn) as (Hr & _). unfold encode_entry. cbn [entry_rec r_key r_value] in Hr.
  unfold key_of, value_of in Hr. unfold rec_bytes, entry_rec, key_of, value_of. cbn [r_key r_value r_tstamp].
  destruct (e_command e); rewrite ?app_nil_r in *; by apply record_encode_ok.
Qed.

#[local] Opaque rec_bytes.

(** Where each record of a file starts. *)
Fixpoint starts (at_ : N) (rs : list Rec) : list N :=
  match rs with [] => [] | r :: rs => at_ :: starts (at_ + blen (rec_bytes r)) rs end.

Lemma starts_length at_ rs : length (starts at_ rs) = length rs.
Proof. revert at_. induction rs as [|r rs IH]; intros at_; [done|]. simpl. by rewrite IH. Qed.

Lemma starts_app at_ rs rs' : starts at_ (rs ++ rs') = starts at_ rs ++ starts (at_ + blen (file_bytes rs)) rs'.
Proof.
  revert at_. induction rs as [|r rs IH]; intros at_; cbn [app starts].
  - change (file_bytes []) with (@nil byte). by rewrite blen_nil, N.add_0_r.
  - by rewrite IH, file_bytes_cons, blen_app, N.add_assoc.
Qed.

Lemma starts_lookup at_ rs k :
  (k < length rs)%nat → starts at_ rs !! k = Some (at_ + blen (file_bytes (take k rs))).
Proof.
  revert at_ k. induction rs as [|r rs IH]; intros at_ [|k] Hk; simpl in Hk; try lia; cbn [starts take lookup list_lookup].
  - change (file_bytes []) with (@nil byte). by rewrite blen_nil, N.add_0_r.
  - rewrite IH by lia. by rewrite file_bytes_cons, blen_app, N.add_assoc.
Qed.

Lemma starts_take at_ rs k : take k (starts at_ rs) = starts at_ (take k rs).
Proof. revert at_ k. induction rs as [|r rs IH]; intros at_ [|k]; simpl; [done..|]. by rewrite IH. Qed.

Lemma encode_all_ok c at_ es :
  Forall entry_ok es → (∀ i, is_u64 (c i)) →
  ∃ rs, Forall2 is_rec es rs ∧
    encode_all c at_ es = Ok (file_bytes rs, starts at_ rs, at_ + blen (file_bytes rs)).
Proof.
  intros Hok. revert c at_. induction Hok as [|e es He Hes IH]; intros c at_ Hc.
  - exists []. split; [constructor|]. simpl. change (file_bytes []) with (@nil byte). by rewrite blen_nil, N.add_0_r.
  - cbn [encode_all]. rewrite encode_entry_ok by done. cbn [mbind result_bind].
    destruct (IH (λ i, c (S i)) (at_ + blen (rec_bytes (entry_rec (c 0%nat) e)))) as (rs & H2 & ->); [by intros i|].
    exists (entry_rec (c 0%nat) e :: rs). split; [constructor; [by eexists|done]|]. cbn [mbind result_bind].
    by rewrite file_bytes_cons, blen_app, N.add_assoc.
Qed.

(** ** Recovering the log *)

(** Each index one more than the one before; the first is not 0. *)
Fixpoint follows (prev : option N) (es : list Entry) : Prop :=
  match es with
  | [] => True
  | e :: es =>
      match prev with Some p => e_index e = p + 1 | None => e_index e ≠ 0 end ∧ follows (Some (e_index e)) es
  end.

Lemma key_of_kind e : key_kind (key_of e) = Some match e_command e with Config _ => true | _ => false end.
Proof.
  unfold key_kind, key_of, entry_key. rewrite !length_app, !length_to_le. destruct (e_command e); done.
Qed.

Lemma key_of_fields e :
  is_u64 (e_index e) → is_u64 (e_term e) →
  of_le (slice 0 8 (key_of e)) = e_index e ∧ of_le (slice 8 16 (key_of e)) = e_term e.
Proof.
  intros Hi Ht. unfold key_of, entry_key. rewrite <-!(assoc_L (++)). split.
  - rewrite slice_here by (by rewrite blen_to_le). by apply of_le_to_le_u64.
  - rewrite slice_skip by (rewrite blen_to_le; done). rewrite blen_to_le.
    rewrite slice_here by (by rewrite blen_to_le). by apply of_le_to_le_u64.
Qed.

Lemma recover_entry_ok at_ entries now e :
  entry_ok e → match e_index <$> list.last entries with Some p => e_index e = p + 1 | None => e_index e ≠ 0 end →
  recover_entry at_ entries (record_header (key_of e) (value_of e) now) (key_of e) (default [] (value_of e)) = Ok e.
Proof.
  intros (Hi & Ht & Hm & _) Hord. unfold recover_entry. rewrite record_verify. cbn [negb].
  rewrite key_of_kind. destruct (key_of_fields e Hi Ht) as [-> ->].
  assert (check_order at_ entries (e_index e) = Ok tt) as ->.
  { unfold check_order. destruct (list.last entries) as [l|]; simpl in Hord.
    - by rewrite (proj2 (N.eqb_eq _ _) Hord).
    - by rewrite (proj2 (N.eqb_neq _ _) Hord). }
  cbn [mbind result_bind]. unfold entry_command. rewrite record_is_tombstone. unfold value_of.
  destruct e as [term index [|data|ms]]; simpl in *; [done|done|]. by rewrite decode_encode_members.
Qed.

Lemma p_take_short n r : blen r < n → p_take n r = None.
Proof. intros H. unfold p_take. by rewrite (proj2 (N.leb_gt _ _)). Qed.

(** Nothing is recovered from a record cut short. *)
Lemma recover_loop_torn fuel tail at_ entries offsets :
  torn_tail tail →
  recover_loop fuel tail at_ (at_ + blen tail) entries offsets = Ok (entries, offsets, at_).
Proof.
  intros Ht. destruct fuel as [|fuel]; [done|]. cbn [recover_loop].
  destruct (N.ltb_spec (blen tail) 21) as [Hlt|Hge]; [by rewrite p_take_short|].
  destruct Ht as [->|[Hs|(r & (Hr & Hts & _) & [rest E] & Hne)]]; [by rewrite blen_nil in Hge|unfold HEADER_LEN in Hs; lia|].
  set (h := record_header (r_key r) (r_value r) (r_tstamp r)).
  assert (blen (header_encode h) = 21) as Hh by (unfold blen; by rewrite length_header_encode).
  assert (blen rest ≠ 0) as Hrest.
  { intros ->%blen_0. rewrite app_nil_r in E. by rewrite E in Hne. }
  destruct (p_take (N.of_nat HEADER_LEN) tail) as [[hb rest']|] eqn:Ep; [|done].
  apply p_take_inv in Ep as [-> Hb]. pose proof (rec_bytes_take r) as Htk. rewrite E in Htk.
  rewrite take_app_le in Htk by (rewrite length_app; unfold blen in Hb; lia).
  rewrite take_app_length' in Htk by (unfold blen in Hb; lia). subst hb. fold h.
  rewrite header_decode_encode_exact by (by apply record_header_wf).
  assert (record_len h = blen (header_encode h ++ rest') + blen rest) as ->.
  { unfold h at 1. by rewrite rec_bytes_record_len, E, blen_app. }
  rewrite (proj2 (N.ltb_lt _ _)) by lia. done.
Qed.

(** A whole record is its entry. *)
Lemma recover_loop_step fuel now e rest at_ size done_ offsets :
  entry_ok e → is_u64 now →
  match e_index <$> list.last done_ with Some p => e_index e = p + 1 | None => e_index e ≠ 0 end →
  at_ + blen (rec_bytes (entry_rec now e)) ≤ size →
  recover_loop (S fuel) (rec_bytes (entry_rec now e) ++ rest) at_ size done_ offsets =
    recover_loop fuel rest (at_ + blen (rec_bytes (entry_rec now e))) size (done_ ++ [e]) (offsets ++ [at_]).
Proof.
  intros He Hn Hord Hsz. pose proof (entry_rec_ok e now He Hn) as (Hr & Hts & _). cbn [recover_loop].
  pose proof (rec_bytes_split (entry_rec now e)) as Hsplit.
  pose proof (rec_bytes_record_len (entry_rec now e)) as Hlen. cbn [entry_rec r_key r_value r_tstamp] in Hsplit, Hlen, Hr, Hts.
  pose proof (record_header_wf _ _ _ Hr Hts) as Hwf. pose proof (recover_entry_ok at_ done_ now e He Hord) as Hrec.
  assert (hdr_key_len (record_header (key_of e) (value_of e) now) = blen (key_of e)) as Hkl by done.
  assert (hdr_value_len (record_header (key_of e) (value_of e) now) = blen (default [] (value_of e))) as Hvl by done.
  set (h := record_header (key_of e) (value_of e) now) in *. clearbody h.
  set (bs := rec_bytes (entry_rec now e)) in *. clearbody bs.
  rewrite Hsplit at 1. rewrite <-!(assoc_L (++)).
  rewrite (p_take_app (header_encode h)) by (unfold blen; by rewrite length_header_encode).
  rewrite header_decode_encode_exact by done. rewrite Hlen, (proj2 (N.ltb_ge _ _)) by lia.
  rewrite Hkl, Hvl, (assoc_L (++)), p_take_app by (by rewrite blen_app).
  rewrite take_blen_app, drop_blen_app by (unfold blen; lia). by rewrite Hrec.
Qed.

Lemma recover_loop_ok es rs tail fuel at_ done_ offsets :
  Forall2 is_rec es rs → Forall entry_ok es → follows (e_index <$> list.last done_) es → torn_tail tail →
  (length es < fuel)%nat →
  recover_loop fuel (file_bytes rs ++ tail) at_ (at_ + blen (file_bytes rs ++ tail)) done_ offsets =
    Ok (done_ ++ es, offsets ++ starts at_ rs, at_ + blen (file_bytes rs)).
Proof.
  intros H2. revert fuel at_ done_ offsets.
  induction H2 as [|e r es rs (now & Hn & ->) H2 IH]; intros fuel at_ done_ offsets Hok Hf Ht Hfuel.
  - change (file_bytes []) with (@nil byte). simpl app. rewrite recover_loop_torn by done.
    by rewrite !app_nil_r, blen_nil, N.add_0_r.
  - destruct fuel as [|fuel]; [simpl in Hfuel; lia|]. apply Forall_cons_1 in Hok as [He Hok]. destruct Hf as [Hord Hf].
    rewrite file_bytes_cons, <-(assoc_L (++)), recover_loop_step by (done || rewrite blen_app; lia).
    rewrite blen_app, N.add_assoc, IH; [|done|by rewrite list.last_snoc|done|simpl in Hfuel; lia].
    cbn [starts]. by rewrite blen_app, N.add_assoc, <-!(assoc_L (++)).
Qed.

(** What [recover] finds in a file of entries that may end in part of one more. *)
Lemma recover_ok es rs tail :
  Forall2 is_rec es rs → Forall entry_ok es → follows None es → torn_tail tail →
  recover (file_bytes rs ++ tail) = Ok (es, starts 0 rs, blen (file_bytes rs), file_bytes rs).
Proof.
  intros H2 Hok Hf Ht. unfold recover.
  pose proof (recover_loop_ok es rs tail (S (length (file_bytes rs ++ tail))) 0 [] [] H2 Hok Hf Ht) as E.
  rewrite !N.add_0_l in E. rewrite E.
  - cbn [mbind result_bind]. simpl app. do 2 f_equal. destruct (N.eqb_spec (blen (file_bytes rs)) (blen (file_bytes rs ++ tail))) as [El|El]; simpl.
    + rewrite blen_app in El. rewrite (blen_0 tail) by lia. by rewrite app_nil_r.
    + unfold set_len, blen. rewrite Nat2N.id, take_app_length, length_app.
      replace (_ - _)%nat with 0%nat by lia. by rewrite app_nil_r.
  - rewrite length_app. apply Forall2_length in H2 as ->. clear. induction rs as [|r rs IH]; [simpl; lia|].
    rewrite file_bytes_cons, length_app. pose proof (rec_bytes_len r). unfold blen in *. simpl. lia.
Qed.

(** ** The hard state *)

Definition hs_ok (hs : HardState) : Prop :=
  is_u64 (hs_term hs) ∧ match hs_voted_for hs with Some v => v < NO_VOTE | None => True end.

#[export] Instance hs_ok_dec hs : Decision (hs_ok hs).
Proof. unfold hs_ok, is_u64. destruct (hs_voted_for hs); apply _. Defined.

Lemma read_hard_state_bytes hs : hs_ok hs → read_hard_state (Some (hard_state_bytes hs)) = Ok hs.
Proof.
  intros [Ht Hv]. unfold read_hard_state, hard_state_bytes. cbv zeta.
  set (v := default NO_VOTE (hs_voted_for hs)).
  assert (is_u64 v) as Hvu by (unfold v, is_u64, NO_VOTE, U64_MAX, TWO64 in *; destruct (hs_voted_for hs); simpl; lia).
  set (body := to_le 8 (hs_term hs) ++ to_le 8 v).
  rewrite <-(app_nil_r (to_le 4 _ ++ body)).
  rewrite p_take_app by (unfold body; by autorewrite with blen).
  rewrite slice_here by (by rewrite blen_to_le). rewrite of_le_to_le_u32 by apply crc32_parts_u32.
  rewrite drop_app_length' by (by rewrite length_to_le). rewrite N.eqb_refl. cbn [negb].
  assert (slice 4 12 (to_le 4 (crc32_parts [body]) ++ body) = to_le 8 (hs_term hs)) as ->.
  { rewrite slice_skip by (rewrite blen_to_le; done). rewrite blen_to_le. apply slice_here. by rewrite blen_to_le. }
  assert (slice 12 20 (to_le 4 (crc32_parts [body]) ++ body) = to_le 8 v) as ->.
  { rewrite slice_skip by (rewrite blen_to_le; done). rewrite blen_to_le. apply slice_end; by rewrite ?blen_to_le. }
  rewrite !of_le_to_le_u64 by done. do 2 f_equal. destruct hs as [t [w|]]; unfold v; simpl in *.
  - by rewrite (proj2 (N.eqb_neq _ _)) by (unfold NO_VOTE in *; lia).
  - done.
Qed.

(** ** Snapshots *)

Definition members_ok (members : option (list Member)) : Prop :=
  match members with Some ms => members_wf ms ∧ blen (encode_members ms) < NO_MEMBERS | None => True end.

Definition meta_ok (meta : SnapshotMeta) : Prop := is_u64 (sm_index meta) ∧ is_u64 (sm_term meta).

#[export] Instance members_ok_dec ms : Decision (members_ok ms).
Proof. unfold members_ok. destruct ms; apply _. Defined.
#[export] Instance meta_ok_dec meta : Decision (meta_ok meta).
Proof. unfold meta_ok, is_u64. apply _. Defined.

(** A sink with [data] written to it. *)
Record sink_ok (k : DiskSnapshot) (data : bytes) : Prop := {
  sk_ok_meta : meta_ok (sk_meta k);
  sk_ok_members : members_ok (sk_members k);
  sk_ok_header : sk_header k = snapshot_header (sk_meta k) (sk_members k);
  sk_ok_file : sk_file k = replicate (8 + length (sk_header k)) x00 ++ data;
  sk_ok_crc : sk_crc k = Crc32_update Crc32_new (sk_header k ++ data);
  sk_ok_written : sk_written k = blen data;
}.

Lemma new_snapshot_ok meta members s :
  meta_ok meta → members_ok members →
  ∃ k, (DiskStorage_new_snapshot meta members s).1 = Ok k ∧ sink_ok k [] ∧ sk_meta k = meta ∧ sk_members k = members.
Proof. intros Hm Hms. eexists. split; [done|]. split; [|done]. split; simpl; rewrite ?app_nil_r; done. Qed.

Lemma write_ok k data buf :
  sink_ok k data →
  ∃ k', DiskSnapshot_write buf k = (Ok tt, k') ∧ sink_ok k' (data ++ buf) ∧ sk_meta k' = sk_meta k ∧ sk_members k' = sk_members k.
Proof.
  intros [H1 H2 H3 H4 H5 H6]. eexists. split; [done|]. split; [|done]. split; simpl; try done.
  - by rewrite H4, <-(assoc_L (++)).
  - rewrite H5. unfold Crc32_update. simpl. by rewrite <-update_app, <-(assoc_L (++)).
  - by rewrite H6, blen_app.
Qed.

Lemma finish_bytes k data :
  sink_ok k data →
  DiskSnapshot_finish k = SNAPSHOT_MAGIC ++ to_le 4 (Crc32_finish (sk_crc k)) ++ sk_header k ++ data.
Proof.
  intros [H1 H2 H3 H4 H5 H6]. unfold DiskSnapshot_finish, write_at. simpl N.to_nat. rewrite H4.
  set (front := SNAPSHOT_MAGIC ++ to_le 4 (Crc32_finish (sk_crc k)) ++ sk_header k).
  assert (length front = 8 + length (sk_header k))%nat as Hl.
  { unfold front. rewrite !length_app, length_to_le. done. }
  simpl take. simpl app. rewrite drop_app_length' by (rewrite length_replicate; lia).
  done.
Qed.

Lemma Crc32_finish_u32 c : is_u32 (crc_state c) → is_u32 (Crc32_finish c).
Proof. intros H. by apply lxor_u32. Qed.

Lemma check_snapshot_ok c d expected meta members data_at data :
  Crc32_finish (Crc32_update c data) = expected →
  check_snapshot c expected meta members data_at data = Ok (mkSnapshotHeader meta members data_at d) ↔ d = blen data.
Proof.
  intros E. unfold check_snapshot. rewrite E, N.eqb_refl. cbn [negb]. split; [by intros [= <-]|by intros ->].
Qed.

Definition members_len (members : option (list Member)) : N :=
  match members with Some ms => blen (encode_members ms) | None => NO_MEMBERS end.
Definition members_bytes (members : option (list Member)) : bytes :=
  match members with Some ms => encode_members ms | None => [] end.

Lemma members_len_u32 members : members_ok members → is_u32 (members_len members).
Proof. unfold members_ok, members_len, is_u32, NO_MEMBERS, U32_MAX, TWO32. destruct members; lia. Qed.

Lemma snapshot_header_parts meta members :
  members_ok members →
  snapshot_header meta members =
    to_le 8 (sm_index meta) ++ to_le 8 (sm_term meta) ++ to_le 4 (members_len members) ++ members_bytes members.
Proof.
  intros Hm%members_len_u32. unfold snapshot_header, members_len, members_bytes in *. do 2 f_equal.
  destruct members as [ms|]; [|done]. cbv zeta. by rewrite as_u32_id.
Qed.

(** What was written is what is read, and it is what was checked. *)
Lemma read_snapshot_finish k data :
  sink_ok k data →
  read_snapshot_header (Some (DiskSnapshot_finish k)) =
    Ok (mkSnapshotHeader (sk_meta k) (sk_members k) (8 + blen (sk_header k)) (blen data)).
Proof.
  intros HS. rewrite (finish_bytes k data HS). destruct HS as [[Hi Ht] Hms Hh _ Hc _].
  assert (is_u32 (Crc32_finish (sk_crc k))) as Hcu.
  { apply Crc32_finish_u32. rewrite Hc. apply update_u32. done. }
  set (crc := Crc32_finish (sk_crc k)) in *. unfold read_snapshot_header, read_exact.
  rewrite (p_take_app SNAPSHOT_MAGIC) by done. rewrite bool_decide_true by done.
  pose proof (members_len_u32 _ Hms) as Hmu.
  rewrite (snapshot_header_parts _ _ Hms) in Hh. rewrite Hh in Hc |- *.
  set (mlen := members_len (sk_members k)) in *. set (enc := members_bytes (sk_members k)) in *.
  set (fixed := to_le 4 crc ++ to_le 8 (sm_index (sk_meta k)) ++ to_le 8 (sm_term (sk_meta k)) ++ to_le 4 mlen).
  replace (to_le 4 crc ++ _) with (fixed ++ enc ++ data) by (unfold fixed; by rewrite <-!(assoc_L (++))).
  rewrite p_take_app by (unfold fixed; by autorewrite with blen).
  assert (slice 0 4 fixed = to_le 4 crc) as -> by (apply slice_here; by rewrite blen_to_le).
  assert (slice 4 12 fixed = to_le 8 (sm_index (sk_meta k))) as ->.
  { unfold fixed. rewrite slice_skip by (by rewrite blen_to_le). rewrite blen_to_le. apply slice_here. by rewrite blen_to_le. }
  assert (slice 12 20 fixed = to_le 8 (sm_term (sk_meta k))) as ->.
  { unfold fixed. do 2 (rewrite slice_skip by (by rewrite blen_to_le); rewrite blen_to_le). apply slice_here. by rewrite blen_to_le. }
  assert (slice 20 24 fixed = to_le 4 mlen) as ->.
  { unfold fixed. do 2 (rewrite slice_skip by (by rewrite blen_to_le); rewrite blen_to_le). apply slice_end; by rewrite !blen_to_le. }
  rewrite !of_le_to_le_u64, !of_le_to_le_u32 by done.
  assert (Crc32_finish (Crc32_update Crc32_new (drop 4 fixed ++ enc ++ data)) = crc) as Hcrc.
  { unfold crc. rewrite Hc. unfold fixed. rewrite drop_app_length' by (by rewrite length_to_le).
    by rewrite <-!(assoc_L (++)). }
  assert (mkMeta (sm_index (sk_meta k)) (sm_term (sk_meta k)) = sk_meta k) as -> by (by destruct (sk_meta k)).
  assert (8 + blen (to_le 8 (sm_index (sk_meta k)) ++ to_le 8 (sm_term (sk_meta k)) ++ to_le 4 mlen ++ enc) = 4 + 24 + blen enc) as ->.
  { autorewrite with blen. lia. }
  unfold mlen, enc, members_len, members_bytes, members_ok in *. destruct (sk_members k) as [ms|].
  - destruct Hms as [Hwf Hl]. rewrite (proj2 (N.eqb_neq _ _)) by lia. rewrite p_take_app by done.
    rewrite decode_encode_members by done. apply check_snapshot_ok; [|done].
    unfold Crc32_update in *. cbn [crc_state] in *. by rewrite <-!update_app.
  - rewrite N.eqb_refl. rewrite blen_nil, N.add_0_r. simpl app in *. apply check_snapshot_ok; [|done].
    unfold Crc32_update in *. cbn [crc_state] in *. by rewrite <-!update_app.
Qed.
