(* ===== verification/DiskCrash.v ===== *)
(** * The durable storage against the one in memory, and through crashes

    [disk_mem s] is the storage in memory that holds what [s] holds. Every operation of the
    one on disk does what the one in memory does; and opening what a crash left gives the
    state before the operation, after it, or, for several entries appended at once, with
    the first few of them. *)

From S2P Require Import Prelude.
From S2P Require Import Crc.
From S2P Require Import RecordFormat.
From S2P Require Import RaftLog.
From S2P Require Import DataLog.
From S2P Require Import StoreInv.
From S2P Require Import StoreOpen.
From S2P Require Import StoreCrash.
From S2P Require Import DiskStorage.
From S2P Require Import DiskProof.

#[local] Open Scope N_scope.
#[local] Opaque rec_bytes.

(** ** What the files hold *)

Definition snapshot_data (s : DiskStorage) : bytes :=
  match rd_snapshot (ds_dir s) with
  | None => []
  | Some f => drop (N.to_nat (ds_snapshot_data_at s)) f
  end.

Definition disk_mem (s : DiskStorage) : MemStorage :=
  mkMemStorage (ds_hard_state s) (ds_log s) (snapshot_data s) (ds_snapshot_members s).

Record DInv (s : DiskStorage) : Prop := {
  di_clock : ∀ i, is_u64 (ds_clock s i);
  di_wf : EntryLog_wf (ds_log s);
  di_ok : Forall entry_ok (el_entries (ds_log s));
  di_entries : ∃ rs, Forall2 is_rec (el_entries (ds_log s)) rs ∧ rd_entries (ds_dir s) = Some (file_bytes rs) ∧
    ds_offsets s = starts 0 rs ∧ ds_end s = blen (file_bytes rs);
  di_hard : read_hard_state (rd_hard_state (ds_dir s)) = Ok (ds_hard_state s);
  di_snapshot : read_snapshot_header (rd_snapshot (ds_dir s)) =
    Ok (mkSnapshotHeader (el_base (ds_log s)) (ds_snapshot_members s) (ds_snapshot_data_at s) (ds_snapshot_len s));
}.

Lemma check_snapshot_len crc expected meta members data_at data h :
  check_snapshot crc expected meta members data_at data = Ok h → sh_data_at h = data_at ∧ sh_data_len h = blen data.
Proof. unfold check_snapshot. destruct (negb _); [done|]. by intros [= <-]. Qed.

(** The header says where the data is. *)
Lemma read_snapshot_len f h :
  read_snapshot_header (Some f) = Ok h → sh_data_at h + sh_data_len h = blen f.
Proof.
  unfold read_snapshot_header, read_exact. destruct (p_take 4 f) as [[first r]|] eqn:E1; [|done].
  apply p_take_inv in E1 as [-> E1]. case_bool_decide.
  - destruct (p_take 24 r) as [[fixed r2]|] eqn:E2; [|done]. apply p_take_inv in E2 as [-> E2].
    destruct (_ =? NO_MEMBERS).
    + intros [-> ->]%check_snapshot_len. rewrite !blen_app. lia.
    + destruct (p_take _ r2) as [[enc r3]|] eqn:E3; [|done]. apply p_take_inv in E3 as [-> E3].
      destruct (decode_members enc); [|done]. intros [-> ->]%check_snapshot_len. rewrite !blen_app. lia.
  - destruct (p_take _ r) as [[rest r2]|] eqn:E2; [|done]. apply p_take_inv in E2 as [-> E2].
    intros [-> ->]%check_snapshot_len. rewrite !blen_app. unfold OLD_SNAPSHOT_HEADER_LEN in *. lia.
Qed.

Lemma DInv_snapshot_len s : DInv s → ds_snapshot_len s = blen (snapshot_data s).
Proof.
  intros HD. pose proof (di_snapshot _ HD) as H. unfold snapshot_data. destruct (rd_snapshot (ds_dir s)) as [f|].
  - apply read_snapshot_len in H. simpl in H. unfold blen in *. rewrite length_drop. lia.
  - by injection H as _ _ _ <-.
Qed.

(** Reading a piece of the snapshot. *)
Lemma read_snapshot_same s offset len :
  DInv s → DiskStorage_read_snapshot s offset len = MemStorage_read_snapshot (disk_mem s) offset len.
Proof.
  intros HD. pose proof (DInv_snapshot_len s HD) as Hl. pose proof (di_snapshot _ HD) as Hh.
  unfold DiskStorage_read_snapshot, MemStorage_read_snapshot. simpl. rewrite <-Hl.
  destruct (N.leb_spec (ds_snapshot_len s) offset) as [Hle|Hlt].
  - rewrite !N.min_r by lia. unfold slice. by rewrite N.sub_diag.
  - rewrite (N.min_l offset) by lia. unfold snapshot_data in *. destruct (rd_snapshot (ds_dir s)) as [f|]; cycle 1.
    { rewrite Hl, blen_nil in Hlt. lia. }
    apply read_snapshot_len in Hh. simpl in Hh.
    unfold get_slice. rewrite !bool_decide_true by lia. simpl. f_equal. unfold slice.
    rewrite drop_drop. f_equal; [lia|]. f_equal. lia.
Qed.

Lemma snapshot_reader_same s :
  DInv s → is_Some (rd_snapshot (ds_dir s)) → DiskStorage_snapshot_reader s = Ok (snapshot_data s).
Proof.
  intros HD [f Hf]. pose proof (DInv_snapshot_len s HD) as Hl. unfold DiskStorage_snapshot_reader, snapshot_data in *.
  rewrite Hf in *. rewrite take_ge; [done|]. unfold blen in Hl. lia.
Qed.

(** ** Operations, on any storage *)

Inductive raft_op :=
  | OpSave (state : HardState)
  | OpAppend (entries : list Entry)
  | OpTruncate (index : N)
  | OpSnapshot (meta : SnapshotMeta) (members : option (list Member)) (pieces : list bytes).

Section run_op.
Context {S : Type} `{Storage S}.

(** The pieces of a snapshot, written one after the other. *)
Definition write_pieces (pieces : list bytes) (k : Sink) : result unit * Sink := miter sink_write_all pieces k.

Definition run_op (op : raft_op) : M S unit :=
  match op with
  | OpSave state => save_hard_state state
  | OpAppend entries => append entries
  | OpTruncate index => truncate_from index
  | OpSnapshot meta members pieces =>
      k ← new_snapshot meta members;
      match write_pieces pieces k with
      | (Ok _, k') => install_snapshot k'
      | (Err e, _) => mfail e
      end
  end.
End run_op.

(** What the node asks for: entries that fit the format and follow the log. *)
Definition op_ok (op : raft_op) (log : EntryLog) : Prop :=
  match op with
  | OpSave state => hs_ok state
  | OpAppend entries => Forall entry_ok entries ∧ contiguous (EntryLog_last_index log + 1) entries
  | OpTruncate _ => True
  | OpSnapshot meta members _ => meta_ok meta ∧ members_ok members
  end.

(** ** Each operation *)

Definition simulated (op : raft_op) (s : DiskStorage) : Prop :=
  ∃ s', run_op op s = (Ok tt, s') ∧ DInv s' ∧ run_op op (disk_mem s) = (Ok tt, disk_mem s').

Lemma save_simulated hs s : DInv s → hs_ok hs → simulated (OpSave hs) s.
Proof.
  intros HD Hhs. unfold simulated. cbn [run_op].
  change (save_hard_state hs (disk_mem s)) with (MemStorage_save_hard_state hs (disk_mem s)).
  change (save_hard_state hs s) with (DiskStorage_save_hard_state hs s). unfold DiskStorage_save_hard_state.
  case_bool_decide as E; [exists s; subst hs; exact (conj eq_refl (conj HD eq_refl))|].
  eexists. split_and!; [reflexivity| |reflexivity].
  destruct HD as [H1 H2 H3 H4 H5 H6]. split; try done. by apply read_hard_state_bytes.
Qed.

Lemma write_at_end buf f : write_at (blen f) buf f = f ++ buf.
Proof.
  unfold write_at, blen. rewrite Nat2N.id, firstn_all, Nat.sub_diag, drop_ge by lia. simpl. by rewrite app_nil_r.
Qed.

Lemma append_disk es s :
  DInv s → Forall entry_ok es → contiguous (EntryLog_last_index (ds_log s) + 1) es → es ≠ [] →
  ∃ s' rs, DiskStorage_append es s = (Ok tt, s') ∧ DInv s' ∧ Forall2 is_rec es rs ∧
    encode_all (ds_clock s) (ds_end s) es = Ok (file_bytes rs, starts (ds_end s) rs, ds_end s + blen (file_bytes rs)) ∧
    ds_log s' = push_all (ds_log s) es ∧ disk_mem s' = MemStorage_set_log (λ l, push_all l es) (disk_mem s).
Proof.
  intros [H1 H2 H3 (rs0 & E1 & E2 & E3 & E4) H5 H6] Hok Hc Hne. unfold DiskStorage_append. rewrite bool_decide_false by done.
  destruct (encode_all_ok (ds_clock s) (ds_end s) es Hok H1) as (rs & Hrs & E). rewrite E.
  eexists _, rs. split_and!; try done. fold (push_all (ds_log s) es). split; simpl; try done.
  - by apply push_all_wf.
  - rewrite push_all_entries. by apply Forall_app.
  - exists (rs0 ++ rs). rewrite push_all_entries. unfold entries_file. rewrite E2. simpl.
    rewrite E3, E4, write_at_end, file_bytes_app, starts_app, N.add_0_l, blen_app.
    split_and!; try done. by apply Forall2_app.
  - by rewrite push_all_base.
Qed.

Lemma append_simulated es s :
  DInv s → op_ok (OpAppend es) (ds_log s) → simulated (OpAppend es) s.
Proof.
  intros HD [Hok Hc]. unfold simulated. simpl. rewrite MemStorage_append_eq.
  destruct (decide (es = [])) as [->|Hne].
  - exists s. unfold DiskStorage_append. rewrite bool_decide_true by done. by split_and!.
  - destruct (append_disk es s HD Hok Hc Hne) as (s' & rs & E & HD' & _ & _ & _ & Em). exists s'. by rewrite Em.
Qed.

Lemma set_len_take k rs : set_len (blen (file_bytes (take k rs))) (file_bytes rs) = file_bytes (take k rs).
Proof.
  rewrite <-(take_drop k rs) at 2. rewrite file_bytes_app. unfold set_len, blen.
  rewrite Nat2N.id, take_app_length, length_app. replace (_ - _)%nat with 0%nat by lia. by rewrite app_nil_r.
Qed.

Lemma truncate_simulated i s : DInv s → simulated (OpTruncate i) s.
Proof.
  intros [H1 H2 H3 (rs & E1 & E2 & E3 & E4) H5 H6]. unfold simulated. simpl.
  unfold DiskStorage_truncate_from, MemStorage_truncate_from, mmodify, MemStorage_set_log, EntryLog_truncate_from. cbv zeta.
  set (keep := if i <=? _ then _ else _).
  pose proof (EntryLog_truncate_wf (ds_log s) i H2) as Hwf. unfold EntryLog_truncate_from in Hwf. cbv zeta in Hwf. fold keep in Hwf.
  assert (length (el_entries (ds_log s)) = length rs) as Hlen by (by eapply Forall2_length).
  destruct (ds_offsets s !! keep) as [at_|] eqn:Eo.
  - rewrite E3 in Eo. pose proof (lookup_lt_Some _ _ _ Eo) as Hk. rewrite starts_length in Hk.
    rewrite starts_lookup in Eo by done. injection Eo as <-. rewrite N.add_0_l.
    eexists. split_and!; [done| |done]. split; simpl; try done.
    + by apply Forall_take.
    + exists (take keep rs). unfold entries_file. rewrite E2. simpl. rewrite set_len_take, E3, starts_take.
      split_and!; try done. by apply Forall2_take.
  - apply lookup_ge_None in Eo. rewrite E3, starts_length in Eo.
    assert (take keep (el_entries (ds_log s)) = el_entries (ds_log s)) as Et by (apply take_ge; lia).
    eexists. split_and!; [done| |done]. split; simpl; rewrite ?Et; try done.
    by exists rs.
Qed.

Lemma rewrite_ok s :
  (∀ i, is_u64 (ds_clock s i)) → Forall entry_ok (el_entries (ds_log s)) →
  ∃ rs, Forall2 is_rec (el_entries (ds_log s)) rs ∧
    rewrite_entries s = (Ok tt, ds_tick (length (el_entries (ds_log s)))
      (ds_set_dir (rd_set_entries (file_bytes rs) (ds_dir s)) (ds_set_log (ds_log s) (starts 0 rs) (blen (file_bytes rs)) s))).
Proof.
  intros Hc Hok. destruct (encode_all_ok (ds_clock s) 0 _ Hok Hc) as (rs & Hrs & E). exists rs. split; [done|].
  unfold rewrite_entries. by rewrite E.
Qed.

(** A storage whose entries file is about to be rewritten. *)
Lemma rewrite_inv s :
  (∀ i, is_u64 (ds_clock s i)) → EntryLog_wf (ds_log s) → Forall entry_ok (el_entries (ds_log s)) →
  read_hard_state (rd_hard_state (ds_dir s)) = Ok (ds_hard_state s) →
  read_snapshot_header (rd_snapshot (ds_dir s)) =
    Ok (mkSnapshotHeader (el_base (ds_log s)) (ds_snapshot_members s) (ds_snapshot_data_at s) (ds_snapshot_len s)) →
  ∃ s', rewrite_entries s = (Ok tt, s') ∧ DInv s' ∧ disk_mem s' = disk_mem s.
Proof.
  intros Hc Hwf Hok Hh Hs. destruct (rewrite_ok s Hc Hok) as (rs & Hrs & ->). eexists. split_and!; [done| |done].
  split; simpl; try done. by exists rs.
Qed.

Lemma log_compact_ok l meta : Forall entry_ok (el_entries l) → Forall entry_ok (el_entries (EntryLog_compact l meta).2).
Proof.
  intros H. unfold EntryLog_compact. destruct (_ <=? _); [done|]. simpl. case_bool_decide; [by apply Forall_drop|done].
Qed.

Lemma compact_base l meta :
  sm_index (el_base l) < sm_index meta → el_base (EntryLog_compact l meta).2 = meta.
Proof. intros H. unfold EntryLog_compact. by rewrite (proj2 (N.leb_gt _ _)). Qed.

Lemma finish_data k data :
  sink_ok k data → drop (N.to_nat (8 + blen (sk_header k))) (DiskSnapshot_finish k) = data.
Proof.
  intros HS. rewrite (finish_bytes k data HS), !(assoc_L (++)). apply drop_blen_app.
  rewrite !length_app, length_to_le. unfold blen, SNAPSHOT_MAGIC. simpl. lia.
Qed.

Lemma install_simulated k data s :
  DInv s → sink_ok k data →
  ∃ s', DiskStorage_install_snapshot k s = (Ok tt, s') ∧ DInv s' ∧
    MemStorage_install_snapshot (mkMemSnapshot (sk_meta k) (sk_members k) data) (disk_mem s) = (Ok tt, disk_mem s').
Proof.
  intros HD HS. rewrite MemStorage_install_eq. unfold DiskStorage_install_snapshot. simpl.
  destruct (N.leb_spec (sm_index (sk_meta k)) (sm_index (el_base (ds_log s)))) as [Hle|Hlt].
  - rewrite EntryLog_compact_old by done. eexists. split_and!; [done| |done].
    destruct HD as [H1 H2 H3 H4 H5 H6]. by split.
  - destruct (EntryLog_compact (ds_log s) (sk_meta k)) as [changed log] eqn:Ec.
    assert (changed = true) as -> by (unfold EntryLog_compact in Ec; rewrite (proj2 (N.leb_gt _ _)) in Ec by done; by injection Ec as <- _).
    pose proof (EntryLog_compact_wf _ (sk_meta k) (di_wf _ HD)) as Hwf. rewrite Ec in Hwf.
    pose proof (log_compact_ok _ (sk_meta k) (di_ok _ HD)) as Hok. rewrite Ec in Hok.
    pose proof (compact_base _ (sk_meta k) Hlt) as Hb. rewrite Ec in Hb. simpl in Hwf, Hok, Hb |- *.
    destruct HD as [H1 H2 H3 H4 H5 H6].
    destruct (rewrite_inv (ds_set_log log (ds_offsets s) (ds_end s) (rename_snapshot k s))) as (s' & E & HD' & Em);
      [exact H1|exact Hwf|exact Hok|exact H5| |].
    { etransitivity; [exact (read_snapshot_finish k data HS)|]. simpl. by rewrite Hb, (sk_ok_written _ _ HS). }
    exists s'. split_and!; [exact E|done|]. rewrite Em. unfold disk_mem, snapshot_data. simpl. by rewrite (finish_data k data HS).
Qed.

Lemma write_pieces_ok pieces k data :
  sink_ok k data →
  ∃ k', write_pieces (S := DiskStorage) pieces k = (Ok tt, k') ∧ sink_ok k' (data ++ mjoin pieces) ∧
    sk_meta k' = sk_meta k ∧ sk_members k' = sk_members k.
Proof.
  revert k data. induction pieces as [|p pieces IH]; intros k data HS; simpl.
  - exists k. by rewrite app_nil_r.
  - destruct (write_ok k data p HS) as (k1 & E1 & HS1 & Em1 & Ems1). unfold write_pieces. cbn [miter]. unfold mbind, M_bind.
    change (@sink_write_all _ DiskStorage_Storage p k) with (DiskSnapshot_write p k). rewrite E1.
    destruct (IH k1 (data ++ p) HS1) as (k2 & E2 & HS2 & Em2 & Ems2).
    exists k2. unfold write_pieces in E2. rewrite (assoc_L (++)). split_and!; [done|done|congruence..].
Qed.

Lemma mem_write_pieces pieces meta members data :
  write_pieces (S := MemStorage) pieces (mkMemSnapshot meta members data) =
    (Ok tt, mkMemSnapshot meta members (data ++ mjoin pieces)).
Proof.
  revert data. induction pieces as [|p pieces IH]; intros data; [by rewrite app_nil_r|].
  unfold write_pieces in *. cbn [miter]. unfold mbind, M_bind. simpl. rewrite IH. by rewrite <-(assoc_L (++)).
Qed.

Lemma new_snapshot_inv meta members s :
  DInv s → DInv (DiskStorage_new_snapshot meta members s).2 ∧ disk_mem (DiskStorage_new_snapshot meta members s).2 = disk_mem s.
Proof. intros [H1 H2 H3 H4 H5 H6]. by split. Qed.

Lemma snapshot_simulated meta members pieces s :
  DInv s → meta_ok meta → members_ok members → simulated (OpSnapshot meta members pieces) s.
Proof.
  intros HD Hm Hms. unfold simulated. cbn [run_op]. unfold mbind, M_bind.
  destruct (new_snapshot_ok meta members s Hm Hms) as (k & E & HS & Em & Ems).
  destruct (new_snapshot_inv meta members s HD) as [HD1 Hd1].
  change (new_snapshot meta members s) with (DiskStorage_new_snapshot meta members s).
  destruct (DiskStorage_new_snapshot meta members s) as [r s1]. simpl in E, HD1, Hd1. subst r.
  destruct (write_pieces_ok pieces k [] HS) as (k' & E' & HS' & Em' & Ems'). rewrite E'.
  destruct (install_simulated k' _ s1 HD1 HS') as (s' & Ei & HD' & Emem). exists s'. split_and!; [exact Ei|done|].
  change (new_snapshot meta members (disk_mem s)) with (Ok (mkMemSnapshot meta members []), disk_mem s). cbv iota beta.
  rewrite mem_write_pieces. rewrite Hd1, Em', Ems', Em, Ems in Emem. exact Emem.
Qed.

Lemma op_simulated op s : DInv s → op_ok op (ds_log s) → simulated op s.
Proof.
  intros HD Hop. destruct op as [hs|es|i|meta members pieces].
  - by apply save_simulated.
  - by apply append_simulated.
  - by apply truncate_simulated.
  - destruct Hop. by apply snapshot_simulated.
Qed.

(** ** Opening *)

Lemma contiguous_follows i es : contiguous (i + 1) es → follows (Some i) es.
Proof.
  revert i. induction es as [|e es IH]; intros i Hc; [done|]. simpl.
  assert (e_index e = i + 1) as Ei by (rewrite (Hc 0%nat e eq_refl); lia).
  split; [done|]. apply IH. intros k e' Hk. rewrite (Hc (S k) e' Hk). lia.
Qed.

Lemma follows_none i es : follows (Some i) es → follows None es.
Proof. destruct es as [|e es]; [done|]. simpl. intros [-> H]. split; [lia|done]. Qed.

Lemma head_index i es : contiguous i es → es ≠ [] → e_index <$> head es = Some i.
Proof. destruct es as [|e es]; [done|]. intros Hc _. simpl. rewrite (Hc 0%nat e eq_refl). f_equal. lia. Qed.

(** A directory that holds a hard state, a snapshot and these entries, perhaps with part of
    one more after them. *)
Record raft_files (d : RaftDir) (hs : HardState) (h : SnapshotHeader) (es : list Entry) : Prop := {
  rf_hard : read_hard_state (rd_hard_state d) = Ok hs;
  rf_snapshot : read_snapshot_header (rd_snapshot d) = Ok h;
  rf_ok : Forall entry_ok es;
  rf_entries : ∃ rs tail, Forall2 is_rec es rs ∧ entries_file d = file_bytes rs ++ tail ∧ torn_tail tail;
}.

Definition header_mem (hs : HardState) (h : SnapshotHeader) (d : RaftDir) (log : EntryLog) : MemStorage :=
  mkMemStorage hs log (match rd_snapshot d with None => [] | Some f => drop (N.to_nat (sh_data_at h)) f end) (sh_members h).

(** The log begins where the snapshot ends. *)
Lemma open_fitting c d hs h es :
  (∀ i, is_u64 (c i)) → raft_files d hs h es → contiguous (sm_index (sh_meta h) + 1) es →
  ∃ s, raft_open c d = (Ok s, ds_dir s) ∧ DInv s ∧ disk_mem s = header_mem hs h d (mkEntryLog (sh_meta h) es).
Proof.
  intros Hc [Hh Hs Hok (rs & tail & H2 & Hf & Ht)] Hcont. unfold raft_open. rewrite Hh, Hs. cbv zeta.
  change (entries_file (rd_set_entries (entries_file d) (rd_set_parts ∅ d))) with (entries_file d).
  rewrite Hf, (recover_ok es rs tail) by (try done; by eapply follows_none, contiguous_follows).
  assert ((if decide (es = []) then None else Some (sm_index (sh_meta h) + 1)) = e_index <$> head es) as <-.
  { case_decide as E; [by rewrite E|]. symmetry. by apply head_index. }
  set (s := opened _ _ _ _ _ _ _). exists s. split_and!.
  - case_decide; [done|]. by rewrite N.eqb_refl.
  - split; try done.
    + by exists rs.
    + change (read_snapshot_header (rd_snapshot d) = Ok (mkSnapshotHeader (sh_meta h) (sh_members h) (sh_data_at h) (sh_data_len h))).
      rewrite Hs. by destruct h.
  - done.
Qed.

(** Which term stands in for entries that are gone does not matter to a newer snapshot. *)
Lemma compact_stand_in i t t' es meta :
  i < sm_index meta →
  EntryLog_compact (mkEntryLog (mkMeta i t) es) meta = EntryLog_compact (mkEntryLog (mkMeta i t') es) meta.
Proof.
  intros H. unfold EntryLog_compact, EntryLog_term_at. simpl. rewrite (proj2 (N.leb_gt _ _)) by done.
  rewrite (proj2 (N.eqb_neq _ _)) by lia. done.
Qed.

(** The snapshot covers entries the log still holds: it is cut down on the way. *)
Lemma open_covered c d hs h old es :
  (∀ i, is_u64 (c i)) → raft_files d hs h es → contiguous (sm_index old + 1) es → sm_index old < sm_index (sh_meta h) →
  ∃ s, raft_open c d = (Ok s, ds_dir s) ∧ DInv s ∧
    disk_mem s = header_mem hs h d (EntryLog_compact (mkEntryLog old es) (sh_meta h)).2.
Proof.
  intros Hc HF Hcont Hlt. destruct (decide (es = [])) as [->|Hne].
  { destruct (open_fitting c d hs h [] Hc HF) as (s & E & HD & Em); [done|]. exists s. split_and!; [done..|].
    rewrite Em. f_equal. unfold EntryLog_compact. rewrite (proj2 (N.leb_gt _ _)) by done. simpl.
    case_bool_decide; [by rewrite drop_nil|done]. }
  destruct HF as [Hh Hs Hok (rs & tail & H2 & Hf & Ht)]. unfold raft_open. rewrite Hh, Hs. cbv zeta.
  change (entries_file (rd_set_entries (entries_file d) (rd_set_parts ∅ d))) with (entries_file d).
  rewrite Hf, (recover_ok es rs tail) by (try done; by eapply follows_none, contiguous_follows).
  rewrite (head_index _ es Hcont Hne). rewrite (proj2 (N.eqb_neq _ _)), (proj2 (N.leb_le _ _)) by lia.
  replace (sm_index old + 1 - 1) with (sm_index old) by lia. destruct old as [i t]. simpl sm_index in *.
  rewrite (compact_stand_in i 0 t) by done. set (l := mkEntryLog (mkMeta i t) es) in *.
  assert (EntryLog_wf l) as Hwf by done.
  set (s := opened _ _ _ _ _ _ _). destruct (rewrite_inv s) as (s' & E & HD & Em).
  - done.
  - by apply EntryLog_compact_wf.
  - by apply log_compact_ok.
  - done.
  - change (read_snapshot_header (rd_snapshot d) = Ok (mkSnapshotHeader (el_base (EntryLog_compact l (sh_meta h)).2)
      (sh_members h) (sh_data_at h) (sh_data_len h))).
    rewrite compact_base by done. rewrite Hs. by destruct h.
  - rewrite E. exists s'. split_and!; [done..|]. by rewrite Em.
Qed.

Lemma torn_tail_nil : torn_tail [].
Proof. by left. Qed.

(** What a storage leaves behind, whatever part files are with it. *)
Definition with_parts (ps : gset N) (d : RaftDir) : RaftDir := rd_set_parts ps d.

Lemma DInv_files s ps :
  DInv s → raft_files (with_parts ps (ds_dir s)) (ds_hard_state s)
    (mkSnapshotHeader (el_base (ds_log s)) (ds_snapshot_members s) (ds_snapshot_data_at s) (ds_snapshot_len s))
    (el_entries (ds_log s)).
Proof.
  intros [H1 H2 H3 (rs & E1 & E2 & E3 & E4) H5 H6]. split; try done. exists rs, []. rewrite app_nil_r.
  split_and!; [done| |apply torn_tail_nil]. unfold entries_file. simpl. by rewrite E2.
Qed.

Lemma reopen c s ps :
  (∀ i, is_u64 (c i)) → DInv s →
  ∃ s', raft_open c (with_parts ps (ds_dir s)) = (Ok s', ds_dir s') ∧ DInv s' ∧ disk_mem s' = disk_mem s.
Proof.
  intros Hc HD. destruct (open_fitting c _ _ _ _ Hc (DInv_files s ps HD)) as (s' & E & HD' & Em).
  { apply (di_wf _ HD). }
  exists s'. split_and!; [done..|]. rewrite Em. unfold header_mem, disk_mem, snapshot_data. simpl.
  by destruct (ds_log s).
Qed.

(** What a crash, of the storage in use or of one being opened, leaves behind: files that stand for
    [m], the log beginning where the snapshot ends, or not yet cut down to it. *)
Definition leaves (d : RaftDir) (m : MemStorage) : Prop :=
  ∃ hs h es, raft_files d hs h es ∧
    (contiguous (sm_index (sh_meta h) + 1) es ∧ m = header_mem hs h d (mkEntryLog (sh_meta h) es) ∨
     ∃ old, contiguous (sm_index old + 1) es ∧ sm_index old < sm_index (sh_meta h) ∧
       m = header_mem hs h d (EntryLog_compact (mkEntryLog old es) (sh_meta h)).2).

Lemma leaves_opens c d m :
  (∀ i, is_u64 (c i)) → leaves d m → ∃ s, raft_open c d = (Ok s, ds_dir s) ∧ DInv s ∧ disk_mem s = m.
Proof.
  intros Hc (hs & h & es & HF & [[Hcont ->]|(old & Hcont & Hlt & ->)]); [by apply (open_fitting c d hs h es)|by apply (open_covered c d hs h old es)].
Qed.

Lemma DInv_leaves s ps : DInv s → leaves (with_parts ps (ds_dir s)) (disk_mem s).
Proof.
  intros HD. eexists _, _, _. split; [by apply DInv_files|]. left. split; [apply (di_wf _ HD)|].
  unfold header_mem, disk_mem, snapshot_data. simpl. by destruct (ds_log s).
Qed.

(** The directories a crash in the middle of opening [d] may leave: part files removed or not, the torn
    end of the log cut off or not. What opening rewrites then is replaced in one piece. *)
Inductive opening (d : RaftDir) : RaftDir → Prop :=
  | opening_parts ps : opening d (with_parts ps d)
  | opening_recovered ps es offsets at_ file :
      recover (entries_file d) = Ok (es, offsets, at_, file) → opening d (with_parts ps (rd_set_entries file d)).

(** Any number of crashes while opening change nothing. *)
Lemma opening_leaves d d' m : leaves d m → opening d d' → leaves d' m.
Proof.
  intros (hs & h & es & [F1 F2 F3 (rs & tail & F4 & F5 & F6)] & Hm) Ho. exists hs, h, es. split; [|by destruct Ho].
  destruct Ho as [ps|ps es' offsets at_ file Hr]; (split; [done..|]); [by exists rs, tail|]. exists rs, []. rewrite app_nil_r. split_and!; [done| |by left].
  assert (∃ i, contiguous (i + 1) es) as [i Hc] by (destruct Hm as [[? _]|(? & ? & _)]; eexists; eassumption).
  rewrite F5, (recover_ok es rs tail) in Hr by (try done; by eapply follows_none, contiguous_follows). injection Hr as _ _ _ <-. done.
Qed.

(** ** Crashes *)

(** The directories a crash in the middle of an operation may leave: from before it, from
    after it, with the first so many bytes of an append, or with a snapshot in place over a
    log not yet cut down. *)
Inductive cut (op : raft_op) (s : DiskStorage) : RaftDir → Prop :=
  | cut_before ps : cut op s (with_parts ps (ds_dir s))
  | cut_after s' ps : run_op op s = (Ok tt, s') → cut op s (with_parts ps (ds_dir s'))
  | cut_append es n buf offsets at_ ps :
      op = OpAppend es → encode_all (ds_clock s) (ds_end s) es = Ok (buf, offsets, at_) →
      cut op s (with_parts ps (rd_set_entries (entries_file (ds_dir s) ++ take n buf) (ds_dir s)))
  | cut_snapshot meta members pieces k s1 k' ps :
      op = OpSnapshot meta members pieces → DiskStorage_new_snapshot meta members s = (Ok k, s1) →
      write_pieces (S := DiskStorage) pieces k = (Ok tt, k') →
      sm_index (el_base (ds_log s)) < sm_index meta →
      cut op s (with_parts ps (ds_dir (rename_snapshot k' s1))).

(** What may be there afterwards. *)
Definition outcome (op : raft_op) (m m' : MemStorage) : Prop :=
  m' = m ∨ run_op op m = (Ok tt, m') ∨
  ∃ es n, op = OpAppend es ∧ run_op (OpAppend (take n es)) m = (Ok tt, m').

Lemma contiguous_app_take i l es k :
  contiguous i l → contiguous (i + blen l) es → contiguous i (l ++ take k es).
Proof.
  intros Hl Hes j e. rewrite lookup_app_Some. intros [Hj|[Hlen Hj]]; [by apply Hl|].
  apply lookup_take_Some in Hj as [Hj _]. rewrite (Hes _ _ Hj). unfold blen. lia.
Qed.

Lemma append_cut es s n buf offsets at_ ps :
  DInv s → op_ok (OpAppend es) (ds_log s) →
  encode_all (ds_clock s) (ds_end s) es = Ok (buf, offsets, at_) →
  ∃ k, leaves (with_parts ps (rd_set_entries (entries_file (ds_dir s) ++ take n buf) (ds_dir s)))
    (MemStorage_set_log (λ l, push_all l (take k es)) (disk_mem s)).
Proof.
  intros HD [Hok Hcont] E. pose proof HD as [H1 H2 H3 (rs0 & E1 & E2 & E3 & E4) H5 H6].
  destruct (encode_all_ok (ds_clock s) (ds_end s) es Hok H1) as (rs & Hrs & E').
  rewrite E' in E. injection E as <- _ _.
  destruct (file_cut rs n (is_rec_ok es rs Hok Hrs)) as (rs1 & rs2 & tail & -> & Ht & Htail & _).
  apply Forall2_app_inv_r in Hrs as (es1 & es2 & Hrs1 & _ & ->).
  set (d := with_parts _ _).
  set (h := mkSnapshotHeader (el_base (ds_log s)) (ds_snapshot_members s) (ds_snapshot_data_at s) (ds_snapshot_len s)).
  assert (raft_files d (ds_hard_state s) h (el_entries (ds_log s) ++ es1)) as HF.
  { split; [done|done| |].
    - apply Forall_app in Hok as [Hok _]. by apply Forall_app.
    - exists (rs0 ++ rs1), tail. split_and!; [by apply Forall2_app| |done].
      unfold entries_file, d. simpl. unfold entries_file. rewrite E2, Ht. simpl. by rewrite file_bytes_app, <-(assoc_L (++)). }
  exists (length es1), (ds_hard_state s), h, (el_entries (ds_log s) ++ es1). split; [done|left; split].
  { rewrite EntryLog_last_index_len in Hcont by done.
    rewrite <-(take_app_length es1 es2). apply contiguous_app_take; [done|].
    by replace (sm_index (sh_meta h) + 1 + _) with (sm_index (el_base (ds_log s)) + blen (el_entries (ds_log s)) + 1) by (simpl; lia). }
  rewrite take_app_length.
  unfold header_mem, MemStorage_set_log, disk_mem, snapshot_data. simpl. f_equal.
  rewrite <-(push_all_entries (ds_log s) es1), <-(push_all_base (ds_log s) es1). by destruct (push_all (ds_log s) es1).
Qed.

Lemma snapshot_cut meta members pieces s k s1 k' ps :
  DInv s → meta_ok meta → members_ok members →
  DiskStorage_new_snapshot meta members s = (Ok k, s1) → write_pieces (S := DiskStorage) pieces k = (Ok tt, k') →
  sm_index (el_base (ds_log s)) < sm_index meta →
  ∃ m, leaves (with_parts ps (ds_dir (rename_snapshot k' s1))) m ∧ run_op (OpSnapshot meta members pieces) (disk_mem s) = (Ok tt, m).
Proof.
  intros HD Hm Hms E1 E2 Hlt. destruct (new_snapshot_ok meta members s Hm Hms) as (k0 & Ek & HS & Em & Ems).
  pose proof (new_snapshot_inv meta members s HD) as [HD1 Hmem]. rewrite E1 in Ek, HD1, Hmem. injection Ek as <-. simpl in HD1, Hmem.
  assert (ds_log s1 = ds_log s) as El by exact (f_equal ms_log Hmem).
  destruct (write_pieces_ok pieces k [] HS) as (k2 & E2' & HS2 & Em2 & Ems2). rewrite E2 in E2'. injection E2' as <-.
  set (data := [] ++ mjoin pieces) in *. rewrite Em in Em2. rewrite Ems in Ems2.
  set (h := mkSnapshotHeader meta members (8 + blen (sk_header k')) (blen data)).
  set (d := with_parts _ _).
  assert (raft_files d (ds_hard_state s1) h (el_entries (ds_log s1))) as HF.
  { destruct (DInv_files s1 ps HD1) as [F1 F2 F3 F4]. split; [exact F1| |exact F3|exact F4].
    etransitivity; [exact (read_snapshot_finish k' data HS2)|]. by rewrite Em2, Ems2. }
  set (m := header_mem (ds_hard_state s1) h d (EntryLog_compact (mkEntryLog (el_base (ds_log s1)) (el_entries (ds_log s1))) (sh_meta h)).2).
  exists m. split.
  { exists (ds_hard_state s1), h, (el_entries (ds_log s1)). split; [done|right]. exists (el_base (ds_log s1)). split_and!; [apply (di_wf _ HD1)| |done].
    rewrite El. exact Hlt. }
  cbn [run_op]. unfold mbind, M_bind.
  change (new_snapshot meta members (disk_mem s)) with (Ok (mkMemSnapshot meta members []), disk_mem s). cbv iota beta.
  rewrite mem_write_pieces. fold data.
  change (MemStorage_install_snapshot (mkMemSnapshot meta members data) (disk_mem s) = (Ok tt, m)). unfold m.
  rewrite MemStorage_install_eq, <-Hmem. unfold header_mem. simpl. rewrite (finish_data k' data HS2), El.
  assert (mkEntryLog (el_base (ds_log s)) (el_entries (ds_log s)) = ds_log s) as -> by (by destruct (ds_log s)).
  destruct (EntryLog_compact (ds_log s) meta) as [changed log] eqn:Ec.
  assert (changed = true) as -> by (unfold EntryLog_compact in Ec; rewrite (proj2 (N.leb_gt _ _)) in Ec by done; by injection Ec as <- _).
  done.
Qed.

Lemma cut_leaves op s d :
  DInv s → op_ok op (ds_log s) → cut op s d → ∃ m, leaves d m ∧ outcome op (disk_mem s) m.
Proof.
  intros HD Hop Hcut. unfold outcome.
  destruct Hcut as [ps|s1 ps E|es n buf offsets at_ ps -> E|meta members pieces k s1 k' ps -> E1 E2 Hlt].
  - exists (disk_mem s). split; [by apply DInv_leaves|by left].
  - destruct (op_simulated op s HD Hop) as (s1' & E' & HD1 & Em1). rewrite E in E'. injection E' as <-.
    exists (disk_mem s1). split; [by apply DInv_leaves|auto].
  - destruct (append_cut es s n buf offsets at_ ps HD Hop E) as (k & Hl). eexists. split; [exact Hl|].
    right; right. exists es, k. split; [done|]. cbn [run_op].
    change (append (take k es) (disk_mem s)) with (MemStorage_append (take k es) (disk_mem s)).
    by rewrite MemStorage_append_eq.
  - destruct Hop as [Hm Hms]. destruct (snapshot_cut meta members pieces s k s1 k' ps HD Hm Hms E1 E2 Hlt) as (m & Hl & Em). exists m. auto.
Qed.

(** The storage on disk is the storage in memory. Whatever the node may ask for, saving a
    vote, appending, truncating, writing and installing a snapshot, succeeds and leaves a
    storage that holds exactly what the one in memory then holds; reads of the snapshot
    agree piece by piece; and closing it and opening the directory again, with whatever
    stray part files, gives it all back. *)
Theorem disk_refines_mem (op : raft_op) (s : DiskStorage) (c : nat → N) (ps : gset N) :
  DInv s → op_ok op (ds_log s) → (∀ i, is_u64 (c i)) →
  ∃ s', run_op op s = (Ok tt, s') ∧ DInv s' ∧ run_op op (disk_mem s) = (Ok tt, disk_mem s') ∧
    (∀ offset len, read_snapshot s' offset len = read_snapshot (disk_mem s') offset len) ∧
    ∃ s'', raft_open c (with_parts ps (ds_dir s')) = (Ok s'', ds_dir s'') ∧ DInv s'' ∧ disk_mem s'' = disk_mem s'.
Proof.
  intros HD Hop Hc. destruct (op_simulated op s HD Hop) as (s' & E & HD' & Em). exists s'.
  split_and!; [done..| |by apply reopen]. intros offset len. by apply read_snapshot_same.
Qed.

(** C12: a crash in the middle of an operation is never half an operation. Whatever the moment,
    in the middle of the bytes of an append, between putting a snapshot in place and cutting
    down the log: opening what is left succeeds, and holds what was there before the
    operation, or what is there after it, or, of several entries appended at once, the
    first few. *)
Theorem disk_crash_outcome (c : nat → N) (op : raft_op) (s : DiskStorage) (d : RaftDir) :
  (∀ i, is_u64 (c i)) → DInv s → op_ok op (ds_log s) → cut op s d →
  ∃ s', raft_open c d = (Ok s', ds_dir s') ∧ DInv s' ∧ outcome op (disk_mem s) (disk_mem s').
Proof.
  intros Hc HD Hop Hcut. destruct (cut_leaves op s d HD Hop Hcut) as (m & Hl & Ho). destruct (leaves_opens c d m Hc Hl) as (s' & E & HD' & <-). by exists s'.
Qed.

(** ** Over a whole life *)

(** A storage in use, a directory nobody has open, or one that an operation has failed on or that does
    not open. *)
Inductive DiskLife :=
  | Using (s : DiskStorage)
  | Closed (d : RaftDir)
  | Broken (e : Error).

(** An operation, a crash in the middle of one, opening, or a crash in the middle of that. *)
Inductive disk_step : DiskLife → DiskLife → Prop :=
  | disk_run op s : op_ok op (ds_log s) → disk_step (Using s) (match run_op op s with (Ok _, s') => Using s' | (Err e, _) => Broken e end)
  | disk_crash op s d : op_ok op (ds_log s) → cut op s d → disk_step (Using s) (Closed d)
  | disk_open c d : (∀ i, is_u64 (c i)) → disk_step (Closed d) (match raft_open c d with (Ok s, _) => Using s | (Err e, _) => Broken e end)
  | disk_crash_opening d d' : opening d d' → disk_step (Closed d) (Closed d').

(** The same of the storage in memory, if it could survive: opening it is nothing. *)
Inductive mem_step (m : MemStorage) : MemStorage → Prop :=
  | mem_run op m' : op_ok op (ms_log m) → run_op op m = (Ok tt, m') → mem_step m m'
  | mem_crash op m' : op_ok op (ms_log m) → outcome op m m' → mem_step m m'.

(** What a life has come to, against the storage in memory. *)
Definition holding (x : DiskLife) (m : MemStorage) : Prop :=
  match x with Using s => DInv s ∧ disk_mem s = m | Closed d => leaves d m | Broken _ => False end.

Lemma disk_step_refines x x' m : holding x m → disk_step x x' → ∃ m', holding x' m' ∧ rtc mem_step m m'.
Proof.
  intros Hx Hs. destruct Hs as [op s Hop|op s d Hop Hcut|c d Hc|d d' Ho]; simpl in Hx.
  - destruct Hx as [HD <-]. destruct (op_simulated op s HD Hop) as (s' & E & HD' & Em). rewrite E. exists (disk_mem s').
    split; [done|]. apply rtc_once. by apply (mem_run _ op).
  - destruct Hx as [HD <-]. destruct (cut_leaves op s d HD Hop Hcut) as (m' & Hl & Ho). exists m'. split; [done|]. apply rtc_once. by apply (mem_crash _ op).
  - destruct (leaves_opens c d m Hc Hx) as (s & E & HD & Em). rewrite E. by exists m.
  - exists m. split; [by eapply opening_leaves|done].
Qed.

Lemma disk_steps_refine x x' m : holding x m → rtc disk_step x x' → ∃ m', holding x' m' ∧ rtc mem_step m m'.
Proof.
  intros Hx Hr. revert m Hx. induction Hr as [x|x1 x2 x3 Hst _ IH]; intros m Hx; [by exists m|].
  destruct (disk_step_refines x1 x2 m Hx Hst) as (m1 & Hx1 & H1). destruct (IH m1 Hx1) as (m2 & Hx2 & H2). exists m2. split; [done|]. by etrans.
Qed.

Definition empty_raft_dir : RaftDir := mkRaftDir None None None ∅.

Lemma empty_raft_leaves : leaves empty_raft_dir MemStorage_new.
Proof.
  exists HardState_default, SnapshotHeader_default, []. split; [|by left]. split; [done|done|done|].
  exists [], []. split_and!; [constructor|done|apply torn_tail_nil].
Qed.

Lemma open_empty_raft c :
  (∀ i, is_u64 (c i)) →
  ∃ s, raft_open c empty_raft_dir = (Ok s, ds_dir s) ∧ DInv s ∧ disk_mem s = MemStorage_new.
Proof. intros Hc. by apply leaves_opens, empty_raft_leaves. Qed.

(** C13: over its whole life a storage on disk, started on an empty directory and then opened, used and
    crashed in any order, in the middle of operations and in the middle of opening, holds what a storage
    in memory holds that makes the same moves and survives its crashes. No operation the node may ask
    for fails, and whatever directory a crash has left opens, with exactly that in it. *)
Theorem disk_life_refines (x : DiskLife) :
  rtc disk_step (Closed empty_raft_dir) x →
  ∃ m, rtc mem_step MemStorage_new m ∧
    match x with
    | Using s => DInv s ∧ disk_mem s = m
    | Closed d => ∀ c, (∀ i, is_u64 (c i)) → ∃ s, raft_open c d = (Ok s, ds_dir s) ∧ DInv s ∧ disk_mem s = m
    | Broken _ => False
    end.
Proof.
  intros Hr. destruct (disk_steps_refine (Closed empty_raft_dir) x _ empty_raft_leaves Hr) as (m & Hx & Hm). exists m. split; [done|].
  destruct x as [s|d|e]; [done| |done]. intros c Hc. by apply leaves_opens.
Qed.

(** ** A node's first entries *)

Definition two_entries : list Entry := [mkEntry 1 1 Noop; mkEntry 1 2 (Data (lit "x"))].

Lemma two_entries_ok : op_ok (OpAppend two_entries) EntryLog_default.
Proof. split; [by apply (bool_decide_unpack _); vm_compute|]. by apply (bool_decide_unpack _); vm_compute. Qed.

Definition nines : nat → N := λ _, 9.

Lemma disk_refines_mem_witness :
  ∃ s s', DInv s ∧ disk_mem s = MemStorage_new ∧ run_op (OpAppend two_entries) s = (Ok tt, s') ∧
    run_op (OpAppend two_entries) MemStorage_new = (Ok tt, disk_mem s').
Proof.
  destruct (open_empty_raft nines ltac:(done)) as (s & _ & HD & Em).
  assert (op_ok (OpAppend two_entries) (ds_log s)) as Hop.
  { assert (ds_log s = EntryLog_default) as -> by exact (f_equal ms_log Em). apply two_entries_ok. }
  destruct (disk_refines_mem (OpAppend two_entries) s nines ∅ HD Hop ltac:(done)) as (s' & E & _ & E' & _).
  rewrite Em in E'. exact (ex_intro _ s (ex_intro _ s' (conj HD (conj Em (conj E E'))))).
Defined.

(** The power goes after 40 bytes, in the second entry. *)
Lemma disk_crash_outcome_witness :
  ∃ s d s', DInv s ∧ cut (OpAppend two_entries) s d ∧ raft_open nines d = (Ok s', ds_dir s') ∧
    outcome (OpAppend two_entries) MemStorage_new (disk_mem s').
Proof.
  destruct (open_empty_raft nines ltac:(done)) as (s & _ & HD & Em).
  assert (ds_log s = EntryLog_default) as El by exact (f_equal ms_log Em).
  assert (op_ok (OpAppend two_entries) (ds_log s)) as Hop by (rewrite El; apply two_entries_ok).
  destruct (encode_all_ok (ds_clock s) (ds_end s) two_entries (proj1 Hop) (di_clock _ HD)) as (rs & _ & E).
  pose proof (cut_append (OpAppend two_entries) s two_entries 40 _ _ _ ∅ eq_refl E) as Hcut.
  destruct (disk_crash_outcome nines _ s _ ltac:(done) HD Hop Hcut) as (s' & Eo & _ & Ho).
  rewrite Em in Ho. exact (ex_intro _ s (ex_intro _ _ (ex_intro _ s' (conj HD (conj Hcut (conj Eo Ho)))))).
Defined.

(** Opened; the power goes in the second of two entries; opened again. *)
Definition torn_append (s : DiskStorage) : option RaftDir :=
  match encode_all (ds_clock s) (ds_end s) two_entries with
  | Ok (buf, _, _) => Some (with_parts ∅ (rd_set_entries (entries_file (ds_dir s) ++ take 40 buf) (ds_dir s)))
  | Err _ => None
  end.

Lemma torn_append_cut s d : torn_append s = Some d → cut (OpAppend two_entries) s d.
Proof. unfold torn_append. destruct (encode_all _ _ _) as [[[buf offsets] at_]|e] eqn:E; [|done]. intros [= <-]. by eapply cut_append. Qed.

Lemma disk_life_refines_witness :
  ∃ s d s' m, disk_step (Closed empty_raft_dir) (Using s) ∧ disk_step (Using s) (Closed d) ∧ rtc mem_step MemStorage_new m ∧
    raft_open nines d = (Ok s', ds_dir s') ∧ disk_mem s' = m ∧ el_entries (ms_log m) = [mkEntry 1 1 Noop].
Proof.
  assert (match (raft_open nines empty_raft_dir).1 with
          | Ok s => torn_append s ≫= λ d, match (raft_open nines d).1 with Ok s' => Some (el_entries (ds_log s')) | Err _ => None end
          | Err _ => None
          end = Some [mkEntry 1 1 Noop]) as Hrun by (vm_compute; reflexivity).
  destruct (open_empty_raft nines ltac:(done)) as (s & E & HD & Em). rewrite E in Hrun. cbn [fst] in Hrun.
  destruct (torn_append s) as [d|] eqn:Et; [|discriminate Hrun]. cbn [mbind option_bind] in Hrun.
  assert (op_ok (OpAppend two_entries) (ds_log s)) as Hop.
  { assert (ds_log s = EntryLog_default) as -> by exact (f_equal ms_log Em). apply two_entries_ok. }
  pose proof (disk_open nines empty_raft_dir ltac:(done)) as H1. rewrite E in H1.
  pose proof (disk_crash _ s d Hop (torn_append_cut s d Et)) as H2.
  destruct (disk_life_refines (Closed d) (rtc_l _ _ _ _ H1 (rtc_once _ _ H2))) as (m & Hm & Ho).
  destruct (Ho nines ltac:(done)) as (s' & E' & _ & Em'). rewrite E' in Hrun. cbn [fst] in Hrun. apply (inj Some) in Hrun.
  change (ds_log s') with (ms_log (disk_mem s')) in Hrun. rewrite Em' in Hrun.
  exists s, d, s', m. exact (conj H1 (conj H2 (conj Hm (conj E' (conj Em' Hrun))))).
Defined.
