(* ===== verification/Replicated.v ===== *)
(** * The store, driven by consensus (src/replicated.rs)

    The commands that travel through the log, snapshots of the store as streams of records,
    and [ReplicatedStore]: a node and the store it drives, with applying, restoring, and the
    jobs that run beside it. *)

From S2P Require Import Prelude.
From S2P Require Import Crc.
From S2P Require Import RecordFormat.
From S2P Require Import RaftLog.
From S2P Require Import Message.
From S2P Require Import NodeState.
From S2P Require Import Node.
From S2P Require Import DataLog.
From S2P Require Import Store.

#[local] Open Scope N_scope.

Definition DEFAULT_SNAPSHOT_EVERY : N := 10000.

(** ** Commands *)

Inductive Op :=
  | OpPut (key value : bytes)
  | OpDelete (key : bytes).

#[export] Instance Op_eq_decision : EqDecision Op.
Proof. solve_decision. Defined.

Definition Op_encode (now : N) (op : Op) : result bytes :=
  match op with
  | OpPut key value => record_encode key (Some value) now
  | OpDelete key => record_encode key None now
  end.

Definition corrupt_command (detail : string) : Error := Corrupt 0 0 detail.

Definition Op_decode (bs : bytes) : result Op :=
  if blen bs <? N.of_nat HEADER_LEN then Err (corrupt_command "replicated command is shorter than a header")
  else
    let header := header_decode (take HEADER_LEN bs) in
    if negb (record_len header =? blen bs)
    then Err (corrupt_command "replicated command length does not match its header")
    else
      let key_end := N.of_nat HEADER_LEN + hdr_key_len header in
      let key := slice (N.of_nat HEADER_LEN) key_end bs in
      let value := drop (N.to_nat key_end) bs in
      if negb (verify header key value)
      then Err (corrupt_command "checksum mismatch on a replicated command")
      else Ok (if is_tombstone header then OpDelete key else OpPut key value).

(** ** Snapshots *)

(** Timestamps are 0, so that the bytes depend on the contents alone. *)
Definition write_snapshot `{Storage St} (view : StoreView) : M Sink unit :=
  view_for_each view (λ key value, mlift (record_encode key (Some value) 0) ≫= sink_write_all).

Record SnapshotRecords := mkSnapshotRecords {
  sr_reader : bytes;
  sr_offset : N;
  sr_previous : option bytes;
}.

Definition SnapshotRecords_new (reader : bytes) : SnapshotRecords := mkSnapshotRecords reader 0 None.

(** As much as the stream allows, and the rest of it. *)
Definition stream_read_full (n : N) (reader : bytes) : bytes * bytes :=
  (take (N.to_nat n) reader, drop (N.to_nat n) reader).

(** [next_record]: [None] at a clean end. A reader that has failed is not read again. *)
Definition snapshot_next (r : SnapshotRecords) : result (option (bytes * bytes) * SnapshotRecords) :=
  let corrupt detail := Err (Corrupt 0 (sr_offset r) detail) in
  let '(header, reader) := stream_read_full (N.of_nat HEADER_LEN) (sr_reader r) in
  if blen header =? 0 then Ok (None, mkSnapshotRecords reader (sr_offset r) (sr_previous r))
  else if negb (blen header =? N.of_nat HEADER_LEN) then corrupt "snapshot ends inside a record header"
  else
    let header := header_decode header in
    let '(key, reader) := stream_read_full (hdr_key_len header) reader in
    let '(value, reader) := stream_read_full (hdr_value_len header) reader in
    if (blen key <? hdr_key_len header) || (blen value <? hdr_value_len header)
    then corrupt "snapshot ends inside a record"
    else if negb (verify header key value) then corrupt "checksum mismatch in a snapshot record"
    else if is_tombstone header then corrupt "a snapshot holds live keys, never deletions"
    else if match sr_previous r with Some p => bytes_leb key p | None => false end
    then corrupt "snapshot keys are not in order"
    else Ok (Some (key, value), mkSnapshotRecords reader (sr_offset r + record_len header) (Some key)).

(** ** The applied index *)

Definition read_applied (file : option bytes) : N :=
  match file with
  | None => 0
  | Some bs =>
      if negb (blen bs =? 12) then 0
      else if negb (crc32_parts [drop 4 bs] =? of_le (slice 0 4 bs)) then 0
      else of_le (slice 4 12 bs)
  end.

Definition applied_bytes (index : N) : bytes :=
  let body := to_le 8 index in to_le 4 (crc32_parts [body]) ++ body.

(** ** The replica *)

Section Replicated.
Context {St : Type} `{Storage St}.

(** [rp_applied_file] is the applied index's file, beside the store's data; [rp_clock] the
    clock, reading by reading. *)
Record ReplicatedStore := mkReplicated {
  rp_node : Node St;
  rp_store : Store;
  rp_applied : N;
  rp_snapshot_every : N;
  rp_background : bool;
  rp_snapshotting : bool;
  rp_compaction_due : bool;
  rp_restoring : bool;
  rp_applied_file : option bytes;
  rp_clock : nat → N;
}.

Definition rp_set_node (x : Node St) (r : ReplicatedStore) : ReplicatedStore :=
  mkReplicated x (rp_store r) (rp_applied r) (rp_snapshot_every r) (rp_background r) (rp_snapshotting r)
    (rp_compaction_due r) (rp_restoring r) (rp_applied_file r) (rp_clock r).
Definition rp_set_store (x : Store) (r : ReplicatedStore) : ReplicatedStore :=
  mkReplicated (rp_node r) x (rp_applied r) (rp_snapshot_every r) (rp_background r) (rp_snapshotting r)
    (rp_compaction_due r) (rp_restoring r) (rp_applied_file r) (rp_clock r).
Definition rp_set_applied (x : N) (r : ReplicatedStore) : ReplicatedStore :=
  mkReplicated (rp_node r) (rp_store r) x (rp_snapshot_every r) (rp_background r) (rp_snapshotting r)
    (rp_compaction_due r) (rp_restoring r) (rp_applied_file r) (rp_clock r).
Definition rp_set_snapshotting (x : bool) (r : ReplicatedStore) : ReplicatedStore :=
  mkReplicated (rp_node r) (rp_store r) (rp_applied r) (rp_snapshot_every r) (rp_background r) x
    (rp_compaction_due r) (rp_restoring r) (rp_applied_file r) (rp_clock r).
Definition rp_set_compaction_due (x : bool) (r : ReplicatedStore) : ReplicatedStore :=
  mkReplicated (rp_node r) (rp_store r) (rp_applied r) (rp_snapshot_every r) (rp_background r)
    (rp_snapshotting r) x (rp_restoring r) (rp_applied_file r) (rp_clock r).
Definition rp_set_restoring (x : bool) (r : ReplicatedStore) : ReplicatedStore :=
  mkReplicated (rp_node r) (rp_store r) (rp_applied r) (rp_snapshot_every r) (rp_background r)
    (rp_snapshotting r) (rp_compaction_due r) x (rp_applied_file r) (rp_clock r).
Definition rp_set_applied_file (x : bytes) (r : ReplicatedStore) : ReplicatedStore :=
  mkReplicated (rp_node r) (rp_store r) (rp_applied r) (rp_snapshot_every r) (rp_background r)
    (rp_snapshotting r) (rp_compaction_due r) (rp_restoring r) (Some x) (rp_clock r).
Definition rp_tick (n : nat) (r : ReplicatedStore) : ReplicatedStore :=
  mkReplicated (rp_node r) (rp_store r) (rp_applied r) (rp_snapshot_every r) (rp_background r)
    (rp_snapshotting r) (rp_compaction_due r) (rp_restoring r) (rp_applied_file r) (λ i, rp_clock r (n + i)%nat).

Definition set_snapshot_every (entries : N) (r : ReplicatedStore) : ReplicatedStore :=
  mkReplicated (rp_node r) (rp_store r) (rp_applied r) entries (rp_background r) (rp_snapshotting r)
    (rp_compaction_due r) (rp_restoring r) (rp_applied_file r) (rp_clock r).
Definition set_background_snapshots (background : bool) (r : ReplicatedStore) : ReplicatedStore :=
  mkReplicated (rp_node r) (rp_store r) (rp_applied r) (rp_snapshot_every r) background (rp_snapshotting r)
    (rp_compaction_due r) (rp_restoring r) (rp_applied_file r) (rp_clock r).

Definition snapshot_index (r : ReplicatedStore) : N := sm_index (snapshot_meta (n_storage (rp_node r))).

(** The node's operations, and the store's, on the replica. *)
Definition on_node {A} (m : M (Node St) A) : M ReplicatedStore A := λ r,
  let '(x, n) := m (rp_node r) in (x, rp_set_node n r).
Definition on_store {A} (m : M Store A) : M ReplicatedStore A := λ r,
  let '(x, s) := m (rp_store r) in (x, rp_set_store s r).

Definition replica_put (key value : bytes) : M ReplicatedStore unit := λ r,
  on_store (put_deferred key value (rp_clock r 0%nat) (rp_clock r 1%nat)) (rp_tick 2 r).
Definition replica_delete (key : bytes) : M ReplicatedStore bool := λ r,
  on_store (delete_deferred key (rp_clock r 0%nat) (rp_clock r 1%nat)) (rp_tick 2 r).
Definition replica_sync : M ReplicatedStore unit := on_store (mmodify store_sync).

(** [write_applied]: renamed into place. *)
Definition write_applied (index : N) : M ReplicatedStore unit := mmodify (rp_set_applied_file (applied_bytes index)).

(** ** Snapshots of the store *)

Definition snapshot_due (r : ReplicatedStore) : bool :=
  negb (rp_snapshot_every r =? 0) && negb (rp_snapshotting r) &&
  (snapshot_index r + rp_snapshot_every r <=? rp_applied r).

Record SnapshotJob := mkSnapshotJob { sj_view : StoreView; sj_sink : Sink }.

Definition start_snapshot : M ReplicatedStore (option SnapshotJob) :=
  r ← mget;
  if negb (snapshot_due r) then mret None
  else
    sink ← on_node (begin_compaction (rp_applied r));
    match sink with
    | None => mret None
    | Some sink =>
        view ← on_store (λ s, let '(v, s) := store_view s in (Ok v, s));
        mmodify (rp_set_snapshotting true) ;;
        mret (Some (mkSnapshotJob view sink))
    end.

(** [SnapshotJob::run]: the view written into the sink; on an error the sink is dropped. *)
Definition SnapshotJob_run (job : SnapshotJob) : result Sink :=
  match write_snapshot (sj_view job) (sj_sink job) with
  | (Ok _, sink) => Ok sink
  | (Err e, _) => Err e
  end.

(** More than half of the bytes dead: the quotient of floats against 0.5, exact below
    2^53 bytes. *)
Definition fragmented (s : Stats) : bool :=
  negb (st_disk_bytes s =? 0) && (st_disk_bytes s <? 2 * reclaimable_bytes s).

(** [old_ids] is the order in which the store's map of files is walked. *)
Definition finish_snapshot (old_ids : Store → list N) (sink : Sink) : M ReplicatedStore unit :=
  mmodify (rp_set_snapshotting false) ;;
  installed ← on_node (finish_compaction sink);
  r ← mget;
  mwhen (installed && fragmented (store_stats (rp_store r)))
    (if rp_background r then mmodify (rp_set_compaction_due true)
     else on_store (λ s, compact (old_ids s) s) ≫= λ _, mret tt).

Definition abandon_snapshot (r : ReplicatedStore) : ReplicatedStore := rp_set_snapshotting false r.

(** ** Restoring from a leader's snapshot *)

(** [keys], sorted: byte by byte. *)
Definition sorted_keys (s : Store) : list bytes := merge_sort bytes_le (store_keys s).

(** The keys held that sort before the snapshot's next one are not in it. *)
Fixpoint drop_stale (key : bytes) (held : list bytes) : M ReplicatedStore (list bytes) :=
  match held with
  | stale :: held' =>
      if bytes_leb key stale then mret held else replica_delete stale ≫= λ _, drop_stale key held'
  | [] => mret []
  end.

Definition restore_record (held : list bytes) (key value : bytes) : M ReplicatedStore (list bytes) :=
  held ← drop_stale key held;
  let held := match held with k :: held' => if bool_decide (k = key) then held' else held | [] => [] end in
  r ← mget;
  old ← mlift (store_get (rp_store r) key);
  mwhen (negb (bool_decide (old = Some value))) (replica_put key value) ;;
  mret held.

(** The walk; every record takes up at least a header of what is left to read. *)
Fixpoint restore_loop (fuel : nat) (records : SnapshotRecords) (held : list bytes) : M ReplicatedStore (list bytes) :=
  match fuel with
  | O => mret held
  | S fuel =>
      '(next, records) ← mlift (snapshot_next records);
      match next with
      | None => mret held
      | Some (key, value) => held ← restore_record held key value; restore_loop fuel records held
      end
  end.

(** Everything of [restore] before the sync. *)
Definition restore_walk (fuel : nat) : M ReplicatedStore unit :=
  r ← mget;
  data ← mlift (snapshot_reader (n_storage (rp_node r)));
  held ← restore_loop fuel (SnapshotRecords_new data) (sorted_keys (rp_store r));
  miter (λ k, replica_delete k ≫= λ _, mret tt) held.

Definition restore_fuel (r : ReplicatedStore) : nat :=
  match snapshot_reader (n_storage (rp_node r)) with Ok data => S (length data) | Err _ => 1%nat end.

Definition replica_restore : M ReplicatedStore unit :=
  r ← mget;
  let index := snapshot_index r in
  restore_walk (restore_fuel r) ;;
  replica_sync ;;
  mmodify (rp_set_applied index) ;;
  write_applied index.

(** ** Applying *)

Definition apply_op (op : Op) : M ReplicatedStore unit :=
  match op with
  | OpPut key value => replica_put key value
  | OpDelete key => replica_delete key ≫= λ _, mret tt
  end.

(** Membership is consensus business, not the store's. *)
Definition apply_command (c : Command) : M ReplicatedStore unit :=
  match c with
  | Noop | Config _ => mret tt
  | Data bs => mlift (Op_decode bs) ≫= apply_op
  end.

Definition apply_entry (e : Entry) : M ReplicatedStore unit :=
  r ← mget;
  if e_index e <=? rp_applied r then mret tt
  else apply_command (e_command e) ;; mmodify (rp_set_applied (e_index e)).

(** The entries, then the sync, and only then the claim. *)
Definition apply_committed : M ReplicatedStore unit :=
  r ← mget;
  let before := rp_applied r in
  es ← on_node (λ n, let '(es, n) := take_committed n in (Ok es, n));
  miter apply_entry es ;;
  r ← mget;
  mwhen (before <? rp_applied r) (replica_sync ;; write_applied (rp_applied r)).

Definition snapshot_inline (old_ids : Store → list N) : M ReplicatedStore unit :=
  job ← start_snapshot;
  match job with
  | None => mret tt
  | Some job => mlift (SnapshotJob_run job) ≫= finish_snapshot old_ids
  end.

Definition replica_apply (old_ids : Store → list N) : M ReplicatedStore unit :=
  r ← mget;
  if (rp_applied r <? snapshot_index r) && rp_background r then mret tt
  else
    mwhen (rp_applied r <? snapshot_index r) replica_restore ;;
    apply_committed ;;
    mwhen (negb (rp_background r)) (snapshot_inline old_ids).

Definition replica_new (node : Node St) (store : Store) (applied_file : option bytes) (clock : nat → N)
    : result unit * ReplicatedStore :=
  let r := mkReplicated node store (read_applied applied_file) DEFAULT_SNAPSHOT_EVERY false false false false
             applied_file clock in
  mwhen (rp_applied r <? snapshot_index r) replica_restore r.

(** ** Compaction of the store, in the background *)

Definition start_compaction (old_ids : Store → list N) : M ReplicatedStore (option CompactionJob) :=
  r ← mget;
  if negb (rp_compaction_due r) then mret None
  else
    mmodify (rp_set_compaction_due false) ;;
    job ← on_store (λ s, store_begin_compaction (old_ids s) s);
    mret (Some job).

Definition replica_finish_compaction (merged : MergedFile) : M ReplicatedStore unit :=
  on_store (mmodify (λ s, (store_finish_compaction merged s).2)).

Definition replica_abandon_compaction : M ReplicatedStore unit := on_store (mmodify abandon_compaction).

(** ** Restores in the background *)

Record ReplicaRestoreJob := mkReplicaRestoreJob { rrj_job : RestoreJob; rrj_reader : bytes; rrj_index : N }.
Record RestoredStore := mkRestoredStore { rst_file : RestoredFile; rst_index : N }.

Definition start_restore (old_ids : Store → list N) : M ReplicatedStore (option ReplicaRestoreJob) :=
  r ← mget;
  if negb (rp_background r) || rp_restoring r || (snapshot_index r <=? rp_applied r) then mret None
  else
    reader ← mlift (snapshot_reader (n_storage (rp_node r)));
    job ← on_store (λ s, match begin_restore (old_ids s) s with (Ok j, s) => (Ok (Some j), s) | (Err _, s) => (Ok None, s) end);
    match job with
    | None => mret None
    | Some job =>
        mmodify (rp_set_restoring true) ;;
        mret (Some (mkReplicaRestoreJob job reader (snapshot_index r)))
    end.

Fixpoint restore_pushes (fuel : nat) (records : SnapshotRecords) : M RestoreJob unit :=
  match fuel with
  | O => mret tt
  | S fuel =>
      '(next, records) ← mlift (snapshot_next records);
      match next with
      | None => mret tt
      | Some (key, value) => restore_push key value ;; restore_pushes fuel records
      end
  end.

(** [RestoreJob::run], on the store's directory; a job that fails takes its file with it. *)
Definition RestoreJob_run (job : ReplicaRestoreJob) : M Dir RestoredStore := λ d,
  match restore_pushes (S (length (rrj_reader job))) (SnapshotRecords_new (rrj_reader job)) (rrj_job job) with
  | (Err e, j) => (Err e, restore_drop j d)
  | (Ok _, j) => let '(file, d) := restore_finish j d in (Ok (mkRestoredStore file (rrj_index job)), d)
  end.

Definition replica_finish_restore (old_ids : Store → list N) (done_ : RestoredStore) : M ReplicatedStore unit :=
  mmodify (rp_set_restoring false) ;;
  on_store (mmodify (finish_restore (rst_file done_))) ;;
  replica_sync ;;
  mmodify (rp_set_applied (rst_index done_)) ;;
  write_applied (rst_index done_) ;;
  replica_apply old_ids.

Definition replica_abandon_restore (r : ReplicatedStore) : ReplicatedStore :=
  rp_set_store (abandon_restore (rp_store r)) (rp_set_restoring false r).

(** ** The node's operations *)

Definition replica_tick (old_ids : Store → list N) : M ReplicatedStore (list Action) :=
  actions ← on_node node_tick;
  replica_apply old_ids ;;
  mret actions.

Definition is_install_snapshot (m : Message) : bool :=
  match m with InstallSnapshot _ _ _ _ _ _ _ _ => true | _ => false end.

Definition replica_step (old_ids : Store → list N) (from : NodeId) (message : Message) : M ReplicatedStore (list Action) :=
  r ← mget;
  if rp_restoring r && is_install_snapshot message then mret []
  else
    actions ← on_node (node_step from message);
    replica_apply old_ids ;;
    mret actions.

Definition replica_propose (op : Op) (r : ReplicatedStore) : (N * list Action + ProposeError) * ReplicatedStore :=
  match Op_encode (rp_clock r 0%nat) op with
  | Err e => (inr (StorageError e), rp_tick 1 r)
  | Ok bs => let '(x, n) := propose bs (rp_node r) in (x, rp_set_node n (rp_tick 1 r))
  end.

Definition propose_put (key value : bytes) := replica_propose (OpPut key value).
Definition propose_delete (key : bytes) := replica_propose (OpDelete key).

Definition replica_propose_batch (commands : list bytes) (r : ReplicatedStore) :=
  let '(x, n) := propose_batch commands (rp_node r) in (x, rp_set_node n r).

Definition replica_propose_membership (members : list Member) (r : ReplicatedStore) :=
  let '(x, n) := propose_membership members (rp_node r) in (x, rp_set_node n r).

Definition replica_campaign : M ReplicatedStore (list Action) := on_node campaign.

Definition replica_read_index (r : ReplicatedStore) : ReadKind * list Action * ReplicatedStore :=
  let '(x, n) := read_index (rp_node r) in (x, rp_set_node n r).

Definition replica_forget_read (request : ReadKind) (r : ReplicatedStore) : ReplicatedStore :=
  rp_set_node (forget_read request (rp_node r)) r.

(** A confirmed read waits until the store has applied as far as it has to see. *)
Definition replica_read_state (r : ReplicatedStore) (request : ReadKind) : ReadState :=
  match read_state (rp_node r) request with
  | RReady index => if rp_applied r <? index then RPending else RReady index
  | other => other
  end.
End Replicated.

Arguments ReplicatedStore St {_}.
