(* ===== verification/ReplicaSnapshot.v ===== *)
(** * Snapshots of a store

    What a snapshot of a store holds, as a function of the map the store means; that writing
    one out of a view gives it, and reading it back gives the map's pairs in order; and what
    the two implementations of [Storage] promise about a snapshot's data. *)

From S2P Require Import Prelude.
From S2P Require Import Crc.
From S2P Require Import RecordFormat.
From S2P Require Import RaftLog.
From S2P Require Import DataLog.
From S2P Require Import Store.
From S2P Require Import StoreIndex.
From S2P Require Import StoreInv.
From S2P Require Import StoreOps.
From S2P Require Import StoreMap.
From S2P Require Import KeyOrder.
From S2P Require Import StoreCompact.
From S2P Require Import StoreRestore.
From S2P Require Import DiskStorage.
From S2P Require Import DiskProof.
From S2P Require Import Replicated.

#[local] Open Scope N_scope.
#[local] Opaque rec_bytes.

(** ** What a snapshot holds *)

Definition key_list (m : gmap bytes bytes) : list bytes := merge_sort bytes_le (map_keys m).
Definition snapshot_pairs (m : gmap bytes bytes) : list (bytes * bytes) :=
  (λ k, (k, default [] (m !! k))) <$> key_list m.
Definition snapshot_bytes (m : gmap bytes bytes) : bytes := file_bytes (restored_recs (snapshot_pairs m)).

(** Every key and value makes a record the store takes. *)
Definition map_ok (m : gmap bytes bytes) : Prop := map_Forall (λ k v, k ≠ [] ∧ fits k v) m.

Lemma key_list_NoDup m : NoDup (key_list m).
Proof. unfold key_list. rewrite merge_sort_Permutation. apply NoDup_fst_map_to_list. Qed.

Lemma elem_of_key_list m k : k ∈ key_list m ↔ is_Some (m !! k).
Proof.
  unfold key_list, map_keys. rewrite merge_sort_Permutation, list_elem_of_fmap. split.
  - intros ([k' v] & -> & Hin%elem_of_map_to_list). by eexists.
  - intros [v Hv]. exists (k, v). split; [done|]. by apply elem_of_map_to_list.
Qed.

Lemma snapshot_pairs_keys m : (snapshot_pairs m).*1 = key_list m.
Proof. unfold snapshot_pairs. rewrite <-list_fmap_compose. by apply list_fmap_id. Qed.

Lemma elem_of_snapshot_pairs m k v : (k, v) ∈ snapshot_pairs m ↔ m !! k = Some v.
Proof.
  unfold snapshot_pairs. rewrite list_elem_of_fmap. split.
  - intros (k' & [= -> ->] & [v' Hv]%elem_of_key_list). by rewrite Hv.
  - intros Hk. exists k. rewrite Hk. split; [done|]. apply elem_of_key_list. by eexists.
Qed.

Lemma snapshot_pairs_map m : list_to_map (snapshot_pairs m) = m.
Proof.
  apply map_eq. intros k. destruct (m !! k) as [v|] eqn:E.
  - apply elem_of_list_to_map_1; [rewrite snapshot_pairs_keys; apply key_list_NoDup|].
    by apply elem_of_snapshot_pairs.
  - apply not_elem_of_list_to_map_1. rewrite snapshot_pairs_keys, elem_of_key_list, E. by intros [? ?].
Qed.

Lemma snapshot_pairs_ok m : map_ok m → Forall (λ x, x.1 ≠ [] ∧ fits x.1 x.2) (snapshot_pairs m).
Proof. intros Hm. apply list.Forall_forall. intros [k v] Hin%elem_of_snapshot_pairs. by apply Hm. Qed.

(** The keys of a sorted list ascend strictly. *)
Definition bytes_lt (a c : bytes) : Prop := bytes_leb c a = false.

Lemma bytes_lt_le a c : bytes_lt a c → bytes_leb a c = true.
Proof. unfold bytes_lt. intros E. destruct (bytes_leb_total a c) as [|E']; [done|congruence]. Qed.

Lemma bytes_lt_ne a c : bytes_le a c → a ≠ c → bytes_lt a c.
Proof.
  unfold bytes_lt, bytes_le. intros Hle Hne. destruct (bytes_leb c a) eqn:E; [|done].
  by pose proof (bytes_leb_antisymm a c Hle E).
Qed.

Lemma bytes_lt_trans a c d : bytes_lt a c → bytes_leb c d = true → bytes_lt a d.
Proof.
  unfold bytes_lt. intros H1 H2. destruct (bytes_leb d a) eqn:E; [|done].
  rewrite <-H1. symmetry. by apply (bytes_leb_trans _ d).
Qed.

Lemma sorted_strict l : StronglySorted bytes_le l → NoDup l → StronglySorted bytes_lt l.
Proof.
  induction 1 as [|a l Hs IH Ha]; intros Hnd; [constructor|].
  apply list.NoDup_cons in Hnd as [Hni Hnd]. constructor; [by apply IH|].
  apply list.Forall_forall. intros c Hc. rewrite list.Forall_forall in Ha. apply bytes_lt_ne; [by apply Ha|by intros ->].
Qed.

Lemma key_list_sorted m : StronglySorted bytes_lt (key_list m).
Proof. apply sorted_strict; [apply (StronglySorted_merge_sort bytes_le)|apply key_list_NoDup]. Qed.

(** ** Writing one *)

#[export] Instance key_le_total : Total key_le.
Proof. intros a c. apply bytes_leb_total. Qed.
#[export] Instance key_le_trans : Transitive key_le.
Proof. intros a c d. apply bytes_leb_trans. Qed.

Section view.
Variables (s : Store) (fs : Files) (rs : list Rec).
Hypothesis HI : SInv s fs rs.

Lemma view_refines : Refines (store_view s).2 (contents s fs rs) ∧ lw_pending (s_writer (store_view s).2) = [].
Proof.
  destruct (flush_inv s fs rs HI) as (HI' & Hp & Ha). split; [|done]. exists fs, rs. split; [done|].
  unfold contents. by rewrite !all_recs_files.
Qed.

Lemma view_keys : (sv_entries (store_view s).1).*1 = key_list (contents s fs rs).
Proof.
  apply (StronglySorted_unique bytes_le).
  - unfold store_view. cbn [fst sv_entries].
    pose proof (StronglySorted_merge_sort key_le (map_to_list (s_keydir (writer_flush s)))) as Hs.
    induction Hs as [|a l Hs IH Ha]; cbn; constructor; [done|].
    apply Forall_fmap. apply (list.Forall_impl _ _ _ Ha). intros c. by unfold key_le, bytes_le.
  - apply (StronglySorted_merge_sort bytes_le).
  - unfold store_view, key_list. cbn [fst sv_entries]. rewrite !merge_sort_Permutation.
    apply (store_keys_map (writer_flush s)). apply view_refines.
Qed.

Lemma view_read k loc :
  (k, loc) ∈ sv_entries (store_view s).1 →
  read_value (λ id, sv_readers (store_view s).1 !! id) loc = Ok (default [] (contents s fs rs !! k)).
Proof.
  destruct (flush_inv s fs rs HI) as (HI' & Hp & Ha). unfold store_view. cbn [fst sv_entries sv_readers].
  rewrite merge_sort_Permutation. intros Hk%elem_of_map_to_list. set (s' := writer_flush s) in *.
  destruct (read_entry s' fs rs HI' Hp k loc Hk) as (r & file & Ho & Hr & Hok & Hkey & Hv & Hm & Hlen & Hts).
  unfold read_value, open_reader in *. case_bool_decide as Hin; [|done]. injection Ho as <-.
  assert (is_Some (d_data (s_dir s') !! loc_file_id loc)) as [f Ef].
  { apply elem_of_dom. by rewrite (si_dom _ _ _ HI'), <-(si_readers _ _ _ HI'). }
  rewrite map_lookup_filter, Ef. simpl. rewrite option_guard_True by done. simpl.
  unfold data_file in Hr. rewrite Ef in Hr. simpl in Hr. rewrite Hr. cbn [mbind result_bind].
  rewrite decode_value_record by done. f_equal. f_equal. rewrite <-Hm. unfold contents. by rewrite !all_recs_files.
Qed.

(** Walking a view is walking the map's pairs, in order. *)
Lemma view_walk {T} (f : bytes → bytes → M T unit) t :
  view_for_each (store_view s).1 f t = miter (λ x, f x.1 x.2) (snapshot_pairs (contents s fs rs)) t.
Proof.
  unfold view_for_each, snapshot_pairs. rewrite <-view_keys.
  assert (∀ x, x ∈ sv_entries (store_view s).1 → read_value (λ id, sv_readers (store_view s).1 !! id) x.2 =
    Ok (default [] (contents s fs rs !! x.1))) as Hread by (intros [k loc]; apply view_read).
  revert t Hread. generalize (sv_entries (store_view s).1) as l. induction l as [|[k loc] l IH]; intros t Hread; [done|].
  cbn [fmap list_fmap miter]. unfold mbind, M_bind, mlift. cbn [fst snd].
  pose proof (Hread (k, loc) ltac:(apply list_elem_of_here)) as E. cbn [fst snd] in E. rewrite E. destruct (f _ _ t) as [[[]|e] t']; [|done].
  apply IH. intros x Hx. apply Hread. by apply list_elem_of_further.
Qed.
End view.

(** ** Reading one *)

Lemma snapshot_next_end off prev : snapshot_next (mkSnapshotRecords [] off prev) = Ok (None, mkSnapshotRecords [] off prev).
Proof. done. Qed.

Lemma snapshot_next_ok k v rest off prev :
  k ≠ [] → fits k v → (∀ p, prev = Some p → bytes_lt p k) →
  snapshot_next (mkSnapshotRecords (rec_bytes (mkRec k (Some v) 0) ++ rest) off prev) =
    Ok (Some (k, v), mkSnapshotRecords rest (off + entry_len k v) (Some k)).
Proof.
  intros Hk Hf Hp. pose proof (fits_rec_ok k v 0 Hk Hf eq_refl) as (Hr & _).
  unfold snapshot_next, stream_read_full. cbn [sr_reader sr_offset sr_previous].
  rewrite rec_bytes_split. cbn [r_key r_value r_tstamp]. simpl default. rewrite <-!(assoc_L (++)), !Nat2N.id.
  rewrite take_app_length', drop_app_length' by (by rewrite length_header_encode).
  unfold blen at 1 2. rewrite length_header_encode. cbn [N.eqb N.of_nat].
  rewrite header_decode_encode_exact by (by apply record_header_wf).
  assert (hdr_key_len (record_header k (Some v) 0) = blen k) as -> by done.
  assert (hdr_value_len (record_header k (Some v) 0) = blen v) as -> by done.
  unfold blen. rewrite !Nat2N.id, take_app_length, drop_app_length, take_app_length, drop_app_length, !N.ltb_irrefl.
  pose proof (record_verify k (Some v) 0) as Hv. simpl default in Hv. rewrite Hv. cbn [negb orb].
  assert (is_tombstone (record_header k (Some v) 0) = false) as -> by done.
  assert (match prev with Some p => bytes_leb k p | None => false end = false) as ->
    by (destruct prev as [p|]; [by apply Hp|done]).
  done.
Qed.

(** ** What a storage promises about a snapshot's data *)

(** [sink_holds k data]: [data] has been written into the sink. *)
Class SnapshotLaws (S : Type) `{Storage S} := {
  sink_holds : Sink → bytes → Prop;
  law_new_holds meta ms s k s' : new_snapshot meta ms s = (Ok k, s') → sink_holds k [];
  law_new_reader meta ms s : snapshot_reader (new_snapshot meta ms s).2 = snapshot_reader s;
  law_write_holds k k' data d : sink_holds k data → sink_write_all d k = (Ok tt, k') → sink_holds k' (data ++ d);
  law_install_reader k data s :
    sink_holds k data → sm_index (snapshot_meta s) < sm_index (sink_meta k) →
    let s' := (install_snapshot k s).2 in
    (snapshot_meta s' = sink_meta k ∧ snapshot_reader s' = Ok data) ∨
    (snapshot_meta s' = snapshot_meta s ∧ snapshot_reader s' = snapshot_reader s);
}.

Lemma EntryLog_compact_base l meta :
  sm_index (el_base l) < sm_index meta → el_base (EntryLog_compact l meta).2 = meta.
Proof. intros Hlt. unfold EntryLog_compact. rewrite (proj2 (N.leb_gt _ _)) by done. by destruct (bool_decide _). Qed.

#[export] Instance MemStorage_snapshot_laws : SnapshotLaws MemStorage.
Proof.
  apply (Build_SnapshotLaws MemStorage MemStorage_Storage (λ (k : MemSnapshot) data, msn_data k = data)); simpl; try done.
  - by intros meta ms s k s' [= <- _].
  - intros k k' data d <- [= <-]. done.
  - intros k data s <- Hlt. left. unfold MemStorage_install_snapshot, mmodify, EntryLog_compact. simpl.
    rewrite (proj2 (N.leb_gt _ _)) by done. by destruct (bool_decide _).
Qed.

Lemma rewrite_entries_snapshot s :
  rd_snapshot (ds_dir (rewrite_entries s).2) = rd_snapshot (ds_dir s) ∧
  ds_snapshot_len (rewrite_entries s).2 = ds_snapshot_len s ∧
  ds_snapshot_data_at (rewrite_entries s).2 = ds_snapshot_data_at s.
Proof. unfold rewrite_entries. by destruct (encode_all _ _ _) as [[[buf offsets] end_]|e]. Qed.

#[export] Instance DiskStorage_snapshot_laws : SnapshotLaws DiskStorage.
Proof.
  apply (Build_SnapshotLaws DiskStorage DiskStorage_Storage (λ (k : DiskSnapshot) data,
    sk_file k = replicate (8 + length (sk_header k)) x00 ++ data ∧ sk_written k = blen data)); try done.
  - intros meta ms s k s' [= <- _]. simpl. by rewrite app_nil_r.
  - intros k k' data d [Hf Hw] [= <-]. simpl. rewrite Hf, Hw, blen_app. by rewrite <-(assoc_L (++)).
  - intros k data s [Hf Hw] Hlt. cbn zeta. left. cbn [install_snapshot snapshot_meta snapshot_reader sink_meta DiskStorage_Storage] in *.
    destruct (DiskStorage_install_log k s) as [_ El].
    split; [rewrite El; by apply EntryLog_compact_base|].
    unfold DiskStorage_install_snapshot, DiskStorage_snapshot_reader. rewrite (proj2 (N.leb_gt _ _)) by done.
    match goal with |- context [rewrite_entries ?x] => destruct (rewrite_entries_snapshot x) as (-> & -> & ->) end.
    cbn [ds_dir ds_set_log rename_snapshot rd_snapshot rd_set_snapshot ds_snapshot_len ds_snapshot_data_at].
    f_equal. rewrite Hw. unfold DiskSnapshot_finish, write_at. rewrite Hf.
    set (front := SNAPSHOT_MAGIC ++ to_le 4 (Crc32_finish (sk_crc k)) ++ sk_header k).
    assert (length front = 8 + length (sk_header k))%nat as Hl by (unfold front; by rewrite !length_app, length_to_le).
    change (N.to_nat 0) with 0%nat. rewrite Nat.sub_0_l, Nat.add_0_l. cbn [replicate app].
    rewrite take_0, app_nil_l, drop_app_length' by (unfold blen; lia).
    rewrite drop_app_length' by (rewrite length_replicate; lia). unfold blen. rewrite Nat2N.id. by apply take_ge.
Qed.

Section write.
Context {St : Type} `{SnapshotLaws St}.

Lemma write_snapshot_pairs s fs rs (k : Sink) :
  SInv s fs rs → map_ok (contents s fs rs) →
  write_snapshot (store_view s).1 k =
    miter (λ x, sink_write_all (rec_bytes (mkRec x.1 (Some x.2) 0))) (snapshot_pairs (contents s fs rs)) k.
Proof.
  intros HI Hok. unfold write_snapshot. rewrite (view_walk s fs rs HI).
  pose proof (snapshot_pairs_ok _ Hok) as Hp. revert k. induction Hp as [|[key v] l [Hk Hf] Hl IH]; intros k; [done|].
  cbn [miter fst snd]. unfold mbind, M_bind, mlift. cbn [fst snd] in Hk, Hf.
  rewrite record_encode_rec by apply (fits_rec_ok key v 0 Hk Hf eq_refl).
  destruct (sink_write_all _ k) as [[[]|e] k']; [|done]. apply IH.
Qed.

Lemma writes_hold l (k k' : Sink) data :
  sink_holds k data → miter (λ x, sink_write_all (rec_bytes (mkRec x.1 (Some x.2) 0))) l k = (Ok tt, k') →
  sink_holds k' (data ++ file_bytes (restored_recs l)).
Proof.
  revert k data. induction l as [|x l IH]; intros k data Hk E.
  - injection E as <-. by rewrite app_nil_r.
  - cbn [miter] in E. unfold mbind, M_bind in E.
    destruct (sink_write_all _ k) as [[[]|e] k1] eqn:E1; [|done].
    pose proof (law_write_holds _ _ _ _ Hk E1) as Hk1. specialize (IH _ _ Hk1 E).
    unfold restored_recs in *. rewrite fmap_cons, file_bytes_cons. by rewrite (assoc_L (++)).
Qed.

(** A snapshot job writes the snapshot of the map its view was taken of. *)
Lemma job_holds s fs rs (k k' : Sink) :
  SInv s fs rs → map_ok (contents s fs rs) → sink_holds k [] →
  SnapshotJob_run (mkSnapshotJob (store_view s).1 k) = Ok k' → sink_holds k' (snapshot_bytes (contents s fs rs)).
Proof.
  intros HI Hok Hk. unfold SnapshotJob_run. cbn [sj_view sj_sink]. rewrite (write_snapshot_pairs s fs rs) by done.
  destruct (miter _ _ k) as [[[]|e] k1] eqn:E; [|done]. intros [= <-].
  by apply (writes_hold _ _ _ [] Hk).
Qed.
End write.
