(* ===== verification/ReplicaWrites.v ===== *)
(** * What a replica writes, and what a crash can leave of it

    [Sound P r m]: the replica's store means [m], and whatever a crash leaves of it means a
    map [P] holds of. Writes and syncs, one at a time. *)

From S2P Require Import Prelude.
From S2P Require Import RecordFormat.
From S2P Require Import RaftLog.
From S2P Require Import NodeState.
From S2P Require Import Node.
From S2P Require Import DataLog.
From S2P Require Import Store.
From S2P Require Import StoreIndex.
From S2P Require Import StoreInv.
From S2P Require Import StoreOps.
From S2P Require Import StoreMap.
From S2P Require Import StoreOpen.
From S2P Require Import StoreCrash.
From S2P Require Import StoreGrow.
From S2P Require Import KeyOrder.
From S2P Require Import Replicated.
From S2P Require Import ReplicaSnapshot.

#[local] Open Scope N_scope.
#[local] Opaque rec_bytes.

(** ** Histories that grow *)

Lemma Grown_history s hs0 hs fs rs s' fs' rs' :
  History s hs0 hs → SInv s fs rs → Grown s fs rs s' fs' rs' →
  ∃ hs0', History s' hs0' (all_recs fs' ++ rs') ∧ hs0 `prefix_of` hs0'.
Proof.
  intros (fs1 & rs1 & r0 & HI1 & Hr0 & Hs & -> & ->) HI HG.
  destruct (SInv_unique s fs rs fs1 rs1 HI HI1) as [-> ->]. clear HI1.
  pose proof (gr_inv _ _ _ _ _ _ HG) as HI'.
  destruct (si_writer _ _ _ HI') as (q0 & q1 & q2 & Eq & _ & _ & _ & _ & Hs').
  assert (q0 `prefix_of` rs') as Hq by (rewrite Eq; by eexists).
  exists (all_recs fs' ++ q0). split; [by exists fs', rs', q0|].
  apply (behind_synced s' fs' rs' q0 (active_id s, lw_synced (s_writer s))); [done..| |].
  - eapply Covers_grow; [apply HG|]. destruct Hr0 as [r1 E]. exists fs1, r0, r1, []. unfold all_files. simpl.
    by rewrite E.
  - eapply behind_grown; [done|]. right. done.
Qed.

(** [s'] is [s] with [l] appended: what [s] knew to be on the disk still is. *)
Definition Appends (s s' : Store) (l : list Rec) : Prop :=
  s_restoring s' = s_restoring s ∧ s_compacting s' = s_compacting s ∧
  ∀ hs0 hs, History s hs0 hs → ∃ hs0', History s' hs0' (hs ++ l) ∧ hs0 `prefix_of` hs0'.

Lemma Appended_appends s fs rs r reach s' fs' rs' :
  SInv s fs rs → s_restoring s = false → Appended s fs rs r reach s' fs' rs' → Grows s s' → Appends s s' [r].
Proof.
  intros HI Hre HA HG. split_and!; [by destruct HA..|]. intros hs0 hs HH.
  destruct (HG fs rs HI Hre) as (fs2 & rs2 & HG2). destruct (Grown_history s hs0 hs fs rs s' fs2 rs2 HH HI HG2) as (hs0' & HH' & Hp).
  exists hs0'. split; [|done].
  destruct (SInv_unique s' _ _ _ _ (gr_inv _ _ _ _ _ _ HG2) (ap_inv _ _ _ _ _ _ _ _ HA)) as [-> ->].
  destruct HH as (fs1 & rs1 & r0 & HI1 & _ & _ & _ & ->). destruct (SInv_unique s fs rs fs1 rs1 HI HI1) as [<- <-].
  by rewrite <-(rolled_recs _ _ _ _ _ _ (ap_rolled _ _ _ _ _ _ _ _ HA)), <-(assoc_L (++)).
Qed.

Lemma put_appends s k v reach now now' m :
  Refines s m → s_restoring s = false → k ≠ [] → fits k v → is_u64 now → is_u64 now' →
  ∃ s', put_with k v reach now now' s = (Ok tt, s') ∧ Appends s s' [mkRec k (Some v) now].
Proof.
  intros (fs & rs & HI & _) Hre Hk Hf Hn Hn'.
  destruct (put_step s fs rs k v reach now now' HI Hre Hk Hf Hn Hn') as (s' & fs' & rs' & E & HA).
  exists s'. split; [done|]. eapply Appended_appends; [done..|].
  pose proof (put_grows k v reach now now' (λ _, Hf) Hn Hn' s) as HG. by rewrite E in HG.
Qed.

Lemma delete_appends s k reach now now' m :
  Refines s m → s_restoring s = false → is_u64 now → is_u64 now' →
  ∃ s', delete_with k reach now now' s = (Ok (bool_decide (is_Some (m !! k))), s') ∧
    Appends s s' (if decide (is_Some (m !! k)) then [mkRec k None now] else []).
Proof.
  intros HR Hre Hn Hn'. destruct (decide (is_Some (m !! k))) as [Hin|Hout]; cycle 1.
  { exists s. unfold delete_with. rewrite Hre, (Refines_contains s m), !bool_decide_false by done. split; [done|].
    split_and!; [done..|]. intros hs0 hs HH. exists hs0. by rewrite app_nil_r. }
  apply (Refines_dom s m k HR) in Hin as Hkd. destruct HR as (fs & rs & HI & _).
  destruct (delete_step s fs rs k reach now now' HI Hre Hkd Hn Hn') as (s' & fs' & rs' & E & HA).
  exists s'. rewrite bool_decide_true by done. split; [done|]. eapply Appended_appends; [done..|].
  pose proof (delete_grows k reach now now' Hn Hn' s) as HG. by rewrite E in HG.
Qed.

Lemma sync_history s hs0 hs : History s hs0 hs → History (store_sync s) hs hs ∧ is_synced (store_sync s) = true.
Proof.
  intros (fs & rs & r0 & HI & _ & _ & _ & ->). destruct (sync_inv s fs rs HI) as (HI' & _ & _ & Hs & _).
  split; [|done]. exists fs, rs, rs. split_and!; try done.
  unfold is_synced in Hs. apply N.eqb_eq in Hs. rewrite Hs. by apply Wok_offset with (d := s_dir (store_sync s)), HI'.
Qed.

Lemma sync_flags s : s_restoring (store_sync s) = s_restoring s ∧ s_compacting (store_sync s) = s_compacting s.
Proof. unfold store_sync, on_writer. by destruct (LogWriter_sync _) as [d w]. Qed.

(** ** What a crash can leave *)

(** Every history a crash may leave means a map [P] holds of. *)
Definition Safe (P : gmap bytes bytes → Prop) (hs0 hs : list Rec) : Prop :=
  ∀ h, hs0 `prefix_of` h → h `prefix_of` hs → P (replay h).

Lemma Safe_refl (P : gmap bytes bytes → Prop) hs : P (replay hs) → Safe P hs hs.
Proof. intros HP h H1 H2. by rewrite (anti_symm prefix h hs). Qed.

Lemma Safe_snoc (P : gmap bytes bytes → Prop) hs0 hs hs0' r :
  hs0 `prefix_of` hs0' → Safe P hs0 hs → P (replay_step (replay hs) r) → Safe P hs0' (hs ++ [r]).
Proof.
  intros Hp HS HP h H1 [k E]. destruct k as [|x k _] using rev_ind.
  - rewrite app_nil_r in E. subst h. by rewrite replay_snoc.
  - rewrite (assoc_L (++)) in E. apply app_inj_tail in E as [E _]. apply HS; [by etrans|by exists k].
Qed.

Lemma Safe_impl (P Q : gmap bytes bytes → Prop) hs0 hs : (∀ m, P m → Q m) → Safe P hs0 hs → Safe Q hs0 hs.
Proof. intros H HS h H1 H2. by apply H, HS. Qed.

Section replica.
Context {St : Type} `{Storage St}.
Implicit Types (r : ReplicatedStore St) (P : gmap bytes bytes → Prop) (m : gmap bytes bytes).

(** From the history [b] on: [b] is known to be on the disk. *)
Record SoundFrom (b : list Rec) P r m : Prop := {
  so_history : ∃ hs0 hs, History (rp_store r) hs0 hs ∧ replay hs = m ∧ b `prefix_of` hs0 ∧ Safe P b hs;
  so_restoring : s_restoring (rp_store r) = false;
  so_compacting : s_compacting (rp_store r) = false;
  so_clock : ∀ i, is_u64 (rp_clock r i);
}.

Definition Sound P r m : Prop := ∃ b, SoundFrom b P r m.

(** Only the store, and the clock, are different. *)
Definition same_rest r r' : Prop :=
  rp_node r' = rp_node r ∧ rp_applied r' = rp_applied r ∧ rp_snapshot_every r' = rp_snapshot_every r ∧
  rp_background r' = rp_background r ∧ rp_snapshotting r' = rp_snapshotting r ∧
  rp_compaction_due r' = rp_compaction_due r ∧ rp_restoring r' = rp_restoring r ∧ rp_applied_file r' = rp_applied_file r.

#[export] Instance same_rest_preorder : PreOrder same_rest.
Proof. split; [done|]. unfold same_rest. intros a b c H1 H2. destruct_and!. split_and!; congruence. Qed.

Lemma SoundFrom_refines b P r m : SoundFrom b P r m → Refines (rp_store r) m.
Proof. intros [(hs0 & hs & HH & <- & _) _ _ _]. by eapply History_refines. Qed.

Lemma Sound_refines P r m : Sound P r m → Refines (rp_store r) m.
Proof. intros [b HS]. by eapply SoundFrom_refines. Qed.

Lemma Sound_now P r m : Sound P r m → P m.
Proof.
  intros [b [(hs0 & hs & HH & <- & Hb & HS) _ _ _]]. apply HS; [|done].
  destruct HH as (fs & rs & r0 & _ & Hp & _ & -> & ->). etrans; [exact Hb|]. by apply prefix_app.
Qed.

Lemma SoundFrom_impl b P Q r m : (∀ m, P m → Q m) → SoundFrom b P r m → SoundFrom b Q r m.
Proof.
  intros HPQ [(hs0 & hs & HH & Hm & Hb & HS) H2 H3 H4]. split; try done. exists hs0, hs. split_and!; [done..|].
  by eapply Safe_impl.
Qed.

Lemma Sound_impl P Q r m : (∀ m, P m → Q m) → Sound P r m → Sound Q r m.
Proof. intros HPQ [b HS]. exists b. by eapply SoundFrom_impl. Qed.

(** A store all of whose history is on the disk. *)
Lemma SoundFrom_synced P r hs :
  History (rp_store r) hs hs → P (replay hs) → s_restoring (rp_store r) = false → s_compacting (rp_store r) = false →
  (∀ i, is_u64 (rp_clock r i)) → SoundFrom hs P r (replay hs).
Proof. intros HH HP H2 H3 H4. split; try done. exists hs, hs. split_and!; [done..|]. by apply Safe_refl. Qed.

Lemma SoundFrom_appends b P r m s' rc n :
  SoundFrom b P r m → Appends (rp_store r) s' [rc] → P (replay_step m rc) →
  SoundFrom b P (rp_set_store s' (rp_tick n r)) (replay_step m rc).
Proof.
  intros [(hs0 & hs & HH & <- & Hb & HS) H2 H3 H4] (A1 & A2 & A3) HP.
  destruct (A3 hs0 hs HH) as (hs0' & HH' & Hp). split; simpl; [|congruence..|by intros i; apply H4].
  exists hs0', (hs ++ [rc]). split_and!; [done|by rewrite replay_snoc|by etrans|by eapply Safe_snoc].
Qed.

Section from.
Variable b : list Rec.

Lemma SoundFrom_get P r m k : SoundFrom b P r m → store_get (rp_store r) k = Ok (m !! k).
Proof. intros HS. by apply Refines_get, (SoundFrom_refines b P). Qed.

Lemma replica_put_ok P r m k v :
  SoundFrom b P r m → k ≠ [] → fits k v → P (<[k := v]> m) →
  ∃ r', replica_put k v r = (Ok tt, r') ∧ SoundFrom b P r' (<[k := v]> m) ∧ same_rest r r'.
Proof.
  intros HS Hk Hf HP. unfold replica_put, on_store, put_deferred. simpl.
  destruct (put_appends (rp_store r) k v Buffer (rp_clock r 0%nat) (rp_clock r 1%nat) m) as (s' & E & HA);
    [by eapply SoundFrom_refines|apply HS|done|done|apply HS|apply HS|].
  rewrite E. eexists. split; [done|]. split; [|done]. by apply (SoundFrom_appends b P r m s' _ 2 HS HA).
Qed.

Lemma replica_delete_ok P r m k :
  SoundFrom b P r m → P (delete k m) →
  ∃ r' d, replica_delete k r = (Ok d, r') ∧ SoundFrom b P r' (delete k m) ∧ same_rest r r'.
Proof.
  intros HS HP. unfold replica_delete, on_store, delete_deferred. simpl.
  destruct (delete_appends (rp_store r) k Buffer (rp_clock r 0%nat) (rp_clock r 1%nat) m) as (s' & E & HA);
    [by eapply SoundFrom_refines|apply HS..|].
  rewrite E. eexists _, _. split; [done|]. split; [|done]. destruct (decide _) as [Hin|Hout].
  - by apply (SoundFrom_appends b P r m s' _ 2 HS HA).
  - rewrite delete_id by (by apply eq_None_not_Some). destruct HS as [(hs0 & hs & HH & Hm & Hb & HS) H2 H3 H4].
    destruct HA as (A1 & A2 & A3). destruct (A3 hs0 hs HH) as (hs0' & HH' & Hp). rewrite app_nil_r in HH'.
    split; simpl; [|congruence..|by intros i; apply H4]. exists hs0', hs. split_and!; [done..|by etrans|done].
Qed.
End from.

Lemma replica_sync_ok P r m :
  Sound P r m →
  ∃ r', replica_sync r = (Ok tt, r') ∧ Sound (eq m) r' m ∧ same_rest r r' ∧ is_synced (rp_store r') = true.
Proof.
  intros [b [(hs0 & hs & HH & <- & Hb & HS) H2 H3 H4]]. eexists. split; [done|].
  destruct (sync_history _ _ _ HH) as [HH' Hsy]. destruct (sync_flags (rp_store r)) as [F1 F2]. split_and!; [|done..].
  exists hs. apply SoundFrom_synced; simpl; [done|done|congruence..|done].
Qed.
End replica.
