(* ===== verification/ReplicaRestore.v ===== *)
(** * Becoming a snapshot

    [restore] walks the snapshot and the store's keys together; whatever the store held, it
    ends up holding exactly the snapshot, and at every moment on the way each key has its
    old value or the snapshot's. *)

From S2P Require Import Prelude.
From S2P Require Import Crc.
From S2P Require Import RecordFormat.
From S2P Require Import RaftLog.
From S2P Require Import NodeState.
From S2P Require Import Node.
From S2P Require Import DataLog.
From S2P Require Import Store.
From S2P Require Import StoreIndex.
From S2P Require Import StoreMap.
From S2P Require Import StoreRestore.
From S2P Require Import KeyOrder.
From S2P Require Import Replicated.
From S2P Require Import ReplicaSnapshot.
From S2P Require Import ReplicaWrites.

#[local] Open Scope N_scope.
#[local] Opaque rec_bytes.

(** ** The applied index's file *)

Lemma read_applied_bytes i : is_u64 i → read_applied (Some (applied_bytes i)) = i.
Proof.
  intros Hi. unfold read_applied, applied_bytes. set (c := crc32_parts [to_le 8 i]).
  assert (is_u32 c) as Hc by apply crc32_parts_u32.
  assert (length (to_le 4 c) = 4%nat) as H4 by apply length_to_le.
  assert (length (to_le 8 i) = 8%nat) as H8 by apply length_to_le.
  rewrite blen_app, !blen_to_le. cbn [N.eqb negb].
  rewrite drop_app_length', <-(app_nil_r (to_le 4 c ++ _)), <-(assoc_L (++)) by done. fold c.
  replace (slice 0 4 (to_le 4 c ++ to_le 8 i ++ [])) with (to_le 4 c)
    by (unfold slice; simpl N.to_nat; rewrite drop_0; symmetry; by apply take_app_length').
  rewrite (of_le_to_le_u32 c), !N.eqb_refl by done. cbn [negb].
  replace (slice 4 12 (to_le 4 c ++ to_le 8 i ++ [])) with (to_le 8 i).
  - by apply of_le_to_le_u64.
  - unfold slice. simpl N.to_nat. rewrite drop_app_length' by done. symmetry. by apply take_app_length'.
Qed.

(** ** The walk *)

(** Every key has its old value, from [m0], or the snapshot's, from [ms]. *)
Definition Blend (m0 ms m : gmap bytes bytes) : Prop := ∀ k, m !! k = ms !! k ∨ m !! k = m0 !! k.

Lemma Blend_delete m0 ms m k : ms !! k = None → Blend m0 ms m → Blend m0 ms (delete k m).
Proof.
  intros Hk Hb j. destruct (decide (j = k)) as [->|Hj]; [left; by rewrite lookup_delete_eq|].
  rewrite lookup_delete_ne by done. apply Hb.
Qed.

Lemma Blend_insert m0 ms m k v : ms !! k = Some v → Blend m0 ms m → Blend m0 ms (<[k := v]> m).
Proof.
  intros Hk Hb j. destruct (decide (j = k)) as [->|Hj]; [left; by rewrite lookup_insert_eq|].
  rewrite lookup_insert_ne by done. apply Hb.
Qed.

(** What is left of the walk: the keys [held] and the pairs [ps] are ahead of it, every other
    key is as in the snapshot. *)
Record Walk (ms : gmap bytes bytes) (held : list bytes) (ps : list (bytes * bytes)) (m : gmap bytes bytes) : Prop := {
  wk_held : StronglySorted bytes_lt held;
  wk_pairs : StronglySorted bytes_lt ps.*1;
  wk_done : ∀ k, k ∉ held → k ∉ ps.*1 → m !! k = ms !! k;
  wk_in : ∀ k v, (k, v) ∈ ps → ms !! k = Some v;
  wk_out : ∀ k, k ∈ held → k ∉ ps.*1 → ms !! k = None;
}.

Lemma sorted_head_lt x l y : StronglySorted bytes_lt (x :: l) → y ∈ l → bytes_lt x y.
Proof. intros [_ Hx]%StronglySorted_inv Hy. rewrite list.Forall_forall in Hx. by apply Hx. Qed.

Lemma bytes_lt_irrefl x : ¬ bytes_lt x x.
Proof. unfold bytes_lt. destruct (bytes_leb_total x x) as [E|E]; by rewrite E. Qed.

(** A held key before the next pair's is not in the snapshot. *)
Lemma Walk_stale ms stale held k v ps m :
  Walk ms (stale :: held) ((k, v) :: ps) m → bytes_leb k stale = false →
  ms !! stale = None ∧ Walk ms held ((k, v) :: ps) (delete stale m).
Proof.
  intros [W1 W2 W3 W4 W5] Hlt.
  assert (stale ∉ ((k, v) :: ps).*1) as Hout.
  { cbn [fmap list_fmap fst]. rewrite elem_of_cons. intros [->|Hin]; [by apply (bytes_lt_irrefl k)|].
    apply (bytes_lt_irrefl stale), (bytes_lt_trans stale k stale Hlt), bytes_lt_le, (sorted_head_lt _ (ps.*1)); done. }
  assert (ms !! stale = None) as Hs by (apply W5; [apply list_elem_of_here|done]).
  split; [done|]. split; [by apply StronglySorted_inv in W1 as [? _]|done| |done|].
  - intros j Hj1 Hj2. destruct (decide (j = stale)) as [->|Hne]; [by rewrite lookup_delete_eq, Hs|].
    rewrite lookup_delete_ne by done. apply W3; [|done]. rewrite elem_of_cons. by intros [?|?].
  - intros j Hj. apply W5. by apply list_elem_of_further.
Qed.

(** The next pair, once nothing before it is held. *)
Lemma Walk_pair ms held k v ps m :
  Walk ms held ((k, v) :: ps) m → (∀ x, head held = Some x → bytes_leb k x = true) →
  Walk ms (match held with k' :: held' => if bool_decide (k' = k) then held' else held | [] => [] end) ps (<[k := v]> m).
Proof.
  intros [W1 W2 W3 W4 W5] Hh.
  assert (ms !! k = Some v) as Hk by (apply W4, list_elem_of_here).
  assert (∃ held', match held with k' :: held' => if bool_decide (k' = k) then held' else held | [] => [] end = held' ∧
    StronglySorted bytes_lt held' ∧ k ∉ held' ∧ (∀ j, j ≠ k → j ∈ held ↔ j ∈ held')) as (held' & -> & Hs & Hni & Hsame).
  { destruct held as [|k' held]; [exists []; split_and!; [done|constructor|by intros ?%not_elem_of_nil|done]|].
    case_bool_decide as E.
    - subst k'. exists held. split_and!; [done|by apply StronglySorted_inv in W1 as [? _]| |].
      + intros Hin. apply (bytes_lt_irrefl k). by apply (sorted_head_lt k held).
      + intros j Hj. rewrite elem_of_cons. naive_solver.
    - exists (k' :: held). split_and!; [done|done| |done]. rewrite elem_of_cons. intros [->|Hin]; [done|].
      apply (bytes_lt_irrefl k'), (bytes_lt_trans k' k k'); [by apply (sorted_head_lt k' held)|by apply Hh]. }
  cbn [fmap list_fmap fst] in W2, W3, W5. split; [done|by apply StronglySorted_inv in W2 as [? _]| | |].
  - intros j Hj1 Hj2. destruct (decide (j = k)) as [->|Hne]; [by rewrite lookup_insert_eq, Hk|].
    rewrite lookup_insert_ne by done. apply W3; [by rewrite Hsame|]. rewrite elem_of_cons. by intros [?|?].
  - intros j w Hj. apply W4. by apply list_elem_of_further.
  - intros j Hj1 Hj2. assert (j ≠ k) as Hne by (by intros ->). apply W5; [by apply Hsame|]. rewrite elem_of_cons. by intros [?|?].
Qed.

Section replica.
Context {St : Type} `{Storage St}.
Implicit Types (r : ReplicatedStore St) (P : gmap bytes bytes → Prop) (m ms : gmap bytes bytes).

(** ** The walk, as it is run *)

Section walk.
Variable b : list Rec.

(** Everything between the old map and the snapshot is fit to be left by a crash. *)
Definition between_ok P m0 ms : Prop := ∀ m, Blend m0 ms m → P m.

Lemma drop_stale_ok P m0 ms k v held ps r m :
  between_ok P m0 ms → SoundFrom b P r m → Blend m0 ms m → Walk ms held ((k, v) :: ps) m →
  ∃ held' r' m', drop_stale k held r = (Ok held', r') ∧ SoundFrom b P r' m' ∧ Blend m0 ms m' ∧
    Walk ms held' ((k, v) :: ps) m' ∧ (∀ x, head held' = Some x → bytes_leb k x = true) ∧ same_rest r r'.
Proof.
  intros HP. revert r m. induction held as [|stale held IH]; intros r m HS HB HW.
  { exists [], r, m. split_and!; [done..|reflexivity]. }
  cbn [drop_stale]. destruct (bytes_leb k stale) eqn:E.
  { exists (stale :: held), r, m. split_and!; [done..| |reflexivity]. by intros x [= <-]. }
  destruct (Walk_stale ms stale held k v ps m HW E) as [Hs HW1].
  pose proof (Blend_delete m0 ms m stale Hs HB) as HB1.
  destruct (replica_delete_ok b P r m stale HS (HP _ HB1)) as (r1 & d & E1 & HS1 & HR1).
  destruct (IH r1 _ HS1 HB1 HW1) as (held' & r' & m' & E2 & HS2 & HB2 & HW2 & Hh & HR2).
  exists held', r', m'. split_and!; try done; [|by etrans]. unfold mbind, M_bind. by rewrite E1.
Qed.

Lemma restore_record_ok P m0 ms k v held ps r m :
  between_ok P m0 ms → map_ok ms → SoundFrom b P r m → Blend m0 ms m → Walk ms held ((k, v) :: ps) m →
  ∃ held' r' m', restore_record held k v r = (Ok held', r') ∧ SoundFrom b P r' m' ∧ Blend m0 ms m' ∧
    Walk ms held' ps m' ∧ same_rest r r'.
Proof.
  intros HP Hok HS HB HW.
  destruct (drop_stale_ok P m0 ms k v held ps r m HP HS HB HW) as (held1 & r1 & m1 & E1 & HS1 & HB1 & HW1 & Hh & HR1).
  assert (ms !! k = Some v) as Hk by (apply (wk_in _ _ _ _ HW), list_elem_of_here).
  unfold restore_record, mbind, M_bind. rewrite E1. cbn [mget mlift]. unfold mget, mlift.
  rewrite (SoundFrom_get b P r1 m1) by done. pose proof (Walk_pair ms held1 k v ps m1 HW1 Hh) as HW2.
  case_bool_decide as Eo; cbn [negb mwhen].
  - eexists _, r1, m1. split_and!; [done..| |done]. by rewrite insert_id in HW2.
  - pose proof (Blend_insert m0 ms m1 k v Hk HB1) as HB2. destruct (Hok k v Hk) as [Hne Hf].
    destruct (replica_put_ok b P r1 m1 k v HS1 Hne Hf (HP _ HB2)) as (r2 & E2 & HS2 & HR2).
    rewrite E2. eexists _, r2, _. split_and!; [done..|]. by etrans.
Qed.

(** Reading on: the rest of the snapshot's records, after the key [prev]. *)
Lemma restore_loop_ok P m0 ms ps : 
  between_ok P m0 ms → map_ok ms →
  ∀ fuel off prev held r m, (length ps < fuel)%nat → (∀ p x, prev = Some p → x ∈ ps.*1 → bytes_lt p x) →
  SoundFrom b P r m → Blend m0 ms m → Walk ms held ps m →
  ∃ held' r' m', restore_loop fuel (mkSnapshotRecords (file_bytes (restored_recs ps)) off prev) held r = (Ok held', r') ∧
    SoundFrom b P r' m' ∧ Blend m0 ms m' ∧ Walk ms held' [] m' ∧ same_rest r r'.
Proof.
  intros HP Hok. induction ps as [|[k v] ps IH]; intros fuel off prev held r m Hf Hp HS HB HW;
    (destruct fuel as [|fuel]; [simpl in Hf; lia|]); cbn [restore_loop]; unfold mbind, M_bind, mlift.
  { change (file_bytes (restored_recs [])) with (@nil byte). rewrite snapshot_next_end.
    exists held, r, m. split_and!; [done..|reflexivity]. }
  destruct (Hok k v) as [Hne Hfit]; [apply (wk_in _ _ _ _ HW), list_elem_of_here|].
  unfold restored_recs. rewrite fmap_cons, file_bytes_cons. cbn [fst snd].
  rewrite snapshot_next_ok; [|done..|intros p Ep; apply (Hp p k Ep), list_elem_of_here].
  destruct (restore_record_ok P m0 ms k v held ps r m HP Hok HS HB HW) as (held1 & r1 & m1 & E1 & HS1 & HB1 & HW1 & HR1).
  rewrite E1. pose proof (wk_pairs _ _ _ _ HW) as Hsort.
  destruct (IH fuel (off + entry_len k v) (Some k) held1 r1 m1) as (held2 & r2 & m2 & E2 & HS2 & HB2 & HW2 & HR2);
    [simpl in Hf; lia| |done..|].
  { intros p x [= <-] Hx. by apply (sorted_head_lt k (ps.*1)). }
  exists held2, r2, m2. split_and!; [exact E2|done..|]. by etrans.
Qed.

Lemma delete_held_ok P m0 ms held r m :
  between_ok P m0 ms → SoundFrom b P r m → Blend m0 ms m → Walk ms held [] m →
  ∃ r', miter (λ k, replica_delete k ≫= λ _, mret tt) held r = (Ok tt, r') ∧ SoundFrom b P r' ms ∧ same_rest r r'.
Proof.
  intros HP. revert r m. induction held as [|k held IH]; intros r m HS HB HW.
  { exists r. split_and!; [done| |reflexivity]. replace ms with m; [done|]. apply map_eq. intros k.
    apply (wk_done _ _ _ _ HW); apply not_elem_of_nil. }
  assert (ms !! k = None) as Hk by (apply (wk_out _ _ _ _ HW); [apply list_elem_of_here|apply not_elem_of_nil]).
  pose proof (Blend_delete m0 ms m k Hk HB) as HB1.
  destruct (replica_delete_ok b P r m k HS (HP _ HB1)) as (r1 & d & E1 & HS1 & HR1).
  destruct (IH r1 (delete k m) HS1 HB1) as (r2 & E2 & HS2 & HR2).
  { destruct HW as [W1 W2 W3 W4 W5]. split; [by apply StronglySorted_inv in W1 as [? _]|done| |done|].
    - intros j Hj Hn. destruct (decide (j = k)) as [->|Hne]; [by rewrite lookup_delete_eq|].
      rewrite lookup_delete_ne by done. apply W3; [|done]. rewrite elem_of_cons. by intros [?|?].
    - intros j Hj. apply W5. by apply list_elem_of_further. }
  exists r2. split_and!; [|done|by etrans]. cbn [miter]. unfold mbind, M_bind. by rewrite E1.
Qed.

Lemma walk_start ms m (s : Store) :
  Refines s m → Walk ms (sorted_keys s) (snapshot_pairs ms) m.
Proof.
  intros HR. assert (sorted_keys s = key_list m) as -> by (apply sort_Permutation; by apply store_keys_map).
  split; [apply key_list_sorted|rewrite snapshot_pairs_keys; apply key_list_sorted| | |].
  - intros k H1 H2. rewrite snapshot_pairs_keys in H2. rewrite elem_of_key_list, <-eq_None_not_Some in H1.
    rewrite elem_of_key_list, <-eq_None_not_Some in H2. congruence.
  - intros k v. apply elem_of_snapshot_pairs.
  - intros k _ Hn. rewrite snapshot_pairs_keys, elem_of_key_list, <-eq_None_not_Some in Hn. done.
Qed.

Lemma length_file_bytes (l : list Rec) : (length l ≤ length (file_bytes l))%nat.
Proof.
  induction l as [|x l IH]; [done|]. rewrite file_bytes_cons, length_app. simpl.
  pose proof (rec_bytes_len x). unfold blen in *. lia.
Qed.

Lemma restore_walk_ok P r m ms :
  between_ok P m ms → map_ok ms → SoundFrom b P r m →
  snapshot_reader (n_storage (rp_node r)) = Ok (snapshot_bytes ms) →
  ∃ r', restore_walk (restore_fuel r) r = (Ok tt, r') ∧ SoundFrom b P r' ms ∧ same_rest r r'.
Proof.
  intros HP Hok HS Hsnap. unfold restore_walk, restore_fuel, mbind, M_bind, mget, mlift. rewrite Hsnap.
  destruct (restore_loop_ok P m ms (snapshot_pairs ms) HP Hok (S (length (snapshot_bytes ms))) 0 None
    (sorted_keys (rp_store r)) r m) as (held & r1 & m1 & E1 & HS1 & HB1 & HW1 & HR1); [|done|done| | |].
  { unfold snapshot_bytes. pose proof (length_file_bytes (restored_recs (snapshot_pairs ms))) as Hl.
    unfold restored_recs in Hl at 1. rewrite length_fmap in Hl. lia. }
  { intros k. by right. }
  { apply walk_start. by eapply SoundFrom_refines. }
  unfold SnapshotRecords_new. unfold snapshot_bytes at 2. rewrite E1.
  destruct (delete_held_ok P m ms held r1 m1 HP HS1 HB1 HW1) as (r2 & E2 & HS2 & HR2).
  exists r2. split_and!; [done..|]. by etrans.
Qed.

End walk.

(** The store has become the snapshot, all of it on disk, before the index says so. *)
Lemma replica_restore_ok b P r m ms :
  between_ok P m ms → map_ok ms → SoundFrom b P r m →
  snapshot_reader (n_storage (rp_node r)) = Ok (snapshot_bytes ms) →
  ∃ r1 r', replica_restore r = (Ok tt, r') ∧
    restore_walk (restore_fuel r) r = (Ok tt, r1) ∧ SoundFrom b P r1 ms ∧ same_rest r r1 ∧
    r' = rp_set_applied_file (applied_bytes (snapshot_index r)) (rp_set_applied (snapshot_index r)
           (rp_set_store (store_sync (rp_store r1)) r1)) ∧
    Sound (eq ms) r' ms ∧ is_synced (rp_store r') = true.
Proof.
  intros HP Hok HS Hsnap. destruct (restore_walk_ok b P r m ms HP Hok HS Hsnap) as (r1 & E1 & HS1 & HR1).
  destruct (replica_sync_ok P r1 ms) as (r2 & E2 & HS2 & HR2 & Hsy); [by exists b|]. injection E2 as <-.
  eexists r1, _. split; [unfold replica_restore, mbind, M_bind, mget at 1; rewrite E1; reflexivity|].
  split_and!; [done..| |done]. destruct HS2 as [b' [S1 S2 S3 S4]]. exists b'. split; simpl in *; done.
Qed.
End replica.
