(* ===== verification/ReplicaApply.v ===== *)
(** * A replica follows the log

    The agreed log as a list of commands, the map it means at each index, and what a replica
    that applies it holds: exactly that map, or, after a crash, a mixture of that and later
    ones which applying the log again brings back to it. *)

From S2P Require Import Prelude.
From S2P Require Import Crc.
From S2P Require Import RecordFormat.
From S2P Require Import RaftLog.
From S2P Require Import Message.
From S2P Require Import NodeState.
From S2P Require Import Node.
From S2P Require Import Election.
From S2P Require Import Replication.
From S2P Require Import Commit.
From S2P Require Import DataLog.
From S2P Require Import Store.
From S2P Require Import StoreIndex.
From S2P Require Import StoreInv.
From S2P Require Import StoreMap.
From S2P Require Import StoreCrash.
From S2P Require Import StoreCompact.
From S2P Require Import StoreRestore.
From S2P Require Import KeyOrder.
From S2P Require Import Replicated.
From S2P Require Import ReplicaSnapshot.
From S2P Require Import ReplicaWrites.
From S2P Require Import ReplicaRestore.

#[local] Open Scope N_scope.
#[local] Opaque rec_bytes.

(** ** Commands *)

(** A command decodes to what was encoded. *)
Lemma Op_decode_encode now op bs : is_u64 now → Op_encode now op = Ok bs → Op_decode bs = Ok op.
Proof.
  intros Hn E. set (k := match op with OpPut k _ | OpDelete k => k end).
  set (v := match op with OpPut _ v => Some v | OpDelete _ => None end).
  assert (record_ok k v ∧ bs = record_bytes k v now) as [Hr ->] by (destruct op; by apply record_encode_inv in E).
  assert (rec_bytes (mkRec k v now) = record_bytes k v now) as <- by done. rewrite rec_bytes_split. cbn [r_key r_value r_tstamp].
  unfold Op_decode. set (h := record_header k v now). pose proof (record_header_wf k v now Hr Hn) as Hwf. fold h in Hwf.
  assert (length (header_encode h) = HEADER_LEN) as Hl by apply length_header_encode.
  rewrite take_app_length', header_decode_encode_exact by done.
  assert (hdr_key_len h = blen k) as Ek by done. assert (hdr_value_len h = blen (default [] v)) as Ev by done.
  assert (blen (header_encode h ++ k ++ default [] v) = record_len h) as ->.
  { unfold record_len. rewrite !blen_app, Ek, Ev. unfold blen at 1. rewrite Hl. lia. }
  rewrite (proj2 (N.ltb_ge _ _)) by (unfold record_len; lia). rewrite N.eqb_refl. cbn [negb].
  assert (slice (N.of_nat HEADER_LEN) (N.of_nat HEADER_LEN + hdr_key_len h) (header_encode h ++ k ++ default [] v) = k) as ->.
  { unfold slice. rewrite Nat2N.id, drop_app_length' by done. apply take_app_length'. rewrite Ek. unfold blen. lia. }
  rewrite (assoc_L (++)), drop_app_length' by (rewrite length_app, Hl, Ek; unfold blen; lia).
  unfold h. rewrite record_verify. cbn [negb]. by destruct op.
Qed.

(** ** The log's meaning *)

Definition run_cmd (m : gmap bytes bytes) (c : Command) : gmap bytes bytes :=
  match c with
  | Data bs =>
      match Op_decode bs with
      | Ok (OpPut k v) => <[k := v]> m
      | Ok (OpDelete k) => delete k m
      | Err _ => m
      end
  | Noop | Config _ => m
  end.

(** The key a command writes. *)
Definition cmd_key (c : Command) : option bytes :=
  match c with
  | Data bs => match Op_decode bs with Ok (OpPut k _) | Ok (OpDelete k) => Some k | Err _ => None end
  | Noop | Config _ => None
  end.

(** A command that decodes, to an operation the store takes. *)
Definition cmd_ok (c : Command) : Prop :=
  match c with
  | Data bs => match Op_decode bs with Ok (OpPut k v) => k ≠ [] ∧ fits k v | Ok (OpDelete _) => True | Err _ => False end
  | Noop | Config _ => True
  end.

(** After the first [n] entries of the log. *)
Definition state_at (L : list Command) (n : N) : gmap bytes bytes := foldl run_cmd ∅ (take (N.to_nat n) L).

Definition entry_in (L : list Command) (e : Entry) : Prop :=
  1 ≤ e_index e ∧ L !! N.to_nat (e_index e - 1) = Some (e_command e).

Lemma state_at_step L n c : L !! N.to_nat n = Some c → state_at L (n + 1) = run_cmd (state_at L n) c.
Proof.
  intros Hc. unfold state_at. replace (N.to_nat (n + 1)) with (S (N.to_nat n)) by lia.
  by rewrite (take_S_r _ _ _ Hc), foldl_app.
Qed.

Lemma run_cmd_key m m' c k : cmd_key c = Some k → run_cmd m c !! k = run_cmd m' c !! k.
Proof.
  destruct c as [|bs|ms]; simpl; try done. destruct (Op_decode bs) as [[j v|j]|]; intros [= ->];
    by rewrite ?lookup_insert_eq, ?lookup_delete_eq.
Qed.

Lemma run_cmd_other m c k : cmd_key c ≠ Some k → run_cmd m c !! k = m !! k.
Proof.
  destruct c as [|bs|ms]; simpl; try done. destruct (Op_decode bs) as [[j v|j]|]; intros Hk;
    rewrite ?lookup_insert_ne, ?lookup_delete_ne by congruence; done.
Qed.

Lemma run_cmd_ok m c : map_ok m → cmd_ok c → map_ok (run_cmd m c).
Proof.
  destruct c as [|bs|ms]; simpl; try done. destruct (Op_decode bs) as [[k v|k]|]; intros Hm Hc; [|by apply map_Forall_delete|done].
  by apply map_Forall_insert_2.
Qed.

Lemma state_at_ok L n : Forall cmd_ok L → map_ok (state_at L n).
Proof.
  intros HL. unfold state_at. assert (map_ok ∅) as H0 by apply map_Forall_empty. revert H0. generalize (∅ : gmap bytes bytes).
  assert (Forall cmd_ok (take (N.to_nat n) L)) as Ht by (by apply Forall_take). induction Ht as [|c l Hc Hl IH]; intros m Hm; [done|].
  cbn [foldl]. by apply IH, run_cmd_ok.
Qed.

(** ** Mixtures *)

(** Every key as it was at some index from [i] to [n]. *)
Definition Mixed (L : list Command) (i n : N) (m : gmap bytes bytes) : Prop :=
  ∀ k, ∃ j, i ≤ j ≤ n ∧ m !! k = state_at L j !! k.

Lemma Mixed_refl L n : Mixed L n n (state_at L n).
Proof. intros k. exists n. split; [lia|done]. Qed.

Lemma Mixed_exact L i n m : n ≤ i → Mixed L i n m → m = state_at L i.
Proof. intros Hn HM. apply map_eq. intros k. destruct (HM k) as (j & Hj & ->). by replace j with i by lia. Qed.

Lemma Mixed_weaken L i n i' n' m : i' ≤ i → n ≤ n' → Mixed L i n m → Mixed L i' n' m.
Proof. intros Hi Hn HM k. destruct (HM k) as (j & Hj & E). exists j. split; [lia|done]. Qed.

(** The next command, on any mixture from here on. *)
Lemma Mixed_step L i n m c :
  L !! N.to_nat i = Some c → Mixed L i n m → Mixed L (i + 1) (N.max n (i + 1)) (run_cmd m c).
Proof.
  intros Hc HM k. destruct (decide (cmd_key c = Some k)) as [Hk|Hk].
  - exists (i + 1). split; [lia|]. rewrite (state_at_step L i c) by done. by apply run_cmd_key.
  - rewrite run_cmd_other by done. destruct (HM k) as (j & Hj & E). destruct (decide (j = i)) as [->|Hne].
    + exists (i + 1). split; [lia|]. rewrite (state_at_step L i c) by done. by rewrite run_cmd_other.
    + exists j. split; [lia|done].
Qed.

Lemma Mixed_ok L i n m : Forall cmd_ok L → Mixed L i n m → map_ok m.
Proof. intros HL HM k v Hk. destruct (HM k) as (j & _ & E). rewrite Hk in E. by apply (state_at_ok L j HL k v). Qed.

Lemma Mixed_blend L i n s m ms m' :
  i ≤ s → Mixed L i n m → Mixed L s n ms → Blend m ms m' → Mixed L i n m'.
Proof.
  intros Hs Hm Hms HB k. destruct (HB k) as [E|E]; rewrite E; [|apply Hm].
  destruct (Hms k) as (j & Hj & Ej). exists j. split; [lia|done].
Qed.

(** ** The invariant *)

Section replica.
Context {St : Type} `{SnapshotLaws St} `{!StorageLaws St}.
Implicit Types (r : ReplicatedStore St) (L : list Command).

(** [n] bounds every index whose effect the store may hold. *)
Record RInvFrom (b : list Rec) L (n : N) r : Prop := {
  ri_sound : ∃ m, SoundFrom b (Mixed L (read_applied (rp_applied_file r)) n) r m ∧ Mixed L (rp_applied r) n m;
  ri_file : read_applied (rp_applied_file r) ≤ rp_applied r;
  ri_bound : rp_applied r ≤ n;
  ri_log : n ≤ blen L;
}.

Definition RInv L (n : N) r : Prop := ∃ b, RInvFrom b L n r.

(** The log is one that fits 64-bit indices, of commands the store takes. *)
Definition log_ok L : Prop := Forall cmd_ok L ∧ is_u64 (blen L).

Lemma RInv_mono L n n' r : n ≤ n' → n' ≤ blen L → RInv L n r → RInv L n' r.
Proof.
  intros Hn Hl [b [(m & HS & HM) H2 H3 H4]]. exists b. split; [|done|lia|done].
  exists m. split; [|by apply (Mixed_weaken L (rp_applied r) n)]. eapply SoundFrom_impl; [|done]. intros m'. by apply Mixed_weaken.
Qed.

Lemma RInv_caught_up L n r :
  RInv L n r → n ≤ rp_applied r → Refines (rp_store r) (state_at L (rp_applied r)).
Proof.
  intros [b [(m & HS & HM) H2 H3 H4]] Hn. apply Mixed_exact in HM as <-; [|done]. by eapply SoundFrom_refines.
Qed.

(** Another node, or another flag: the store, the clock and the two indices are the same. *)
Lemma RInvFrom_same b L n r r' :
  rp_store r' = rp_store r → rp_applied r' = rp_applied r → rp_applied_file r' = rp_applied_file r →
  rp_clock r' = rp_clock r → RInvFrom b L n r → RInvFrom b L n r'.
Proof.
  intros E1 E2 E3 E4 [(m & [S1 S2 S3 S4] & HM) H2 H3 H4]. split; rewrite ?E2, ?E3; try done.
  exists m. split; [|done]. split; by rewrite ?E1, ?E4.
Qed.

Ltac same_rest := unfold same_rest in *; cbn in *; destruct_and?; split_and!; congruence.

(** ** Applying an entry *)

Section from.
Variable b : list Rec.

Lemma apply_op_ok P r m op :
  SoundFrom b P r m → match op with OpPut k v => k ≠ [] ∧ fits k v ∧ P (<[k := v]> m) | OpDelete k => P (delete k m) end →
  ∃ r', apply_op op r = (Ok tt, r') ∧
    SoundFrom b P r' match op with OpPut k v => <[k := v]> m | OpDelete k => delete k m end ∧ same_rest r r'.
Proof.
  intros HS. destruct op as [k v|k].
  - intros (Hk & Hf & HP). by apply (replica_put_ok b).
  - intros HP. destruct (replica_delete_ok b P r m k HS HP) as (r' & d & E & HS' & HR). exists r'. split; [|done].
    cbn [apply_op]. unfold mbind, M_bind. by rewrite E.
Qed.

(** The command itself, whatever is done with the result. *)
Lemma apply_command_ok P r m c :
  SoundFrom b P r m → cmd_ok c → P (run_cmd m c) →
  ∃ r', apply_command c r = (Ok tt, r') ∧
    SoundFrom b P r' (run_cmd m c) ∧ same_rest r r'.
Proof.
  intros HS Hc HP. destruct c as [|bs|ms]; [exists r; split_and!; [done..|reflexivity]| |exists r; split_and!; [done..|reflexivity]].
  simpl in Hc, HP. unfold apply_command, mlift, mbind, M_bind. simpl. destruct (Op_decode bs) as [[k v|k]|e]; [| |done].
  - destruct Hc. by apply (apply_op_ok P r m (OpPut k v)).
  - by apply (apply_op_ok P r m (OpDelete k)).
Qed.

Lemma apply_entry_ok L n r e :
  log_ok L → RInvFrom b L n r → entry_in L e → e_index e ≤ rp_applied r + 1 →
  ∃ r', apply_entry e r = (Ok tt, r') ∧ RInvFrom b L (N.max n (e_index e)) r' ∧
    rp_applied r' = N.max (rp_applied r) (e_index e) ∧ same_rest r (rp_set_applied (rp_applied r) r').
Proof.
  intros [HL Hu] HI [He1 He] Hle. assert (e_index e ≤ blen L) as Hlen.
  { apply lookup_lt_Some in He. unfold blen. lia. }
  unfold apply_entry, mbind, M_bind, mget. destruct (N.leb_spec (e_index e) (rp_applied r)) as [Hold|Hnew].
  { exists r. split; [done|]. pose proof (ri_bound _ _ _ _ HI). rewrite !N.max_l by lia. split_and!; [done..|]. by destruct r. }
  assert (e_index e = rp_applied r + 1) as Ei by lia. rewrite Ei, N.add_sub in He.
  destruct HI as [(m & HS & HM) H2 H3 H4]. set (n' := N.max n (rp_applied r + 1)).
  pose proof (Mixed_step L _ n m _ He HM) as HM1.
  destruct (apply_command_ok (Mixed L (read_applied (rp_applied_file r)) n') r m (e_command e)) as (r1 & E1 & HS1 & HR1).
  - eapply SoundFrom_impl; [|exact HS]. intros m'. apply Mixed_weaken; lia.
  - rewrite list.Forall_lookup in HL. by apply (HL _ _ He).
  - eapply Mixed_weaken; [..|exact HM1]; lia.
  - rewrite E1. eexists. split; [done|]. cbn [rp_applied rp_set_applied]. rewrite Ei.
    split_and!; [|lia|clear -HR1; same_rest]. fold n'. pose proof HR1 as (_ & R2 & _ & _ & _ & _ & _ & R8).
    split; cbn [rp_applied rp_set_applied rp_applied_file]; rewrite ?R8; [|lia..].
    exists (run_cmd m (e_command e)). split; [|done].
    destruct HS1 as [S1 S2 S3 S4]. by split.
Qed.

(** A run of entries with no gap before or inside it. *)
Lemma apply_entries_ok L es n r i :
  log_ok L → RInvFrom b L n r → Forall (entry_in L) es → contiguous i es → i ≤ rp_applied r + 1 →
  ∃ r' n', miter apply_entry es r = (Ok tt, r') ∧ RInvFrom b L n' r' ∧
    rp_applied r' = N.max (rp_applied r) (i + blen es - 1) ∧ n' = N.max n (i + blen es - 1) ∧
    same_rest r (rp_set_applied (rp_applied r) r').
Proof.
  intros HL HI Hes. revert n r i HI. induction Hes as [|e es He Hes IH]; intros n r i HI Hc Hi.
  { exists r, n. change (blen (@nil Entry)) with 0. pose proof (ri_bound _ _ _ _ HI).
    split_and!; [done|done|lia|lia|]. by destruct r. }
  assert (e_index e = i) as Ei by (rewrite (Hc 0%nat e) by done; lia).
  destruct (apply_entry_ok L n r e HL HI He) as (r1 & E1 & HI1 & Ha1 & HR1); [lia|].
  destruct (IH _ r1 (i + 1) HI1) as (r2 & n2 & E2 & HI2 & Ha2 & Hn2 & HR2);
    [apply (contiguous_drop i (e :: es) 1 Hc)|lia|].
  destruct He as [He _]. rewrite blen_cons. exists r2, n2.
  split_and!; [cbn [miter]; unfold mbind, M_bind; by rewrite E1|done|lia|lia|].
  clear -HR1 HR2. same_rest.
Qed.
End from.

(** ** The node *)

(** The node's committed entries are the log's, and its snapshot, when it has one, holds what
    the log means at its index, or parts of that from later on. *)
Record node_ok L (n applied : N) (nd : Node St) : Prop := {
  nk_wf : EntryLog_wf (slog nd);
  nk_base : sm_index (el_base (slog nd)) ≤ n_last_applied nd;
  nk_commit : n_commit_index nd ≤ EntryLog_last_index (slog nd);
  nk_taken : n_last_applied nd ≤ N.max applied (sm_index (el_base (slog nd)));
  nk_entries : ∀ i e, i ≤ n_commit_index nd → EntryLog_entry (slog nd) i = Some e → entry_in L e;
  nk_snapshot : sm_index (el_base (slog nd)) ≠ 0 →
    sm_index (el_base (slog nd)) ≤ n ∧
    ∃ ms, snapshot_reader (n_storage nd) = Ok (snapshot_bytes ms) ∧ Mixed L (sm_index (el_base (slog nd))) n ms;
}.

Lemma node_ok_mono L n n' applied applied' nd :
  n ≤ n' → applied ≤ applied' → node_ok L n applied nd → node_ok L n' applied' nd.
Proof.
  intros Hn Ha [N1 N2 N3 N4 N5 N6]. split; [done..|lia|done|]. intros Hb. destruct (N6 Hb) as (Hle & ms & Hr & Hm).
  split; [lia|]. exists ms. split; [done|]. by apply (Mixed_weaken L (sm_index (el_base (slog nd))) n).
Qed.

Lemma contiguous_range a b es : e_index <$> es = range_incl a b → contiguous a es ∧ blen es = b + 1 - a.
Proof.
  intros E. split.
  - intros k e Hk. pose proof (f_equal (λ l, l !! k) E) as El. simpl in El. rewrite list_lookup_fmap, Hk in El. simpl in El.
    symmetry in El. unfold range_incl in El. apply list_lookup_fmap_Some in El as (j & -> & Hj).
    apply lookup_seq in Hj. lia.
  - pose proof (f_equal length E) as El. rewrite length_fmap in El. unfold range_incl in El.
    rewrite length_fmap, length_seq in El. unfold blen. lia.
Qed.

Lemma take_committed_log L n applied nd :
  node_ok L n applied nd →
  let '(es, nd') := take_committed nd in
  Forall (entry_in L) es ∧ contiguous (n_last_applied nd + 1) es ∧
  n_last_applied nd + blen es = N.max (n_last_applied nd) (n_commit_index nd) ∧
  n_storage nd' = n_storage nd ∧ n_commit_index nd' = n_commit_index nd ∧
  n_last_applied nd' = N.max (n_last_applied nd) (n_commit_index nd).
Proof.
  intros [N1 N2 N3 N4 N5 N6]. pose proof (take_committed_ok nd N1 N2 N3) as Ht.
  assert (n_storage (take_committed nd).2 = n_storage nd ∧ n_commit_index (take_committed nd).2 = n_commit_index nd) as [Es Ec]
    by (unfold take_committed; by destruct (_ <? _)).
  destruct (take_committed nd) as [es nd']. destruct Ht as (E & Hin & Hla & _).
  apply contiguous_range in E as Hc. destruct Hc as [Hc Hlen]. split_and!; try done; [|lia].
  apply list.Forall_forall. intros e He. specialize (Hin e He). rewrite law_entry in Hin.
  apply (N5 (e_index e)); [|done]. apply (list_elem_of_fmap_2 e_index) in He. rewrite E in He.
  apply elem_of_range_incl in He. lia.
Qed.

(** ** The claim *)

(** A store that is synced, and the index that says how far it is. *)
Lemma claim_ok L n r m :
  log_ok L → Sound (eq m) r m → Mixed L (rp_applied r) n m → rp_applied r ≤ n → n ≤ blen L →
  RInv L n (rp_set_applied_file (applied_bytes (rp_applied r)) r).
Proof.
  intros [_ Hu] [b [S1 S2 S3 S4]] HM Ha Hn. exists b.
  assert (read_applied (Some (applied_bytes (rp_applied r))) = rp_applied r) as E
    by (apply read_applied_bytes; unfold is_u64 in *; lia).
  split; cbn [rp_applied rp_applied_file rp_set_applied_file]; rewrite ?E; [|done..].
  exists m. split; [|done]. split; cbn [rp_store rp_clock rp_set_applied_file]; try done.
  destruct S1 as (hs0 & hs & HH & Hm & Hb & HS). exists hs0, hs. split_and!; [done..|]. eapply Safe_impl; [|done].
  by intros m' <-.
Qed.

(** What [apply] has written when it comes to the sync. *)
Definition applying (r r1 : ReplicatedStore St) : Prop :=
  ∃ es nd, take_committed (rp_node r) = (es, nd) ∧ miter apply_entry es (rp_set_node nd r) = (Ok tt, r1).

Lemma applying_ok b L n r :
  log_ok L → RInvFrom b L n r → node_ok L n (rp_applied r) (rp_node r) → snapshot_index r ≤ rp_applied r →
  let n' := N.max n (n_commit_index (rp_node r)) in
  ∃ r1, applying r r1 ∧ RInvFrom b L n' r1 ∧ rp_applied r1 = N.max (rp_applied r) (n_commit_index (rp_node r)) ∧
    node_ok L n' (rp_applied r1) (rp_node r1) ∧
    same_rest r (rp_set_node (rp_node r) (rp_set_applied (rp_applied r) r1)) ∧
    n_storage (rp_node r1) = n_storage (rp_node r) ∧ n_commit_index (rp_node r1) = n_commit_index (rp_node r).
Proof.
  intros HL HI HN Hs. cbn zeta. pose proof (take_committed_log _ _ _ _ HN) as Ht.
  assert (snapshot_index r = sm_index (el_base (slog (rp_node r)))) as Eb
    by (unfold snapshot_index, slog; by rewrite law_snapshot_meta).
  destruct (take_committed (rp_node r)) as [es nd] eqn:Et. destruct Ht as (Hes & Hc & Hlen & Est & Eci & Ela).
  pose proof (nk_taken _ _ _ _ HN) as Htk. pose proof (nk_base _ _ _ _ HN) as Hb.
  pose proof (ri_bound _ _ _ _ HI) as Hbd.
  assert (RInvFrom b L n (rp_set_node nd r)) as HI0 by (by apply (RInvFrom_same b L n r)).
  destruct (apply_entries_ok b L es n (rp_set_node nd r) (n_last_applied (rp_node r) + 1) HL HI0 Hes Hc)
    as (r1 & n1 & E1 & HI1 & Ha1 & Hn1 & HR1); [cbn; lia|].
  assert (n1 = N.max n (n_commit_index (rp_node r))) as -> by lia.
  assert (rp_applied r1 = N.max (rp_applied r) (n_commit_index (rp_node r))) as Ea by (rewrite Ha1; cbn; lia).
  assert (rp_node r1 = nd) as End by (destruct HR1 as (E & _); exact E).
  exists r1. split; [by exists es, nd|]. split_and!; [done|done| | |by rewrite End|by rewrite End].
  - rewrite End. destruct HN as [N1 N2 N3 N4 N5 N6]. unfold slog in *. split; unfold slog; rewrite ?Est, ?Eci, ?Ela; [done|lia|done|lia|done|].
    intros Hb0. destruct (N6 Hb0) as (Hle & ms & Hr & Hm). split; [lia|]. exists ms. split; [done|].
    by apply (Mixed_weaken L (sm_index (el_base (st_log (n_storage (rp_node r))))) n); [|lia|].
  - clear -HR1. same_rest.
Qed.

(** Synced, and the index written. *)
Definition claimed r : ReplicatedStore St :=
  rp_set_applied_file (applied_bytes (rp_applied r)) (rp_set_store (store_sync (rp_store r)) r).

Definition same_flags r r' : Prop :=
  rp_snapshot_every r' = rp_snapshot_every r ∧ rp_background r' = rp_background r ∧
  rp_snapshotting r' = rp_snapshotting r ∧ rp_compaction_due r' = rp_compaction_due r ∧ rp_restoring r' = rp_restoring r.

Lemma claimed_ok L n r :
  log_ok L → RInv L n r →
  RInv L n (claimed r) ∧ is_synced (rp_store (claimed r)) = true ∧
  read_applied (rp_applied_file (claimed r)) = rp_applied r ∧
  (replica_sync ;; write_applied (rp_applied r)) r = (Ok tt, claimed r).
Proof.
  intros HL HI. pose proof HI as [b [(m & HS & HM) H2 H3 H4]].
  destruct (replica_sync_ok _ r m (ex_intro _ b HS)) as (r1 & E1 & HS1 & HR1 & Hsy). injection E1 as <-.
  split_and!; [by apply (claim_ok L n (rp_set_store (store_sync (rp_store r)) r) m)|done| |done].
  apply read_applied_bytes. destruct HL as [_ Hu]. unfold is_u64 in *. lia.
Qed.

Lemma apply_committed_ok b L n r :
  log_ok L → RInvFrom b L n r → node_ok L n (rp_applied r) (rp_node r) → snapshot_index r ≤ rp_applied r →
  let n' := N.max n (n_commit_index (rp_node r)) in
  ∃ r1 r', applying r r1 ∧ apply_committed r = (Ok tt, r') ∧ RInvFrom b L n' r1 ∧ RInv L n' r' ∧
    r' = (if rp_applied r <? n_commit_index (rp_node r) then claimed r1 else r1) ∧
    rp_applied r' = N.max (rp_applied r) (n_commit_index (rp_node r)) ∧
    node_ok L n' (rp_applied r') (rp_node r') ∧ (n_storage (rp_node r') = n_storage (rp_node r) ∧ n_commit_index (rp_node r') = n_commit_index (rp_node r)) ∧ same_flags r r' ∧
    rp_applied_file r1 = rp_applied_file r.
Proof.
  intros HL HI HN Hs. cbn zeta. destruct (applying_ok b L n r HL HI HN Hs) as (r1 & Hap & HI1 & Ha1 & HN1 & HR1 & Hst & Hci).
  destruct (claimed_ok L _ r1 HL (ex_intro _ b HI1)) as (HIc & Hsy & Hf & Ec).
  exists r1, (if rp_applied r <? n_commit_index (rp_node r) then claimed r1 else r1). split; [done|].
  assert (same_flags r r1 ∧ rp_applied_file r1 = rp_applied_file r) as [HF EF] by (clear -HR1; unfold same_flags; same_rest).
  assert (apply_committed r = (Ok tt, if rp_applied r <? n_commit_index (rp_node r) then claimed r1 else r1)) as E.
  { destruct Hap as (es & nd & Et & E1). unfold apply_committed, on_node, mbind at 1 2 3 4, M_bind at 1 2 3 4, mget.
    rewrite Et, E1. assert ((rp_applied r <? rp_applied r1) = (rp_applied r <? n_commit_index (rp_node r))) as ->.
    { rewrite Ha1. destruct (N.ltb_spec (rp_applied r) (n_commit_index (rp_node r))); [apply N.ltb_lt|apply N.ltb_ge]; lia. }
    destruct (_ <? _); [exact Ec|done]. }
  split; [exact E|]. split; [done|]. destruct (rp_applied r <? _); split_and!; try done. by exists b.
Qed.
End replica.
