(* ===== verification/ReplicaInline.v ===== *)
(** * Snapshots taken while applying, and the whole of [apply]

    A snapshot of the store is taken, installed and the store compacted, without changing
    what the store means; then [apply] as a whole: catching up with a snapshot, the
    committed entries, and perhaps a snapshot. *)

From S2P Require Import Prelude.
From S2P Require Import RecordFormat.
From S2P Require Import RaftLog.
From S2P Require Import Message.
From S2P Require Import NodeState.
From S2P Require Import Node.
From S2P Require Import Election.
From S2P Require Import Replication.
From S2P Require Import DataLog.
From S2P Require Import Store.
From S2P Require Import StoreIndex.
From S2P Require Import StoreInv.
From S2P Require Import StoreOps.
From S2P Require Import StoreMap.
From S2P Require Import StoreCrash.
From S2P Require Import StoreCompact.
From S2P Require Import StoreGrow.
From S2P Require Import Replicated.
From S2P Require Import ReplicaSnapshot.
From S2P Require Import ReplicaWrites.
From S2P Require Import ReplicaRestore.
From S2P Require Import ReplicaApply.

#[local] Open Scope N_scope.
#[local] Opaque rec_bytes.

(** ** The size of what a log can mean *)

(** What a command's put takes on disk. *)
Definition cmd_size (c : Command) : N :=
  match c with
  | Data bs => match Op_decode bs with Ok (OpPut k v) => entry_len k v | _ => 0 end
  | Noop | Config _ => 0
  end.
Definition log_size (L : list Command) : N := foldr (λ c t, cmd_size c + t) 0 L.

Definition put_by (c : Command) (k v : bytes) : Prop := ∃ bs, c = Data bs ∧ Op_decode bs = Ok (OpPut k v).

(** Every pair was put by some command of the log. *)
Definition from_log (L : list Command) (m : gmap bytes bytes) : Prop :=
  ∀ k v, m !! k = Some v → ∃ c, c ∈ L ∧ put_by c k v.

Definition map_bytes (m : gmap bytes bytes) : N := total (map_imap (λ k v, Some (entry_len k v)) m).

Lemma map_bytes_delete m k v : m !! k = Some v → map_bytes m = entry_len k v + map_bytes (delete k m).
Proof.
  intros Hk. unfold map_bytes. rewrite (total_delete k (entry_len k v)) by (by rewrite map_lookup_imap, Hk).
  do 2 f_equal. apply map_eq. intros j. rewrite map_lookup_imap. destruct (decide (j = k)) as [->|Hne].
  - by rewrite !lookup_delete_eq.
  - by rewrite !lookup_delete_ne, map_lookup_imap by done.
Qed.

Lemma from_log_bytes L m : from_log L m → map_bytes m ≤ log_size L.
Proof.
  revert m. induction L as [|c L IH]; intros m Hm.
  { assert (m = ∅) as ->; [|done]. apply map_empty. intros k. destruct (m !! k) as [v|] eqn:E; [|done].
    by destruct (Hm k v E) as (c & []%not_elem_of_nil & _). }
  cbn [log_size foldr]. fold (log_size L).
  assert ((∃ k v, put_by c k v ∧ m !! k = Some v) ∨ from_log L m) as [(k & v & Hc & Hk)|HL].
  { destruct c as [|bs|ms]; [|destruct (Op_decode bs) as [[k v|k]|e] eqn:Ed|];
      try (right; intros j w Hj; destruct (Hm j w Hj) as (d & [->|Hd]%elem_of_cons & Hp); [|by exists d];
           destruct Hp as (bs' & Eb & Hp); simplify_eq; congruence).
    destruct (decide (m !! k = Some v)) as [Hk|Hk]; [left; exists k, v; split; [by exists bs|done]|right].
    intros j w Hj. destruct (Hm j w Hj) as (d & [->|Hd]%elem_of_cons & Hp); [|by exists d].
    destruct Hp as (bs' & Eb & Hp). simplify_eq. congruence. }
  - rewrite (map_bytes_delete m k v Hk). destruct Hc as (bs & -> & Hd). cbn [cmd_size]. rewrite Hd.
    assert (map_bytes (delete k m) ≤ log_size L); [|lia]. apply IH. intros j w Hj.
    apply lookup_delete_Some in Hj as [Hne Hj]. destruct (Hm j w Hj) as (d & [->|Hin]%elem_of_cons & Hp); [|by exists d].
    destruct Hp as (bs' & Eb & Hp). simplify_eq. congruence.
  - specialize (IH m HL). lia.
Qed.

Lemma state_at_from L n : from_log L (state_at L n).
Proof.
  unfold state_at. generalize (N.to_nat n) as j. intros j.
  assert (∀ l, l ⊆ L → from_log L (foldl run_cmd ∅ l)) as Hl; [|apply Hl; intros c [k [Hk _]%lookup_take_Some]%list_elem_of_lookup; by eapply list_elem_of_lookup_2].
  induction l as [|c l IH] using rev_ind; intros Hs k v.
  { simpl. by rewrite lookup_empty. }
  rewrite foldl_app. simpl. destruct (decide (cmd_key c = Some k)) as [Hk|Hk].
  - intros Hv. exists c. split; [apply Hs; set_solver|]. unfold cmd_key, run_cmd in *.
    destruct c as [|bs|ms]; [done| |done]. exists bs. split; [done|].
    destruct (Op_decode bs) as [[k' v'|k']|]; simplify_eq.
    + rewrite lookup_insert_eq in Hv. congruence.
    + by rewrite lookup_delete_eq in Hv.
  - rewrite run_cmd_other by done. apply IH. set_solver.
Qed.

Lemma Mixed_bytes L i n m : Mixed L i n m → map_bytes m ≤ log_size L.
Proof.
  intros HM. apply from_log_bytes. intros k v Hk. destruct (HM k) as (j & _ & E). rewrite Hk in E.
  by apply (state_at_from L j).
Qed.

(** ** A store that is compacted *)

Lemma compact_flags old_ids s :
  s_restoring (compact old_ids s).2 = s_restoring s ∧ s_compacting (compact old_ids s).2 = s_compacting s.
Proof.
  unfold compact. destruct (_ || _); [done|]. cbn zeta. pose proof (on_writer_same (λ dw, (tt, LogWriter_flush dw)) s) as Hw.
  change (on_writer (λ dw, (tt, LogWriter_flush dw)) s).2 with (writer_flush s) in Hw.
  destruct Hw as (_ & _ & _ & _ & _ & _ & Q7 & Q8 & _). set (s1 := writer_flush s) in *.
  destruct (miter _ _ _) as [[[]|e] [mg dw]]; [|done]. destruct (LogWriter_sync dw) as [d w]. cbn [snd].
  match goal with |- context [foldl _ ?x old_ids] => destruct (remove_files_rest old_ids x) as (_ & _ & _ & R4 & R5 & _) end.
  unfold remove_files in R4, R5. cbn. rewrite R4, R5. done.
Qed.

Section replica.
Context {St : Type} `{SnapshotLaws St} `{!StorageLaws St}.
Implicit Types (r : ReplicatedStore St) (L : list Command).

Lemma Sound_synced r m :
  Refines (rp_store r) m → is_synced (rp_store r) = true → s_restoring (rp_store r) = false →
  s_compacting (rp_store r) = false → (∀ i, is_u64 (rp_clock r i)) → Sound (eq m) r m.
Proof.
  intros HR Hsy H2 H3 H4. destruct (Refines_history _ _ HR) as (hs0 & hs & HH & <-).
  rewrite (synced_all _ _ _ HH Hsy) in HH. exists hs. by apply SoundFrom_synced.
Qed.

Lemma compact_sound P r m old_ids :
  Sound P r m → (∀ id, id ∈ old_ids ↔ id ∈ s_readers (rp_store r)) → is_u64 (map_bytes m) →
  ∃ rep s', compact old_ids (rp_store r) = (Ok rep, s') ∧ Sound (eq m) (rp_set_store s' r) m.
Proof.
  intros [b HS] Hold Hu. pose proof (SoundFrom_refines b P r m HS) as HR. pose proof (proj1 (Refines_counts _ _ HR)) as Hlive.
  pose proof HR as (fs & rs & HI & Hm).
  destruct (compact_ok (rp_store r) fs rs old_ids HI (so_compacting _ _ _ _ HS) (so_restoring _ _ _ _ HS) Hold)
    as (rep & s' & rq & E & HI' & Hc & Hsy & _); [by rewrite Hlive|].
  pose proof (compact_flags old_ids (rp_store r)) as [F1 F2]. rewrite E in F1, F2. cbn [snd] in F1, F2.
  exists rep, s'. split; [done|]. apply Sound_synced; cbn; [|done|rewrite F1; apply HS|rewrite F2; apply HS|apply HS].
  exists [], rq. split; [done|]. unfold contents. rewrite all_recs_files. simpl. rewrite (copies_replay _ _ Hc). done.
Qed.

(** Flushing for a view changes nothing a crash could tell. *)
Lemma view_sound P r m :
  Sound P r m → Sound P (rp_set_store (store_view (rp_store r)).2 r) m.
Proof.
  intros [b [(hs0 & hs & HH & Hm & Hb & HS) H2 H3 H4]]. exists b. pose proof HH as (fs & rs & r0 & HI & _ & _ & _ & ->).
  destruct (handle_grows (rp_store r) fs rs HI H2) as (fs' & rs' & HG).
  destruct (Grown_history _ _ _ _ _ _ _ _ HH HI HG) as (hs0' & HH' & Hp).
  destruct (flush_inv (rp_store r) fs rs HI) as (HI' & _ & _).
  destruct (SInv_unique _ _ _ _ _ HI' (gr_inv _ _ _ _ _ _ HG)) as [<- <-].
  pose proof (on_writer_same (λ dw, (tt, LogWriter_flush dw)) (rp_store r)) as (_ & _ & _ & _ & _ & _ & Q7 & Q8 & _).
  split; [|unfold store_view, writer_flush; cbn [snd rp_store rp_set_store]; congruence..|done].
  exists hs0', (all_recs fs ++ rs). split_and!; [done..|by etrans|done].
Qed.

(** ** The node's side of a snapshot *)

Lemma node_ok_storage L n applied (nd : Node St) st :
  st_log st = slog nd → snapshot_reader st = snapshot_reader (n_storage nd) →
  node_ok L n applied nd → node_ok L n applied (set_storage st nd).
Proof. intros El Er [N1 N2 N3 N4 N5 N6]. split; unfold slog; cbn; rewrite ?El, ?Er; done. Qed.

Lemma compact_last l meta :
  EntryLog_wf l → sm_index (el_base l) < sm_index meta → EntryLog_term_at l (sm_index meta) = Some (sm_term meta) →
  sm_index meta ≤ EntryLog_last_index l →
  EntryLog_last_index (EntryLog_compact l meta).2 = EntryLog_last_index l ∧
  ∀ i e, EntryLog_entry (EntryLog_compact l meta).2 i = Some e → EntryLog_entry l i = Some e.
Proof.
  intros Hwf Hlt Ht Hle. pose proof (EntryLog_compact_wf l meta Hwf) as Hwf'. split.
  - rewrite EntryLog_last_index_len in Hle by done. rewrite !EntryLog_last_index_len by done. revert Hle. unfold EntryLog_compact.
    rewrite (proj2 (N.leb_gt _ _)), bool_decide_true by done. cbn. unfold blen. rewrite length_drop. lia.
  - intros i e. rewrite <-!alog_lookup by done. destruct (alog_compact l meta Hwf Hlt) as (_ & _ & ->).
    rewrite bool_decide_true by done. rewrite map_lookup_filter_Some. by intros [? _].
Qed.

Lemma node_ok_install L n applied (nd : Node St) sink t m :
  node_ok L n applied nd → sink_holds sink (snapshot_bytes m) → sink_meta sink = mkMeta applied t →
  term_at (n_storage nd) applied = Some t → applied ≤ n_last_applied nd → applied ≤ n → Mixed L applied n m →
  sm_index (el_base (slog nd)) < applied →
  node_ok L n applied (set_storage (install_snapshot sink (n_storage nd)).2 nd).
Proof.
  intros HN Hk Em Ht Hla Hn HM Hlt. rewrite law_term_at in Ht. fold (slog nd) in Ht.
  assert (applied ≤ EntryLog_last_index (slog nd)) as Hle.
  { apply (EntryLog_term_at_Some (slog nd) applied (nk_wf _ _ _ _ HN)). by eexists. }
  pose proof (law_install_reader sink _ (n_storage nd) Hk) as Hr. cbn zeta in Hr.
  rewrite !law_snapshot_meta, Em in Hr. fold (slog nd) in Hr. cbn [sm_index] in Hr. specialize (Hr Hlt).
  assert (st_log (install_snapshot sink (n_storage nd)).2 = slog nd ∨
    st_log (install_snapshot sink (n_storage nd)).2 = (EntryLog_compact (slog nd) (mkMeta applied t)).2) as Hlog.
  { destruct (install_snapshot sink (n_storage nd)) as [[[]|e] st] eqn:E; cbn [snd].
    - right. by rewrite <-Em, (law_install_ok _ _ _ E).
    - rewrite <-Em. by apply (law_install_err _ _ _ _ E). }
  assert (el_base (EntryLog_compact (slog nd) (mkMeta applied t)).2 = mkMeta applied t) as Eb by (by apply EntryLog_compact_base).
  destruct Hr as [[Hm Hr]|[Hm Hr]].
  - destruct Hlog as [El|El]; [rewrite El in Hm; rewrite Hm in Hlt; cbn in Hlt; lia|].
    destruct HN as [N1 N2 N3 N4 N5 N6].
    destruct (compact_last (slog nd) (mkMeta applied t) N1 Hlt Ht Hle) as [Elast Hent].
    split; unfold slog in *; cbn in *; rewrite ?El, ?Eb; cbn.
    + by apply EntryLog_compact_wf.
    + done.
    + by rewrite Elast.
    + lia.
    + intros i e Hi He. apply (N5 i); [done|by apply Hent].
    + intros _. split; [done|]. by exists m.
  - apply node_ok_storage; [|done..]. destruct Hlog as [El|El]; [done|]. exfalso.
    rewrite El, Eb in Hm. rewrite <-Hm in Hlt. cbn in Hlt. lia.
Qed.

(** ** Taking one *)

(** The store means the same, the indices and the mode are the same, the node is fine. *)
Record Kept L n m r r' : Prop := {
  kp_sound : ∀ P, Sound P r m → Sound P r' m;
  kp_applied : rp_applied r' = rp_applied r;
  kp_file : rp_applied_file r' = rp_applied_file r;
  kp_background : rp_background r' = rp_background r;
  kp_restoring : rp_restoring r' = rp_restoring r;
  kp_commit : n_commit_index (rp_node r') = n_commit_index (rp_node r);
  kp_node : node_ok L n (rp_applied r) (rp_node r) → node_ok L n (rp_applied r) (rp_node r');
}.

Lemma Kept_refl L n m r : Kept L n m r r.
Proof. by split. Qed.

Lemma Kept_trans L n m r1 r2 r3 : Kept L n m r1 r2 → Kept L n m r2 r3 → Kept L n m r1 r3.
Proof.
  intros [A1 A2 A3 A4 A5 A6 A7] [B1 B2 B3 B4 B5 B6 B7]. split; try congruence; [auto|].
  intros HN. specialize (A7 HN). rewrite A2 in B7. by apply B7.
Qed.

Lemma Sound_same_store P r r' m :
  rp_store r' = rp_store r → rp_clock r' = rp_clock r → Sound P r m → Sound P r' m.
Proof. intros E1 E2 [b [S1 S2 S3 S4]]. exists b. split; by rewrite ?E1, ?E2. Qed.

Lemma Kept_flags L n m r r' :
  rp_node r' = rp_node r → rp_store r' = rp_store r → rp_clock r' = rp_clock r → rp_applied r' = rp_applied r →
  rp_applied_file r' = rp_applied_file r → rp_background r' = rp_background r → rp_restoring r' = rp_restoring r →
  Kept L n m r r'.
Proof. intros E1 E2 E3 E4 E5 E6 E7. split; rewrite ?E1; try done. intros P. by apply Sound_same_store. Qed.

Lemma Kept_RInv L n m r r' :
  Sound (Mixed L (read_applied (rp_applied_file r)) n) r m → Mixed L (rp_applied r) n m → Kept L n m r r' →
  RInv L n r → RInv L n r'.
Proof.
  intros HS HM [K1 K2 K3 K4 K5 K6 K7] [_ [_ H2 H3 H4]]. destruct (K1 _ HS) as [b HS']. exists b.
  split; rewrite ?K2, ?K3; try done. by exists m.
Qed.

(** The job [start_snapshot] hands out, for the store of [r]. *)
Definition job_of_replica r r1 (job : SnapshotJob) : Prop :=
  ∃ t, sink_meta (sj_sink job) = mkMeta (rp_applied r) t ∧ term_at (n_storage (rp_node r1)) (rp_applied r) = Some t ∧
    sj_view job = (store_view (rp_store r)).1 ∧ sink_holds (sj_sink job) [] ∧
    rp_applied r ≤ n_last_applied (rp_node r1).

Lemma start_snapshot_ok L n m r :
  let '(res, r1) := start_snapshot r in
  Kept L n m r r1 ∧ match res with Ok (Some job) => job_of_replica r r1 job | _ => True end.
Proof.
  unfold start_snapshot, mbind, M_bind, mget. destruct (negb (snapshot_due r)); [split; [apply Kept_refl|done]|].
  unfold on_node at 1, begin_compaction.
  destruct (N.leb_spec (rp_applied r) (sm_index (snapshot_meta (n_storage (rp_node r))))) as [Hold|Hnew]; cbn [orb].
  { split; [by apply Kept_flags|done]. }
  destruct (N.ltb_spec (n_last_applied (rp_node r)) (rp_applied r)) as [Hla|Hla]; cbn [orb].
  { split; [by apply Kept_flags|done]. }
  destruct (term_at (n_storage (rp_node r)) (rp_applied r)) as [t|] eqn:Et; [|split; [by apply Kept_flags|done]].
  destruct (new_snapshot _ _ (n_storage (rp_node r))) as [[k|e] st] eqn:En;
    pose proof (law_new_snapshot_log (mkMeta (rp_applied r) t) (Some (members_at (rp_node r) (rp_applied r))) (n_storage (rp_node r))) as El;
    pose proof (law_new_reader (mkMeta (rp_applied r) t) (Some (members_at (rp_node r) (rp_applied r))) (n_storage (rp_node r))) as Er;
    rewrite En in El, Er; cbn [snd] in El, Er.
  2:{ split; [|done]. split; try done; [intros P; by apply Sound_same_store|]. by apply node_ok_storage. }
  destruct (law_new_snapshot_sink _ _ _ _ _ En) as [Em _].
  unfold on_store. pose proof (λ P, view_sound P r m) as Hv. destruct (store_view _) as [v s'] eqn:Ev. cbn in Ev.
  split.
  - split; try done; [|by apply node_ok_storage].
    intros P HS. specialize (Hv P HS). eapply Sound_same_store; [..|exact Hv]; done.
  - unfold job_of_replica. rewrite Ev. exists t. cbn. split_and!; [done| |done|by eapply law_new_holds|done].
    rewrite law_term_at, El, <-law_term_at. done.
Qed.

(** [old_ids] walks the files that are open. *)
Definition walks (old_ids : Store → list N) : Prop := ∀ s id, id ∈ old_ids s ↔ id ∈ s_readers s.

(** A sink that holds the store as it is at the applied index. *)
Definition snapshot_in L n m r (sink : Sink) : Prop :=
  ∃ t, sink_holds sink (snapshot_bytes m) ∧ sink_meta sink = mkMeta (rp_applied r) t ∧
    term_at (n_storage (rp_node r)) (rp_applied r) = Some t ∧ rp_applied r ≤ n_last_applied (rp_node r) ∧
    rp_applied r ≤ n ∧ Mixed L (rp_applied r) n m.

Lemma finish_compaction_ok L n m r sink :
  snapshot_in L n m r sink →
  let '(_, r1) := on_node (finish_compaction sink) r in Kept L n m r r1 ∧ rp_store r1 = rp_store r.
Proof.
  intros (t & Hk & Em & Et & Hla & Hn & HM). unfold on_node, finish_compaction. rewrite Em. cbn [sm_index].
  destruct (N.leb_spec (rp_applied r) (sm_index (snapshot_meta (n_storage (rp_node r))))) as [Hle|Hlt].
  { split; [|done]. by apply Kept_flags; destruct r. }
  assert (node_ok L n (rp_applied r) (rp_node r) →
    node_ok L n (rp_applied r) (set_storage (install_snapshot sink (n_storage (rp_node r))).2 (rp_node r))) as Hnode.
  { intros HN. rewrite law_snapshot_meta in Hlt. by apply (node_ok_install L n _ _ sink t m). }
  destruct (install_snapshot sink _) as [res st]. cbn [snd] in Hnode. split; [|done]. split; try done.
  intros P. by apply Sound_same_store.
Qed.

Lemma finish_snapshot_ok L n m P r old_ids sink :
  walks old_ids → is_u64 (map_bytes m) → Sound P r m → snapshot_in L n m r sink →
  let '(_, r') := finish_snapshot old_ids sink r in Kept L n m r r'.
Proof.
  intros Hold Hu HS Hin. unfold finish_snapshot. unfold mbind at 1, M_bind at 1, mmodify.
  set (r0 := rp_set_snapshotting false r).
  assert (Kept L n m r r0) as K0 by (by apply Kept_flags).
  assert (snapshot_in L n m r0 sink) as Hin0 by exact Hin. clearbody r0. pose proof (kp_sound _ _ _ _ _ K0 P HS) as HS0.
  pose proof (finish_compaction_ok L n m r0 sink Hin0) as Hf. unfold mbind at 1, M_bind at 1.
  destruct (on_node (finish_compaction sink) r0) as [[b|e] r1]; destruct Hf as [K1 _]; cycle 1.
  { by eapply Kept_trans. }
  pose proof (Kept_trans _ _ _ _ _ _ K0 K1) as K2. clear K1 K0. pose proof (kp_sound _ _ _ _ _ K2 P HS) as HS1.
  unfold mbind at 1, M_bind at 1, mget. destruct (b && _); cbn [mwhen]; [|done].
  destruct (rp_background r1); [eapply Kept_trans; [done|]; by apply Kept_flags|].
  destruct (compact_sound P r1 m (old_ids (rp_store r1)) HS1 (Hold _) Hu) as (rep & s' & E & HSc).
  unfold on_store, mbind, M_bind. rewrite E. eapply Kept_trans; [done|]. split; try done.
  intros Q HQ. eapply Sound_impl; [|exact HSc]. intros m' <-. by eapply Sound_now.
Qed.

Lemma sink_writes_meta l (k : Sink) :
  sink_meta (miter (λ x, sink_write_all (rec_bytes (mkRec x.1 (Some x.2) 0))) l k).2 = sink_meta k.
Proof.
  revert k. induction l as [|x l IH]; intros k; [done|]. cbn [miter]. unfold mbind, M_bind.
  pose proof (law_sink_write_meta (rec_bytes (mkRec x.1 (Some x.2) 0)) k) as E.
  destruct (sink_write_all _ k) as [[[]|e] k']; cbn [snd] in *; [by rewrite IH|done].
Qed.

Lemma job_snapshot L n m P r r1 job sink :
  Sound P r m → map_ok m → Mixed L (rp_applied r) n m → rp_applied r ≤ n → Kept L n m r r1 →
  job_of_replica r r1 job → SnapshotJob_run job = Ok sink → snapshot_in L n m r1 sink.
Proof.
  intros HS Hok HM Hn K (t & Em & Et & Ev & Hk & Hla) E. unfold snapshot_in. rewrite (kp_applied _ _ _ _ _ K).
  destruct (Sound_refines P r m HS) as (fs & rs & HI & <-). destruct job as [view k]. cbn [sj_view sj_sink] in *. subst view.
  exists t. split_and!; try done; [by eapply job_holds|].
  unfold SnapshotJob_run in E. cbn [sj_view sj_sink] in E. rewrite (write_snapshot_pairs _ fs rs) in E by done.
  pose proof (sink_writes_meta (snapshot_pairs (contents (rp_store r) fs rs)) k) as Ek.
  destruct (miter _ _ k) as [[[]|e] k']; [|done]. injection E as <-. by rewrite <-Em.
Qed.

Lemma snapshot_inline_ok L n m P r old_ids :
  walks old_ids → map_ok m → is_u64 (map_bytes m) → Sound P r m → Mixed L (rp_applied r) n m → rp_applied r ≤ n →
  let '(_, r') := snapshot_inline old_ids r in Kept L n m r r'.
Proof.
  intros Hold Hok Hu HS HM Hn. unfold snapshot_inline. unfold mbind at 1, M_bind at 1.
  pose proof (start_snapshot_ok L n m r) as Hs. destruct (start_snapshot r) as [[[job|]|e] r1]; destruct Hs as [K Hj]; [|done..].
  unfold mbind, M_bind, mlift. destruct (SnapshotJob_run job) as [sink|e] eqn:E; [|done].
  pose proof (job_snapshot L n m P r r1 job sink HS Hok HM Hn K Hj E) as Hin.
  pose proof (finish_snapshot_ok L n m P r1 old_ids sink Hold Hu (kp_sound _ _ _ _ _ K P HS) Hin) as Hf.
  destruct (finish_snapshot old_ids sink r1) as [res r2]. by eapply Kept_trans.
Qed.

(** ** The whole of [apply] *)

Lemma snapshot_index_base r : snapshot_index r = sm_index (el_base (slog (rp_node r))).
Proof. unfold snapshot_index, slog. by rewrite law_snapshot_meta. Qed.

Lemma restore_inv b L n r :
  log_ok L → RInvFrom b L n r → node_ok L n (rp_applied r) (rp_node r) → rp_applied r < snapshot_index r →
  ∃ r1 r', restore_walk (restore_fuel r) r = (Ok tt, r1) ∧ replica_restore r = (Ok tt, r') ∧
    r' = claimed (rp_set_applied (snapshot_index r) r1) ∧ same_rest r r1 ∧ RInvFrom b L n r1 ∧ RInv L n r' ∧
    rp_applied r' = snapshot_index r ∧ node_ok L n (rp_applied r') (rp_node r').
Proof.
  intros HL HI HN Hlt. pose proof HI as [(m & HS & HM) H2 H3 H4]. pose proof (snapshot_index_base r) as Eb.
  destruct (nk_snapshot _ _ _ _ HN) as (Hn & ms & Hr & Hms); [lia|]. rewrite <-Eb in *.
  assert (map_ok ms) as Hok by (eapply Mixed_ok; [apply HL|done]).
  destruct (replica_restore_ok b (Mixed L (read_applied (rp_applied_file r)) n) r m ms) as (r1 & r' & E & E1 & HS1 & HR & -> & HS' & _);
    [|done..|].
  { intros m' HB. eapply (Mixed_blend L _ n (snapshot_index r)); [| |exact Hms|exact HB]; [lia|].
    by apply (Mixed_weaken L (rp_applied r) n). }
  pose proof HR as (R1 & R2 & _ & _ & _ & _ & _ & R8).
  eexists r1, _. split; [done|]. split; [done|]. split; [done|]. split; [done|]. split_and!; [| |done|].
  - split; rewrite ?R2, ?R8; [|done..]. exists ms. split; [done|]. apply (Mixed_weaken L (snapshot_index r) n); [lia|done|done].
  - apply (claim_ok L n (rp_set_applied (snapshot_index r) (rp_set_store (store_sync (rp_store r1)) r1)) ms); [done| |done|done|done].
    eapply Sound_same_store; [..|exact HS']; done.
  - cbn. rewrite R1. eapply node_ok_mono; [..|exact HN]; [done|lia].
Qed.

Definition log_fits L : Prop := log_ok L ∧ is_u64 (log_size L).

Definition caught_up r : N := N.max (N.max (rp_applied r) (snapshot_index r)) (n_commit_index (rp_node r)).

(** After [apply], whatever came of the snapshot it may have taken: everything committed is
    in the store. *)
Lemma replica_apply_ok L n r old_ids :
  log_fits L → walks old_ids → RInv L n r → node_ok L n (rp_applied r) (rp_node r) →
  (rp_background r = true → snapshot_index r ≤ rp_applied r) →
  let n' := N.max n (n_commit_index (rp_node r)) in
  let '(res, r') := replica_apply old_ids r in
  RInv L n' r' ∧ node_ok L n' (rp_applied r') (rp_node r') ∧ rp_applied r' = caught_up r ∧
  n_commit_index (rp_node r') = n_commit_index (rp_node r) ∧ (rp_background r' = rp_background r ∧ rp_restoring r' = rp_restoring r) ∧
  (rp_background r = true → res = Ok tt ∧
    (rp_applied r < rp_applied r' → is_synced (rp_store r') = true ∧ read_applied (rp_applied_file r') = rp_applied r')).
Proof.
  intros [HL Hsz] Hold [b HI] HN Hbg. cbn zeta. unfold replica_apply. unfold mbind at 1, M_bind at 1, mget.
  assert (((rp_applied r <? snapshot_index r) && rp_background r) = false) as ->.
  { destruct (rp_background r); [|by rewrite andb_false_r]. rewrite (proj2 (N.ltb_ge _ _)); [done|by apply Hbg]. }
  assert (∃ r1, mwhen (rp_applied r <? snapshot_index r) replica_restore r = (Ok tt, r1) ∧ RInv L n r1 ∧
    rp_applied r1 = N.max (rp_applied r) (snapshot_index r) ∧ node_ok L n (rp_applied r1) (rp_node r1) ∧
    rp_node r1 = rp_node r ∧ (rp_background r1 = rp_background r ∧ rp_restoring r1 = rp_restoring r) ∧
    (rp_background r = true → r1 = r))
    as (r1 & E1 & [b1 HI1] & Ha1 & HN1 & Hnd & [Hb1 Hr1] & Hid).
  { destruct (N.ltb_spec (rp_applied r) (snapshot_index r)) as [Hlt|Hge]; cbn [mwhen].
    - destruct (restore_inv b L n r HL HI HN Hlt) as (r0 & r1 & _ & E & -> & HR & _ & HI1 & Ha & HN1).
      destruct HR as (R1 & _ & _ & R4 & _ & _ & R7 & _). eexists. split_and!; [done..|cbn; lia|done|done|done|done|]. intros Hb. specialize (Hbg Hb). lia.
    - exists r. split_and!; [done|by exists b|lia|done..]. }
  unfold mbind at 1, M_bind at 1. rewrite E1.
  assert (snapshot_index r1 ≤ rp_applied r1) as Hs1 by (unfold snapshot_index in *; rewrite Hnd; lia).
  destruct (apply_committed_ok b1 L n r1 HL HI1 HN1 Hs1) as (r2 & r3 & _ & E3 & HI2 & HI3 & Er3 & Ha3 & HN3 & (Est & Eci) & HF & _).
  unfold mbind, M_bind. rewrite E3. rewrite Hnd in *.
  assert (rp_applied r3 = caught_up r) as Ea by (unfold caught_up; lia).
  assert (rp_background r3 = rp_background r ∧ rp_restoring r3 = rp_restoring r) as [Eb Er]
    by (destruct HF as (_ & F & _ & _ & F5); split; congruence).
  destruct (rp_background r) eqn:Ebg; cbn [negb mwhen].
  - split_and!; [done..| |done|done|].
    + by rewrite Eci.
    + intros _. split; [done|]. intros Hlt. rewrite (Hid eq_refl) in *.
      rewrite (proj2 (N.ltb_lt _ _)) in Er3 by lia.
      destruct (claimed_ok L _ r2 HL (ex_intro _ _ HI2)) as (_ & Hsy & Hf & _). rewrite Er3. by rewrite Hsy, Hf.
  - pose proof HI3 as [b3 [(m & HS3 & HM3) H2 H3 H4]].
    assert (map_ok m) as Hok by (eapply Mixed_ok; [apply HL|done]).
    assert (is_u64 (map_bytes m)) as Hu by (unfold is_u64 in *; pose proof (Mixed_bytes _ _ _ _ HM3); lia).
    pose proof (snapshot_inline_ok L _ m _ r3 old_ids Hold Hok Hu (ex_intro _ b3 HS3) HM3 H3) as K.
    destruct (snapshot_inline old_ids r3) as [res r4]. split_and!.
    + eapply Kept_RInv; [by exists b3|done..].
    + rewrite (kp_applied _ _ _ _ _ K). by apply (kp_node _ _ _ _ _ K).
    + by rewrite (kp_applied _ _ _ _ _ K).
    + rewrite (kp_commit _ _ _ _ _ K). by rewrite Eci.
    + by rewrite (kp_background _ _ _ _ _ K).
    + by rewrite (kp_restoring _ _ _ _ _ K).
    + done.
Qed.
End replica.
