(* ===== verification/ReplicaLife.v ===== *)
(** * A replica over its whole life

    Applying, crashing anywhere in the middle of it, restarting on what is left: the store
    always holds what the log means, or a mixture that applying the log again makes exact. *)

From S2P Require Import Prelude.
From S2P Require Import RecordFormat.
From S2P Require Import RaftLog.
From S2P Require Import Message.
From S2P Require Import NodeState.
From S2P Require Import Node.
From S2P Require Import Election.
From S2P Require Import Replication.
From S2P Require Import DataLog.
From S2P Require Import Store.
From S2P Require Import StoreIndex.
From S2P Require Import StoreInv.
From S2P Require Import StoreOps.
From S2P Require Import StoreMap.
From S2P Require Import StoreOpen.
From S2P Require Import StoreCrash.
From S2P Require Import StoreCompact.
From S2P Require Import StoreKill.
From S2P Require Import StoreGrow.
From S2P Require Import Replicated.
From S2P Require Import ReplicaSnapshot.
From S2P Require Import ReplicaWrites.
From S2P Require Import ReplicaRestore.
From S2P Require Import ReplicaApply.
From S2P Require Import ReplicaInline.

#[local] Open Scope N_scope.
#[local] Opaque rec_bytes.

(** ** Where a crash finds the store *)

Lemma History_unique2 s hs0 hs h0 h : History s hs0 hs → History s h0 h → hs0 = h0 ∧ hs = h.
Proof.
  intros (fs & rs & r0 & HI & P0 & S0 & -> & ->) (fs' & rs' & r0' & HI' & P0' & S0' & -> & ->).
  destruct (SInv_unique s fs rs fs' rs' HI HI') as [-> ->]. split; [|done]. f_equal.
  apply (anti_symm prefix); apply (prefix_by_len _ _ rs'); (done || lia).
Qed.

(** [t] is a store [s] passes through while it is written to, on its way to [s']: it has
    appended part of what [s'] has, and knows at least what [s] did to be on the disk. *)
Definition part_way (s s' t : Store) : Prop :=
  ∃ hs0 hs h0 h t0 t1, History s hs0 hs ∧ History s' h0 h ∧ History t t0 t1 ∧ hs0 `prefix_of` t0 ∧ t1 `prefix_of` h.

(** The directory opens, and means a mixture from the recorded index on. *)
Definition Reopens (L : list Command) (n : N) (opts : Options) (d : Dir) (file : option bytes) : Prop :=
  ∃ s' hs, open_with opts d = (Ok s', s_dir s') ∧ History s' hs hs ∧
    Mixed L (read_applied file) n (replay hs) ∧ s_restoring s' = false ∧ s_compacting s' = false.

(** It does whatever is left of [t]. *)
Definition Recoverable (L : list Command) (n : N) (t : Store) (file : option bytes) : Prop :=
  ∀ c opts, may_crash_at c t → is_u64 (o_max_file_bytes opts) → Reopens L n opts (crash c t) file.

Lemma Reopens_mono L n n' opts d file : n ≤ n' → Reopens L n opts d file → Reopens L n' opts d file.
Proof.
  intros Hn (s' & hs & E & HH & HM & F1 & F2). exists s', hs. split_and!; try done. by apply (Mixed_weaken L (read_applied file) n).
Qed.

Lemma at_rest_reopens L n opts d file s' m :
  open_with opts d = (Ok s', s_dir s') → Refines s' m → at_rest s' → Mixed L (read_applied file) n m → Reopens L n opts d file.
Proof.
  intros E HR (F1 & F2 & F3) HM. destruct (Refines_history _ _ HR) as (hs0 & hs & HH & <-).
  rewrite (synced_all _ _ _ HH F3) in HH. by exists s', hs.
Qed.

Lemma Safe_recoverable L n t file b t0 t1 h :
  History t t0 t1 → b `prefix_of` t0 → t1 `prefix_of` h → Safe (Mixed L (read_applied file) n) b h → Recoverable L n t file.
Proof.
  intros HH Hb Ht HS c opts Hc Hmax.
  destruct (crash_open t t0 t1 c opts HH Hc Hmax) as (s' & hs' & E & HH' & H0 & H1 & Hr & Hcm & _).
  exists s', hs'. split_and!; try done. apply HS; by etrans.
Qed.

Section replica.
Context {St : Type} `{SnapshotLaws St} `{!StorageLaws St}.
Implicit Types (r : ReplicatedStore St) (L : list Command).

Lemma RInv_recoverable L n r : RInv L n r → Recoverable L n (rp_store r) (rp_applied_file r).
Proof.
  intros [b [(m & HS & _) _ _ _]]. destruct HS as [(hs0 & hs & HH & _ & Hb & HS) _ _ _].
  by apply (Safe_recoverable L n _ _ b hs0 hs hs).
Qed.

Lemma part_way_recoverable b L n n' r r1 t :
  RInvFrom b L n r → RInvFrom b L n' r1 → rp_applied_file r1 = rp_applied_file r →
  part_way (rp_store r) (rp_store r1) t → Recoverable L n' t (rp_applied_file r).
Proof.
  intros [(m & HS & _) _ _ _] [(m1 & HS1 & _) _ _ _] Ef (hs0 & hs & h0 & h & t0 & t1 & G1 & G2 & G3 & G4 & G5).
  destruct HS as [(k0 & k & HH & _ & Hb & _) _ _ _]. destruct HS1 as [(k0' & k' & HH' & _ & _ & HSf) _ _ _].
  destruct (History_unique2 _ _ _ _ _ HH G1) as [-> ->]. destruct (History_unique2 _ _ _ _ _ HH' G2) as [-> ->].
  apply (Safe_recoverable L n' t _ b t0 t1 h); [done|by etrans|done|]. by rewrite Ef in HSf.
Qed.

(** The replica once [apply] has applied what is committed, where it goes on to take a snapshot. *)
Definition comes_to_snapshot r r2 : Prop :=
  rp_background r = false ∧ ∃ r0, mwhen (rp_applied r <? snapshot_index r) replica_restore r = (Ok tt, r0) ∧ apply_committed r0 = (Ok tt, r2).

(** And where the snapshot is in place and it goes on to compact the store. *)
Definition comes_to_compact r r4 : Prop :=
  ∃ r2 job r3 sink, comes_to_snapshot r r2 ∧ start_snapshot r2 = (Ok (Some job), r3) ∧ SnapshotJob_run job = Ok sink ∧
    on_node (finish_compaction sink) (rp_set_snapshotting false r3) = (Ok true, r4) ∧ fragmented (store_stats (rp_store r4)) = true.

(** The store and the index a crash finds while [apply] runs on [r]; the store is being compacted
    at none of these moments. *)
Inductive stopped (old_ids : Store → list N) r : Store → option bytes → Prop :=
  | stop_walking r1 t :
      rp_applied r < snapshot_index r → restore_walk (restore_fuel r) r = (Ok tt, r1) →
      part_way (rp_store r) (rp_store r1) t → stopped old_ids r t (rp_applied_file r)
  | stop_restored r1 :
      rp_applied r < snapshot_index r → restore_walk (restore_fuel r) r = (Ok tt, r1) →
      stopped old_ids r (store_sync (rp_store r1)) (rp_applied_file r)
  | stop_applying r0 r1 t :
      mwhen (rp_applied r <? snapshot_index r) replica_restore r = (Ok tt, r0) → applying r0 r1 →
      part_way (rp_store r0) (rp_store r1) t → stopped old_ids r t (rp_applied_file r0)
  | stop_synced r0 r1 :
      mwhen (rp_applied r <? snapshot_index r) replica_restore r = (Ok tt, r0) → applying r0 r1 →
      stopped old_ids r (store_sync (rp_store r1)) (rp_applied_file r0)
  | stop_snapshot r2 res r3 :
      comes_to_snapshot r r2 → start_snapshot r2 = (res, r3) → stopped old_ids r (rp_store r3) (rp_applied_file r3)
  | stop_after res r' :
      replica_apply old_ids r = (res, r') → stopped old_ids r (rp_store r') (rp_applied_file r').

(** The directory and the index left behind when the process dies in [apply]: of a store stopped as
    above, cut anywhere past what is synced; of one killed while it is being compacted, the merged file
    cut anywhere, or complete and some of the originals deleted, [ordered] saying which. *)
Inductive left_by (ordered : list N → list N → Prop) (old_ids : Store → list N) r : Dir → option bytes → Prop :=
  | left_store t file c : stopped old_ids r t file → may_crash_at c t → left_by ordered old_ids r (crash c t) file
  | left_merging r4 n :
      comes_to_compact r r4 → left_by ordered old_ids r (killed_merging (old_ids (rp_store r4)) n (rp_store r4)) (rp_applied_file r4)
  | left_deleting r4 j hint_gone :
      comes_to_compact r r4 → ordered (take j (old_ids (rp_store r4))) (old_ids (rp_store r4)) →
      left_by ordered old_ids r (killed_deleting (old_ids (rp_store r4)) j hint_gone (rp_store r4)) (rp_applied_file r4).

Lemma synced_recoverable L n r : RInv L n r → Recoverable L n (store_sync (rp_store r)) (rp_applied_file r).
Proof.
  intros [b [(m & HS & _) _ _ _]]. destruct (replica_sync_ok _ r m (ex_intro _ b HS)) as (r1 & E & HS1 & HR & _).
  injection E as <-. destruct HS1 as [b' [(hs0 & hs & HH & Em & Hb & HSf) _ _ _]].
  apply (Safe_recoverable L n _ _ b' hs0 hs hs); [done..|]. eapply Safe_impl; [|exact HSf]. intros m' <-.
  by apply (Sound_now _ r), (ex_intro _ b HS).
Qed.

(** The replica [apply] catches up first, when a snapshot is ahead. *)
Lemma caught_up_inv L n r r0 :
  log_ok L → RInv L n r → node_ok L n (rp_applied r) (rp_node r) →
  mwhen (rp_applied r <? snapshot_index r) replica_restore r = (Ok tt, r0) →
  RInv L n r0 ∧ node_ok L n (rp_applied r0) (rp_node r0) ∧ snapshot_index r0 ≤ rp_applied r0 ∧ rp_node r0 = rp_node r.
Proof.
  intros HL HI HN. destruct (N.ltb_spec (rp_applied r) (snapshot_index r)) as [Hlt|Hge]; cbn [mwhen].
  - destruct HI as [b HI]. destruct (restore_inv b L n r HL HI HN Hlt) as (r1 & r' & _ & E & -> & HR & _ & HI' & Ha & HN').
    rewrite E. intros [= <-]. destruct HR as (R1 & _). split_and!; try done. rewrite Ha. unfold snapshot_index. cbn. by rewrite R1.
  - intros [= <-]. done.
Qed.

(** What is committed is in the log. *)
Lemma commit_in_log L n r :
  RInv L n r → node_ok L n (rp_applied r) (rp_node r) → N.max n (n_commit_index (rp_node r)) ≤ blen L.
Proof.
  intros [b HI] [N1 N2 N3 N4 N5 N6]. pose proof (ri_log _ _ _ _ HI) as Hn. pose proof (ri_bound _ _ _ _ HI) as Ha.
  destruct (N.le_gt_cases (n_commit_index (rp_node r)) (sm_index (el_base (slog (rp_node r))))) as [Hle|Hgt].
  - destruct (decide (sm_index (el_base (slog (rp_node r))) = 0)) as [E|E]; [lia|]. destruct (N6 E) as [? _]. lia.
  - destruct (EntryLog_entry_is_Some (slog (rp_node r)) (n_commit_index (rp_node r)) N1) as [e He]; [lia|].
    apply EntryLog_entry_Some in He as Hi; [|done]. destruct (N5 _ e (N.le_refl _) He) as [H1 Hl%lookup_lt_Some].
    unfold blen in *. lia.
Qed.

(** In the background mode, with a snapshot ahead, nothing is applied. *)
Lemma replica_apply_inv L n r old_ids :
  log_fits L → walks old_ids → RInv L n r → node_ok L n (rp_applied r) (rp_node r) →
  let n' := N.max n (n_commit_index (rp_node r)) in
  let '(res, r') := replica_apply old_ids r in RInv L n' r' ∧ node_ok L n' (rp_applied r') (rp_node r').
Proof.
  intros HL Hold HI HN. cbn zeta. pose proof (commit_in_log L n r HI HN) as Hn'.
  destruct (decide (rp_background r = true ∧ rp_applied r < snapshot_index r)) as [[Hb Hlt]|Hno].
  - unfold replica_apply, mbind, M_bind, mget. rewrite Hb, (proj2 (N.ltb_lt _ _)) by done. cbn [andb].
    split; [by apply (RInv_mono L n); [lia|..]|eapply node_ok_mono; [..|exact HN]; [lia|done]].
  - pose proof (replica_apply_ok L n r old_ids HL Hold HI HN) as Ha. cbn zeta in Ha.
    destruct (replica_apply old_ids r) as [res r']. destruct Ha as (H1 & H2 & _); [|done].
    intros Hb. destruct (N.le_gt_cases (snapshot_index r) (rp_applied r)); [done|]. exfalso. by apply Hno.
Qed.

Lemma Recoverable_mono L n n' t file : n ≤ n' → Recoverable L n t file → Recoverable L n' t file.
Proof. intros Hn HR c opts Hc Hmax. by eapply Reopens_mono, HR. Qed.

Lemma comes_to_snapshot_inv L n r r2 :
  log_fits L → RInv L n r → node_ok L n (rp_applied r) (rp_node r) → comes_to_snapshot r r2 →
  RInv L (N.max n (n_commit_index (rp_node r))) r2.
Proof.
  intros [HL _] HI HN (_ & r0 & E & E2). destruct (caught_up_inv L n r r0 HL HI HN E) as ([b0 HI0] & HN0 & Hs0 & End).
  destruct (apply_committed_ok b0 L n r0 HL HI0 HN0 Hs0) as (r1 & r2' & _ & E2' & _ & HI2 & _). rewrite E2 in E2'. injection E2' as <-.
  by rewrite End in HI2.
Qed.

(** What a snapshot is taken of fits. *)
Lemma RInv_map L n r :
  log_fits L → RInv L n r →
  ∃ P m, Sound P r m ∧ Sound (Mixed L (read_applied (rp_applied_file r)) n) r m ∧ Mixed L (rp_applied r) n m ∧ map_ok m ∧ is_u64 (map_bytes m) ∧
    rp_applied r ≤ n.
Proof.
  intros [HL Hsz] [b [(m & HS & HM) H2 H3 H4]]. eexists _, m. split_and!; [by exists b|by exists b|done| | |done].
  - eapply Mixed_ok; [apply HL|done].
  - unfold is_u64 in *. pose proof (Mixed_bytes _ _ _ _ HM). lia.
Qed.

Lemma comes_to_compact_inv L n r r4 :
  log_fits L → RInv L n r → node_ok L n (rp_applied r) (rp_node r) → comes_to_compact r r4 →
  RInv L (N.max n (n_commit_index (rp_node r))) r4.
Proof.
  intros HL HI HN (r2 & job & r3 & sink & Hc & E3 & Ej & E4 & _). pose proof (comes_to_snapshot_inv L n r r2 HL HI HN Hc) as HI2.
  destruct (RInv_map _ _ _ HL HI2) as (P & m & HS & HS' & HM & Hok & Hu & Hn).
  pose proof (start_snapshot_ok L (N.max n (n_commit_index (rp_node r))) m r2) as Hs. rewrite E3 in Hs. destruct Hs as [K Hj].
  pose proof (job_snapshot _ _ m P r2 r3 job sink HS Hok HM Hn K Hj Ej) as Hin.
  pose proof (finish_compaction_ok _ _ m (rp_set_snapshotting false r3) sink Hin) as Hf. rewrite E4 in Hf. destruct Hf as [K1 _].
  eapply Kept_RInv; [exact HS'|exact HM| |exact HI2]. eapply Kept_trans; [exact K|]. eapply Kept_trans; [|exact K1]. by apply Kept_flags.
Qed.

(** Killed while the store is being compacted. *)
Lemma killed_reopens L n r old_ids opts :
  log_fits L → walks old_ids → RInv L n r → is_u64 (o_max_file_bytes opts) →
  (∀ k, Reopens L n opts (killed_merging (old_ids (rp_store r)) k (rp_store r)) (rp_applied_file r)) ∧
  ∀ j hint_gone, ∃ s' m m', open_with opts (killed_deleting (old_ids (rp_store r)) j hint_gone (rp_store r)) = (Ok s', s_dir s') ∧
    Refines s' m' ∧ Mixed L (read_applied (rp_applied_file r)) n m ∧ (∀ k, m' !! k = m !! k ∨ m !! k = None) ∧
    (oldest_first (take j (old_ids (rp_store r))) (old_ids (rp_store r)) →
      Reopens L n opts (killed_deleting (old_ids (rp_store r)) j hint_gone (rp_store r)) (rp_applied_file r)).
Proof.
  intros HL Hold HI Hmax. destruct (RInv_map _ _ _ HL HI) as (P & m & HS & _ & HM & _ & Hu & Hn). destruct HI as [b [_ Hf _ _]].
  assert (Mixed L (read_applied (rp_applied_file r)) n m) as HM' by by apply (Mixed_weaken L (rp_applied r) n).
  pose proof (Sound_refines _ _ _ HS) as HR. pose proof (proj1 (Refines_counts _ _ HR)) as Hlive. fold (map_bytes m) in Hlive. rewrite <-Hlive in Hu.
  destruct HR as (fs & rs & HIs & Em). unfold contents in Em. rewrite all_recs_files in Em. split.
  - intros k. destruct (killed_merging_ok (rp_store r) fs rs _ opts HIs (Hold _) Hu Hmax k) as (s' & E & HR & Hrest). rewrite Em in HR.
    by eapply at_rest_reopens.
  - intros j g. destruct (killed_deleting_ok (rp_store r) fs rs _ opts HIs (Hold _) Hu Hmax j g) as (s' & m' & E & HR & Hret & Ho & Hrest).
    rewrite Em in Hret, Ho. exists s', m, m'. split_and!; [done|done|done| |].
    + intros k. destruct (Hret k) as [?|[? _]]; auto.
    + intros Hord. rewrite (Ho Hord) in HR. by eapply at_rest_reopens.
Qed.

Lemma stopped_recoverable L n r old_ids t file :
  log_fits L → walks old_ids → RInv L n r → node_ok L n (rp_applied r) (rp_node r) → stopped old_ids r t file →
  Recoverable L (N.max n (n_commit_index (rp_node r))) t file ∧ read_applied file ≤ N.max n (n_commit_index (rp_node r)).
Proof.
  intros HL Hold HI HN Hst. pose proof HL as [HL0 _].
  assert (∀ r0, RInv L n r0 → read_applied (rp_applied_file r0) ≤ n) as Hfile.
  { intros r0 [b HI0]. pose proof (ri_file _ _ _ _ HI0). pose proof (ri_bound _ _ _ _ HI0). lia. }
  destruct Hst as [r1 t Hlt E Hp|r1 Hlt E|r0 r1 t E Ha Hp|r0 r1 E Ha|r2 res r3 Hc E|res r' E].
  - pose proof (Hfile r HI). destruct HI as [b HI]. split; [|lia].
    destruct (restore_inv b L n r HL0 HI HN Hlt) as (r2 & _ & E2 & _ & _ & HR & HI1 & _). rewrite E in E2. injection E2 as <-.
    apply (Recoverable_mono L n); [lia|]. eapply (part_way_recoverable b); [done..| |done]. by destruct HR as (_ & _ & _ & _ & _ & _ & _ & ?).
  - pose proof (Hfile r HI). destruct HI as [b HI]. split; [|lia].
    destruct (restore_inv b L n r HL0 HI HN Hlt) as (r2 & _ & E2 & _ & _ & HR & HI1 & _). rewrite E in E2. injection E2 as <-.
    apply (Recoverable_mono L n); [lia|]. destruct HR as (_ & _ & _ & _ & _ & _ & _ & <-).
    apply synced_recoverable. by exists b.
  - destruct (caught_up_inv L n r r0 HL0 HI HN E) as (HI0 & HN0 & Hs0 & End). pose proof (Hfile r0 HI0). split; [|lia].
    destruct HI0 as [b HI0]. destruct (applying_ok b L n r0 HL0 HI0 HN0 Hs0) as (r2 & Ha2 & HI2 & _ & _ & HR & _). rewrite End in *.
    assert (r2 = r1) as ->. { destruct Ha as (es & nd & Et & E1), Ha2 as (es' & nd' & Et' & E1'). congruence. }
    eapply (part_way_recoverable b); [done..| |done]. by destruct HR as (_ & _ & _ & _ & _ & _ & _ & ?).
  - destruct (caught_up_inv L n r r0 HL0 HI HN E) as (HI0 & HN0 & Hs0 & End). pose proof (Hfile r0 HI0). split; [|lia].
    destruct HI0 as [b HI0]. destruct (applying_ok b L n r0 HL0 HI0 HN0 Hs0) as (r2 & Ha2 & HI2 & _ & _ & HR & _). rewrite End in *.
    assert (r2 = r1) as ->. { destruct Ha as (es & nd & Et & E1), Ha2 as (es' & nd' & Et' & E1'). congruence. }
    destruct HR as (_ & _ & _ & _ & _ & _ & _ & HRf). cbn in HRf. rewrite <-HRf. apply synced_recoverable. by exists b.
  - pose proof (comes_to_snapshot_inv L n r r2 HL HI HN Hc) as HI2. destruct (RInv_map _ _ _ HL HI2) as (P & m & _ & HS & HM & _).
    pose proof (start_snapshot_ok L (N.max n (n_commit_index (rp_node r))) m r2) as Hs. rewrite E in Hs. destruct Hs as [K _].
    pose proof (Kept_RInv _ _ _ _ _ HS HM K HI2) as HI3. split; [by apply RInv_recoverable|]. destruct HI3 as [b HI3].
    pose proof (ri_file _ _ _ _ HI3). pose proof (ri_bound _ _ _ _ HI3). lia.
  - pose proof (replica_apply_inv L n r old_ids HL Hold HI HN) as Hap. cbn zeta in Hap. rewrite E in Hap.
    destruct Hap as [HI' _]. split; [by apply RInv_recoverable|]. destruct HI' as [b HI'].
    pose proof (ri_file _ _ _ _ HI'). pose proof (ri_bound _ _ _ _ HI'). lia.
Qed.

(** The files deleted are the oldest. *)
Lemma left_by_reopens L n r old_ids opts d file :
  log_fits L → walks old_ids → RInv L n r → node_ok L n (rp_applied r) (rp_node r) → is_u64 (o_max_file_bytes opts) →
  left_by oldest_first old_ids r d file →
  Reopens L (N.max n (n_commit_index (rp_node r))) opts d file ∧ read_applied file ≤ N.max n (n_commit_index (rp_node r)).
Proof.
  intros HL Hold HI HN Hmax [t file' c Hst Hc|r4 k Hc|r4 j g Hc Ho].
  - destruct (stopped_recoverable L n r old_ids t file' HL Hold HI HN Hst) as [HR Hf]. split; [by apply HR|done].
  - pose proof (comes_to_compact_inv L n r r4 HL HI HN Hc) as HI4. split; [by apply (killed_reopens L _ r4)|].
    destruct HI4 as [b HI4]. pose proof (ri_file _ _ _ _ HI4). pose proof (ri_bound _ _ _ _ HI4). lia.
  - pose proof (comes_to_compact_inv L n r r4 HL HI HN Hc) as HI4.
    destruct (killed_reopens L _ r4 old_ids opts HL Hold HI4 Hmax) as [_ Hd]. destruct (Hd j g) as (_ & _ & _ & _ & _ & _ & _ & Hr). split; [by apply Hr|].
    destruct HI4 as [b HI4]. pose proof (ri_file _ _ _ _ HI4). pose proof (ri_bound _ _ _ _ HI4). lia.
Qed.

(** Whichever they are. *)
Lemma left_by_any L n r old_ids opts d file :
  log_fits L → walks old_ids → RInv L n r → node_ok L n (rp_applied r) (rp_node r) → is_u64 (o_max_file_bytes opts) →
  left_by (λ _ _, True) old_ids r d file →
  ∃ s' m m', open_with opts d = (Ok s', s_dir s') ∧ Refines s' m' ∧
    Mixed L (read_applied file) (N.max n (n_commit_index (rp_node r))) m ∧ ∀ k, m' !! k = m !! k ∨ m !! k = None.
Proof.
  intros HL Hold HI HN Hmax [t file' c Hst Hc|r4 k Hc|r4 j g Hc _].
  - destruct (left_by_reopens L n r old_ids opts (crash c t) file' HL Hold HI HN Hmax (left_store _ _ _ _ _ _ Hst Hc)) as [(s' & hs & E & HH & HM & _) _].
    exists s', (replay hs), (replay hs). split_and!; [done|by eapply History_refines|done|by left].
  - destruct (left_by_reopens L n r old_ids opts _ _ HL Hold HI HN Hmax (left_merging _ _ _ _ k Hc)) as [(s' & hs & E & HH & HM & _) _].
    exists s', (replay hs), (replay hs). split_and!; [done|by eapply History_refines|done|by left].
  - pose proof (comes_to_compact_inv L n r r4 HL HI HN Hc) as HI4.
    destruct (killed_reopens L _ r4 old_ids opts HL Hold HI4 Hmax) as [_ Hd]. destruct (Hd j g) as (s' & m & m' & E & HR & HM & Hm & _). by exists s', m, m'.
Qed.

(** ** Restarting *)

(** A replica on a store just opened, that has not looked for a snapshot ahead of it yet. *)
Definition replica_start (nd : Node St) (s : Store) (file : option bytes) (clock : nat → N) : ReplicatedStore St :=
  mkReplicated nd s (read_applied file) DEFAULT_SNAPSHOT_EVERY false false false false file clock.

Definition catch_up r : result unit * ReplicatedStore St := mwhen (rp_applied r <? snapshot_index r) replica_restore r.

Lemma replica_new_start nd s file clock : replica_new nd s file clock = catch_up (replica_start nd s file clock).
Proof. done. Qed.

Lemma replica_start_inv L n nd s hs file clock :
  History s hs hs → Mixed L (read_applied file) n (replay hs) → s_restoring s = false → s_compacting s = false →
  read_applied file ≤ n → n ≤ blen L → (∀ i, is_u64 (clock i)) → RInvFrom hs L n (replica_start nd s file clock).
Proof. intros HH HM Hre Hco Hf Hn Hc. split; [|done..]. exists (replay hs). split; [|done]. by apply SoundFrom_synced. Qed.

Lemma catch_up_ok L n r :
  log_ok L → RInv L n r → node_ok L n (rp_applied r) (rp_node r) →
  ∃ r', catch_up r = (Ok tt, r') ∧ RInv L n r' ∧ node_ok L n (rp_applied r') (rp_node r') ∧
    rp_applied r' = N.max (rp_applied r) (snapshot_index r) ∧ rp_background r' = rp_background r ∧ rp_node r' = rp_node r.
Proof.
  intros HL HI HN. unfold catch_up. destruct (N.ltb_spec (rp_applied r) (snapshot_index r)) as [Hlt|Hge]; cbn [mwhen].
  - destruct HI as [b HI]. destruct (restore_inv b L n r HL HI HN Hlt) as (r1 & r' & _ & E & Er & HR & _ & HI' & Ha & HN').
    pose proof HR as (R1 & _ & _ & R4 & _). exists r'. split_and!; [done..|lia|by rewrite Er|by rewrite Er].
  - exists r. split_and!; [done..|lia|done|done].
Qed.

Lemma replica_new_ok L n nd s hs file clock :
  log_ok L → History s hs hs → Mixed L (read_applied file) n (replay hs) → s_restoring s = false → s_compacting s = false →
  read_applied file ≤ n → n ≤ blen L → (∀ i, is_u64 (clock i)) → node_ok L n (read_applied file) nd →
  ∃ r', replica_new nd s file clock = (Ok tt, r') ∧ RInv L n r' ∧ node_ok L n (rp_applied r') (rp_node r') ∧
    rp_applied r' = N.max (read_applied file) (sm_index (snapshot_meta (n_storage nd))) ∧ rp_background r' = false.
Proof.
  intros HL HH HM Hre Hco Hf Hn Hc HN. rewrite replica_new_start.
  destruct (catch_up_ok L n (replica_start nd s file clock)) as (r' & E & HI & HN' & Ha & Hb & _); [done|exists hs; by apply replica_start_inv|done|].
  by exists r'.
Qed.

(** ** The properties *)

(** Applying makes the store what the log means. Whatever state the replica is in between
    calls, once [apply] returns everything committed has been applied; if nothing beyond that
    was ever in the store, its contents are exactly those of the log up to that index, key by
    key, whether or not a snapshot had to be caught up with or was taken; and where the jobs
    run in the background it never fails, has synced the store before recording the index, and
    has recorded it. *)
Theorem replica_apply_exact L n r old_ids :
  log_fits L → walks old_ids → RInv L n r → node_ok L n (rp_applied r) (rp_node r) →
  (rp_background r = true → snapshot_index r ≤ rp_applied r) →
  let '(res, r') := replica_apply old_ids r in
  rp_applied r' = caught_up r ∧
  (n ≤ caught_up r → ∀ k, store_get (rp_store r') k = Ok (state_at L (caught_up r) !! k)) ∧
  (rp_background r = true → res = Ok tt ∧
    (rp_applied r < rp_applied r' → is_synced (rp_store r') = true ∧ read_applied (rp_applied_file r') = rp_applied r')).
Proof.
  intros HL Hold HI HN Hbg. pose proof (replica_apply_ok L n r old_ids HL Hold HI HN Hbg) as Ha. cbn zeta in Ha.
  destruct (replica_apply old_ids r) as [res r']. destruct Ha as (HI' & _ & Ea & _ & _ & Hb). split_and!; [done| |done].
  intros Hn k. rewrite <-Ea in *. apply Refines_get. apply (RInv_caught_up _ _ _ HI'). unfold caught_up in Ea. lia.
Qed.

(** C14: a crash in the middle of applying is recovered from. Wherever in [apply] it comes, while a
    snapshot is being walked into the store, between two entries, before or after the sync or the
    writing of the index, while a snapshot is taken, while the store is compacted after it, and
    whatever it leaves of the unsynced end of the file, of the merged file or of the files the
    compaction deletes, as long as it has deleted the oldest of them first: the store opens, the
    replica starts on it with the index that is recorded, and applying the log from there makes it
    exact again. Deleted in another order, which the hash map of files may give, the store opens all
    the same, and the only thing that can be wrong with it is that keys the log has deleted are there. *)
Theorem replica_crash_recovers L n n' r old_ids d file opts nd clock :
  log_fits L → walks old_ids → RInv L n r → node_ok L n (rp_applied r) (rp_node r) → is_u64 (o_max_file_bytes opts) →
  N.max n (n_commit_index (rp_node r)) ≤ n' → n' ≤ blen L → node_ok L n' (read_applied file) nd →
  (∀ i, is_u64 (clock i)) →
  (left_by oldest_first old_ids r d file →
    ∃ s' r', open_with opts d = (Ok s', s_dir s') ∧ replica_new nd s' file clock = (Ok tt, r') ∧
      RInv L n' r' ∧ node_ok L n' (rp_applied r') (rp_node r') ∧
      let '(_, r'') := replica_apply old_ids r' in
      n' ≤ rp_applied r'' → ∀ k, store_get (rp_store r'') k = Ok (state_at L (rp_applied r'') !! k)) ∧
  (left_by (λ _ _, True) old_ids r d file →
    ∃ s' m, open_with opts d = (Ok s', s_dir s') ∧ Mixed L (read_applied file) n' m ∧
      ∀ k, store_get s' k = Ok (m !! k) ∨ m !! k = None ∧ ∃ v, store_get s' k = Ok (Some v)).
Proof.
  intros HL Hold HI HN Hmax Hn' HnL HN' Hcl. split; [intros Hl|].
  - destruct (left_by_reopens L n r old_ids opts d file HL Hold HI HN Hmax Hl) as [(s' & hs & E & HH & HM & Hre & Hco) Hf]. exists s'.
    destruct (replica_new_ok L n' nd s' hs file clock) as (r' & E' & HI' & HN2 & _ & Hbg); [apply HL|done| |done|done|lia|done..|].
    { by apply (Mixed_weaken L (read_applied file) (N.max n (n_commit_index (rp_node r)))). }
    exists r'. split; [done|]. split; [done|]. split; [done|]. split; [done|].
    pose proof (replica_apply_ok L n' r' old_ids HL Hold HI' HN2) as Ha. cbn zeta in Ha.
    destruct (replica_apply old_ids r') as [res r'']. destruct Ha as (HIa & _ & Ea & _); [by rewrite Hbg|].
    intros Hle k. apply Refines_get, (RInv_caught_up _ _ _ HIa). unfold caught_up in Ea. lia.
  - intros Hl. destruct (left_by_any L n r old_ids opts d file HL Hold HI HN Hmax Hl) as (s' & m & m' & E & HR & HM & Hm). exists s', m.
    split_and!; [done|by apply (Mixed_weaken L (read_applied file) (N.max n (n_commit_index (rp_node r))))|].
    intros k. rewrite (Refines_get _ _ k HR). destruct (Hm k) as [->|Hk]; [by left|].
    destruct (m' !! k) as [v|]; [right; split; [done|by exists v]|left; by rewrite Hk].
Qed.

(** ** A whole life *)

(** The replica, and the bound on what its store may hold: the node moves on, the mode is set, [apply]
    runs, or the process dies in the middle of it and the store is opened again; then the replica
    catches up with a snapshot ahead of it, or dies in the middle of that. *)
Inductive life_step L (old_ids : Store → list N) (opts : Options) : N * ReplicatedStore St → N * ReplicatedStore St → Prop :=
  | life_node n n' r nd :
      n ≤ n' → n' ≤ blen L → node_ok L n' (rp_applied r) nd → life_step L old_ids opts (n, r) (n', rp_set_node nd r)
  | life_mode n r every background :
      life_step L old_ids opts (n, r) (n, set_snapshot_every every (set_background_snapshots background r))
  | life_apply n r res r' :
      replica_apply old_ids r = (res, r') →
      life_step L old_ids opts (n, r) (N.max n (n_commit_index (rp_node r)), r')
  | life_crash n n' r d file s' d' nd clock :
      left_by oldest_first old_ids r d file → open_with opts d = (Ok s', d') →
      N.max n (n_commit_index (rp_node r)) ≤ n' → n' ≤ blen L → node_ok L n' (read_applied file) nd →
      (∀ i, is_u64 (clock i)) → life_step L old_ids opts (n, r) (n', replica_start nd s' file clock)
  | life_start n r res r' : catch_up r = (res, r') → life_step L old_ids opts (n, r) (n, r').

Definition LifeInv L (x : N * ReplicatedStore St) : Prop :=
  RInv L x.1 x.2 ∧ node_ok L x.1 (rp_applied x.2) (rp_node x.2).

Lemma life_step_inv L old_ids opts x y :
  log_fits L → walks old_ids → is_u64 (o_max_file_bytes opts) → life_step L old_ids opts x y → LifeInv L x → LifeInv L y.
Proof.
  intros HL Hold Hmax Hst [HI HN].
  destruct Hst as [n n' r nd Hn HnL HN'|n r every bg|n r res r' E|n n' r d file s' d' nd clock Hl E Hn HnL HN' Hcl|n r res r' E];
    unfold LifeInv; cbn [fst snd] in *.
  - split; [|done]. destruct (RInv_mono L n n' r Hn HnL HI) as [b HI']. exists b. by apply (RInvFrom_same b L n' r).
  - split; [|done]. destruct HI as [b HI]. exists b. by apply (RInvFrom_same b L n r).
  - pose proof (replica_apply_inv L n r old_ids HL Hold HI HN) as Ha. cbn zeta in Ha. by rewrite E in Ha.
  - destruct (left_by_reopens L n r old_ids opts d file HL Hold HI HN Hmax Hl) as [(s2 & hs & E2 & HH & HM & Hre & Hco) Hf]. rewrite E in E2. injection E2 as <- _.
    split; [|done]. exists hs. apply replica_start_inv; try done; [|lia]. by apply (Mixed_weaken L (read_applied file) (N.max n (n_commit_index (rp_node r)))).
  - destruct (catch_up_ok L n r (proj1 HL) HI HN) as (r2 & E2 & HI2 & HN2 & _). rewrite E in E2. by injection E2 as -> <-.
Qed.

(** A replica that starts with nothing is at the beginning of its life. *)
Lemma life_begins L opts nd clock r0 :
  log_fits L → is_u64 (o_max_file_bytes opts) → node_ok L 0 0 nd → (∀ i, is_u64 (clock i)) →
  replica_new nd (fresh_store opts) None clock = (Ok tt, r0) → LifeInv L (0, r0).
Proof.
  intros HL Hmax HN Hcl E.
  destruct (replica_new_ok L 0 nd (fresh_store opts) [] None clock) as (r' & E' & HI & HN' & _); try done; [apply HL|..|lia|].
  - exists [], [], []. split_and!; try done. by apply fresh_inv.
  - intros k. by exists 0.
  - rewrite E in E'. by injection E' as <-.
Qed.

(** What its store reads as meanwhile. *)
Lemma LifeInv_reads L n r :
  LifeInv L (n, r) →
  read_applied (rp_applied_file r) ≤ rp_applied r ∧ rp_applied r ≤ n ∧
  (∃ m, (∀ k, store_get (rp_store r) k = Ok (m !! k)) ∧ Mixed L (rp_applied r) n m) ∧
  (n ≤ rp_applied r → ∀ k, store_get (rp_store r) k = Ok (state_at L (rp_applied r) !! k)).
Proof.
  intros [HI _]. cbn [fst snd] in HI. pose proof HI as [b [(m & HS & HM) H2 H3 H4]]. split_and!; [done|done| |].
  - exists m. split; [|done]. intros k. by eapply SoundFrom_get.
  - intros Hn k. by apply Refines_get, (RInv_caught_up _ _ _ HI).
Qed.

(** And that it can always go on. *)
Lemma LifeInv_starts L old_ids opts n r :
  log_fits L → walks old_ids → is_u64 (o_max_file_bytes opts) → LifeInv L (n, r) →
  (∃ r', catch_up r = (Ok tt, r')) ∧
  ∀ d file, left_by oldest_first old_ids r d file → ∃ s', open_with opts d = (Ok s', s_dir s').
Proof.
  intros HL Hold Hmax [HI HN]. cbn [fst snd] in *. split.
  - destruct (catch_up_ok L n r (proj1 HL) HI HN) as (r' & E & _). by exists r'.
  - intros d file Hl. destruct (left_by_reopens L n r old_ids opts d file HL Hold HI HN Hmax Hl) as [(s' & _ & E & _) _]. by exists s'.
Qed.

(** C15: over its life a replica that takes its snapshots, compacts and restores its store inside [apply]
    follows the log. Started empty and then run, killed in the middle of applying, of taking a snapshot,
    of compacting, the files deleted being the oldest, or of starting, and restarted, in any order: its
    store always reads as a map in which every key has the value the log gives it at the applied index or
    at one it had reached before; the recorded index is never ahead of that; as soon as it has applied as
    far as it ever had, its contents are exactly those of the log, so that two replicas of one log that
    have applied as far are the same; it never fails to catch up with a snapshot, and whatever such a
    death leaves behind opens. *)
Theorem replica_follows_log L old_ids opts nd clock r0 n r :
  log_fits L → walks old_ids → is_u64 (o_max_file_bytes opts) → node_ok L 0 0 nd → (∀ i, is_u64 (clock i)) →
  replica_new nd (fresh_store opts) None clock = (Ok tt, r0) → rtc (life_step L old_ids opts) (0, r0) (n, r) →
  (read_applied (rp_applied_file r) ≤ rp_applied r ∧ rp_applied r ≤ n ∧
   (∃ m, (∀ k, store_get (rp_store r) k = Ok (m !! k)) ∧ Mixed L (rp_applied r) n m) ∧
   (n ≤ rp_applied r → ∀ k, store_get (rp_store r) k = Ok (state_at L (rp_applied r) !! k))) ∧
  (∃ r', catch_up r = (Ok tt, r')) ∧
  (∀ d file, left_by oldest_first old_ids r d file → ∃ s', open_with opts d = (Ok s', s_dir s')).
Proof.
  intros HL Hold Hmax HN Hcl E Hr. assert (LifeInv L (n, r)) as HI; [|split; [by apply LifeInv_reads|by eapply LifeInv_starts]].
  pose proof (life_begins L opts nd clock r0 HL Hmax HN Hcl E) as H0'.
  clear E. remember (0, r0) as x eqn:Ex. remember (n, r) as y eqn:Ey. clear Ex Ey.
  induction Hr as [|x1 x2 x3 Hst Hr IH]; [done|]. apply IH. by eapply life_step_inv.
Qed.
End replica.

(** ** Three writes *)

#[export] Instance cmd_ok_dec c : Decision (cmd_ok c).
Proof. unfold cmd_ok, fits, is_u32. destruct c as [|bs|ms]; [apply _| |apply _]. destruct (Op_decode bs) as [[k v|k]|]; apply _. Defined.

Definition demo_cmd (op : Op) : Command := match Op_encode 5 op with Ok bs => Data bs | Err _ => Noop end.

Definition demo_log : list Command :=
  [Noop; demo_cmd (OpPut (lit "sky") (lit "blue")); demo_cmd (OpPut (lit "sea") (lit "blue")); demo_cmd (OpDelete (lit "sky"))].

(** A node that has the log, and knows the first [commit] entries to be committed. *)
Definition demo_node (commit : N) : Node MemStorage :=
  set_commit_index commit (node_new 1 [1] NodeConfig_default
    (mkMemStorage (mkHardState 1 None) (mkEntryLog SnapshotMeta_default (imap (λ i c, mkEntry 1 (N.of_nat i + 1) c) demo_log)) [] None)).

Definition demo_order (s : Store) : list N := elements (s_readers s).

Lemma demo_walks : walks demo_order.
Proof. intros s id. unfold demo_order. by rewrite elem_of_elements. Qed.

Lemma demo_fits : log_fits demo_log.
Proof. by apply (bool_decide_unpack _); vm_compute. Qed.

Lemma demo_node_ok commit n : commit ≤ 4 → node_ok demo_log n 0 (demo_node commit).
Proof.
  intros Hc. assert (EntryLog_wf (slog (demo_node commit))) as Hwf
    by (change (slog (demo_node commit)) with (slog (demo_node 0)); by apply (bool_decide_unpack _); vm_compute).
  split; [done|done|exact Hc|done| |done]. intros i e _. rewrite EntryLog_entry_lookup by done.
  change (slog (demo_node commit)) with (slog (demo_node 0)). destruct (N.leb_spec i (sm_index (el_base (slog (demo_node 0))))); [done|].
  change (el_entries (slog (demo_node 0))) with (imap (λ i c, mkEntry 1 (N.of_nat i + 1) c) demo_log).
  change (sm_index (el_base (slog (demo_node 0)))) with 0. rewrite list_lookup_imap. intros (c & Ec & ->)%fmap_Some.
  unfold entry_in. cbn [e_index e_command]. split; [lia|].
  replace (N.to_nat (N.of_nat (N.to_nat (i - 0 - 1)) + 1 - 1)) with (N.to_nat (i - 0 - 1)) by lia. done.
Qed.

Definition demo_replica (commit : N) : ReplicatedStore MemStorage :=
  (replica_new (demo_node commit) (fresh_store (small_files OsCache)) None (λ _, 7)).2.

Lemma demo_replica_ok commit :
  commit ≤ 4 →
  replica_new (demo_node commit) (fresh_store (small_files OsCache)) None (λ _, 7) = (Ok tt, demo_replica commit) ∧
  RInv demo_log 0 (demo_replica commit) ∧ node_ok demo_log 0 (rp_applied (demo_replica commit)) (rp_node (demo_replica commit)).
Proof.
  intros Hc. unfold demo_replica.
  destruct (replica_new_ok demo_log 0 (demo_node commit) (fresh_store (small_files OsCache)) [] None (λ _, 7)) as (r & E & HI & HN & _);
    [apply demo_fits| |by intros k; exists 0|done|done|done|done|done|by apply demo_node_ok|].
  - exists [], [], []. split_and!; try done. by apply fresh_inv.
  - by rewrite E.
Qed.

Lemma replica_apply_exact_witness :
  store_get (rp_store (replica_apply demo_order (demo_replica 3)).2) (lit "sky") = Ok (Some (lit "blue")).
Proof.
  destruct (demo_replica_ok 3 ltac:(done)) as (_ & HI & HN).
  pose proof (replica_apply_exact demo_log 0 (demo_replica 3) demo_order demo_fits demo_walks HI HN) as Ha.
  destruct (replica_apply demo_order (demo_replica 3)) as [res r']. destruct Ha as (_ & Hg & _); [by vm_compute|].
  cbn [snd]. rewrite (Hg ltac:(by vm_compute)). by vm_compute.
Defined.

(** The same replica with everything applied and nothing synced. *)
Definition demo_mid : ReplicatedStore MemStorage :=
  (miter apply_entry (take_committed (rp_node (demo_replica 4))).1
     (rp_set_node (take_committed (rp_node (demo_replica 4))).2 (demo_replica 4))).2.

Lemma demo_stopped : stopped demo_order (demo_replica 4) (rp_store demo_mid) None.
Proof.
  destruct (demo_replica_ok 4 ltac:(done)) as (_ & [b HI] & HN).
  destruct (applying_ok b demo_log 0 (demo_replica 4)) as (r1 & Hap & [(m & [(h0 & h & HH & _) _ _ _] & _) _ _ _] & _);
    [apply demo_fits|done|done|by vm_compute|].
  assert (r1 = demo_mid) as ->.
  { destruct Hap as (es & nd & Et & E). unfold demo_mid. rewrite Et. cbn [fst snd]. by rewrite E. }
  apply (stop_applying demo_order (demo_replica 4) (demo_replica 4) demo_mid); [reflexivity|exact Hap|].
  exists [], [], h0, h, h0, h. split_and!; [|done|done|apply prefix_nil|done].
  exists [], [], []. split_and!; try done. by apply fresh_inv.
Qed.

(** One that takes a snapshot of the four entries and comes to compact its store, most of which is dead. *)
Definition demo_snapper : ReplicatedStore MemStorage := set_snapshot_every 2 (demo_replica 4).

Lemma every_ok L n every (r : ReplicatedStore MemStorage) :
  RInv L n r ∧ node_ok L n (rp_applied r) (rp_node r) →
  RInv L n (set_snapshot_every every r) ∧ node_ok L n (rp_applied (set_snapshot_every every r)) (rp_node (set_snapshot_every every r)).
Proof. intros [[b HI] HN]. split; [exists b; by apply (RInvFrom_same b L n r)|done]. Qed.

Definition demo_compacting : option (ReplicatedStore MemStorage) :=
  match apply_committed demo_snapper with
  | (Ok _, r2) =>
      match start_snapshot r2 with
      | (Ok (Some job), r3) =>
          match SnapshotJob_run job with
          | Ok sink =>
              match on_node (finish_compaction sink) (rp_set_snapshotting false r3) with
              | (Ok true, r4) => if fragmented (store_stats (rp_store r4)) then Some r4 else None
              | _ => None
              end
          | Err _ => None
          end
      | _ => None
      end
  | _ => None
  end.

Lemma demo_comes_to_compact r4 : demo_compacting = Some r4 → comes_to_compact demo_snapper r4.
Proof.
  unfold demo_compacting. destruct (apply_committed demo_snapper) as [[[]|e] r2] eqn:E2; [|done].
  destruct (start_snapshot r2) as [[[job|]|e] r3] eqn:E3; [|done|done]. destruct (SnapshotJob_run job) as [sink|e] eqn:E; [|done].
  destruct (on_node _ _) as [[[|]|e] r4'] eqn:E4; [|done|done]. destruct (fragmented _) eqn:Ef; [|done]. intros [= <-].
  exists r2, job, r3, sink. split_and!; [|done|done|done|done]. split; [reflexivity|]. exists demo_snapper. split; [|exact E2].
  assert (rp_applied demo_snapper <? snapshot_index demo_snapper = false) as -> by (vm_compute; reflexivity). done.
Qed.

(** Killed with ten bytes of the merged file written. *)
Lemma replica_crash_recovers_witness :
  ∃ r4 s' r', comes_to_compact demo_snapper r4 ∧
    open_with Options_default (killed_merging (demo_order (rp_store r4)) 10 (rp_store r4)) = (Ok s', s_dir s') ∧
    replica_new (demo_node 4) s' (rp_applied_file r4) (λ _, 9) = (Ok tt, r') ∧ RInv demo_log 4 r'.
Proof.
  destruct (demo_replica_ok 4 ltac:(done)) as (_ & HI & HN).
  destruct (every_ok demo_log 0 2 (demo_replica 4) (conj HI HN)) as [HI' HN']. fold demo_snapper in HI', HN'.
  assert (match demo_compacting with Some _ => True | None => False end) as Hd by (vm_compute; exact I).
  destruct demo_compacting as [r4|] eqn:E4; [clear Hd|destruct Hd]. pose proof (demo_comes_to_compact r4 E4) as Hc.
  assert (N.max 0 (n_commit_index (rp_node demo_snapper)) = 4) as H4 by (vm_compute; reflexivity). clear E4.
  destruct (replica_crash_recovers demo_log 0 4 demo_snapper demo_order (killed_merging (demo_order (rp_store r4)) 10 (rp_store r4)) (rp_applied_file r4) Options_default (demo_node 4) (λ _, 9)
    demo_fits demo_walks HI' HN' ltac:(done) ltac:(rewrite H4; lia) ltac:(done)
    (node_ok_mono demo_log 4 4 0 _ (demo_node 4) (N.le_refl 4) (N.le_0_l _) (demo_node_ok 4 4 (N.le_refl 4))) ltac:(done)) as [Hr _].
  destruct (Hr (left_merging _ _ _ r4 10 Hc)) as (s' & r' & E & E' & HI2 & _).
  exists r4, s', r'. exact (conj Hc (conj E (conj E' HI2))).
Defined.

(** The life of the first: applied, killed with everything written and nothing synced, opened, caught up. *)
Lemma replica_follows_log_witness :
  ∃ s' d', open_with (small_files OsCache) (crash 10 (rp_store demo_mid)) = (Ok s', d') ∧
    store_get (rp_store (replica_apply demo_order (replica_start (demo_node 4) s' None (λ _, 9))).2) (lit "sky") = Ok None.
Proof.
  destruct (demo_replica_ok 4 ltac:(done)) as (E & _ & _).
  assert (match open_with (small_files OsCache) (crash 10 (rp_store demo_mid)) with
          | (Ok s', _) => rp_applied (replica_apply demo_order (replica_start (demo_node 4) s' None (λ _, 9))).2 = 4
          | _ => False
          end) as Hap by (vm_compute; reflexivity).
  destruct (open_with (small_files OsCache) (crash 10 (rp_store demo_mid))) as [[s'|e] d'] eqn:Eo; [|destruct Hap].
  exists s', d'. split; [reflexivity|]. set (r1 := replica_start (demo_node 4) s' None (λ _, 9)) in *.
  assert (may_crash_at 10 (rp_store demo_mid)) as Hc by (unfold may_crash_at; apply (bool_decide_unpack _); vm_compute; exact I).
  assert (N.max 0 (n_commit_index (rp_node (demo_replica 4))) = 4) as H4 by (vm_compute; reflexivity).
  assert (N.max 0 (n_commit_index (rp_node (demo_replica 4))) ≤ 4) as Hn1 by (rewrite H4; reflexivity).
  assert (4 ≤ blen demo_log) as Hn2 by (vm_compute; discriminate).
  assert (node_ok demo_log 4 (read_applied None) (demo_node 4)) as Hn3 by exact (demo_node_ok 4 4 (N.le_refl 4)).
  assert (∀ i : nat, is_u64 ((λ _, 9) i)) as Hcl by (intros i; reflexivity).
  pose proof (left_store oldest_first _ _ _ _ _ demo_stopped Hc) as Hl.
  destruct (replica_apply demo_order r1) as [res r'] eqn:Ea. cbn [snd] in Hap |- *.
  assert (rtc (life_step demo_log demo_order (small_files OsCache)) (0, demo_replica 4) (4, r')) as Hr.
  { eapply rtc_l; [exact (life_crash demo_log demo_order (small_files OsCache) 0 4 (demo_replica 4) (crash 10 (rp_store demo_mid)) None s' d' (demo_node 4) (λ _, 9) Hl Eo Hn1 Hn2 Hn3 Hcl)|].
    apply rtc_once. exact (life_apply demo_log demo_order (small_files OsCache) 4 r1 res r' Ea). }
  destruct (replica_follows_log demo_log demo_order (small_files OsCache) (demo_node 4) (λ _, 7) (demo_replica 4) 4 r'
    demo_fits demo_walks eq_refl (demo_node_ok 4 0 ltac:(done)) ltac:(done) E Hr) as ((_ & _ & _ & Hg) & _).
  rewrite Hg, Hap by (by rewrite Hap). vm_compute. reflexivity.
Defined.

(** ** Two remarks *)

Definition remark_node (L : list Command) (commit last_applied : N) : Node MemStorage :=
  set_last_applied last_applied (set_commit_index commit (node_new 1 [1] NodeConfig_default
    (mkMemStorage (mkHardState 1 None) (mkEntryLog SnapshotMeta_default (imap (λ i c, mkEntry 1 (N.of_nat i + 1) c) L)) [] None))).

Definition remark_replica (L : list Command) (commit : N) (s : Store) (every : N) : ReplicatedStore MemStorage :=
  set_snapshot_every every (replica_new (remark_node L commit 0) s None (λ _, 7)).2.

(** A command that does not decode stops [apply] once: the next time round what was committed
    after it is applied all the same. *)
Example bad_command_is_passed :
  let L := [demo_cmd (OpPut (lit "a") (lit "1")); Data (lit "nonsense"); demo_cmd (OpPut (lit "b") (lit "2"));
            demo_cmd (OpPut (lit "c") (lit "3"))] in
  let '(res, r) := replica_apply demo_order (remark_replica L 3 (fresh_store Options_default) 0) in
  let '(res', r') := replica_apply demo_order (rp_set_node (set_commit_index 4 (rp_node r)) r) in
  res ≠ Ok tt ∧ rp_applied r = 1 ∧ res' = Ok tt ∧ rp_applied r' = 4 ∧
  store_get (rp_store r') (lit "b") = Ok None ∧ store_get (rp_store r') (lit "c") = Ok (Some (lit "3")).
Proof. vm_compute. split_and!; done. Qed.

(** A snapshot taken while a restarted replica is catching up holds writes from after its
    index: the store had them on disk, and the recorded index was behind. *)
Example snapshot_may_hold_later_writes :
  let L := [demo_cmd (OpPut (lit "a") (lit "1")); demo_cmd (OpPut (lit "b") (lit "2"))] in
  let s := rp_store (replica_apply demo_order (remark_replica L 2 (fresh_store Options_default) 0)).2 in
  let '(res, r) := replica_apply demo_order (remark_replica L 1 s 1) in
  res = Ok tt ∧ snapshot_index r = 1 ∧
  snapshot_reader (n_storage (rp_node r)) ≠ Ok (snapshot_bytes (state_at L 1)) ∧
  snapshot_reader (n_storage (rp_node r)) = Ok (snapshot_bytes (state_at L 2)).
Proof. vm_compute. split_and!; done. Qed.
