(* ===== verification/ClusterAgreement.v ===== *)
(** * The stores of a cluster agree (src/raft/node.rs with src/replicated.rs)

    Consensus and application put together. The nodes of a cluster hand over one log, whatever
    happens to them and to what they send; a replica that applies what its node hands over holds
    what that log means, whatever happens to it; so the stores of a cluster are one store, seen at
    different indices. *)

From S2P Require Import Prelude.
From S2P Require Import RecordFormat.
From S2P Require Import RaftLog.
From S2P Require Import Message.
From S2P Require Import NodeState.
From S2P Require Import Node.
From S2P Require Import Election.
From S2P Require Import ElectionSafety.
From S2P Require Import Replication.
From S2P Require Import LogSteps.
From S2P Require Import LogMatching.
From S2P Require Import CommitSteps.
From S2P Require Import LeaderCompleteness.
From S2P Require Import StateMachine.
From S2P Require Import DataLog.
From S2P Require Import Store.
From S2P Require Import StoreMap.
From S2P Require Import StoreInv.
From S2P Require Import StoreCrash.
From S2P Require Import StoreKill.
From S2P Require Import Replicated.
From S2P Require Import ReplicaSnapshot.
From S2P Require Import ReplicaApply.
From S2P Require Import ReplicaInline.
From S2P Require Import ReplicaLife.

#[local] Open Scope N_scope.
#[local] Opaque rec_bytes.

(** Of lists that pairwise extend each other there is one that extends them all. *)
Lemma longest_exists {A} (ls : list (list A)) :
  (∀ x y, x ∈ ls → y ∈ ls → x `prefix_of` y ∨ y `prefix_of` x) →
  ∃ l, (l = [] ∨ l ∈ ls) ∧ ∀ x, x ∈ ls → x `prefix_of` l.
Proof.
  induction ls as [|l ls IH]; intros Hp; [exists []; split; [by left|by intros x ?%not_elem_of_nil]|].
  destruct IH as (k & Hk & Hmax); [intros x y Hx Hy; apply Hp; by apply list_elem_of_further|].
  assert (l `prefix_of` k ∨ k `prefix_of` l) as [Hl|Hl].
  { destruct Hk as [->|Hk]; [right; apply prefix_nil|]. apply Hp; [apply list_elem_of_here|by apply list_elem_of_further]. }
  - exists k. split; [destruct Hk; [by left|right; by apply list_elem_of_further]|].
    intros x [->|Hx]%elem_of_cons; [done|by apply Hmax].
  - exists l. split; [right; apply list_elem_of_here|]. intros x [->|Hx]%elem_of_cons; [done|]. etrans; [by apply Hmax|done].
Qed.

Section agreement.
Context {St : Type} `{SnapshotLaws St} `{!StorageLaws St}.
Implicit Types (nd : Node St) (c : Cluster (S := St)) (r : ReplicatedStore St).

Variable B : list Member.
Hypothesis HB : Forall (λ m, m_learner m = false) B.

(** ** A run, and the log it makes *)

(** The states a cluster goes through, one step after another. *)
Definition history (cs : list (Cluster (S := St))) : Prop :=
  (∀ c, cs !! 0%nat = Some c → sreachable B c) ∧
  ∀ i c c', cs !! i = Some c → cs !! S i = Some c' → sstep B c c'.

(** [nd] is node [v] at some moment of the run. *)
Definition was (cs : list (Cluster (S := St))) (v : NodeId) (nd : Node St) : Prop :=
  ∃ i c, cs !! i = Some c ∧ c_procs c !! v = Some (Up nd).

Definition committed nd : list Entry := take (N.to_nat (n_commit_index nd)) (log_of nd).

Lemma history_steps cs i j c c' :
  history cs → cs !! i = Some c → cs !! j = Some c' → (i ≤ j)%nat → rtc (sstep B) c c'.
Proof.
  intros [_ Hs] Hi Hj Hle. revert c' Hj. induction Hle as [|j Hle IH]; intros c' Hj; [rewrite Hi in Hj; by injection Hj as <-|].
  destruct (lookup_lt_is_Some_2 cs j) as [c1 Hc1]; [apply lookup_lt_Some in Hj; lia|].
  eapply rtc_r; [by apply IH|by eapply Hs].
Qed.

Lemma history_reachable cs i c : history cs → cs !! i = Some c → sreachable B c.
Proof.
  intros Hh Hi. destruct (lookup_lt_is_Some_2 cs 0) as [c0 Hc0]; [apply lookup_lt_Some in Hi; lia|].
  pose proof (history_steps cs 0 i c0 c Hh Hc0 Hi (Nat.le_0_l i)) as Hr. pose proof (proj1 Hh c0 Hc0) as Hc.
  clear Hi Hc0. induction Hr as [|c0 c1 c2 Hs _ IH]; [done|]. apply IH. by eapply sreach_step.
Qed.

(** What one node takes for committed at one moment, and another at another: one extends the other. *)
Lemma committed_comparable cs v nd v' nd' :
  history cs → was cs v nd → was cs v' nd' → committed nd `prefix_of` committed nd' ∨ committed nd' `prefix_of` committed nd.
Proof.
  intros Hh (i & c & Hi & Hv) (j & c' & Hj & Hv').
  assert (∀ x x', take (N.to_nat (N.min (n_commit_index x) (n_commit_index x'))) (log_of x) =
      take (N.to_nat (N.min (n_commit_index x) (n_commit_index x'))) (log_of x') → n_commit_index x ≤ n_commit_index x' →
      committed x `prefix_of` committed x') as Hpre.
  { intros x x' E Hle. rewrite N.min_l in E by done. unfold committed. rewrite E.
    replace (N.to_nat (n_commit_index x)) with (N.to_nat (n_commit_index x) `min` N.to_nat (n_commit_index x'))%nat by lia.
    rewrite <-take_take. apply prefix_take. }
  assert (take (N.to_nat (N.min (n_commit_index nd) (n_commit_index nd'))) (log_of nd) =
      take (N.to_nat (N.min (n_commit_index nd) (n_commit_index nd'))) (log_of nd')) as E.
  { destruct (decide (i ≤ j)%nat).
    - eapply (committed_agree B HB c c' v nd v' nd'); try done; [by eapply history_reachable|by eapply history_steps|lia..].
    - symmetry. eapply (committed_agree B HB c' c v' nd' v nd); try done; [by eapply history_reachable|eapply history_steps; try done; lia|lia..]. }
  destruct (decide (n_commit_index nd ≤ n_commit_index nd')); [left; by apply Hpre|right; apply Hpre; [by rewrite N.min_comm|lia]].
Qed.

(** The nodes that are up at a moment. *)
Definition up_nodes c : list (Node St) :=
  omap (λ p : NodeId * Proc, match p.2 with Up nd => Some nd | Down _ => None end) (map_to_list (c_procs c)).

Lemma elem_of_up_nodes c nd : nd ∈ up_nodes c ↔ ∃ v, c_procs c !! v = Some (Up nd).
Proof.
  unfold up_nodes. rewrite list_elem_of_omap. split.
  - intros ([v [n|st]] & Hin & E); simplify_eq/=. exists v. by apply elem_of_map_to_list.
  - intros [v Hv]. exists (v, Up nd). by rewrite elem_of_map_to_list.
Qed.

(** There is one log that everyone's committed entries are the beginning of. *)
Lemma one_log cs :
  history cs → ∃ L, (L = [] ∨ ∃ v nd, was cs v nd ∧ L = committed nd) ∧ ∀ v nd, was cs v nd → committed nd `prefix_of` L.
Proof.
  intros Hh. assert (∀ x, x ∈ committed <$> (cs ≫= up_nodes) ↔ ∃ v nd, was cs v nd ∧ x = committed nd) as Hel.
  { intros x. rewrite list_elem_of_fmap. split.
    - intros (nd & -> & (c & Hn & Hc)%list_elem_of_bind). apply elem_of_up_nodes in Hn as [v Hv].
      apply list_elem_of_lookup in Hc as [i Hi]. exists v, nd. split; [by exists i, c|done].
    - intros (v & nd & (i & c & Hi & Hv) & ->). exists nd. split; [done|]. apply list_elem_of_bind. exists c.
      split; [apply elem_of_up_nodes; by exists v|by eapply list_elem_of_lookup_2]. }
  destruct (longest_exists (committed <$> (cs ≫= up_nodes))) as (L & HL & Hmax).
  { intros x y (v & nd & Hw & ->)%Hel (v' & nd' & Hw' & ->)%Hel. by eapply committed_comparable. }
  exists L. split; [destruct HL as [->|HL]; [by left|right; by apply Hel]|]. intros v nd Hw. apply Hmax, Hel. by exists v, nd.
Qed.

(** ** The life of a replica in the cluster *)

(** Node [v]'s replica: its node moves on as the node in the cluster does, having handed over no more
    than the replica has applied; the mode is set; [apply] runs; or the process dies in the middle of
    it, or of starting, and is started again. The number bounds what its store may hold. *)
Inductive replica_life cs (v : NodeId) (old_ids : Store → list N) (opts : Options)
    : N * ReplicatedStore St → N * ReplicatedStore St → Prop :=
  | rl_node n r nd :
      was cs v nd → n_last_applied nd ≤ rp_applied r → replica_life cs v old_ids opts (n, r) (n, rp_set_node nd r)
  | rl_mode n r every background :
      replica_life cs v old_ids opts (n, r) (n, set_snapshot_every every (set_background_snapshots background r))
  | rl_apply n r res r' :
      replica_apply old_ids r = (res, r') →
      replica_life cs v old_ids opts (n, r) (N.max n (n_commit_index (rp_node r)), r')
  | rl_crash n r d file s' d' nd clock :
      left_by oldest_first old_ids r d file → open_with opts d = (Ok s', d') →
      was cs v nd → n_last_applied nd ≤ read_applied file → (∀ i, is_u64 (clock i)) →
      replica_life cs v old_ids opts (n, r) (N.max n (n_commit_index (rp_node r)), replica_start nd s' file clock)
  | rl_start n r res r' : catch_up r = (res, r') → replica_life cs v old_ids opts (n, r) (n, r').

Lemma was_node_ok cs v nd L n applied :
  history cs → was cs v nd → committed nd `prefix_of` L → n_last_applied nd ≤ applied →
  node_ok (e_command <$> L) n applied nd.
Proof.
  intros Hh (i & c & Hi & Hv) [k ->] Ha. destruct (commit_in_range B HB c v nd) as [[Hwf Hb] Hc]; [by eapply history_reachable|done|].
  split; rewrite ?Hb; cbn [sm_index]; [done|lia| |lia| |done].
  - rewrite EntryLog_last_index_len, Hb by done. cbn [sm_index]. unfold log_of in Hc. lia.
  - intros j e Hj He'. assert (entry (n_storage nd) j = Some e) as He by (by rewrite law_entry).
    apply (whole_entry nd j e) in He as [Hj0 He]; [|done].
    assert (e_index e = j) as Ej.
    { unfold log_of in He. rewrite (Hwf _ _ He), Hb. cbn [sm_index]. lia. }
    split; [lia|]. rewrite Ej, list_lookup_fmap. unfold committed. rewrite lookup_app_l, lookup_take_lt, He; [done|lia|].
    rewrite length_take. apply lookup_lt_Some in He. lia.
Qed.

(** Every life in the cluster is a life along the one log. *)
Lemma replica_life_step cs v old_ids opts L x y :
  history cs → (∀ nd, was cs v nd → committed nd `prefix_of` L) → LifeInv (e_command <$> L) x →
  replica_life cs v old_ids opts x y → life_step (e_command <$> L) old_ids opts x y.
Proof.
  intros Hh HL [HI HN] Hst. destruct Hst as [n r nd Hw Ha|n r every bg|n r res r' E|n r d file s' d' nd clock Hl E Hw Ha Hcl|n r res r' E].
  - destruct HI as [b HI]. apply life_node; [done|exact (ri_log _ _ _ _ HI)|]. by eapply was_node_ok; [..|apply HL|].
  - apply life_mode.
  - by eapply life_apply.
  - eapply life_crash; [done..|by apply (commit_in_log _ n r)| |done]. by eapply was_node_ok; [..|apply HL|].
  - by eapply life_start.
Qed.

Lemma replica_lives_inv cs v old_ids opts L x y :
  history cs → (∀ nd, was cs v nd → committed nd `prefix_of` L) → log_fits (e_command <$> L) → walks old_ids →
  is_u64 (o_max_file_bytes opts) → LifeInv (e_command <$> L) x → rtc (replica_life cs v old_ids opts) x y → LifeInv (e_command <$> L) y.
Proof.
  intros Hh HL Hf Hold Hmax HI Hr. induction Hr as [|x1 x2 x3 Hst Hr IH]; [done|]. apply IH.
  eapply life_step_inv; [done..| |done]. by eapply replica_life_step.
Qed.

(** C1: the stores of a cluster agree. For any run of a cluster of fixed membership whose logs are not
    compacted, with whatever lost, repeated and reordered on the way and whoever crashed and restarted,
    a store that was being compacted having lost the oldest of its files first, there is one log such that every node's committed entries are the beginning of it and every replica,
    through all of its own crashes and restarts, reads as a mixture of what that log means from its applied
    index on to where it had been, and exactly as what it means at its applied index once it has caught up:
    two replicas that have applied as far hold the same. *)
Theorem cluster_stores_agree (cs : list (Cluster (S := St))) :
  history cs → (∀ v nd, was cs v nd → log_fits (e_command <$> committed nd)) →
  ∃ L, (∀ v nd, was cs v nd → committed nd `prefix_of` L) ∧
    ∀ v old_ids opts nd clock r0 n r,
      walks old_ids → is_u64 (o_max_file_bytes opts) → was cs v nd → n_last_applied nd = 0 → (∀ i, is_u64 (clock i)) →
      replica_new nd (fresh_store opts) None clock = (Ok tt, r0) → rtc (replica_life cs v old_ids opts) (0, r0) (n, r) →
      (∃ m, (∀ k, store_get (rp_store r) k = Ok (m !! k)) ∧ Mixed (e_command <$> L) (rp_applied r) n m) ∧
      (n ≤ rp_applied r → ∀ k, store_get (rp_store r) k = Ok (state_at (e_command <$> L) (rp_applied r) !! k)).
Proof.
  intros Hh Hfit. destruct (one_log cs Hh) as (L & HL & Hpre). exists L. split; [done|].
  intros v old_ids opts nd clock r0 n r Hold Hmax Hw Hla Hcl E Hr.
  assert (log_fits (e_command <$> L)) as Hf by (destruct HL as [->|(u & ud & Hu & ->)]; [done|by eapply Hfit]).
  eapply LifeInv_reads, replica_lives_inv; [done|by intros; eapply Hpre|done|done|done| |done].
  eapply life_begins; [done|done| |done|done]. eapply was_node_ok; [done|done|by eapply Hpre|lia].
Qed.
End agreement.

(** ** Two replicas of a cluster of three *)

Fixpoint strace {S} `{Storage S} (B : list Member) (c : Cluster (S := S)) (xs : list Sched) : option (list (Cluster (S := S))) :=
  match xs with
  | [] => Some [c]
  | x :: xs => match sexec B c x with Some c' => (c ::.) <$> strace B c' xs | None => None end
  end.

Section trace.
Context {St : Type} `{SnapshotLaws St} `{!StorageLaws St}.

Lemma strace_head B (c : Cluster (S := St)) xs cs : strace B c xs = Some cs → cs !! 0%nat = Some c.
Proof.
  destruct xs as [|x xs]; simpl; [by intros [= <-]|]. destruct (sexec B c x); [|done]. by intros (? & _ & ->)%fmap_Some.
Qed.

Lemma strace_history B (c : Cluster (S := St)) xs cs : sreachable B c → strace B c xs = Some cs → history B cs.
Proof.
  intros Hc E. split; [intros c0; rewrite (strace_head _ _ _ _ E); by intros [= <-]|].
  clear Hc. revert c cs E. induction xs as [|x xs IH]; intros c cs; simpl; [by intros [= <-] [|i]|].
  destruct (sexec B c x) as [c1|] eqn:Ex; [|done]. intros (cs' & E & ->)%fmap_Some [|i] a b; simpl.
  - intros [= <-] Hb. rewrite (strace_head _ _ _ _ E) in Hb. injection Hb as <-. by eapply sexec_sstep.
  - by apply (IH c1 cs' E i).
Qed.
End trace.

Definition put_sky : bytes := match Op_encode 5 (OpPut (lit "sky") (lit "blue")) with Ok bs => bs | Err _ => [] end.
Definition put_sea : bytes := match Op_encode 5 (OpPut (lit "sea") (lit "grey")) with Ok bs => bs | Err _ => [] end.

(** Node 1 leads, commits a write with node 2, and tells it so with the next. *)
Definition write_steps : list (Sched (S := MemStorage)) :=
  [SRestart 1 three_voters NodeConfig_default; SRestart 2 three_voters NodeConfig_default; SRestart 3 three_voters NodeConfig_default;
   SInput 1 InCampaign; SInput 2 (InStep 1 (RequestVote 1 0 0)); SInput 1 (InStep 2 (RequestVoteReply 1 true));
   SInput 2 (InStep 1 (AppendEntries 1 0 0 [mkEntry 1 1 Noop] 0 0)); SInput 1 (InStep 2 (AppendEntriesReply 1 true 1 0 None 0));
   SInput 1 (InPropose put_sky); SInput 2 (InStep 1 (AppendEntries 1 1 1 [mkEntry 1 2 (Data put_sky)] 1 0));
   SInput 1 (InStep 2 (AppendEntriesReply 1 true 2 0 None 0)); SInput 1 (InPropose put_sea);
   SInput 2 (InStep 1 (AppendEntries 1 2 1 [mkEntry 1 3 (Data put_sea)] 2 0))].

Definition write_run : option (list (Cluster (S := MemStorage))) := strace three_voters three_nodes write_steps.

(** Node [v]'s replica, started on nothing and with what its node has at the end of the run; then
    what is committed is applied. *)
Definition starting (v : NodeId) (cs : list (Cluster (S := MemStorage))) : option (Node MemStorage * ReplicatedStore MemStorage) :=
  c ← list.last cs;
  match c_procs c !! v with
  | Some (Up nd) =>
      match replica_new nd (fresh_store Options_default) None (λ _, 7) with (Ok _, r0) => Some (nd, r0) | (Err _, _) => None end
  | _ => None
  end.

Definition applied_to (x : Node MemStorage * ReplicatedStore MemStorage) : N * N * N :=
  (n_last_applied x.1, n_commit_index (rp_node x.2), rp_applied (replica_apply demo_order x.2).2).

Definition trace_fits (cs : list (Cluster (S := MemStorage))) : bool :=
  bool_decide (Forall (λ nd, log_fits (e_command <$> committed nd)) (cs ≫= up_nodes)).

Lemma write_run_ok :
  ∃ cs x1 x2, write_run = Some cs ∧ trace_fits cs = true ∧ starting 1 cs = Some x1 ∧ starting 2 cs = Some x2 ∧
    applied_to x1 = (0, 2, 2) ∧ applied_to x2 = (0, 2, 2).
Proof.
  assert ((λ cs, (trace_fits cs, applied_to <$> starting 1 cs, applied_to <$> starting 2 cs)) <$> write_run =
    Some (true, Some (0, 2, 2), Some (0, 2, 2))) as E by by vm_compute.
  destruct write_run as [cs|]; [|discriminate E]. cbn [fmap option_fmap option_map] in E. injection E as Ef E1 E2.
  destruct (starting 1 cs) as [x1|] eqn:S1; [|discriminate E1]. destruct (starting 2 cs) as [x2|] eqn:S2; [|discriminate E2].
  apply (inj Some) in E1, E2. by exists cs, x1, x2.
Qed.

Lemma starting_spec v cs x :
  starting v cs = Some x →
  was cs v x.1 ∧ replica_new x.1 (fresh_store Options_default) None (λ _, 7) = (Ok tt, x.2).
Proof.
  unfold starting. intros (c & Hc & E)%bind_Some. destruct (c_procs c !! v) as [[nd|st]|] eqn:Hv; [|done|done].
  destruct (replica_new nd _ _ _) as [[[]|e] r0] eqn:Er; [|done]. injection E as <-. split; [|done].
  rewrite last_lookup in Hc. by exists (pred (length cs)), c.
Qed.

(** One application is a life. *)
Lemma starting_life v cs x i a :
  applied_to x = (i, a, a) →
  rtc (replica_life cs v demo_order Options_default) (0, x.2) (a, (replica_apply demo_order x.2).2) ∧
  rp_applied (replica_apply demo_order x.2).2 = a.
Proof.
  unfold applied_to. intros [= _ Ec Ea]. split; [|done]. apply rtc_once.
  destruct (replica_apply demo_order x.2) as [res r'] eqn:E. cbn [snd] in *.
  pose proof (rl_apply cs v demo_order Options_default 0 x.2 res r' E) as Hl. by rewrite Ec, N.max_0_l in Hl.
Qed.

Lemma trace_fits_spec cs v nd : trace_fits cs = true → was cs v nd → log_fits (e_command <$> committed nd).
Proof.
  intros Hf%bool_decide_eq_true (i & c & Hi & Hv). apply (proj1 (list.Forall_forall _ _) Hf), list_elem_of_bind.
  exists c. split; [apply elem_of_up_nodes; by exists v|by eapply list_elem_of_lookup_2].
Qed.

Lemma cluster_stores_agree_witness :
  ∃ cs x1 x2, write_run = Some cs ∧ starting 1 cs = Some x1 ∧ starting 2 cs = Some x2 ∧
    ∀ k, store_get (rp_store (replica_apply demo_order x1.2).2) k = store_get (rp_store (replica_apply demo_order x2.2).2) k.
Proof.
  destruct write_run_ok as (cs & x1 & x2 & Ew & Hf & S1 & S2 & A1 & A2).
  assert (history three_voters cs) as Hh by (eapply strace_history; [apply three_nodes_sreachable|exact Ew]).
  destruct (cluster_stores_agree three_voters three_voters_vote cs Hh (λ v nd, trace_fits_spec cs v nd Hf)) as (L & _ & HL).
  destruct (starting_spec 1 cs x1 S1) as [W1 N1]. destruct (starting_spec 2 cs x2 S2) as [W2 N2].
  destruct (starting_life 1 cs x1 0 2 A1) as [R1 P1]. destruct (starting_life 2 cs x2 0 2 A2) as [R2 P2].
  assert (n_last_applied x1.1 = 0 ∧ n_last_applied x2.1 = 0) as [Z1 Z2] by (unfold applied_to in A1, A2; split; congruence).
  pose proof (HL 1 demo_order Options_default x1.1 (λ _, 7) x1.2 2 _ demo_walks eq_refl W1 Z1 (λ _, eq_refl) N1 R1) as [_ G1].
  pose proof (HL 2 demo_order Options_default x2.1 (λ _, 7) x2.2 2 _ demo_walks eq_refl W2 Z2 (λ _, eq_refl) N2 R2) as [_ G2].
  rewrite P1 in G1. rewrite P2 in G2.
  exists cs, x1, x2. exact (conj Ew (conj S1 (conj S2 (λ k, eq_trans (G1 (N.le_refl 2) k) (eq_sym (G2 (N.le_refl 2) k)))))).
Defined.
