(* ===== verification/ClusterReads.v ===== *)
(** * Reads of a cluster's stores are linearizable (src/raft/node.rs with src/replicated.rs)

    Reads and application put together: a store that has applied the index a read was answered with
    holds exactly what the one log means at an index no earlier than anything committed before the
    read began, even after crashes, when a store may hold parts of later states. *)

From S2P Require Import Prelude.
From S2P Require Import RecordFormat.
From S2P Require Import RaftLog.
From S2P Require Import Message.
From S2P Require Import NodeState.
From S2P Require Import Node.
From S2P Require Import Election.
From S2P Require Import ElectionSafety.
From S2P Require Import Replication.
From S2P Require Import LogSteps.
From S2P Require Import LogMatching.
From S2P Require Import LeaderCompleteness.
From S2P Require Import StateMachine.
From S2P Require Import LinearReads.
From S2P Require Import DataLog.
From S2P Require Import Store.
From S2P Require Import StoreInv.
From S2P Require Import StoreMap.
From S2P Require Import StoreCrash.
From S2P Require Import Replicated.
From S2P Require Import ReplicaSnapshot.
From S2P Require Import ReplicaApply.
From S2P Require Import ReplicaInline.
From S2P Require Import ReplicaLife.
From S2P Require Import ClusterAgreement.

#[local] Open Scope N_scope.
#[local] Opaque rec_bytes.

Section reads.
Context {St : Type} `{SnapshotLaws St} `{!StorageLaws St}.
Implicit Types (nd : Node St) (c : Cluster (S := St)) (r : ReplicatedStore St).

Variable B : list Member.
Hypothesis HB : Forall (λ m, m_learner m = false) B.

(** ** How far a replica may have been *)

Lemma was_app cs1 cs2 v nd : was cs1 v nd → was (cs1 ++ cs2) v nd.
Proof. intros (i & c & Hi & Hv). exists i, c. split; [by apply lookup_app_l_Some|done]. Qed.

Lemma replica_life_app cs1 cs2 v old_ids opts x y :
  replica_life cs1 v old_ids opts x y → replica_life (cs1 ++ cs2) v old_ids opts x y.
Proof.
  destruct 1 as [n r nd Hw Ha|n r every bg|n r res r' E|n r d file s' d' nd clock Hl E Hw Ha Hcl|n r res r' E].
  - apply rl_node; [by apply was_app|done].
  - apply rl_mode.
  - by eapply rl_apply.
  - by eapply rl_crash; [..|apply was_app| |].
  - by eapply rl_start.
Qed.

(** No further than a node it has had, whose commit index its node still has. *)
Definition within cs (v : NodeId) (x : N * ReplicatedStore St) : Prop :=
  (x.1 = 0 ∨ ∃ nd, was cs v nd ∧ x.1 ≤ n_commit_index nd) ∧ ∃ nd, was cs v nd ∧ n_commit_index (rp_node x.2) = n_commit_index nd.

Lemma was_whole cs v nd : history B cs → was cs v nd → whole (slog nd).
Proof. intros Hh (i & c & Hi & Hv). by destruct (commit_in_range B HB c v nd (history_reachable _ _ _ _ Hh Hi) Hv). Qed.

(** A replica started on a node whose log is whole has nothing to restore. *)
Lemma replica_new_node nd s file clock r :
  whole (slog nd) → replica_new nd s file clock = (Ok tt, r) → rp_node r = nd ∧ rp_applied r = read_applied file.
Proof.
  intros [_ Hb]. unfold replica_new. cbn zeta. set (r0 := mkReplicated _ _ _ _ _ _ _ _ _ _).
  assert (snapshot_index r0 = 0) as ->. { unfold snapshot_index, r0. cbn. rewrite law_snapshot_meta. fold (slog nd). by rewrite Hb. }
  rewrite (proj2 (N.ltb_ge _ _)) by lia. by intros [= <-].
Qed.

Lemma within_max cs v n r : within cs v (n, r) → (∃ nd, was cs v nd ∧ N.max n (n_commit_index (rp_node r)) ≤ n_commit_index nd).
Proof.
  intros [[Hn|(nd & Hw & Hle)] (nd' & Hw' & E)]; cbn [fst snd] in *; [exists nd'; split; [done|lia]|].
  destruct (decide (n_commit_index nd ≤ n_commit_index nd')); [exists nd'|exists nd]; (split; [done|lia]).
Qed.

Lemma replica_apply_commit L n r old_ids :
  log_fits L → walks old_ids → LifeInv L (n, r) → n_commit_index (rp_node (replica_apply old_ids r).2) = n_commit_index (rp_node r).
Proof.
  intros HL Hold [HI HN]. destruct (decide (rp_background r = true ∧ rp_applied r < snapshot_index r)) as [[Hb Hlt]|Hno].
  - unfold replica_apply, mbind, M_bind, mget. by rewrite Hb, (proj2 (N.ltb_lt _ _)).
  - pose proof (replica_apply_ok L n r old_ids HL Hold HI HN) as Ha. cbn zeta in Ha. destruct (replica_apply old_ids r) as [res r'].
    destruct Ha as (_ & _ & _ & Ec & _); [|done]. intros Hb. destruct (N.le_gt_cases (snapshot_index r) (rp_applied r)); [done|]. exfalso. by apply Hno.
Qed.

Lemma within_life cs v old_ids opts L x y :
  history B cs → log_fits L → walks old_ids → LifeInv L x → within cs v x → replica_life cs v old_ids opts x y → within cs v y.
Proof.
  intros Hh HL Hold HI Hx Hst. destruct Hst as [n r nd Hw Ha|n r every bg|n r res r' E|n r d file s' d' nd clock Hl E Hw Ha Hcl|n r res r' E].
  - destruct Hx as [Hn _]. split; [done|]. by exists nd.
  - done.
  - pose proof (replica_apply_commit L n r old_ids HL Hold HI) as Ec. rewrite E in Ec. cbn [snd] in Ec.
    split; [right; by apply within_max|]. destruct Hx as [_ (nd & Hw & En)]. exists nd. split; [done|]. cbn [snd] in *. congruence.
  - split; [right; by apply within_max|]. by exists nd.
  - destruct HI as [HI HN]. destruct (catch_up_ok L n r (proj1 HL) HI HN) as (r2 & E2 & _ & _ & _ & _ & End). rewrite E in E2. injection E2 as -> <-.
    destruct Hx as [Hn Hc]. split; [done|]. cbn [snd] in *. by rewrite End.
Qed.

Lemma lives_within cs1 cs2 v old_ids opts L x y :
  history B (cs1 ++ cs2) → history B cs1 → (∀ nd, was (cs1 ++ cs2) v nd → committed nd `prefix_of` L) → log_fits (e_command <$> L) →
  walks old_ids → is_u64 (o_max_file_bytes opts) → LifeInv (e_command <$> L) x ∧ within cs1 v x →
  rtc (replica_life cs1 v old_ids opts) x y → LifeInv (e_command <$> L) y ∧ within cs1 v y.
Proof.
  intros Hh Hh1 HL Hf Hold Hmax Hx Hr. induction Hr as [|x y z Hst _ IH]; [done|]. apply IH. destruct Hx as [HIx HWx]. split.
  - eapply (replica_lives_inv B HB (cs1 ++ cs2) v old_ids opts); [done..|]. by apply rtc_once, replica_life_app.
  - by eapply within_life.
Qed.

(** ** A replica that serves *)

(** What it does between a read and its answer: it goes on applying, nothing kills it, and no
    snapshot is ahead of its store. *)
Inductive serving cs (v : NodeId) (old_ids : Store → list N) : N * ReplicatedStore St → N * ReplicatedStore St → Prop :=
  | sv_node n r nd :
      was cs v nd → n_last_applied nd ≤ rp_applied r → serving cs v old_ids (n, r) (n, rp_set_node nd r)
  | sv_mode n r every background :
      serving cs v old_ids (n, r) (n, set_snapshot_every every (set_background_snapshots background r))
  | sv_apply n r res r' :
      snapshot_index r ≤ rp_applied r → replica_apply old_ids r = (res, r') →
      serving cs v old_ids (n, r) (N.max n (n_commit_index (rp_node r)), r').

Lemma serving_life cs v old_ids opts x y : serving cs v old_ids x y → replica_life cs v old_ids opts x y.
Proof. destruct 1; [by apply rl_node|apply rl_mode|by eapply rl_apply]. Qed.

(** It has applied all that it holds, but for what it held before. *)
Lemma serving_applied cs v old_ids L n0 x y :
  log_fits L → walks old_ids → LifeInv L x → x.1 ≤ N.max n0 (rp_applied x.2) → serving cs v old_ids x y → y.1 ≤ N.max n0 (rp_applied y.2).
Proof.
  intros HL Hold [HI HN] Hx Hst. destruct Hst as [n r nd Hw Ha|n r every bg|n r res r' Hs E]; cbn [fst snd] in *; [done|done|].
  pose proof (replica_apply_ok L n r old_ids HL Hold HI HN (λ _, Hs)) as Hap. cbn zeta in Hap. rewrite E in Hap.
  destruct Hap as (_ & _ & -> & _). unfold caught_up. lia.
Qed.

Lemma serving_exact cs v old_ids opts L n0 x y :
  history B cs → (∀ nd, was cs v nd → committed nd `prefix_of` L) → log_fits (e_command <$> L) → walks old_ids → is_u64 (o_max_file_bytes opts) →
  LifeInv (e_command <$> L) x → x.1 ≤ N.max n0 (rp_applied x.2) → rtc (serving cs v old_ids) x y →
  LifeInv (e_command <$> L) y ∧ y.1 ≤ N.max n0 (rp_applied y.2).
Proof.
  intros Hh HL Hf Hold Hmax HI Hx Hr. induction Hr as [|x y z Hst _ IH]; [done|]. apply IH; [|by eapply serving_applied].
  eapply (replica_lives_inv B HB cs v old_ids opts); [done..|]. by apply rtc_once, serving_life.
Qed.

(** ** The property *)

Lemma last_is_later cs1 cs2 c1 i c : history B (cs1 ++ cs2) → list.last cs1 = Some c1 → cs1 !! i = Some c → rtc (sstep B) c c1.
Proof.
  intros Hh Hl Hi. rewrite last_lookup in Hl. pose proof (lookup_lt_Some _ _ _ Hi).
  eapply (history_steps B _ i (pred (length cs1))); [done|by apply lookup_app_l_Some..|lia].
Qed.

Lemma first_is_earlier cs1 cs2 c' i c : history B (cs1 ++ cs2) → cs2 !! 0%nat = Some c' → cs2 !! i = Some c → rtc (sstep B) c' c.
Proof.
  intros Hh H0' Hi. eapply (history_steps B _ (length cs1 + 0) (length cs1 + i)); [done| | |lia]; rewrite lookup_app_r by lia.
  - by replace (length cs1 + 0 - length cs1)%nat with 0%nat by lia.
  - by replace (length cs1 + i - length cs1)%nat with i by lia.
Qed.

(** C2: reads of a cluster are linearizable. Take any run of a cluster of fixed membership whose logs are
    not compacted, cut where a node opens a read, by itself or through the leader, with a number it has
    not used. When the read has been answered, and the node's replica, through whatever crashes and
    restarts before the read, its store's compactions deleting the oldest files first, has applied up to the answer, its store holds exactly what the one log of
    the run means at the index it has applied: an index that covers everything any node had committed
    before the read was opened, so every write acknowledged by then, and that is nowhere a mixture. *)
Theorem cluster_read_linearizable cs1 cs2 c1 v nd request acts nd1 nd2 i old_ids opts nd0 clock r0 n1 r1 n2 r2 :
  history B (cs1 ++ cs2) → (∀ u m, was (cs1 ++ cs2) u m → log_fits (e_command <$> committed m)) →
  walks old_ids → is_u64 (o_max_file_bytes opts) → was cs1 v nd0 → n_last_applied nd0 = 0 → (∀ j, is_u64 (clock j)) →
  replica_new nd0 (fresh_store opts) None clock = (Ok tt, r0) → rtc (replica_life cs1 v old_ids opts) (0, r0) (n1, r1) →
  list.last cs1 = Some c1 → c_procs c1 !! v = Some (Up nd) → read_index nd = (request, acts, nd1) → new_question c1 v request →
  cs2 !! 0%nat = Some (advance v nd (Up nd1) acts c1) →
  rtc (serving (cs1 ++ cs2) v old_ids) (n1, r1) (n2, r2) → was cs2 v nd2 → read_state nd2 request = RReady i → i ≤ rp_applied r2 →
  ∃ L, (∀ u m, was (cs1 ++ cs2) u m → committed m `prefix_of` L) ∧ (∀ u m, was cs1 u m → n_commit_index m ≤ rp_applied r2) ∧
    ∀ k, store_get (rp_store r2) k = Ok (state_at (e_command <$> L) (rp_applied r2) !! k).
Proof.
  intros Hh Hfit Hold Hmax Hw0 Hla Hcl Er0 Hlife Hlast Hv Hri Hnew Hfirst Hserve (j & c2 & Hj & Hv2) Hrs Hi.
  assert (∀ u m, was cs1 u m → n_commit_index m ≤ i) as Hcov.
  { intros u m (a & c & Ha & Hu). eapply (read_covers B HB c c1 c2 u m v nd request acts nd1 nd2); try done.
    - eapply (history_reachable B (cs1 ++ cs2) a); [done|by apply lookup_app_l_Some].
    - by eapply last_is_later.
    - by eapply first_is_earlier. }
  destruct (one_log B HB _ Hh) as (L & HL & Hpre). exists L. split; [done|]. split; [intros u m Hu; specialize (Hcov u m Hu); lia|].
  assert (log_fits (e_command <$> L)) as Hf by (destruct HL as [->|(u & ud & Hu & ->)]; [done|by eapply Hfit]).
  assert (history B cs1) as Hh1.
  { destruct Hh as [Hz Hs]. split; [intros c Hc; apply Hz; by apply lookup_app_l_Some|]. intros a c c' Ha Ha'. eapply Hs; by apply lookup_app_l_Some. }
  assert (LifeInv (e_command <$> L) (0, r0) ∧ within cs1 v (0, r0)) as H0'.
  { split.
    - eapply life_begins; [done|done| |done|done]. apply (was_node_ok B HB (cs1 ++ cs2) v); [done|by apply was_app|by apply (Hpre v), was_app|lia].
    - split; [by left|]. exists nd0. split; [done|]. cbn [snd]. by destruct (replica_new_node _ _ _ _ _ (was_whole _ _ _ Hh1 Hw0) Er0) as [-> _]. }
  destruct (lives_within cs1 cs2 v old_ids opts L (0, r0) (n1, r1)) as [HI1 HW1]; try done; [by intros; eapply Hpre|].
  destruct (serving_exact (cs1 ++ cs2) v old_ids opts L n1 (n1, r1) (n2, r2)) as [HI2 Hn2]; try done; [by intros; eapply Hpre|cbn; lia|].
  cbn [fst snd] in Hn2. destruct (LifeInv_reads _ _ _ HI2) as (_ & _ & _ & Hexact). apply Hexact.
  destruct HW1 as [HW1 _]. cbn [fst] in HW1. destruct HW1 as [E1|(ndw & Hw & Hle)]; [lia|]. specialize (Hcov v ndw Hw). lia.
Qed.
End reads.

(** ** A read on a follower *)

Section trace.
Context {St : Type} `{SnapshotLaws St} `{!StorageLaws St}.

Lemma history_app B (cs1 cs2 : list (Cluster (S := St))) c1 c2 :
  history B cs1 → list.last cs1 = Some c1 → sstep B c1 c2 → cs2 !! 0%nat = Some c2 →
  (∀ i c c', cs2 !! i = Some c → cs2 !! S i = Some c' → sstep B c c') → history B (cs1 ++ cs2).
Proof.
  intros [Hz Hs] Hlast Hstep Hfirst Hs2. rewrite last_lookup in Hlast. pose proof (lookup_lt_Some _ _ _ Hlast) as Hlen. split.
  - intros c Hc. apply Hz. by rewrite lookup_app_l in Hc by lia.
  - intros i c c' Hi Hi'. destruct (decide (S i < length cs1)%nat) as [Hlt|].
    + rewrite lookup_app_l in Hi, Hi' by lia. by eapply Hs.
    + rewrite lookup_app_r in Hi' by lia. destruct (decide (i < length cs1)%nat) as [Hlt|].
      * rewrite lookup_app_l in Hi by lia. replace i with (pred (length cs1)) in Hi by lia. replace (S i - length cs1)%nat with 0%nat in Hi' by lia. congruence.
      * rewrite lookup_app_r in Hi by lia. replace (S i - length cs1)%nat with (S (i - length cs1)) in Hi' by lia. by eapply Hs2.
Qed.

Lemma strace_steps B (c : Cluster (S := St)) xs cs i a b : strace B c xs = Some cs → cs !! i = Some a → cs !! S i = Some b → sstep B a b.
Proof.
  revert c cs i. induction xs as [|x xs IH]; intros c cs i; simpl; [by intros [= <-]; destruct i|].
  destruct (sexec B c x) as [c1|] eqn:Ex; [|done]. intros (cs' & E & ->)%fmap_Some. destruct i as [|i]; simpl.
  - intros [= <-] Hb. rewrite (strace_head _ _ _ _ E) in Hb. injection Hb as <-. by eapply sexec_sstep.
  - by apply (IH c1 cs' i E).
Qed.
End trace.

(** After the writes of [write_run] node 2 asks the leader, which confirms with it that it leads. *)
Definition read_steps : list (Sched (S := MemStorage)) :=
  [SInput 1 (InStep 2 (ReadIndex 1 1)); SInput 2 (InStep 1 (AppendEntries 1 2 1 [] 2 1));
   SInput 1 (InStep 2 (AppendEntriesReply 1 true 2 0 None 1)); SInput 2 (InStep 1 (ReadIndexReply 1 1 (Some 2)))].

Definition no_question (c : Cluster (S := MemStorage)) : bool :=
  forallb (λ x, match x.2 with ReadIndex _ _ => false | _ => true end) (c_net c).

(** The run up to the question, the node that asks, and its replica; the run from there, and the answer. *)
Definition read_run :=
  cs1 ← write_run; c1 ← list.last cs1; x ← starting 2 cs1;
  '(request, c2) ← ask 2 c1; cs2 ← strace three_voters c2 read_steps; c3 ← list.last cs2;
  Some (cs1, c1, x, request, c2, cs2, c3).

Definition read_seen (y : list Cluster * Cluster * (Node MemStorage * ReplicatedStore MemStorage) * ReadKind * Cluster * list Cluster * Cluster) :=
  let '(cs1, c1, x, request, _, cs2, c3) := y in
  (trace_fits (cs1 ++ cs2), no_question c1, applied_to x, snapshot_index x.2 <=? rp_applied x.2, request, answer_of 2 request c3).

Lemma ask_spec v c request c' :
  ask v c = Some (request, c') →
  ∃ n acts n1, c_procs c !! v = Some (Up n) ∧ read_index n = (request, acts, n1) ∧ c' = advance v n (Up n1) acts c.
Proof.
  unfold ask. destruct (c_procs c !! v) as [[n|st]|]; [|done|done]. destruct (read_index n) as [[rq acts] n1] eqn:E.
  intros Hs. apply (inj Some) in Hs. injection Hs as -> <-. by exists n, acts, n1.
Qed.

Lemma ask_step v (c c' : Cluster (S := MemStorage)) request : ask v c = Some (request, c') → sstep three_voters c c'.
Proof.
  intros (n & acts & n1 & Hn & Hri & ->)%ask_spec. apply (ss_input _ _ _ _ InRead); [done|done|done|]. unfold node_input. by rewrite Hri.
Qed.

(** The run, taken apart. *)
Lemma read_run_ok :
  ∃ cs1 c1 x c2 cs2 c3 nd2, write_run = Some cs1 ∧ list.last cs1 = Some c1 ∧ starting 2 cs1 = Some x ∧ ask 2 c1 = Some (KForwarded 1 1, c2) ∧
    strace three_voters c2 read_steps = Some cs2 ∧ list.last cs2 = Some c3 ∧ c_procs c3 !! 2 = Some (Up nd2) ∧
    trace_fits (cs1 ++ cs2) = true ∧ no_question c1 = true ∧ applied_to x = (0, 2, 2) ∧ snapshot_index x.2 ≤ rp_applied x.2 ∧
    read_state nd2 (KForwarded 1 1) = RReady 2.
Proof.
  assert (read_seen <$> read_run = Some (true, true, (0, 2, 2), true, KForwarded 1 1, Some (RReady 2, 2))) as E by by vm_compute.
  apply fmap_Some in E as (y & Hy & E). unfold read_run in Hy.
  apply bind_Some in Hy as (cs1 & E1 & Hy). apply bind_Some in Hy as (c1 & E2 & Hy). apply bind_Some in Hy as (x & E3 & Hy).
  apply bind_Some in Hy as ([request c2] & E4 & Hy). apply bind_Some in Hy as (cs2 & E5 & Hy). apply bind_Some in Hy as (c3 & E6 & Hy).
  apply (inj Some) in Hy. subst y. unfold read_seen in E. 
  apply pair_equal_spec in E as [E F6]. apply pair_equal_spec in E as [E F5]. apply pair_equal_spec in E as [E F4].
  apply pair_equal_spec in E as [E F3]. apply pair_equal_spec in E as [F1 F2]. subst request. unfold answer_of in F6.
  destruct (c_procs c3 !! 2) as [[nd2|st]|] eqn:Hn2; [|discriminate F6|discriminate F6]. apply (inj Some), pair_equal_spec in F6 as [F6 _]. symmetry in F4. apply N.leb_le in F4.
  exists cs1, c1, x, c2, cs2, c3, nd2.
  exact (conj E1 (conj E2 (conj E3 (conj E4 (conj E5 (conj E6 (conj Hn2 (conj (eq_sym F1) (conj (eq_sym F2) (conj (eq_sym F3) (conj F4 (eq_sym F6)))))))))))).
Qed.

Lemma cluster_read_linearizable_witness :
  ∃ cs1 c1 x c2 cs2 L, write_run = Some cs1 ∧ starting 2 cs1 = Some x ∧ ask 2 c1 = Some (KForwarded 1 1, c2) ∧
    strace three_voters c2 read_steps = Some cs2 ∧ rp_applied (replica_apply demo_order x.2).2 = 2 ∧
    (∀ u m, was cs1 u m → n_commit_index m ≤ 2) ∧
    ∀ k, store_get (rp_store (replica_apply demo_order x.2).2) k = Ok (state_at (e_command <$> L) 2 !! k).
Proof.
  destruct read_run_ok as (cs1 & c1 & x & c2 & cs2 & c3 & nd2 & E1 & E2 & E3 & E4 & E5 & E6 & Hn2 & Hf & Hq & Ha & Hsi & Hrs).
  destruct (ask_spec _ _ _ _ E4) as (nd & acts & nd1 & Hn & Hri & Ec2).
  assert (history three_voters cs1) as Hh1 by (eapply strace_history; [apply three_nodes_sreachable|exact E1]).
  pose proof (strace_head _ _ _ _ E5) as Hfirst.
  assert (history three_voters (cs1 ++ cs2)) as Hh.
  { eapply history_app; [exact Hh1|exact E2|exact (ask_step _ _ _ _ E4)|exact Hfirst|]. intros i a b. by eapply strace_steps. }
  destruct (starting_spec 2 cs1 x E3) as [W N0]. pose proof (f_equal (λ t, t.1.1) Ha : n_last_applied x.1 = 0) as Z.
  pose proof (f_equal (λ t, t.1.2) Ha : n_commit_index (rp_node x.2) = 2) as Hc.
  pose proof (f_equal (λ t, t.2) Ha : rp_applied (replica_apply demo_order x.2).2 = 2) as Ha'.
  assert (new_question c1 2 (KForwarded 1 1)) as Hnew.
  { intros to t Hin%list_elem_of_In. unfold no_question in Hq. rewrite forallb_forall in Hq. by specialize (Hq _ Hin). }
  destruct (replica_apply demo_order x.2) as [res r'] eqn:Ea. cbn [snd] in Ha'.
  pose proof (sv_apply (cs1 ++ cs2) 2 demo_order 0 x.2 res r' Hsi Ea) as Hsv. rewrite Hc in Hsv.
  rewrite last_lookup in E6. pose proof (ex_intro _ (pred (length cs2)) (ex_intro _ c3 (conj E6 Hn2)) : was cs2 2 nd2) as W2.
  assert (2 ≤ rp_applied r') as Hle by (rewrite Ha'; reflexivity). rewrite Ec2 in Hfirst.
  destruct (cluster_read_linearizable three_voters three_voters_vote cs1 cs2 c1 2 nd (KForwarded 1 1) acts nd1 nd2 2 demo_order Options_default
    x.1 (λ _, 7) x.2 0 x.2 (N.max 0 2) r' Hh (λ u m, trace_fits_spec _ u m Hf) demo_walks eq_refl W Z (λ _, eq_refl) N0 (rtc_refl _ _)
    E2 Hn Hri Hnew Hfirst (rtc_once _ _ Hsv) W2 Hrs Hle) as (L & _ & Hcov & Hget).
  rewrite Ha' in Hcov, Hget. exists cs1, c1, x, c2, cs2, L. rewrite Ea. cbn [snd]. exact (conj E1 (conj E3 (conj E4 (conj E5 (conj Ha' (conj Hcov Hget)))))).
Defined.
