(* ===== verification/ReplicaBackground.v ===== *)
(** * Snapshots carried from one replica to another, and restores in the background

    A snapshot taken of one store makes any other exactly it, whether the replica walks it
    into its store while applying or a job writes it into a file off to the side. *)

From S2P Require Import Prelude.
From S2P Require Import RecordFormat.
From S2P Require Import RaftLog.
From S2P Require Import Message.
From S2P Require Import NodeState.
From S2P Require Import Node.
From S2P Require Import Election.
From S2P Require Import Replication.
From S2P Require Import DataLog.
From S2P Require Import Store.
From S2P Require Import StoreIndex.
From S2P Require Import StoreInv.
From S2P Require Import StoreOps.
From S2P Require Import StoreMap.
From S2P Require Import StoreCrash.
From S2P Require Import StoreCompact.
From S2P Require Import StoreSide.
From S2P Require Import StoreRestore.
From S2P Require Import Replicated.
From S2P Require Import ReplicaSnapshot.
From S2P Require Import ReplicaWrites.
From S2P Require Import ReplicaRestore.
From S2P Require Import ReplicaApply.
From S2P Require Import ReplicaInline.
From S2P Require Import ReplicaLife.

#[local] Open Scope N_scope.
#[local] Opaque rec_bytes.

(** Whatever a store holds, it can take again. *)
Lemma Refines_map_ok s m : Refines s m → map_ok m.
Proof.
  intros HR k v Hk. destruct (Refines_dom s m k HR) as [_ [loc Hl]]; [by eexists|].
  destruct HR as (fs & rs & HI & Hm).
  destruct (keydir_ok_lookup _ _ k loc (ixd_keydir _ _ (si_index _ _ _ HI)) Hl) as (p & Hp & _).
  rewrite <-Hm, contents_lookup, Hp in Hk. cbn in Hk. apply index_of_Some in Hp as (Hin & Hkey & _).
  pose proof (SInv_rec_ok _ _ _ _ HI Hin) as ((Hne & _) & _ & Hlen). rewrite rec_bytes_len in Hlen.
  rewrite Hkey, Hk in *. split; [done|exact Hlen].
Qed.

Section replica.
Context {St : Type} `{SnapshotLaws St} `{!StorageLaws St}.
Implicit Types (r : ReplicatedStore St) (L : list Command).

(** ** The job off to the side *)

Lemma restore_pushes_miter ps : 
  StronglySorted bytes_lt ps.*1 → Forall (λ x, x.1 ≠ [] ∧ fits x.1 x.2) ps →
  ∀ fuel off prev j, (length ps < fuel)%nat → (∀ p x, prev = Some p → x ∈ ps.*1 → bytes_lt p x) →
  restore_pushes fuel (mkSnapshotRecords (file_bytes (restored_recs ps)) off prev) j = miter (λ x, restore_push x.1 x.2) ps j.
Proof.
  induction ps as [|[k v] ps IH]; intros Hs Hok fuel off prev j Hf Hp; (destruct fuel as [|fuel]; [simpl in Hf; lia|]);
    cbn [restore_pushes miter]; unfold mbind, M_bind, mlift.
  { change (file_bytes (restored_recs [])) with (@nil byte). by rewrite snapshot_next_end. }
  apply Forall_cons_1 in Hok as [[Hne Hfit] Hok]. cbn [fst snd] in Hne, Hfit.
  unfold restored_recs. rewrite fmap_cons, file_bytes_cons. cbn [fst snd].
  rewrite snapshot_next_ok; [|done..|intros p Ep; apply (Hp p k Ep), list_elem_of_here].
  destruct (restore_push k v j) as [[[]|e] j']; [|done]. apply IH; [by apply StronglySorted_inv in Hs as [? _]|done|simpl in Hf; lia|].
  intros p x [= <-] Hx. by apply (sorted_head_lt k (ps.*1)).
Qed.

(** From beginning to end, on a store that means anything. *)
Lemma restore_job_ok (s : Store) m ms old_ids index :
  Refines s m → s_compacting s = false → s_restoring s = false → (∀ id, id ∈ old_ids ↔ id ∈ s_readers s) →
  map_ok ms → is_u64 (map_bytes ms) →
  ∃ job s1, begin_restore old_ids s = (Ok job, s1) ∧ (∀ k, store_get s1 k = Ok (m !! k)) ∧
    ∃ rst d, RestoreJob_run (mkReplicaRestoreJob job (snapshot_bytes ms) index) (s_dir s1) = (Ok rst, d) ∧
      rst_index rst = index ∧
      let s2 := finish_restore (rst_file rst) (s_set_dir d s1) in
      Refines s2 ms ∧ s_restoring s2 = false ∧ s_compacting s2 = false.
Proof.
  intros HR Hc Hr Hold Hok Hu. destruct HR as (fs & rs & HI & Hm).
  destruct (begin_restore_ok s fs rs old_ids HI Hc Hr) as (s1 & E1 & HS & Hr1 & Hc1 & Ho1). cbv zeta in E1, HS.
  set (fs0 := fs ++ [(active_id s, rs)]) in *. set (mid := active_id s + 1) in *.
  pose proof (key_list_NoDup ms) as Hnd. rewrite <-snapshot_pairs_keys in Hnd.
  destruct (pushes_ok mid old_ids (mkRestoreJob mid [] 0 [] [] old_ids) [] (snapshot_pairs ms)) as (job' & E2 & HP);
    [split; try done; apply Indexed_empty|done|by apply snapshot_pairs_ok|].
  exists (mkRestoreJob mid [] 0 [] [] old_ids), s1. split; [done|]. split.
  { intros k. assert (side_map fs0 [] [] = m) as <-; [|by eapply Refines_get, side_refines, HS].
    rewrite <-Hm. unfold side_map, contents, fs0. by rewrite all_recs_files, all_recs_app, all_recs_one, app_nil_r. }
  unfold RestoreJob_run. cbn [rrj_reader rrj_job rrj_index]. unfold SnapshotRecords_new. unfold snapshot_bytes at 2.
  rewrite restore_pushes_miter; [|rewrite snapshot_pairs_keys; apply key_list_sorted|by apply snapshot_pairs_ok| |done].
  2:{ unfold snapshot_bytes. pose proof (length_file_bytes (restored_recs (snapshot_pairs ms))) as Hl.
      unfold restored_recs in Hl at 1. rewrite length_fmap in Hl. lia. }
  rewrite E2. cbn [app] in HP.
  assert (blen (file_bytes (restored_recs (snapshot_pairs ms))) = map_bytes ms) as Elen.
  { destruct HP as [_ _ _ P4 _ _ P7]. rewrite <-P4. apply replay_bytes in P7. cbn in P7.
    rewrite P7, replay_restored, snapshot_pairs_map by done. done. }
  pose proof (finish_restore_ok s1 fs0 mid old_ids job' (snapshot_pairs ms) HS HP Hnd) as Hf.
  rewrite Elen, snapshot_pairs_map in Hf. specialize (Hf Hu).
  destruct (restore_finish job' (s_dir s1)) as [rf d]. eexists _, d. split; [done|]. split; [done|].
  cbn [rst_file]. destruct Hf as (F1 & F2 & F3); [|done|by rewrite F3].
  intros id. rewrite Hold, (si_readers _ _ _ HI), elem_of_list_to_set. unfold fs0. by rewrite fmap_app.
Qed.

(** ** The replica *)

(** C22: a snapshot taken of one store makes any other exactly it. Whatever storage it goes
    through, the job that writes a store out leaves in the sink bytes that depend on the
    store's contents alone; a replica that finds those bytes ahead of it, whatever its own
    store holds, ends up with exactly those contents, no key more, synced, with the snapshot's
    index applied and recorded. *)
Theorem snapshot_carries_store (s : Store) (m ms : gmap bytes bytes) (k k' : Sink) r :
  Refines s ms → sink_holds k [] → SnapshotJob_run (mkSnapshotJob (store_view s).1 k) = Ok k' →
  Refines (rp_store r) m → s_restoring (rp_store r) = false → s_compacting (rp_store r) = false →
  (∀ i, is_u64 (rp_clock r i)) → is_u64 (snapshot_index r) →
  sink_holds k' (snapshot_bytes ms) ∧
  (snapshot_reader (n_storage (rp_node r)) = Ok (snapshot_bytes ms) →
    ∃ r', replica_restore r = (Ok tt, r') ∧ (∀ key, store_get (rp_store r') key = Ok (ms !! key)) ∧
      is_synced (rp_store r') = true ∧ rp_applied r' = snapshot_index r ∧
      read_applied (rp_applied_file r') = snapshot_index r).
Proof.
  intros HRs Hk Ej HR Hre Hco Hcl Hu. pose proof (Refines_map_ok s ms HRs) as Hok. split.
  - destruct HRs as (fs & rs & HI & <-). by eapply job_holds.
  - intros Hrd. destruct (Refines_history _ _ HR) as (hs0 & hs & HH & <-).
    assert (SoundFrom hs0 (λ _, True) r (replay hs)) as HS by (split; try done; by exists hs0, hs).
    destruct (replica_restore_ok hs0 (λ _, True) r (replay hs) ms) as (r1 & r' & E & _ & _ & _ & -> & HS' & Hsy); [done..|].
    eexists. split; [exact E|]. split_and!; [|done|done|by apply read_applied_bytes].
    intros key. apply Refines_get. by eapply Sound_refines.
Qed.

(** A store that has become the snapshot, synced, and the index written. *)
Lemma restored_RInv L n r s i ms :
  log_ok L → Refines s ms → s_restoring s = false → s_compacting s = false → Mixed L i n ms → i ≤ n → n ≤ blen L →
  (∀ j, is_u64 (rp_clock r j)) →
  RInv L n (rp_set_applied_file (applied_bytes i) (rp_set_applied i (rp_set_store (store_sync s) r))).
Proof.
  intros HL HR Hre Hco HM Hi Hn Hcl. destruct (sync_refines _ _ HR) as [HR' Hsy]. destruct (sync_flags s) as [F1 F2].
  apply (claim_ok L n (rp_set_applied i (rp_set_store (store_sync s) r)) ms); [done| |done..].
  apply Sound_synced; cbn; [done|done|congruence|congruence|done].
Qed.

(** C23: a restore in the background ends where one in the foreground does. A replica that finds
    a leader's snapshot ahead of it starts the job, goes on reading what it had and applies
    nothing; once the job has run and is handed back, the store is the snapshot, and
    everything committed after it has been applied: its contents are the log's. *)
Theorem background_restore_exact L n r old_ids :
  log_fits L → walks old_ids → RInv L n r → node_ok L n (rp_applied r) (rp_node r) → rp_background r = true →
  rp_restoring r = false → rp_applied r < snapshot_index r →
  ∃ job r1 rst d, start_restore old_ids r = (Ok (Some job), r1) ∧
    (∀ k, store_get (rp_store r1) k = store_get (rp_store r) k) ∧ replica_apply old_ids r1 = (Ok tt, r1) ∧
    RestoreJob_run job (s_dir (rp_store r1)) = (Ok rst, d) ∧
    ∃ r', replica_finish_restore old_ids rst (rp_set_store (s_set_dir d (rp_store r1)) r1) = (Ok tt, r') ∧
      rp_applied r' = N.max (snapshot_index r) (n_commit_index (rp_node r)) ∧ rp_restoring r' = false ∧
      (n ≤ rp_applied r' → ∀ k, store_get (rp_store r') k = Ok (state_at L (rp_applied r') !! k)).
Proof.
  intros HL Hold HI HN Hbg Hrs Hlt. pose proof HI as [b [(m & HS & HM) H2 H3 H4]]. pose proof (snapshot_index_base r) as Eb.
  destruct (nk_snapshot _ _ _ _ HN) as (Hn & ms & Hrd & Hms); [lia|]. rewrite <-Eb in *.
  assert (map_ok ms) as Hok by (eapply Mixed_ok; [apply HL|done]).
  assert (is_u64 (map_bytes ms)) as Hu by (destruct HL as [_ Hz]; unfold is_u64 in *; pose proof (Mixed_bytes _ _ _ _ Hms); lia).
  pose proof (SoundFrom_refines _ _ _ _ HS) as HR.
  destruct (restore_job_ok (rp_store r) m ms (old_ids (rp_store r)) (snapshot_index r) HR
    (so_compacting _ _ _ _ HS) (so_restoring _ _ _ _ HS) (Hold _) Hok Hu)
    as (job & s1 & E1 & Hg1 & rst & d & E2 & Ei & HR2 & Hre2 & Hco2).
  set (r1 := rp_set_restoring true (rp_set_store s1 r)).
  exists (mkReplicaRestoreJob job (snapshot_bytes ms) (snapshot_index r)), r1, rst, d.
  assert (start_restore old_ids r = (Ok (Some (mkReplicaRestoreJob job (snapshot_bytes ms) (snapshot_index r))), r1)) as Es.
  { unfold start_restore, mbind, M_bind, mget, mlift, on_store. rewrite Hbg, Hrs, (proj2 (N.leb_gt _ _)) by done. cbn [negb orb].
    rewrite Hrd, E1. done. }
  split; [done|]. split; [intros k; rewrite (Refines_get _ _ k HR); apply Hg1|]. split.
  { unfold replica_apply, mbind, M_bind, mget. change (rp_background r1) with (rp_background r).
    change (rp_applied r1) with (rp_applied r). change (snapshot_index r1) with (snapshot_index r).
    by rewrite Hbg, (proj2 (N.ltb_lt _ _)). }
  split; [exact E2|]. unfold replica_finish_restore.
  set (r2 := rp_set_store (s_set_dir d (rp_store r1)) r1).
  set (r3 := rp_set_applied_file (applied_bytes (snapshot_index r)) (rp_set_applied (snapshot_index r)
               (rp_set_store (store_sync (finish_restore (rst_file rst) (s_set_dir d s1))) (rp_set_restoring false r2)))).
  change ((mmodify (rp_set_restoring false) ;; on_store (mmodify (finish_restore (rst_file rst))) ;; replica_sync ;;
    mmodify (rp_set_applied (rst_index rst)) ;; write_applied (rst_index rst) ;; replica_apply old_ids) r2) with
    (replica_apply old_ids (rp_set_applied_file (applied_bytes (rst_index rst)) (rp_set_applied (rst_index rst)
      (rp_set_store (store_sync (finish_restore (rst_file rst) (s_set_dir d s1))) (rp_set_restoring false r2))))).
  rewrite Ei. fold r3.
  assert (RInv L n r3) as HI3 by (eapply (restored_RInv L n (rp_set_restoring false r2)); [apply HL|done..|apply HS]).
  assert (node_ok L n (rp_applied r3) (rp_node r3)) as HN3 by (eapply node_ok_mono; [..|exact HN]; [done|cbn; lia]).
  pose proof (replica_apply_ok L n r3 old_ids HL Hold HI3 HN3 ltac:(done)) as Ha. cbn zeta in Ha.
  destruct (replica_apply old_ids r3) as [res r']. destruct Ha as (HI' & _ & Ea & _ & [_ Er] & Hb).
  destruct (Hb Hbg) as [-> _]. exists r'. split; [done|].
  assert (caught_up r3 = N.max (snapshot_index r) (n_commit_index (rp_node r))) as Ec.
  { unfold caught_up. change (rp_applied r3) with (snapshot_index r). change (snapshot_index r3) with (snapshot_index r).
    change (rp_node r3) with (rp_node r). lia. }
  split_and!; [by rewrite Ea|done|]. intros Hle k. apply Refines_get, (RInv_caught_up _ _ _ HI').
  change (rp_node r3) with (rp_node r) in *. lia.
Qed.
End replica.

(** ** A follower that fell behind *)

(** Its leader has sent it a snapshot of the first two entries; the other two are in its log. *)
Definition demo_behind : ReplicatedStore MemStorage :=
  mkReplicated
    (set_commit_index 4 (node_new 1 [1] NodeConfig_default
      (mkMemStorage (mkHardState 1 None)
        (mkEntryLog (mkMeta 2 1) (imap (λ i c, mkEntry 1 (N.of_nat i + 3) c) (drop 2 demo_log)))
        (snapshot_bytes (state_at demo_log 2)) None)))
    (fresh_store (small_files OsCache)) 0 10000 true false false false None (λ _, 7).

Lemma demo_behind_ok : RInv demo_log 2 demo_behind ∧ node_ok demo_log 2 0 (rp_node demo_behind).
Proof.
  split.
  - exists []. split; [|done..]. exists ∅. split.
    + apply (SoundFrom_synced _ demo_behind []); [|by intros k; exists 0|done..].
      exists [], [], []. split_and!; try done. by apply fresh_inv.
    + intros k. by exists 0.
  - assert (EntryLog_wf (slog (rp_node demo_behind))) as Hwf by (by apply (bool_decide_unpack _); vm_compute).
    split; [done|done|done|done| |]; cycle 1.
    { intros _. split; [done|]. exists (state_at demo_log 2). split; [reflexivity|]. apply Mixed_refl. }
    intros i e _. rewrite EntryLog_entry_lookup by done. change (sm_index (el_base (slog (rp_node demo_behind)))) with 2.
    destruct (N.leb_spec i 2); [done|].
    change (el_entries (slog (rp_node demo_behind))) with (imap (λ i c, mkEntry 1 (N.of_nat i + 3) c) (drop 2 demo_log)).
    rewrite list_lookup_imap. intros (c & Ec & ->)%fmap_Some. unfold entry_in. cbn [e_index e_command]. split; [lia|].
    rewrite lookup_drop in Ec. by replace (N.to_nat (N.of_nat (N.to_nat (i - 2 - 1)) + 3 - 1)) with (2 + N.to_nat (i - 2 - 1))%nat by lia.
Qed.

Lemma background_restore_exact_witness :
  ∃ job r1 rst d r', start_restore demo_order demo_behind = (Ok (Some job), r1) ∧
    RestoreJob_run job (s_dir (rp_store r1)) = (Ok rst, d) ∧
    replica_finish_restore demo_order rst (rp_set_store (s_set_dir d (rp_store r1)) r1) = (Ok tt, r') ∧
    store_get (rp_store r') (lit "sea") = Ok (Some (lit "blue")).
Proof.
  destruct demo_behind_ok as [HI HN].
  destruct (background_restore_exact demo_log 2 demo_behind demo_order demo_fits demo_walks HI HN)
    as (job & r1 & rst & d & E1 & _ & _ & E2 & r' & E3 & Ea & _ & Hg); [done|done|done|].
  exists job, r1, rst, d, r'. split; [exact E1|]. split; [exact E2|]. split; [exact E3|].
  rewrite Ea in Hg. rewrite Hg by done. by vm_compute.
Defined.

Definition demo_sink : @Sink MemStorage _ := mkMemSnapshot (mkMeta 2 1) None [].

Lemma demo_sink_holds : sink_holds demo_sink [].
Proof. by apply (law_new_holds (mkMeta 2 1) None MemStorage_new demo_sink MemStorage_new). Qed.

Lemma snapshot_carries_store_witness :
  ∃ r', replica_restore demo_behind = (Ok tt, r') ∧ rp_applied r' = 2 ∧
    store_get (rp_store r') (lit "sky") = Ok (Some (lit "blue")).
Proof.
  pose (s := rp_store (replica_apply demo_order (demo_replica 2)).2).
  destruct (SnapshotJob_run (mkSnapshotJob (store_view s).1 demo_sink)) as [k'|e] eqn:Ek.
  2:{ exfalso. revert Ek. by vm_compute. }
  assert (Refines s (state_at demo_log 2)) as HR.
  { destruct (demo_replica_ok 2 ltac:(done)) as (_ & HI & HN).
    pose proof (replica_apply_ok demo_log 0 (demo_replica 2) demo_order demo_fits demo_walks HI HN ltac:(done)) as Ha. cbn zeta in Ha.
    unfold s. destruct (replica_apply demo_order (demo_replica 2)) as [res r']. destruct Ha as (HI' & _ & Ea & _). cbn [snd].
    assert (rp_applied r' = 2) as E2 by (rewrite Ea; by vm_compute). rewrite <-E2. apply (RInv_caught_up _ _ _ HI'). by rewrite E2. }
  destruct (snapshot_carries_store s ∅ (state_at demo_log 2) demo_sink k' demo_behind HR
    demo_sink_holds Ek)
    as (_ & Hr); [by apply fresh_refines|done|done|done|done|].
  destruct (Hr eq_refl) as (r' & E & Hg & _ & Ha & _). exists r'. split; [exact E|]. split; [exact Ha|].
  rewrite Hg. by vm_compute.
Defined.
