(* ===== verification/Proposals.v ===== *)
(** * Group commit for proposals (src/cluster.rs)

    [Proposals]: writes join a queue, and whoever finds nobody proposing proposes all of it
    as one batch. The threads interleave between the regions in which they hold the queue's
    lock: a step relation, its invariant, and that every write is answered, in order. *)

From S2P Require Import Prelude.
From S2P Require Import Resp.

#[local] Open Scope N_scope.

(** ** The queue *)

(** The index and the term a command landed at, or the reply that says why it did not. *)
Definition Proposed : Type := (N * N) + Reply.

Record Queue := mkQueue {
  q_waiting : list (N * bytes);
  q_answers : gmap N Proposed;
  q_busy : bool;
  q_next_ticket : N;
}.

Definition Queue_default : Queue := mkQueue [] ∅ false 0.

(** Where a thread inside [submit] is between two regions: asleep on the condition variable,
    woken and about to take the lock, proposing a batch, or returned. *)
Inductive Submitter :=
  | Asleep (ticket : N)
  | Woken (ticket : N)
  | Proposing (ticket : N) (tickets : list N) (commands : list bytes)
  | Returned (ticket : N) (answer : Proposed).

(** One turn of the loop, with the lock held until the thread proposes, sleeps or returns. *)
Definition submit_turn (ticket : N) (q : Queue) : Queue * Submitter :=
  match q_answers q !! ticket with
  | Some answer => (mkQueue (q_waiting q) (delete ticket (q_answers q)) (q_busy q) (q_next_ticket q), Returned ticket answer)
  | None =>
      if negb (q_busy q) then
        (mkQueue [] (q_answers q) true (q_next_ticket q), Proposing ticket (q_waiting q).*1 (q_waiting q).*2)
      else (q, Asleep ticket)
  end.

(** From the call to the end of the first turn. *)
Definition submit_enter (command : bytes) (q : Queue) : Queue * Submitter :=
  let ticket := q_next_ticket q in
  submit_turn ticket (mkQueue (q_waiting q ++ [(ticket, command)]) (q_answers q) (q_busy q) (ticket + 1)).

(** [HashMap::extend]. *)
Definition extend (l : list (N * Proposed)) (m : gmap N Proposed) : gmap N Proposed :=
  foldl (λ m x, <[x.1 := x.2]> m) m l.

(** Back from proposing: everyone's answers, and the next turn. *)
Definition submit_proposed (ticket : N) (tickets : list N) (answers : list Proposed) (q : Queue) : Queue * Submitter :=
  submit_turn ticket (mkQueue (q_waiting q) (extend (zip tickets answers) (q_answers q)) false (q_next_ticket q)).

(** [notify_all]. *)
Definition woken (s : Submitter) : Submitter := match s with Asleep t => Woken t | s => s end.

(** ** Threads interleaving *)

(** Not in the code: [pr_calls], the command each thread called with; [pr_submitted], every
    command in the order of its ticket; and [pr_answered], the answers of the batches proposed
    so far, one after the other. *)
Record Proposers := mkProposers {
  pr_queue : Queue;
  pr_threads : gmap nat Submitter;
  pr_calls : gmap nat bytes;
  pr_submitted : list bytes;
  pr_answered : list Proposed;
}.

Definition Proposals_new : Proposers := mkProposers Queue_default ∅ ∅ [] [].

(** A thread that is in [submit] goes on until it gives the lock up. What [propose] answers is
    the caller's; it answers every command it is given. *)
Inductive pr_progress : Proposers → Proposers → Prop :=
  | pr_propose p i ticket tickets commands answers q' s :
      pr_threads p !! i = Some (Proposing ticket tickets commands) → length answers = length commands →
      submit_proposed ticket tickets answers (pr_queue p) = (q', s) →
      pr_progress p (mkProposers q' (<[i := s]> (woken <$> pr_threads p)) (pr_calls p) (pr_submitted p) (pr_answered p ++ answers))
  | pr_wake p i ticket q' s :
      pr_threads p !! i = Some (Woken ticket) → submit_turn ticket (pr_queue p) = (q', s) →
      pr_progress p (mkProposers q' (<[i := s]> (pr_threads p)) (pr_calls p) (pr_submitted p) (pr_answered p)).

(** Or one calls [submit], or wakes for no reason. *)
Inductive pr_step : Proposers → Proposers → Prop :=
  | pr_go p p' : pr_progress p p' → pr_step p p'
  | pr_submit p i command q' s :
      pr_threads p !! i = None → submit_enter command (pr_queue p) = (q', s) →
      pr_step p (mkProposers q' (<[i := s]> (pr_threads p)) (<[i := command]> (pr_calls p))
        (pr_submitted p ++ [command]) (pr_answered p))
  | pr_spurious p i ticket :
      pr_threads p !! i = Some (Asleep ticket) →
      pr_step p (mkProposers (pr_queue p) (<[i := Woken ticket]> (pr_threads p)) (pr_calls p) (pr_submitted p) (pr_answered p)).

(** ** The invariant *)

Definition ticket_of (s : Submitter) : N :=
  match s with Asleep t | Woken t | Proposing t _ _ | Returned t _ => t end.

Definition is_proposing (s : Submitter) : bool := match s with Proposing _ _ _ => true | _ => false end.

(** The tickets from [a] on, one for each of [l]. *)
Definition tickets_from {A} (a : N) (l : list A) : list N := (λ k, a + N.of_nat k) <$> seq 0 (length l).

(** [inflight]: the commands of the batch that is being proposed. *)
Definition thread_ok (p : Proposers) (inflight : list bytes) (s : Submitter) : Prop :=
  let n := blen (pr_answered p) in
  match s with
  | Asleep t => q_busy (pr_queue p) = true ∧ n ≤ t < q_next_ticket (pr_queue p)
  | Woken t => t < q_next_ticket (pr_queue p) ∧ (n ≤ t ∨ q_answers (pr_queue p) !! t = pr_answered p !! N.to_nat t)
  | Proposing t ts cs => ts = tickets_from n cs ∧ cs = inflight ∧ n ≤ t < n + blen cs
  | Returned t a => pr_answered p !! N.to_nat t = Some a
  end.

Record PInv (p : Proposers) (inflight : list bytes) : Prop := {
  pi_submitted : ∃ done_, length done_ = length (pr_answered p) ∧
    pr_submitted p = done_ ++ inflight ++ (q_waiting (pr_queue p)).*2;
  pi_waiting : (q_waiting (pr_queue p)).*1 =
    tickets_from (blen (pr_answered p) + blen inflight) (q_waiting (pr_queue p));
  pi_next : q_next_ticket (pr_queue p) = blen (pr_submitted p);
  pi_answers : ∀ t a, q_answers (pr_queue p) !! t = Some a → t < blen (pr_answered p);
  pi_threads : ∀ i s, pr_threads p !! i = Some s → thread_ok p inflight s;
  pi_tickets : ∀ i j s s', pr_threads p !! i = Some s → pr_threads p !! j = Some s' → ticket_of s = ticket_of s' → i = j;
  pi_busy : q_busy (pr_queue p) = true ↔ ∃ i s, pr_threads p !! i = Some s ∧ is_proposing s = true;
  pi_one : ∀ i j s s', pr_threads p !! i = Some s → pr_threads p !! j = Some s' →
    is_proposing s = true → is_proposing s' = true → i = j;
  pi_idle : q_busy (pr_queue p) = false → inflight = [];
  pi_calls : ∀ i s, pr_threads p !! i = Some s → ∃ c, pr_calls p !! i = Some c ∧ pr_submitted p !! N.to_nat (ticket_of s) = Some c;
}.

Lemma tickets_from_len {A B} a (l : list A) (l' : list B) : length l = length l' → tickets_from a l = tickets_from a l'.
Proof. intros E. unfold tickets_from. by rewrite E. Qed.

Lemma tickets_from_snoc {A} a (l : list A) x : tickets_from a (l ++ [x]) = tickets_from a l ++ [a + blen l].
Proof. unfold tickets_from. rewrite length_app, seq_app, fmap_app. done. Qed.

Lemma tickets_from_lookup {A} a (l : list A) k t : tickets_from a l !! k = Some t ↔ t = a + N.of_nat k ∧ (k < length l)%nat.
Proof.
  unfold tickets_from. rewrite list_lookup_fmap_Some. split.
  - intros (j & -> & [-> Hj]%lookup_seq). split; [lia|done].
  - intros [-> Hk]. exists k. split; [done|]. by apply lookup_seq.
Qed.

Lemma extend_lookup a (l : list Proposed) m t :
  extend (zip (tickets_from a l) l) m !! t =
    if decide (a ≤ t < a + blen l) then l !! N.to_nat (t - a) else m !! t.
Proof.
  induction l as [|x l IH] using rev_ind.
  { simpl. case_decide as Hd; [unfold blen in Hd; simpl in Hd; lia|done]. }
  unfold extend in *. rewrite tickets_from_snoc, zip_with_app by (unfold tickets_from; by rewrite length_fmap, length_seq).
  rewrite foldl_app. simpl. destruct (decide (t = a + blen l)) as [->|Hne].
  - rewrite lookup_insert_eq, decide_True by (rewrite blen_app; unfold blen; simpl; lia).
    rewrite lookup_app_r by (unfold blen; lia). replace (N.to_nat (a + blen l - a) - length l)%nat with 0%nat by (unfold blen; lia). done.
  - rewrite lookup_insert_ne by done. rewrite IH. rewrite blen_app. change (blen [x]) with 1.
    destruct (decide (a ≤ t < a + blen l)) as [H1|H1], (decide (a ≤ t < a + (blen l + 1))) as [H2|H2]; try lia; [|done].
    by rewrite lookup_app_l by (unfold blen in *; lia).
Qed.

#[local] Opaque tickets_from.

(** ** Every step keeps it *)

Lemma PInv_count p inflight :
  PInv p inflight → q_next_ticket (pr_queue p) = blen (pr_answered p) + blen inflight + blen (q_waiting (pr_queue p)).
Proof.
  intros HI. rewrite (pi_next _ _ HI). destruct (pi_submitted _ _ HI) as (d & Hd & ->).
  rewrite !blen_app. unfold blen. rewrite length_fmap. lia.
Qed.

(** [p] with thread [i] taken out of it. *)
Definition without (i : nat) (p : Proposers) : Proposers :=
  mkProposers (pr_queue p) (delete i (pr_threads p)) (pr_calls p) (pr_submitted p) (pr_answered p).

(** Thread [i] back in, after changing the queue: what is to be shown of it, and of the others. *)
Lemma PInv_back p inflight i q' s inflight' :
  PInv (without i p) inflight →
  let p' := mkProposers q' (<[i := s]> (pr_threads p)) (pr_calls p) (pr_submitted p) (pr_answered p) in
  q_next_ticket q' = q_next_ticket (pr_queue p) →
  inflight ++ (q_waiting (pr_queue p)).*2 = inflight' ++ (q_waiting q').*2 →
  (q_waiting q').*1 = tickets_from (blen (pr_answered p) + blen inflight') (q_waiting q') →
  (∀ t a, q_answers q' !! t = Some a → q_answers (pr_queue p) !! t = Some a) →
  thread_ok p' inflight' s →
  (∀ j s', pr_threads p !! j = Some s' → j ≠ i → thread_ok p inflight s' → ticket_of s' ≠ ticket_of s ∧ thread_ok p' inflight' s') →
  q_busy q' = q_busy (pr_queue p) || is_proposing s →
  (is_proposing s = true → q_busy (pr_queue p) = false) →
  (q_busy q' = false → inflight' = []) →
  (∃ c, pr_calls p !! i = Some c ∧ pr_submitted p !! N.to_nat (ticket_of s) = Some c) →
  PInv p' inflight'.
Proof.
  intros [I1 I2 I3 I4 I5 I6 I7 I8 I9 I10] p' Hn Hsub Hw Ha Hs Hoth Hb Hone Hidle Hcall. cbn in *.
  assert (∀ j s', pr_threads p !! j = Some s' → j ≠ i → delete i (pr_threads p) !! j = Some s') as Hdel
    by (intros j s' Hj Hne; by rewrite lookup_delete_ne).
  assert (∀ j s', <[i := s]> (pr_threads p) !! j = Some s' → (j = i ∧ s' = s) ∨ (j ≠ i ∧ pr_threads p !! j = Some s')) as Hin
    by (intros j s' [[<- <-]|[Hne Hj]]%lookup_insert_Some; [by left|by right]).
  assert (∀ j s', j ≠ i → pr_threads p !! j = Some s' → thread_ok p inflight s') as Hok
    by (intros j s' Hne Hj; apply (I5 j), Hdel; done).
  assert (∀ j s', j ≠ i → pr_threads p !! j = Some s' → is_proposing s' = true → q_busy (pr_queue p) = true) as Hbusy.
  { intros j s' Hne Hj Hp. apply I7. exists j, s'. split; [by apply Hdel|done]. }
  split; cbn.
  - destruct I1 as (d & Hd & E). exists d. split; [done|]. by rewrite E, Hsub.
  - done.
  - by rewrite Hn.
  - intros t a Ht. by eapply I4, Ha.
  - intros j s' [[-> ->]|[Hne Hj]]%Hin; [done|]. by apply (Hoth j); [done..|apply (Hok j)].
  - intros j1 j2 s1 s2 [[-> ->]|[Hne1 Hj1]]%Hin [[-> ->]|[Hne2 Hj2]]%Hin E; [done| | |].
    + by destruct (Hoth j2 s2 Hj2 Hne2 (Hok j2 s2 Hne2 Hj2)) as [[] _].
    + by destruct (Hoth j1 s1 Hj1 Hne1 (Hok j1 s1 Hne1 Hj1)) as [[] _].
    + by apply (I6 j1 j2 s1 s2); [apply Hdel..|].
  - rewrite Hb, orb_true_iff. split.
    + intros [Hq|Hq]; [|exists i, s; by rewrite lookup_insert_eq].
      apply I7 in Hq as (j & s' & Hj & Hp). apply lookup_delete_Some in Hj as [Hne Hj].
      exists j, s'. by rewrite lookup_insert_ne.
    + intros (j & s' & [[-> ->]|[Hne Hj]]%Hin & Hp); [by right|left]. by apply (Hbusy j s').
  - intros j1 j2 s1 s2 [[-> ->]|[Hne1 Hj1]]%Hin [[-> ->]|[Hne2 Hj2]]%Hin P1 P2; [done| | |].
    + specialize (Hbusy j2 s2 Hne2 Hj2 P2). specialize (Hone P1). congruence.
    + specialize (Hbusy j1 s1 Hne1 Hj1 P1). specialize (Hone P2). congruence.
    + by apply (I8 j1 j2 s1 s2); [apply Hdel..| |].
  - done.
  - intros j s' [[-> ->]|[Hne Hj]]%Hin; [done|]. by apply (I10 j), Hdel.
Qed.

(** The turn a thread takes with the lock in hand. *)
Lemma turn_inv p inflight i t q' s :
  PInv (without i p) inflight →
  (∀ j s', pr_threads p !! j = Some s' → j ≠ i → ticket_of s' ≠ t) →
  t < q_next_ticket (pr_queue p) →
  (blen (pr_answered p) ≤ t ∨ q_answers (pr_queue p) !! t = pr_answered p !! N.to_nat t) →
  (∃ c, pr_calls p !! i = Some c ∧ pr_submitted p !! N.to_nat t = Some c) →
  submit_turn t (pr_queue p) = (q', s) →
  (∃ inflight', PInv (mkProposers q' (<[i := s]> (pr_threads p)) (pr_calls p) (pr_submitted p) (pr_answered p)) inflight') ∧
  (t < blen (pr_answered p) → ∃ a, s = Returned t a).
Proof.
  intros HI Hfresh Ht Hans Hcall. pose proof (PInv_count _ _ HI) as Hcount. cbn in Hcount.
  pose proof HI as [I1 I2 I3 I4 I5 I6 I7 I8 I9 I10]. cbn in *.
  unfold submit_turn. destruct (q_answers (pr_queue p) !! t) as [a|] eqn:Ea.
  - intros [= <- <-]. split; [|by eauto]. exists inflight. pose proof (I4 t a Ea) as Hlt.
    destruct Hans as [|Hans]; [lia|]. eapply PInv_back; [exact HI|done..| | | | |by intros|done|done]; cbn.
    + intros t' a'. by intros [_ ?]%lookup_delete_Some.
    + done.
    + intros j s' Hj Hne Hok. specialize (Hfresh j s' Hj Hne). split; [done|]. destruct s'; cbn in *; try done.
      by rewrite lookup_delete_ne.
    + by rewrite orb_false_r.
  - assert (blen (pr_answered p) ≤ t) as Hge.
    { destruct Hans as [|Hans]; [done|]. symmetry in Hans. apply lookup_ge_None_1 in Hans. unfold blen. lia. }
    destruct (q_busy (pr_queue p)) eqn:Eb; cbn [negb]; intros [= <- <-]; (split; [|lia]).
    + exists inflight. eapply PInv_back; [exact HI|done..| | | |done|by rewrite Eb|done]; cbn; [done| |by rewrite Eb].
      intros j s' Hj Hne Hok. split; [by apply (Hfresh j)|]. by destruct s'.
    + specialize (I9 eq_refl). subst inflight. rewrite N.add_0_r in *. exists (q_waiting (pr_queue p)).*2.
      eapply PInv_back; [exact HI|done|cbn; by rewrite app_nil_r|done|done| | |by rewrite Eb|done|done|done]; cbn.
      * split_and!; [rewrite I2; apply tickets_from_len; by rewrite length_fmap|done|done|].
        unfold blen in *. rewrite length_fmap. cbn in Hcount. lia.
      * intros j s' Hj Hne Hok. split; [by apply (Hfresh j)|]. destruct s' as [t'|t'|t' ts cs|t' a]; cbn in *; try done.
        -- destruct Hok as [Hok _]. congruence.
        -- destruct Hok as (_ & -> & Hlt). change (blen []) with 0 in Hlt. lia.
Qed.

Lemma thread_ticket p inflight s :
  PInv p inflight → thread_ok p inflight s → ticket_of s < q_next_ticket (pr_queue p).
Proof.
  intros HI. pose proof (PInv_count p inflight HI) as Hc. destruct s as [t|t|t ts cs|t a]; cbn.
  - lia.
  - lia.
  - intros (_ & -> & Ht). lia.
  - intros Ha%lookup_lt_Some. unfold blen in *. lia.
Qed.

(** Taking a thread that is not proposing out changes nothing for the others. *)
Lemma PInv_without p inflight i s :
  PInv p inflight → pr_threads p !! i = Some s → is_proposing s = false → PInv (without i p) inflight.
Proof.
  intros [I1 I2 I3 I4 I5 I6 I7 I8 I9 I10] Hi Hp.
  assert (∀ j s', delete i (pr_threads p) !! j = Some s' → pr_threads p !! j = Some s') as Hd
    by (by intros j s' [_ ?]%lookup_delete_Some).
  split; cbn; try done; eauto.
  rewrite I7. split.
  - intros (j & s' & Hj & Hs). exists j, s'. split; [|done]. rewrite lookup_delete_ne; [done|]. intros ->. congruence.
  - intros (j & s' & Hj & Hs). eauto.
Qed.

Lemma submit_inv p inflight i c q' s :
  PInv p inflight → pr_threads p !! i = None → submit_enter c (pr_queue p) = (q', s) →
  ∃ inflight', PInv (mkProposers q' (<[i := s]> (pr_threads p)) (<[i := c]> (pr_calls p)) (pr_submitted p ++ [c]) (pr_answered p)) inflight'.
Proof.
  intros HI Hi E. pose proof (PInv_count p inflight HI) as Hc. pose proof HI as [I1 I2 I3 I4 I5 I6 I7 I8 I9 I10].
  set (t := q_next_ticket (pr_queue p)) in *.
  set (q1 := mkQueue (q_waiting (pr_queue p) ++ [(t, c)]) (q_answers (pr_queue p)) (q_busy (pr_queue p)) (t + 1)).
  set (p1 := mkProposers q1 (pr_threads p) (<[i := c]> (pr_calls p)) (pr_submitted p ++ [c]) (pr_answered p)).
  assert (without i p1 = p1) as Ew by (unfold without; cbn; by rewrite delete_id).
  refine (proj1 (turn_inv p1 inflight i t q' s _ _ _ _ _ E)); [rewrite Ew|..]; cbn.
  - split; cbn; try done.
    + destruct I1 as (d & Hd & ->). exists d. split; [done|]. by rewrite fmap_app, <-!(assoc_L (++)).
    + rewrite fmap_app, tickets_from_snoc, I2. cbn. do 2 f_equal. lia.
    + rewrite I3, blen_app. done.
    + intros j s' Hj. specialize (I5 j s' Hj). destruct s'; cbn in *; try done; [split; [apply I5|lia]|split; [lia|apply I5]].
    + intros j s' Hj. destruct (I10 j s' Hj) as (c' & Hc1 & Hc2). exists c'. rewrite lookup_insert_ne by congruence. split; [done|].
      rewrite lookup_app_l; [done|]. by apply lookup_lt_Some in Hc2.
  - intros j s' Hj _ E'. pose proof (thread_ticket p inflight s' HI (I5 j s' Hj)) as Hlt. fold t in Hlt. lia.
  - lia.
  - left. lia.
  - exists c. rewrite lookup_insert_eq. split; [done|]. rewrite lookup_app_r by (unfold blen in *; lia).
    by replace (N.to_nat t - length (pr_submitted p))%nat with 0%nat by (unfold blen in *; lia).
Qed.

Lemma propose_inv p inflight i t ts cs answers q' s :
  PInv p inflight → pr_threads p !! i = Some (Proposing t ts cs) → length answers = length cs →
  submit_proposed t ts answers (pr_queue p) = (q', s) →
  (∃ inflight', PInv (mkProposers q' (<[i := s]> (woken <$> pr_threads p)) (pr_calls p) (pr_submitted p) (pr_answered p ++ answers)) inflight') ∧
  ∃ a, s = Returned t a.
Proof.
  intros HI Hi Hlen E. pose proof HI as [I1 I2 I3 I4 I5 I6 I7 I8 I9 I10].
  pose proof (I5 i _ Hi) as (Ets & Ecs & Ht). cbn in Ht. subst cs.
  set (n := blen (pr_answered p)) in *. assert (blen answers = blen inflight) as Hbl by (unfold blen; lia).
  set (q1 := mkQueue (q_waiting (pr_queue p)) (extend (zip ts answers) (q_answers (pr_queue p))) false (q_next_ticket (pr_queue p))).
  set (p1 := mkProposers q1 (woken <$> pr_threads p) (pr_calls p) (pr_submitted p) (pr_answered p ++ answers)).
  assert (∀ t', extend (zip ts answers) (q_answers (pr_queue p)) !! t' =
    if decide (n ≤ t' < n + blen answers) then answers !! N.to_nat (t' - n) else q_answers (pr_queue p) !! t') as Hext.
  { intros t'. rewrite Ets, (tickets_from_len n inflight answers) by done. apply extend_lookup. }
  assert (∀ t', n ≤ t' < n + blen answers →
    extend (zip ts answers) (q_answers (pr_queue p)) !! t' = (pr_answered p ++ answers) !! N.to_nat t') as Hnew.
  { intros t' Ht'. rewrite Hext, decide_True by done. rewrite lookup_app_r by (unfold n, blen in *; lia). f_equal. unfold n, blen. lia. }
  assert (∀ j s', pr_threads p1 !! j = Some s' → ∃ s0, pr_threads p !! j = Some s0 ∧ s' = woken s0 ∧
    ticket_of s' = ticket_of s0 ∧ is_proposing s' = is_proposing s0) as Hold.
  { intros j s' Hj. cbn in Hj. rewrite lookup_fmap in Hj. apply fmap_Some in Hj as (s0 & Hj & ->). exists s0. by destruct s0. }
  assert (q_busy (pr_queue p) = true) as Hb by (apply I7; eauto).
  assert (∀ j s', delete i (pr_threads p1) !! j = Some s' → ∃ s0, j ≠ i ∧ pr_threads p !! j = Some s0 ∧ s' = woken s0 ∧ is_proposing s0 = false) as Hdel.
  { intros j s' [Hne Hj]%lookup_delete_Some. destruct (Hold j s' Hj) as (s0 & Hj0 & -> & _ & _). exists s0. split_and!; try done.
    destruct (is_proposing s0) eqn:Ep; [|done]. by destruct Hne; rewrite (I8 i j _ s0 Hi Hj0). }
  edestruct (turn_inv p1 [] i t q' s) as [Hinv Hret]; [..|exact E|]; cbn.
  - split; cbn; try done.
    + destruct I1 as (d & Hd & ->). exists (d ++ inflight). rewrite !length_app, <-(assoc_L (++)). split; [lia|done].
    + rewrite I2, blen_app, Hbl. f_equal. unfold n. change (blen (@nil bytes)) with 0. lia.
    + intros t' a. rewrite Hext, blen_app. case_decide; [lia|]. intros Ha%I4. fold n in Ha. lia.
    + intros j s' Hj. destruct (Hdel j s' Hj) as (s0 & Hne & Hj0 & -> & Ep). specialize (I5 j s0 Hj0).
      destruct s0 as [t'|t'|t' ts' cs'|t' a]; cbn in *; [| |done|].
      * split; [lia|]. rewrite blen_app. destruct (decide (n ≤ t' < n + blen answers)) as [Hd|Hd]; [right; by apply Hnew|left; fold n; lia].
      * destruct I5 as [Hlt Hor]. split; [done|]. rewrite blen_app. fold n.
        destruct (decide (n ≤ t' < n + blen answers)) as [Hd|Hd]; [right; by apply Hnew|].
        destruct Hor as [Hor|Hor]; [left; lia|]. destruct (N.le_gt_cases (n + blen answers) t'); [by left|right].
        rewrite Hext, decide_False by done. rewrite Hor. symmetry. apply lookup_app_l. unfold n, blen in *. lia.
      * rewrite lookup_app_l; [done|]. by apply lookup_lt_Some in I5.
    + intros j1 j2 s1 s2 Hj1 Hj2 Et. apply lookup_delete_Some in Hj1 as [_ Hj1], Hj2 as [_ Hj2].
      destruct (Hold j1 s1 Hj1) as (a1 & A1 & _ & A2 & _), (Hold j2 s2 Hj2) as (b1 & B1 & _ & B2 & _).
      apply (I6 j1 j2 a1 b1); [done..|]. congruence.
    + split; [done|]. intros (j & s' & Hj & Hp). destruct (Hdel j s' Hj) as (s0 & _ & _ & -> & Ep). by destruct s0.
    + intros j1 j2 s1 s2 Hj1 _ Hp. destruct (Hdel j1 s1 Hj1) as (s0 & _ & _ & -> & Ep). by destruct s0.
    + intros j s' [_ Hj]%lookup_delete_Some. destruct (Hold j s' Hj) as (s0 & Hj0 & _ & -> & _). by apply (I10 j).
  - intros j s' Hj Hne Et. destruct (Hold j s' Hj) as (s0 & Hj0 & _ & Et0 & _). apply Hne, (I6 j i s0 _ Hj0 Hi). by rewrite <-Et0.
  - pose proof (thread_ticket p inflight _ HI (I5 i _ Hi)) as Hlt. exact Hlt.
  - right. apply Hnew. lia.
  - destruct (I10 i _ Hi) as (c & Hc). by exists c.
  - split; [exact Hinv|]. apply Hret. cbn. rewrite blen_app. fold n. lia.
Qed.

Lemma step_PInv p p' inflight : PInv p inflight → pr_step p p' → ∃ inflight', PInv p' inflight'.
Proof.
  intros HI Hs. destruct Hs as [p p' [p0 i t ts cs answers q' s Hi Hlen E|p0 i t q' s Hi E]|p i c q' s Hi E|p i t Hi].
  - by destruct (propose_inv p0 inflight i t ts cs answers q' s HI Hi Hlen E).
  - pose proof (pi_threads _ _ HI i _ Hi) as [Ht Hor].
    refine (proj1 (turn_inv p0 inflight i t q' s (PInv_without _ _ _ _ HI Hi eq_refl) _ Ht Hor (pi_calls _ _ HI i _ Hi) E)).
    intros j s' Hj Hne Et. by apply Hne, (pi_tickets _ _ HI j i s' _ Hj Hi).
  - by apply (submit_inv p inflight i c q' s).
  - pose proof (pi_threads _ _ HI i _ Hi) as [Hb Ht]. exists inflight. pose proof (pi_idle _ _ HI) as Hidle.
    eapply (PInv_back p inflight i (pr_queue p)); [by eapply PInv_without|done| |by apply HI|done| | |by rewrite orb_false_r|done|done|by apply (pi_calls _ _ HI i _ Hi)]; cbn.
    + done.
    + split; [lia|left; lia].
    + intros j s' Hj Hne Hok. split; [|by destruct s']. intros Et. by apply Hne, (pi_tickets _ _ HI j i s' _ Hj Hi).
Qed.

Lemma new_PInv : PInv Proposals_new [].
Proof. split; cbn; try done. - by exists []. - split; [done|]. by intros (i & s & ? & _). Qed.

Lemma reachable_PInv p : rtc pr_step Proposals_new p → ∃ inflight, PInv p inflight.
Proof.
  intros Hr. eapply (rtc_ind_r (λ p, ∃ inflight, PInv p inflight) Proposals_new); [by exists []; apply new_PInv| |exact Hr].
  intros x y _ Hs [f HI]. by apply (step_PInv x y f).
Qed.

(** ** Every write comes back *)

Definition is_woken (s : Submitter) : bool := match s with Woken _ => true | _ => false end.

Definition woken_threads (m : gmap nat Submitter) : gmap nat Submitter := filter (λ x, is_woken x.2 = true) m.

(** What is left to do: a batch wakes at most every thread, and a thread woken sleeps, proposes or
    returns. *)
Definition work (p : Proposers) : nat :=
  (length (pr_submitted p) - length (pr_answered p)) * S (size (pr_threads p)) + size (woken_threads (pr_threads p)).

Lemma submit_turn_not_woken t q : is_woken (submit_turn t q).2 = false.
Proof. unfold submit_turn. destruct (q_answers q !! t); [done|]. by destruct (q_busy q). Qed.

Lemma woken_threads_le m : (size (woken_threads m) ≤ size m)%nat.
Proof. apply map_subseteq_size, map_filter_subseteq. Qed.

Lemma woken_threads_insert m i t s :
  m !! i = Some (Woken t) → is_woken s = false → S (size (woken_threads (<[i := s]> m))) = size (woken_threads m).
Proof.
  intros Hi Hs. unfold woken_threads. rewrite map_filter_insert_False by (cbn; congruence). rewrite map_filter_delete.
  assert (filter (λ x, is_woken x.2 = true) m !! i = Some (Woken t)) as Hf by by apply map_lookup_filter_Some.
  rewrite map_size_delete_Some by by eexists. apply Nat.succ_pred. intros E%map_size_empty_inv. by rewrite E in Hf.
Qed.

Lemma progress_works p p' inflight : PInv p inflight → pr_progress p p' → (work p' < work p)%nat.
Proof.
  intros HI Hs. revert HI. destruct Hs as [p0 i t ts cs answers q' s Hi Hlen E|p0 i t q' s Hi E]; intros HI; unfold work; cbn.
  - pose proof (pi_threads _ _ HI i _ Hi) as (_ & Ecs & Ht). destruct (pi_submitted _ _ HI) as (d & Hd & ->).
    pose proof (woken_threads_le (<[i := s]> (woken <$> pr_threads p0))) as Hw.
    assert (size (<[i := s]> (woken <$> pr_threads p0)) = size (pr_threads p0)) as Hsz.
    { rewrite map_size_insert_Some by (rewrite lookup_fmap, Hi; by eexists). apply map_size_fmap. }
    rewrite Hsz in *. rewrite !length_app, Hlen, Hd. subst cs. unfold blen in Ht. nia.
  - pose proof (submit_turn_not_woken t (pr_queue p0)) as Hs. rewrite E in Hs. cbn in Hs.
    pose proof (woken_threads_insert _ _ _ _ Hi Hs). rewrite map_size_insert_Some by by eexists. lia.
Qed.

(** With somebody left in [submit], somebody can go on. *)
Lemma progress_possible p inflight i s :
  PInv p inflight → pr_threads p !! i = Some s → (∃ p', pr_progress p p') ∨ ∃ t a, s = Returned t a.
Proof.
  intros HI Hi.
  assert (∀ j t ts cs, pr_threads p !! j = Some (Proposing t ts cs) → ∃ p', pr_progress p p') as Hp.
  { intros j t ts cs Hj. destruct (submit_proposed t ts (replicate (length cs) (inl (0, 0))) (pr_queue p)) as [q' s'] eqn:E.
    eexists. eapply pr_propose; [exact Hj| |exact E]. apply length_replicate. }
  destruct s as [t|t|t ts cs|t a]; [| |left; by eapply Hp|right; by eauto]; left.
  - destruct (pi_threads _ _ HI i _ Hi) as [Hb _]. apply (pi_busy _ _ HI) in Hb as (j & [] & Hj & Ej); try done. by eapply Hp.
  - destruct (submit_turn t (pr_queue p)) as [q' s'] eqn:E. eexists. by eapply pr_wake.
Qed.

(** C24: in every state of [Proposals] that threads submitting, waking and proposing in any order can reach: at
    most one thread is proposing; its batch is the commands submitted right after those already answered, with
    their tickets, so every command is proposed exactly once and in the order of its ticket; when it has
    proposed, it returns: the [expect] that a thread proposes at most once never fails; and a [submit] that
    has returned gave its caller the answer to that caller's own command. *)
Theorem proposals_in_order p :
  rtc pr_step Proposals_new p →
  (∀ i t ts cs, pr_threads p !! i = Some (Proposing t ts cs) →
    (∀ j s, pr_threads p !! j = Some s → is_proposing s = true → j = i) ∧
    cs = take (length cs) (drop (length (pr_answered p)) (pr_submitted p)) ∧
    ts = tickets_from (blen (pr_answered p)) cs ∧ t ∈ ts ∧
    ∀ answers, length answers = length cs →
      ∃ k, t = blen (pr_answered p) + N.of_nat k ∧
        Returned t <$> answers !! k = Some (submit_proposed t ts answers (pr_queue p)).2) ∧
  (∀ i t a, pr_threads p !! i = Some (Returned t a) →
    pr_answered p !! N.to_nat t = Some a ∧
    ∃ c, pr_calls p !! i = Some c ∧ pr_submitted p !! N.to_nat t = Some c).
Proof.
  intros [f HI]%reachable_PInv. split.
  - intros i t ts cs Hi. pose proof (pi_threads _ _ HI i _ Hi) as (Ets & Ecs & Ht). destruct (pi_submitted _ _ HI) as (d & Hd & Es).
    split_and!.
    + intros j s Hj Hp. by apply (pi_one _ _ HI j i s _ Hj Hi).
    + subst f. rewrite Es, <-Hd, drop_app_length, take_app_length. done.
    + done.
    + rewrite Ets. apply list_elem_of_lookup. exists (N.to_nat (t - blen (pr_answered p))). apply tickets_from_lookup.
      unfold blen in *. lia.
    + intros answers Hlen. exists (N.to_nat (t - blen (pr_answered p))). split; [lia|].
      destruct (lookup_lt_is_Some_2 answers (N.to_nat (t - blen (pr_answered p)))) as [a Ha]; [unfold blen in *; lia|].
      rewrite Ha. unfold submit_proposed, submit_turn. cbn.
      rewrite Ets, (tickets_from_len _ cs answers) by done. rewrite extend_lookup, decide_True by (unfold blen in *; lia).
      by rewrite Ha.
  - intros i t a Hi. split; [apply (pi_threads _ _ HI i _ Hi)|apply (pi_calls _ _ HI i _ Hi)].
Qed.

(** C27: no write hangs in [Proposals]: from any state threads can reach, with no more calls, the threads inside
    [submit] take at most [work p] further turns, whatever order they take them in; and when none can go on, every
    one of them has returned: no wake-up is lost, and nobody sleeps while nobody proposes. *)
Theorem proposals_all_answered p :
  rtc pr_step Proposals_new p →
  (∀ k p', nsteps pr_progress k p p' → (k ≤ work p)%nat) ∧
  (∀ p', rtc pr_progress p p' → (∀ p'', ¬ pr_progress p' p'') →
    ∀ i s, pr_threads p' !! i = Some s → ∃ t a, s = Returned t a).
Proof.
  intros [f HI]%reachable_PInv. split.
  - intros k p' Hk. revert f HI. induction Hk as [x|k x y z Hxy _ IH]; intros f HI; [lia|].
    destruct (step_PInv x y f HI (pr_go x y Hxy)) as [f' HI'].
    pose proof (progress_works x y f HI Hxy). specialize (IH f' HI'). lia.
  - intros p' Hr. revert f HI. induction Hr as [x|x y z Hxy _ IH]; intros f HI Hstuck.
    + intros i s Hi. destruct (progress_possible x f i s HI Hi) as [[p'' Hp]|?]; [by destruct (Hstuck p'')|done].
    + destruct (step_PInv x y f HI (pr_go x y Hxy)) as [f' HI']. by apply (IH f').
Qed.

(** ** A run of three threads *)

Definition ex_cmd (n : N) : bytes := [u8 n].

Definition ex_run : Proposers :=
  mkProposers (mkQueue [] ∅ true 3)
    (list_to_map [(0%nat, Returned 0 (inl (5, 2))); (1%nat, Proposing 1 [1; 2] [ex_cmd 11; ex_cmd 12]); (2%nat, Woken 2)])
    (list_to_map [(0%nat, ex_cmd 10); (1%nat, ex_cmd 11); (2%nat, ex_cmd 12)])
    [ex_cmd 10; ex_cmd 11; ex_cmd 12] [inl (5, 2)].

(** The first proposes alone, the others queue up meanwhile, and the second proposes for both. *)
Lemma ex_run_reachable : rtc pr_step Proposals_new ex_run.
Proof.
  eapply rtc_l; [apply (pr_submit _ 0%nat (ex_cmd 10)); vm_compute; reflexivity|].
  eapply rtc_l; [apply (pr_submit _ 1%nat (ex_cmd 11)); vm_compute; reflexivity|].
  eapply rtc_l; [apply (pr_submit _ 2%nat (ex_cmd 12)); vm_compute; reflexivity|].
  eapply rtc_l; [eapply pr_go, (pr_propose _ 0%nat 0 [0] [ex_cmd 10] [inl (5, 2)]); reflexivity|].
  eapply rtc_l; [eapply pr_go, (pr_wake _ 1%nat 1); reflexivity|].
  match goal with |- rtc _ ?x ?y => replace y with x by (vm_compute; reflexivity) end. apply rtc_refl.
Qed.

Lemma proposals_in_order_witness :
  pr_answered ex_run !! 0%nat = Some (inl (5, 2)) ∧
  [ex_cmd 11; ex_cmd 12] = take 2 (drop 1 (pr_submitted ex_run)).
Proof.
  destruct (proposals_in_order ex_run ex_run_reachable) as [H1 H2]. split.
  - apply (H2 0%nat 0 (inl (5, 2)) eq_refl).
  - apply (H1 1%nat 1 [1; 2] [ex_cmd 11; ex_cmd 12] eq_refl).
Defined.

Lemma proposals_all_answered_witness :
  work ex_run = 9%nat ∧ ∀ k p', nsteps pr_progress k ex_run p' → (k ≤ 9)%nat.
Proof. split; [reflexivity|]. apply (proposals_all_answered ex_run ex_run_reachable). Defined.
