(* ===== verification/Peers.v ===== *)
(** * Reaching the other nodes (src/cluster.rs)

    Where every node of the cluster can be reached: the address book, kept up to date with
    the membership; the queue of messages to each peer and the thread that owns the
    connection to it; and the thread that reads what a peer sends. *)

From S2P Require Import Prelude.
From S2P Require Import Crc.
From S2P Require Import RaftLog.
From S2P Require Import Message.
From S2P Require Import Wire.
From S2P Require Import NodeState.
From S2P Require Import Resp.

#[local] Open Scope N_scope.

(** ** Addresses *)

Record Peer := mkPeer { peer_id : NodeId; peer_raft_addr : bytes; peer_client_addr : bytes }.

Record ClusterConfig := mkClusterConfig {
  cc_id : NodeId;
  cc_peers : list Peer;
  cc_join : bool;
  cc_tick_ms : N;
  cc_raft : NodeConfig;
  cc_snapshot_every : N;
}.

Definition SPACE : byte := x20.

(** Addresses are text: the bytes of a [str]. *)
Definition member_context (raft_addr client_addr : bytes) : bytes := raft_addr ++ [SPACE] ++ client_addr.

(** [str::split_once] at a character of one byte. *)
Fixpoint split_once (sep : byte) (l : bytes) : option (bytes * bytes) :=
  match l with
  | [] => None
  | b :: l => if bool_decide (b = sep) then Some ([], l) else '(x, y) ← split_once sep l; Some (b :: x, y)
  end.

Definition parse_context (context : bytes) : option (bytes * bytes) :=
  if utf8_valid context then split_once SPACE context else None.

(** The messages on their way to the thread that owns a peer's connection, and the address
    it dials. *)
Record Sender := mkSender { snd_addr : bytes; snd_queue : list Message }.

Record AddressBook := mkBook {
  ab_me : NodeId;
  ab_configured : gmap NodeId Peer;
  ab_senders : gmap NodeId Sender;
  ab_client_addrs : gmap NodeId bytes;
  ab_seen : N;
}.

(** [spawned]: whether the thread could be started. *)
Definition connect (spawned : bool) (id : NodeId) (raft_addr client_addr : bytes) (b : AddressBook) : AddressBook :=
  if (id =? ab_me b) || bool_decide (is_Some (ab_senders b !! id)) then b
  else if spawned then
    mkBook (ab_me b) (ab_configured b) (<[id := mkSender raft_addr []]> (ab_senders b))
      (<[id := client_addr]> (ab_client_addrs b)) (ab_seen b)
  else b.

(** Where a member is said to be: by the configuration first, by the log otherwise. *)
Definition member_addrs (configured : gmap NodeId Peer) (m : Member) : option (bytes * bytes) :=
  match configured !! m_id m with
  | Some peer => Some (peer_raft_addr peer, peer_client_addr peer)
  | None => parse_context (m_context m)
  end.

Definition reach_member (spawned : bool) (m : Member) (b : AddressBook) : AddressBook :=
  match member_addrs (ab_configured b) m with
  | Some (raft, client) => connect spawned (m_id m) raft client b
  | None => b
  end.

(** [retain] on both maps. *)
Definition retained (configured : gmap NodeId Peer) (keep : list NodeId) (id : NodeId) : Prop :=
  id ∈ keep ∨ is_Some (configured !! id).

#[export] Instance retained_dec configured keep id : Decision (retained configured keep id).
Proof. unfold retained. apply _. Defined.

Definition retain_members (keep : list NodeId) (b : AddressBook) : AddressBook :=
  mkBook (ab_me b) (ab_configured b)
    (filter (λ x, retained (ab_configured b) keep x.1) (ab_senders b))
    (filter (λ x, retained (ab_configured b) keep x.1) (ab_client_addrs b)) (ab_seen b).

(** [spawns]: whether each of the threads could be started, in the order of the members. *)
Fixpoint reach_all (spawns : nat → bool) (members : list Member) (b : AddressBook) : AddressBook :=
  match members with
  | [] => b
  | m :: ms => reach_all (spawns ∘ S) ms (reach_member (spawns 0%nat) m b)
  end.

Definition book_update (spawns : nat → bool) (members : list Member) (b : AddressBook) : AddressBook :=
  retain_members (m_id <$> members) (reach_all spawns members b).

(** [follow_membership], given the membership in force and its index. *)
Definition follow_membership (spawns : nat → bool) (index : N) (members : list Member) (b : AddressBook) : AddressBook :=
  if ab_seen b =? index then b
  else
    let b := book_update spawns members b in
    mkBook (ab_me b) (ab_configured b) (ab_senders b) (ab_client_addrs b) index.

(** [Shared::dispatch] hands each message to its peer's queue. *)
Definition enqueue (b : AddressBook) (a : Action) : AddressBook :=
  match a with
  | Send to message =>
      match ab_senders b !! to with
      | Some s =>
          mkBook (ab_me b) (ab_configured b) (<[to := mkSender (snd_addr s) (snd_queue s ++ [message])]> (ab_senders b))
            (ab_client_addrs b) (ab_seen b)
      | None => b
      end
  end.

Definition dispatch_actions (actions : list Action) (b : AddressBook) : AddressBook := foldl enqueue b actions.

(** ** Starting *)

(** The check [bind] begins with. *)
Definition config_accepted (c : NodeConfig) : bool :=
  negb (MAX_FRAME <? max_append_bytes c + max_entry_bytes c + 1024).

Definition member_le (a b : Member) : Prop := m_id a ≤ m_id b.

#[export] Instance member_le_dec : RelDecision member_le.
Proof. intros a b. unfold member_le. apply _. Defined.

(** A new cluster's first membership; [raft_addr] and [client_addr] are the node's own, from
    its listeners. [sort_unstable_by_key] may order members of one id either way. *)
Definition bootstrap_members (c : ClusterConfig) (raft_addr client_addr : bytes) : list Member :=
  if cc_join c then []
  else merge_sort member_le
    (((λ p, Member_voter (peer_id p) (member_context (peer_raft_addr p) (peer_client_addr p))) <$> cc_peers c) ++
     [Member_voter (cc_id c) (member_context raft_addr client_addr)]).

(** [collect] into a map: of peers with one id the last stays. *)
Definition configured_peers (c : ClusterConfig) : gmap NodeId Peer :=
  foldl (λ m p, <[peer_id p := p]> m) ∅ (cc_peers c).

Fixpoint connect_peers (spawns : nat → bool) (peers : list Peer) (b : AddressBook) : AddressBook :=
  match peers with
  | [] => b
  | p :: ps =>
      connect_peers (spawns ∘ S) ps (connect (spawns 0%nat) (peer_id p) (peer_raft_addr p) (peer_client_addr p) b)
  end.

(** The book [bind] makes, given the membership the replica starts with. *)
Definition bind_book (spawns spawns' : nat → bool) (c : ClusterConfig) (index : N) (members : list Member) : AddressBook :=
  book_update spawns' members
    (connect_peers spawns (cc_peers c) (mkBook (cc_id c) (configured_peers c) ∅ ∅ index)).

(** ** The thread that owns a peer's connection *)

(** Milliseconds. *)
Definition MAX_BACKOFF : N := 1000.
Definition FIRST_BACKOFF : N := 20.

(** What becomes of one message: whether the peer can be dialled, asked when there is no
    connection; and whether the frame is written, or how many of its bytes are before the
    connection breaks. *)
Record Attempt := mkAttempt { at_dials : bool; at_breaks : option nat }.

(** [lk_stream]: what the open connection has carried; [lk_closed]: what the ones before it
    did; [lk_slept]: the pauses taken. *)
Record Link := mkLink { lk_stream : option bytes; lk_closed : list bytes; lk_backoff : N; lk_slept : list N }.

Definition Link_new : Link := mkLink None [] FIRST_BACKOFF [].

Definition link_write (me : NodeId) (breaks : option nat) (message : Message) (carried : bytes) (l : Link) : Link :=
  let frame := write_message me message in
  match breaks with
  | None => mkLink (Some (carried ++ frame)) (lk_closed l) (lk_backoff l) (lk_slept l)
  | Some k => mkLink None (lk_closed l ++ [carried ++ take k frame]) (lk_backoff l) (lk_slept l)
  end.

Definition send_one (me : NodeId) (l : Link) (x : Message * Attempt) : Link :=
  let '(message, a) := x in
  match lk_stream l with
  | Some carried => link_write me (at_breaks a) message carried l
  | None =>
      if at_dials a then
        link_write me (at_breaks a) message [] (mkLink (Some []) (lk_closed l) FIRST_BACKOFF (lk_slept l))
      else mkLink None (lk_closed l) (N.min (lk_backoff l * 2) MAX_BACKOFF) (lk_slept l ++ [lk_backoff l])
  end.

Definition send_to_peer (me : NodeId) (received : list (Message * Attempt)) : Link := foldl (send_one me) Link_new received.

(** Every connection made, the open one last. *)
Definition connections (l : Link) : list bytes := lk_closed l ++ option_list (lk_stream l).

(** [read_from_peer]: the messages stepped, and the error that ended it. The fuel is more
    than the frames a stream can hold. *)
Fixpoint read_frames (fuel : nat) (stream : bytes) : list (NodeId * Message) * option wire_error :=
  match fuel with
  | O => ([], None)
  | S fuel =>
      match read_message stream with
      | WMessage from m rest => let '(ms, e) := read_frames fuel rest in ((from, m) :: ms, e)
      | WEnd => ([], None)
      | WError e => ([], Some e)
      end
  end.

Definition read_from_peer (stream : bytes) : list (NodeId * Message) * option wire_error :=
  read_frames (S (length stream)) stream.

(** What [accept_peers] has started: a thread for each connection, with what it has still to read of what arrives
    there; and the messages stepped so far, by whichever thread, each with the number of its connection. *)
Record Inbound := mkInbound { ib_unread : list bytes; ib_stepped : list (nat * (NodeId * Message)) }.

Definition accept_all (arrived : list bytes) : Inbound := mkInbound arrived [].

(** One turn of the loop of the thread of connection [i]; [None] if its stream has ended or makes no sense, and the
    thread has returned. *)
Definition take_turn (i : nat) (x : Inbound) : option Inbound :=
  stream ← ib_unread x !! i;
  match read_message stream with
  | WMessage from m rest => Some (mkInbound (<[i := rest]> (ib_unread x)) (ib_stepped x ++ [(i, (from, m))]))
  | _ => None
  end.

(** Any of the threads may take the next turn. *)
Definition read_turn (x y : Inbound) : Prop := ∃ i, take_turn i x = Some y.

(** ** Contexts *)

Lemma split_once_app sep x y : sep ∉ x → split_once sep (x ++ sep :: y) = Some (x, y).
Proof.
  induction x as [|b x IH]; intros Hx; cbn [split_once app]; [by rewrite bool_decide_true|].
  rewrite list.not_elem_of_cons in Hx. destruct Hx as [Hb Hx]. rewrite bool_decide_false by congruence. by rewrite IH.
Qed.

(** A member's addresses come out of its context as they went in, if the first has no space in it. *)
Lemma context_roundtrip raft client :
  SPACE ∉ raft → utf8_valid (member_context raft client) = true → parse_context (member_context raft client) = Some (raft, client).
Proof. intros Hs Hu. unfold parse_context. rewrite Hu. by apply split_once_app. Qed.

(** ** The book follows the membership *)

Lemma connect_same sp id r cl b : ab_me (connect sp id r cl b) = ab_me b ∧ ab_configured (connect sp id r cl b) = ab_configured b.
Proof. unfold connect. destruct (_ || _); [done|]. by destruct sp. Qed.

Lemma connect_senders sp id r cl b j :
  ab_senders (connect sp id r cl b) !! j =
    if decide (j = id ∧ id ≠ ab_me b ∧ ab_senders b !! id = None ∧ sp = true) then Some (mkSender r []) else ab_senders b !! j.
Proof.
  unfold connect. destruct (N.eqb_spec id (ab_me b)) as [->|Hme]; simpl; [by rewrite decide_False by naive_solver|].
  destruct (ab_senders b !! id) as [s|] eqn:Hs; [rewrite bool_decide_true by eauto; by rewrite decide_False by naive_solver|].
  rewrite bool_decide_false by (by intros [? ?]). destruct sp; [|by rewrite decide_False by naive_solver]. simpl.
  destruct (decide (j = id)) as [->|Hj].
  - by rewrite lookup_insert_eq, decide_True.
  - by rewrite lookup_insert_ne, decide_False by naive_solver.
Qed.

Lemma connect_client_addrs sp id r cl b j :
  ab_client_addrs (connect sp id r cl b) !! j =
    if decide (j = id ∧ id ≠ ab_me b ∧ ab_senders b !! id = None ∧ sp = true) then Some cl else ab_client_addrs b !! j.
Proof.
  unfold connect. destruct (N.eqb_spec id (ab_me b)) as [->|Hme]; simpl; [by rewrite decide_False by naive_solver|].
  destruct (ab_senders b !! id) as [s|] eqn:Hs; [rewrite bool_decide_true by eauto; by rewrite decide_False by naive_solver|].
  rewrite bool_decide_false by (by intros [? ?]). destruct sp; [|by rewrite decide_False by naive_solver]. simpl.
  destruct (decide (j = id)) as [->|Hj].
  - by rewrite lookup_insert_eq, decide_True.
  - by rewrite lookup_insert_ne, decide_False by naive_solver.
Qed.

(** What holds of a book whatever threads could be started: every address in it was offered. *)
Record BookOk (offered : NodeId → bytes → bytes → Prop) (b : AddressBook) : Prop := {
  bo_me : ab_senders b !! ab_me b = None;
  bo_dom : ∀ id, is_Some (ab_client_addrs b !! id) → is_Some (ab_senders b !! id);
  bo_offered : ∀ id s, ab_senders b !! id = Some s → ∃ cl, ab_client_addrs b !! id = Some cl ∧ offered id (snd_addr s) cl;
}.

Lemma connect_ok (offered : NodeId → bytes → bytes → Prop) sp id r cl b :
  offered id r cl → BookOk offered b → BookOk offered (connect sp id r cl b).
Proof.
  intros Hoff [O1 O2 O3]. destruct (connect_same sp id r cl b) as [E1 E2]. split.
  - rewrite E1, connect_senders. rewrite decide_False; [done|]. by intros (<- & ? & _).
  - intros j. rewrite connect_senders, connect_client_addrs. case_decide; [by eauto|]. apply O2.
  - intros j s. rewrite connect_senders, connect_client_addrs. case_decide as Hd; [|by apply O3].
    destruct Hd as (-> & _). intros [= <-]. by exists cl.
Qed.

Lemma union_first {A} (x y z : option A) : x ∪ (y ∪ z) = (x ∪ y) ∪ z.
Proof. by destruct x, y, z. Qed.

Lemma union_none_r {A} (x : option A) : x ∪ None = x.
Proof. by destruct x. Qed.

Lemma union_none_l {A} (x : option A) : None ∪ x = x.
Proof. by destruct x. Qed.

Lemma union_some {A} (a : A) (x : option A) : Some a ∪ x = Some a.
Proof. by destruct x. Qed.

(** Where a book has everyone: the address its thread dials, and the one clients are sent to. *)
Definition Places (b : AddressBook) (f : NodeId → option (bytes * bytes)) : Prop :=
  f (ab_me b) = None ∧
  ∀ id, snd_addr <$> ab_senders b !! id = fst <$> f id ∧ ab_client_addrs b !! id = snd <$> f id.

Lemma Places_ext b f g : (∀ id, f id = g id) → Places b f → Places b g.
Proof. intros E [H1 H2]. split; [by rewrite <-E|]. intros id. rewrite <-E. apply H2. Qed.

Lemma connect_places id r cl b f :
  Places b f → Places (connect true id r cl b) (λ j, f j ∪ (if decide (j = id ∧ j ≠ ab_me b) then Some (r, cl) else None)).
Proof.
  intros [Hme Hf]. split.
  - destruct (connect_same true id r cl b) as [-> _]. by rewrite Hme, decide_False by naive_solver.
  - intros j. destruct (Hf j) as [H1 H2]. rewrite connect_senders, connect_client_addrs. case_decide as Hd.
    + destruct Hd as (-> & Hne & Hn & _). rewrite Hn in H1. destruct (f id); [done|]. by rewrite decide_True.
    + rewrite H1, H2. destruct (f j) as [x|]; [by destruct (decide _)|]. rewrite decide_False; [done|]. intros [-> Hne].
      destruct Hd. split_and!; try done. by apply fmap_None in H1.
Qed.

Lemma reach_member_same sp m b : ab_me (reach_member sp m b) = ab_me b ∧ ab_configured (reach_member sp m b) = ab_configured b.
Proof. unfold reach_member. destruct (member_addrs _ m) as [[r cl]|]; [apply connect_same|done]. Qed.

Lemma reach_all_same sps ms b : ab_me (reach_all sps ms b) = ab_me b ∧ ab_configured (reach_all sps ms b) = ab_configured b.
Proof.
  revert sps b. induction ms as [|m ms IH]; intros sps b; [done|]. simpl.
  destruct (IH (sps ∘ S) (reach_member (sps 0%nat) m b)) as [-> ->]. apply reach_member_same.
Qed.

Lemma reach_all_ok offered sps ms b :
  (∀ m r cl, m ∈ ms → member_addrs (ab_configured b) m = Some (r, cl) → offered (m_id m) r cl) →
  BookOk offered b → BookOk offered (reach_all sps ms b).
Proof.
  revert sps b. induction ms as [|m ms IH]; intros sps b Hm HO; [done|]. destruct (reach_member_same (sps 0%nat) m b) as [_ E2].
  apply IH; [rewrite E2; intros m' r cl Hm'; apply Hm; by right|]. unfold reach_member.
  destruct (member_addrs _ m) as [[r cl]|] eqn:E; [|done]. apply connect_ok; [|done]. apply Hm; [by left|done].
Qed.

(** The first address among the members for an id. *)
Definition first_addrs (configured : gmap NodeId Peer) (ms : list Member) (id : NodeId) : option (bytes * bytes) :=
  head (omap (λ m, if decide (m_id m = id) then member_addrs configured m else None) ms).

Lemma reach_all_places sps ms b f :
  (∀ k, sps k = true) → Places b f →
  Places (reach_all sps ms b) (λ id, f id ∪ (if decide (id = ab_me b) then None else first_addrs (ab_configured b) ms id)).
Proof.
  revert sps b f. induction ms as [|m ms IH]; intros sps b f Hsp Hf.
  { apply (Places_ext _ f); [|done]. intros id. unfold first_addrs. simpl. destruct (f id); by case_decide. }
  simpl. destruct (reach_member_same (sps 0%nat) m b) as [E1 E2].
  set (f' := λ id, f id ∪ (if decide (id = m_id m ∧ id ≠ ab_me b) then member_addrs (ab_configured b) m else None)).
  assert (Places (reach_member (sps 0%nat) m b) f') as Hf'.
  { unfold reach_member, f'. rewrite Hsp. destruct (member_addrs (ab_configured b) m) as [[r cl]|]; [by apply connect_places|].
    apply (Places_ext _ f); [|done]. intros id. destruct (f id); by case_decide. }
  apply (IH (sps ∘ S)) in Hf'; [|intros k; apply Hsp]. rewrite E1, E2 in Hf'. eapply Places_ext, Hf'. intros id. unfold f', first_addrs. cbn [omap list_omap].
  destruct (decide (id = ab_me b)) as [->|Hme]; [rewrite decide_False by naive_solver; by rewrite !union_none_r|].
  destruct (decide (m_id m = id)) as [<-|Hid].
  - rewrite decide_True by done. rewrite <-union_first. f_equal.
    destruct (member_addrs (ab_configured b) m); [apply union_some|apply union_none_l].
  - rewrite decide_False by naive_solver. by rewrite union_none_r.
Qed.

Lemma retain_lookup {A} (cf : gmap NodeId Peer) keep (m : gmap NodeId A) j :
  filter (λ x, retained cf keep x.1) m !! j = if decide (retained cf keep j) then m !! j else None.
Proof.
  destruct (decide (retained cf keep j)) as [Hr|Hr].
  - destruct (m !! j) as [x|] eqn:E; [by apply map_lookup_filter_Some|]. apply map_lookup_filter_None. by left.
  - apply map_lookup_filter_None. right. intros x _. exact Hr.
Qed.

Lemma book_update_same sps ms b : ab_me (book_update sps ms b) = ab_me b ∧ ab_configured (book_update sps ms b) = ab_configured b.
Proof. apply reach_all_same. Qed.

Lemma book_update_ok offered sps ms b :
  (∀ m r cl, m ∈ ms → member_addrs (ab_configured b) m = Some (r, cl) → offered (m_id m) r cl) →
  BookOk offered b → BookOk offered (book_update sps ms b).
Proof.
  intros Hm HO. apply (reach_all_ok offered sps ms) in HO as [O1 O2 O3]; [|done]. unfold book_update, retain_members. split; cbn.
  - rewrite retain_lookup, O1. by case_decide.
  - intros id. rewrite !retain_lookup. case_decide; [apply O2|by intros [? ?]].
  - intros id s. rewrite !retain_lookup. case_decide; [by apply O3|done].
Qed.

Lemma book_update_known sps ms b id :
  is_Some (ab_senders (book_update sps ms b) !! id) → is_Some (ab_configured b !! id) ∨ id ∈ m_id <$> ms.
Proof.
  cbn. rewrite retain_lookup. destruct (reach_all_same sps ms b) as [_ ->]. case_decide as Hd; [|by intros [? ?]].
  intros _. destruct Hd; [by right|by left].
Qed.

Lemma book_update_places sps ms b f :
  (∀ k, sps k = true) → Places b f →
  Places (book_update sps ms b) (λ id,
    if decide (id = ab_me b) then None
    else if decide (retained (ab_configured b) (m_id <$> ms) id) then f id ∪ first_addrs (ab_configured b) ms id else None).
Proof.
  intros Hsp Hf. destruct (reach_all_places sps ms b f Hsp Hf) as [_ H2]. destruct (reach_all_same sps ms b) as [E1 E2].
  split; [cbn; by rewrite E1, decide_True|]. intros id. specialize (H2 id). cbn. rewrite !retain_lookup, E2.
  destruct (decide (id = ab_me b)) as [->|Hne].
  - destruct Hf as [Hme _]. rewrite Hme in H2. destruct H2 as [H1 H2]. apply fmap_None in H1. rewrite H1, H2. by case_decide.
  - by case_decide.
Qed.

(** ** The configuration *)

Lemma configured_outside ps (m : gmap NodeId Peer) id :
  id ∉ peer_id <$> ps → foldl (λ m p, <[peer_id p := p]> m) m ps !! id = m !! id.
Proof.
  revert m. induction ps as [|p ps IH]; intros m Hid; [done|]. rewrite fmap_cons, list.not_elem_of_cons in Hid.
  simpl. rewrite IH by naive_solver. by rewrite lookup_insert_ne by naive_solver.
Qed.

Lemma configured_inside ps (m : gmap NodeId Peer) id :
  id ∈ peer_id <$> ps → ∃ p, p ∈ ps ∧ peer_id p = id ∧ foldl (λ m p, <[peer_id p := p]> m) m ps !! id = Some p.
Proof.
  revert m. induction ps as [|p ps IH]; intros m Hid; [by apply not_elem_of_nil in Hid|]. simpl.
  destruct (decide (id ∈ peer_id <$> ps)) as [Hin|Hout].
  - destruct (IH (<[peer_id p := p]> m) Hin) as (p' & Hp' & E & El). exists p'. split; [by right|done].
  - rewrite fmap_cons in Hid. apply elem_of_cons in Hid as [->|Hid]; [|done].
    exists p. rewrite configured_outside by done. rewrite lookup_insert_eq. split; [by left|done].
Qed.

Lemma configured_peers_None c id : configured_peers c !! id = None ↔ id ∉ peer_id <$> cc_peers c.
Proof.
  unfold configured_peers. split.
  - intros E Hin. destruct (configured_inside (cc_peers c) ∅ id Hin) as (p & _ & _ & E'). congruence.
  - intros Hout. by rewrite configured_outside, lookup_empty.
Qed.

Lemma configured_peers_Some c id p : configured_peers c !! id = Some p → p ∈ cc_peers c ∧ peer_id p = id.
Proof.
  intros E. destruct (decide (id ∈ peer_id <$> cc_peers c)) as [Hin|Hout%configured_peers_None]; [|congruence].
  destruct (configured_inside (cc_peers c) ∅ id Hin) as (p' & H1 & H2 & E'). unfold configured_peers in E. by simplify_eq.
Qed.

(** The address the configuration gives for an id: of several the first, which is connected to before the others. *)
Definition given (c : ClusterConfig) (id : NodeId) : option (bytes * bytes) :=
  head (omap (λ p, if decide (peer_id p = id) then Some (peer_raft_addr p, peer_client_addr p) else None) (cc_peers c)).

Lemma given_None c id : given c id = None ↔ id ∉ peer_id <$> cc_peers c.
Proof.
  unfold given. induction (cc_peers c) as [|p ps IH]; [split; [intros _; apply not_elem_of_nil|done]|].
  rewrite fmap_cons, list.not_elem_of_cons. simpl. case_decide; [naive_solver|]. rewrite IH. naive_solver.
Qed.

Lemma connect_peers_same sps ps b : ab_me (connect_peers sps ps b) = ab_me b ∧ ab_configured (connect_peers sps ps b) = ab_configured b.
Proof.
  revert sps b. induction ps as [|p ps IH]; intros sps b; [done|]. simpl.
  destruct (IH (sps ∘ S) (connect (sps 0%nat) (peer_id p) (peer_raft_addr p) (peer_client_addr p) b)) as [-> ->]. apply connect_same.
Qed.

Lemma connect_peers_ok (offered : NodeId → bytes → bytes → Prop) sps ps b :
  (∀ p, p ∈ ps → offered (peer_id p) (peer_raft_addr p) (peer_client_addr p)) →
  BookOk offered b → BookOk offered (connect_peers sps ps b).
Proof.
  revert sps b. induction ps as [|p ps IH]; intros sps b Hp HO; [done|]. apply IH; [intros p' Hp'; apply Hp; by right|].
  apply connect_ok; [apply Hp; by left|done].
Qed.

Lemma connect_peers_places sps ps b f :
  (∀ k, sps k = true) → Places b f →
  Places (connect_peers sps ps b) (λ id, f id ∪ (if decide (id = ab_me b) then None else
    head (omap (λ p, if decide (peer_id p = id) then Some (peer_raft_addr p, peer_client_addr p) else None) ps))).
Proof.
  revert sps b f. induction ps as [|p ps IH]; intros sps b f Hsp Hf.
  { apply (Places_ext _ f); [|done]. intros id. simpl. destruct (f id); by case_decide. }
  simpl. rewrite Hsp. apply (connect_places (peer_id p) (peer_raft_addr p) (peer_client_addr p)) in Hf.
  apply (IH (sps ∘ S)) in Hf; [|intros k; apply Hsp]. destruct (connect_same true (peer_id p) (peer_raft_addr p) (peer_client_addr p) b) as [E1 _].
  rewrite E1 in Hf. eapply Places_ext, Hf. intros id. cbn.
  destruct (decide (id = ab_me b)) as [->|Hme]; [rewrite decide_False by naive_solver; by rewrite !union_none_r|].
  destruct (decide (peer_id p = id)) as [<-|Hid]; [rewrite decide_True by done; cbn; by rewrite <-union_first, union_some|].
  rewrite decide_False by naive_solver. by rewrite union_none_r.
Qed.

(** ** Handing messages over *)

(** The messages among [actions] for one peer. *)
Definition messages_to (id : NodeId) (actions : list Action) : list Message :=
  omap (λ a, let 'Send to m := a in if decide (to = id) then Some m else None) actions.

(** Each peer the book reaches gets exactly its messages, in order, after those already waiting;
    nothing else of the book changes. *)
Lemma dispatch_actions_exact actions b :
  ab_me (dispatch_actions actions b) = ab_me b ∧ ab_configured (dispatch_actions actions b) = ab_configured b ∧
  ab_client_addrs (dispatch_actions actions b) = ab_client_addrs b ∧ ab_seen (dispatch_actions actions b) = ab_seen b ∧
  ∀ id, ab_senders (dispatch_actions actions b) !! id =
    (λ s, mkSender (snd_addr s) (snd_queue s ++ messages_to id actions)) <$> ab_senders b !! id.
Proof.
  unfold dispatch_actions. revert b. induction actions as [|[to m] actions IH]; intros b.
  { split_and!; [done..|]. intros id. simpl. destruct (ab_senders b !! id) as [[a q]|]; simpl; [by rewrite app_nil_r|done]. }
  cbn [foldl messages_to]. destruct (IH (enqueue b (Send to m))) as (H1 & H2 & H3 & H4 & H5).
  rewrite H1, H2, H3, H4. unfold enqueue in *. destruct (ab_senders b !! to) as [s|] eqn:Es.
  - split_and!; [done..|]. intros id. rewrite H5. cbn [ab_senders]. destruct (decide (to = id)) as [->|Hne].
    + rewrite lookup_insert_eq, Es. cbn. rewrite decide_True by done. by rewrite <-(assoc_L (++)).
    + rewrite lookup_insert_ne by done. cbn. by rewrite decide_False.
  - split_and!; [done..|]. intros id. rewrite H5. cbn. case_decide as Hd; [subst to; by rewrite Es|done].
Qed.

Lemma dispatch_actions_some actions b id :
  is_Some (ab_senders (dispatch_actions actions b) !! id) ↔ is_Some (ab_senders b !! id).
Proof. destruct (dispatch_actions_exact actions b) as (_ & _ & _ & _ & ->). apply fmap_is_Some. Qed.

Lemma dispatch_actions_ok offered actions b : BookOk offered b → BookOk offered (dispatch_actions actions b).
Proof.
  intros [O1 O2 O3]. pose proof (dispatch_actions_exact actions b) as (E1 & E2 & E3 & _ & E5). split.
  - by rewrite E1, E5, O1.
  - intros id. rewrite dispatch_actions_some, E3. apply O2.
  - intros id s. rewrite E3, E5. destruct (ab_senders b !! id) as [s'|] eqn:Es; [|done]. intros [= <-]. by apply (O3 id s').
Qed.

Lemma dispatch_actions_places actions b f : Places b f → Places (dispatch_actions actions b) f.
Proof.
  intros [Hme Hf]. pose proof (dispatch_actions_exact actions b) as (E1 & E2 & E3 & _ & E5). split; [by rewrite E1|].
  intros id. destruct (Hf id) as [<- <-]. rewrite E3, E5, <-option_fmap_compose. done.
Qed.

(** ** A book's life *)

(** The books of a node from [bind] on, with the memberships each was brought up to date with, the last first.
    [all]: every thread could be started. *)
Inductive book_life (c : ClusterConfig) (all : Prop) : AddressBook → list (list Member) → Prop :=
  | bl_bind spawns spawns' index members :
      (all → (∀ k, spawns k = true) ∧ ∀ k, spawns' k = true) →
      book_life c all (bind_book spawns spawns' c index members) [members]
  | bl_follow spawns index members b taken :
      book_life c all b taken → (all → ∀ k, spawns k = true) →
      book_life c all (follow_membership spawns index members b) (if ab_seen b =? index then taken else members :: taken)
  | bl_dispatch actions b taken :
      book_life c all b taken → book_life c all (dispatch_actions actions b) taken.

(** Where a membership says a node is: what the first member of that id with a context of two addresses has. *)
Definition told (members : list Member) (id : NodeId) : option (bytes * bytes) :=
  head (omap (λ m, if decide (m_id m = id) then parse_context (m_context m) else None) members).

(** Where a node the configuration does not give is, after the memberships taken up, the last first: as long as it
    is in each of them, where the first of these to say so had it. *)
Fixpoint learned (taken : list (list Member)) (id : NodeId) : option (bytes * bytes) :=
  match taken with
  | [] => None
  | members :: before => if decide (id ∈ m_id <$> members) then learned before id ∪ told members id else None
  end.

Definition located (c : ClusterConfig) (taken : list (list Member)) (id : NodeId) : option (bytes * bytes) :=
  if decide (id = cc_id c) then None else given c id ∪ learned taken id.

(** The addresses a node has been told of. *)
Definition offered (c : ClusterConfig) (taken : list (list Member)) (id : NodeId) (raft client : bytes) : Prop :=
  (∃ p, p ∈ cc_peers c ∧ peer_id p = id ∧ peer_raft_addr p = raft ∧ peer_client_addr p = client) ∨
  (id ∉ peer_id <$> cc_peers c ∧
   ∃ members m, members ∈ taken ∧ m ∈ members ∧ m_id m = id ∧ parse_context (m_context m) = Some (raft, client)).

Record BookInv (c : ClusterConfig) (all : Prop) (b : AddressBook) (taken : list (list Member)) : Prop := {
  bi_ok : BookOk (offered c taken) b;
  bi_me : ab_me b = cc_id c;
  bi_conf : ab_configured b = configured_peers c;
  bi_known : ∀ id, is_Some (ab_senders b !! id) → id ∈ peer_id <$> cc_peers c ∨ ∃ members, head taken = Some members ∧ id ∈ m_id <$> members;
  bi_places : all → Places b (located c taken);
}.

Lemma offered_older c taken members id r cl : offered c taken id r cl → offered c (members :: taken) id r cl.
Proof. intros [H|(Hn & ms & m & H1 & H2)]; [by left|]. right. split; [done|]. exists ms, m. split; [by right|done]. Qed.

Lemma BookOk_mono (P Q : NodeId → bytes → bytes → Prop) b : (∀ id r cl, P id r cl → Q id r cl) → BookOk P b → BookOk Q b.
Proof. intros HPQ [O1 O2 O3]. split; [done..|]. intros id s Hs. destruct (O3 id s Hs) as (cl & ? & ?). eauto. Qed.

Lemma member_addrs_offered c taken members m r cl :
  m ∈ members → member_addrs (configured_peers c) m = Some (r, cl) → offered c (members :: taken) (m_id m) r cl.
Proof.
  intros Hm. unfold member_addrs. destruct (configured_peers c !! m_id m) as [p|] eqn:E.
  - apply configured_peers_Some in E as [Hp Hid]. intros [= <- <-]. left. by exists p.
  - apply configured_peers_None in E. intros Hc. right. split; [done|]. exists members, m. split; [by left|done].
Qed.

Lemma first_addrs_told c members id :
  id ∉ peer_id <$> cc_peers c → first_addrs (configured_peers c) members id = told members id.
Proof.
  intros Hid%configured_peers_None. unfold first_addrs, told. f_equal. induction members as [|m ms IH]; [done|].
  cbn [omap list_omap]. case_decide as Hm; [|done]. unfold member_addrs at 1. rewrite Hm, Hid.
  destruct (parse_context _); [by f_equal|done].
Qed.

Lemma book_update_inv c all spawns members taken b :
  (all → ∀ k, spawns k = true) → BookOk (offered c taken) b → ab_me b = cc_id c → ab_configured b = configured_peers c →
  (all → Places b (located c taken)) → BookInv c all (book_update spawns members b) (members :: taken).
Proof.
  intros Hsp HO Hme Hc Hp. destruct (book_update_same spawns members b) as [E1 E2]. split.
  - apply book_update_ok; [|by eapply BookOk_mono, HO; apply offered_older]. rewrite Hc. intros m r cl. apply member_addrs_offered.
  - congruence.
  - congruence.
  - intros id Hid. apply book_update_known in Hid as [[p Hp']|Hid]; [left|right; by exists members].
    rewrite Hc in Hp'. apply configured_peers_Some in Hp' as [? <-]. by apply list_elem_of_fmap_2.
  - intros Ha. eapply Places_ext, (book_update_places spawns members b _ (Hsp Ha) (Hp Ha)). intros id. rewrite Hme, Hc. unfold located.
    case_decide; [done|]. destruct (given c id) as [x|] eqn:Eg.
    + rewrite decide_True; [by rewrite <-union_first, !union_some|].
      right. apply not_eq_None_Some. intros Hn%configured_peers_None. apply given_None in Hn. congruence.
    + apply given_None in Eg. rewrite first_addrs_told by done. cbn [learned]. apply configured_peers_None in Eg.
      destruct (decide (id ∈ m_id <$> members)) as [Hin|Hout].
      * rewrite decide_True by (by left). by rewrite !union_none_l.
      * rewrite decide_False; [done|]. unfold retained. rewrite Eg. by intros [?|[? ?]].
Qed.

Lemma book_life_inv c all b taken : book_life c all b taken → BookInv c all b taken.
Proof.
  induction 1 as [spawns spawns' index members Hsp|spawns index members b taken _ IH Hsp|actions b taken _ IH].
  - set (b0 := mkBook (cc_id c) (configured_peers c) ∅ ∅ index).
    destruct (connect_peers_same spawns (cc_peers c) b0) as [E1 E2].
    apply book_update_inv; [by intros [_ ?]%Hsp| |done..|].
    + apply connect_peers_ok; [intros p Hp; left; by exists p|]. split; cbn; [done|intros id; by rewrite !lookup_empty|done].
    + intros Ha. eapply Places_ext, (connect_peers_places spawns (cc_peers c) b0 (λ _, None) (proj1 (Hsp Ha))).
      * intros id. unfold located, given. cbn [b0 ab_me learned]. case_decide; [done|]. by rewrite union_none_l, union_none_r.
      * split; [done|]. intros id. cbn. by rewrite !lookup_empty.
  - unfold follow_membership. destruct (ab_seen b =? index); [done|].
    destruct (book_update_inv c all spawns members taken b) as [[O1 O2 O3] ? ? ? ?]; [done|apply IH..|].
    split; [by split|done..].
  - destruct IH as [I1 I2 I3 I4 I5]. destruct (dispatch_actions_exact actions b) as (E1 & E2 & _).
    split; [by apply dispatch_actions_ok|congruence|congruence| |].
    + intros id. rewrite dispatch_actions_some. apply I4.
    + intros Ha. by apply dispatch_actions_places, I5.
Qed.

(** C31: where a node reaches the others. However the membership changes and whatever is sent meanwhile, a node never
    keeps a connection to itself; everyone it reaches was given in the configuration or belongs to the membership it
    last took up, and is reached, and clients are sent, at a pair of addresses that the configuration gives for it
    or, if that gives none, that a membership taken up gave. If every thread could be started, it reaches exactly
    these: a peer of the configuration at the address given there, the first one if there are several, whatever the
    log says; any other node as long as every membership taken up since it appeared has it, at the address in the
    context it first appeared with: a later one does not move it. *)
Theorem address_book_follows c all b taken :
  book_life c all b taken →
  (∀ id s, ab_senders b !! id = Some s → id ≠ cc_id c ∧
    (id ∈ peer_id <$> cc_peers c ∨ ∃ members, head taken = Some members ∧ id ∈ m_id <$> members) ∧
    ∃ client, ab_client_addrs b !! id = Some client ∧ offered c taken id (snd_addr s) client) ∧
  (all → ∀ id, snd_addr <$> ab_senders b !! id = fst <$> located c taken id ∧
    ab_client_addrs b !! id = snd <$> located c taken id).
Proof.
  intros HL. destruct (book_life_inv c all b taken HL) as [[O1 O2 O3] I2 I3 I4 I5]. split; [|intros Ha; apply (I5 Ha)].
  intros id s Hs. split_and!; [|by apply I4|by apply O3]. intros ->. rewrite <-I2, O1 in Hs. done.
Qed.

(** ** What arrives of a queue *)

(** A message that can be framed and read back. *)
Definition msg_sendable (m : Message) : Prop := msg_wf m ∧ blen (wire_encode m) + 12 ≤ MAX_FRAME.

Definition wire_stop (r : wire_read) : option wire_error := match r with WError e => Some e | _ => None end.

Definition no_message (stream : bytes) : Prop := ∀ from m rest, read_message stream ≠ WMessage from m rest.

(** A frame cut anywhere is no message. *)
Lemma cut_frame_no_message me m k :
  blen (wire_encode m) + 12 ≤ MAX_FRAME → (k < length (write_message me m))%nat → no_message (take k (write_message me m)).
Proof.
  intros Hm Hk from m' rest. rewrite write_message_prefix in * by done.
  set (body := wire_encode m) in *. set (fp := frame_prefix me (blen body + 12) (crc32_parts [body])) in *.
  assert (length fp = PREFIX_LEN) as Hfp by apply length_frame_prefix. rewrite length_app, Hfp in Hk.
  unfold read_message. destruct (N.ltb_spec (blen (take k (fp ++ body))) (N.of_nat PREFIX_LEN)) as [|Hlen]; [done|].
  unfold blen in Hlen. rewrite length_take, length_app in Hlen.
  rewrite take_app_ge by lia. rewrite take_app_length', drop_app_length' by done.
  destruct (negb (of_le (slice 0 4 fp) =? MAGIC)); [done|].
  assert (of_le (slice 4 8 fp) = blen body + 12) as ->.
  { unfold fp, frame_prefix. rewrite (slice_skip 4), (slice_here (8 - _)) by done.
    apply of_le_to_le_u32. unfold is_u32, TWO32, MAX_FRAME in *. lia. }
  destruct (negb _); [done|]. unfold p_take. rewrite N.add_sub.
  rewrite (proj2 (N.leb_gt _ _)); [done|]. unfold blen. rewrite length_take. lia.
Qed.

Definition frames (me : NodeId) (ms : list Message) : bytes := mjoin (write_message me <$> ms).

Lemma frames_cons me m ms : frames me (m :: ms) = write_message me m ++ frames me ms.
Proof. done. Qed.

Lemma frames_app me ms ms' : frames me (ms ++ ms') = frames me ms ++ frames me ms'.
Proof. unfold frames. by rewrite fmap_app, join_app. Qed.

Lemma frames_snoc me ms m : frames me (ms ++ [m]) = frames me ms ++ write_message me m.
Proof. rewrite frames_app. unfold frames at 2. simpl. by rewrite app_nil_r. Qed.

Lemma length_frames me ms : Forall msg_sendable ms → (length ms ≤ length (frames me ms))%nat.
Proof.
  induction 1 as [|m ms [_ Hm] _ IH]; [done|]. rewrite frames_cons, length_app, write_message_prefix by done.
  rewrite length_app, length_frame_prefix. unfold PREFIX_LEN. simpl. lia.
Qed.

Lemma read_frames_exact me ms tail fuel :
  is_u64 me → Forall msg_sendable ms → no_message tail → (length ms < fuel)%nat →
  read_frames fuel (frames me ms ++ tail) = ((me,.) <$> ms, wire_stop (read_message tail)).
Proof.
  intros Hme Hms Hend. revert fuel. induction Hms as [|m ms [Hw Hl] _ IH]; intros [|fuel] Hf; try (simpl in Hf; lia).
  - change (frames me [] ++ tail) with tail. cbn [read_frames]. destruct (read_message tail) as [from m rest| |e] eqn:E; [|done..]. by destruct (Hend from m rest).
  - rewrite frames_cons, <-(assoc_L (++)). cbn [read_frames]. rewrite frame_roundtrip by done.
    rewrite IH by (simpl in Hf; lia). done.
Qed.

(** Any part of a stream of frames that arrives is whole messages and then nothing more. *)
Lemma prefix_of_frames me ms s :
  s `prefix_of` frames me ms → ∃ j tail, s = frames me (take j ms) ++ tail ∧ (j ≤ length ms)%nat ∧
    (tail = [] ∨ ∃ m k, ms !! j = Some m ∧ tail = take k (write_message me m) ∧ (k < length (write_message me m))%nat).
Proof.
  revert s. induction ms as [|m ms IH]; intros s Hs.
  { apply prefix_nil_inv in Hs as ->. exists 0%nat, []. split_and!; [done|lia|by left]. }
  rewrite frames_cons in Hs. destruct (decide (length s < length (write_message me m))%nat) as [Hlt|Hge].
  - exists 0%nat, s. split_and!; [done|simpl; lia|]. right. exists m, (length s). split_and!; [done| |done].
    destruct Hs as [k Hk]. pose proof (take_app_length s k) as Et. rewrite <-Hk, take_app_le in Et by lia. by rewrite Et.
  - destruct Hs as [k Hk]. assert (s = write_message me m ++ drop (length (write_message me m)) s) as Es.
    { rewrite <-(take_drop (length (write_message me m)) s) at 1. f_equal.
      rewrite <-(take_app_le s k) by lia. by rewrite <-Hk, take_app_length. }
    destruct (IH (drop (length (write_message me m)) s)) as (j & tail & E & Hj & Ht).
    { exists k. apply (inj (write_message me m ++.)). by rewrite Hk, (assoc_L (++)), <-Es. }
    exists (S j), tail. split_and!; [|simpl; lia|done]. cbn [take]. rewrite frames_cons, <-(assoc_L (++)), <-E. done.
Qed.

Lemma read_prefix me ms s :
  is_u64 me → Forall msg_sendable ms → s `prefix_of` frames me ms →
  ∃ j, (read_from_peer s).1 = (me,.) <$> take j ms ∧ (s = frames me ms → take j ms = ms ∧ (read_from_peer s).2 = None).
Proof.
  intros Hme Hms Hs. destruct (prefix_of_frames me ms s Hs) as (j & tail & E & Hj & Ht). exists j.
  assert (Forall msg_sendable (take j ms)) as Hj' by by apply Forall_take.
  assert (no_message tail) as Hno.
  { destruct Ht as [->|(m & k & Hm & -> & Hk)]; [by intros from m rest|]. apply cut_frame_no_message; [|done].
    rewrite list.Forall_lookup in Hms. by apply (Hms _ _ Hm). }
  assert (read_from_peer s = ((me,.) <$> take j ms, wire_stop (read_message tail))) as Hr.
  { unfold read_from_peer. rewrite E. apply read_frames_exact; [done..|]. rewrite length_app.
    pose proof (length_frames me (take j ms) Hj'). lia. }
  rewrite Hr. split; [done|]. intros ->.
  assert (j = length ms ∧ tail = []) as [-> ->]; [|by rewrite firstn_all].
  destruct (ms !! j) as [m|] eqn:Hm.
  - rewrite <-(take_drop_middle ms j m Hm) in E at 1. rewrite frames_app, frames_cons in E.
    apply app_inv_head, (f_equal length) in E. rewrite length_app in E.
    destruct Ht as [->|(m' & k & [= <-] & -> & Hk)]; [|rewrite length_take in E; lia].
    rewrite list.Forall_lookup in Hms. destruct (Hms _ _ Hm) as [_ Hl].
    rewrite write_message_prefix, length_app, length_frame_prefix in E by done. cbn in E. lia.
  - apply lookup_ge_None_1 in Hm. split; [lia|]. by destruct Ht as [|(m' & k & ? & _)].
Qed.

(** The messages each connection was given, in order and none twice. *)
Record LinkInv (me : NodeId) (l : Link) (sent : list Message) (groups : list (list Message)) (g : list Message) : Prop := {
  li_closed : Forall2 (λ s g, s `prefix_of` frames me g) (lk_closed l) groups;
  li_open : match lk_stream l with Some s => s = frames me g | None => g = [] end;
  li_order : mjoin groups ++ g `sublist_of` sent;
  li_backoff : lk_backoff l ≤ MAX_BACKOFF;
  li_slept : Forall (λ n, n ≤ MAX_BACKOFF) (lk_slept l);
}.

Lemma link_write_inv me breaks m carried l sent groups g :
  LinkInv me l sent groups g → lk_stream l = Some carried →
  ∃ groups' g', LinkInv me (link_write me breaks m carried l) (sent ++ [m]) groups' g'.
Proof.
  intros [I1 I2 I3 I4 I5] Hs. rewrite Hs in I2. subst carried. unfold link_write. destruct breaks as [k|].
  - exists (groups ++ [g ++ [m]]), []. split; cbn; [|done| |done|done].
    + apply Forall2_app; [done|]. constructor; [|done]. rewrite frames_snoc. apply prefix_app, prefix_take.
    + rewrite app_nil_r, join_app. simpl. rewrite app_nil_r, (assoc_L (++)). by apply sublist_app.
  - exists groups, (g ++ [m]). split; cbn; [done|by rewrite frames_snoc| |done|done].
    rewrite (assoc_L (++)). by apply sublist_app.
Qed.

Lemma send_one_inv me l x sent groups g :
  LinkInv me l sent groups g → ∃ groups' g', LinkInv me (send_one me l x) (sent ++ [x.1]) groups' g'.
Proof.
  intros HI. destruct x as [m a]. unfold send_one. cbn [fst]. destruct (lk_stream l) as [carried|] eqn:Hs; [by eapply link_write_inv|].
  pose proof HI as [I1 I2 I3 I4 I5]. rewrite Hs in I2. subst g. destruct (at_dials a).
  - apply (link_write_inv me (at_breaks a) m [] _ sent groups []); [|done]. split; cbn; try done.
  - exists groups, []. split; cbn; [done|done|by apply sublist_inserts_r|unfold MAX_BACKOFF; lia|by apply Forall_app_2; [|constructor]].
Qed.

Lemma send_to_peer_inv me xs : ∃ groups g, LinkInv me (send_to_peer me xs) xs.*1 groups g.
Proof.
  induction xs as [|x xs (groups & g & IH)] using rev_ind; [by exists [], []; split|].
  unfold send_to_peer. rewrite foldl_app, fmap_app. by eapply send_one_inv.
Qed.

Lemma send_unbroken me xs :
  Forall (λ x, x.2 = mkAttempt true None) xs →
  lk_closed (send_to_peer me xs) = [] ∧ default [] (lk_stream (send_to_peer me xs)) = frames me xs.*1.
Proof.
  induction xs as [|[m a] xs IH] using rev_ind; [done|].
  intros [Hxs Ha]%Forall_app. apply Forall_cons_1 in Ha as [Ha _]. cbn in Ha. subst a. destruct (IH Hxs) as [Hc Ho].
  unfold send_to_peer in *. rewrite foldl_app, fmap_app. change ([(m, mkAttempt true None)].*1) with [m]. rewrite frames_snoc, <-Ho. cbn.
  by destruct (lk_stream (foldl (send_one me) Link_new xs)).
Qed.

Lemma Forall_sublist {A} (P : A → Prop) l l' : l `sublist_of` l' → Forall P l' → Forall P l.
Proof. induction 1; intros HF; [done|apply Forall_cons_1 in HF as [? ?]..]; [constructor|]; auto. Qed.

Lemma Forall_mjoin {A} (P : A → Prop) (ls : list (list A)) : Forall P (mjoin ls) → Forall (Forall P) ls.
Proof. induction ls as [|l ls IH]; intros HF; [done|]. apply Forall_app in HF as [? ?]. constructor; auto. Qed.

(** ** The threads that read *)

Lemma read_message_shorter s from m rest : read_message s = WMessage from m rest → (length rest < length s)%nat.
Proof.
  unfold read_message. destruct (N.ltb_spec (blen s) (N.of_nat PREFIX_LEN)) as [|Hlen]; [by destruct s|]. cbv zeta.
  destruct (negb _); [done|]. destruct (negb _); [done|]. destruct (p_take _ _) as [[body tl]|] eqn:E; [|done].
  apply p_take_inv in E as [E _]. destruct (negb _); [done|]. destruct (wire_decode body); [|done]. intros [= _ _ <-].
  apply (f_equal length) in E. rewrite length_app, length_drop in E. unfold blen, PREFIX_LEN in *. lia.
Qed.

Lemma read_frames_fuel fuel fuel' s : (length s < fuel)%nat → (length s < fuel')%nat → read_frames fuel s = read_frames fuel' s.
Proof.
  revert fuel' s. induction fuel as [|fuel IH]; intros [|fuel'] s H1 H2; try lia. cbn [read_frames].
  destruct (read_message s) as [from m rest| |e] eqn:E; [|done..]. apply read_message_shorter in E. by rewrite (IH fuel' rest) by lia.
Qed.

(** All that is to come of a stream. *)
Definition to_come (s : bytes) : list (NodeId * Message) := (read_from_peer s).1.

Lemma to_come_message s from m rest : read_message s = WMessage from m rest → to_come s = (from, m) :: to_come rest.
Proof.
  intros E. pose proof (read_message_shorter _ _ _ _ E) as Hl. unfold to_come, read_from_peer.
  rewrite (read_frames_fuel (S (length rest)) (length s) rest) by lia. cbn [read_frames]. rewrite E. by destruct (read_frames _ rest).
Qed.

Lemma to_come_none s : no_message s → to_come s = [].
Proof. intros Hn. unfold to_come, read_from_peer. cbn [read_frames]. destruct (read_message s) as [from m rest| |e] eqn:E; [|done..]. by destruct (Hn from m rest). Qed.

Definition unread (x : Inbound) : list (NodeId * Message) := mjoin (to_come <$> ib_unread x).

Definition stepped_on (i : nat) (x : Inbound) : list (NodeId * Message) := (filter (λ y, y.1 = i) (ib_stepped x)).*2.

(** What one turn does to its own connection, and to all of them. *)
Lemma read_turn_split x y :
  read_turn x y → ∃ i m before after s s', ib_unread x = before ++ s :: after ∧ length before = i ∧
    ib_unread y = before ++ s' :: after ∧ to_come s = m :: to_come s' ∧ ib_stepped y = ib_stepped x ++ [(i, m)].
Proof.
  intros [i H]. unfold take_turn in H. destruct (ib_unread x !! i) as [s|] eqn:Hi; [|done]. cbn in H.
  destruct (read_message s) as [from m rest| |] eqn:E; [|done..]. injection H as <-. destruct (list_elem_of_split_length _ _ _ Hi) as (before & after & E1 & E2).
  exists i, (from, m), before, after, s, rest. split_and!; [done|done| |by apply to_come_message|done]. cbn.
  by rewrite E1, E2, insert_app_r_alt, Nat.sub_diag by lia.
Qed.

Lemma read_turns_all x y :
  rtc read_turn x y → (ib_stepped y).*2 ++ unread y ≡ₚ (ib_stepped x).*2 ++ unread x ∧ length (ib_unread y) = length (ib_unread x) ∧
    ((length (ib_unread x) ≤ 1)%nat → (ib_stepped y).*2 ++ unread y = (ib_stepped x).*2 ++ unread x).
Proof.
  induction 1 as [x|x y z Hxy _ (IH1 & IH2 & IH3)]; [done|].
  destruct (read_turn_split x y Hxy) as (i & m & before & after & s & s' & E1 & E2 & E3 & E4 & E5).
  assert ((ib_stepped y).*2 ++ unread y = ((ib_stepped x).*2 ++ [m]) ++ mjoin (to_come <$> before) ++ to_come s' ++ mjoin (to_come <$> after)) as Ey.
  { unfold unread. rewrite E3, E5, !fmap_app, join_app. done. }
  assert ((ib_stepped x).*2 ++ unread x = (ib_stepped x).*2 ++ mjoin (to_come <$> before) ++ (m :: to_come s') ++ mjoin (to_come <$> after)) as Ex.
  { unfold unread. rewrite E1, !fmap_app, join_app, <-E4. done. }
  assert (length (ib_unread y) = length (ib_unread x)) as El by (by rewrite E1, E3, !length_app). split_and!.
  - rewrite IH1, Ey, Ex. rewrite <-(assoc_L (++)). apply Permutation_app_head. cbn. by rewrite Permutation_middle.
  - congruence.
  - intros Hl. rewrite IH3 by lia. rewrite Ey, Ex. rewrite E1, length_app in Hl. simpl in Hl. destruct before; [|simpl in Hl; lia].
    by rewrite <-(assoc_L (++)).
Qed.

(** A connection's messages are stepped in the order they are read there. *)
Lemma read_turns_one i x y :
  rtc read_turn x y → ∃ more, stepped_on i y = stepped_on i x ++ more ∧ more ++ from_option to_come [] (ib_unread y !! i) = from_option to_come [] (ib_unread x !! i).
Proof.
  induction 1 as [x|x y z Hxy _ (more & IH1 & IH2)]; [by exists []; rewrite app_nil_r|].
  destruct (read_turn_split x y Hxy) as (k & m & before & after & s & s' & E1 & E2 & E3 & E4 & E5).
  rewrite IH1. unfold stepped_on. rewrite E5, list.filter_app, fmap_app. destruct (decide (k = i)) as [->|Hne].
  - exists (m :: more). rewrite list.filter_cons_True by done. cbn. rewrite <-(assoc_L (++)). split; [done|]. rewrite IH2, E1, E3.
    rewrite !list_lookup_middle by done. cbn. by rewrite E4.
  - exists more. rewrite list.filter_cons_False by done. cbn. rewrite app_nil_r. split; [done|]. rewrite IH2, E1, E3. f_equal.
    destruct (decide (i < k)%nat); [by rewrite !lookup_app_l by lia|]. rewrite !lookup_app_r by lia.
    destruct (i - length before)%nat eqn:E; [lia|done].
Qed.

(** The threads can always go on until nothing is left. *)
Lemma read_turns_finish x : ∃ y, rtc read_turn x y ∧ unread y = [].
Proof.
  remember (length (unread x)) as n eqn:En. revert x En. induction n as [|n IH]; intros x En.
  { exists x. split; [done|]. by apply nil_length_inv. }
  assert (∃ i s, ib_unread x !! i = Some s ∧ to_come s ≠ []) as (i & s & Hi & Hs).
  { unfold unread in En. destruct (mjoin (to_come <$> ib_unread x)) as [|m l] eqn:E; [done|].
    assert (m ∈ mjoin (to_come <$> ib_unread x)) as (l' & Hm & (s & -> & Hs)%list_elem_of_fmap)%list_elem_of_join by (rewrite E; by left).
    apply list_elem_of_lookup in Hs as [i Hi]. exists i, s. split; [done|]. intros E'. rewrite E' in Hm. by apply elem_of_nil in Hm. }
  destruct (read_message s) as [from m rest| |e] eqn:E; [|by destruct Hs; apply to_come_none; intros f' m' r'; rewrite E..].
  set (x' := mkInbound (<[i := rest]> (ib_unread x)) (ib_stepped x ++ [(i, (from, m))])).
  assert (read_turn x x') as Ht by (exists i; unfold take_turn; rewrite Hi; cbn; by rewrite E).
  destruct (read_turn_split x x' Ht) as (k & m' & before & after & s1 & s2 & E1 & E2 & E3 & E4 & E5).
  destruct (IH x') as (y & Hy & Ey); [|exists y; split; [by eapply rtc_l|done]].
  unfold unread in *. rewrite E3. rewrite E1 in En. rewrite !fmap_app, join_app, length_app in *. cbn [fmap list_fmap mjoin list_join] in *.
  rewrite E4 in En. simpl in En. lia.
Qed.

Lemma unread_groups me arrived conns groups :
  is_u64 me → Forall (Forall msg_sendable) groups → Forall2 prefix arrived conns →
  Forall2 (λ s g, s `prefix_of` frames me g) conns groups →
  ∃ ms, mjoin (to_come <$> arrived) = (me,.) <$> ms ∧ ms `sublist_of` mjoin groups.
Proof.
  intros Hme Hg Ha. revert groups Hg. induction Ha as [|s s' arrived conns Hs _ IH]; intros groups Hg Hc.
  { inversion Hc. by exists []. }
  inversion Hc as [|? g ? groups' Hp Hc']; subst. apply Forall_cons_1 in Hg as [Hg Hgs].
  destruct (IH groups' Hgs Hc') as (ms & Em & Hms).
  destruct (read_prefix me g s Hme Hg) as (j & Ej & _); [by etrans|].
  exists (take j g ++ ms). rewrite fmap_cons, fmap_app, <-Em, <-Ej. split; [done|].
  cbn [mjoin list_join]. apply sublist_app; [apply sublist_take|done].
Qed.

Lemma unread_sent me xs arrived :
  is_u64 me → Forall msg_sendable xs.*1 → Forall2 prefix arrived (connections (send_to_peer me xs)) →
  ∃ ms, mjoin (to_come <$> arrived) = (me,.) <$> ms ∧ ms `sublist_of` xs.*1.
Proof.
  intros Hme Hms Ha. destruct (send_to_peer_inv me xs) as (groups & g & [I1 I2 I3 I4 I5]).
  set (open_ := match lk_stream (send_to_peer me xs) with Some _ => [g] | None => [] end).
  assert (mjoin (groups ++ open_) = mjoin groups ++ g) as Ej.
  { rewrite join_app. f_equal. unfold open_. destruct (lk_stream _); [simpl; by rewrite app_nil_r|by rewrite I2]. }
  destruct (unread_groups me arrived (connections (send_to_peer me xs)) (groups ++ open_)) as (ms & Em & Hsub); [done| |done| |].
  - assert (Forall msg_sendable (mjoin (groups ++ open_))) as HF by (rewrite Ej; by eapply Forall_sublist).
    by apply Forall_mjoin.
  - unfold connections. apply Forall2_app; [done|]. unfold open_. destruct (lk_stream _) as [s|]; simpl; [|done].
    constructor; [by rewrite I2|done].
  - exists ms. split; [done|]. rewrite Ej in Hsub. by etrans.
Qed.

Lemma unread_unbroken me xs :
  is_u64 me → Forall msg_sendable xs.*1 → Forall (λ x, x.2 = mkAttempt true None) xs →
  (length (connections (send_to_peer me xs)) ≤ 1)%nat ∧ mjoin (to_come <$> connections (send_to_peer me xs)) = (me,.) <$> xs.*1.
Proof.
  intros Hme Hms Hall. destruct (send_unbroken me xs Hall) as [Hc Ho]. unfold connections. rewrite Hc. simpl.
  destruct (lk_stream (send_to_peer me xs)) as [s|]; simpl in *; (split; [lia|]).
  - destruct (read_prefix me xs.*1 s Hme Hms) as (j & Ej & Hj); [by rewrite Ho|]. unfold to_come.
    rewrite app_nil_r, Ej. by destruct (Hj Ho) as [-> _].
  - destruct xs as [|x xs]; [done|]. exfalso. rewrite fmap_cons, frames_cons in Ho. symmetry in Ho. apply app_eq_nil in Ho as [Ho _].
    apply (f_equal length) in Ho. unfold write_message in Ho. rewrite length_app, length_to_le in Ho. simpl in Ho. lia.
Qed.

(** C29: the connections to a peer lose messages, and may let one connection's messages pass another's; nothing else.
    The messages are well formed and fit a frame. Whatever the network does, refusing to be dialled, breaking in the
    middle of a frame, losing the end of what was written, and in whatever order the threads that read the connections
    at the other end take their turns: each of the messages given to the queue is stepped there at most once, unchanged
    and as from this node, and nothing else is; those of one connection are stepped in the order they were given. If
    nothing fails, they are stepped in the order they were given, and the threads can go on until all of them are. The
    pause before dialling again never passes a second. *)
Theorem peer_link_in_order me xs arrived x :
  is_u64 me → Forall msg_sendable xs.*1 → Forall2 prefix arrived (connections (send_to_peer me xs)) →
  rtc read_turn (accept_all arrived) x →
  (ib_stepped x).*2 ⊆+ (me,.) <$> xs.*1 ∧
  (∀ i, stepped_on i x `sublist_of` (me,.) <$> xs.*1) ∧
  Forall (λ n, n ≤ MAX_BACKOFF) (lk_slept (send_to_peer me xs)) ∧
  (Forall (λ x, x.2 = mkAttempt true None) xs → arrived = connections (send_to_peer me xs) →
    (ib_stepped x).*2 `prefix_of` (me,.) <$> xs.*1 ∧ ∃ y, rtc read_turn x y ∧ (ib_stepped y).*2 = (me,.) <$> xs.*1).
Proof.
  intros Hme Hms Ha Hr. destruct (unread_sent me xs arrived Hme Hms Ha) as (ms & Em & Hsub).
  apply (fmap_sublist (me,.)) in Hsub. rewrite <-Em in Hsub. destruct (read_turns_all _ _ Hr) as (R1 & R2 & R3). cbn in R1, R2, R3. split_and!.
  - etrans; [|by apply sublist_submseteq]. rewrite <-R1. by apply submseteq_inserts_r.
  - intros i. etrans; [|exact Hsub]. destruct (read_turns_one i _ _ Hr) as (more & Es & E). cbn in Es, E. rewrite Es.
    etrans; [by apply (sublist_inserts_r (from_option to_come [] (ib_unread x !! i)))|]. rewrite E.
    destruct (arrived !! i) as [s|] eqn:Hi; [|apply sublist_nil_l]. cbn. apply list_elem_of_lookup_2 in Hi as (l1 & l2 & ->)%list_elem_of_split.
    rewrite fmap_app, join_app. apply sublist_inserts_l. cbn. by apply sublist_inserts_r.
  - by destruct (send_to_peer_inv me xs) as (groups & g & []).
  - intros Hall ->. destruct (unread_unbroken me xs Hme Hms Hall) as [Hl Eall]. rewrite Eall in R3. specialize (R3 Hl). split; [by eexists|].
    destruct (read_turns_finish x) as (y & Hy & Ey). exists y. split; [done|].
    destruct (read_turns_all _ _ (transitivity Hr Hy)) as (_ & _ & R4). cbn in R4. rewrite Eall, Ey, app_nil_r in R4. by apply R4.
Qed.

(** ** Concrete cases *)

Definition ex_config : ClusterConfig :=
  mkClusterConfig 1 [mkPeer 2 (lit "10.0.0.2:7000") (lit "10.0.0.2:6379")] false 50 NodeConfig_default 10000.

Definition ex_members (addrs3 : string) : list Member :=
  [Member_voter 1 []; Member_voter 2 (lit "stale:1 stale:2"); Member_voter 3 (lit addrs3)].

(** A peer of the configuration, a member of the log, and the same member given another address. *)
Lemma address_book_follows_witness :
  let b := follow_membership (λ _, true) 9 (ex_members "10.0.0.9:7000 10.0.0.9:6379")
    (bind_book (λ _, true) (λ _, true) ex_config 0 (ex_members "10.0.0.3:7000 10.0.0.3:6379")) in
  (snd_addr <$> ab_senders b !! 2 = Some (lit "10.0.0.2:7000") ∧ ab_client_addrs b !! 2 = Some (lit "10.0.0.2:6379")) ∧
  (snd_addr <$> ab_senders b !! 3 = Some (lit "10.0.0.3:7000") ∧ ab_client_addrs b !! 3 = Some (lit "10.0.0.3:6379")).
Proof.
  intros b. assert (book_life ex_config True b [ex_members "10.0.0.9:7000 10.0.0.9:6379"; ex_members "10.0.0.3:7000 10.0.0.3:6379"]) as HL.
  { refine (bl_follow ex_config True (λ _, true) 9 (ex_members "10.0.0.9:7000 10.0.0.9:6379")
      (bind_book (λ _, true) (λ _, true) ex_config 0 (ex_members "10.0.0.3:7000 10.0.0.3:6379"))
      [ex_members "10.0.0.3:7000 10.0.0.3:6379"] _ _); [|done]. by apply bl_bind. }
  destruct (address_book_follows ex_config True b _ HL) as [_ H]. specialize (H I). split; [exact (H 2)|exact (H 3)].
Defined.

(** A connection that cannot be made, one that breaks inside its second message, and a third. *)
Definition ex_sent : list (Message * Attempt) :=
  [(ReadIndex 1 7, mkAttempt false None); (ReadIndex 1 8, mkAttempt true None);
   (ReadIndexReply 1 9 None, mkAttempt true (Some 25%nat)); (RequestVoteReply 3 true, mkAttempt true None)].

(** The second connection's message is read before the first one's. *)
Lemma peer_link_in_order_witness :
  ∃ x, rtc read_turn (accept_all (connections (send_to_peer 2 ex_sent))) x ∧
    ib_stepped x = [(1%nat, (2, RequestVoteReply 3 true)); (0%nat, (2, ReadIndex 1 8))] ∧
    (ib_stepped x).*2 ⊆+ (2,.) <$> ex_sent.*1 ∧ stepped_on 0 x `sublist_of` (2,.) <$> ex_sent.*1.
Proof.
  assert (ib_stepped <$> (take_turn 1 (accept_all (connections (send_to_peer 2 ex_sent))) ≫= take_turn 0) =
    Some [(1%nat, (2, RequestVoteReply 3 true)); (0%nat, (2, ReadIndex 1 8))]) as Hrun by (vm_compute; reflexivity).
  destruct (take_turn 1 _) as [x1|] eqn:E1; [|discriminate Hrun]. cbn [mbind option_bind] in Hrun.
  destruct (take_turn 0 x1) as [x|] eqn:E0; [|discriminate Hrun]. injection Hrun as Es.
  pose proof (rtc_l _ _ _ _ (ex_intro _ 1%nat E1 : read_turn _ _) (rtc_once _ _ (ex_intro _ 0%nat E0 : read_turn _ _))) as Hx.
  exists x. split; [exact Hx|]. split; [exact Es|].
  destruct (peer_link_in_order 2 ex_sent (connections (send_to_peer 2 ex_sent)) x) as (H1 & H2 & _).
  - done.
  - repeat constructor; by vm_compute.
  - apply Forall_Forall2_diag, Forall_true. reflexivity.
  - exact Hx.
  - split; [exact H1|exact (H2 0%nat)].
Defined.

(** A member removed and added again at another address between two looks of the book is reached where it was:
    the address it had stays, in the book and for clients, though [update] is to make the book match the membership. *)
Example readdressed_member_keeps_old_address :
  let at_ addr := [Member_voter 1 []; Member_voter 3 addr] in
  let b := bind_book (λ _, true) (λ _, true) ex_config 0 (at_ (lit "old:1 old:2")) in
  let b' := follow_membership (λ _, true) 9 (at_ (lit "new:1 new:2")) b in
  parse_context (lit "new:1 new:2") = Some (lit "new:1", lit "new:2") ∧
  snd_addr <$> ab_senders b' !! 3 = Some (lit "old:1") ∧ ab_client_addrs b' !! 3 = Some (lit "old:2").
Proof. by vm_compute. Qed.

(** A consensus address with a space in it is text, and so accepted, but does not come back out of the context. *)
Example spaced_address_is_split :
  parse_context (member_context (lit "a b") (lit "c")) = Some (lit "a", lit "b c").
Proof. by vm_compute. Qed.
