(* ===== verification/Cluster.v ===== *)
(** * A replicated node as a running process (src/cluster.rs)

    What the threads of a node do with the replica they share: stepping and ticking it,
    proposing for a batch of clients, deciding when a client that waits has its answer, and
    what each command of a client asks for. *)

From S2P Require Import Prelude.
From S2P Require Import RaftLog.
From S2P Require Import Message.
From S2P Require Import Wire.
From S2P Require Import NodeState.
From S2P Require Import Node.
From S2P Require Import Store.
From S2P Require Import KeyOrder.
From S2P Require Import Resp.
From S2P Require Import Server.
From S2P Require Import Replicated.
From S2P Require Import Proposals.
From S2P Require Import Peers.

#[local] Open Scope N_scope.

(** [ProposeError] as text. *)
Definition propose_error_display (e : ProposeError) : bytes :=
  match e with
  | NotLeader (Some id) => lit "not the leader, try node " ++ show_N id
  | NotLeader None => lit "not the leader"
  | TooLarge len max => lit "command of " ++ show_N len ++ lit " bytes exceeds the " ++ show_N max ++ lit " byte entry limit"
  | StorageError e => error_display e
  | MembershipError why => lit why
  end.

Definition parse_u64 : bytes → option N := parse_uint U64_MAX.

Definition parse_id (l : bytes) : option NodeId := if utf8_valid l then parse_u64 l else None.

Section Cluster.
Context {St : Type} `{Storage St}.

Abbreviation Replica := (ReplicatedStore St).

(** The replica behind its lock, the count of its changes, and the addresses. *)
Record Shared := mkShared { sh_replica : Replica; sh_changes : N; sh_addresses : AddressBook }.

Definition sh_set_replica (r : Replica) (s : Shared) : Shared := mkShared r (sh_changes s) (sh_addresses s).
Definition sh_set_addresses (b : AddressBook) (s : Shared) : Shared := mkShared (sh_replica s) (sh_changes s) b.

Definition changed (s : Shared) : Shared := mkShared (sh_replica s) (sh_changes s + 1) (sh_addresses s).

Definition client_addr (s : Shared) (id : NodeId) : option bytes := ab_client_addrs (sh_addresses s) !! id.

Definition shared_dispatch (actions : list Action) (s : Shared) : Shared :=
  sh_set_addresses (dispatch_actions actions (sh_addresses s)) s.

Definition shared_follow (spawns : nat → bool) (s : Shared) : Shared :=
  let n := rp_node (sh_replica s) in
  sh_set_addresses (follow_membership spawns (n_membership_index n) (n_members n) (sh_addresses s)) s.

(** A message or a tick: the replica, the book, the waiters and the queues. [None]: the
    storage failed, and the process aborts. *)
Definition after_replica (spawns : nat → bool) (x : result (list Action) * Replica) (s : Shared) : option Shared :=
  match x with
  | (Ok actions, r) => Some (shared_dispatch actions (changed (shared_follow spawns (sh_set_replica r s))))
  | (Err _, _) => None
  end.

Definition shared_step (old_ids : Store → list N) (spawns : nat → bool) (from : NodeId) (message : Message) (s : Shared)
    : option Shared :=
  after_replica spawns (replica_step old_ids from message (sh_replica s)) s.

(** [read_from_peer] steps each message as it comes. *)
Definition step_all (old_ids : Store → list N) (spawns : nat → bool) (ms : list (NodeId * Message)) (s : Shared)
    : option Shared :=
  foldl (λ s x, s ← s; shared_step old_ids spawns x.1 x.2 s) (Some s) ms.

(** A job the replica would not start is left for another time. *)
Definition started {A} (m : M Replica (option A)) (r : Replica) : option A * Replica :=
  match m r with (Ok job, r) => (job, r) | (Err _, r) => (None, r) end.

(** One round of the ticker under the lock, with the jobs it starts. *)
Definition ticker_round (old_ids : Store → list N) (spawns : nat → bool) (s : Shared)
    : option (Shared * option ReplicaRestoreJob * option CompactionJob * option SnapshotJob) :=
  match replica_tick old_ids (sh_replica s) with
  | (Err _, _) => None
  | (Ok actions, r) =>
      let s := shared_follow spawns (sh_set_replica r s) in
      let '(restore, r) := started (start_restore old_ids) (sh_replica s) in
      let '(compaction, r) := started (start_compaction old_ids) r in
      let '(job, r) := started start_snapshot r in
      Some (shared_dispatch actions (changed (sh_set_replica r s)), restore, compaction, job)
  end.

(** A job whose thread could not be started goes down with it. *)
Definition spawn_or {A} (spawned : bool) (job : option A) (abandon : Replica → Replica) (s : Shared) : option A * Shared :=
  match job with
  | Some job => if spawned then (Some job, s) else (None, sh_set_replica (abandon (sh_replica s)) s)
  | None => (None, s)
  end.

(** The whole round; [restores], [compacts] and [snapshots]: whether each job's thread could be started. *)
Definition ticker (old_ids : Store → list N) (spawns : nat → bool) (restores compacts snapshots : bool) (s : Shared)
    : option (Shared * option ReplicaRestoreJob * option CompactionJob * option SnapshotJob) :=
  '(s, restore, compaction, job) ← ticker_round old_ids spawns s;
  let '(restore, s) := spawn_or restores restore replica_abandon_restore s in
  let '(compaction, s) := spawn_or compacts compaction (λ r, (replica_abandon_compaction r).2) s in
  let '(job, s) := spawn_or snapshots job abandon_snapshot s in
  Some (s, restore, compaction, job).

(** The end of each job, back under the lock; an error of [finish_*] aborts. *)
Definition write_snapshot_done (old_ids : Store → list N) (written : result Sink) (s : Shared) : option Shared :=
  match written with
  | Ok sink =>
      match finish_snapshot old_ids sink (sh_replica s) with
      | (Ok _, r) => Some (sh_set_replica r s)
      | (Err _, _) => None
      end
  | Err _ => Some (sh_set_replica (abandon_snapshot (sh_replica s)) s)
  end.

Definition restore_store_done (old_ids : Store → list N) (restored : result RestoredStore) (s : Shared) : option Shared :=
  match restored with
  | Ok done_ =>
      match replica_finish_restore old_ids done_ (sh_replica s) with
      | (Ok _, r) => Some (changed (sh_set_replica r s))
      | (Err _, _) => None
      end
  | Err _ => Some (changed (sh_set_replica (replica_abandon_restore (sh_replica s)) s))
  end.

Definition compact_store_done (merged : result MergedFile) (s : Shared) : option Shared :=
  match merged with
  | Ok done_ =>
      match replica_finish_compaction done_ (sh_replica s) with
      | (Ok _, r) => Some (sh_set_replica r s)
      | (Err _, _) => None
      end
  | Err _ => Some (sh_set_replica (replica_abandon_compaction (sh_replica s)).2 s)
  end.

(** ** Clients *)

Definition moved (addr : bytes) : Reply := ErrorReply (lit "MOVED 0 " ++ addr).
Definition clusterdown : Reply := ErrorReply (lit "CLUSTERDOWN no leader is known; the cluster has no majority").

Definition not_leader (s : Shared) : Reply :=
  match n_leader_id (rp_node (sh_replica s)) ≫= client_addr s with
  | Some addr => moved addr
  | None => clusterdown
  end.

(** What [write] gives [Proposals::submit] to call with a batch. *)
Definition proposed_answer (term : N) (r : N + ProposeError) : Proposed :=
  match r with
  | inl index => inl (index, term)
  | inr e => inr (Reply_err (propose_error_display e))
  end.

Definition write_propose (commands : list bytes) (s : Shared) : list Proposed * Shared :=
  let count := length commands in
  let term := node_term (rp_node (sh_replica s)) in
  let '(x, r) := replica_propose_batch commands (sh_replica s) in
  let s := sh_set_replica r s in
  match x with
  | inl (results, actions) => (proposed_answer term <$> results, shared_dispatch actions s)
  | inr (NotLeader _) => (replicate count (inr (not_leader s)), shared_dispatch [] s)
  | inr e => (replicate count (inr (Reply_err (propose_error_display e))), shared_dispatch [] s)
  end.

Definition write_lost : Reply :=
  ErrorReply (lit "NOTLEADER leadership was lost before the write committed; its fate is unknown").
Definition write_timeout : Reply :=
  ErrorReply (lit "TIMEOUT the write did not commit in time; it may still do so").

(** Whether a write has its answer. *)
Definition write_check (index term : N) (r : Replica) : option Reply :=
  if index <=? rp_applied r then Some Reply_ok
  else if negb (node_term (rp_node r) =? term) || negb (is_leader (rp_node r)) then Some write_lost
  else None.

(** Up to joining the queue of proposals: the command, or the reply at once. *)
Definition write_command (now : N) (op : Op) : bytes + Reply :=
  match Op_encode now op with
  | Ok command => inl command
  | Err e => inr (Reply_err (error_display e))
  end.

(** The locked part of [change_membership]: where the change landed, or the reply. *)
Definition membership_propose (spawns : nat → bool) (edit : list Member → list Member + bytes) (s : Shared)
    : Proposed * Shared :=
  match edit (n_members (rp_node (sh_replica s))) with
  | inr why => (inr (Reply_err why), s)
  | inl members =>
      let '(x, r) := replica_propose_membership members (sh_replica s) in
      let s := sh_set_replica r s in
      match x with
      | inl (index, actions) =>
          (inl (index, node_term (rp_node r)), shared_dispatch actions (shared_follow spawns s))
      | inr (NotLeader _) => (inr (not_leader s), s)
      | inr e => (inr (Reply_err (propose_error_display e)), s)
      end
  end.

Definition change_lost : Reply :=
  ErrorReply (lit "NOTLEADER leadership was lost before the change committed; its fate is unknown").
Definition change_timeout : Reply :=
  ErrorReply (lit "TIMEOUT the change did not commit in time; it may still do so").

Definition membership_check (index term : N) (r : Replica) : option Reply :=
  if index <=? n_commit_index (rp_node r) then Some Reply_ok
  else if negb (node_term (rp_node r) =? term) then Some change_lost
  else None.

(** A read begins by asking for an index, which is sent for if this node does not lead. *)
Definition read_begin (s : Shared) : ReadKind * Shared :=
  let '(request, actions, r) := replica_read_index (sh_replica s) in
  (request, shared_dispatch actions (sh_set_replica r s)).

Definition read_timeout : Reply :=
  ErrorReply (lit "TIMEOUT the read could not be confirmed in time; no majority answered").

(** Whether it may be answered; [f] is the lookup. *)
Definition read_check (f : Replica → Reply) (request : ReadKind) (s : Shared) : option Reply :=
  match replica_read_state (sh_replica s) request with
  | RPending => None
  | RReady _ => Some (f (sh_replica s))
  | RFailed => Some (not_leader s)
  end.

Definition read_end (request : ReadKind) (s : Shared) : Shared :=
  sh_set_replica (replica_forget_read request (sh_replica s)) s.

(** ** What a command asks for *)

Inductive Plan :=
  | PAnswer (reply : Reply)
  | PInspect (f : Replica → Reply)
  | PRead (f : Replica → Reply)
  | PWrite (op : Op)
  | PChange (edit : list Member → list Member + bytes).

(** Lookups under the shared lock. *)
Definition get_reply (key : bytes) (r : Replica) : Reply :=
  match store_get (rp_store r) key with
  | Ok v => bulk_or_null v
  | Err e => Reply_err (error_display e)
  end.

Definition mget_reply (keys : list bytes) (r : Replica) : Reply :=
  Array ((λ k, match store_get (rp_store r) k with Ok (Some v) => Bulk v | _ => Null end) <$> keys).

Definition exists_reply (keys : list bytes) (r : Replica) : Reply :=
  Integer (Z.of_nat (length (filter (λ k, contains_key (rp_store r) k = true) keys))).

Definition dbsize_reply (r : Replica) : Reply := Integer (Z.of_nat (size (s_keydir (rp_store r)))).

Definition keys_reply (pattern : bytes) (r : Replica) : Reply :=
  Array (Bulk <$> merge_sort bytes_le (filter (λ k, glob_match pattern k = true) (store_keys (rp_store r)))).

(** The edits of [RAFT.ADD] and [RAFT.REMOVE]. *)
Definition add_member (id : NodeId) (context : bytes) (members : list Member) : list Member + bytes :=
  if existsb (λ m, m_id m =? id) members then inr (lit "node " ++ show_N id ++ lit " is already a member")
  else inl (merge_sort member_le (members ++ [mkMember id context true])).

Definition remove_member (id : NodeId) (members : list Member) : list Member + bytes :=
  let kept := filter (λ m, m_id m ≠ id) members in
  if Nat.eqb (length kept) (length members) then inr (lit "node " ++ show_N id ++ lit " is not a member")
  else inl kept.

Definition role_name (role : Role) : string :=
  match role with Leader => "leader" | Candidate => "candidate" | PreCandidate => "pre-candidate" | Follower => "follower" end.

(** [join(",")]. *)
Fixpoint comma_join (l : list bytes) : bytes :=
  match l with
  | [] => []
  | [x] => x
  | x :: l => x ++ lit "," ++ comma_join l
  end.

Definition info_line (name : string) (value : bytes) : bytes := lit name ++ lit ":" ++ value ++ CRLF.

Definition info_reply (r : Replica) : Reply :=
  let n := rp_node r in
  let ids ms := comma_join (show_N ∘ m_id <$> ms) in
  Bulk (info_line "id" (show_N (n_id n)) ++
    info_line "role" (lit (role_name (n_role n))) ++
    info_line "term" (show_N (node_term n)) ++
    info_line "leader" (match n_leader_id n with Some id => show_N id | None => lit "none" end) ++
    info_line "commit_index" (show_N (n_commit_index n)) ++
    info_line "applied_index" (show_N (rp_applied r)) ++
    info_line "last_index" (show_N (last_index (n_storage n))) ++
    info_line "snapshot_index" (show_N (snapshot_index r)) ++
    info_line "keys" (show_N (N.of_nat (size (s_keydir (rp_store r))))) ++
    info_line "members" (ids (n_members n)) ++
    info_line "voters" (ids (filter (λ m, m_learner m = false) (n_members n)))).

Definition plan_name (name : bytes) (args : list bytes) : Plan :=
  let arity := PAnswer (wrong_arity name) in
  if is_name name "PING" then
    match args with [] => PAnswer (Simple (lit "PONG")) | [msg] => PAnswer (Bulk msg) | _ => arity end
  else if is_name name "ECHO" then match args with [msg] => PAnswer (Bulk msg) | _ => arity end
  else if is_name name "QUIT" then PAnswer Reply_ok
  else if is_name name "COMMAND" then PAnswer (Array [])
  else if is_name name "CLIENT" then PAnswer Reply_ok
  else if is_name name "SELECT" then
    match args with
    | [db] => PAnswer (if bool_decide (db = lit "0") then Reply_ok else Reply_err (lit "DB index is out of range"))
    | _ => arity
    end
  else if is_name name "GET" then match args with [key] => PRead (get_reply key) | _ => arity end
  else if is_name name "MGET" then match args with [] => arity | keys => PRead (mget_reply keys) end
  else if is_name name "EXISTS" then match args with [] => arity | keys => PRead (exists_reply keys) end
  else if is_name name "DBSIZE" then match args with [] => PRead dbsize_reply | _ => arity end
  else if is_name name "KEYS" then match args with [pattern] => PRead (keys_reply pattern) | _ => arity end
  else if is_name name "SET" then
    match args with
    | [key; value] => PWrite (OpPut key value)
    | _ :: _ :: _ => PAnswer (Reply_err (lit "this cluster's SET takes no options"))
    | _ => arity
    end
  else if is_name name "DEL" then
    match args with
    | [] => arity
    | [key] => PWrite (OpDelete key)
    | _ => PAnswer (Reply_err (lit "this cluster's DEL takes one key"))
    end
  else if is_name name "RAFT.ADD" then
    match args with
    | [id; raft_addr; client_addr] =>
        match parse_id id with
        | None => PAnswer (Reply_err (lit "RAFT.ADD wants a numeric node id"))
        | Some id =>
            if utf8_valid raft_addr && utf8_valid client_addr then PChange (add_member id (member_context raft_addr client_addr))
            else PAnswer (Reply_err (lit "addresses must be text"))
        end
    | _ => arity
    end
  else if is_name name "RAFT.REMOVE" then
    match args with
    | [id] =>
        match parse_id id with
        | None => PAnswer (Reply_err (lit "RAFT.REMOVE wants a numeric node id"))
        | Some id => PChange (remove_member id)
        end
    | _ => arity
    end
  else if is_name name "RAFT" || is_name name "INFO" then PInspect info_reply
  else PAnswer (Reply_err (lit "unknown command '" ++ to_ascii_lowercase name ++ lit "'")).

Definition cluster_plan (args : list bytes) : Plan :=
  match args with
  | [] => PAnswer (Reply_err [])
  | name :: args => plan_name (to_ascii_uppercase (utf8_lossy name)) args
  end.
End Cluster.

Arguments Shared St {_}.
Arguments Plan St {_}.

(** ** Waiting for a change *)

Section wait_for.
Context {R T : Type} (check : R → option T).

(** Where a thread inside [wait_for] is: about to read the count; with the count in hand,
    about to check; having found no answer, about to look at the count again, which is also
    where waking takes it; asleep on the condition variable; or done, with the answer or
    without one. *)
Inductive Waiter :=
  | WtLoop
  | WtSeen (seen : N)
  | WtUnmet (seen : N)
  | WtAsleep (seen : N)
  | WtDone (answer : option T).

(** [wt_unannounced]: how many changes were made and have yet to be announced with
    [changed], which comes after the lock on the replica is given up. *)
Record Waiting := mkWaiting { wt_replica : R; wt_changes : N; wt_unannounced : nat; wt_waiter : Waiter }.

Definition roused (w : Waiter) : Waiter := match w with WtAsleep seen => WtUnmet seen | w => w end.

Inductive wait_step : Waiting → Waiting → Prop :=
  | ws_change r c u w r' : wait_step (mkWaiting r c u w) (mkWaiting r' c (S u) w)
  | ws_announce r c u w : wait_step (mkWaiting r c (S u) w) (mkWaiting r (c + 1) u (roused w))
  | ws_count r c u : wait_step (mkWaiting r c u WtLoop) (mkWaiting r c u (WtSeen c))
  | ws_answer r c u seen a :
      check r = Some a → wait_step (mkWaiting r c u (WtSeen seen)) (mkWaiting r c u (WtDone (Some a)))
  | ws_unmet r c u seen :
      check r = None → wait_step (mkWaiting r c u (WtSeen seen)) (mkWaiting r c u (WtUnmet seen))
  | ws_again r c u seen : c ≠ seen → wait_step (mkWaiting r c u (WtUnmet seen)) (mkWaiting r c u WtLoop)
  | ws_late r u seen : wait_step (mkWaiting r seen u (WtUnmet seen)) (mkWaiting r seen u (WtDone None))
  | ws_sleep r u seen : wait_step (mkWaiting r seen u (WtUnmet seen)) (mkWaiting r seen u (WtAsleep seen))
  | ws_wake r c u seen : wait_step (mkWaiting r c u (WtAsleep seen)) (mkWaiting r c u (WtUnmet seen)).

Definition wait_start (r : R) (changes : N) (unannounced : nat) : Waiting := mkWaiting r changes unannounced WtLoop.
End wait_for.

Arguments Waiter T : clear implicits.
Arguments Waiting R T : clear implicits.

(** ** A client's connection *)

(** [eq_ignore_ascii_case(b"QUIT")]. *)
Definition is_quit (args : list bytes) : bool :=
  match args with name :: _ => bool_decide (to_ascii_uppercase name = lit "QUIT") | [] => false end.

(** [serve_client]: what is written back for the bytes a client sends, given what executing a
    command replies and leaves. When the writer is flushed does not matter to what it is given.
    The fuel is more than the commands a stream can hold. *)
Fixpoint serve_client {S} (exec : list bytes → S → Reply * S) (fuel : nat) (stream : bytes) (s : S) : bytes * S :=
  match fuel with
  | O => ([], s)
  | Datatypes.S fuel =>
      match read_command stream with
      | inl (Some args, rest) =>
          if bool_decide (args = []) then serve_client exec fuel rest s
          else
            let '(reply, s) := exec args s in
            if is_quit args then (write_to reply, s)
            else let '(out, s) := serve_client exec fuel rest s in (write_to reply ++ out, s)
      | inl (None, _) => ([], s)
      | inr (Resp.InvalidData detail) => (write_to (Reply_err (lit "Protocol error: " ++ lit detail)), s)
      | inr (Resp.UnexpectedEof _) => ([], s)
      end
  end.
