(* ===== verification/ClusterProgram.v ===== *)
(** * The program of a cluster node (src/bin/cluster.rs, ClusterNode::bind in src/cluster.rs)

    From arguments to a running node: the options, the peers, the configuration they make, and
    what [bind] makes of it and of the directories a node left. *)

From Stdlib Require Import Wf_nat.
From S2P Require Import Prelude.
From S2P Require Import RaftLog.
From S2P Require Import Message.
From S2P Require Import Wire.
From S2P Require Import NodeState.
From S2P Require Import Node.
From S2P Require Import NodeFrame.
From S2P Require Import DataLog.
From S2P Require Import Store.
From S2P Require Import StoreIndex.
From S2P Require Import StoreInv.
From S2P Require Import StoreOps.
From S2P Require Import StoreMap.
From S2P Require Import StoreOpen.
From S2P Require Import StoreCrash.
From S2P Require Import Resp.
From S2P Require Import Server.
From S2P Require Import Programs.
From S2P Require Import DiskStorage.
From S2P Require Import DiskProof.
From S2P Require Import DiskCrash.
From S2P Require Import Replicated.
From S2P Require Import ReplicaSnapshot.
From S2P Require Import ReplicaWrites.
From S2P Require Import ReplicaRestore.
From S2P Require Import Peers.
From S2P Require Import Cluster.

#[local] Open Scope N_scope.

(** ** The arguments *)

Definition CLUSTER_USAGE : bytes := lit "minicask-cluster - one node of a replicated key/value store

USAGE:
    minicask-cluster --id N --dir PATH --raft ADDR --client ADDR [--peer SPEC]... [--join]

OPTIONS:
    --id N              This node's id, unique in the cluster
    --dir PATH          Directory for this node's data and consensus log
    --raft ADDR         Address to listen on for the other nodes
    --client ADDR       Address to listen on for Redis clients
    --peer SPEC         A peer, as ID@RAFT_ADDR,CLIENT_ADDR; repeat per peer
    --join              Join a cluster that already exists, rather than
                        starting a new one with the peers given. The node
                        waits until a leader adds it:
                            redis-cli -p LEADER RAFT.ADD ID RAFT_ADDR CLIENT_ADDR
    --tick-ms N         Milliseconds per consensus tick (default: 50)
    --snapshot-every N  Applied entries between snapshots, 0 for never
                        (default: 10000)
    -h, --help          Print this message

A cluster of three tolerates one node being down; a cluster of five
tolerates two. An even number buys nothing over the odd number below it.
".

Definition cluster_fail (message : bytes) : Output := mkOutput [] (println (lit "minicask-cluster: " ++ message)) 2.

Definition AT : byte := x40.
Definition COMMA : byte := x2c.

Record ClusterArgs := mkClusterArgs {
  ca_id : option NodeId;
  ca_dir : option bytes;
  ca_raft_addr : option bytes;
  ca_client_addr : option bytes;
  ca_peers : list Peer;
  ca_tick_ms : N;
  ca_snapshot_every : N;
  ca_join : bool;
}.

Definition ClusterArgs_default : ClusterArgs :=
  mkClusterArgs None None None None [] 50 DEFAULT_SNAPSHOT_EVERY false.

Definition ca_set_id (x : N) (a : ClusterArgs) : ClusterArgs :=
  mkClusterArgs (Some x) (ca_dir a) (ca_raft_addr a) (ca_client_addr a) (ca_peers a) (ca_tick_ms a) (ca_snapshot_every a) (ca_join a).
Definition ca_set_dir (x : bytes) (a : ClusterArgs) : ClusterArgs :=
  mkClusterArgs (ca_id a) (Some x) (ca_raft_addr a) (ca_client_addr a) (ca_peers a) (ca_tick_ms a) (ca_snapshot_every a) (ca_join a).
Definition ca_set_raft_addr (x : bytes) (a : ClusterArgs) : ClusterArgs :=
  mkClusterArgs (ca_id a) (ca_dir a) (Some x) (ca_client_addr a) (ca_peers a) (ca_tick_ms a) (ca_snapshot_every a) (ca_join a).
Definition ca_set_client_addr (x : bytes) (a : ClusterArgs) : ClusterArgs :=
  mkClusterArgs (ca_id a) (ca_dir a) (ca_raft_addr a) (Some x) (ca_peers a) (ca_tick_ms a) (ca_snapshot_every a) (ca_join a).
Definition ca_push_peer (p : Peer) (a : ClusterArgs) : ClusterArgs :=
  mkClusterArgs (ca_id a) (ca_dir a) (ca_raft_addr a) (ca_client_addr a) (ca_peers a ++ [p]) (ca_tick_ms a) (ca_snapshot_every a) (ca_join a).
Definition ca_set_tick_ms (x : N) (a : ClusterArgs) : ClusterArgs :=
  mkClusterArgs (ca_id a) (ca_dir a) (ca_raft_addr a) (ca_client_addr a) (ca_peers a) x (ca_snapshot_every a) (ca_join a).
Definition ca_set_snapshot_every (x : N) (a : ClusterArgs) : ClusterArgs :=
  mkClusterArgs (ca_id a) (ca_dir a) (ca_raft_addr a) (ca_client_addr a) (ca_peers a) (ca_tick_ms a) x (ca_join a).
Definition ca_set_join (a : ClusterArgs) : ClusterArgs :=
  mkClusterArgs (ca_id a) (ca_dir a) (ca_raft_addr a) (ca_client_addr a) (ca_peers a) (ca_tick_ms a) (ca_snapshot_every a) true.

Section ClusterMain.

(** How a string prints with [{:?}], which depends on Unicode's tables. *)
Context (debug_str : bytes → bytes).

Definition bad_peer (spec : bytes) : bytes := lit "--peer wants ID@RAFT_ADDR,CLIENT_ADDR, got " ++ debug_str spec.

Definition parse_peer (spec : bytes) : bytes + Peer :=
  match split_once AT spec with
  | None => inl (bad_peer spec)
  | Some (id, addrs) =>
      match split_once COMMA addrs with
      | None => inl (bad_peer spec)
      | Some (raft_addr, client_addr) =>
          if bool_decide (raft_addr = []) || bool_decide (client_addr = []) then inl (bad_peer spec)
          else match parse_u64 id with
               | None => inl (bad_peer spec)
               | Some id => inr (mkPeer id raft_addr client_addr)
               end
      end
  end.

(** A number for an option. *)
Definition number (what : bytes) (v : bytes) (set : N → ClusterArgs → ClusterArgs) (a : ClusterArgs) : bytes + ClusterArgs :=
  match parse_u64 v with Some n => inr (set n a) | None => inl (what ++ lit " must be a number") end.

(** What an option makes of its value; [None] if it takes none. *)
Definition with_value (arg : bytes) : option (bytes → ClusterArgs → bytes + ClusterArgs) :=
  if arg_is arg "--id" then Some (λ v, number arg v ca_set_id)
  else if arg_is arg "--dir" then Some (λ v a, inr (ca_set_dir v a))
  else if arg_is arg "--raft" then Some (λ v a, inr (ca_set_raft_addr v a))
  else if arg_is arg "--client" then Some (λ v a, inr (ca_set_client_addr v a))
  else if arg_is arg "--tick-ms" then Some (λ v, number arg v ca_set_tick_ms)
  else if arg_is arg "--snapshot-every" then Some (λ v, number arg v ca_set_snapshot_every)
  else if arg_is arg "--peer" then
    Some (λ v a, match parse_peer v with inl e => inl e | inr p => inr (ca_push_peer p a) end)
  else None.

Fixpoint cluster_options (args : list bytes) (a : ClusterArgs) : Output + ClusterArgs :=
  match args with
  | [] => inr a
  | arg :: rest =>
      match with_value arg with
      | Some use =>
          match rest with
          | [] => inl (cluster_fail (arg ++ lit " needs a value"))
          | v :: rest => match use v a with inl e => inl (cluster_fail e) | inr a => cluster_options rest a end
          end
      | None =>
          if arg_is arg "--join" then cluster_options rest (ca_set_join a)
          else if arg_is arg "-h" || arg_is arg "--help" then inl (mkOutput CLUSTER_USAGE [] SUCCESS)
          else inl (cluster_fail (lit "unknown option: " ++ arg))
      end
  end.

(** Where a node is to run, and as what. *)
Record NodeSetup := mkNodeSetup { ns_dir : bytes; ns_raft_addr : bytes; ns_client_addr : bytes; ns_config : ClusterConfig }.

(** [main] up to [ClusterNode::bind]. *)
Definition cluster_setup (args : list bytes) : Output + NodeSetup :=
  match cluster_options args ClusterArgs_default with
  | inl o => inl o
  | inr a =>
      match ca_id a, ca_dir a, ca_raft_addr a, ca_client_addr a with
      | Some id, Some dir, Some raft_addr, Some client_addr =>
          if existsb (λ p, peer_id p =? id) (ca_peers a)
          then inl (cluster_fail (lit "a node cannot list itself as a peer"))
          else inr (mkNodeSetup dir raft_addr client_addr
            (mkClusterConfig id (ca_peers a) (ca_join a) (ca_tick_ms a) NodeConfig_default (ca_snapshot_every a)))
      | _, _, _, _ =>
          inl (mkOutput CLUSTER_USAGE (stderr (cluster_fail (lit "--id, --dir, --raft and --client are all required"))) 2)
      end
  end.

End ClusterMain.

(** ** Starting a node *)

(** What a node keeps on disk: the directory of the consensus log, that of the store, and the
    file in it with the index applied. *)
Record NodeFiles := mkNodeFiles { nf_raft : RaftDir; nf_store : Dir; nf_applied : option bytes }.

(** The outside of [bind]: the addresses it listens on, which threads could be created, and
    the clocks. *)
Record Outside := mkOutside {
  os_listens : result (bytes * bytes);
  os_spawns : nat → bool;
  os_spawns' : nat → bool;
  os_raft_clock : nat → N;
  os_clock : nat → N;
}.

Definition frame_limit : Error := Io "max_append_bytes plus max_entry_bytes must stay under the frame limit".

(** [ClusterNode::bind], with the milliseconds of a tick. A node that does not start drops what
    it has opened. *)
Definition cluster_bind (o : Outside) (c : ClusterConfig) (f : NodeFiles) : result (Shared DiskStorage * N) * NodeFiles :=
  if negb (config_accepted (cc_raft c)) then (Err frame_limit, f)
  else
    match os_listens o with
    | Err e => (Err e, f)
    | Ok (raft_addr, client_addr) =>
        let bootstrap := bootstrap_members c raft_addr client_addr in
        match raft_open (os_raft_clock o) (nf_raft f) with
        | (Err e, d) => (Err e, mkNodeFiles d (nf_store f) (nf_applied f))
        | (Ok storage, d) =>
            match open_with Options_default (nf_store f) with
            | (Err e, sd) => (Err e, mkNodeFiles d sd (nf_applied f))
            | (Ok store, sd) =>
                let node := with_members (cc_id c) bootstrap (cc_raft c) storage in
                let '(r, replica) := replica_new node store (nf_applied f) (os_clock o) in
                let files := mkNodeFiles (ds_dir (n_storage (rp_node replica))) (s_dir (rp_store replica)) (rp_applied_file replica) in
                match r with
                | Err e => (Err e, mkNodeFiles (nf_raft files) (store_close (rp_store replica)) (nf_applied files))
                | Ok _ =>
                    let replica := set_background_snapshots true (set_snapshot_every (cc_snapshot_every c) replica) in
                    let node := rp_node replica in
                    (Ok (mkShared replica 0
                      (bind_book (os_spawns o) (os_spawns' o) c (n_membership_index node) (n_members node)),
                      N.max (cc_tick_ms c) 1), files)
                end
            end
        end
    end.

(** What the network does once both ports are bound. *)
Inductive NodeListening := NodeAddrUnknown (e : bytes) | NodeListened (raft client : bytes) (accept_error : option bytes).

(** The rest of [main], once [bind] has answered. *)
Definition cluster_listen (id : NodeId) (bound : result unit) (l : NodeListening) : Output :=
  match bound with
  | Err e => cluster_fail (lit "cannot start: " ++ error_display e)
  | Ok _ =>
      match l with
      | NodeAddrUnknown e => cluster_fail (lit "cannot read listening address: " ++ e)
      | NodeListened raft client ended =>
          let said := println (lit "node " ++ show_N id ++ lit " listening raft=" ++ raft ++ lit " client=" ++ client) in
          match ended with
          | None => mkOutput said [] SUCCESS
          | Some e => mkOutput said (stderr (cluster_fail (lit "accept failed: " ++ e))) 2
          end
      end
  end.

(** ** The configurations the program starts with *)

Record peer_wf (p : Peer) : Prop := {
  pw_id : is_u64 (peer_id p);
  pw_raft : peer_raft_addr p ≠ [];
  pw_client : peer_client_addr p ≠ [];
  pw_comma : COMMA ∉ peer_raft_addr p;
}.

Record config_wf (c : ClusterConfig) : Prop := {
  cw_id : is_u64 (cc_id c);
  cw_peers : Forall peer_wf (cc_peers c);
  cw_self : cc_id c ∉ peer_id <$> cc_peers c;
  cw_tick : is_u64 (cc_tick_ms c);
  cw_snapshot : is_u64 (cc_snapshot_every c);
  cw_raft : cc_raft c = NodeConfig_default;
}.

Lemma split_once_inv sep l x y : split_once sep l = Some (x, y) → l = x ++ sep :: y ∧ sep ∉ x.
Proof.
  revert x. induction l as [|b l IH]; intros x; simpl; [done|]. case_bool_decide as Hb.
  - intros [= <- <-]. split; [by rewrite Hb|apply not_elem_of_nil].
  - destruct (split_once sep l) as [[x' y']|] eqn:E; simpl; [|done]. intros [= <- <-].
    destruct (IH x' eq_refl) as [-> Hx]. split; [done|]. apply list.not_elem_of_cons. split; [congruence|done].
Qed.

Lemma parse_u64_is_u64 l n : parse_u64 l = Some n → is_u64 n.
Proof. intros H%parse_uint_max. unfold is_u64, U64_MAX, TWO64 in *. lia. Qed.

Lemma parse_u64_show n : is_u64 n → parse_u64 (show_N n) = Some n.
Proof. intros Hn. apply show_N_parse_uint; [|done]. unfold is_u64, U64_MAX, TWO64 in *. lia. Qed.

Lemma digits_not_in b n : is_digit b = false → b ∉ show_N n.
Proof.
  intros Hb Hin. pose proof (proj1 (list.Forall_forall _ _) (show_N_digits n) b Hin) as Hd. simpl in Hd. by rewrite Hb in Hd.
Qed.

Section Configs.
Context (debug_str : bytes → bytes).

Lemma parse_peer_wf spec p : parse_peer debug_str spec = inr p → peer_wf p.
Proof.
  unfold parse_peer. destruct (split_once AT spec) as [[id addrs]|]; [|done].
  destruct (split_once COMMA addrs) as [[raft client]|] eqn:E; [|done]. apply split_once_inv in E as [_ Hc].
  do 2 (case_bool_decide; [done|]). simpl. destruct (parse_u64 id) as [n|] eqn:En; [|done]. intros [= <-].
  split; try done. by eapply parse_u64_is_u64.
Qed.

Definition show_peer (p : Peer) : bytes :=
  show_N (peer_id p) ++ AT :: peer_raft_addr p ++ COMMA :: peer_client_addr p.

(** A peer is read back from the text that gives it. *)
Lemma parse_peer_show p : peer_wf p → parse_peer debug_str (show_peer p) = inr p.
Proof.
  intros [Hid Hr Hc Hcomma]. unfold parse_peer, show_peer.
  rewrite split_once_app by (by apply digits_not_in). rewrite split_once_app by done.
  rewrite !bool_decide_false, parse_u64_show by done. by destruct p.
Qed.

(** What the options may have set. *)
Record options_wf (a : ClusterArgs) : Prop := {
  ow_id : ∀ id, ca_id a = Some id → is_u64 id;
  ow_peers : Forall peer_wf (ca_peers a);
  ow_tick : is_u64 (ca_tick_ms a);
  ow_snapshot : is_u64 (ca_snapshot_every a);
}.

Lemma with_value_wf arg use v a a' : with_value debug_str arg = Some use → use v a = inr a' → options_wf a → options_wf a'.
Proof.
  unfold with_value, number. intros E Hu [W1 W2 W3 W4].
  assert (∀ n, parse_u64 v = Some n → is_u64 n) as Hn by (intros n; apply parse_u64_is_u64).
  assert (∀ p, parse_peer debug_str v = inr p → peer_wf p) as Hp by (intros p; apply parse_peer_wf).
  repeat (match type of E with (if ?b then _ else _) = _ => destruct b end; [injection E as <-|]); [..|done].
  all: repeat (case_match || simplify_eq); split; simpl; try done; try (intros; simplify_eq); auto.
  rewrite Forall_app. auto.
Qed.

Lemma cluster_options_wf args a a' : options_wf a → cluster_options debug_str args a = inr a' → options_wf a'.
Proof.
  revert a. induction args as [args IH] using (induction_ltof1 _ length); unfold ltof in IH.
  intros a Ha. destruct args as [|arg rest]; cbn [cluster_options]; [by intros [= <-]|].
  destruct (with_value debug_str arg) as [use|] eqn:E.
  - destruct rest as [|v rest]; [done|]. destruct (use v a) as [e|a1] eqn:Eu; [done|].
    apply IH; [simpl; lia|]. by eapply with_value_wf.
  - destruct (arg_is arg "--join"); [|by destruct (arg_is arg "-h" || arg_is arg "--help")].
    apply IH; [simpl; lia|]. by destruct Ha.
Qed.

Lemma existsb_self id ps : existsb (λ p, peer_id p =? id) ps = false ↔ id ∉ peer_id <$> ps.
Proof.
  induction ps as [|p ps IH]; simpl; [split; [intros _; apply not_elem_of_nil|done]|].
  rewrite orb_false_iff, IH, list.not_elem_of_cons, N.eqb_neq. naive_solver.
Qed.

Lemma cluster_setup_wf args n : cluster_setup debug_str args = inr n → config_wf (ns_config n).
Proof.
  unfold cluster_setup. destruct (cluster_options _ _ _) as [o|a] eqn:E; [done|].
  apply cluster_options_wf in E as [W1 W2 W3 W4]; [|by split].
  destruct (ca_id a) as [id|], (ca_dir a), (ca_raft_addr a), (ca_client_addr a); try done.
  destruct (existsb _ _) eqn:Es; [done|]. apply existsb_self in Es. intros [= <-]. split; simpl; auto.
Qed.

(** The arguments that give a setup. *)
Definition peer_args (p : Peer) : list bytes := [lit "--peer"; show_peer p].

Definition setup_args (n : NodeSetup) : list bytes :=
  let c := ns_config n in
  [lit "--id"; show_N (cc_id c); lit "--dir"; ns_dir n; lit "--raft"; ns_raft_addr n; lit "--client"; ns_client_addr n;
   lit "--tick-ms"; show_N (cc_tick_ms c); lit "--snapshot-every"; show_N (cc_snapshot_every c)] ++
  mjoin (peer_args <$> cc_peers c) ++ (if cc_join c then [lit "--join"] else []).

(** One option that takes a value. *)
Lemma cluster_options_value arg use v rest a a' :
  with_value debug_str arg = Some use → use v a = inr a' →
  cluster_options debug_str (arg :: v :: rest) a = cluster_options debug_str rest a'.
Proof. intros E Eu. cbn [cluster_options]. by rewrite E, Eu. Qed.

Lemma number_show what n set a : is_u64 n → number what (show_N n) set a = inr (set n a).
Proof. intros Hn. unfold number. by rewrite parse_u64_show. Qed.

Lemma cluster_options_peers ps rest a :
  Forall peer_wf ps →
  cluster_options debug_str (mjoin (peer_args <$> ps) ++ rest) a =
    cluster_options debug_str rest (foldl (λ a p, ca_push_peer p a) a ps).
Proof.
  intros Hps. revert a. induction Hps as [|p ps Hp Hps IH]; intros a; [done|].
  cbn [fmap list_fmap mjoin list_join peer_args app foldl].
  erewrite (cluster_options_value (lit "--peer")); [apply IH|done|]. cbv beta. by rewrite parse_peer_show.
Qed.

Lemma push_peers ps a :
  foldl (λ a p, ca_push_peer p a) a ps =
    mkClusterArgs (ca_id a) (ca_dir a) (ca_raft_addr a) (ca_client_addr a) (ca_peers a ++ ps) (ca_tick_ms a)
      (ca_snapshot_every a) (ca_join a).
Proof.
  revert a. induction ps as [|p ps IH]; intros a; simpl; [rewrite app_nil_r; by destruct a|].
  rewrite IH. simpl. by rewrite <-(assoc_L (++)).
Qed.

(** A setup is read back from the arguments that give it. *)
Lemma cluster_setup_args n : config_wf (ns_config n) → cluster_setup debug_str (setup_args n) = inr n.
Proof.
  destruct n as [dir raft client c]. intros [W1 W2 W3 W4 W5 W6]. cbn [ns_config] in *.
  unfold cluster_setup, setup_args. cbn [ns_config ns_dir ns_raft_addr ns_client_addr app].
  erewrite (cluster_options_value (lit "--id")) by (done || by apply number_show).
  erewrite (cluster_options_value (lit "--dir")) by done.
  erewrite (cluster_options_value (lit "--raft")) by done.
  erewrite (cluster_options_value (lit "--client")) by done.
  erewrite (cluster_options_value (lit "--tick-ms")) by (done || by apply number_show).
  erewrite (cluster_options_value (lit "--snapshot-every")) by (done || by apply number_show).
  rewrite cluster_options_peers, push_peers by done. simpl ca_peers. cbn [app].
  assert (∀ a, cluster_options debug_str (if cc_join c then [lit "--join"] else []) a =
    inr (if cc_join c then ca_set_join a else a)) as -> by (intros a; by destruct (cc_join c)).
  apply existsb_self in W3. destruct c as [id peers join tick conf every]. simpl in *. subst conf.
  by destruct join; simpl; rewrite W3.
Qed.

(** C35: the program starts a node with exactly the well-formed configurations: some arguments make
    it start one if and only if every number fits 64 bits, every peer has both its addresses, with
    no comma in the first, and the node is not among its own peers. *)
Theorem cluster_configs_exact (c : ClusterConfig) :
  (∃ args n, cluster_setup debug_str args = inr n ∧ ns_config n = c) ↔ config_wf c.
Proof.
  split; [intros (args & n & E & <-); by eapply cluster_setup_wf|].
  intros Hc. exists (setup_args (mkNodeSetup [] [] [] c)), (mkNodeSetup [] [] [] c).
  split; [by apply cluster_setup_args|done].
Qed.
End Configs.

(** ** Starting again *)

Section Restart.
Context {St : Type} `{Storage St}.

Lemma with_members_start id b cfg (st : St) :
  n_storage (with_members id b cfg st) = st ∧ n_role (with_members id b cfg st) = Follower ∧
  n_id (with_members id b cfg st) = id.
Proof.
  unfold with_members. destruct (random_timeout _ _) as [timeout rng]. unfold reload_membership.
  cbn [n_storage]. by destruct (scan_config _ _ _).
Qed.

Lemma with_members_leader id b cfg (st : St) : n_leader_id (with_members id b cfg st) = None.
Proof.
  unfold with_members. destruct (random_timeout _ _) as [timeout rng]. unfold reload_membership.
  cbn [n_storage]. by destruct (scan_config _ _ _).
Qed.
End Restart.

(** The membership stored data stands for: what the last configuration in the log says; without one,
    what the snapshot says; without that, what the node was started with. *)
Definition configs_of (es : list Entry) : list (list Member) :=
  omap (λ e, match e_command e with Config ms => Some ms | _ => None end) es.

Definition stored_members (m : MemStorage) (bootstrap : list Member) : list Member :=
  default (default bootstrap (ms_snapshot_members m)) (list.last (configs_of (el_entries (ms_log m)))).

Lemma scan_stored (s : DiskStorage) start k :
  EntryLog_wf (ds_log s) → (k ≤ length (el_entries (ds_log s)))%nat →
  (scan_config s ((λ i, sm_index (el_base (ds_log s)) + 1 + N.of_nat i) <$> seq 0 k) start).1 =
    default start.1 (list.last (configs_of (take k (el_entries (ds_log s))))).
Proof.
  intros Hwf. induction k as [|k IH]; intros Hk; [done|].
  destruct (lookup_lt_is_Some_2 (el_entries (ds_log s)) k) as [e He]; [lia|].
  rewrite seq_S, fmap_app, (take_S_r _ _ _ He). unfold scan_config in *. rewrite foldl_app. cbn [fmap list_fmap foldl Nat.add].
  assert (entry s (sm_index (el_base (ds_log s)) + 1 + N.of_nat k) = Some e) as ->.
  { cbn. rewrite EntryLog_entry_lookup by done. destruct (N.leb_spec (sm_index (el_base (ds_log s)) + 1 + N.of_nat k) (sm_index (el_base (ds_log s)))); [lia|].
    rewrite <-He. f_equal. lia. }
  unfold configs_of in *. rewrite omap_app. destruct e as [t i [| |ms]]; cbn [omap list_omap e_command]; rewrite ?app_nil_r, ?last_snoc; [by apply IH; lia..|done].
Qed.

Lemma with_members_stored id b cfg s :
  EntryLog_wf (ds_log s) →
  let n := with_members id b cfg s in
  n_members n = stored_members (disk_mem s) b ∧ n_voters n = config_voters (n_members n).
Proof.
  intros Hwf. cbv zeta. unfold with_members. destruct (random_timeout _ _) as [timeout rng].
  unfold reload_membership. cbv zeta. cbn [n_storage n_bootstrap n_id].
  set (start := match snapshot_members s with Some _ => _ | None => _ end).
  pose proof (scan_stored s start (length (el_entries (ds_log s))) Hwf (le_n _)) as Hs. rewrite firstn_all in Hs.
  assert (range_incl (first_index s) (last_index s) =
    (λ i, sm_index (el_base (ds_log s)) + 1 + N.of_nat i) <$> seq 0 (length (el_entries (ds_log s)))) as ->.
  { unfold range_incl, first_index. cbn. rewrite EntryLog_last_index_len by done. do 2 f_equal. unfold blen. lia. }
  destruct (scan_config s _ start) as [ms at_]. cbn [fst] in Hs. subst ms.
  split; [|done]. cbn -[configs_of]. unfold stored_members, start. cbn. by destruct (ds_snapshot_members s).
Qed.

Lemma config_wf_accepted c : config_wf c → config_accepted (cc_raft c) = true.
Proof. by intros [_ _ _ _ _ ->]. Qed.

Lemma behind_reader s :
  DInv s → 0 < sm_index (el_base (ds_log s)) → DiskStorage_snapshot_reader s = Ok (ms_snapshot (disk_mem s)).
Proof.
  intros HD Hpos. apply snapshot_reader_same; [done|]. pose proof (di_snapshot _ HD) as H.
  destruct (rd_snapshot (ds_dir s)) as [f|]; [by eexists|]. cbn in H. injection H as Eb _ _ _. rewrite <-Eb in Hpos. cbn in Hpos. lia.
Qed.

(** A replica that starts: on a snapshot ahead of it, it becomes that snapshot. *)
Lemma replica_starts (n : Node DiskStorage) store file clock m ms :
  DInv (n_storage n) → Ready store m Options_default → (∀ i, is_u64 (clock i)) → map_ok ms →
  let base := sm_index (el_base (ds_log (n_storage n))) in
  (read_applied file < base → ms_snapshot (disk_mem (n_storage n)) = snapshot_bytes ms) →
  ∃ r, replica_new n store file clock = (Ok tt, r) ∧ rp_node r = n ∧
    Refines (rp_store r) (if read_applied file <? base then ms else m) ∧ rp_applied r = N.max (read_applied file) base.
Proof.
  intros HD [R1 R2 R3 _ _] Hcl Hok base Hms. unfold replica_new, snapshot_index. cbn [rp_node rp_applied snapshot_meta DiskStorage_Storage].
  fold base. destruct (N.ltb_spec (read_applied file) base) as [Hlt|Hge]; cbn [mwhen].
  - set (r := mkReplicated _ _ _ _ _ _ _ _ _ _).
    destruct (Refines_history _ _ R1) as (hs0 & hs & HH & <-).
    destruct (replica_restore_ok hs0 (λ _, True) r (replay hs) ms) as (r1 & r' & E & _ & _ & HR & Er' & HS' & _); [done|done| | |].
    { split; [by exists hs0, hs|done..]. }
    { rewrite <-(Hms Hlt). apply behind_reader; [done|]. unfold base in Hlt. cbn in *. lia. }
    exists r'. split; [done|]. split_and!; [rewrite Er'; apply HR|by eapply Sound_refines|].
    rewrite Er'. cbn. change (snapshot_index r) with base. lia.
  - eexists. split; [reflexivity|]. cbn. split_and!; [done..|lia].
Qed.

(** C16: a node starts again as it was. Its consensus log's directory is as a crash, of any operation
    or while opening, may have left it, standing for [mr]; its store's files, whose newest may be
    torn, stand for [m]. Started with a configuration the program accepts, it comes up as a follower
    with the term, the vote, the log and the snapshot of [mr]. Its members are those of the last
    configuration in that log, without one those of the snapshot, without that those it is started
    with, and its voters are the members that are not learners, each once. Its map is [m], applied up
    to the index recorded; if that is behind the snapshot, which is that of a map [ms], its map is
    [ms], applied up to the snapshot. *)
Theorem cluster_node_restarts (o : Outside) (c : ClusterConfig) (f : NodeFiles) (raft_addr client_addr : bytes)
    (mr : MemStorage) (m ms : gmap bytes bytes) :
  let base := sm_index (el_base (ms_log mr)) in
  let members := stored_members mr (bootstrap_members c raft_addr client_addr) in
  config_wf c → os_listens o = Ok (raft_addr, client_addr) → (∀ i, is_u64 (os_raft_clock o i)) → (∀ i, is_u64 (os_clock o i)) →
  leaves (nf_raft f) mr → dir_means (nf_store f) m →
  map_ok ms → (read_applied (nf_applied f) < base → ms_snapshot mr = snapshot_bytes ms) →
  ∃ sh files', cluster_bind o c f = (Ok (sh, N.max (cc_tick_ms c) 1), files') ∧
    let r := sh_replica sh in
    let n := rp_node r in
    disk_mem (n_storage n) = mr ∧ DInv (n_storage n) ∧ n_role n = Follower ∧ n_id n = cc_id c ∧
    n_members n = members ∧ NoDup (n_voters n) ∧
    (∀ v, v ∈ n_voters n ↔ ∃ x, x ∈ members ∧ m_learner x = false ∧ m_id x = v) ∧
    Refines (rp_store r) (if read_applied (nf_applied f) <? base then ms else m) ∧
    rp_applied r = N.max (read_applied (nf_applied f)) base ∧ rp_background r = true.
Proof.
  intros base members Hc Hl Hclk Hclk' Hr Hm Hok Hms. destruct (leaves_opens (os_raft_clock o) _ _ Hclk Hr) as (st & E & HD & Em).
  destruct (open_means Options_default _ m Hm eq_refl) as (store & Es & HRd).
  pose proof (with_members_start (cc_id c) (bootstrap_members c raft_addr client_addr) (cc_raft c) st) as (W1 & W2 & W3).
  pose proof (with_members_stored (cc_id c) (bootstrap_members c raft_addr client_addr) (cc_raft c) st (di_wf _ HD)) as [W4 W5].
  rewrite Em in W4. unfold cluster_bind. rewrite config_wf_accepted by done. rewrite Hl, E, Es. cbn [negb].
  set (n := with_members _ _ _ st) in *. clearbody n. subst st.
  assert (ds_log (n_storage n) = ms_log mr) as Hlog by (by rewrite <-Em).
  destruct (replica_starts n store (nf_applied f) (os_clock o) m ms HD HRd Hclk' Hok) as (r & -> & Ern & HR & Ha).
  { rewrite Hlog, Em. exact Hms. }
  rewrite Hlog in HR, Ha. cbv zeta. eexists _, _. split; [reflexivity|]. cbn [sh_replica]. unfold set_background_snapshots, set_snapshot_every.
  cbn [rp_node rp_store rp_applied rp_background]. rewrite Ern, W5, W4.
  split_and!; try done; [apply config_voters_NoDup|]. intros v. unfold config_voters. rewrite elem_of_sort_dedup, list_elem_of_fmap.
  setoid_rewrite list_elem_of_filter. split; [intros (x & -> & ? & ?)|intros (x & ? & ? & <-)]; eauto.
Qed.

(** ** A vote, and a restart *)

Lemma save_storage hs (s : DiskStorage) : ∃ s', save_hard_state hs s = (Ok tt, s') ∧ ds_hard_state s' = hs ∧ ds_log s' = ds_log s.
Proof.
  change (save_hard_state hs s) with (DiskStorage_save_hard_state hs s). unfold DiskStorage_save_hard_state.
  case_bool_decide as E; eexists; split_and!; done || by rewrite E.
Qed.

Lemma is_up_to_date_log (s s' : DiskStorage) i t : ds_log s' = ds_log s → is_up_to_date s' i t = is_up_to_date s i t.
Proof. intros E. unfold is_up_to_date, last_term. cbn. by rewrite E. Qed.

(** What is left of a storage that was asked to keep [hs]: no vote, if it was for the id that stands for none. *)
Definition kept_vote (hs : HardState) : HardState :=
  mkHardState (hs_term hs) (v ← hs_voted_for hs; if v =? NO_VOTE then None else Some v).

Lemma read_kept hs :
  is_u64 (hs_term hs) → (∀ v, hs_voted_for hs = Some v → is_u64 v) → read_hard_state (Some (hard_state_bytes hs)) = Ok (kept_vote hs).
Proof.
  intros Ht Hv. assert (hard_state_bytes hs = hard_state_bytes (kept_vote hs)) as ->.
  { unfold hard_state_bytes, kept_vote. destruct hs as [t [v|]]; [|done]. cbn. by destruct (N.eqb_spec v NO_VOTE) as [->|]. }
  apply read_hard_state_bytes. split; [done|]. destruct hs as [t [v|]]; [|done]. cbn. specialize (Hv v eq_refl).
  destruct (N.eqb_spec v NO_VOTE); [done|]. unfold is_u64, NO_VOTE, U64_MAX, TWO64 in *. lia.
Qed.

Lemma read_never_last f hs : read_hard_state f = Ok hs → kept_vote hs = hs.
Proof.
  unfold read_hard_state, kept_vote. destruct f as [f|]; [|by intros [= <-]].
  destruct (p_take _ f) as [[buf tl]|]; [|by intros [= <-]]. destruct (negb _); [done|]. cbv zeta. intros [= <-]. cbn.
  destruct (N.eqb_spec (of_le (slice 12 20 buf)) NO_VOTE) as [->|Hn]; cbn; [done|]. by rewrite (proj2 (N.eqb_neq _ _) Hn).
Qed.

Lemma saved_leaves hs s s' ps :
  DInv s → is_u64 (hs_term hs) → (∀ v, hs_voted_for hs = Some v → is_u64 v) → save_hard_state hs s = (Ok tt, s') →
  ∃ m, leaves (with_parts ps (ds_dir s')) m ∧ ms_hard_state m = kept_vote hs ∧ ms_log m = ds_log s.
Proof.
  intros HD Ht Hv. change (save_hard_state hs s) with (DiskStorage_save_hard_state hs s). unfold DiskStorage_save_hard_state.
  case_bool_decide as E; intros [= <-].
  - exists (disk_mem s). split_and!; [by apply DInv_leaves| |done]. cbn. rewrite E. symmetry. eapply read_never_last, di_hard, HD.
  - set (d := ds_dir s). set (h := mkSnapshotHeader (el_base (ds_log s)) (ds_snapshot_members s) (ds_snapshot_data_at s) (ds_snapshot_len s)).
    exists (header_mem (kept_vote hs) h d (ds_log s)). split; [|done].
    exists (kept_vote hs), h, (el_entries (ds_log s)). destruct (DInv_files s ps HD) as [F1 F2 F3 F4]. split; [split; [by apply read_kept|done..]|].
    left. split; [apply (di_wf _ HD)|]. cbn. by destruct (ds_log s).
Qed.

Lemma reset_timer_storage (n : Node DiskStorage) : n_storage (reset_election_timer n) = n_storage n.
Proof. unfold reset_election_timer. by destruct (random_timeout _ _). Qed.

(** What a node makes of a request that reaches [handle_request_vote]. *)
Lemma request_vote_run from li lt (n : Node DiskStorage) acts :
  let hs := ds_hard_state (n_storage n) in
  let granted := match hs_voted_for hs with None => true | Some v => v =? from end && is_up_to_date (n_storage n) li lt in
  ∃ n', handle_request_vote from li lt (n, acts) = (Ok tt, (n', acts ++ [Send from (RequestVoteReply (hs_term hs) granted)])) ∧
    (granted = true → save_hard_state (mkHardState (hs_term hs) (Some from)) (n_storage n) = (Ok tt, n_storage n')).
Proof.
  intros hs granted. unfold handle_request_vote, getn, mgets. unfold mbind at 1, M_bind at 1. unfold id. cbv zeta. cbn [fst].
  change (hard_state (n_storage n)) with hs. fold granted. destruct granted; cbn [mwhen]; [|by exists n].
  destruct (save_storage (mkHardState (hs_term hs) (Some from)) (n_storage n)) as (s' & E & Eh & _).
  unfold mbind, M_bind, on_storage, modn, mmodify, emit. cbn [fst snd]. rewrite E. cbv beta iota zeta. cbn [fst snd].
  exists (reset_election_timer (set_storage s' n)). unfold node_term. rewrite reset_timer_storage. cbn. by rewrite Eh.
Qed.

Lemma become_follower_run t (n : Node DiskStorage) acts :
  node_term n < t →
  ∃ n', become_follower t None (n, acts) = (Ok tt, (n', acts)) ∧
    save_hard_state (mkHardState t None) (n_storage n) = (Ok tt, n_storage n').
Proof.
  intros Hlt. unfold become_follower, getn, mgets. unfold mbind at 1, M_bind at 1. unfold id. cbv zeta. cbn [fst].
  assert (t =? hs_term (hard_state (n_storage n)) = false) as -> by (apply N.eqb_neq; unfold node_term in Hlt; lia).
  destruct (save_storage (mkHardState t None) (n_storage n)) as (s' & E & _).
  unfold mbind, M_bind, on_storage, modn, mmodify. cbn [negb mwhen fst snd n_storage set_remote_reads set_active set_votes set_leader_id set_role].
  rewrite E. cbv beta iota zeta. cbn [fst snd]. eexists. split; [reflexivity|]. by rewrite reset_timer_storage.
Qed.

(** A node that grants a vote has asked its storage to keep it. *)
Lemma vote_saved a t li lt (n n1 : Node DiskStorage) acts :
  DInv (n_storage n) → is_u64 t →
  node_step a (RequestVote t li lt) n = (Ok acts, n1) → Send a (RequestVoteReply t true) ∈ acts →
  ∃ s, DInv s ∧ ds_log s = ds_log (n_storage n) ∧ save_hard_state (mkHardState t (Some a)) s = (Ok tt, n_storage n1).
Proof.
  intros HD Ht. unfold node_step, run_actions, step_h. unfold mbind at 1, M_bind at 1, getn at 1, mgets. unfold id. cbv zeta. cbn [fst msg_term is_vote_request].
  destruct (true && _ && _); [intros [= <- <-]; by intros [[=]|Hn%elem_of_nil]%list.elem_of_cons|].
  destruct (N.ltb_spec (node_term n) t) as [Hlt|Hge].
  - destruct (become_follower_run t n [] Hlt) as (n' & E & Es). unfold mbind, M_bind. rewrite E. cbn [step_current].
    destruct (save_simulated (mkHardState t None) (n_storage n) HD ltac:(by split)) as (s & Es' & HD' & _). cbn [run_op] in Es'.
    rewrite Es in Es'. injection Es' as <-. destruct (save_storage (mkHardState t None) (n_storage n)) as (s' & Es'' & Eh & El).
    rewrite Es in Es''. injection Es'' as <-. destruct (request_vote_run a li lt n' []) as (n2 & E2 & Hg). rewrite Eh in *. cbn [hs_term hs_voted_for andb] in *.
    rewrite E2. intros [= <- <-] [[= Hgr]|[]%elem_of_nil]%list.elem_of_cons. exists (n_storage n'). auto.
  - destruct ((t <? node_term n) && _); [intros [= <- <-]; by intros [[=]|Hn%elem_of_nil]%list.elem_of_cons|]. cbn [step_current].
    destruct (request_vote_run a li lt n []) as (n2 & E2 & Hg). rewrite E2.
    intros [= <- <-] [[= Htt Hgr]|[]%elem_of_nil]%list.elem_of_cons. exists (n_storage n). rewrite <-Htt in Hg. auto.
Qed.

(** C36: a vote outlives a restart, unless it was for the last of the ids. A node grants its vote in
    term [t], stops, and is started again on the files it left. Asked in the same term, it grants its
    vote to a candidate whose log is up to date if that is the one it voted for, and to nobody else;
    but if the vote was for node 2^64 - 1, the number the file that keeps the vote uses for none, it
    grants it to whoever asks. *)
Theorem vote_survives_restart (n n1 : Node DiskStorage) (a b : NodeId) (t li lt li' lt' : N) (acts : list Action)
    (parts : gset N) (clock : nat → N) (members : list Member) (config : NodeConfig) :
  DInv (n_storage n) → is_u64 t → is_u64 a → (∀ i, is_u64 (clock i)) →
  node_step a (RequestVote t li lt) n = (Ok acts, n1) → Send a (RequestVoteReply t true) ∈ acts →
  ∃ s, raft_open clock (with_parts parts (ds_dir (n_storage n1))) = (Ok s, ds_dir s) ∧
    (node_step b (RequestVote t li' lt') (with_members (n_id n) members config s)).1 =
      Ok [Send b (RequestVoteReply t (bool_decide (a = b ∨ a = U64_MAX) && is_up_to_date (n_storage n) li' lt'))].
Proof.
  intros HD Ht Ha Hc Estep Hin. destruct (vote_saved _ _ _ _ _ _ _ HD Ht Estep Hin) as (s0 & HD0 & El0 & Esave).
  destruct (saved_leaves (mkHardState t (Some a)) _ _ parts HD0 Ht ltac:(by intros v [= <-]) Esave) as (m & Hl & Eh & El).
  destruct (leaves_opens clock _ _ Hc Hl) as (s & E & _ & Em). exists s. split; [done|]. subst m. cbn in Eh, El.
  destruct (with_members_start (n_id n) members config s) as (W1 & _). pose proof (with_members_leader (n_id n) members config s) as W4.
  set (n2 := with_members _ _ _ s) in *. clearbody n2. subst s.
  unfold node_step, run_actions, step_h. unfold mbind at 1, M_bind at 1, getn at 1, mgets. unfold id. cbv zeta. cbn [fst msg_term is_vote_request].
  rewrite W4, bool_decide_false by (by intros [? [=]]). cbn [andb]. unfold node_term. cbn. rewrite Eh. cbn [kept_vote hs_term].
  rewrite N.ltb_irrefl. cbn [andb step_current]. destruct (request_vote_run b li' lt' n2 []) as (n3 & E3 & _). rewrite Eh in E3. cbn [kept_vote hs_term hs_voted_for mbind option_bind] in E3.
  rewrite E3. cbn [fst app]. do 4 f_equal. rewrite (is_up_to_date_log (n_storage n)) by congruence. f_equal. unfold NO_VOTE.
  destruct (N.eqb_spec a U64_MAX) as [->|Hn]; [by rewrite bool_decide_true by auto|].
  destruct (N.eqb_spec a b); symmetry; [apply bool_decide_true; auto|apply bool_decide_false; naive_solver].
Qed.

(** ** Runs *)

Definition plain_debug (l : bytes) : bytes := lit "'" ++ l ++ lit "'".
Definition run_outside : Outside := mkOutside (Ok (lit "a:1", lit "a:2")) (λ _, true) (λ _, true) (λ _, 9) (λ _, 9).
Definition no_node : NodeFiles := mkNodeFiles empty_raft_dir no_files None.

Definition node_args (peers : list string) : list bytes :=
  [lit "--id"; lit "1"; lit "--dir"; lit "n1"; lit "--raft"; lit "a:1"; lit "--client"; lit "a:2"] ++
  mjoin ((λ p, [lit "--peer"; lit p]) <$> peers).

(** The node is asked for its vote, and stops when it has answered. *)
Definition asked (from : NodeId) (sh : Shared DiskStorage) : option (list Action * NodeFiles) :=
  let r := sh_replica sh in
  match node_step from (RequestVote 1 0 0) (rp_node r) with
  | (Ok answer, n) => Some (answer, mkNodeFiles (ds_dir (n_storage n)) (store_close (rp_store r)) (rp_applied_file r))
  | (Err _, _) => None
  end.

Definition started_node (args : list bytes) (f : NodeFiles) : option (Shared DiskStorage) :=
  match cluster_setup plain_debug args with
  | inl _ => None
  | inr n => match cluster_bind run_outside (ns_config n) f with (Ok (sh, _), _) => Some sh | (Err _, _) => None end
  end.

(** Two candidates ask one after the other, the node stopping and starting again in between. *)
Definition asked_twice (args : list bytes) (a b : NodeId) : option (list Action * list Action) :=
  sh ← started_node args no_node; x ← asked a sh;
  sh' ← started_node args x.2; y ← asked b sh'; Some (x.1, y.1).

(** A vote outlives a restart. *)
Example vote_kept : asked_twice (node_args ["2@b:1,b:2"; "3@c:1,c:2"]) 3 2 =
  Some ([Send 3 (RequestVoteReply 1 true)], [Send 2 (RequestVoteReply 1 false)]).
Proof. vm_compute. reflexivity. Qed.

(** Unless it was for the last of the ids, which the program takes as a peer's. *)
Example vote_for_last_id_forgotten :
  asked_twice (node_args ["2@b:1,b:2"; "18446744073709551615@c:1,c:2"]) U64_MAX 2 =
  Some ([Send U64_MAX (RequestVoteReply 1 true)], [Send 2 (RequestVoteReply 1 true)]).
Proof. vm_compute. reflexivity. Qed.

(** A peer given twice is one voter. *)
Example peer_given_twice :
  ((λ sh, n_voters (rp_node (sh_replica sh))) <$>
    started_node (node_args ["2@b:1,b:2"; "2@c:1,c:2"]) no_node) = Some [1; 2].
Proof. vm_compute. reflexivity. Qed.

Example options_refused :
  (λ args, match cluster_setup plain_debug (lit <$> args) with inl o => Some (stderr o, exit_code o) | inr _ => None end) <$>
    [["--id"]; ["--id"; "x"]; ["--peer"; "2@b:1"]; ["--what"];
     ["--id"; "1"; "--dir"; "d"; "--raft"; "a"; "--client"; "b"; "--peer"; "1@a,b"]]%string =
  Some <$> [(println (lit "minicask-cluster: --id needs a value"), 2);
            (println (lit "minicask-cluster: --id must be a number"), 2);
            (println (lit "minicask-cluster: --peer wants ID@RAFT_ADDR,CLIENT_ADDR, got '2@b:1'"), 2);
            (println (lit "minicask-cluster: unknown option: --what"), 2);
            (println (lit "minicask-cluster: a node cannot list itself as a peer"), 2)].
Proof. vm_compute. reflexivity. Qed.

Definition two_node_config : ClusterConfig :=
  mkClusterConfig 1 [mkPeer 2 (lit "b:1") (lit "b:2")] false 50 NodeConfig_default 10000.

Lemma two_node_config_wf : config_wf two_node_config.
Proof.
  split; try done.
  - repeat constructor; try done. by apply (bool_decide_unpack _); vm_compute.
  - by apply (bool_decide_unpack _); vm_compute.
Qed.

(** A crash in the middle of an append of two entries, the first of them a change of the members, has
    torn the second. *)
Definition three_members : list Member := [mkMember 1 (lit "a:1,a:2") false; mkMember 2 (lit "b:1,b:2") false; mkMember 3 (lit "c:1,c:2") true].
Definition config_entries : list Entry := [mkEntry 1 1 (Config three_members); mkEntry 1 2 Noop].

Definition torn_config (s : DiskStorage) : option RaftDir :=
  match encode_all (ds_clock s) (ds_end s) config_entries with
  | Ok (buf, offsets, _) =>
      match list.last offsets with
      | Some at_ => Some (with_parts {[7]} (rd_set_entries (entries_file (ds_dir s) ++ take (N.to_nat at_ + 5) buf) (ds_dir s)))
      | None => None
      end
  | Err _ => None
  end.

Lemma torn_config_cut s d : torn_config s = Some d → cut (OpAppend config_entries) s d.
Proof.
  unfold torn_config. destruct (encode_all _ _ _) as [[[buf offsets] at_]|e] eqn:E; [|done]. destruct (list.last offsets); [|done].
  intros [= <-]. by eapply cut_append.
Qed.

Lemma config_entries_ok s : ds_log s = EntryLog_default → op_ok (OpAppend config_entries) (ds_log s).
Proof. intros ->. split; [repeat constructor; by apply (bool_decide_unpack _); vm_compute|by apply (bool_decide_unpack _); vm_compute]. Qed.

Lemma cluster_node_restarts_witness :
  ∃ d mr sh files', leaves d mr ∧
    cluster_bind run_outside two_node_config (mkNodeFiles d no_files None) = (Ok (sh, 50), files') ∧
    n_members (rp_node (sh_replica sh)) = three_members ∧ Refines (rp_store (sh_replica sh)) ∅.
Proof.
  assert (match (raft_open nines empty_raft_dir).1 with
          | Ok s => torn_config s ≫= λ d, match (raft_open nines d).1 with Ok s' => Some (ds_log s', ds_snapshot_members s') | Err _ => None end
          | Err _ => None
          end = Some (mkEntryLog SnapshotMeta_default [mkEntry 1 1 (Config three_members)], None)) as Hrun by (vm_compute; reflexivity).
  destruct (open_empty_raft nines ltac:(done)) as (s & E & HD & Em). rewrite E in Hrun. cbn [fst] in Hrun.
  destruct (torn_config s) as [d|] eqn:Et; [|discriminate Hrun]. cbn [mbind option_bind] in Hrun.
  destruct (cut_leaves _ s d HD (config_entries_ok s (f_equal ms_log Em)) (torn_config_cut s d Et)) as (mr & Hl & _).
  destruct (leaves_opens nines d mr ltac:(done) Hl) as (s' & E' & _ & Em'). rewrite E' in Hrun. cbn [fst] in Hrun. injection Hrun as Hlog Hmem.
  assert (ms_log mr = mkEntryLog SnapshotMeta_default [mkEntry 1 1 (Config three_members)]) as Hml by (by rewrite <-Em').
  destruct (cluster_node_restarts run_outside two_node_config (mkNodeFiles d no_files None)
    (lit "a:1") (lit "a:2") mr ∅ ∅ two_node_config_wf eq_refl ltac:(done) ltac:(done) Hl (or_introl (conj eq_refl eq_refl))
    ltac:(done) ltac:(by rewrite Hml)) as (sh & files' & Eb & _ & _ & _ & _ & Hm & _ & _ & HR & _).
  rewrite Hml in HR. unfold stored_members in Hm. rewrite Hml in Hm.
  exists d, mr, sh, files'. exact (conj Hl (conj Eb (conj Hm HR))).
Defined.

(** A node that has just been started grants its vote to node 3; or to the last of the ids. *)
Definition fresh_node (s : DiskStorage) : Node DiskStorage := with_members 1 three_members NodeConfig_default s.

Lemma vote_survives_restart_witness :
  ∃ s acts n1 s2, node_step U64_MAX (RequestVote 1 0 0) (fresh_node s) = (Ok acts, n1) ∧
    raft_open nines (with_parts {[7]} (ds_dir (n_storage n1))) = (Ok s2, ds_dir s2) ∧
    (node_step 2 (RequestVote 1 0 0) (with_members 1 three_members NodeConfig_default s2)).1 =
      Ok [Send 2 (RequestVoteReply 1 true)].
Proof.
  assert (match (raft_open nines empty_raft_dir).1 with
          | Ok s => match (node_step U64_MAX (RequestVote 1 0 0) (fresh_node s)).1 with Ok acts => Some acts | Err _ => None end
          | Err _ => None
          end = Some [Send U64_MAX (RequestVoteReply 1 true)]) as Hrun by (vm_compute; reflexivity).
  destruct (open_empty_raft nines ltac:(done)) as (s & E & HD & Em). rewrite E in Hrun. cbn [fst] in Hrun.
  destruct (with_members_start 1 three_members NodeConfig_default s) as (W1 & _ & W3).
  destruct (node_step U64_MAX (RequestVote 1 0 0) (fresh_node s)) as [[acts|e] n1] eqn:Es; [|discriminate Hrun]. injection Hrun as ->.
  destruct (vote_survives_restart (fresh_node s) n1 U64_MAX 2 1 0 0 0 0 [Send U64_MAX (RequestVoteReply 1 true)] {[7]} nines three_members
    NodeConfig_default ltac:(by unfold fresh_node; rewrite W1) ltac:(done) ltac:(done) ltac:(done) Es ltac:(by apply list_elem_of_here))
    as (s2 & E2 & Ea).
  exists s, [Send U64_MAX (RequestVoteReply 1 true)], n1, s2. split; [done|]. split; [done|].
  unfold fresh_node in Ea. rewrite W3, W1, bool_decide_true in Ea by (by right).
  assert (is_up_to_date s 0 0 = true) as Hu by (unfold is_up_to_date, last_term; cbn; by rewrite (f_equal ms_log Em : ds_log s = _)).
  by rewrite Hu in Ea.
Defined.
