(* ===== verification/ClusterProof.v ===== *)
(** * What a running node guarantees (src/cluster.rs)

    Every message a leader builds fits a frame; what a batch of proposals is answered; reads
    answer as the single-node server does; edits to the membership; waiting without missing
    a change; and three ways the process departs from what its clients are told. *)

From S2P Require Import Prelude.
From S2P Require Import RaftLog.
From S2P Require Import Message.
From S2P Require Import Wire.
From S2P Require Import NodeState.
From S2P Require Import Node.
From S2P Require Import NodeFrame.
From S2P Require Import Quorum.
From S2P Require Import Election.
From S2P Require Import Replication.
From S2P Require Import Commit.
From S2P Require Import Store.
From S2P Require Import StoreInv.
From S2P Require Import StoreOps.
From S2P Require Import StoreMap.
From S2P Require Import KeyOrder.
From S2P Require Import Resp.
From S2P Require Import Server.
From S2P Require Import DiskStorage.
From S2P Require Import Replicated.
From S2P Require Import Proposals.
From S2P Require Import Peers.
From S2P Require Import Cluster.

#[local] Open Scope N_scope.

(** ** Messages fit *)

(** A read of the snapshot is no longer than was asked for. *)
Class ReadLaws (S : Type) `{Storage S} := law_read_len s offset len data : read_snapshot s offset len = Ok data → blen data ≤ len.

Lemma slice_len {A} (i j : N) (l : list A) : blen (slice i j l) ≤ j - i.
Proof. unfold blen, slice. rewrite length_take. lia. Qed.

#[export] Instance MemStorage_read_laws : ReadLaws MemStorage.
Proof.
  intros s offset len data [= <-]. pose proof (slice_len (N.min offset (blen (ms_snapshot s)))
    (N.min (N.min offset (blen (ms_snapshot s)) + len) (blen (ms_snapshot s))) (ms_snapshot s)). lia.
Qed.

#[export] Instance DiskStorage_read_laws : ReadLaws DiskStorage.
Proof.
  intros s offset len data. simpl. unfold DiskStorage_read_snapshot.
  destruct (ds_snapshot_len s <=? offset); [intros [= <-]; change (blen (@nil byte)) with 0; lia|].
  destruct (rd_snapshot (ds_dir s)) as [file|]; [|done]. unfold get_slice. destruct (_ && _); [|done]. intros [= <-].
  pose proof (slice_len (ds_snapshot_data_at s + offset)
    (ds_snapshot_data_at s + offset + N.min len (ds_snapshot_len s - offset)) file). lia.
Qed.

Lemma snapshot_body_len term li lt off data fin seq ms :
  blen (wire_encode (InstallSnapshot term li lt off data fin seq ms)) ≤
    60 + blen data + match ms with Some ms => blen (encode_members ms) | None => 0 end.
Proof.
  unfold wire_encode, put_members. wire_norm. destruct ms as [ms|]; wire_norm; autorewrite with blen; lia.
Qed.

Lemma append_len_of_batch term pi pt es commit seq :
  blen (wire_encode (AppendEntries term pi pt es commit seq)) = 49 + batch_len es.
Proof. apply append_body_len. Qed.

Section fits.
Context {St : Type} `{StorageLaws St} `{!ReadLaws St}.

(** C30: a peer never refuses a leader's message for its size. Under the configuration check [bind] makes, if every
    entry of the log, and the membership the snapshot carries, keeps to [max_entry_bytes], then whatever a leader
    sends to catch a peer up, entries or a piece of its snapshot, fits the largest frame [read_message] accepts. *)
Theorem leader_messages_fit (n : Node St) (peer to : NodeId) (m : Message) :
  config_accepted (n_config n) = true → EntryLog_wf (slog n) →
  (∀ i e, entry (n_storage n) i = Some e → encoded_len e ≤ max_entry_bytes (n_config n)) →
  (∀ ms, snapshot_members (n_storage n) = Some ms → blen (encode_members ms) ≤ max_entry_bytes (n_config n)) →
  append_message_for n peer = Ok (Send to m) → blen (wire_encode m) + 12 ≤ MAX_FRAME.
Proof.
  intros Hc Hwf Hes Hms. unfold config_accepted in Hc. apply negb_true_iff, N.ltb_ge in Hc.
  unfold append_message_for. cbv zeta. set (next := default _ _). destruct (next <=? _).
  - destruct (read_snapshot _ _ _) as [data|] eqn:Er; [|done]. simpl. intros [= <- <-].
    apply law_read_len in Er.
    match goal with |- context [InstallSnapshot ?a ?b ?c ?d ?e ?f ?g ?h] => pose proof (snapshot_body_len a b c d e f g h) as Hl end.
    destruct (snapshot_members (n_storage n)) as [ms|] eqn:Em; [specialize (Hms ms eq_refl)|]; lia.
  - intros [= <- <-]. rewrite append_len_of_batch.
    destruct (entries_within_exact n next (max_append_bytes (n_config n)) Hwf) as (k & -> & _ & _ & Hk & _).
    destruct Hk as [Hk|Hk]; [|lia].
    assert (batch_len (take k (available n next)) ≤ max_entry_bytes (n_config n)); [|lia].
    destruct k as [|[|k]]; [simpl; lia| |lia].
    destruct (available n next) as [|e es] eqn:Ea; [simpl; lia|]. simpl. rewrite N.add_0_r.
    assert (e ∈ available n next) as (i & _ & Hi)%list_elem_of_omap by (rewrite Ea; left). by apply (Hes i).
Qed.
End fits.

(** ** Proposing for a batch *)

Lemma batch_entries_spec term next max cs es answers :
  batch_entries term next max cs = (es, answers) →
  length answers = length cs ∧ contiguous next es ∧
  (∀ j index, answers !! j = Some (inl index) → ∃ c, cs !! j = Some c ∧ next ≤ index ∧
    es !! N.to_nat (index - next) = Some (mkEntry term index (Data c))) ∧
  (∀ i j a b, (i < j)%nat → answers !! i = Some (inl a) → answers !! j = Some (inl b) → a < b).
Proof.
  revert next es answers. induction cs as [|c cs IH]; intros next es answers; cbn [batch_entries].
  { intros [= <- <-]. split_and!; [done|by intros k e|by intros [|j]..]. }
  destruct (max <? blen c + ENTRY_OVERHEAD).
  - destruct (batch_entries term next max cs) as [es1 as1] eqn:E. intros [= <- <-].
    destruct (IH _ _ _ E) as (H1 & H2 & H3 & H4). split_and!; [simpl; by rewrite H1|done| |].
    + intros [|j] index; [done|]. apply H3.
    + intros [|i] [|j] a b Hij; simpl; try done. apply H4. lia.
  - destruct (batch_entries term (next + 1) max cs) as [es1 as1] eqn:E. intros [= <- <-].
    destruct (IH _ _ _ E) as (H1 & H2 & H3 & H4). split_and!.
    + simpl. by rewrite H1.
    + intros [|k] e; simpl; [intros [= <-]; simpl; lia|]. intros ->%H2. lia.
    + intros [|j] index; simpl.
      * intros [= <-]. exists c. rewrite N.sub_diag. split_and!; [done|lia|done].
      * intros (c' & Hc & Hle & He)%H3. exists c'. split_and!; [done|lia|].
        replace (N.to_nat (index - next)) with (S (N.to_nat (index - (next + 1)))) by lia. done.
    + intros [|i] [|j] a b Hij; simpl; try lia; [|by apply H4; lia].
      intros [= <-] (c' & _ & Hle & _)%H3. lia.
Qed.

Section propose.
Context {St : Type} `{StorageLaws St}.

(** Handlers that leave the storage alone. *)
Definition SameStorage (s s' : HState St) : Prop := n_storage s'.1 = n_storage s.1.

#[local] Instance SameStorage_preorder : PreOrder SameStorage.
Proof. split; [by intros s|]. intros s1 s2 s3. unfold SameStorage. congruence. Qed.

Lemma storage_maybe_commit (n : Node St) : n_storage (maybe_commit n) = n_storage n.
Proof. unfold maybe_commit. by repeat case_match. Qed.

Lemma storage_reload (n : Node St) : n_storage (reload_membership n) = n_storage n.
Proof. unfold reload_membership. destruct (scan_config _ _ _). by case_bool_decide. Qed.

Lemma storage_modn f : (∀ n : Node St, n_storage (f n) = n_storage n) → Steps SameStorage (modn f).
Proof. intros Hf s. apply Hf. Qed.

Lemma storage_broadcast : Steps SameStorage (broadcast_append (S := St)).
Proof.
  unfold broadcast_append. apply steps_bind; [apply _|apply steps_gets, _|intros n].
  apply steps_bind; [apply _|apply steps_when; [apply _|apply storage_modn, storage_reload]|intros _].
  apply steps_bind; [apply _|apply steps_gets, _|intros rs]. apply steps_iter; [apply _|]. intros peer. unfold send_append.
  apply steps_bind; [apply _|apply steps_gets, _|intros n'].
  apply steps_bind; [apply _|apply steps_lift, _|intros a]. by intros s.
Qed.

(** What [propose_batch] does when it answers. *)
Lemma propose_batch_answers commands (n n' : Node St) answers actions :
  propose_batch commands n = (inl (answers, actions), n') →
  ∃ es, batch_entries (node_term n) (last_index (n_storage n) + 1) (max_entry_bytes (n_config n)) commands = (es, answers) ∧
    slog n' = push_all (slog n) es.
Proof.
  unfold propose_batch, run_propose, propose_batch_h, getn, mgets, mbind, M_bind. cbn [fst id].
  destruct (bool_decide (n_role n = Leader)); simpl; [|done].
  destruct (batch_entries _ _ _ commands) as [es as1] eqn:E. case_bool_decide as Hes.
  { subst es. intros [= <- _ <-]. by exists []. }
  unfold mtry, on_storage. cbn [fst snd]. destruct (append es (n_storage n)) as [[[]|e] st] eqn:Ea; simpl; [|done].
  pose proof (storage_broadcast (maybe_commit (set_storage st n), [])) as Hb.
  destruct (broadcast_append (maybe_commit (set_storage st n), [])) as [[[]|e] [n2 acts]] eqn:Eb; simpl; [|done].
  intros [= <- _ <-]. exists es. split; [done|]. cbn in Hb. unfold SameStorage in Hb. cbn in Hb.
  unfold slog. rewrite Hb, storage_maybe_commit. cbn. by eapply law_append_ok.
Qed.

(** C25: a batch answers everyone in it. Whatever becomes of the batch, [write] gives each command of it one answer,
    in order, which is what [Proposals] relies on; and a command answered with an index and a term is in the
    log at exactly that index, in that term, after everything that was there before and after the commands
    before it in the batch. *)
Theorem write_batch_lands commands (s s' : Shared St) answers :
  EntryLog_wf (slog (rp_node (sh_replica s))) → write_propose commands s = (answers, s') →
  length answers = length commands ∧
  (∀ j index term, answers !! j = Some (inl (index, term)) →
    term = node_term (rp_node (sh_replica s)) ∧ last_index (n_storage (rp_node (sh_replica s))) < index ∧
    ∃ c, commands !! j = Some c ∧
      entry (n_storage (rp_node (sh_replica s'))) index = Some (mkEntry term index (Data c))) ∧
  (∀ i j a b, (i < j)%nat → answers !! i = Some (inl a) → answers !! j = Some (inl b) → a.1 < b.1).
Proof.
  intros Hwf. unfold write_propose, replica_propose_batch. set (n := rp_node (sh_replica s)) in *.
  destruct (propose_batch commands n) as [[[results actions]|e] n'] eqn:Ep.
  2:{ assert (∀ k (x : Reply) (i : nat) (y : N * N), replicate k (inr x : Proposed) !! i = Some (inl y) → False) as Hno
        by (by intros k x i y [? _]%lookup_replicate).
      destruct e; intros [= <- <-]; rewrite length_replicate;
        (split_and!; [done|intros j index term Hj; by apply Hno in Hj|intros i j a b _ Hi; by apply Hno in Hi]). }
  destruct (propose_batch_answers _ _ _ _ _ Ep) as (es & Eb & Hlog).
  destruct (batch_entries_spec _ _ _ _ _ _ Eb) as (H1 & H2 & H3 & H4). intros [= <- <-].
  assert (∀ j index term, (proposed_answer (node_term n) <$> results) !! j = Some (inl (index, term)) →
    results !! j = Some (inl index) ∧ term = node_term n) as Hans.
  { intros j index term Hj. rewrite list_lookup_fmap in Hj. destruct (results !! j) as [[i|e]|]; simpl in *; naive_solver. }
  split_and!; [by rewrite length_fmap| |].
  - intros j index term [Hr ->]%Hans. destruct (H3 j index Hr) as (c & Hc & Hle & He). split_and!; [done|lia|].
    exists c. split; [done|]. cbn. rewrite law_entry. fold (slog n'). rewrite Hlog.
    rewrite law_last_index in *. fold (slog n) in *. rewrite EntryLog_last_index_len in * by done.
    rewrite EntryLog_entry_lookup, push_all_base, push_all_entries.
    2:{ apply push_all_wf; [done|]. by rewrite EntryLog_last_index_len. }
    rewrite (proj2 (N.leb_gt _ _)) by lia. rewrite lookup_app_r by (unfold blen in *; lia). rewrite <-He. f_equal. unfold blen. lia.
  - intros i j [a ta] [b tb] Hij [Ha _]%Hans [Hb _]%Hans. by apply (H4 i j).
Qed.
End propose.

(** ** Reads *)

Lemma is_name_eq name s : is_name name s = true → name = lit s.
Proof. unfold is_name. by intros ?%bool_decide_eq_true. Qed.

Section reads.
Context {St : Type} `{Storage St}.

Lemma mget_reply_map (r : ReplicatedStore St) m keys :
  Refines (rp_store r) m → mget_reply keys r = Array ((λ k, bulk_or_null (m !! k)) <$> keys).
Proof.
  intros HR. unfold mget_reply. f_equal. apply list_fmap_ext. intros i k _. rewrite (Refines_get _ m k HR).
  by destruct (m !! k).
Qed.

Lemma exists_reply_map (r : ReplicatedStore St) m keys :
  Refines (rp_store r) m → exists_reply keys r = Integer (Z.of_nat (length (filter (λ k, is_Some (m !! k)) keys))).
Proof.
  intros HR. unfold exists_reply. do 3 f_equal. apply list_filter_iff. intros k.
  by rewrite (Refines_contains _ m k HR), bool_decide_eq_true.
Qed.

(** A plan that reads is one of five commands, and answers with its meaning on the map. *)
Lemma plan_read_map name args f (r : ReplicatedStore St) m :
  Refines (rp_store r) m → plan_name name args = PRead f → map_dispatch name args m = (Ok (f r), m).
Proof.
  intros HR. unfold plan_name.
  destruct (is_name name "PING"); [by repeat case_match|]. destruct (is_name name "ECHO"); [by repeat case_match|].
  destruct (is_name name "QUIT"); [done|]. destruct (is_name name "COMMAND"); [done|]. destruct (is_name name "CLIENT"); [done|].
  destruct (is_name name "SELECT"); [by repeat case_match|].
  destruct (is_name name "GET") eqn:E; [apply is_name_eq in E as ->|clear E].
  { destruct args as [|k [|? ?]]; [done| |done]. intros [= <-]. unfold get_reply. by rewrite (Refines_get _ m k HR). }
  destruct (is_name name "MGET") eqn:E; [apply is_name_eq in E as ->|clear E].
  { destruct args as [|k ks]; [done|]. intros [= <-]. by rewrite (mget_reply_map r m _ HR). }
  destruct (is_name name "EXISTS") eqn:E; [apply is_name_eq in E as ->|clear E].
  { destruct args as [|k ks]; [done|]. intros [= <-]. by rewrite (exists_reply_map r m _ HR). }
  destruct (is_name name "DBSIZE") eqn:E; [apply is_name_eq in E as ->|clear E].
  { destruct args as [|k ks]; [|done]. intros [= <-]. unfold dbsize_reply. by rewrite (Refines_size _ m HR). }
  destruct (is_name name "KEYS") eqn:E; [apply is_name_eq in E as ->|clear E].
  { destruct args as [|p [|? ?]]; [done| |done]. intros [= <-]. unfold keys_reply.
    by rewrite (sort_Permutation (filter _ (store_keys _)) (filter (λ k, glob_match p k = true) (map_keys m)))
      by (by rewrite (store_keys_map _ m HR)). }
  by repeat case_match.
Qed.

(** C26: a read is answered once it may be and as a single server would. A read command of a client is answered only
    when the index it was given has been confirmed and the store has applied at least that far; the reply is then
    exactly what the same command means on the map the store stands for, which is what the single-node server
    answers, and changes nothing; a read that was refused is answered with where the leader is, if anyone knows. *)
Theorem cluster_read_exact name args f request reply (s : Shared St) m :
  Refines (rp_store (sh_replica s)) m → cluster_plan (name :: args) = PRead f → read_check f request s = Some reply →
  (∃ index, read_state (rp_node (sh_replica s)) request = RReady index ∧ index ≤ rp_applied (sh_replica s) ∧
    map_dispatch (to_ascii_uppercase (utf8_lossy name)) args m = (Ok reply, m)) ∨
  (read_state (rp_node (sh_replica s)) request = RFailed ∧ reply = not_leader s).
Proof.
  intros HR Hp. unfold read_check, replica_read_state.
  destruct (read_state (rp_node (sh_replica s)) request) as [|index|]; [done| |].
  - destruct (N.ltb_spec (rp_applied (sh_replica s)) index); [done|]. intros [= <-]. left. exists index.
    split_and!; [done|done|]. by apply plan_read_map.
  - intros [= <-]. by right.
Qed.
End reads.

(** ** Waiting *)

Section waiting.
Context {R T : Type} (check : R → option T).

Definition WaitInv (w : Waiting R T) : Prop :=
  match wt_waiter w with
  | WtSeen seen => seen ≤ wt_changes w
  | WtUnmet seen => seen ≤ wt_changes w ∧ (wt_changes w = seen → check (wt_replica w) = None ∨ (0 < wt_unannounced w)%nat)
  | WtAsleep seen => wt_changes w = seen ∧ (check (wt_replica w) = None ∨ (0 < wt_unannounced w)%nat)
  | _ => True
  end.

Lemma wait_step_inv w w' : WaitInv w → wait_step check w w' → WaitInv w'.
Proof.
  unfold WaitInv. destruct 2; cbn in *; try done.
  - destruct w; try done; [split; [apply H|]|split; [apply H|]]; intros; right; lia.
  - destruct w; cbn; try done; [lia|..]; (split; [lia|]; intros; lia).
  - split; [done|]. by left.
  - split; [done|]. by apply H.
  - split; [lia|]. intros _. apply H.
Qed.

Lemma wait_reachable r changes unannounced w : rtc (wait_step check) (wait_start r changes unannounced) w → WaitInv w.
Proof.
  intros Hr. eapply (rtc_ind_r (λ w, WaitInv w)); [| |exact Hr]; [done|]. intros x y _ Hs HI. by eapply wait_step_inv.
Qed.

(** C28: nobody sleeps through a change. In every state a thread waiting for an answer can get to, whatever changes are
    made and announced meanwhile: while it is asleep, either there is no answer yet, or the change that made one has
    still to be announced; announcing a change rouses it, with the count past the one it saw, so that it checks
    again before it sleeps; and it sleeps, or gives up, only with no change announced since it read the count. *)
Theorem wait_for_misses_nothing r changes unannounced w :
  rtc (wait_step check) (wait_start r changes unannounced) w →
  (∀ seen, wt_waiter w = WtAsleep seen →
    wt_changes w = seen ∧ (wt_unannounced w = 0%nat → check (wt_replica w) = None) ∧
    ∀ u, wt_unannounced w = S u →
      wait_step check w (mkWaiting (wt_replica w) (seen + 1) u (WtUnmet seen)) ∧
      ∀ w', wait_step check (mkWaiting (wt_replica w) (seen + 1) u (WtUnmet seen)) w' →
        wt_waiter w' = WtLoop ∨ wt_waiter w' = WtUnmet seen ∧ seen < wt_changes w') ∧
  (∀ w' seen, wt_waiter w = WtUnmet seen → wait_step check w w' →
    wt_waiter w' = WtAsleep seen ∨ wt_waiter w' = WtDone None →
    wt_unannounced w = 0%nat → check (wt_replica w') = None).
Proof.
  intros HI%wait_reachable. destruct w as [x c u wt]. cbn in *. split.
  - intros seen ->. unfold WaitInv in HI. cbn in HI. destruct HI as [-> Hor]. split_and!; [done|intros ->; destruct Hor; [done|lia]|].
    intros u' ->. split; [exact (ws_announce check x seen u' (WtAsleep seen))|]. intros w' Hs. inversion Hs; subst; cbn; [by right; split; [|lia]..|by left|lia|lia].
  - intros w' seen -> Hs Hw ->. unfold WaitInv in HI. cbn in HI. destruct HI as [_ Hor].
    inversion Hs; subst; cbn in *; try (by destruct Hw); destruct (Hor eq_refl) as [?|?]; (done || lia).
Qed.
End waiting.

(** ** Editing the membership *)

Definition voter_set (members : list Member) : gset NodeId := list_to_set (m_id <$> filter (λ m, m_learner m = false) members).

Lemma elem_of_voter_set x members : x ∈ voter_set members ↔ ∃ m, m ∈ members ∧ m_id m = x ∧ m_learner m = false.
Proof.
  unfold voter_set. rewrite elem_of_list_to_set, list_elem_of_fmap. split.
  - intros (m & -> & [Hl Hm]%list_elem_of_filter). by exists m.
  - intros (m & Hm & <- & Hl). exists m. split; [done|]. by apply list_elem_of_filter.
Qed.

Lemma config_voters_set members : list_to_set (config_voters members) = voter_set members.
Proof. apply set_eq. intros x. unfold voter_set. rewrite !elem_of_list_to_set. apply elem_of_sort_dedup. Qed.

Lemma ids_size (members : list Member) :
  NoDup (m_id <$> members) → size (list_to_set (m_id <$> members) : gset NodeId) = length members.
Proof. intros Hnd. rewrite size_list_to_set by done. apply length_fmap. Qed.

Lemma not_a_member id members : existsb (λ m, m_id m =? id) members = false ↔ id ∉ m_id <$> members.
Proof.
  rewrite <-not_true_iff_false, existsb_exists, list_elem_of_fmap. split.
  - intros Hn (m & -> & Hm). apply Hn. exists m. split; [by apply list_elem_of_In|apply N.eqb_refl].
  - intros Hn (m & Hm%list_elem_of_In & E%N.eqb_eq). apply Hn. by exists m.
Qed.

Lemma NoDup_fmap_filter {A B} (f : A → B) (P : A → Prop) `{!∀ x, Decision (P x)} (l : list A) : NoDup (f <$> l) → NoDup (f <$> filter P l).
Proof.
  induction l as [|x l IH]; [done|]. rewrite fmap_cons. intros [Hx Hl]%list.NoDup_cons. rewrite filter_cons. case_decide; [|by apply IH].
  rewrite fmap_cons. apply list.NoDup_cons. split; [|by apply IH]. intros (y & E & [_ Hy]%list_elem_of_filter)%list_elem_of_fmap.
  apply Hx, list_elem_of_fmap. by exists y.
Qed.

Section edits.
Context {St : Type} `{Storage St}.

Lemma accepted_membership (n : Node St) ms (id : NodeId) :
  is_leader n = true → ready_to_serve n = true → n_membership_index n ≤ n_commit_index n →
  NoDup (m_id <$> ms) → voter_set ms ≠ ∅ →
  (∀ x, x ≠ id → x ∈ voter_set ms ↔ x ∈ n_voters n) → membership_refusal n ms = None.
Proof.
  unfold is_leader, membership_refusal. intros -> -> Hc Hnd Hv Hd. cbn [negb].
  rewrite (proj2 (N.ltb_ge _ _)) by done. rewrite (bool_decide_true (_ = length _)) by by apply ids_size. cbn [negb].
  fold (voter_set ms). rewrite (bool_decide_false (voter_set ms = ∅)) by done.
  rewrite bool_decide_false; [done|]. apply Nat.le_ngt.
  trans (size ({[id]} : gset NodeId)); [|by rewrite size_singleton]. apply subseteq_size. intros x.
  rewrite elem_of_union, !elem_of_difference, elem_of_singleton, elem_of_list_to_set. intros Hx.
  destruct (decide (x = id)); [done|]. specialize (Hd x). tauto.
Qed.

(** [RAFT.ADD] and [RAFT.REMOVE] ask only for changes that are safe, and get them. On a leader that may serve and
    has no change under way: a node that is not a member is added as a learner, leaving the voters as they are, and
    is accepted; one that is gets an error; a member is removed and nobody else, and that is accepted unless it was
    the last voter; and one that is not a member gets an error. No id is ever listed twice. *)
Theorem membership_edits_exact (n : Node St) (id : NodeId) (context : bytes) :
  is_leader n = true → ready_to_serve n = true → n_membership_index n ≤ n_commit_index n →
  NoDup (m_id <$> n_members n) → n_voters n = config_voters (n_members n) → n_voters n ≠ [] →
  (if decide (id ∈ m_id <$> n_members n) then ∃ why, add_member id context (n_members n) = inr why
   else ∃ ms, add_member id context (n_members n) = inl ms ∧ ms ≡ₚ mkMember id context true :: n_members n ∧
     NoDup (m_id <$> ms) ∧ voter_set ms = voter_set (n_members n) ∧ membership_refusal n ms = None) ∧
  (if decide (id ∈ m_id <$> n_members n) then ∃ ms, remove_member id (n_members n) = inl ms ∧
     (∀ m, m ∈ ms ↔ m ∈ n_members n ∧ m_id m ≠ id) ∧ NoDup (m_id <$> ms) ∧
     (membership_refusal n ms = None ∨ voter_set (n_members n) = {[id]})
   else ∃ why, remove_member id (n_members n) = inr why).
Proof.
  intros Hl Hr Hc Hnd Hv Hne. set (old := n_members n) in *.
  assert (∀ x, x ∈ n_voters n ↔ x ∈ voter_set old) as Hold.
  { intros x. rewrite Hv, <-config_voters_set. by rewrite elem_of_list_to_set. }
  assert (voter_set old ≠ ∅) as Hne'.
  { destruct (n_voters n) as [|x l] eqn:E; [done|]. assert (x ∈ voter_set old) as Hx by (apply Hold; left). set_solver. }
  split.
  - unfold add_member. destruct (existsb _ old) eqn:Ex.
    + rewrite decide_True; [by eexists|]. apply dec_stable. intros Hn%not_a_member. congruence.
    + apply not_a_member in Ex. rewrite decide_False by done. eexists. split; [done|].
      assert (merge_sort member_le (old ++ [mkMember id context true]) ≡ₚ mkMember id context true :: old) as Hp
        by (rewrite merge_sort_Permutation; symmetry; apply Permutation_cons_append).
      set (ms := merge_sort member_le _) in *.
      assert (NoDup (m_id <$> ms)) as Hnd' by (rewrite Hp; by constructor).
      assert (voter_set ms = voter_set old) as Hvs.
      { apply set_eq. intros x. rewrite !elem_of_voter_set. split; intros (m & Hm & Hx & Hlr); exists m; (split; [|done]).
        - rewrite Hp in Hm. apply elem_of_cons in Hm as [->|]; [done|done].
        - rewrite Hp. by right. }
      split_and!; [done..|]. apply (accepted_membership n ms id); [done..|by rewrite Hvs|]. intros x _. by rewrite Hvs, Hold.
  - unfold remove_member. set (ms := filter _ old).
    assert (∀ m, m ∈ ms ↔ m ∈ old ∧ m_id m ≠ id) as Hms by (intros m; unfold ms; rewrite list_elem_of_filter; tauto).
    case_decide as Hid.
    + apply list_elem_of_fmap in Hid as (m & Eid & Hm). assert (length ms < length old)%nat as Hlt.
      { apply (length_filter_lt _ _ m); [done|]. intros Hn. by apply Hn. }
      rewrite (proj2 (Nat.eqb_neq _ _)) by lia. exists ms. split; [done|].
      assert (NoDup (m_id <$> ms)) as Hnd' by by apply NoDup_fmap_filter.
      split_and!; [done..|]. destruct (decide (voter_set ms = ∅)) as [He|Hnn].
      * right. apply set_eq. intros x. rewrite elem_of_singleton. split.
        -- intros (m' & Hm' & <- & Hlr)%elem_of_voter_set. apply dec_stable. intros Hx.
           assert (m_id m' ∈ voter_set ms) by (apply elem_of_voter_set; exists m'; by rewrite Hms). set_solver.
        -- intros ->. destruct (set_choose_L _ Hne') as [x (m' & Hm' & Ex & Hlr)%elem_of_voter_set].
           apply elem_of_voter_set. exists m'. split_and!; [done| |done]. apply dec_stable. intros Hx.
           assert (m_id m' ∈ voter_set ms) by (apply elem_of_voter_set; exists m'; by rewrite Hms). set_solver.
      * left. apply (accepted_membership n ms id); [done..|]. intros x Hx. rewrite Hold, !elem_of_voter_set.
        split; intros (m' & Hm' & Ex & Hlr); exists m'; (split; [|done]); rewrite Hms in *; naive_solver.
    + assert (ms = old) as ->; [|rewrite Nat.eqb_refl; by eexists]. unfold ms. apply filter_all.
      intros m Hm E. apply Hid, list_elem_of_fmap. by exists m.
Qed.
End edits.

(** A waiter that sleeps until a change is announced. *)
Lemma wait_for_misses_nothing_witness :
  let check (n : N) := if 3 <=? n then Some n else None in
  let w := mkWaiting 5 0 1%nat (WtAsleep 0) : Waiting N N in
  rtc (wait_step check) (wait_start 1 0 0%nat) w ∧
  wait_step check w (mkWaiting 5 1 0%nat (WtUnmet 0)).
Proof.
  intros check w. assert (rtc (wait_step check) (wait_start 1 0 0%nat) w) as Hr.
  { eapply rtc_l; [apply ws_count|]. eapply rtc_l; [by apply ws_unmet|]. eapply rtc_l; [apply ws_sleep|].
    eapply rtc_l; [apply (ws_change check _ _ _ _ 5)|]. apply rtc_refl. }
  split; [exact Hr|]. destruct (wait_for_misses_nothing check 1 0 0%nat w Hr) as [Ha _].
  destruct (Ha 0 eq_refl) as (_ & _ & Hu). apply (Hu 0%nat eq_refl).
Defined.

(** ** A client's connection *)

Definition encode_command (args : list bytes) : bytes := write_to (Array (Bulk <$> args)).

(** The replies to a list of commands, up to the first [QUIT]. *)
Fixpoint session {S} (exec : list bytes → S → Reply * S) (cmds : list (list bytes)) (s : S) : bytes * S :=
  match cmds with
  | [] => ([], s)
  | c :: cmds =>
      let '(reply, s) := exec c s in
      if is_quit c then (write_to reply, s) else let '(out, s) := session exec cmds s in (write_to reply ++ out, s)
  end.

Lemma serve_session {S} (exec : list bytes → S → Reply * S) cmds fuel s :
  Forall (λ c, command_ok c ∧ c ≠ []) cmds → (length cmds < fuel)%nat →
  serve_client exec fuel (mjoin (encode_command <$> cmds)) s = session exec cmds s.
Proof.
  intros Hc. revert fuel s. induction Hc as [|c cmds [Hok Hne] _ IH]; intros [|fuel] s Hf; try (simpl in Hf; lia); [done|].
  change (mjoin (encode_command <$> c :: cmds)) with (encode_command c ++ mjoin (encode_command <$> cmds)).
  cbn [serve_client session]. unfold encode_command at 1. rewrite command_roundtrip by done.
  rewrite bool_decide_false by done. destruct (exec c s) as [reply s']. destruct (is_quit c); [done|].
  rewrite IH by (simpl in Hf; lia). done.
Qed.

(** A connection answers every command, once and in order. Whatever commands a client sends, binary arguments and
    all, one at a time or all at once without waiting, what it gets back is the reply to each, in the order they were
    sent and each executed after the one before it, up to the first QUIT, which is answered and ends it. *)
Theorem client_answered_in_order {S} (exec : list bytes → S → Reply * S) cmds s :
  Forall (λ c, command_ok c ∧ c ≠ []) cmds →
  let stream := mjoin (encode_command <$> cmds) in
  serve_client exec (Datatypes.S (length stream)) stream s = session exec cmds s.
Proof.
  intros Hc stream. apply serve_session; [done|]. apply Nat.lt_succ_r. unfold stream.
  induction Hc as [|c cmds _ _ IH]; [done|].
  change (mjoin (encode_command <$> c :: cmds)) with (encode_command c ++ mjoin (encode_command <$> cmds)).
  rewrite length_app. assert (0 < length (encode_command c))%nat by (unfold encode_command; cbn [write_to app length]; lia).
  simpl in *. lia.
Qed.

Lemma client_answered_in_order_witness :
  let exec (args : list bytes) (n : N) := (Integer (Z.of_N n), n + 1) in
  let stream := encode_command [lit "GET"; [x0a]] ++ encode_command [lit "quit"] ++ encode_command [lit "GET"; lit "k"] in
  serve_client exec (S (length stream)) stream 0 = (write_to (Integer 0) ++ write_to (Integer 1), 2).
Proof.
  refine (client_answered_in_order (λ args n, (Integer (Z.of_N n), n + 1)) [[lit "GET"; [x0a]]; [lit "quit"]; [lit "GET"; lit "k"]] 0 _).
  repeat constructor; by vm_compute.
Defined.
