(* ===== verification/ClusterRuns.v ===== *)
(** * Whole clusters, run (src/cluster.rs)

    Nodes started as [bind] starts them, ticking, and carrying or losing what is in each
    other's queues: three runs that end otherwise than the code and its comments say. *)

From S2P Require Import Prelude.
From S2P Require Import RaftLog.
From S2P Require Import Message.
From S2P Require Import Wire.
From S2P Require Import NodeState.
From S2P Require Import Node.
From S2P Require Import Store.
From S2P Require Import StoreOps.
From S2P Require Import DataLog.
From S2P Require Import StoreMap.
From S2P Require Import Resp.
From S2P Require Import Server.
From S2P Require Import Replicated.
From S2P Require Import Proposals.
From S2P Require Import Peers.
From S2P Require Import Cluster.
From S2P Require Import Replication.
From S2P Require Import ClusterProof.

#[local] Open Scope N_scope.

(** ** A network of running nodes *)

Abbreviation Net := (gmap NodeId (Shared MemStorage)).

Definition all_spawn : nat → bool := λ _, true.
Definition any_order : Store → list N := λ _, [].

Definition node_addr (id : NodeId) : bytes := lit "node" ++ show_N id.

(** A heartbeat every tick, and an election after three without one. *)
Definition run_config (ids : list NodeId) (me : NodeId) : ClusterConfig :=
  mkClusterConfig me ((λ id, mkPeer id (node_addr id) (node_addr id)) <$> filter (λ id, id ≠ me) ids) false 50
    (mkConfig 1 3 3 1000 1000) 10000.

(** What [bind] makes of a configuration and empty directories. *)
Definition boot (c : ClusterConfig) : Shared MemStorage :=
  let me := node_addr (cc_id c) in
  let n := with_members (cc_id c) (bootstrap_members c me me) (cc_raft c) MemStorage_new in
  let r := (replica_new n (fresh_store Options_default) None (λ _, 7)).2 in
  mkShared (set_background_snapshots true (set_snapshot_every (cc_snapshot_every c) r)) 0
    (bind_book all_spawn all_spawn c (n_membership_index n) (n_members n)).

Definition boot_all (ids : list NodeId) : Net := list_to_map ((λ id, (id, boot (run_config ids id))) <$> ids).

Definition queued (to : NodeId) (s : Shared MemStorage) : list Message :=
  default [] (snd_queue <$> ab_senders (sh_addresses s) !! to).

Definition drained (to : NodeId) (s : Shared MemStorage) : Shared MemStorage :=
  let b := sh_addresses s in
  sh_set_addresses (mkBook (ab_me b) (ab_configured b) (alter (λ x, mkSender (snd_addr x) []) to (ab_senders b))
    (ab_client_addrs b) (ab_seen b)) s.

(** Everything in [a]'s queue for [b] arrives, or none of it. *)
Definition carry (a b : NodeId) (net : Net) : option Net :=
  sa ← net !! a; sb ← net !! b;
  sb' ← step_all any_order all_spawn ((a,.) <$> queued b sa) sb;
  Some (<[b := sb']> (<[a := drained b sa]> net)).

Definition lose (a b : NodeId) (net : Net) : option Net := Some (alter (drained b) a net).

Definition tick (a : NodeId) (net : Net) : option Net :=
  sa ← net !! a; x ← ticker any_order all_spawn true true true sa; Some (<[a := x.1.1.1]> net).

Fixpoint run (l : list (Net → option Net)) (net : Net) : option Net :=
  match l with
  | [] => Some net
  | f :: l => net ← f net; run l net
  end.

(** [a] and each of [bs] exchange what they have queued. *)
Definition exchange (a : NodeId) (bs : list NodeId) : list (Net → option Net) := (carry a <$> bs) ++ ((λ b, carry b a) <$> bs).

(** [a]'s clock runs out, and [bs] elect it; then they hear of it, and that its first entry is committed. *)
Definition elect (a : NodeId) (bs : list NodeId) : list (Net → option Net) :=
  [tick a; tick a; tick a] ++ exchange a bs ++ exchange a bs ++ exchange a bs.

Definition cut_off (a : NodeId) (bs : list NodeId) : list (Net → option Net) := (lose a <$> bs) ++ ((λ b, lose b a) <$> bs).

(** ** A write acknowledged and lost *)

Definition ex_put : bytes := match write_command 7 (OpPut (lit "k") (lit "v")) with inl c => c | inr _ => [] end.

(** The first leader, of term 1, with its first entry committed and applied everywhere. *)
Definition settling : list (Net → option Net) := elect 1 [2; 3] ++ [tick 1] ++ exchange 1 [2; 3].

(** Cut off, it takes a write; the others elect another, whose first entry takes the write's place;
    then one message of the new leader gets through. *)
Definition overwriting : list (Net → option Net) :=
  cut_off 1 [2; 3] ++ [tick 2; tick 2; tick 2] ++ cut_off 2 [1; 3] ++ elect 3 [2] ++ [lose 3 1; tick 3; carry 3 1].

(** The run, moment by moment. *)
Definition after (l : list (Net → option Net)) (net : Net) : Net := default ∅ (run l net).
Definition at_node (id : NodeId) (net : Net) : Shared MemStorage := default (boot (run_config [] id)) (net !! id).

Lemma run_after l net : is_Some (run l net) → run l net = Some (after l net).
Proof. intros [x E]. unfold after. by rewrite E. Qed.

Lemma lookup_at_node id net : is_Some (net !! id) → net !! id = Some (at_node id net).
Proof. intros [x E]. unfold at_node. by rewrite E. Qed.

(** Decide a fact about a run by running it. *)
Ltac by_running := apply (bool_decide_unpack _); vm_compute; exact I.

Definition net_settled : Net := after settling (boot_all [1; 2; 3]).
Definition old_leader : Shared MemStorage := at_node 1 net_settled.
Definition old_leader_wrote : Shared MemStorage := (write_propose [ex_put] old_leader).2.
Definition net_overwritten : Net := after overwriting (<[1 := old_leader_wrote]> net_settled).

(** C39: a client can be told OK for a write that is lost. In a cluster of three, a leader that is cut off takes a SET,
    at index 2 in term 1; the other two elect a leader, whose first entry is committed at index 2 in term 2; and the
    first message the old leader hears of it replaces the write, commits and is applied in one step. The client's
    thread, woken after that step, asks whether index 2 has been applied before it asks whether the term is still
    the same: it answers OK, and the write is nowhere in the cluster. *)
Theorem lost_write_acknowledged :
  ∃ net1 s1 s1' net2 s2,
    run settling (boot_all [1; 2; 3]) = Some net1 ∧ net1 !! 1 = Some s1 ∧
    write_propose [ex_put] s1 = ([inl (2, 1)], s1') ∧ write_check 2 1 (sh_replica s1') = None ∧
    run overwriting (<[1 := s1']> net1) = Some net2 ∧ net2 !! 1 = Some s2 ∧
    write_check 2 1 (sh_replica s2) = Some Reply_ok ∧ node_term (rp_node (sh_replica s2)) = 2 ∧
    Forall (λ id, ∃ s, net2 !! id = Some s ∧ entry (n_storage (rp_node (sh_replica s))) 2 = Some (mkEntry 2 2 Noop) ∧
      store_get (rp_store (sh_replica s)) (lit "k") = Ok None) [1; 2; 3].
Proof.
  exists net_settled, old_leader, old_leader_wrote, net_overwritten, (at_node 1 net_overwritten). split_and!.
  - apply run_after. by_running.
  - apply lookup_at_node. by_running.
  - unfold old_leader_wrote. rewrite (surjective_pairing (write_propose _ _)) at 1. apply (f_equal (λ x, (x, _))). vm_compute. reflexivity.
  - by vm_compute.
  - apply run_after. by_running.
  - apply lookup_at_node. by_running.
  - by vm_compute.
  - by vm_compute.
  - repeat constructor; eexists; (split; [apply lookup_at_node; by_running|split; by vm_compute]).
Qed.

(** ** A membership the address book never takes up *)

Definition five : list NodeId := [1; 2; 3; 4; 5].

(** A client's [RAFT.ADD] at node [at_], as far as its proposal. *)
Definition raft_add (at_ id : NodeId) (net : Net) : option Net :=
  s ← net !! at_;
  match membership_propose all_spawn (add_member id (member_context (node_addr id) (node_addr id))) s with
  | (inl _, s) => Some (<[at_ := s]> net)
  | (inr _, _) => None
  end.

Definition raft_write (at_ : NodeId) (net : Net) : option Net :=
  s ← net !! at_; Some (<[at_ := (write_propose [ex_put] s).2]> net).

(** Node 1 leads, and only node 2 hears of its write, at index 2, and of node 6, added at index 3. Node 3, elected by
    4 and 5, has its own first entry at index 2, and adds node 7 at index 3; node 2 hears of both in one message. *)
Definition readding : list (Net → option Net) :=
  elect 1 [2; 3; 4; 5] ++ [tick 1] ++ exchange 1 [2; 3; 4; 5] ++
  [raft_write 1; raft_add 1 6; carry 1 2; lose 2 1] ++ cut_off 1 [3; 4; 5; 6] ++
  [tick 4; tick 4; tick 4; tick 5; tick 5; tick 5] ++ cut_off 4 [1; 2; 3; 5] ++ cut_off 5 [1; 2; 3; 4] ++
  elect 3 [4; 5] ++ [raft_add 3 7] ++ exchange 3 [4; 5] ++ [lose 3 2; tick 3; carry 3 2].

(** C40: the address book can miss a change of the membership. It is brought up to date when the index of the membership
    moves; but an entry that was not committed can be replaced by another membership at the same index, in one
    message. In a cluster of five, a follower that had heard of node 6 being added at index 3 learns that it is node 7,
    at index 3: that membership is in force and committed, yet the follower still has a connection to node 6 and none
    to node 7, and, the indices being equal, looking again does not change that. *)
Theorem membership_change_missed :
  ∃ net s, run readding (boot_all five) = Some net ∧ net !! 2 = Some s ∧
    let n := rp_node (sh_replica s) in
    m_id <$> n_members n = [1; 2; 3; 4; 5; 7] ∧ n_membership_index n ≤ n_commit_index n ∧
    is_Some (ab_senders (sh_addresses s) !! 6) ∧ ab_senders (sh_addresses s) !! 7 = None ∧
    (∃ m, m ∈ n_members n ∧ m_id m = 7 ∧ parse_context (m_context m) = Some (node_addr 7, node_addr 7)) ∧
    shared_follow all_spawn s = s.
Proof.
  exists (after readding (boot_all five)), (at_node 2 (after readding (boot_all five))). cbv zeta. split_and!.
  - apply run_after. by_running.
  - apply lookup_at_node. by_running.
  - by vm_compute.
  - by vm_compute.
  - by_running.
  - by vm_compute.
  - exists (mkMember 7 (member_context (node_addr 7) (node_addr 7)) true). split_and!; [by_running|done|by vm_compute].
  - assert (∀ s : Shared MemStorage, ab_seen (sh_addresses s) = n_membership_index (rp_node (sh_replica s)) →
      shared_follow all_spawn s = s) as Hs; [|apply Hs; by vm_compute].
    intros [r c b] E. unfold shared_follow, follow_membership. cbn in *. by rewrite E, N.eqb_refl.
Qed.

(** ** An entry no message can carry *)

(** [propose] refuses a command bigger than [max_entry_bytes], since it would wedge the log; [propose_membership] takes
    a membership of any size, and [RAFT.ADD] an address of any length. *)
Example oversized_membership_accepted :
  let context := member_context (replicate 2000 x61) (lit "b") in
  let '(x, s) := membership_propose all_spawn (add_member 9 context) old_leader in
  x = inl (2, 1) ∧
  (max_entry_bytes (n_config (rp_node (sh_replica s))) <? default 0 (encoded_len <$> entry (n_storage (rp_node (sh_replica s))) 2)) = true.
Proof. vm_compute. by split. Qed.

(** ** The theorems on these runs *)

Lemma old_leader_log_wf : EntryLog_wf (slog (rp_node (sh_replica old_leader))).
Proof. by_running. Qed.

Lemma leader_messages_fit_witness :
  ∃ m, append_message_for (rp_node (sh_replica old_leader_wrote)) 2 = Ok (Send 2 m) ∧ blen (wire_encode m) + 12 ≤ MAX_FRAME.
Proof.
  eexists. split; [vm_compute; reflexivity|].
  refine (leader_messages_fit (rp_node (sh_replica old_leader_wrote)) 2 2 _ _ _ _ _ _).
  - by vm_compute.
  - by_running.
  - intros i e He. rewrite law_entry in He.
    rewrite EntryLog_entry_lookup in He by by_running. destruct (_ <=? _); [discriminate|].
    apply list_elem_of_lookup_2 in He. revert e He. apply list.Forall_forall. by_running.
  - assert (snapshot_members (n_storage (rp_node (sh_replica old_leader_wrote))) = None) as E by (vm_compute; reflexivity).
    intros ms Hms. exfalso. exact (eq_None_ne_Some_1 _ ms E Hms).
  - vm_compute. reflexivity.
Defined.

Lemma write_batch_lands_witness :
  entry (n_storage (rp_node (sh_replica old_leader_wrote))) 2 = Some (mkEntry 1 2 (Data ex_put)).
Proof.
  destruct (write_batch_lands [ex_put] old_leader old_leader_wrote [inl (2, 1)] old_leader_log_wf) as (_ & Hl & _).
  - unfold old_leader_wrote. rewrite (surjective_pairing (write_propose _ _)) at 1. apply (f_equal (λ x, (x, _))). vm_compute. reflexivity.
  - destruct (Hl 0%nat 2 1 eq_refl) as (_ & _ & c & [= <-] & He). exact He.
Defined.

Lemma membership_edits_exact_witness :
  ∃ ms, add_member 9 (lit "a b") (n_members (rp_node (sh_replica old_leader))) = inl ms ∧
    membership_refusal (rp_node (sh_replica old_leader)) ms = None.
Proof.
  assert (9 ∉ m_id <$> n_members (rp_node (sh_replica old_leader))) as H0 by by_running.
  assert (is_leader (rp_node (sh_replica old_leader)) = true) as H1 by by_running.
  assert (ready_to_serve (rp_node (sh_replica old_leader)) = true) as H2 by by_running.
  assert (n_membership_index (rp_node (sh_replica old_leader)) ≤ n_commit_index (rp_node (sh_replica old_leader))) as H3 by by_running.
  assert (NoDup (m_id <$> n_members (rp_node (sh_replica old_leader)))) as H4 by by_running.
  assert (n_voters (rp_node (sh_replica old_leader)) = config_voters (n_members (rp_node (sh_replica old_leader)))) as H5 by by_running.
  assert (n_voters (rp_node (sh_replica old_leader)) ≠ []) as H6 by by_running.
  revert H0 H1 H2 H3 H4 H5 H6. generalize (rp_node (sh_replica old_leader)) as n. intros n H0 H1 H2 H3 H4 H5 H6.
  destruct (membership_edits_exact n 9 (lit "a b") H1 H2 H3 H4 H5 H6) as [Ha _]. rewrite decide_False in Ha by exact H0.
  destruct Ha as (ms & E & _ & _ & _ & Hr). exists ms. exact (conj E Hr).
Defined.

(** A reader whose index is confirmed: the leader's own, after a round of heartbeats. *)
Definition reading : list (Net → option Net) :=
  settling ++ [raft_write 1] ++ exchange 1 [2; 3] ++ [tick 1].

Definition read_asked : ReadKind * Shared MemStorage := read_begin (at_node 1 (after reading (boot_all [1; 2; 3]))).
Definition read_confirmed : Net :=
  after (exchange 1 [2; 3]) (<[1 := read_asked.2]> (after reading (boot_all [1; 2; 3]))).

Example write_then_read : read_check (get_reply (lit "k")) read_asked.1 (at_node 1 read_confirmed) = Some (Bulk (lit "v")).
Proof. by vm_compute. Qed.

(** The same node, with a store that is known to mean a map. *)
Definition colours_shared : Shared MemStorage :=
  sh_set_replica (rp_set_store (colours Disk) (sh_replica (at_node 1 read_confirmed))) (at_node 1 read_confirmed).

Lemma cluster_read_exact_witness :
  read_check (get_reply (lit "grass")) read_asked.1 colours_shared = Some (Bulk (lit "green")) ∧
  ∃ index, read_state (rp_node (sh_replica colours_shared)) read_asked.1 = RReady index ∧ index ≤ rp_applied (sh_replica colours_shared).
Proof.
  assert (read_check (get_reply (lit "grass")) read_asked.1 colours_shared = Some (Bulk (lit "green"))) as E by (vm_compute; reflexivity).
  split; [exact E|].
  destruct (cluster_read_exact (lit "get") [lit "grass"] (get_reply (lit "grass")) read_asked.1 (Bulk (lit "green")) colours_shared
    {[lit "grass" := lit "green"]} (proj1 (colours_refines Disk)) eq_refl E) as [(index & H1 & H2 & _)|[_ Hf]].
  - exact (ex_intro _ index (conj H1 H2)).
  - unfold not_leader in Hf. destruct (_ ≫= _) in Hf; discriminate Hf.
Defined.
